(* ===== verification/_CoqProject ===== *)
-Q . S2P
Prelude.v
Bytes.v
Errors.v
Crc.v
Collections.v
Records.v
World.v
Wal.v
Memtable.v
Floats.v
Bloom.v
Cache.v
Format.v
Names.v
SsTables.v
TableWrite.v
TableRead.v
Integrity.v
Manifests.v
Merge.v
Compaction.v
Versions.v
Engine.v
EngineInv.v
Recovery.v
EngineOps.v
Compacting.v
EngineProps.v
Scan.v
Threads.v
Concurrent.v
Snapshots.v
Failures.v
Effects.v
Schedules.v
Closing.v
Statistics.v
Workload.v
Findings.v
UnitTests.v
