(* ===== verification/Prelude.v ===== *)
(** * A verification development for lsm-store

    lsm-store is an embedded key-value store: a log-structured merge tree with a
    write-ahead log, a memtable, sorted tables on disk, a manifest that lists
    them, and a background thread that compacts them.  This library is a shallow
    embedding of its Rust sources: data types are records and inductive types
    with the names of the code, functions are executable definitions, and the
    theorems below are about those definitions.

    ** How the program is put together

    A write is validated, appended to the log, synced, and applied to the
    memtable; a memtable that has grown too large is frozen, written as a table
    of level 0, recorded in the manifest, and the log is truncated.  A lookup
    asks the memtable, the frozen one, and the tables from the newest on, each
    guarded by its key range and its Bloom filter, through a block cache.  The
    worker merges level 0 into level 1, or a level that is too large into the
    next one, and installs the result in the manifest and in the version.
    Opening a directory replays the manifest, opens the tables and replays the
    log.

    ** Files

    - [Prelude]: tactics, lengths, slices, [first_some], filters.
    - [Bytes]: bytes, wrap-around at 32 and 64 bits, little-endian integers, and
      the order on keys with its decision procedure [key_order].
    - [Errors]: [Error] (src/error.rs), [result] with a constructor for panics,
      the [Options] (src/options.rs).
    - [Crc] (src/crc.rs) and [Collections]: the checksum; sorted association
      lists for [BTreeMap], binary search and sorting of the standard library.
    - [World]: the file system, its failures, crashes, the effect monad [M] and
      the rules of its weakest preconditions [wp]; fault injection
      ([failpoints] of src/wal.rs).
    - [Floats]: the [f64] operations of the code, and what rounding can do.
    - [Records] (src/record.rs), [Wal] (src/wal.rs), [Memtable]
      (src/memtable.rs), [Bloom] (src/bloom.rs), [Cache] (src/cache.rs),
      [Manifests] (src/manifest.rs): one component each, definitions and
      properties.
    - Tables (src/sstable.rs): [Format] encodes and decodes blocks, index and
      footer, [Names] the file names, [SsTables] holds the operations on files,
      [TableWrite] and [TableRead] the proofs about them, [Integrity] files in
      which a byte has changed.
    - [Merge]: the reference for every merge, [newest] and [is_merge].
      [Compaction] (src/compaction.rs): the heap merge, the output table, the
      worker's loop.
    - src/engine.rs: [Versions] has levels, the choice of a compaction and its
      installation; [Engine] the public API and the two halves of a compaction;
      [EngineInv] the invariant [engine_ok]; [Recovery], [EngineOps] and
      [Compacting] the proofs for opening, writing and flushing, compacting;
      [EngineProps] the step relation, reachable states and the theorems;
      [Scan] range scans; [Threads] the sections of the methods between two
      locks, [Concurrent] the two threads interleaved at them, [Snapshots] scans
      read while the engine goes on, [Failures] sections that fail; [Effects]
      what flushes and compactions do to the tables; [Schedules] whole calls of
      the owner beside the worker, on any schedule; [Closing] shutdown, [close]
      and going out of scope.
    - src/bin/workload.rs: [Statistics] has the percentiles and the report,
      [Workload] the benchmark driver as a client of the engine.
    - [Findings]: runs in which the code does not do what it documents.
    - [UnitTests]: the test modules of the crate, run on the model.

    ** Models of the surroundings

    A computation is a function from a state to a result and a state, so an
    error keeps the changes made before it.  A [World] maps file names to a
    current and a synced content.  After [crashed] a file has its synced
    content followed by any part, from none to all, of what was appended to it
    since; holes and garbage in the unsynced part are not considered, and a
    file that was rewritten has the old content or the new one.  A list of failures in the world decides which calls fail and, for a
    write, after how many bytes; theorems quantify over it, and [quiet] says
    that no failure is pending.  Renaming, creating and removing a file is
    atomic and durable at once, so that the syncs of the directory, which the
    README calls best effort on Windows, are calls that may fail and do nothing
    else.  [M] keeps panics apart from errors: every theorem that
    gives a result also excludes index, arithmetic and [expect] panics.

    [f64] is IEEE 754 binary64, computed with the Standard Library's
    [spec_float].  The Bloom filter's size also takes [ln] and [powi], whose
    precision the standard library of Rust leaves open: they are the parameter
    [Libm], and [libm_ok] asks for coarse bounds on the results they are called
    for.  The filter has no false negatives whatever the parameter is;
    [demo_libm] is the instance of the examples.  The clock of the workload
    driver is a parameter too, any sequence of readings.

    The background thread comes at two grains.  In [EngineProps] a call of the
    user is one step, and a compaction two: [compact_begin] plans it and writes
    its output, [compact_finish] installs it.  In [Concurrent] the steps are the
    sections of [Threads]: what a method does between two points where it takes
    or releases the lock of the version or of the manifest.  The sections of
    writes and flushes interleave with those of compactions, a lookup can come
    between any two of them, and so can a crash.  A lookup is one step, since it
    holds the lock of the version to its end and no section writes to a table of
    the version.  What a thread does with files that only it knows is one section
    with its own outcome.  One compaction runs at a time, on the worker or on the
    calling thread; what happens otherwise is [overlapping_compactions_resurrect].
    [Schedules] runs whole methods of the owner ([Owner.put], [Owner.get],
    [Owner.flush], [Owner.close]) section by section, and before each section
    the worker takes as many turns as a schedule says, a list of numbers that is
    part of the state: each turn is a section of its compaction, or the first
    section of the one that the next message asks for.  The schedule is a
    parameter of the workload driver's [main] beside the clock, and theorems hold
    for every schedule.  The methods of [Engine] themselves are those of a worker
    that gets no turn before [close] ([write_alone]).

    ** What the theorems show

    - The engine: in every reachable state lookups and scans answer as the
      finite map of the acknowledged writes ([engine_refines_map],
      [scan_refines_map]), which survives crashes between calls
      ([acknowledged_writes_survive]); the fields of the state fit each other
      ([reachable_well_typed]); failed writes and flushes are all or
      nothing or lose nothing ([write_failure_atomic], [flush_failure_safe]);
      compactions that do not overlap are invisible, also when they fail
      ([compact_transparent], [apply_compaction_preserves]), though one that
      fails within its manifest records may not be recovered
      ([partial_compaction_is_stale]); both do their work ([flush_effective],
      [compact_effective]); an engine that is closed or goes out of scope stops
      its worker once ([end_of_scope_once]); [close] makes the log durable, and
      without failures ends and handles the requested compactions
      ([close_durable]); without I/O failures nothing fails
      ([engine_progress], [workload_runs]); invalid arguments
      are rejected ([invalid_arguments_rejected]).
    - The two threads: the methods are their sections ([methods_in_sections]);
      whatever the interleaving, lookups answer as the map and a crash between
      any two sections recovers it ([concurrent_refines_map]); no thread gets
      stuck ([concurrent_progress]); whole calls refine the map on every
      schedule ([calls_refine_map]); a section that fails loses nothing, except
      that a compaction that fails in its manifest records is vouched for only
      until the restart ([failed_section_safe]); a scan yields the map as it was when it was
      opened ([scan_snapshot]).  The proof follows the engine that has caught up
      with the manifest ([caught_up]); a flushed table and a compaction commute
      ([insert_apply_commute]).
    - Tables: a table reads back what was written, before and after a crash
      ([table_read_write], [create_open_roundtrip]), writing is atomic
      ([create_failure_atomic]), a changed byte is never read as data
      ([table_detects_corruption]), formats round-trip and decoders are total
      ([block_roundtrip], [index_footer_roundtrip], [table_decoders_total],
      [open_total]).
    - The log and the manifest: crash consistency ([append_sync_crash],
      [manifest_crash_consistent], which covers the changes up to the first
      that fails), replay of every byte string ([replay_sound],
      [replay_torn_tail], [manifest_recover_total]), records and corruption
      ([decode_encode_iff], [decode_total], [encode_spec],
      [decode_detects_corruption], [manifest_detects_corruption]).
    - In memory: the memtable is a finite map with an exact size
      ([memtable_refines_map], [insert_no_underflow]), the cache is LRU and
      bounded ([cache_insert_spec], [cache_get_spec]), the Bloom filter has no
      false negatives, fits the file format at any rate and round-trips
      ([bloom_no_false_negative], [bloom_filter_fits], [bloom_roundtrip],
      [bloom_decode_total]).
    - Compaction: the heap merge is the newest-wins merge
      ([merge_tables_correct], [merge_tables_safe]) and the worker drains its
      channel ([worker_shutdown_spec]).
    - The workload driver: it runs to its end and leaves the database it
      describes on every schedule ([workload_runs]); a percentile is the latency
      at its rank ([percentile_rank], [report_percentiles]).
    - [Findings] are runs, not general statements: each is one sequence of calls
      that ends in a state the documentation rules out.

    ** Bounds and fuel

    Loops that are not structural take fuel, and their theorems prove that it
    is enough: decoders one unit per byte, the table iterator one per block
    left, the merge one per byte of its inputs ([merge_fuel_enough]), a scan one
    per entry its sources can have ([iter_fuel_enough], [scan_fuel_enough]).
    Running out of fuel is a panic, so no theorem holds because of it.  The
    engine's theorems bound the number of steps by 2^30: it bounds entries per
    table and table ids, which the format keeps in 32 and 64 bits.  With two
    threads, recording a flushed table counts its entries too, since a crash
    before the log is truncated leaves them in the log and in the table.  The
    theorems on schedules count in advance what is left of a flush, of a
    compaction and of the channel: fifteen steps for each call of the owner,
    which leaves 2^26 operations to the workload driver.
    Options must have at least two levels and a block size of at most 2^31.

    ** Not modelled

    The text of the numbers that the workload driver prints;
    src/lib.rs, which only declares modules; poisoned locks, as no panic happens
    under a lock in the states considered; memory exhaustion, so that the
    [Vec::with_capacity] of the block and index decoders, on a count of 32 bits
    that was read, has no counterpart; what the two
    threads do after a section has failed ([failed_section_safe] is about the
    state it leaves, and nothing general holds later, see
    [second_flush_loses_writes]), except for a merge that fails; the path of the
    directory, since all files are in one.  The integration tests and the
    benchmarks of the repository are not translated. *)

From stdpp Require Export base decidable list sorting gmap strings.
From Stdlib Require Export ZArith Lia.
From Stdlib Require Export Strings.Byte.

#[global] Open Scope Z_scope.

(** ** Tactics *)

(** Split every conjunction and existential of the context. *)
Ltac crush_ctx :=
  repeat match goal with
  | H : _ /\ _ |- _ => destruct H
  | H : ex _ |- _ => destruct H
  | H : prod _ _ |- _ => destruct H
  end.

(** Turn the boolean comparisons of the code into propositions. *)
Ltac reflect_bools :=
  repeat match goal with
  | H : (_ <? _)%Z = true |- _ => apply Z.ltb_lt in H
  | H : (_ <? _)%Z = false |- _ => apply Z.ltb_ge in H
  | H : (_ <=? _)%Z = true |- _ => apply Z.leb_le in H
  | H : (_ <=? _)%Z = false |- _ => apply Z.leb_gt in H
  | H : (_ =? _)%Z = true |- _ => apply Z.eqb_eq in H
  | H : (_ =? _)%Z = false |- _ => apply Z.eqb_neq in H
  | H : (_ && _) = true |- _ => apply andb_true_iff in H as [? ?]
  | H : (_ || _) = false |- _ => apply orb_false_iff in H as [? ?]
  | H : negb _ = true |- _ => apply negb_true_iff in H
  | H : negb _ = false |- _ => apply negb_false_iff in H
  end.

(** Case analysis on the test of the outermost [if] of the goal, with its
    propositional reading in the context. *)
Ltac case_if :=
  match goal with
  | |- context [if ?b then _ else _] =>
      lazymatch b with
      | (?x <? ?y)%Z => destruct (Z.ltb_spec x y)
      | (?x <=? ?y)%Z => destruct (Z.leb_spec x y)
      | (?x =? ?y)%Z => destruct (Z.eqb_spec x y)
      | _ => let E := fresh "E" in destruct b eqn:E; reflect_bools
      end
  end.

(** ** Lengths of vectors

    A Rust [Vec] length is a [usize]; it is kept as a [Z] so that the sizes
    read from a file, which may be as large as [2^64], stay computable. *)
Definition len {A} (l : list A) : Z := Z.of_nat (length l).

#[global] Arguments len {A} l : simpl never.

Lemma len_nil {A} : len (@nil A) = 0.
Proof. done. Qed.

Lemma len_cons {A} (x : A) l : len (x :: l) = 1 + len l.
Proof. unfold len. simpl length. lia. Qed.

Lemma len_app {A} (l k : list A) : len (l ++ k) = len l + len k.
Proof. unfold len. rewrite length_app. lia. Qed.

Lemma len_nonneg {A} (l : list A) : 0 <= len l.
Proof. unfold len. lia. Qed.

Lemma len_0_nil {A} (l : list A) : len l = 0 -> l = [].
Proof. destruct l; [done|]. rewrite len_cons. pose proof (len_nonneg l). lia. Qed.

Lemma len_replicate {A} n (x : A) : len (replicate n x) = Z.of_nat n.
Proof. unfold len. by rewrite length_replicate. Qed.

Lemma len_fmap {A B} (f : A -> B) l : len (f <$> l) = len l.
Proof. unfold len. by rewrite length_fmap. Qed.

Create HintDb len.
#[export] Hint Rewrite @len_nil @len_cons @len_app @len_replicate @len_fmap : len.

(** Normalise lengths, recall that they are not negative, and call [lia]. *)
Ltac len_lia :=
  autorewrite with len in *;
  repeat match goal with
  | |- context [len ?l] => learn_nonneg l
  | H : context [len ?l] |- _ => learn_nonneg l
  end; lia
with learn_nonneg l :=
  lazymatch goal with
  | _ : 0 <= len l |- _ => fail
  | _ => pose proof (len_nonneg l)
  end.

(** [&v[a..b]], with [None] where Rust panics. *)
Definition sub_list {A} (l : list A) (a b : Z) : option (list A) :=
  if (0 <=? a) && (a <=? b) && (b <=? len l)
  then Some (take (Z.to_nat (b - a)) (drop (Z.to_nat a) l))
  else None.

(** The middle of three concatenated parts is the slice between their lengths. *)
Lemma sub_list_app {A} (l1 l2 l3 : list A) a b :
  a = len l1 -> b = len l1 + len l2 -> sub_list (l1 ++ l2 ++ l3) a b = Some l2.
Proof.
  intros -> ->. unfold sub_list.
  replace ((0 <=? len l1) && (len l1 <=? len l1 + len l2)
    && (len l1 + len l2 <=? len (l1 ++ l2 ++ l3))) with true
    by (symmetry; rewrite !andb_true_iff, !Z.leb_le; len_lia).
  f_equal. rewrite drop_app_length' by (unfold len; lia).
  rewrite take_app_length'; [done|]. unfold len. lia.
Qed.

Lemma sub_list_Some {A} (l : list A) a b :
  0 <= a <= b -> b <= len l -> exists s, sub_list l a b = Some s /\ len s = b - a.
Proof.
  intros H1 H2. unfold sub_list.
  replace ((0 <=? a) && (a <=? b) && (b <=? len l)) with true
    by (symmetry; rewrite !andb_true_iff, !Z.leb_le; lia).
  eexists; split; [done|]. unfold len in *. rewrite length_take, length_drop. lia.
Qed.

Lemma sub_list_split {A} (l : list A) a b s :
  sub_list l a b = Some s ->
  exists l1 l3, l = l1 ++ s ++ l3 /\ len l1 = a /\ len s = b - a.
Proof.
  unfold sub_list. case_if; [|done]. intros [= <-]. reflect_bools.
  exists (take (Z.to_nat a) l), (drop (Z.to_nat (b - a)) (drop (Z.to_nat a) l)).
  rewrite take_drop, take_drop. unfold len in *.
  rewrite !length_take, length_drop. split_and!; [done|lia|lia].
Qed.

(** ** First-success search, the shape of every layered lookup *)

(** The first [Some] that [f] gives along [l]. *)
Fixpoint first_some {A B} (f : A -> option B) (l : list A) : option B :=
  match l with
  | [] => None
  | x :: l' => match f x with Some y => Some y | None => first_some f l' end
  end.

Section first_some.
Context {A B : Type} (f : A -> option B).

Lemma first_some_app l1 l2 :
  first_some f (l1 ++ l2) =
  match first_some f l1 with Some y => Some y | None => first_some f l2 end.
Proof. induction l1 as [|x l1 IH]; simpl; [done|]. by destruct (f x). Qed.

Lemma first_some_None l : first_some f l = None <-> Forall (fun x => f x = None) l.
Proof.
  induction l as [|x l IH]; simpl; [by split|].
  rewrite Forall_cons. destruct (f x); naive_solver.
Qed.

Lemma first_some_Some l y :
  first_some f l = Some y -> exists x, x ∈ l /\ f x = Some y.
Proof.
  induction l as [|x l IH]; simpl; [done|]. destruct (f x) eqn:E.
  - intros [= ->]. exists x. by rewrite list_elem_of_In; simpl; auto.
  - intros (z & Hz & Hf)%IH. exists z. split; [by right|done].
Qed.

(** When every answer is the same, the order of the elements is irrelevant. *)
Lemma first_some_agree l x y :
  x ∈ l -> f x = Some y -> (forall z, z ∈ l -> f z = None \/ f z = Some y) ->
  first_some f l = Some y.
Proof.
  induction l as [|z l IH]; simpl; [set_solver|].
  intros Hx Hf Hu. destruct (Hu z) as [E|E]; [by left|rewrite E|by rewrite E].
  apply IH; [|done|].
  - apply elem_of_cons in Hx as [->|]; [congruence|done].
  - intros z' ?. apply Hu. by right.
Qed.

Lemma first_some_ext (g : A -> option B) l :
  (forall x, x ∈ l -> f x = g x) -> first_some f l = first_some g l.
Proof.
  induction l as [|x l IH]; simpl; intros H; [done|].
  rewrite (H x) by left. destruct (g x); [done|]. apply IH. intros; apply H. by right.
Qed.

End first_some.

(** A filter that keeps everything, and one that keeps nothing. *)
Lemma filter_all {A} (P : A -> Prop) `{!forall x, Decision (P x)} l :
  Forall P l -> base.filter P l = l.
Proof. induction 1 as [|x l Hx Hl IH]; [done|]. by rewrite filter_cons_True, IH. Qed.

Lemma filter_none {A} (P : A -> Prop) `{!forall x, Decision (P x)} l :
  Forall (fun x => ~ P x) l -> base.filter P l = [].
Proof. induction 1 as [|x l Hx Hl IH]; [done|]. by rewrite filter_cons_False, IH. Qed.

(** Filters that agree on the elements of the list. *)
Lemma filter_ext_elem {A} (P Q : A -> Prop) `{!forall x, Decision (P x), !forall x, Decision (Q x)} (l : list A) :
  (forall x, x ∈ l -> P x <-> Q x) -> base.filter P l = base.filter Q l.
Proof.
  induction l as [|x l IH]; intros Hpq; [done|]. rewrite !filter_cons.
  assert (P x <-> Q x) as Hx by (apply Hpq; left).
  rewrite IH by (intros; apply Hpq; by right). destruct (decide (P x)), (decide (Q x)); naive_solver.
Qed.

(** Related lists: the partner of an element. *)
Lemma Forall2_elem_l {A B} (R : A -> B -> Prop) l k x :
  Forall2 R l k -> x ∈ l -> exists y, y ∈ k /\ R x y.
Proof.
  intros HR [i Hi]%list_elem_of_lookup. destruct (Forall2_lookup_l _ _ _ _ _ HR Hi) as (y & Hy & ?).
  exists y. split; [by eapply list_elem_of_lookup_2|done].
Qed.

Lemma Forall2_elem_r {A B} (R : A -> B -> Prop) l k y :
  Forall2 R l k -> y ∈ k -> exists x, x ∈ l /\ R x y.
Proof.
  intros HR [i Hi]%list_elem_of_lookup. destruct (Forall2_lookup_r _ _ _ _ _ HR Hi) as (x & Hx & ?).
  exists x. split; [by eapply list_elem_of_lookup_2|done].
Qed.

Lemma elem_of_concat {A} (x : A) (ls : list (list A)) : x ∈ concat ls <-> exists l, x ∈ l /\ l ∈ ls.
Proof.
  rewrite list_elem_of_In, in_concat. split; intros (l & H1 & H2); exists l;
    rewrite !list_elem_of_In in *; auto.
Qed.

Lemma filter_concat {A} (P : A -> Prop) `{!forall x, Decision (P x)} (ls : list (list A)) :
  base.filter P (concat ls) = concat ((fun l => base.filter P l) <$> ls).
Proof. induction ls as [|l ls IH]; [done|]. cbn. by rewrite filter_app, IH. Qed.

(** Filtering by a property of an image. *)
Lemma fmap_filter_comm {A B} (f : A -> B) (P : B -> Prop) `{!forall x, Decision (P (f x))}
    `{!forall y, Decision (P y)} (l : list A) :
  f <$> base.filter (fun x => P (f x)) l = base.filter P (f <$> l).
Proof.
  induction l as [|x l IH]; [done|]. rewrite fmap_cons, !filter_cons.
  destruct (decide _), (decide _); [by rewrite fmap_cons, IH|done|done|done].
Qed.

Lemma filter_reverse {A} (P : A -> Prop) `{!forall y, Decision (P y)} (l : list A) :
  base.filter P (reverse l) = reverse (base.filter P l).
Proof.
  induction l as [|x l IH]; [done|]. rewrite reverse_cons, filter_app, IH, !filter_cons.
  case_decide; [by rewrite reverse_cons|]. by rewrite app_nil_r.
Qed.

Lemma filter_comm {A} (P Q : A -> Prop) `{!forall y, Decision (P y), !forall y, Decision (Q y)} (l : list A) :
  base.filter P (base.filter Q l) = base.filter Q (base.filter P l).
Proof.
  induction l as [|x l IH]; [done|]. rewrite !filter_cons.
  destruct (decide (P x)) as [HP|HP], (decide (Q x)) as [HQ|HQ]; rewrite ?filter_cons, ?IH;
    rewrite ?(decide_True _ _ HP), ?(decide_True _ _ HQ), ?(decide_False _ _ HP), ?(decide_False _ _ HQ);
    by rewrite ?IH.
Qed.
