(* ===== verification/Bytes.v ===== *)
(** * Bytes, little-endian integers and the order on keys

    [u8] is [Byte.byte]; [u32], [u64] and [usize] are [Z] values kept in their
    range by the operations of this file, which write out the wrap-around of
    [to_le_bytes] after an [as u32] cast.  [Vec<u8>] and [&[u8]] are
    [list byte]; their [Ord] is the lexicographic order [bytes_cmp]. *)

From S2P Require Import Prelude.
From Stdlib Require Import OrdersTac Orders.

(** ** Bytes and integers *)

#[global] Instance byte_eq_dec : EqDecision byte := Byte.byte_eq_dec.

Definition b2z (b : byte) : Z := Z.of_N (Byte.to_N b).

Definition z2b (z : Z) : byte :=
  match Byte.of_N (Z.to_N (z mod 256)) with Some b => b | None => x00 end.

Lemma b2z_range b : 0 <= b2z b < 256.
Proof. unfold b2z. pose proof (Byte.to_N_bounded b). lia. Qed.

Lemma b2z_z2b z : b2z (z2b z) = z mod 256.
Proof.
  unfold b2z, z2b. pose proof (Z.mod_pos_bound z 256 ltac:(lia)) as H.
  destruct (Byte.of_N _) eqn:E.
  - apply Byte.to_of_N in E. rewrite E, Z2N.id; lia.
  - apply Byte.of_N_None_iff in E. lia.
Qed.

Lemma z2b_b2z b : z2b (b2z b) = b.
Proof.
  unfold z2b. rewrite Z.mod_small by apply b2z_range. unfold b2z.
  by rewrite N2Z.id, Byte.of_to_N.
Qed.

Lemma b2z_inj a b : b2z a = b2z b -> a = b.
Proof. intros H. by rewrite <- (z2b_b2z a), <- (z2b_b2z b), H. Qed.

#[global] Instance byte_countable : Countable byte :=
  inj_countable' b2z z2b z2b_b2z.

Abbreviation u32_max := (2 ^ 32 - 1).
Abbreviation u64_max := (2 ^ 64 - 1).
Definition wrap32 (z : Z) : Z := z mod 2 ^ 32.
Definition wrap64 (z : Z) : Z := Z.land z 0xFFFFFFFFFFFFFFFF.

Lemma wrap64_mod z : wrap64 z = z mod 2 ^ 64.
Proof. apply (Z.land_ones z 64). lia. Qed.

(** [n] little-endian bytes of [z]: [to_le_bytes] of [z as u(8n)]. *)
Fixpoint le_bytes (n : nat) (z : Z) : list byte :=
  match n with
  | O => []
  | S n' => z2b z :: le_bytes n' (z / 256)
  end.

(** The value of little-endian bytes: [from_le_bytes]. *)
Fixpoint le_value (l : list byte) : Z :=
  match l with
  | [] => 0
  | b :: l' => b2z b + 256 * le_value l'
  end.

Lemma length_le_bytes n z : length (le_bytes n z) = n.
Proof. revert z; induction n; simpl; auto. Qed.

Lemma len_le_bytes n z : len (le_bytes n z) = Z.of_nat n.
Proof. unfold len. by rewrite length_le_bytes. Qed.

#[export] Hint Rewrite len_le_bytes : len.

Lemma le_value_le_bytes n z : le_value (le_bytes n z) = z mod 256 ^ Z.of_nat n.
Proof.
  revert z; induction n as [|n IH]; intros z; simpl le_value.
  { simpl. by rewrite Z.mod_1_r. }
  rewrite IH, b2z_z2b, Nat2Z.inj_succ, Z.pow_succ_r by lia.
  rewrite Z.rem_mul_r by lia. lia.
Qed.

Lemma le_value_range l : 0 <= le_value l < 256 ^ len l.
Proof.
  induction l as [|b l IH]; [by simpl|]. simpl le_value.
  rewrite len_cons, Z.add_comm, Z.pow_add_r by (pose proof (len_nonneg l); lia).
  pose proof (b2z_range b). lia.
Qed.

Lemma le_bytes_le_value l : le_bytes (length l) (le_value l) = l.
Proof.
  induction l as [|b l IH]; [done|]. simpl.
  pose proof (b2z_range b) as H. f_equal.
  - apply b2z_inj. rewrite b2z_z2b, Z.mul_comm, Z.mod_add by lia.
    by apply Z.mod_small.
  - rewrite Z.mul_comm, Z.div_add, (Z.div_small (b2z b)) by lia. done.
Qed.

Lemma le_value_inj l k : length l = length k -> le_value l = le_value k -> l = k.
Proof.
  intros Hl Hv. by rewrite <- (le_bytes_le_value l), <- (le_bytes_le_value k), Hv, Hl.
Qed.

Lemma le_value_u32 z : 0 <= z < 2 ^ 32 -> le_value (le_bytes 4 z) = z.
Proof. intros. rewrite le_value_le_bytes. by apply Z.mod_small. Qed.

Lemma le_value_u64 z : 0 <= z < 2 ^ 64 -> le_value (le_bytes 8 z) = z.
Proof. intros. rewrite le_value_le_bytes. by apply Z.mod_small. Qed.

(** Cutting a byte string, and reading the cut part as an integer. *)
Lemma split_at {A} (l : list A) n :
  0 <= n <= len l -> exists l1 l2, l = l1 ++ l2 /\ len l1 = n.
Proof.
  intros H. exists (take (Z.to_nat n) l), (drop (Z.to_nat n) l).
  rewrite take_drop. unfold len in *. rewrite length_take. split; [done|lia].
Qed.

Lemma le_field l n : len l = Z.of_nat n -> exists z, l = le_bytes n z /\ 0 <= z < 256 ^ Z.of_nat n.
Proof.
  intros H. exists (le_value l). assert (n = length l) as -> by (unfold len in H; lia).
  rewrite le_bytes_le_value. split; [done|apply le_value_range].
Qed.

#[global] Opaque le_bytes le_value.

(** ** The lexicographic order on byte strings *)

Abbreviation bytes := (list byte).

Fixpoint bytes_cmp (a b : bytes) : comparison :=
  match a, b with
  | [], [] => Eq
  | [], _ :: _ => Lt
  | _ :: _, [] => Gt
  | x :: a', y :: b' =>
      match (b2z x ?= b2z y)%Z with
      | Eq => bytes_cmp a' b'
      | c => c
      end
  end.

Definition key_lt (a b : bytes) : Prop := bytes_cmp a b = Lt.
Definition key_le (a b : bytes) : Prop := bytes_cmp a b <> Gt.
Definition key_ltb (a b : bytes) : bool :=
  match bytes_cmp a b with Lt => true | _ => false end.
Definition key_leb (a b : bytes) : bool :=
  match bytes_cmp a b with Gt => false | _ => true end.

Lemma bytes_cmp_refl a : bytes_cmp a a = Eq.
Proof. induction a; simpl; [done|]. by rewrite Z.compare_refl. Qed.

Lemma bytes_cmp_eq a b : bytes_cmp a b = Eq <-> a = b.
Proof.
  split; [|intros ->; apply bytes_cmp_refl].
  revert b; induction a as [|x a IH]; intros [|y b]; simpl; try done.
  destruct (Z.compare_spec (b2z x) (b2z y)) as [E| |]; try done.
  intros ->%IH. by rewrite (b2z_inj x y).
Qed.

Lemma bytes_cmp_antisym a b : bytes_cmp b a = CompOpp (bytes_cmp a b).
Proof.
  revert b; induction a as [|x a IH]; intros [|y b]; simpl; try done.
  rewrite (Z.compare_antisym (b2z x) (b2z y)). by destruct (Z.compare _ _); simpl.
Qed.

Lemma key_lt_trans a b c : key_lt a b -> key_lt b c -> key_lt a c.
Proof.
  unfold key_lt. revert b c.
  induction a as [|x a IH]; intros [|y b] [|z c]; simpl; try done.
  destruct (Z.compare_spec (b2z x) (b2z y)) as [E1|E1|E1],
    (Z.compare_spec (b2z y) (b2z z)) as [E2|E2|E2]; try done; intros H1 H2;
  destruct (Z.compare_spec (b2z x) (b2z z)) as [E3|E3|E3]; try done; try lia; eauto.
Qed.

#[global] Instance key_lt_strorder : StrictOrder key_lt.
Proof.
  split; [|intros a b c; apply key_lt_trans].
  intros a. unfold complement, key_lt. by rewrite bytes_cmp_refl.
Qed.

#[global] Instance key_lt_dec a b : Decision (key_lt a b).
Proof. unfold key_lt. apply _. Defined.

#[global] Instance key_le_dec a b : Decision (key_le a b).
Proof. unfold key_le. apply _. Defined.

Lemma key_le_lteq a b : key_le a b <-> key_lt a b \/ a = b.
Proof.
  unfold key_le, key_lt. rewrite <- bytes_cmp_eq.
  destruct (bytes_cmp a b); naive_solver.
Qed.

Lemma key_lt_total a b : key_lt a b \/ a = b \/ key_lt b a.
Proof.
  unfold key_lt. rewrite <- bytes_cmp_eq, (bytes_cmp_antisym a b).
  destruct (bytes_cmp a b); simpl; auto.
Qed.

Lemma bytes_cmp_gt a b : bytes_cmp a b = Gt <-> key_lt b a.
Proof. unfold key_lt. rewrite (bytes_cmp_antisym a b). by destruct (bytes_cmp a b). Qed.

Lemma bytes_cmp_lt a b : bytes_cmp a b = Lt <-> key_lt a b.
Proof. done. Qed.

Lemma key_ltb_lt a b : key_ltb a b = true <-> key_lt a b.
Proof. unfold key_ltb, key_lt. by destruct (bytes_cmp a b). Qed.

Lemma key_leb_le a b : key_leb a b = true <-> key_le a b.
Proof. unfold key_leb, key_le. by destruct (bytes_cmp a b). Qed.

Lemma key_nle_gt a b : ~ key_le a b <-> key_lt b a.
Proof.
  unfold key_le, key_lt. rewrite (bytes_cmp_antisym a b).
  by destruct (bytes_cmp a b); simpl; naive_solver.
Qed.

Lemma key_nlt_ge a b : ~ key_lt a b <-> key_le b a.
Proof.
  unfold key_le, key_lt. rewrite (bytes_cmp_antisym a b).
  by destruct (bytes_cmp a b); simpl; naive_solver.
Qed.

Lemma key_ltb_ge a b : key_ltb a b = false <-> key_le b a.
Proof. rewrite <- key_nlt_ge, <- key_ltb_lt. by destruct (key_ltb a b). Qed.

Lemma key_leb_gt a b : key_leb a b = false <-> key_lt b a.
Proof. rewrite <- key_nle_gt, <- key_leb_le. by destruct (key_leb a b). Qed.

(** The empty byte string is below every other one. *)
Lemma key_le_nil a : key_le [] a.
Proof. unfold key_le. by destruct a. Qed.

(** A total-order solver for goals over [key_lt], [key_le] and equality. *)
Module KeyOrder <: EqLtLe.
Definition t := bytes.
Definition eq := @Logic.eq bytes.
Definition lt := key_lt.
Definition le := key_le.
End KeyOrder.

Module KeyTotal <: IsTotalOrder KeyOrder.
Definition eq_equiv : Equivalence KeyOrder.eq := eq_equivalence.
Definition lt_strorder : StrictOrder KeyOrder.lt := key_lt_strorder.
Lemma lt_compat : Proper (KeyOrder.eq ==> KeyOrder.eq ==> iff) KeyOrder.lt.
Proof. by intros ? ? -> ? ? ->. Qed.
Definition le_lteq : forall x y, KeyOrder.le x y <-> KeyOrder.lt x y \/ KeyOrder.eq x y
  := key_le_lteq.
Definition lt_total : forall x y, KeyOrder.lt x y \/ KeyOrder.eq x y \/ KeyOrder.lt y x
  := key_lt_total.
End KeyTotal.

Module KeyTac := MakeOrderTac KeyOrder KeyTotal.

(** Read the boolean key comparisons, then decide by the order's laws. *)
Ltac reflect_keys :=
  repeat match goal with
  | H : key_ltb _ _ = true |- _ => apply key_ltb_lt in H
  | H : key_ltb _ _ = false |- _ => apply key_ltb_ge in H
  | H : key_leb _ _ = true |- _ => apply key_leb_le in H
  | H : key_leb _ _ = false |- _ => apply key_leb_gt in H
  | |- key_ltb _ _ = true => apply key_ltb_lt
  | |- key_ltb _ _ = false => apply key_ltb_ge
  | |- key_leb _ _ = true => apply key_leb_le
  | |- key_leb _ _ = false => apply key_leb_gt
  end.

Ltac key_order :=
  reflect_keys;
  change key_lt with KeyOrder.lt in *; change key_le with KeyOrder.le in *;
  change (@Logic.eq bytes) with KeyOrder.eq in *; KeyTac.order.
