(* ===== verification/Errors.v ===== *)
(** * The crate's error type, its results and its options

    [src/error.rs] and [src/options.rs].  A fallible Rust function returns
    [result A]: [Ok], [Err] with the crate's [Error], or [Panic], which stands
    for a Rust panic (a slice out of range, an integer overflow with overflow
    checks on).  Theorems that say a function never gives [Panic] are therefore
    statements about every input. *)

From S2P Require Import Prelude Bytes.

(** ** Errors *)

(** The [std::io::ErrorKind]s the engine meets; [OtherKind] stands for any
    further kind the operating system reports. *)
Inductive ErrorKind :=
| NotFound
| UnexpectedEof
| Other
| OtherKind (code : Z).

#[global] Instance ErrorKind_eq_dec : EqDecision ErrorKind.
Proof. solve_decision. Defined.

(** [std::io::Error]: its kind and the text it prints. *)
Record io_error := IoError { io_kind : ErrorKind; io_message : string }.

Inductive Error :=
| Io (source : io_error)
| EmptyKey
| CorruptedRecord
| InvalidChecksum
| InvalidManifest
| KeyTooLarge
| ValueTooLarge
| Compaction (message : string).

(** [impl Display for Error]. *)
Definition error_to_string (e : Error) : string :=
  match e with
  | Io source => "i/o error: " +:+ io_message source
  | EmptyKey => "keys must not be empty"
  | CorruptedRecord => "corrupted record"
  | InvalidChecksum => "invalid checksum"
  | InvalidManifest => "invalid manifest"
  | KeyTooLarge => "key exceeds the maximum allowed size"
  | ValueTooLarge => "value exceeds the maximum allowed size"
  | Compaction message => "compaction error: " +:+ message
  end.

(** [std::error::Error::source]. *)
Definition error_source (e : Error) : option io_error :=
  match e with Io source => Some source | _ => None end.

(** [impl PartialEq for Error]: I/O errors are compared by kind only. *)
Definition error_eqb (a b : Error) : bool :=
  match a, b with
  | EmptyKey, EmptyKey
  | CorruptedRecord, CorruptedRecord
  | InvalidChecksum, InvalidChecksum
  | InvalidManifest, InvalidManifest
  | KeyTooLarge, KeyTooLarge
  | ValueTooLarge, ValueTooLarge => true
  | Compaction x, Compaction y => bool_decide (x = y)
  | Io x, Io y => bool_decide (io_kind x = io_kind y)
  | _, _ => false
  end.

(** ** Results *)

Inductive result (A : Type) :=
| Ok (a : A)
| Err (e : Error)
| Panic.
Arguments Ok {A} a.
Arguments Err {A} e.
Arguments Panic {A}.

Definition rbind {A B} (r : result A) (f : A -> result B) : result B :=
  match r with Ok a => f a | Err e => Err e | Panic => Panic end.

(** Run the bound results of the goal that are already values. *)
Ltac rsimpl := cbn [rbind].

(** A value that Rust unwraps, or panics. *)
Definition or_panic {A} (o : option A) : result A :=
  match o with Some a => Ok a | None => Panic end.

Definition is_ok {A} (r : result A) : bool :=
  match r with Ok _ => true | _ => false end.

Declare Scope result_scope.
Delimit Scope result_scope with res.
Notation "'let?' x ':=' r 'in' k" := (rbind r (fun x => k))
  (at level 10, x pattern, r at level 100, k at level 200,
   format "'let?'  x  ':='  r  'in' '//' k") : result_scope.
#[global] Open Scope result_scope.

(** [&v[a..b]] *)
Definition slice {A} (l : list A) (a b : Z) : result (list A) := or_panic (sub_list l a b).
(** [&v[a..]] *)
Definition slice_from {A} (l : list A) (a : Z) : result (list A) := slice l a (len l).
(** [v[i]] *)
Definition index {A} (l : list A) (i : Z) : result A :=
  if (0 <=? i) && (i <? len l) then or_panic (l !! Z.to_nat i) else Panic.

Lemma rbind_Ok {A B} (r : result A) (f : A -> result B) b :
  rbind r f = Ok b -> exists a, r = Ok a /\ f a = Ok b.
Proof. destruct r; naive_solver. Qed.

Lemma slice_app {A} (l1 l2 l3 : list A) a b :
  a = len l1 -> b = len l1 + len l2 -> slice (l1 ++ l2 ++ l3) a b = Ok l2.
Proof. intros. unfold slice. by rewrite sub_list_app. Qed.

Lemma slice_app_l {A} (l2 l3 : list A) b : b = len l2 -> slice (l2 ++ l3) 0 b = Ok l2.
Proof. intros ->. by apply (slice_app []). Qed.

Lemma slice_app_r {A} (l1 l2 : list A) a b :
  a = len l1 -> b = len l1 + len l2 -> slice (l1 ++ l2) a b = Ok l2.
Proof. intros. rewrite <- (app_nil_r l2) at 1. by apply slice_app. Qed.

Lemma slice_from_app {A} (l1 l2 : list A) a : a = len l1 -> slice_from (l1 ++ l2) a = Ok l2.
Proof. intros ->. unfold slice_from. apply slice_app_r; [done|]. len_lia. Qed.

Lemma slice_all {A} (l : list A) : slice l 0 (len l) = Ok l.
Proof. rewrite <- (app_nil_r l) at 1. by apply slice_app_l. Qed.

Lemma index_app {A} (l1 : list A) x l2 i : i = len l1 -> index (l1 ++ x :: l2) i = Ok x.
Proof.
  intros ->. unfold index.
  replace ((0 <=? len l1) && (len l1 <? len (l1 ++ x :: l2))) with true
    by (symmetry; rewrite andb_true_iff, Z.leb_le, Z.ltb_lt; len_lia).
  unfold len. rewrite Nat2Z.id, lookup_app_r, Nat.sub_diag by lia. done.
Qed.

Lemma slice_in_range {A} (l : list A) a b :
  0 <= a <= b -> b <= len l -> exists s, slice l a b = Ok s /\ len s = b - a.
Proof.
  intros H1 H2. destruct (sub_list_Some l a b H1 H2) as (s & Hs & ?).
  exists s. unfold slice. by rewrite Hs.
Qed.

Lemma slice_split {A} (l : list A) a b s :
  slice l a b = Ok s -> exists l1 l3, l = l1 ++ s ++ l3 /\ len l1 = a /\ len s = b - a.
Proof.
  unfold slice. destruct (sub_list l a b) eqn:E; [|done]. intros [= ->].
  by apply sub_list_split.
Qed.

Lemma index_in_range {A} (l : list A) i :
  0 <= i < len l -> exists x, index l i = Ok x /\ l !! Z.to_nat i = Some x.
Proof.
  intros H. unfold index.
  replace ((0 <=? i) && (i <? len l)) with true
    by (symmetry; rewrite andb_true_iff, Z.leb_le, Z.ltb_lt; lia).
  destruct (lookup_lt_is_Some_2 l (Z.to_nat i)) as [x Hx]; [unfold len in *; lia|].
  rewrite Hx. eauto.
Qed.

Lemma index_0 {A} (x : A) l : index (x :: l) 0 = Ok x.
Proof. by apply (index_app []). Qed.

Lemma slice_at {A} (l1 l2 l3 l : list A) a b :
  l = l1 ++ l2 ++ l3 -> a = len l1 -> b = len l1 + len l2 -> slice l a b = Ok l2.
Proof. intros ->. apply slice_app. Qed.

(** The next slice of the goal is [l2], which comes after the prefix [l1]. *)
Ltac slice_as l1 l2 :=
  match goal with
  | |- context [slice ?l ?a ?b] =>
      let H := fresh in
      assert (slice l a b = Ok l2) as H
        by (eapply (slice_at l1 l2); [reflexivity|len_lia|len_lia]);
      rewrite H; clear H; rsimpl
  end.

(** Run the first slice of the goal, whose bounds are in range by arithmetic. *)
Tactic Notation "step_slice" ident(s) ident(Hs) :=
  match goal with
  | |- context [slice ?l ?a ?b] =>
      let E := fresh "E" in
      destruct (slice_in_range l a b) as (s & E & Hs); [len_lia|len_lia|rewrite E; rsimpl]
  end.

(** ** Options ([src/options.rs]) *)

(** An [f64] is kept as its bit pattern ([f64::to_bits]); the engine never
    computes with the rate itself, it hands it to the Bloom filter's sizing. *)
Abbreviation f64 := Z (only parsing).

(** The literal [0.01]. *)
Definition one_percent : f64 := 0x3F847AE147AE147B.

Record Options := {
  memtable_size_bytes : Z;
  l0_compaction_trigger : Z;
  level_size_multiplier : Z;
  max_levels : Z;
  bloom_false_positive_rate : f64;
  block_size : Z;
  cache_size_bytes : Z;
}.

(** [Options::default]. *)
Definition default_options : Options := {|
  memtable_size_bytes := 4 * 1024 * 1024;
  l0_compaction_trigger := 4;
  level_size_multiplier := 10;
  max_levels := 7;
  bloom_false_positive_rate := one_percent;
  block_size := 4 * 1024;
  cache_size_bytes := 8 * 1024 * 1024;
|}.

(** [Options::for_test]. *)
Definition for_test : Options := {|
  memtable_size_bytes := 2 * 1024;
  l0_compaction_trigger := 2;
  level_size_multiplier := 2;
  max_levels := 4;
  bloom_false_positive_rate := one_percent;
  block_size := 256;
  cache_size_bytes := 16 * 1024;
|}.
