(* ===== verification/Crc.v ===== *)
(** * CRC-32 and the integer readers of [src/crc.rs]

    The checksum is modelled bit for bit.  Its step is a bijection of the
    32-bit state, so two inputs of the same length that differ in one byte
    never share a checksum; this is what [record.rs] relies on when it says a
    corrupted byte is detected. *)

From S2P Require Import Prelude Bytes Errors.

Definition POLY : Z := 0xEDB88320.

(** One of the eight shifts: [mask = (crc & 1).wrapping_neg()], then
    [crc = (crc >> 1) ^ (POLY & mask)]. *)
Definition crc_shift (crc : Z) : Z :=
  let mask := wrap32 (- (Z.land crc 1)) in
  Z.lxor (Z.shiftr crc 1) (Z.land POLY mask).

Definition crc_byte (crc : Z) (b : byte) : Z :=
  Nat.iter 8 crc_shift (Z.lxor crc (b2z b)).

(** [crc32]; the final [!crc] complements the 32 bits. *)
Definition crc32 (l : bytes) : Z :=
  Z.lxor (fold_left crc_byte l 0xFFFFFFFF) 0xFFFFFFFF.

(** [copy_from_slice] panics unless the lengths agree. *)
Definition read_u32_le (l : bytes) : result Z :=
  if len l =? 4 then Ok (le_value l) else Panic.
Definition read_u64_le (l : bytes) : result Z :=
  if len l =? 8 then Ok (le_value l) else Panic.

#[global] Arguments crc32 : simpl never.

(** ** The readers *)

Lemma read_u32_le_bytes z : 0 <= z < 2 ^ 32 -> read_u32_le (le_bytes 4 z) = Ok z.
Proof. intros. unfold read_u32_le. by rewrite le_value_u32, len_le_bytes. Qed.

Lemma read_u64_le_bytes z : 0 <= z < 2 ^ 64 -> read_u64_le (le_bytes 8 z) = Ok z.
Proof. intros. unfold read_u64_le. by rewrite le_value_u64, len_le_bytes. Qed.

Lemma read_u32_ok l : len l = 4 -> exists z, read_u32_le l = Ok z /\ 0 <= z < 2 ^ 32.
Proof.
  intros H. unfold read_u32_le. rewrite H. eexists; split; [done|].
  pose proof (le_value_range l) as R. by rewrite H in R.
Qed.

Lemma read_u64_ok l : len l = 8 -> exists z, read_u64_le l = Ok z /\ 0 <= z < 2 ^ 64.
Proof.
  intros H. unfold read_u64_le. rewrite H. eexists; split; [done|].
  pose proof (le_value_range l) as R. by rewrite H in R.
Qed.

(** ** The state stays a [u32] *)

Lemma u32_testbit z : 0 <= z -> (z < 2 ^ 32 <-> forall i, 32 <= i -> Z.testbit z i = false).
Proof.
  intros Hz. split.
  - intros H i Hi. destruct (Z.eq_dec z 0) as [->|]; [apply Z.bits_0|].
    apply Z.bits_above_log2; [done|]. apply Z.log2_lt_pow2 in H; lia.
  - intros H. destruct (Z.eq_dec z 0) as [->|]; [done|].
    apply Z.log2_lt_pow2; [lia|]. destruct (Z.lt_ge_cases (Z.log2 z) 32); [done|].
    specialize (H (Z.log2 z)). rewrite Z.bit_log2 in H by lia. naive_solver.
Qed.

Definition u32 (z : Z) : Prop := 0 <= z < 2 ^ 32.

Lemma u32_lxor a b : u32 a -> u32 b -> u32 (Z.lxor a b).
Proof.
  intros [Ha Ha'] [Hb Hb']. split; [by apply Z.lxor_nonneg|].
  apply u32_testbit; [by apply Z.lxor_nonneg|].
  intros i Hi. rewrite Z.lxor_spec.
  by rewrite (proj1 (u32_testbit a Ha) Ha'), (proj1 (u32_testbit b Hb) Hb').
Qed.

Lemma u32_byte b : u32 (b2z b).
Proof. pose proof (b2z_range b). unfold u32. lia. Qed.

(** The mask is all ones or all zeros, as the comment in the code says. *)
Lemma crc_shift_cases crc :
  crc_shift crc = if Z.odd crc then Z.lxor (Z.shiftr crc 1) POLY else Z.shiftr crc 1.
Proof.
  unfold crc_shift. change 1 with (Z.ones 1) at 2.
  rewrite Z.land_ones, Z.pow_1_r, Zmod_odd by lia.
  destruct (Z.odd crc); [done|]. simpl. by rewrite Z.lxor_0_r.
Qed.

Lemma crc_shift_u32 crc : u32 crc -> u32 (crc_shift crc).
Proof.
  intros H. rewrite crc_shift_cases.
  assert (u32 (Z.shiftr crc 1)) as Hs.
  { unfold u32 in *. rewrite Z.shiftr_div_pow2, Z.pow_1_r by lia.
    split; [apply Z.div_pos|apply Z.div_lt_upper_bound]; lia. }
  destruct (Z.odd crc); [|done]. by apply u32_lxor.
Qed.

(** The top bit of the polynomial is set, so the bit shifted out can be read
    off the result: the shift is injective. *)
Lemma crc_shift_top crc : u32 crc -> Z.testbit (crc_shift crc) 31 = Z.odd crc.
Proof.
  intros [H0 H]. rewrite crc_shift_cases.
  assert (Z.testbit (Z.shiftr crc 1) 31 = false) as E.
  { rewrite Z.shiftr_spec by lia. by apply u32_testbit. }
  destruct (Z.odd crc); [|done]. by rewrite Z.lxor_spec, E.
Qed.

Lemma crc_shift_inj a b : u32 a -> u32 b -> crc_shift a = crc_shift b -> a = b.
Proof.
  intros Ha Hb E.
  assert (Z.odd a = Z.odd b) as Ho by (by rewrite <- !crc_shift_top, E).
  rewrite !crc_shift_cases, Ho in E.
  assert (Z.shiftr a 1 = Z.shiftr b 1) as Es.
  { destruct (Z.odd b); [|done].
    apply (f_equal (fun x => Z.lxor x POLY)) in E.
    by rewrite !Z.lxor_assoc, Z.lxor_nilpotent, !Z.lxor_0_r in E. }
  rewrite !Z.shiftr_div_pow2, Z.pow_1_r in Es by lia.
  rewrite (Z.div_mod a 2), (Z.div_mod b 2), Es, !Zmod_odd, Ho by lia. done.
Qed.

Lemma crc_shifts_u32 n crc : u32 crc -> u32 (Nat.iter n crc_shift crc).
Proof. intros H. induction n as [|n IH]; [done|]. cbn [Nat.iter]. by apply crc_shift_u32. Qed.

Lemma crc_shifts_inj n a b :
  u32 a -> u32 b -> Nat.iter n crc_shift a = Nat.iter n crc_shift b -> a = b.
Proof.
  intros Ha Hb. induction n as [|n IH]; simpl; [done|].
  intros E%crc_shift_inj; auto using crc_shifts_u32.
Qed.

(** Equations, so that proofs never unfold the eight shifts. *)
Lemma crc_byte_unfold crc b : crc_byte crc b = Nat.iter 8 crc_shift (Z.lxor crc (b2z b)).
Proof. reflexivity. Qed.

Lemma fold_left_cons {A B} (f : A -> B -> A) b l a : fold_left f (b :: l) a = fold_left f l (f a b).
Proof. reflexivity. Qed.

Lemma crc_byte_u32 crc b : u32 crc -> u32 (crc_byte crc b).
Proof. intros H. rewrite crc_byte_unfold. apply crc_shifts_u32, u32_lxor; [done|apply u32_byte]. Qed.

Lemma crc_fold_u32 l crc : u32 crc -> u32 (fold_left crc_byte l crc).
Proof.
  revert crc; induction l as [|b l IH]; intros crc H; [done|]. rewrite fold_left_cons.
  by apply IH, crc_byte_u32.
Qed.

Lemma crc_init_u32 : u32 0xFFFFFFFF.
Proof. by unfold u32. Qed.

Lemma crc32_u32 l : u32 (crc32 l).
Proof. unfold crc32. apply u32_lxor; [apply crc_fold_u32|]; apply crc_init_u32. Qed.

Lemma lxor_cancel_r a b c : Z.lxor a c = Z.lxor b c -> a = b.
Proof.
  intros E%(f_equal (fun x => Z.lxor x c)).
  by rewrite !Z.lxor_assoc, Z.lxor_nilpotent, !Z.lxor_0_r in E.
Qed.

Lemma lxor_cancel_l a b c : Z.lxor c a = Z.lxor c b -> a = b.
Proof. rewrite !(Z.lxor_comm c). apply lxor_cancel_r. Qed.

(** Injectivity of one byte's step, in the state and in the byte. *)
Lemma crc_byte_inj_state a b x :
  u32 a -> u32 b -> crc_byte a x = crc_byte b x -> a = b.
Proof.
  intros Ha Hb E. rewrite !crc_byte_unfold in E.
  apply crc_shifts_inj in E; [|apply u32_lxor; [done|apply u32_byte]..].
  by apply lxor_cancel_r in E.
Qed.

Lemma crc_byte_inj_byte s x y : u32 s -> crc_byte s x = crc_byte s y -> x = y.
Proof.
  intros Hs E. rewrite !crc_byte_unfold in E.
  apply crc_shifts_inj in E; [|apply u32_lxor; [done|apply u32_byte]..].
  by apply lxor_cancel_l, b2z_inj in E.
Qed.

Lemma crc_fold_inj l a b :
  u32 a -> u32 b -> fold_left crc_byte l a = fold_left crc_byte l b -> a = b.
Proof.
  revert a b; induction l as [|x l IH]; intros a b Ha Hb E; [done|]. rewrite !fold_left_cons in E.
  apply IH in E; [|by apply crc_byte_u32..]. by apply crc_byte_inj_state in E.
Qed.

(** Two messages that differ in exactly one byte have different checksums. *)
Lemma crc32_one_byte pre x y post :
  x <> y -> crc32 (pre ++ x :: post) <> crc32 (pre ++ y :: post).
Proof.
  intros Hne E. unfold crc32 in E. apply lxor_cancel_r in E.
  rewrite !fold_left_app, !fold_left_cons in E.
  apply crc_fold_inj in E; [|apply crc_byte_u32, crc_fold_u32, crc_init_u32..].
  apply crc_byte_inj_byte in E; [done|]. apply crc_fold_u32, crc_init_u32.
Qed.

(** ** Checksummed frames

    The formats put the checksum before the body (log records, manifest
    records) or after it (blocks, index, Bloom filter, footer).  Two valid
    frames of either kind that differ in at most one byte are equal. *)
Definition framed (l : bytes) : Prop := exists body, l = le_bytes 4 (crc32 body) ++ body.
Definition framed_after (l : bytes) : Prop := exists body, l = body ++ le_bytes 4 (crc32 body).

Lemma le_bytes_4_inj a b : u32 a -> u32 b -> le_bytes 4 a = le_bytes 4 b -> a = b.
Proof. intros Ha Hb E%(f_equal le_value). by rewrite !le_value_u32 in E. Qed.

(** One byte of an append: it falls in the left or in the right part. *)
Lemma app_cut {A} (u v pre post : list A) x :
  u ++ v = pre ++ x :: post ->
  (exists k, u = pre ++ x :: k /\ post = k ++ v) \/
  (exists k, pre = u ++ k /\ v = k ++ x :: post).
Proof.
  revert pre; induction u as [|a u IH]; intros [|p pre]; simpl; intros E.
  - right. by exists [].
  - right. by exists (p :: pre).
  - injection E as -> <-. left. by exists u.
  - injection E as -> E. destruct (IH pre E) as [(k & -> & ->)|(k & -> & ->)]; eauto.
Qed.

Lemma app_inj_len {A} (u1 u2 v1 v2 : list A) :
  length u1 = length u2 -> u1 ++ v1 = u2 ++ v2 -> u1 = u2 /\ v1 = v2.
Proof. intros. by apply app_inj_1. Qed.

Lemma framed_one_byte pre x y post :
  framed (pre ++ x :: post) -> framed (pre ++ y :: post) -> x = y.
Proof.
  intros [b1 E1] [b2 E2]. destruct (decide (x = y)) as [|Hne]; [done|exfalso].
  symmetry in E1, E2. destruct (app_cut _ _ _ _ _ E1) as [(k & Ek & ->)|(k & -> & ->)].
  - replace (pre ++ y :: k ++ b1) with ((pre ++ y :: k) ++ b1) in E2 by (by rewrite <- app_assoc).
    apply app_inj_len in E2 as [E2 ->].
    2: { apply (f_equal length) in Ek. rewrite length_le_bytes in *.
         rewrite Ek, !length_app. done. }
    rewrite E2 in Ek. apply app_inv_head in Ek. congruence.
  - replace ((le_bytes 4 (crc32 (k ++ x :: post)) ++ k) ++ y :: post)
      with (le_bytes 4 (crc32 (k ++ x :: post)) ++ (k ++ y :: post)) in E2 by (by rewrite app_assoc).
    apply app_inj_len in E2 as [E2 ->]; [|by rewrite !length_le_bytes].
    apply le_bytes_4_inj in E2; auto using crc32_u32.
    by apply (crc32_one_byte k x y post Hne).
Qed.

Lemma framed_after_one_byte pre x y post :
  framed_after (pre ++ x :: post) -> framed_after (pre ++ y :: post) -> x = y.
Proof.
  intros [b1 E1] [b2 E2]. destruct (decide (x = y)) as [|Hne]; [done|exfalso].
  symmetry in E1, E2. assert (length b1 = length b2) as Hl.
  { apply (f_equal length) in E1, E2. rewrite !length_app, length_le_bytes in *.
    simpl in *. lia. }
  destruct (app_cut _ _ _ _ _ E1) as [(k & -> & ->)|(k & -> & Ek)].
  - replace (pre ++ y :: k ++ le_bytes 4 (crc32 (pre ++ x :: k)))
      with ((pre ++ y :: k) ++ le_bytes 4 (crc32 (pre ++ x :: k))) in E2
      by (by rewrite <- app_assoc).
    apply app_inj_len in E2 as [-> E2].
    2: { rewrite <- Hl, !length_app. done. }
    apply le_bytes_4_inj in E2; auto using crc32_u32.
    by apply (crc32_one_byte pre x y k Hne).
  - rewrite <- app_assoc in E2. apply app_inj_len in E2 as [-> E2]; [|done].
    rewrite E2 in Ek. apply app_inv_head in Ek. congruence.
Qed.

(** The checksum of the letter a, a published test vector. *)
Example crc32_known_vector : crc32 [x61] = 0xE8B7BE43.
Proof. reflexivity. Qed.
