(* ===== verification/Collections.v ===== *)
(** * The standard collections the engine is built on

    [BTreeMap<Vec<u8>, V>] is the list of its entries in key order, which is
    what its iterator yields.  [slice::binary_search_by] is the branch-free
    halving loop of the standard library, and [slice::sort_by], a stable sort,
    is insertion sort: the result of a stable sort is determined by its input. *)

From S2P Require Import Prelude Bytes.

(** ** Association lists keyed by byte strings *)

Section assoc.
Context {V : Type}.
Implicit Types (l : list (bytes * V)) (k : bytes).

(** The entry of a key. *)
Fixpoint alookup l k : option V :=
  match l with
  | [] => None
  | (k', v) :: l' => if decide (k = k') then Some v else alookup l' k
  end.

(** Keys strictly increasing. *)
Definition ksorted l : Prop := StronglySorted (fun a b => key_lt a.1 b.1) l.

#[global] Instance ksorted_dec l : Decision (ksorted l).
Proof. unfold ksorted. apply _. Defined.

Lemma alookup_Some_elem l k v : alookup l k = Some v -> (k, v) ∈ l.
Proof.
  induction l as [|[k' v'] l IH]; simpl; [done|].
  case_decide; [intros [= ->]; subst; by left|intros; right; auto].
Qed.

Lemma alookup_None l k : alookup l k = None <-> k ∉ l.*1.
Proof.
  induction l as [|[k' v'] l IH]; simpl; [set_solver|].
  case_decide; [subst; set_solver|]. rewrite IH. set_solver.
Qed.

Lemma ksorted_cons a l : ksorted (a :: l) <-> Forall (fun b => key_lt a.1 b.1) l /\ ksorted l.
Proof. apply StronglySorted_cons. Qed.

Lemma ksorted_app l1 l2 :
  ksorted (l1 ++ l2) <->
  (forall a b, a ∈ l1 -> b ∈ l2 -> key_lt a.1 b.1) /\ ksorted l1 /\ ksorted l2.
Proof. apply StronglySorted_app. Qed.

Lemma ksorted_elem_alookup l k v : ksorted l -> (k, v) ∈ l -> alookup l k = Some v.
Proof.
  induction l as [|[k' v'] l IH]; simpl; [set_solver|].
  rewrite ksorted_cons, Forall_forall. intros [Hlt Hs] Hin.
  apply elem_of_cons in Hin as [[= -> ->]|Hin]; [by rewrite decide_True|].
  specialize (Hlt _ Hin). simpl in Hlt. rewrite decide_False; [auto|]. key_order.
Qed.

Lemma alookup_app l1 l2 k :
  alookup (l1 ++ l2) k =
  match alookup l1 k with Some v => Some v | None => alookup l2 k end.
Proof. induction l1 as [|[k' v'] l1 IH]; simpl; [done|]. by case_decide. Qed.

(** Two sorted association lists with the same entries are equal. *)
Lemma ksorted_ext l1 l2 :
  ksorted l1 -> ksorted l2 -> (forall k, alookup l1 k = alookup l2 k) -> l1 = l2.
Proof.
  revert l2. induction l1 as [|[k1 v1] l1 IH]; intros [|[k2 v2] l2] H1 H2 He.
  - done.
  - specialize (He k2). simpl in He. by rewrite decide_True in He.
  - specialize (He k1). simpl in He. by rewrite decide_True in He.
  - apply ksorted_cons in H1 as [F1 H1], H2 as [F2 H2].
    rewrite Forall_forall in F1, F2.
    assert (forall k, key_le k k1 -> alookup l1 k = None) as N1.
    { intros k Hk. apply alookup_None. intros ([k' v'] & -> & Hin)%list_elem_of_fmap.
      specialize (F1 _ Hin). simpl in *. key_order. }
    assert (forall k, key_le k k2 -> alookup l2 k = None) as N2.
    { intros k Hk. apply alookup_None. intros ([k' v'] & -> & Hin)%list_elem_of_fmap.
      specialize (F2 _ Hin). simpl in *. key_order. }
    assert (k1 = k2) as ->.
    { pose proof (He k1) as E1. pose proof (He k2) as E2. simpl in E1, E2.
      rewrite decide_True in E1 by done. rewrite (decide_True _ _ (eq_refl k2)) in E2.
      destruct (key_lt_total k1 k2) as [?|[?|?]]; [|done|].
      - rewrite decide_False in E1 by key_order. rewrite N2 in E1 by key_order. done.
      - rewrite decide_False in E2 by key_order. rewrite N1 in E2 by key_order. done. }
    pose proof (He k2) as E. simpl in E. rewrite !decide_True in E by done.
    injection E as ->. f_equal. apply IH; [done|done|].
    intros k. specialize (He k). simpl in He. case_decide; [|done].
    subst. rewrite N1, N2; [done|key_order|key_order].
Qed.

Lemma ksorted_filter (P : bytes * V -> Prop) `{!forall x, Decision (P x)} l :
  ksorted l -> ksorted (filter P l).
Proof.
  induction l as [|a l IH]; [done|]. rewrite ksorted_cons. intros [F Hs].
  rewrite filter_cons. case_decide; [|auto]. apply ksorted_cons. split; [|auto].
  rewrite Forall_forall in *. intros b [_ Hb]%list_elem_of_filter. by apply F.
Qed.

End assoc.

(** ** [BTreeMap] *)
Module BTreeMap.
Section btree.
Context {V : Type}.
Implicit Types (m : list (bytes * V)) (k : bytes) (v : V).

Definition get m k : option V := alookup m k.

Definition contains_key m k : bool := bool_decide (is_Some (get m k)).

Fixpoint insert m k v : list (bytes * V) :=
  match m with
  | [] => [(k, v)]
  | (k', v') :: m' =>
      match bytes_cmp k k' with
      | Lt => (k, v) :: m
      | Eq => (k, v) :: m'
      | Gt => (k', v') :: insert m' k v
      end
  end.

Lemma get_insert m k v k' :
  ksorted m -> get (insert m k v) k' = if decide (k' = k) then Some v else get m k'.
Proof.
  unfold get. induction m as [|[k0 v0] m IH]; simpl; [done|].
  intros [F Hs]%ksorted_cons. destruct (bytes_cmp k k0) eqn:E; simpl.
  - apply bytes_cmp_eq in E as ->. by case_decide.
  - done.
  - rewrite IH by done. case_decide; [subst|done].
    rewrite decide_False; [done|]. intros ->. by rewrite bytes_cmp_refl in E.
Qed.

Lemma insert_elem m k v x : x ∈ insert m k v -> x = (k, v) \/ x ∈ m.
Proof.
  induction m as [|[k0 v0] m IH]; simpl; [set_solver|].
  destruct (bytes_cmp k k0); set_solver.
Qed.

Lemma insert_sorted m k v : ksorted m -> ksorted (insert m k v).
Proof.
  induction m as [|[k0 v0] m IH]; simpl; [intros _; by repeat constructor|].
  rewrite ksorted_cons. intros [F Hs]. destruct (bytes_cmp k k0) eqn:E.
  - apply bytes_cmp_eq in E as ->. by apply ksorted_cons.
  - apply ksorted_cons. split; [|by apply ksorted_cons].
    constructor; [done|]. rewrite Forall_forall in *. intros b Hb.
    specialize (F b Hb). simpl in *. change (key_lt k k0) in E. key_order.
  - apply ksorted_cons. split; [|auto]. rewrite Forall_forall in *.
    intros b [->|Hb]%insert_elem; [|auto]. simpl.
    unfold key_lt. by rewrite (bytes_cmp_antisym k k0), E.
Qed.

End btree.
End BTreeMap.

(** ** [slice::binary_search_by]

    [probe i] compares element [i] with the target. *)
Fixpoint bs_loop {A} (fuel : nat) (probe : A -> comparison) (l : list A) (base size : nat) : nat :=
  match fuel with
  | O => base
  | S fuel' =>
      if (size <=? 1)%nat then base
      else
        let half := (size / 2)%nat in
        let mid := (base + half)%nat in
        let base' := match probe <$> l !! mid with
                     | Some Gt => base
                     | _ => mid
                     end in
        bs_loop fuel' probe l base' (size - half)
  end.

(** [.ok()] of the search: the index of a match. *)
Definition binary_search_by {A} (probe : A -> comparison) (l : list A) : option nat :=
  match l with
  | [] => None
  | _ =>
      let base := bs_loop (length l) probe l 0 (length l) in
      match probe <$> l !! base with
      | Some Eq => Some base
      | _ => None
      end
  end.

Section binary_search.
Context {A : Type} (probe : A -> comparison) (l : list A).

(** The comparison is monotone along the slice: [Less] first, then [Equal],
    then [Greater].  This is the precondition in the documentation. *)
Definition bs_ordered : Prop :=
  forall i j x y, (i < j)%nat -> l !! i = Some x -> l !! j = Some y ->
    (probe x = Gt -> probe y = Gt) /\ (probe y = Lt -> probe x = Lt).

(** A target index inside the window stays inside it, and the halving reaches
    a window of one element. *)
Lemma bs_loop_spec fuel base size :
  bs_ordered -> (size <= fuel)%nat -> (1 <= size)%nat -> (base + size <= length l)%nat ->
  (forall i x, l !! i = Some x -> probe x <> Gt -> (i < base + size)%nat) ->
  (base = 0%nat \/ exists x, l !! base = Some x /\ probe x <> Gt) ->
  let b := bs_loop fuel probe l base size in
  (b < length l)%nat /\
  (forall i x, l !! i = Some x -> probe x <> Gt -> (i <= b)%nat) /\
  (b = 0%nat \/ exists x, l !! b = Some x /\ probe x <> Gt).
Proof.
  intros Ho. revert base size.
  induction fuel as [|fuel IH]; intros base size Hf H1 Hb Hup Hlo; [lia|].
  cbn [bs_loop]. destruct (Nat.leb_spec size 1).
  { split_and!; [lia| |done]. intros i x Hi Hx. specialize (Hup i x Hi Hx). lia. }
  assert (0 < size / 2 < size /\ 2 * (size / 2) <= size)%nat as Hhalf.
  { pose proof (Nat.div_mod_eq size 2). split_and!;
      [apply Nat.div_str_pos; lia|apply Nat.div_lt; lia|lia]. }
  revert Hhalf. generalize (size / 2)%nat. intros h Hhalf.
  destruct (lookup_lt_is_Some_2 l (base + h)) as [y Hy]; [lia|]. rewrite Hy. simpl.
  destruct (probe y) eqn:Py.
  1, 2: apply IH; [lia|lia|lia| |right; exists y; split; [done|congruence]];
    intros i x Hi Hx; specialize (Hup i x Hi Hx); lia.
  apply IH; [lia|lia|lia| |done]. intros i x Hi Hx.
  destruct (decide (base + h < i)%nat) as [Hlt|].
  - destruct (Ho _ _ _ _ Hlt Hy Hi) as [Hgt _]. by destruct Hx; auto.
  - destruct (decide (i = (base + h)%nat)) as [->|]; [congruence|lia].
Qed.

Lemma binary_search_by_unfold :
  l <> [] ->
  binary_search_by probe l =
  let b := bs_loop (length l) probe l 0 (length l) in
  match probe <$> l !! b with Some Eq => Some b | _ => None end.
Proof. by destruct l. Qed.

(** The search finds a match when there is one. *)
Lemma binary_search_by_complete i x :
  bs_ordered -> l !! i = Some x -> probe x = Eq ->
  exists j y, binary_search_by probe l = Some j /\ l !! j = Some y /\ probe y = Eq.
Proof.
  intros Ho Hi Hx. assert (i < length l)%nat as Hil by (by eapply lookup_lt_Some).
  destruct (bs_loop_spec (length l) 0 (length l)) as (Hb & Hup & Hlo);
    [done|lia|lia|lia|by intros ? ? ?%lookup_lt_Some|by left|].
  rewrite binary_search_by_unfold by (by intros ->). cbn zeta in *.
  set (b := bs_loop _ _ _ _ _) in *.
  destruct (lookup_lt_is_Some_2 l b Hb) as [y Hy].
  assert (i <= b)%nat as Hib by (apply (Hup i x); [done|congruence]).
  assert (probe y = Eq) as Py.
  { destruct (decide (i = b)) as [->|]; [congruence|].
    destruct (Ho i b x y) as [_ Hlt]; [lia|done|done|].
    destruct Hlo as [|(y' & Hy' & Hn)]; [lia|]. rewrite Hy in Hy'. simplify_eq.
    destruct (probe y') eqn:?; [done| |done]. rewrite Hlt in Hx; done. }
  exists b, y. rewrite Hy. simpl. by rewrite Py.
Qed.

Lemma binary_search_by_sound j :
  binary_search_by probe l = Some j -> exists y, l !! j = Some y /\ probe y = Eq.
Proof.
  destruct (decide (l = [])) as [->|Hl]; [done|]. rewrite binary_search_by_unfold by done.
  cbn zeta. set (b := bs_loop _ _ _ _ _) in *.
  destruct (l !! b) as [y|] eqn:E; simpl; [|done].
  destruct (probe y) eqn:P; try done. intros [= <-]. eauto.
Qed.

End binary_search.

(** ** [slice::sort_by] *)

Fixpoint insert_by {A} (leb : A -> A -> bool) (x : A) (l : list A) : list A :=
  match l with
  | [] => [x]
  | y :: l' => if leb x y then x :: l else y :: insert_by leb x l'
  end.

Definition sort_by {A} (leb : A -> A -> bool) (l : list A) : list A :=
  foldr (insert_by leb) [] l.

Section sort_by.
Context {A : Type} (leb : A -> A -> bool).

Lemma insert_by_perm x l : insert_by leb x l ≡ₚ x :: l.
Proof.
  induction l as [|y l IH]; simpl; [done|]. destruct (leb x y); [done|].
  rewrite IH. apply Permutation_swap.
Qed.

Lemma sort_by_perm l : sort_by leb l ≡ₚ l.
Proof. induction l as [|x l IH]; simpl; [done|]. by rewrite insert_by_perm, IH. Qed.

(** A slice that is in order already is left as it is. *)
Lemma sort_by_sorted l : StronglySorted (fun a b => leb a b = true) l -> sort_by leb l = l.
Proof.
  induction l as [|x l IH]; simpl; [done|]. rewrite StronglySorted_cons.
  intros [F Hs]. rewrite IH by done. destruct l as [|y l']; simpl; [done|].
  apply Forall_cons in F as [-> _]. done.
Qed.

End sort_by.
