(* ===== verification/Records.v ===== *)
(** * The on-disk record format ([src/record.rs])

    [record.encode] and [record.decode] are translated statement by statement;
    slices and indexing that Rust checks at run time may give [Panic].  The
    theorems show that decoding never panics, that it inverts encoding, that
    it accepts nothing else, and that a record with one corrupted byte is
    always rejected. *)

From S2P Require Import Prelude Bytes Errors Crc.

(** [src/engine.rs] *)
Definition MAX_KEY_SIZE : Z := 64 * 1024.
Definition MAX_VALUE_SIZE : Z := 64 * 1024 * 1024.

Inductive Operation :=
| Put (key value : bytes)
| Delete (key : bytes).

#[global] Instance Operation_eq_dec : EqDecision Operation.
Proof. solve_decision. Defined.

Module record.

Definition RECORD_TYPE_PUT : Z := 1.
Definition RECORD_TYPE_DELETE : Z := 2.
Definition CHECKSUM_LEN : Z := 4.
Definition BODY_HEADER_LEN : Z := 1 + 4 + 4.
Definition RECORD_HEADER_LEN : Z := CHECKSUM_LEN + BODY_HEADER_LEN.
Definition KEY_LEN_OFFSET : Z := 5.
Definition VALUE_LEN_OFFSET : Z := 9.

(** The body: everything the checksum covers. *)
Definition body_bytes (record_type : Z) (key value : bytes) : bytes :=
  z2b record_type :: le_bytes 4 (len key) ++ le_bytes 4 (len value) ++ key ++ value.

Definition encode (operation : Operation) : result bytes :=
  let '(record_type, key, value) :=
    match operation with
    | Put key value => (RECORD_TYPE_PUT, key, value)
    | Delete key => (RECORD_TYPE_DELETE, key, [])
    end in
  if MAX_KEY_SIZE <? len key then Err KeyTooLarge
  else if MAX_VALUE_SIZE <? len value then Err ValueTooLarge
  else
    let body := body_bytes record_type key value in
    let checksum := crc32 body in
    Ok (le_bytes 4 checksum ++ body).

Definition decode (bs : bytes) : result Operation :=
  if len bs <? RECORD_HEADER_LEN then Err CorruptedRecord
  else
  let? s := slice bs 0 CHECKSUM_LEN in
  let? checksum := read_u32_le s in
  let? body := slice_from bs CHECKSUM_LEN in
  let? record_type := index body 0 in
  let? s := slice body 1 5 in
  let? key_len := read_u32_le s in
  let? s := slice body 5 9 in
  let? value_len := read_u32_le s in
  if (MAX_KEY_SIZE <? key_len) || (MAX_VALUE_SIZE <? value_len) then Err CorruptedRecord
  else
  let expected_body_len := BODY_HEADER_LEN + key_len + value_len in
  if negb (len body =? expected_body_len) then Err CorruptedRecord
  else if negb (crc32 body =? checksum) then Err InvalidChecksum
  else
  let key_start := BODY_HEADER_LEN in
  let key_end := key_start + key_len in
  let value_end := key_end + value_len in
  let? key := slice body key_start key_end in
  let? value := slice body key_end value_end in
  if b2z record_type =? RECORD_TYPE_PUT then Ok (Put key value)
  else if b2z record_type =? RECORD_TYPE_DELETE then
    if negb (value_len =? 0) then Err CorruptedRecord else Ok (Delete key)
  else Err CorruptedRecord.

(** ** The shape of a record, shared by the decoder and the log parser *)

(** The fields of a byte string of at least header length. *)
Record fields := Fields {
  f_checksum : Z;
  f_type : byte;
  f_key_len : Z;
  f_value_len : Z;
  f_payload : bytes;
}.

(** Byte layout of the fields, and the ranges of the integers. *)
Definition layout (f : fields) : bytes :=
  le_bytes 4 (f_checksum f) ++ f_type f ::
  le_bytes 4 (f_key_len f) ++ le_bytes 4 (f_value_len f) ++ f_payload f.

Definition in_range (f : fields) : Prop :=
  u32 (f_checksum f) /\ u32 (f_key_len f) /\ u32 (f_value_len f).

Definition body (f : fields) : bytes :=
  f_type f :: le_bytes 4 (f_key_len f) ++ le_bytes 4 (f_value_len f) ++ f_payload f.

Lemma len_layout f : len (layout f) = RECORD_HEADER_LEN + len (f_payload f).
Proof.
  unfold layout, RECORD_HEADER_LEN, CHECKSUM_LEN, BODY_HEADER_LEN. len_lia.
Qed.

Lemma len_body f : len (body f) = BODY_HEADER_LEN + len (f_payload f).
Proof. unfold body, BODY_HEADER_LEN. len_lia. Qed.

(** Every long enough byte string is the layout of some fields. *)
Lemma layout_surj bs :
  RECORD_HEADER_LEN <= len bs -> exists f, in_range f /\ bs = layout f.
Proof.
  unfold RECORD_HEADER_LEN, CHECKSUM_LEN, BODY_HEADER_LEN. intros H.
  destruct (split_at bs 4) as (c & r1 & -> & Hc); [lia|].
  rewrite len_app in H. destruct r1 as [|t r2]; [len_lia|]. rewrite len_cons in H.
  destruct (split_at r2 4) as (k & r3 & -> & Hk); [lia|]. rewrite len_app in H.
  destruct (split_at r3 4) as (v & p & -> & Hv); [lia|].
  destruct (le_field c 4 Hc) as (zc & -> & ?), (le_field k 4 Hk) as (zk & -> & ?),
    (le_field v 4 Hv) as (zv & -> & ?).
  by exists (Fields zc t zk zv p).
Qed.

(** What the decoder reads from a layout. *)
Lemma decode_layout f :
  in_range f ->
  decode (layout f) =
  if (MAX_KEY_SIZE <? f_key_len f) || (MAX_VALUE_SIZE <? f_value_len f) then Err CorruptedRecord
  else if negb (len (body f) =? BODY_HEADER_LEN + f_key_len f + f_value_len f)
  then Err CorruptedRecord
  else if negb (crc32 (body f) =? f_checksum f) then Err InvalidChecksum
  else
  let? key := slice (body f) BODY_HEADER_LEN (BODY_HEADER_LEN + f_key_len f) in
  let? value := slice (body f) (BODY_HEADER_LEN + f_key_len f)
    (BODY_HEADER_LEN + f_key_len f + f_value_len f) in
  if b2z (f_type f) =? RECORD_TYPE_PUT then Ok (Put key value)
  else if b2z (f_type f) =? RECORD_TYPE_DELETE then
    if negb (f_value_len f =? 0) then Err CorruptedRecord else Ok (Delete key)
  else Err CorruptedRecord.
Proof.
  destruct f as [c t k v p]. intros (Hc & Hk & Hv). simpl in *.
  unfold decode. case_if.
  { rewrite len_layout in *. simpl in *. len_lia. }
  unfold layout, CHECKSUM_LEN. cbn [f_checksum f_type f_key_len f_value_len f_payload].
  rewrite slice_app_l by len_lia. rsimpl. rewrite read_u32_le_bytes by done. rsimpl.
  rewrite slice_from_app by len_lia. rsimpl. rewrite index_0. rsimpl.
  slice_as [t] (le_bytes 4 k). rewrite read_u32_le_bytes by done. rsimpl.
  slice_as (t :: le_bytes 4 k) (le_bytes 4 v).
  by rewrite read_u32_le_bytes by done.
Qed.

End record.

(** ** Lemmas *)

Lemma decode_short bs : len bs < record.RECORD_HEADER_LEN -> record.decode bs = Err CorruptedRecord.
Proof. intros H. unfold record.decode. case_if; [done|lia]. Qed.

Definition op_key (op : Operation) : bytes :=
  match op with Put key _ => key | Delete key => key end.
Definition op_value (op : Operation) : bytes :=
  match op with Put _ value => value | Delete _ => [] end.
Definition op_type (op : Operation) : Z :=
  match op with Put _ _ => record.RECORD_TYPE_PUT | Delete _ => record.RECORD_TYPE_DELETE end.

(** The sizes the format can hold. *)
Definition op_fits (op : Operation) : Prop :=
  len (op_key op) <= MAX_KEY_SIZE /\ len (op_value op) <= MAX_VALUE_SIZE.

#[global] Instance op_fits_dec op : Decision (op_fits op).
Proof. unfold op_fits. apply _. Defined.

(** The bytes of an operation that fits. *)
Definition op_bytes (op : Operation) : bytes :=
  let body := record.body_bytes (op_type op) (op_key op) (op_value op) in
  le_bytes 4 (crc32 body) ++ body.

Lemma encode_fits op : op_fits op -> record.encode op = Ok (op_bytes op).
Proof.
  intros [Hk Hv]. unfold record.encode, op_bytes.
  destruct op; cbn [op_key op_value op_type] in *; do 2 (case_if; [len_lia|]); done.
Qed.

Lemma encode_Ok op bs : record.encode op = Ok bs -> op_fits op /\ bs = op_bytes op.
Proof.
  unfold record.encode, op_fits, op_bytes.
  destruct op; cbn [op_key op_value op_type] in *; do 2 (case_if; [done|]); naive_solver.
Qed.

(** An operation's record as the layout of its fields. *)
Definition op_fields (op : Operation) : record.fields :=
  record.Fields (crc32 (record.body_bytes (op_type op) (op_key op) (op_value op)))
    (z2b (op_type op)) (len (op_key op)) (len (op_value op)) (op_key op ++ op_value op).

Lemma op_bytes_layout op : op_bytes op = record.layout (op_fields op).
Proof. done. Qed.

Lemma op_fields_in_range op : op_fits op -> record.in_range (op_fields op).
Proof.
  intros [Hk Hv]. unfold MAX_KEY_SIZE, MAX_VALUE_SIZE in *.
  split_and!; simpl; [apply crc32_u32| |]; unfold u32; len_lia.
Qed.

Lemma len_op_bytes op :
  len (op_bytes op) = record.RECORD_HEADER_LEN + len (op_key op) + len (op_value op).
Proof. rewrite op_bytes_layout, record.len_layout. simpl. len_lia. Qed.

Lemma decode_op_bytes op : op_fits op -> record.decode (op_bytes op) = Ok op.
Proof.
  intros Hf. rewrite op_bytes_layout, record.decode_layout by by apply op_fields_in_range.
  rewrite record.len_body. destruct Hf as [Hk Hv].
  destruct (op_fields op) as [c t k v p] eqn:Ef. injection Ef as <- <- <- <- <-.
  cbn [record.f_checksum record.f_type record.f_key_len record.f_value_len record.f_payload].
  case_if; [apply orb_true_iff in E as [?|?]; reflect_bools; lia|].
  case_if; [len_lia|].
  case_if; [unfold record.body, record.body_bytes in *; simpl in *; congruence|].
  unfold record.body, record.BODY_HEADER_LEN. simpl record.f_type. simpl record.f_payload.
  simpl record.f_key_len. simpl record.f_value_len.
  set (h := z2b (op_type op) :: le_bytes 4 (len (op_key op)) ++ le_bytes 4 (len (op_value op))).
  assert (len h = 9) by (unfold h; len_lia).
  replace (z2b (op_type op) :: le_bytes 4 (len (op_key op)) ++ le_bytes 4 (len (op_value op))
    ++ op_key op ++ op_value op) with (h ++ op_key op ++ op_value op)
    by (unfold h; simpl; by rewrite <- !app_assoc).
  rewrite slice_app by lia. rsimpl. rewrite app_assoc, slice_app_r by len_lia. rsimpl.
  by destruct op.
Qed.

(** Reads that succeed came from a valid frame. *)
Lemma decode_Ok bs op : record.decode bs = Ok op -> op_fits op /\ bs = op_bytes op.
Proof.
  destruct (Z.lt_ge_cases (len bs) record.RECORD_HEADER_LEN) as [H|H].
  { by rewrite decode_short. }
  destruct (record.layout_surj bs H) as (f & Hr & ->). rewrite record.decode_layout by done.
  destruct f as [c t k v p]. destruct Hr as (Hc & Hk & Hv).
  rewrite record.len_body. unfold record.BODY_HEADER_LEN.
  cbn [record.f_checksum record.f_type record.f_key_len record.f_value_len record.f_payload] in *.
  do 3 (case_if; [done|]). reflect_bools.
  destruct (split_at p k) as (key & value & -> & Hkey); [unfold u32 in *; lia|].
  rewrite len_app in *. assert (len value = v) by lia. subst k v.
  unfold record.body in *.
  cbn [record.f_checksum record.f_type record.f_key_len record.f_value_len record.f_payload] in *.
  set (h := t :: le_bytes 4 (len key) ++ le_bytes 4 (len value)) in *.
  assert (len h = 9) by (unfold h; len_lia).
  assert (t :: le_bytes 4 (len key) ++ le_bytes 4 (len value) ++ key ++ value
    = h ++ key ++ value) as Hb by (unfold h; simpl; by rewrite <- !app_assoc).
  rewrite Hb in *. rewrite slice_app by lia. rsimpl.
  rewrite app_assoc, slice_app_r by len_lia. rsimpl.
  assert (forall op, op_key op = key -> op_value op = value -> b2z t = op_type op ->
    op_fits op /\ record.layout (record.Fields c t (len key) (len value) (key ++ value))
      = op_bytes op) as Hop.
  { intros o <- <- Ht. split; [split; lia|].
    rewrite op_bytes_layout. unfold op_fields, record.body_bytes.
    rewrite <- Ht, z2b_b2z, Hb. congruence. }
  case_if; [|case_if; [case_if|]]; intros [= <-]; apply Hop; try done.
  simpl. symmetry. apply len_0_nil. congruence.
Qed.

Lemma decode_no_panic bs : record.decode bs <> Panic.
Proof.
  destruct (Z.lt_ge_cases (len bs) record.RECORD_HEADER_LEN) as [H|H].
  { by rewrite decode_short. }
  destruct (record.layout_surj bs H) as (f & Hr & ->).
  rewrite record.decode_layout by done. rewrite record.len_body.
  destruct Hr as (_ & Hk & Hv).
  unfold record.BODY_HEADER_LEN, u32 in *.
  do 3 (case_if; [done|]). pose proof (record.len_body f).
  unfold record.BODY_HEADER_LEN in *.
  step_slice key Hkey. step_slice value Hval. repeat case_if; done.
Qed.

(** ** Properties *)

(** C28: [decode] inverts [encode] and accepts nothing but encodings, so the
    two functions are inverse bijections between the operations that fit the
    format and the byte strings [decode] accepts. *)
Theorem decode_encode_iff op bs : record.encode op = Ok bs <-> record.decode bs = Ok op.
Proof.
  split.
  - intros [Hf ->]%encode_Ok. by apply decode_op_bytes.
  - intros [Hf ->]%decode_Ok. by apply encode_fits.
Qed.

(** [decode] is total: on every byte string it returns an operation or an
    error, and no slice or index of it is out of range. *)
Theorem decode_total bs :
  (exists op, record.decode bs = Ok op) \/ (exists e, record.decode bs = Err e).
Proof. pose proof (decode_no_panic bs). destruct (record.decode bs); naive_solver. Qed.

(** [encode] succeeds exactly on the operations whose key and value fit,
    and reports which of the two is too large otherwise. *)
Theorem encode_spec op :
  record.encode op =
  if bool_decide (len (op_key op) <= MAX_KEY_SIZE) then
    if bool_decide (len (op_value op) <= MAX_VALUE_SIZE) then Ok (op_bytes op)
    else Err ValueTooLarge
  else Err KeyTooLarge.
Proof.
  destruct (decide (op_fits op)) as [Hf|Hf].
  - rewrite encode_fits by done. destruct Hf. by rewrite !bool_decide_true.
  - unfold op_fits in Hf. unfold record.encode.
    repeat case_bool_decide; destruct op; cbn [op_key op_value op_type] in *;
      repeat case_if; (done || len_lia || (exfalso; apply Hf; len_lia)).
Qed.

Lemma op_bytes_framed op : framed (op_bytes op).
Proof. by eexists. Qed.

(** C29: a record in which any single byte was replaced by another is rejected
    with an error. *)
Theorem decode_detects_corruption op pre x y post :
  record.encode op = Ok (pre ++ x :: post) -> x <> y ->
  exists e, record.decode (pre ++ y :: post) = Err e.
Proof.
  intros [Hf E]%encode_Ok Hne.
  destruct (record.decode (pre ++ y :: post)) as [op'|e|] eqn:D; [|by eauto|].
  - apply decode_Ok in D as [_ D]. destruct Hne.
    apply (framed_one_byte pre x y post); [rewrite E|rewrite D]; apply op_bytes_framed.
  - by apply decode_no_panic in D.
Qed.

Lemma decode_detects_corruption_witness :
  exists e, record.decode (take 14 (op_bytes (Put [x6b] [x31])) ++ [x32]) = Err e.
Proof.
  apply (decode_detects_corruption (Put [x6b] [x31]) (take 14 (op_bytes (Put [x6b] [x31]))) x31 x32 []);
    [vm_compute; reflexivity|discriminate].
Defined.
