(* ===== verification/World.v ===== *)
(** * The file system, its failures and the effect monad

    [Wal], [Manifest] and [SsTable] work on files through [std::fs].  The model
    of that part of the standard library is a map from paths to files, where a
    file keeps its current content and the content that is known to be on
    stable storage.  A write changes the first, [sync_all] copies it to the
    second, and a crash ([crashed]) leaves any content the operating system is
    allowed to have written.  Creating, renaming and removing a directory entry
    is atomic and durable.

    Every call may also fail.  The failures to come are the list [w_faults] of
    the world: one entry per call, [Some n] for a failure (after [n] bytes, for
    a write), and no failure once the list is used up.  Theorems quantify over
    the list, so they speak about every pattern of I/O errors.

    [failpoints] is the fault-injection hook of [src/wal.rs]. *)

From S2P Require Import Prelude Bytes Errors.

(** ** Effectful computations

    A Rust method that takes [&mut self] and returns [Result<A>] is a
    computation on the state: an error keeps the changes made before it. *)
Definition M (S A : Type) : Type := S -> result A * S.

Definition mret {S A} (a : A) : M S A := fun s => (Ok a, s).
Definition merr {S A} (e : Error) : M S A := fun s => (Err e, s).
Definition mlift {S A} (r : result A) : M S A := fun s => (r, s).
Definition mbind {S A B} (m : M S A) (f : A -> M S B) : M S B := fun s =>
  match m s with
  | (Ok a, s') => f a s'
  | (Err e, s') => (Err e, s')
  | (Panic, s') => (Panic, s')
  end.
(** The state, and a change of it. *)
Definition mget {S} : M S S := fun s => (Ok s, s).
Definition mmodify {S} (f : S -> S) : M S unit := fun s => (Ok tt, f s).
(** Run a computation on a part of the state. *)
Definition mzoom {S T A} (get : S -> T) (set : T -> S -> S) (m : M T A) : M S A := fun s =>
  let '(r, t) := m (get s) in (r, set t s).
(** [let _ = m;]: the result is dropped, errors included. *)
Definition mignore {S A} (m : M S A) : M S unit := fun s =>
  match m s with
  | (Panic, s') => (Panic, s')
  | (_, s') => (Ok tt, s')
  end.

Notation "'let!' x ':=' m 'in' k" := (mbind m (fun x => k))
  (at level 10, x pattern, m at level 100, k at level 200,
   format "'let!'  x  ':='  m  'in' '//' k") : result_scope.

(** ** Files *)

(** [f_durable] is the content of the last successful [sync_all]. *)
Record File := mkFile { f_data : bytes; f_durable : bytes }.

(** [failpoints::Kind]. *)
Inductive Kind := WalAppend | WalSync | SsTableWrite | SsTableSync | ManifestWrite | Rename.

#[global] Instance Kind_eq_dec : EqDecision Kind.
Proof. solve_decision. Defined.

Record World := mkWorld {
  w_files : gmap string File;
  (** [failpoints::NEXT] *)
  w_next : option Kind;
  w_faults : list (option nat);
}.

Definition set_files (fs : gmap string File) (w : World) : World :=
  mkWorld fs (w_next w) (w_faults w).
Definition set_next (n : option Kind) (w : World) : World :=
  mkWorld (w_files w) n (w_faults w).
Definition set_faults (l : list (option nat)) (w : World) : World :=
  mkWorld (w_files w) (w_next w) l.

Definition content (w : World) (p : string) : option bytes := f_data <$> w_files w !! p.

(** ** Fault injection ([wal::failpoints]) *)
Module failpoints.
Definition inject (k : Kind) (w : World) : World := set_next (Some k) w.
Definition clear (w : World) : World := set_next None w.
Definition should_fail (k : Kind) : M World bool := fun w =>
  if bool_decide (w_next w = Some k) then (Ok true, set_next None w) else (Ok false, w).
End failpoints.

(** ** System calls *)

Definition injected (msg : string) : Error := Io (IoError Other msg).
Definition device_error : Error := Io (IoError (OtherKind 5) "device error").
Definition not_found : Error := Io (IoError NotFound "entity not found").
Definition unexpected_eof : Error := Io (IoError UnexpectedEof "failed to fill whole buffer").

(** One call: what it does, and what a failure after [n] bytes leaves behind. *)
Definition syscall {A} (run : M World A) (partial : nat -> World -> World) : M World A :=
  fun w =>
  match w_faults w with
  | [] => run w
  | None :: fs => run (set_faults fs w)
  | Some n :: fs => (Err device_error, partial n (set_faults fs w))
  end.

Definition no_effect (_ : nat) (w : World) : World := w.

(** The calls below work on the file a path names. *)
Definition on_file {A} (p : string) (k : File -> M World A) : M World A := fun w =>
  match w_files w !! p with
  | Some f => k f w
  | None => (Err not_found, w)
  end.

Definition put_file (p : string) (f : File) (w : World) : World :=
  set_files (<[p := f]> (w_files w)) w.

(** [fs::create_dir_all]: the directory itself is not part of the state. *)
Definition create_dir_all : M World unit := syscall (mret tt) no_effect.

(** [OpenOptions::new().read(true).write(true).create(true).truncate(false)]. *)
Definition open_or_create (p : string) : M World unit :=
  syscall (fun w => match w_files w !! p with
    | Some _ => (Ok tt, w)
    | None => (Ok tt, put_file p (mkFile [] []) w)
    end) no_effect.

(** [OpenOptions::new().create(true).write(true).truncate(true)]. *)
Definition open_truncate (p : string) : M World unit :=
  syscall (fun w => (Ok tt, put_file p (mkFile [] (default [] (f_durable <$> w_files w !! p))) w))
    no_effect.

(** [File::open], and [Path::exists]. *)
Definition open_read (p : string) : M World unit :=
  syscall (on_file p (fun _ => mret tt)) no_effect.
Definition path_exists (p : string) : M World bool := fun w =>
  (Ok (bool_decide (is_Some (w_files w !! p))), w).

(** [seek(SeekFrom::End(0))] followed by [write_all]: append.  A failed write
    may have appended a prefix. *)
Definition append_data (p : string) (bs : bytes) (w : World) : World :=
  match w_files w !! p with
  | Some f => put_file p (mkFile (f_data f ++ bs) (f_durable f)) w
  | None => w
  end.
Definition write_all (p : string) (bs : bytes) : M World unit :=
  syscall (on_file p (fun _ w => (Ok tt, append_data p bs w)))
    (fun n => append_data p (take n bs)).

(** [seek(SeekFrom::End(0))]: the size, as [metadata().len()]. *)
Definition file_len (p : string) : M World Z :=
  syscall (on_file p (fun f => mret (len (f_data f)))) no_effect.

(** [flush] and [sync_all]. *)
Definition sync_all (p : string) : M World unit :=
  syscall (on_file p (fun f w => (Ok tt, put_file p (mkFile (f_data f) (f_data f)) w))) no_effect.

(** [seek(SeekFrom::Start(0))] and [read_to_end]. *)
Definition read_to_end (p : string) : M World bytes :=
  syscall (on_file p (fun f => mret (f_data f))) no_effect.

(** [seek(SeekFrom::Start(offset))] and [read_exact] of [n] bytes. *)
Definition read_exact (p : string) (offset n : Z) : M World bytes :=
  syscall (on_file p (fun f =>
    match sub_list (f_data f) offset (offset + n) with
    | Some bs => mret bs
    | None => merr unexpected_eof
    end)) no_effect.

(** [set_len(0)]. *)
Definition set_len_0 (p : string) : M World unit :=
  syscall (on_file p (fun f w => (Ok tt, put_file p (mkFile [] (f_durable f)) w))) no_effect.

(** [fs::rename] replaces the target; [fs::remove_file]. *)
Definition rename (p q : string) : M World unit :=
  syscall (on_file p (fun f w => (Ok tt, set_files (<[q := f]> (delete p (w_files w))) w)))
    no_effect.
Definition remove_file (p : string) : M World unit :=
  syscall (on_file p (fun _ w => (Ok tt, set_files (delete p (w_files w)) w))) no_effect.

(** [sync_dir] of [src/sstable.rs]: best effort, never an error. *)
Definition sync_dir : M World unit := mignore (syscall (mret tt) no_effect).

(** ** Crashes *)

(** What a file may hold after a crash: what was synced, what was written, or,
    when only appends are pending, the synced part and a prefix of them. *)
Definition crash_content (f : File) (bs : bytes) : Prop :=
  bs = f_durable f \/ bs = f_data f \/
  (f_durable f `prefix_of` bs /\ bs `prefix_of` f_data f).

(** A machine that restarts after a crash: every file holds an allowed
    content, and no failure is pending. *)
Definition crashed (w w' : World) : Prop :=
  w_next w' = None /\ w_faults w' = [] /\
  forall p, match w_files w !! p, w_files w' !! p with
    | Some f, Some f' => crash_content f (f_data f') /\ f_durable f' = f_data f'
    | None, None => True
    | _, _ => False
    end.

(** ** Reasoning about computations

    [wp m Q E s]: run from [s], the computation [m] does not panic, a value is
    returned in a state that satisfies [Q], an error in one that satisfies [E]. *)
Definition wp {S A} (m : M S A) (Q : A -> S -> Prop) (E : Error -> S -> Prop) (s : S) : Prop :=
  match m s with
  | (Ok a, s') => Q a s'
  | (Err e, s') => E e s'
  | (Panic, _) => False
  end.

(** No failure is pending, injected or from the device. *)
Definition quiet (w : World) : Prop := w_next w = None /\ w_faults w = [].

Section wp_rules.
Context {S : Type}.
Implicit Types s : S.

Lemma wp_mono {A} (m : M S A) (Q Q' : A -> S -> Prop) (E E' : Error -> S -> Prop) s :
  wp m Q E s -> (forall a s', Q a s' -> Q' a s') -> (forall e s', E e s' -> E' e s') ->
  wp m Q' E' s.
Proof. unfold wp. destruct (m s) as [[] s']; naive_solver. Qed.

Lemma wp_ret {A} (a : A) (Q : A -> S -> Prop) E s : Q a s -> wp (mret a) Q E s.
Proof. done. Qed.

Lemma wp_err {A} e (Q : A -> S -> Prop) (E : Error -> S -> Prop) s : E e s -> wp (merr e) Q E s.
Proof. done. Qed.

Lemma wp_bind {A B} (m : M S A) (f : A -> M S B) Q E s :
  wp m (fun a s' => wp (f a) Q E s') E s -> wp (mbind m f) Q E s.
Proof. unfold wp, mbind. destruct (m s) as [[] s']; done. Qed.

(** What a triple says about a run. *)
Lemma wp_run {A} (m : M S A) (Q : A -> S -> Prop) E s : wp m Q E s ->
  (exists a s', m s = (Ok a, s') /\ Q a s') \/ (exists e s', m s = (Err e, s') /\ E e s').
Proof. unfold wp. destruct (m s) as [[] s']; naive_solver. Qed.

Lemma wp_Ok {A} (m : M S A) (Q : A -> S -> Prop) E s a s' :
  wp m Q E s -> m s = (Ok a, s') -> Q a s'.
Proof. unfold wp. intros H Er. by rewrite Er in H. Qed.

Lemma wp_Err {A} (m : M S A) (Q : A -> S -> Prop) E s e s' :
  wp m Q E s -> m s = (Err e, s') -> E e s'.
Proof. unfold wp. intros H Er. by rewrite Er in H. Qed.

(** Computations that never panic, from any state. *)
Definition safe {A} (m : M S A) : Prop := forall s, fst (m s) <> Panic.

Lemma safe_bind {A B} (m : M S A) (f : A -> M S B) :
  safe m -> (forall a, safe (f a)) -> safe (mbind m f).
Proof.
  intros Hm Hf s. unfold mbind. specialize (Hm s).
  destruct (m s) as [[] s']; simpl in *; [apply Hf|done|done].
Qed.

Lemma safe_ret {A} (a : A) : safe (mret a).
Proof. by intros s. Qed.

Lemma safe_err {A} e : safe (@merr S A e).
Proof. by intros s. Qed.

Lemma safe_lift {A} (r : result A) : r <> Panic -> safe (mlift r).
Proof. by intros H s. Qed.

Lemma safe_if {A} (b : bool) (m1 m2 : M S A) :
  (b = true -> safe m1) -> (b = false -> safe m2) -> safe (if b then m1 else m2).
Proof. destruct b; auto. Qed.

(** A computation with a triple does not panic. *)
Lemma wp_safe {A} (m : M S A) : (forall s, wp m (fun _ _ => True) (fun _ _ => True) s) -> safe m.
Proof. intros H s. specialize (H s). unfold wp in H. by destruct (m s) as [[] ?]. Qed.

End wp_rules.

Create HintDb safe.
#[export] Hint Resolve safe_bind safe_ret safe_err safe_lift safe_if : safe.

(** ** Rules for the calls *)

Section syscall_rules.
Implicit Types (w : World) (f : File) (E : Error -> World -> Prop).

(** A call that only fails when a fault is pending. *)
Lemma wp_syscall {A} (run : M World A) partial Q E w :
  (forall fs, (quiet w -> fs = []) -> wp run Q E (set_faults fs w)) ->
  (forall n fs, ~ quiet w -> E device_error (partial n (set_faults fs w))) ->
  wp (syscall run partial) Q E w.
Proof.
  intros Hr He. unfold wp, syscall. destruct (w_faults w) as [|[n|] fs] eqn:F.
  - specialize (Hr [] (fun _ => eq_refl)). unfold wp, set_faults in Hr.
    destruct w; simpl in *. by subst.
  - apply He. intros [_ Hq]. congruence.
  - apply Hr. intros [_ Hq]. congruence.
Qed.

Lemma quiet_after w w' fs :
  (quiet w -> fs = []) -> w_next w' = w_next w -> w_faults w' = fs -> quiet w -> quiet w'.
Proof. intros H Hn Hf Hq. split; [rewrite Hn; apply Hq|rewrite Hf; apply H, Hq]. Qed.

Lemma wp_should_fail k Q E w :
  (forall w', w_files w' = w_files w -> ~ quiet w -> Q true w') ->
  (forall w', w_files w' = w_files w -> (quiet w -> quiet w') -> Q false w') ->
  wp (failpoints.should_fail k) Q E w.
Proof.
  intros Ht Hf. unfold wp, failpoints.should_fail. case_bool_decide as Hk.
  - apply Ht; [done|]. intros [Hq _]. congruence.
  - by apply Hf.
Qed.

Lemma wp_file_len p f (Q : Z -> World -> Prop) E w :
  w_files w !! p = Some f ->
  (forall w', w_files w' = w_files w -> (quiet w -> quiet w') -> Q (len (f_data f)) w') ->
  (forall w', w_files w' = w_files w -> ~ quiet w -> E device_error w') ->
  wp (file_len p) Q E w.
Proof.
  intros Hp HQ HE. apply wp_syscall; [|by intros; apply HE].
  intros fs Hfs. unfold wp, on_file. simpl. rewrite Hp. simpl.
  by apply HQ; [|apply (quiet_after _ _ fs)].
Qed.

Lemma wp_write_all p f bs (Q : unit -> World -> Prop) E w :
  w_files w !! p = Some f ->
  (forall w', w_files w' = <[p := mkFile (f_data f ++ bs) (f_durable f)]> (w_files w) ->
     (quiet w -> quiet w') -> Q tt w') ->
  (forall k w', k `prefix_of` bs ->
     w_files w' = <[p := mkFile (f_data f ++ k) (f_durable f)]> (w_files w) ->
     ~ quiet w -> E device_error w') ->
  wp (write_all p bs) Q E w.
Proof.
  intros Hp HQ HE. apply wp_syscall.
  - intros fs Hfs. unfold wp, on_file. simpl. rewrite Hp. unfold append_data. simpl.
    rewrite Hp. by apply HQ; [|apply (quiet_after _ _ fs)].
  - intros n fs Hn. apply (HE (take n bs)); [apply prefix_take| |done].
    unfold append_data. simpl. by rewrite Hp.
Qed.

Lemma wp_sync_all p f (Q : unit -> World -> Prop) E w :
  w_files w !! p = Some f ->
  (forall w', w_files w' = <[p := mkFile (f_data f) (f_data f)]> (w_files w) ->
     (quiet w -> quiet w') -> Q tt w') ->
  (forall w', w_files w' = w_files w -> ~ quiet w -> E device_error w') ->
  wp (sync_all p) Q E w.
Proof.
  intros Hp HQ HE. apply wp_syscall; [|by intros; apply HE].
  intros fs Hfs. unfold wp, on_file. simpl. rewrite Hp. simpl.
  by apply HQ; [|apply (quiet_after _ _ fs)].
Qed.

Lemma wp_set_len_0 p f (Q : unit -> World -> Prop) E w :
  w_files w !! p = Some f ->
  (forall w', w_files w' = <[p := mkFile [] (f_durable f)]> (w_files w) ->
     (quiet w -> quiet w') -> Q tt w') ->
  (forall w', w_files w' = w_files w -> ~ quiet w -> E device_error w') ->
  wp (set_len_0 p) Q E w.
Proof.
  intros Hp HQ HE. apply wp_syscall; [|by intros; apply HE].
  intros fs Hfs. unfold wp, on_file. simpl. rewrite Hp. simpl.
  by apply HQ; [|apply (quiet_after _ _ fs)].
Qed.

Lemma wp_read_to_end p f (Q : bytes -> World -> Prop) E w :
  w_files w !! p = Some f ->
  (forall w', w_files w' = w_files w -> (quiet w -> quiet w') -> Q (f_data f) w') ->
  (forall w', w_files w' = w_files w -> ~ quiet w -> E device_error w') ->
  wp (read_to_end p) Q E w.
Proof.
  intros Hp HQ HE. apply wp_syscall; [|by intros; apply HE].
  intros fs Hfs. unfold wp, on_file. simpl. rewrite Hp. simpl.
  by apply HQ; [|apply (quiet_after _ _ fs)].
Qed.

Lemma wp_read_exact p f a n bs (Q : bytes -> World -> Prop) E w :
  w_files w !! p = Some f -> sub_list (f_data f) a (a + n) = Some bs ->
  (forall w', w_files w' = w_files w -> (quiet w -> quiet w') -> Q bs w') ->
  (forall w', w_files w' = w_files w -> ~ quiet w -> E device_error w') ->
  wp (read_exact p a n) Q E w.
Proof.
  intros Hp Hs HQ HE. apply wp_syscall; [|by intros; apply HE].
  intros fs Hfs. unfold wp, on_file. simpl. rewrite Hp, Hs. simpl.
  by apply HQ; [|apply (quiet_after _ _ fs)].
Qed.

(** Whatever the file system holds, a read of a range gives that range of some
    file or an I/O error, and changes nothing. *)
Lemma wp_read_exact_any p a n (Q : bytes -> World -> Prop) E w :
  (forall bs w', w_files w' = w_files w -> len bs = n -> Q bs w') ->
  (forall e w', w_files w' = w_files w -> (exists i, e = Io i) -> E e w') ->
  wp (read_exact p a n) Q E w.
Proof.
  intros HQ HE. apply wp_syscall; [|by intros; apply HE; [|eexists]].
  intros fs Hfs. unfold wp, on_file. simpl.
  destruct (w_files w !! p) as [f|]; [|by apply HE; [|eexists]].
  destruct (sub_list _ _ _) as [bs|] eqn:Hs; [|by apply HE; [|eexists]].
  apply sub_list_split in Hs as (_ & _ & _ & _ & Hl). apply HQ; [done|lia].
Qed.

Lemma wp_open_or_create p (Q : unit -> World -> Prop) E w :
  (forall w', w_files w' = match w_files w !! p with
      | Some _ => w_files w
      | None => <[p := mkFile [] []]> (w_files w)
      end -> (quiet w -> quiet w') -> Q tt w') ->
  (forall w', w_files w' = w_files w -> ~ quiet w -> E device_error w') ->
  wp (open_or_create p) Q E w.
Proof.
  intros HQ HE. apply wp_syscall; [|by intros; apply HE].
  intros fs Hfs. unfold wp. simpl. destruct (w_files w !! p) eqn:Hp;
    (by apply HQ; [|apply (quiet_after _ _ fs)]).
Qed.

Lemma wp_open_truncate p (Q : unit -> World -> Prop) E w :
  (forall w', w_files w' =
      <[p := mkFile [] (default [] (f_durable <$> w_files w !! p))]> (w_files w) ->
     (quiet w -> quiet w') -> Q tt w') ->
  (forall w', w_files w' = w_files w -> ~ quiet w -> E device_error w') ->
  wp (open_truncate p) Q E w.
Proof.
  intros HQ HE. apply wp_syscall; [|by intros; apply HE].
  intros fs Hfs. unfold wp. simpl. by apply HQ; [|apply (quiet_after _ _ fs)].
Qed.

Lemma wp_open_read p f (Q : unit -> World -> Prop) E w :
  w_files w !! p = Some f ->
  (forall w', w_files w' = w_files w -> (quiet w -> quiet w') -> Q tt w') ->
  (forall w', w_files w' = w_files w -> ~ quiet w -> E device_error w') ->
  wp (open_read p) Q E w.
Proof.
  intros Hp HQ HE. apply wp_syscall; [|by intros; apply HE].
  intros fs Hfs. unfold wp, on_file. simpl. rewrite Hp. simpl.
  by apply HQ; [|apply (quiet_after _ _ fs)].
Qed.

Lemma wp_rename p q f (Q : unit -> World -> Prop) E w :
  w_files w !! p = Some f ->
  (forall w', w_files w' = <[q := f]> (delete p (w_files w)) ->
     (quiet w -> quiet w') -> Q tt w') ->
  (forall w', w_files w' = w_files w -> ~ quiet w -> E device_error w') ->
  wp (rename p q) Q E w.
Proof.
  intros Hp HQ HE. apply wp_syscall; [|by intros; apply HE].
  intros fs Hfs. unfold wp, on_file. simpl. rewrite Hp. simpl.
  by apply HQ; [|apply (quiet_after _ _ fs)].
Qed.

(** Removing a file changes no other file, whether or not it succeeds. *)
Lemma wp_remove_file p (Q : unit -> World -> Prop) E w :
  (forall w', w_files w' = delete p (w_files w) -> (quiet w -> quiet w') -> Q tt w') ->
  (forall e w', w_files w' = w_files w -> (quiet w -> quiet w') -> E e w') ->
  wp (remove_file p) Q E w.
Proof.
  intros HQ HE. unfold wp, remove_file, syscall.
  destruct (w_faults w) as [|[n|] fs] eqn:F;
    [|apply HE; [done|]; intros [? ?]; congruence|]; unfold on_file;
    cbn [set_faults w_files]; destruct (w_files w !! p);
    (apply HQ || apply HE); try done; intros [? ?]; congruence.
Qed.

Lemma wp_sync_dir (Q : unit -> World -> Prop) E w :
  (forall w', w_files w' = w_files w -> (quiet w -> quiet w') -> Q tt w') ->
  wp sync_dir Q E w.
Proof.
  intros HQ. unfold wp, sync_dir, mignore, syscall.
  destruct (w_faults w) as [|[n|] fs] eqn:F; simpl; apply HQ; try done;
    intros [? Hq]; congruence.
Qed.

End syscall_rules.

(** Calls do not panic. *)
Lemma safe_syscall {A} (run : M World A) partial : safe run -> safe (syscall run partial).
Proof. intros Hr w. unfold syscall. destruct (w_faults w) as [|[]]; [apply Hr|done|apply Hr]. Qed.

Lemma safe_on_file {A} p (k : File -> M World A) : (forall f, safe (k f)) -> safe (on_file p k).
Proof. intros Hk w. unfold on_file. destruct (w_files w !! p); [apply Hk|done]. Qed.

#[export] Hint Resolve safe_syscall safe_on_file : safe.

(** ** Crashes and durability *)

(** A file whose content is all synced survives a crash unchanged. *)
Lemma crashed_synced w w' p bs :
  crashed w w' -> w_files w !! p = Some (mkFile bs bs) ->
  w_files w' !! p = Some (mkFile bs bs).
Proof.
  intros (_ & _ & H) Hp. specialize (H p). rewrite Hp in H.
  destruct (w_files w' !! p) as [[d s]|]; [|done]. simpl in H.
  destruct H as [[->|[->|[H1 H2]]] ->]; simpl in *; try done.
  f_equal. by rewrite (anti_symm prefix d bs).
Qed.

(** The restart that keeps everything that was written. *)
Definition restart (w : World) : World :=
  mkWorld ((fun f => mkFile (f_data f) (f_data f)) <$> w_files w) None [].

Lemma crashed_restart w : crashed w (restart w).
Proof.
  split; [done|]. split; [done|]. intros p. cbn [restart w_files]. rewrite lookup_fmap.
  destruct (w_files w !! p) as [f|]; simpl; [|done]. split; [|done]. right. by left.
Qed.
