(* ===== verification/Wal.v ===== *)
(** * The write-ahead log ([src/wal.rs])

    [Wal] is the log file (the handle is the path of the file), [WalIterator]
    the parser that replays it.  [replay] is the loop that [collect] runs; its
    fuel is one more than the number of bytes, and [drain_enough] shows that it
    never runs out. *)

From S2P Require Import Prelude Bytes Errors Crc Records World.

(** ** The streaming parser *)
Module WalIterator.

Record t := mk { data : bytes; pos : Z }.

Definition from_bytes (bs : bytes) : t := mk bs 0.

(** [Iterator::next]. *)
Definition next (self : t) : option (result Operation) * t :=
  match slice_from (data self) (pos self) with
  | Ok rest =>
      if len rest =? 0 then (None, self)
      else if len rest <? record.RECORD_HEADER_LEN then (None, mk (data self) (len (data self)))
      else
      match (let? s := slice rest record.KEY_LEN_OFFSET (record.KEY_LEN_OFFSET + 4) in
             let? key_len := read_u32_le s in
             let? s := slice rest record.VALUE_LEN_OFFSET (record.VALUE_LEN_OFFSET + 4) in
             let? value_len := read_u32_le s in
             Ok (key_len, value_len)) with
      | Ok (key_len, value_len) =>
          if (MAX_KEY_SIZE <? key_len) || (MAX_VALUE_SIZE <? value_len)
          then (Some (Err CorruptedRecord), mk (data self) (len (data self)))
          else
            let record_len := record.RECORD_HEADER_LEN + key_len + value_len in
            if len rest <? record_len then (None, mk (data self) (len (data self)))
            else
              (Some (let? r := slice rest 0 record_len in record.decode r),
               mk (data self) (pos self + record_len))
      | Err e => (Some (Err e), self)
      | Panic => (Some Panic, self)
      end
  | Err e => (Some (Err e), self)
  | Panic => (Some Panic, self)
  end.

(** The loop over [next] that stops at the first error: [collect] into a
    [Result<Vec<_>>], and the [for] loop of [Engine::open_with]. *)
Fixpoint drain (fuel : nat) (self : t) : result (list Operation) :=
  match fuel with
  | O => Panic
  | S fuel' =>
      match next self with
      | (None, _) => Ok []
      | (Some (Ok op), self') => let? ops := drain fuel' self' in Ok (op :: ops)
      | (Some (Err e), _) => Err e
      | (Some Panic, _) => Panic
      end
  end.

Definition collect (self : t) : result (list Operation) := drain (S (length (data self))) self.

End WalIterator.

(** ** The log file *)
Module Wal.

Record t := mk { path : string }.

Definition open (p : string) : M World t :=
  let! _ := open_or_create p in mret (mk p).

Definition append (self : t) (operation : Operation) : M World Z :=
  let! fail := failpoints.should_fail WalAppend in
  if (fail : bool) then merr (injected "injected WAL append failure")
  else
  let! bs := mlift (record.encode operation) in
  let! offset := file_len (path self) in
  let! _ := write_all (path self) bs in
  mret offset.

Definition sync (self : t) : M World unit :=
  let! fail := failpoints.should_fail WalSync in
  if (fail : bool) then merr (injected "injected WAL sync failure")
  else sync_all (path self).

Definition iter (self : t) : M World WalIterator.t :=
  let! contents := read_to_end (path self) in mret (WalIterator.from_bytes contents).

Definition replay (self : t) : M World (list Operation) :=
  let! it := iter self in mlift (WalIterator.collect it).

Definition truncate (self : t) : M World unit :=
  let! _ := set_len_0 (path self) in sync_all (path self).

Definition wal_len (self : t) : M World Z := file_len (path self).

Definition is_empty (self : t) : M World bool :=
  let! n := wal_len self in mret (n =? 0).

End Wal.

(** ** Parsing a record at the current position *)

Definition log_bytes (ops : list Operation) : bytes := concat (op_bytes <$> ops).

Lemma log_bytes_cons op ops : log_bytes (op :: ops) = op_bytes op ++ log_bytes ops.
Proof. done. Qed.

Lemma log_bytes_app ops1 ops2 : log_bytes (ops1 ++ ops2) = log_bytes ops1 ++ log_bytes ops2.
Proof. unfold log_bytes. by rewrite fmap_app, concat_app. Qed.

Lemma log_bytes_1 op : log_bytes [op] = op_bytes op.
Proof. unfold log_bytes. simpl. by rewrite app_nil_r. Qed.

(** The parser only looks at the bytes from its position on. *)
Lemma next_shift pre rest :
  WalIterator.next (WalIterator.mk (pre ++ rest) (len pre)) =
  let '(item, self') := WalIterator.next (WalIterator.mk rest 0) in
  (item, WalIterator.mk (pre ++ rest) (len pre + WalIterator.pos self')).
Proof.
  unfold WalIterator.next. cbn [WalIterator.data WalIterator.pos].
  rewrite slice_from_app by done. unfold slice_from at 1. rewrite slice_all.
  case_if; [by rewrite Z.add_0_r|]. case_if; [by rewrite len_app|].
  destruct (let? s := _ in _) as [[k v]|e|]; [|by rewrite Z.add_0_r..].
  case_if; [by rewrite len_app|]. case_if; [by rewrite len_app|].
  by rewrite Z.add_0_l.
Qed.

(** The two length fields of a record that has a complete header. *)
Lemma next_layout f :
  record.in_range f ->
  WalIterator.next (WalIterator.from_bytes (record.layout f)) =
  let bs := record.layout f in
  if (MAX_KEY_SIZE <? record.f_key_len f) || (MAX_VALUE_SIZE <? record.f_value_len f)
  then (Some (Err CorruptedRecord), WalIterator.mk bs (len bs))
  else
    let record_len := record.RECORD_HEADER_LEN + record.f_key_len f + record.f_value_len f in
    if len bs <? record_len then (None, WalIterator.mk bs (len bs))
    else (Some (let? r := slice bs 0 record_len in record.decode r), WalIterator.mk bs record_len).
Proof.
  intros (Hc & Hk & Hv). unfold WalIterator.next, WalIterator.from_bytes.
  cbn [WalIterator.data WalIterator.pos]. unfold slice_from. rewrite slice_all.
  pose proof (record.len_layout f) as HL.
  unfold record.RECORD_HEADER_LEN, record.CHECKSUM_LEN, record.BODY_HEADER_LEN in *.
  case_if; [len_lia|]. case_if; [len_lia|]. clear -Hc Hk Hv.
  destruct f as [c t k v p]. unfold record.layout.
  unfold record.KEY_LEN_OFFSET, record.VALUE_LEN_OFFSET.
  cbn [record.f_checksum record.f_type record.f_key_len record.f_value_len record.f_payload] in *.
  replace (le_bytes 4 c ++ t :: le_bytes 4 k ++ le_bytes 4 v ++ p) with
    ((le_bytes 4 c ++ [t]) ++ le_bytes 4 k ++ le_bytes 4 v ++ p) by (by rewrite <- app_assoc).
  slice_as (le_bytes 4 c ++ [t]) (le_bytes 4 k). rewrite read_u32_le_bytes by done. rsimpl.
  rewrite (app_assoc _ (le_bytes 4 k)).
  slice_as ((le_bytes 4 c ++ [t]) ++ le_bytes 4 k) (le_bytes 4 v).
  rewrite read_u32_le_bytes by done. rsimpl. by rewrite Z.add_0_l.
Qed.

(** A complete record followed by anything is parsed and consumed. *)
Lemma next_record op rest :
  op_fits op ->
  WalIterator.next (WalIterator.from_bytes (op_bytes op ++ rest)) =
  (Some (Ok op), WalIterator.mk (op_bytes op ++ rest) (len (op_bytes op))).
Proof.
  intros Hf. pose proof (op_fields_in_range op Hf) as Hr.
  set (f := record.Fields (record.f_checksum (op_fields op)) (record.f_type (op_fields op))
    (len (op_key op)) (len (op_value op)) ((op_key op ++ op_value op) ++ rest)).
  assert (op_bytes op ++ rest = record.layout f) as El.
  { rewrite op_bytes_layout. unfold record.layout, f, op_fields. simpl.
    rewrite <- !app_assoc. simpl. by rewrite <- !app_assoc. }
  rewrite El, next_layout by (destruct Hr as (?&?&?); by split_and!).
  cbn zeta. change (record.f_key_len f) with (len (op_key op)).
  change (record.f_value_len f) with (len (op_value op)). rewrite <- El. clear El f.
  destruct Hf as [Hk Hv].
  case_if; [apply orb_true_iff in E as [?|?]; reflect_bools; lia|].
  pose proof (len_op_bytes op) as HL.
  case_if; [len_lia|]. rewrite slice_app_l by lia. rsimpl. by rewrite decode_op_bytes, HL.
Qed.

(** A position that is at a torn record: [next] ends the iteration. *)
Definition torn (t : bytes) : Prop := fst (WalIterator.next (WalIterator.from_bytes t)) = None.

Lemma torn_nil : torn [].
Proof. done. Qed.

Lemma torn_short t : len t < record.RECORD_HEADER_LEN -> torn t.
Proof.
  intros H. unfold torn, WalIterator.next, WalIterator.from_bytes, slice_from.
  cbn [WalIterator.data WalIterator.pos]. rewrite slice_all. case_if; [done|].
  case_if; [done|lia].
Qed.

(** The header of a record survives in every prefix that contains it. *)
Lemma layout_prefix f t :
  t `prefix_of` record.layout f -> record.RECORD_HEADER_LEN <= len t ->
  exists p, p `prefix_of` record.f_payload f /\
    t = record.layout (record.Fields (record.f_checksum f) (record.f_type f)
          (record.f_key_len f) (record.f_value_len f) p).
Proof.
  unfold record.RECORD_HEADER_LEN, record.CHECKSUM_LEN, record.BODY_HEADER_LEN.
  intros [k Hk] Hl. destruct f as [c y kl vl q]. unfold record.layout in *.
  cbn [record.f_checksum record.f_type record.f_key_len record.f_value_len record.f_payload] in *.
  set (h := le_bytes 4 c ++ y :: le_bytes 4 kl ++ le_bytes 4 vl).
  assert (forall r, le_bytes 4 c ++ y :: le_bytes 4 kl ++ le_bytes 4 vl ++ r = h ++ r) as Hh.
  { intros r. unfold h. rewrite <- app_assoc. simpl. by rewrite <- app_assoc. }
  rewrite Hh in Hk. setoid_rewrite Hh.
  destruct (split_at t 13) as (u & p & -> & Hu); [lia|].
  rewrite <- app_assoc in Hk. apply app_inj_len in Hk as [-> ->].
  2: { assert (len h = 13) by (unfold h; len_lia). unfold len in *. lia. }
  exists p. split; [by exists k|done].
Qed.

Lemma torn_prefix op t :
  op_fits op -> t `prefix_of` op_bytes op -> t <> op_bytes op -> torn t.
Proof.
  intros Hf Hp Hne.
  destruct (Z.lt_ge_cases (len t) record.RECORD_HEADER_LEN) as [|Hl]; [by apply torn_short|].
  assert (len t < len (op_bytes op)) as Hlt.
  { destruct Hp as [k Hk]. rewrite Hk, len_app. destruct k; [|len_lia].
    rewrite app_nil_r in Hk. congruence. }
  rewrite op_bytes_layout in Hp. apply layout_prefix in Hp as (p & _ & ->); [|done].
  pose proof (op_fields_in_range op Hf) as Hr. rewrite len_op_bytes in Hlt.
  unfold torn. rewrite next_layout by done. cbn zeta.
  change (record.f_key_len (op_fields op)) with (len (op_key op)) in *.
  change (record.f_value_len (op_fields op)) with (len (op_value op)) in *.
  cbn [record.f_key_len record.f_value_len]. destruct Hf as [Hk Hv].
  case_if; [apply orb_true_iff in E as [?|?]; reflect_bools; lia|].
  case_if; [done|lia].
Qed.

(** Every position is at a torn record, at a corrupt one, or at the bytes of
    an operation. *)
Lemma next_cases rest :
  torn rest \/
  (exists e self', WalIterator.next (WalIterator.from_bytes rest) = (Some (Err e), self')) \/
  (exists op rest', op_fits op /\ rest = op_bytes op ++ rest').
Proof.
  destruct (Z.lt_ge_cases (len rest) record.RECORD_HEADER_LEN) as [|Hl];
    [left; by apply torn_short|].
  destruct (record.layout_surj rest Hl) as (f & Hr & Ef).
  assert (0 <= record.f_key_len f /\ 0 <= record.f_value_len f) as [??]
    by (destruct Hr as (_ & [??] & [??]); done).
  unfold torn. rewrite Ef, next_layout by done. cbn zeta.
  case_if; [by eauto|]. case_if; [by left|]. right.
  unfold record.RECORD_HEADER_LEN, record.CHECKSUM_LEN, record.BODY_HEADER_LEN in *.
  step_slice r Hs. pose proof (decode_no_panic r).
  destruct (record.decode r) as [op|e|] eqn:D; [right|by eauto|done].
  apply decode_Ok in D as [Hf ->]. exists op.
  apply slice_split in E as (l1 & l3 & -> & Hl1 & _).
  apply len_0_nil in Hl1 as ->. by exists l3.
Qed.

(** ** Draining the parser *)

Lemma op_bytes_long op : (13 <= length (op_bytes op))%nat.
Proof.
  pose proof (len_op_bytes op) as H.
  unfold record.RECORD_HEADER_LEN, record.CHECKSUM_LEN, record.BODY_HEADER_LEN, len in *. lia.
Qed.

(** [drain] from a position is [drain] on the bytes from that position. *)
Lemma drain_shift fuel pre rest :
  WalIterator.drain fuel (WalIterator.mk (pre ++ rest) (len pre)) =
  WalIterator.drain fuel (WalIterator.from_bytes rest).
Proof.
  revert pre rest. induction fuel as [|fuel IH]; intros pre rest; [done|].
  cbn [WalIterator.drain]. rewrite next_shift.
  change (WalIterator.mk rest 0) with (WalIterator.from_bytes rest).
  destruct (next_cases rest) as [Ht|[(e & s' & ->)|(op & r & Hf & ->)]]; [|done|].
  - unfold torn in Ht. destruct (WalIterator.next _) as [[]]; done.
  - rewrite next_record by done. cbn [WalIterator.pos].
    rewrite app_assoc, <- len_app, IH, <- IH with (pre := op_bytes op). done.
Qed.

Lemma drain_record fuel op rest :
  op_fits op ->
  WalIterator.drain (S fuel) (WalIterator.from_bytes (op_bytes op ++ rest)) =
  let? ops := WalIterator.drain fuel (WalIterator.from_bytes rest) in Ok (op :: ops).
Proof. intros Hf. cbn [WalIterator.drain]. by rewrite next_record, drain_shift. Qed.

Lemma drain_torn fuel t : torn t -> WalIterator.drain (S fuel) (WalIterator.from_bytes t) = Ok [].
Proof.
  unfold torn. intros Ht. cbn [WalIterator.drain].
  destruct (WalIterator.next _) as [[]]; done.
Qed.

(** One more unit of fuel than bytes is enough: the result is an answer, and
    it is either an error or the operations of the log, up to a torn tail. *)
Lemma drain_enough fuel rest :
  (length rest < fuel)%nat ->
  (exists e, WalIterator.drain fuel (WalIterator.from_bytes rest) = Err e) \/
  (exists ops t, WalIterator.drain fuel (WalIterator.from_bytes rest) = Ok ops /\
     Forall op_fits ops /\ torn t /\ rest = log_bytes ops ++ t).
Proof.
  revert rest. induction fuel as [|fuel IH]; intros rest Hl; [lia|].
  destruct (next_cases rest) as [Ht|[(e & s' & E)|(op & r & Hf & ->)]].
  - right. exists [], rest. by rewrite drain_torn.
  - left. exists e. cbn [WalIterator.drain]. by rewrite E.
  - rewrite drain_record by done. rewrite length_app in Hl.
    pose proof (op_bytes_long op).
    destruct (IH r) as [(e & ->)|(ops & t & -> & Hfs & Ht & ->)]; [lia| |].
    + left. by exists e.
    + right. exists (op :: ops), t. split_and!; auto. by rewrite log_bytes_cons, <- app_assoc.
Qed.

Lemma collect_log ops t :
  Forall op_fits ops -> torn t ->
  WalIterator.collect (WalIterator.from_bytes (log_bytes ops ++ t)) = Ok ops.
Proof.
  intros Hfs Ht. unfold WalIterator.collect. simpl WalIterator.data.
  generalize (le_n (length (log_bytes ops ++ t))).
  generalize (length (log_bytes ops ++ t)) at 2 3. intros fuel.
  revert fuel. induction Hfs as [|op ops Hf Hfs IH]; intros fuel Hl; [by apply drain_torn|].
  rewrite log_bytes_cons, <- app_assoc in *. rewrite drain_record by done.
  rewrite length_app in Hl. pose proof (op_bytes_long op).
  destruct fuel as [|fuel]; [lia|]. rewrite IH; [done|lia].
Qed.

(** ** The log file *)

(** The log at [p] holds exactly the records of [ops], all of them synced. *)
Definition clean_log (w : World) (p : string) (ops : list Operation) : Prop :=
  Forall op_fits ops /\ w_files w !! p = Some (mkFile (log_bytes ops) (log_bytes ops)).

Section wal_rules.
Context (self : Wal.t).
Implicit Types (w : World) (f : File) (E : Error -> World -> Prop).

(** Whatever fails, [append] adds a prefix of the record and nothing else; it
    succeeds only when it added the whole record. *)
Lemma wp_append op f (Q : Z -> World -> Prop) E w :
  w_files w !! Wal.path self = Some f ->
  (forall w', op_fits op ->
     w_files w' = <[Wal.path self := mkFile (f_data f ++ op_bytes op) (f_durable f)]> (w_files w) ->
     (quiet w -> quiet w') -> Q (len (f_data f)) w') ->
  (forall e k w', k `prefix_of` op_bytes op ->
     w_files w' = <[Wal.path self := mkFile (f_data f ++ k) (f_durable f)]> (w_files w) ->
     (quiet w -> ~ op_fits op) -> E e w') ->
  wp (Wal.append self op) Q E w.
Proof.
  intros Hp HQ HE.
  assert (forall e w', w_files w' = w_files w -> (quiet w -> ~ op_fits op) -> E e w') as HE0.
  { intros e w' Hw Hn. apply (HE e []); [apply prefix_nil| |done].
    rewrite Hw, app_nil_r, insert_id; [done|]. by destruct f. }
  apply wp_bind, wp_should_fail; intros w1 Hw1 Hq1.
  { apply wp_err, HE0; [done|]. by intros. }
  apply wp_bind. unfold wp at 1, mlift. rewrite encode_spec.
  case_bool_decide as Hk; [case_bool_decide as Hv|]; try (apply HE0; [done|]; by intros ? []).
  apply wp_bind, (wp_file_len _ f); [by rewrite Hw1| |].
  2: { intros w2 Hw2 Hq2. apply HE0; [congruence|]. intros Hq. by destruct Hq2; auto. }
  intros w2 Hw2 Hq2.
  apply wp_bind, (wp_write_all _ f); [by rewrite Hw2, Hw1| |].
  - intros w3 Hw3 Hq3. apply wp_ret, HQ; [done| |by auto]. by rewrite Hw3, Hw2, Hw1.
  - intros k w3 Hk3 Hw3 Hq3. apply (HE _ k); [done|by rewrite Hw3, Hw2, Hw1|].
    intros Hq. by destruct Hq3; auto.
Qed.

Lemma wp_sync f (Q : unit -> World -> Prop) E w :
  w_files w !! Wal.path self = Some f ->
  (forall w', w_files w' = <[Wal.path self := mkFile (f_data f) (f_data f)]> (w_files w) ->
     (quiet w -> quiet w') -> Q tt w') ->
  (forall e w', w_files w' = w_files w -> ~ quiet w -> E e w') ->
  wp (Wal.sync self) Q E w.
Proof.
  intros Hp HQ HE. apply wp_bind, wp_should_fail; intros w1 Hw1 Hq1.
  { by apply wp_err, HE. }
  apply (wp_sync_all _ f); [by rewrite Hw1| |].
  - intros w2 Hw2 Hq2. apply HQ; [by rewrite Hw2, Hw1|auto].
  - intros w2 Hw2 Hq2. apply HE; [congruence|auto].
Qed.

Lemma wp_truncate f (Q : unit -> World -> Prop) E w :
  w_files w !! Wal.path self = Some f ->
  (forall w', w_files w' = <[Wal.path self := mkFile [] []]> (w_files w) ->
     (quiet w -> quiet w') -> Q tt w') ->
  (forall e d w', d = f_data f \/ d = [] ->
     w_files w' = <[Wal.path self := mkFile d (f_durable f)]> (w_files w) ->
     ~ quiet w -> E e w') ->
  wp (Wal.truncate self) Q E w.
Proof.
  intros Hp HQ HE. apply wp_bind, (wp_set_len_0 _ f); [done| |].
  - intros w1 Hw1 Hq1. apply (wp_sync_all _ (mkFile [] (f_durable f)));
      [by rewrite Hw1, lookup_insert_eq| |].
    + intros w2 Hw2 Hq2. apply HQ; [|auto]. by rewrite Hw2, Hw1, insert_insert_eq.
    + intros w2 Hw2 Hq2. apply (HE _ []); [by right|by rewrite Hw2|auto].
  - intros w1 Hw1 Hq1. apply (HE _ (f_data f)); [by left| |done].
    rewrite Hw1, insert_id; [done|by destruct f].
Qed.

Lemma wp_replay f (Q : list Operation -> World -> Prop) E w ops :
  w_files w !! Wal.path self = Some f ->
  WalIterator.collect (WalIterator.from_bytes (f_data f)) = Ok ops ->
  (forall w', w_files w' = w_files w -> (quiet w -> quiet w') -> Q ops w') ->
  (forall e w', w_files w' = w_files w -> ~ quiet w -> E e w') ->
  wp (Wal.replay self) Q E w.
Proof.
  intros Hp Hc HQ HE.
  apply wp_bind, wp_bind, (wp_read_to_end _ f); [done| |by intros; apply HE].
  intros w1 Hw1 Hq1. apply wp_ret. unfold wp, mlift. rewrite Hc. auto.
Qed.

End wal_rules.

(** The contents a crash can leave in a log to which [k] is being appended. *)
Lemma crash_content_append ops k bs :
  crash_content (mkFile (log_bytes ops ++ k) (log_bytes ops)) bs ->
  exists k', k' `prefix_of` k /\ bs = log_bytes ops ++ k'.
Proof.
  unfold crash_content. simpl. intros [->|[->|[[k' ->] [r Hr]]]].
  - exists []. split; [apply prefix_nil|by rewrite app_nil_r].
  - by exists k.
  - exists k'. split; [|done]. rewrite <- app_assoc in Hr. apply app_inv_head in Hr as ->.
    by exists r.
Qed.

(** Replaying a log whose last record may be cut. *)
Lemma collect_partial ops op k :
  Forall op_fits ops -> op_fits op -> k `prefix_of` op_bytes op ->
  exists ops', (ops' = ops \/ ops' = ops ++ [op]) /\
    WalIterator.collect (WalIterator.from_bytes (log_bytes ops ++ k)) = Ok ops'.
Proof.
  intros Hfs Hf Hk. destruct (decide (k = op_bytes op)) as [->|Hne].
  - exists (ops ++ [op]). split; [by right|].
    rewrite <- (log_bytes_1 op), <- log_bytes_app, <- (app_nil_r (log_bytes _)).
    apply collect_log; [|apply torn_nil]. by apply Forall_app; auto.
  - exists ops. split; [by left|]. apply collect_log; [done|]. by apply (torn_prefix op).
Qed.

(** ** Properties *)

(** C26: replaying any file content terminates with operations or an error: the
    parser never panics, whatever bytes the log holds; and the operations it
    returns are exactly those of the records at the start of the log, followed
    by bytes it treats as a torn record. *)
Theorem replay_sound bs :
  (exists e, WalIterator.collect (WalIterator.from_bytes bs) = Err e) \/
  (exists ops t, WalIterator.collect (WalIterator.from_bytes bs) = Ok ops /\
     Forall op_fits ops /\ torn t /\ bs = log_bytes ops ++ t).
Proof. apply drain_enough. simpl. lia. Qed.

(** C27: a log of complete records followed by a cut-off record (a strict prefix
    of one, possibly empty) replays to exactly those records, in order. *)
Theorem replay_torn_tail ops op t :
  Forall op_fits ops -> op_fits op -> t `prefix_of` op_bytes op -> t <> op_bytes op ->
  WalIterator.collect (WalIterator.from_bytes (log_bytes ops ++ t)) = Ok ops.
Proof. intros. apply collect_log; [done|]. by apply (torn_prefix op). Qed.

Lemma replay_torn_tail_witness :
  WalIterator.collect (WalIterator.from_bytes
    (log_bytes [Put [x6b] [x31]; Delete [x6b]] ++ take 5 (op_bytes (Put [x6b] [x32])))) =
  Ok [Put [x6b] [x31]; Delete [x6b]].
Proof.
  apply (replay_torn_tail _ (Put [x6b] [x32])).
  - repeat constructor; vm_compute; discriminate.
  - split; vm_compute; discriminate.
  - exists (drop 5 (op_bytes (Put [x6b] [x32]))). by rewrite take_drop.
  - vm_compute. discriminate.
Defined.

(** C22: appending to a clean log is atomic under failures and crashes: whatever
    I/O call fails, and whatever part of the pending write a crash keeps, the
    log replays either to the old operations or to the old operations and the
    new one; and once [append] and [sync] have returned [Ok], to the latter. *)
Theorem append_sync_crash self op ops w w2 :
  clean_log w (Wal.path self) ops -> op_fits op ->
  let run := let! _ := Wal.append self op in Wal.sync self in
  crashed (snd (run w)) w2 ->
  exists ops', fst (Wal.replay self w2) = Ok ops' /\
    (ops' = ops \/ ops' = ops ++ [op]) /\ (fst (run w) = Ok tt -> ops' = ops ++ [op]).
Proof.
  intros [Hfs Hp] Hf run Hc.
  assert (wp run
    (fun _ w' => w_files w' !! Wal.path self =
       Some (mkFile (log_bytes (ops ++ [op])) (log_bytes (ops ++ [op]))))
    (fun _ w' => exists k, k `prefix_of` op_bytes op /\ w_files w' !! Wal.path self =
       Some (mkFile (log_bytes ops ++ k) (log_bytes ops))) w) as Hwp.
  { apply wp_bind, (wp_append _ _ _ _ _ _ Hp).
    - intros w' _ Hw' _.
      apply (wp_sync _ (mkFile (log_bytes ops ++ op_bytes op) (log_bytes ops)));
        [by rewrite Hw', lookup_insert_eq| |].
      + intros w1 Hw1 _. by rewrite Hw1, lookup_insert_eq, log_bytes_app, log_bytes_1.
      + intros _ w1 Hw1 _. exists (op_bytes op). by rewrite Hw1, Hw', lookup_insert_eq.
    - intros _ k w' Hk Hw' _. exists k. by rewrite Hw', lookup_insert_eq. }
  destruct Hc as (Hn & Hq & Hc). specialize (Hc (Wal.path self)).
  assert (forall f ops', w_files w2 !! Wal.path self = Some f ->
    WalIterator.collect (WalIterator.from_bytes (f_data f)) = Ok ops' ->
    fst (Wal.replay self w2) = Ok ops') as Hrep.
  { intros f ops' H1 H2. destruct (wp_run _ _ _ _ (wp_replay self f (fun o _ => o = ops')
      (fun _ _ => False) w2 ops' H1 H2 (fun _ _ _ => eq_refl)
      (fun _ _ _ H => H (conj Hn Hq)))) as [(a & s & -> & ->)|(?&?&_&[])]. done. }
  destruct (wp_run _ _ _ _ Hwp) as [([] & w' & Er & Hw')|(e & w' & Er & k & Hk & Hw')];
    rewrite Er in *; simpl in *; rewrite Hw' in Hc;
    destruct (w_files w2 !! Wal.path self) as [f|] eqn:Hf2; try done; destruct Hc as [Hc _].
  - exists (ops ++ [op]). split_and!; auto. apply (Hrep f); [done|].
    assert (f_data f = log_bytes (ops ++ [op])) as ->.
    { destruct Hc as [->|[->|[H1 H2]]]; simpl in *; try done. by apply (anti_symm prefix). }
    rewrite <- (app_nil_r (log_bytes _)). apply collect_log; [|apply torn_nil].
    by apply Forall_app; auto.
  - apply crash_content_append in Hc as (k' & Hk' & Ek).
    destruct (collect_partial ops op k') as (ops' & Ho & Hcol); [done|done|by etrans|].
    exists ops'. split_and!; [apply (Hrep f); congruence|done|done].
Qed.

(** A log with one record, and a device that fails after writing four bytes. *)
Lemma append_sync_crash_witness :
  let w := mkWorld {[ "wal.log" := mkFile (log_bytes [Put [x6b] [x31]]) (log_bytes [Put [x6b] [x31]]) ]}
    None [None; Some 4%nat] in
  let run := let! _ := Wal.append (Wal.mk "wal.log") (Delete [x6b]) in Wal.sync (Wal.mk "wal.log") in
  exists ops', fst (Wal.replay (Wal.mk "wal.log") (restart (snd (run w)))) = Ok ops' /\
    (ops' = [Put [x6b] [x31]] \/ ops' = [Put [x6b] [x31]] ++ [Delete [x6b]]) /\
    (fst (run w) = Ok tt -> ops' = [Put [x6b] [x31]] ++ [Delete [x6b]]).
Proof.
  cbv zeta. apply append_sync_crash.
  - split; [repeat constructor; vm_compute; discriminate|apply lookup_singleton_eq].
  - split; vm_compute; discriminate.
  - apply crashed_restart.
Defined.
