(* ===== verification/Memtable.v ===== *)
(** * The memtable ([src/memtable.rs])

    [usize] arithmetic wraps at [2^64], as in release builds.  The invariant
    [MemTable.wf] says the entries are in key order and the running size is the
    number of key and value bytes (modulo [2^64]); [insert_no_underflow] shows
    that the subtraction of [insert] never underflows, so builds with overflow
    checks behave the same. *)

From S2P Require Import Prelude Bytes Collections.

(** ** Entries *)

Inductive Entry :=
| Value (value : bytes)
| Tombstone.

#[global] Instance Entry_eq_dec : EqDecision Entry.
Proof. solve_decision. Defined.

(** [Entry::value_len]. *)
Definition value_len (e : Entry) : Z :=
  match e with Value value => len value | Tombstone => 0 end.

(** ** The table *)
Module MemTable.

Record t := mk {
  entries : list (bytes * Entry);
  approximate_size : Z;
}.

Definition new : t := mk [] 0.

Definition get (self : t) (key : bytes) : option Entry := BTreeMap.get (entries self) key.

Definition contains_key (self : t) (key : bytes) : bool :=
  BTreeMap.contains_key (entries self) key.

Definition insert (self : t) (key : bytes) (entry : Entry) : t :=
  let added := wrap64 (len key + value_len entry) in
  let size :=
    match BTreeMap.get (entries self) key with
    | Some previous =>
        let size := wrap64 (approximate_size self - value_len previous) in
        wrap64 (size + value_len entry)
    | None => wrap64 (approximate_size self + added)
    end in
  mk (BTreeMap.insert (entries self) key entry) size.

Definition put (self : t) (key value : bytes) : t := insert self key (Value value).

Definition delete (self : t) (key : bytes) : t := insert self key Tombstone.

Definition table_len (self : t) : Z := len (entries self).

Definition is_empty (self : t) : bool := table_len self =? 0.

Definition clear (self : t) : t := mk [] 0.

(** [iter] and [into_iter]: the entries in key order. *)
Definition iter (self : t) : list (bytes * Entry) := entries self.

(** ** The invariant *)

(** Key and value bytes held. *)
Definition held (l : list (bytes * Entry)) : Z :=
  foldr (fun '(k, e) n => len k + value_len e + n) 0 l.

Definition wf (self : t) : Prop :=
  ksorted (entries self) /\ approximate_size self = wrap64 (held (entries self)).

Lemma value_len_nonneg e : 0 <= value_len e.
Proof. destruct e; simpl; [apply len_nonneg|lia]. Qed.

Lemma held_nonneg l : 0 <= held l.
Proof.
  induction l as [|[k e] l IH]; simpl; [lia|].
  pose proof (len_nonneg k). pose proof (value_len_nonneg e). lia.
Qed.

(** How an insertion changes the bytes held. *)
Lemma held_insert l k e :
  ksorted l ->
  held (BTreeMap.insert l k e) =
  held l + match BTreeMap.get l k with
           | Some p => value_len e - value_len p
           | None => len k + value_len e
           end.
Proof.
  unfold BTreeMap.get. induction l as [|[k0 e0] l IH]; simpl; [lia|].
  intros [F Hs]%ksorted_cons. destruct (bytes_cmp k k0) eqn:E; simpl.
  - apply bytes_cmp_eq in E as ->. rewrite decide_True by done. lia.
  - rewrite decide_False by (intros ->; by rewrite bytes_cmp_refl in E).
    replace (alookup l k) with (@None Entry); [lia|]. symmetry. apply alookup_None.
    intros ([k' v'] & -> & Hin)%list_elem_of_fmap. rewrite Forall_forall in F.
    specialize (F _ Hin). simpl in *. change (key_lt k' k0) in E. key_order.
  - rewrite decide_False by (intros ->; by rewrite bytes_cmp_refl in E).
    rewrite IH by done. lia.
Qed.

(** An entry's value is among the bytes held. *)
Lemma held_get l k e : BTreeMap.get l k = Some e -> value_len e <= held l.
Proof.
  unfold BTreeMap.get. induction l as [|[k0 e0] l IH]; simpl; [done|].
  pose proof (len_nonneg k0). pose proof (value_len_nonneg e0). pose proof (held_nonneg l).
  case_decide; [intros [= ->]; lia|]. intros ?%IH. lia.
Qed.

Lemma new_wf : wf new.
Proof. split; [constructor|done]. Qed.

Lemma insert_wf self key entry : wf self -> wf (insert self key entry).
Proof.
  intros [Hs Hsz]. split; [by apply BTreeMap.insert_sorted|].
  unfold insert. cbn [entries approximate_size]. rewrite held_insert, Hsz by done.
  destruct (BTreeMap.get (entries self) key); rewrite ?wrap64_mod;
    rewrite ?Zplus_mod_idemp_l, ?Zplus_mod_idemp_r, ?Zminus_mod_idemp_l.
  - rewrite <- Zplus_mod_idemp_l, Zminus_mod_idemp_l, Zplus_mod_idemp_l. f_equal. lia.
  - f_equal.
Qed.

Lemma get_after_insert self key entry k :
  wf self -> get (insert self key entry) k = if decide (k = key) then Some entry else get self k.
Proof. intros [Hs _]. by apply BTreeMap.get_insert. Qed.

End MemTable.

(** ** Properties *)

(** Any sequence of the public mutations. *)
Inductive mem_op := MPut (key value : bytes) | MDelete (key : bytes) | MClear.

Definition mem_run (op : mem_op) (m : MemTable.t) : MemTable.t :=
  match op with
  | MPut key value => MemTable.put m key value
  | MDelete key => MemTable.delete m key
  | MClear => MemTable.clear m
  end.

(** What the mutations mean: a finite map from keys to entries. *)
Definition mem_spec (op : mem_op) (s : gmap bytes Entry) : gmap bytes Entry :=
  match op with
  | MPut key value => <[key := Value value]> s
  | MDelete key => <[key := Tombstone]> s
  | MClear => ∅
  end.

Lemma mem_run_refines op m s :
  MemTable.wf m -> (forall k, MemTable.get m k = s !! k) ->
  MemTable.wf (mem_run op m) /\ (forall k, MemTable.get (mem_run op m) k = mem_spec op s !! k).
Proof.
  intros Hwf Hg. destruct op; simpl.
  - split; [by apply MemTable.insert_wf|]. intros k. unfold MemTable.put.
    rewrite MemTable.get_after_insert, Hg by done. rewrite lookup_insert.
    repeat case_decide; congruence.
  - split; [by apply MemTable.insert_wf|]. intros k. unfold MemTable.delete.
    rewrite MemTable.get_after_insert, Hg by done. rewrite lookup_insert.
    repeat case_decide; congruence.
  - split; [apply MemTable.new_wf|]. intros k. by rewrite lookup_empty.
Qed.

Lemma mem_runs_refine ops m s :
  MemTable.wf m -> (forall k, MemTable.get m k = s !! k) ->
  MemTable.wf (foldl (flip mem_run) m ops) /\
  (forall k, MemTable.get (foldl (flip mem_run) m ops) k = foldl (flip mem_spec) s ops !! k).
Proof.
  revert m s. induction ops as [|op ops IH]; intros m s Hwf Hg; simpl; [done|].
  destruct (mem_run_refines op m s Hwf Hg). by apply IH.
Qed.

(** C30: after any sequence of [put], [delete] and [clear] on a new memtable,
    its entries are in strict key order, the size estimate is the number of key
    and value bytes held, and [get] answers as the finite map that the same
    operations build (a delete leaves a tombstone, present or not). *)
Theorem memtable_refines_map ops :
  let m := foldl (flip mem_run) MemTable.new ops in
  let s := foldl (flip mem_spec) ∅ ops in
  ksorted (MemTable.iter m) /\
  MemTable.approximate_size m = wrap64 (MemTable.held (MemTable.iter m)) /\
  (forall k, MemTable.get m k = s !! k) /\
  (forall k, MemTable.contains_key m k = bool_decide (is_Some (s !! k))).
Proof.
  intros m s. destruct (mem_runs_refine ops MemTable.new ∅) as [[Hs Hz] Hg].
  - apply MemTable.new_wf.
  - done.
  - split_and!; [done|done|done|]. intros k. unfold MemTable.contains_key, BTreeMap.contains_key.
    change (BTreeMap.get (MemTable.entries m) k) with (MemTable.get m k). by rewrite (Hg k : MemTable.get m k = s !! k).
Qed.

(** While the table holds fewer than [2^64] bytes, the size estimate is
    exact and the subtraction in [insert] does not underflow. *)
Theorem insert_no_underflow m key entry previous :
  MemTable.wf m -> MemTable.held (MemTable.entries m) < 2 ^ 64 ->
  MemTable.get m key = Some previous ->
  value_len previous <= MemTable.approximate_size m /\
  (MemTable.held (MemTable.entries m) - value_len previous + value_len entry < 2 ^ 64 ->
   MemTable.approximate_size (MemTable.insert m key entry) =
   MemTable.approximate_size m - value_len previous + value_len entry).
Proof.
  intros [Hs Hz] Hlt Hg. pose proof (MemTable.held_nonneg (MemTable.entries m)).
  pose proof (MemTable.held_get _ _ _ Hg). pose proof (MemTable.value_len_nonneg entry).
  assert (MemTable.approximate_size m = MemTable.held (MemTable.entries m)) as Ha.
  { rewrite Hz. rewrite ?wrap64_mod. by rewrite Z.mod_small by lia. }
  split; [lia|]. intros Hlt2. unfold MemTable.insert.
  change (BTreeMap.get (MemTable.entries m) key) with (MemTable.get m key).
  rewrite Hg. simpl. rewrite ?wrap64_mod. pose proof (MemTable.value_len_nonneg previous).
  rewrite (Z.mod_small (_ - _)) by lia. rewrite Z.mod_small by lia. done.
Qed.

Lemma insert_no_underflow_witness :
  value_len (Value [x31; x32]) <= MemTable.approximate_size (MemTable.put MemTable.new [x6b] [x31; x32]) /\
  (MemTable.held (MemTable.entries (MemTable.put MemTable.new [x6b] [x31; x32]))
     - value_len (Value [x31; x32]) + value_len Tombstone < 2 ^ 64 ->
   MemTable.approximate_size
     (MemTable.insert (MemTable.put MemTable.new [x6b] [x31; x32]) [x6b] Tombstone) =
   MemTable.approximate_size (MemTable.put MemTable.new [x6b] [x31; x32])
     - value_len (Value [x31; x32]) + value_len Tombstone).
Proof.
  apply insert_no_underflow; [apply MemTable.insert_wf, MemTable.new_wf|reflexivity|reflexivity].
Defined.
