(* ===== verification/Floats.v ===== *)
(** * Floating-point numbers

    The code computes with [f64] in two places: the sizes of a Bloom filter
    ([src/bloom.rs]) and the statistics of the workload driver
    ([src/bin/workload.rs]).  The operations are those of IEEE 754 binary64,
    rounding to nearest, ties to even; they run on the Standard Library's
    [spec_float].  The bounds that the clients need come from one lemma:
    rounding does not cross a representable number ([round_between]). *)

From Stdlib Require SpecFloat.
From S2P Require Import Prelude Bytes Errors.

Abbreviation float := SpecFloat.spec_float.

(** ** Operations of [f64] *)
Module F64.
Import SpecFloat.

(** [f64::from_bits]: sign, eleven bits of exponent, 52 bits of mantissa. *)
Definition of_bits (b : f64) : float :=
  let s := Z.testbit b 63 in
  let e := Z.land (Z.shiftr b 52) 2047 in
  let m := Z.land b (2 ^ 52 - 1) in
  if e =? 2047 then (if m =? 0 then S754_infinity s else S754_nan)
  else if e =? 0 then
    match m with Zpos p => S754_finite s p (-1074) | _ => S754_zero s end
  else
    match m + 2 ^ 52 with Zpos p => S754_finite s p (e - 1075) | _ => S754_nan end.

Definition mul : float -> float -> float := SFmul 53 1024.
Definition div : float -> float -> float := SFdiv 53 1024.
Definition add : float -> float -> float := SFadd 53 1024.
Definition sub : float -> float -> float := SFsub 53 1024.
Definition neg : float -> float := SFopp.
Definition ltb : float -> float -> bool := SFltb.

(** [n as f64] for an unsigned [n]. *)
Definition of_int (n : Z) : float := binary_normalize 53 1024 n 0 false.

(** [f64::max]: a NaN loses. *)
Definition max (x y : float) : float :=
  match x, y with
  | S754_nan, _ => y
  | _, S754_nan => x
  | _, _ => if ltb x y then y else x
  end.

(** [f64::clamp]: a NaN stays. *)
Definition clamp (x lo hi : float) : float :=
  if ltb x lo then lo else if ltb hi x then hi else x.

(** [f64::ceil]. *)
Definition ceil (x : float) : float :=
  match x with
  | S754_finite s m e =>
      if 0 <=? e then x
      else binary_normalize 53 1024
        (if s then - Z.shiftr (Zpos m) (- e) else Z.shiftr (Zpos m + (2 ^ (- e) - 1)) (- e)) 0 s
  | _ => x
  end.

(** [f64::round]: halves go away from zero. *)
Definition round (x : float) : float :=
  match x with
  | S754_finite s m e =>
      if 0 <=? e then x
      else binary_normalize 53 1024
        (cond_Zopp s (Z.shiftr (Zpos m + 2 ^ (- e - 1)) (- e))) 0 s
  | _ => x
  end.

(** [x as uN]: truncated, saturating, and 0 for a NaN. *)
Definition to_int (top : Z) (x : float) : Z :=
  match x with
  | S754_finite false m e => Z.min (Z.shiftl (Zpos m) e) top
  | S754_infinity false => top
  | _ => 0
  end.

Definition as_usize : float -> Z := to_int (2 ^ 64 - 1).
Definition as_u32 : float -> Z := to_int (2 ^ 32 - 1).

End F64.

#[global] Instance float_eq_dec : EqDecision SpecFloat.spec_float.
Proof. solve_decision. Defined.

(** ** Values

    A finite [f64] is a multiple of 2^-1074.  [fval] counts them, for the floats
    that are not negative. *)
Definition fval (x : float) : Z :=
  match x with SpecFloat.S754_finite _ m e => Zpos m * 2 ^ (e + 1074) | _ => 0 end.

Definition one64 : Z := 2 ^ 1074.

(** A bound that keeps the results below the infinities. *)
Definition huge : Z := 2 ^ 852.

(** Finite and not negative, with a mantissa of 53 bits. *)
Definition finite (x : float) : Prop :=
  match x with
  | SpecFloat.S754_zero _ => True
  | SpecFloat.S754_finite false m e => -1074 <= e /\ Zpos m <= 2 ^ 53
  | _ => False
  end.

(** The numbers with at most 53 significant bits. *)
Definition representable (r : Z) : Prop := exists m k, 0 <= m <= 2 ^ 53 /\ 0 <= k /\ r = m * 2 ^ k.

(** ** Powers of two *)

Lemma pow2_pos k : 0 <= k -> 0 < 2 ^ k.
Proof. intros. by apply Z.pow_pos_nonneg. Qed.

Lemma one64_pos : 0 < one64.
Proof. by apply Z.pow_pos_nonneg. Qed.

Lemma huge_big : 2 ^ 60 < huge.
Proof. apply Z.pow_lt_mono_r; lia. Qed.

Lemma pow2_split a b : 0 <= a -> 0 <= b -> 2 ^ (a + b) = 2 ^ a * 2 ^ b.
Proof. intros. by apply Z.pow_add_r. Qed.

Lemma pow2_2148 : 2 ^ 2148 = one64 * one64.
Proof. unfold one64. by rewrite <- pow2_split. Qed.

Lemma representable_int n : 0 <= n <= 2 ^ 53 -> representable (n * one64).
Proof. intros. by exists n, 1074. Qed.

(** A representable number is a multiple of every power of two that leaves it 53
    bits. *)
Lemma representable_multiple r j :
  representable r -> 0 <= j -> 2 ^ (52 + j) <= r -> exists y, r = y * 2 ^ j.
Proof.
  intros (m & k & Hm & Hk & ->) Hj Hr. destruct (Z_le_gt_dec j k).
  - exists (m * 2 ^ (k - j)). rewrite <- Z.mul_assoc, <- pow2_split by lia. do 2 f_equal. lia.
  - exists (2 ^ 52). rewrite <- pow2_split by lia. apply Z.le_antisymm; [|done].
    transitivity (2 ^ (53 + k)).
    + rewrite pow2_split by lia. apply Z.mul_le_mono_nonneg_r; [apply Z.lt_le_incl, pow2_pos|]; lia.
    + apply Z.pow_le_mono_r; lia.
Qed.

Lemma digits_bounds m :
  2 ^ (Zpos (SpecFloat.digits2_pos m) - 1) <= Zpos m < 2 ^ Zpos (SpecFloat.digits2_pos m).
Proof.
  induction m as [m IH|m IH|]; cbn [SpecFloat.digits2_pos]; [| |by vm_compute];
    rewrite Pos2Z.inj_succ; set (d := Zpos (SpecFloat.digits2_pos m)) in *;
    replace (Z.succ d - 1) with (1 + (d - 1)) by lia; assert (1 <= d) by (unfold d; lia);
    replace (Z.succ d) with (1 + d) by lia; rewrite !pow2_split by lia;
    change (2 ^ 1) with 2; lia.
Qed.

Lemma digits_le m k : 0 <= k -> Zpos m < 2 ^ k -> Zpos (SpecFloat.digits2_pos m) <= k.
Proof.
  intros Hk Hm. pose proof (digits_bounds m) as [Hd _].
  assert (2 ^ (Zpos (SpecFloat.digits2_pos m) - 1) < 2 ^ k) as Hlt by lia.
  apply Z.pow_lt_mono_r_iff in Hlt; lia.
Qed.

(** ** Shifting a mantissa *)

Section shifts.
Import SpecFloat.

Lemma iter_pos_nat {A} (f : A -> A) p x : iter_pos f p x = Nat.iter (Pos.to_nat p) f x.
Proof.
  revert x. induction p as [p IH|p IH|]; intros x; cbn [iter_pos]; [| |done]; rewrite !IH, <- Nat.iter_add.
  - rewrite Pos2Nat.inj_xI, <- Nat.iter_succ_r. f_equal. lia.
  - rewrite Pos2Nat.inj_xO. f_equal. lia.
Qed.

Definition exact (l : location) : bool := match l with loc_Exact => true | _ => false end.

(** After [n] shifts of [m]: the quotient, and a location that is exact when
    nothing was lost. *)
Definition shifted (m : Z) (l : location) (n : Z) (r : shr_record) : Prop :=
  shr_m r = m / 2 ^ n /\
  (exact l = true -> m mod 2 ^ n = 0 -> shr_r r = false /\ shr_s r = false).

Lemma shifted_step m l n r : 0 <= m -> 0 <= n -> shifted m l n r -> shifted m l (n + 1) (shr_1 r).
Proof.
  intros Hm Hn [Hq Hx]. destruct r as [q rb sb]. cbn [shr_m shr_r shr_s] in *.
  pose proof (pow2_pos n Hn). assert (0 <= q) by (subst q; apply Z.div_pos; lia).
  assert (m / 2 ^ (n + 1) = q / 2) as Eq by (by rewrite pow2_split, <- Z.div_div, Hq by lia).
  assert (m mod 2 ^ (n + 1) = 0 -> q mod 2 = 0 /\ m mod 2 ^ n = 0) as Hmod.
  { rewrite pow2_split, Z.rem_mul_r, <- Hq by lia. change (2 ^ 1) with 2.
    pose proof (Z.mod_pos_bound m (2 ^ n)). pose proof (Z.mod_pos_bound q 2). nia. }
  unfold shifted. rewrite Eq.
  destruct q as [|[p|p|]|p]; cbn [shr_1 shr_m shr_r shr_s]; [| | | |lia];
    (split; [first [done|by rewrite (Pos2Z.inj_xI p), Z.add_comm, Z.mul_comm, Z.div_add by lia|
                    by rewrite (Pos2Z.inj_xO p), Z.mul_comm, Z.div_mul by lia]|]);
    intros Hl Hz; destruct (Hmod Hz) as [Hq2 Hn0].
  1,3: by destruct (Hx Hl Hn0) as [-> ->].
  - rewrite Pos2Z.inj_xI, Z.add_comm, Z.mul_comm, Z.mod_add in Hq2; [done|lia].
  - done.
Qed.

Lemma shr_spec m l e n :
  0 <= m -> let '(r, e') := shr (shr_record_of_loc m l) e n in
  e' = e + Z.max 0 n /\ shifted m l (Z.max 0 n) r.
Proof.
  intros Hm. assert (shifted m l 0 (shr_record_of_loc m l)) as H0.
  { split; [destruct l as [|[]]; cbn; by rewrite Z.div_1_r|]. by destruct l. }
  destruct n as [|p|p]; cbn [shr]; [split; [lia|done]| |split; [lia|done]].
  split; [lia|]. rewrite iter_pos_nat. replace (Z.max 0 (Z.pos p)) with (Z.of_nat (Pos.to_nat p)) by lia.
  induction (Pos.to_nat p) as [|k IH]; [done|]. rewrite Nat2Z.inj_succ, Nat.iter_succ.
  apply shifted_step; [done|lia|done].
Qed.

(** The mantissa after rounding: the quotient or the next integer. *)
Lemma round_even_spec m l n r :
  0 <= m -> 0 <= n -> shifted m l n r ->
  let m' := round_nearest_even (shr_m r) (loc_of_shr_record r) in
  m / 2 ^ n <= m' /\
  forall y, (if exact l then m else m + 1) <= y * 2 ^ n -> m' <= y.
Proof.
  intros Hm Hn [Hq Hx] m'. pose proof (pow2_pos n Hn).
  assert (m' = m / 2 ^ n \/ m' = m / 2 ^ n + 1 /\ (exact l = true -> m mod 2 ^ n <> 0)) as Hm'.
  { unfold m'. rewrite <- Hq. destruct r as [q rb sb]. cbn [shr_m shr_r shr_s] in *.
    destruct (decide (m mod 2 ^ n = 0)) as [E0|E0]; destruct (exact l) eqn:El;
      [destruct (Hx eq_refl E0) as [-> ->]; by left| | |];
      destruct rb, sb; cbn; try destruct (Z.even q); (left; lia) || (right; split; [lia|done]). }
  split; [lia|]. intros y Hy. pose proof (Z.div_mod m (2 ^ n)). pose proof (Z.mod_pos_bound m (2 ^ n)).
  destruct Hm' as [->|[-> Hne]].
  - apply Z.div_le_upper_bound; [lia|]. destruct (exact l); lia.
  - assert (m / 2 ^ n < y); [|lia]. apply Z.div_lt_upper_bound; [lia|].
    destruct (exact l) eqn:El; [|lia]. specialize (Hne eq_refl).
    assert (m <> y * 2 ^ n) by (intros ->; apply Hne, Z.mod_mul; lia). lia.
Qed.

Abbreviation fexp64 := (fexp 53 1024).

Lemma fexp64_max e : fexp64 e = Z.max (e - 53) (-1074).
Proof. done. Qed.

Lemma shr_fexp_spec m e l :
  0 <= m -> let '(r, e') := shr_fexp 53 1024 m e l in
  let n := Z.max 0 (fexp64 (Zdigits2 m + e) - e) in e' = e + n /\ shifted m l n r.
Proof. apply shr_spec. Qed.

(** A mantissa that needs at most a carry keeps its value. *)
Lemma carry_spec m e :
  0 <= m -> -1074 <= e -> fexp64 (Zdigits2 m + e) <= e \/ m = 2 ^ 53 ->
  let '(r, e') := shr_fexp 53 1024 m e loc_Exact in
  0 <= shr_m r <= m /\ e <= e' <= e + 1 /\ shr_m r * 2 ^ (e' + 1074) = m * 2 ^ (e + 1074).
Proof.
  intros Hm He Hc. pose proof (shr_fexp_spec m e loc_Exact Hm) as Hs.
  destruct (shr_fexp 53 1024 m e loc_Exact) as [r e']. cbv zeta in Hs. destruct Hs as [He' [Hq _]].
  destruct Hc as [Hc| ->].
  - rewrite Z.max_l in He', Hq by lia. rewrite Z.div_1_r in Hq. rewrite Hq, He', Z.add_0_r. lia.
  - rewrite fexp64_max in He', Hq. change (Zdigits2 (2 ^ 53)) with 54 in *.
    replace (Z.max 0 (Z.max (54 + e - 53) (-1074) - e)) with 1 in * by lia.
    change (2 ^ 53 / 2 ^ 1) with (2 ^ 52) in Hq. rewrite Hq, He'. split; [done|]. split; [lia|].
    rewrite <- !pow2_split by lia. f_equal. lia.
Qed.

Lemma carry_ready m e : 0 <= m <= 2 ^ 53 -> -1074 <= e -> fexp64 (Zdigits2 m + e) <= e \/ m = 2 ^ 53.
Proof.
  intros Hm He. destruct (decide (m = 2 ^ 53)); [by right|left]. rewrite fexp64_max.
  destruct m as [|m|m]; cbn [Zdigits2]; [lia| |lia]. pose proof (digits_le m 53 ltac:(lia) ltac:(lia)). lia.
Qed.

(** What [binary_round_aux] computes: the number itself, or the quotient by the
    last place or its successor. *)
Lemma round_steps m e l :
  let d := Zpos (digits2_pos m) in
  let last := fexp64 (d + e) in
  let up := if exact l then Zpos m else Zpos m + 1 in
  let x := binary_round_aux 53 1024 false (Zpos m) e l in
  exact l = true \/ e <= last ->
  x = S754_infinity false /\ 900 < d + e \/
  finite x /\
  (exact l = true /\ -1074 <= e /\ fval x = Zpos m * 2 ^ (e + 1074) \/
   e <= last /\ exists m', fval x = m' * 2 ^ (last + 1074) /\
     Zpos m / 2 ^ (last - e) <= m' /\ forall y, up <= y * 2 ^ (last - e) -> m' <= y).
Proof.
  intros d last up x Hl. pose proof (digits_bounds m) as Hd. fold d in Hd.
  assert (last = Z.max (d + e - 53) (-1074)) as HT by done.
  pose proof (shr_fexp_spec (Zpos m) e l ltac:(lia)) as Hs. unfold x, binary_round_aux.
  destruct (shr_fexp 53 1024 (Zpos m) e l) as [r1 e1]. cbv zeta in Hs.
  change (fexp64 (Zdigits2 (Z.pos m) + e)) with last in Hs. destruct Hs as [-> Hs].
  destruct (round_even_spec (Zpos m) l (Z.max 0 (last - e)) r1 ltac:(lia) ltac:(lia) Hs) as [Hlo Hhi]. fold up in Hhi.
  set (m1 := round_nearest_even _ _) in *. set (n := Z.max 0 (last - e)) in *.
  assert (n = Z.max 0 (last - e)) as En by done. clearbody n m1. clear Hs.
  assert (0 <= Zpos m / 2 ^ n) as Hq by (apply Z.div_pos; [lia|]; apply pow2_pos; lia).
  assert (exact l = true /\ n = 0 /\ m1 = Zpos m /\ last <= e \/ e <= last /\ n = last - e /\ m1 <= 2 ^ 53) as Hc.
  { destruct (Z_le_gt_dec e last); [right|left].
    - split; [done|]. split; [lia|]. apply Hhi. rewrite <- pow2_split by lia.
      assert (2 ^ d <= 2 ^ (53 + n)) by (apply Z.pow_le_mono_r; lia). unfold up. destruct (exact l); lia.
    - destruct Hl as [Hl|Hl]; [|lia]. assert (n = 0) as -> by lia. rewrite Z.div_1_r in Hlo.
      specialize (Hhi (Zpos m)). unfold up in Hhi. rewrite Hl, Z.mul_1_r in Hhi.
      split; [done|]. split; [done|]. lia. }
  assert (m1 <= 2 ^ 53) as Hm1.
  { destruct Hc as [(_ & _ & -> & Hle)|(_ & _ & Hle)]; [|done].
    assert (2 ^ d <= 2 ^ 53) by (apply Z.pow_le_mono_r; lia). lia. }
  assert (-1074 <= e + n) as He1 by lia.
  pose proof (carry_spec m1 (e + n) ltac:(lia) He1) as Hcarry.
  destruct (shr_fexp 53 1024 m1 (e + n) loc_Exact) as [r2 e2].
  destruct Hcarry as (Hr2 & He2 & Hval); [apply carry_ready; lia|].
  assert (1 <= d) by (unfold d; lia).
  match goal with |- ?y = _ /\ _ \/ _ =>
    assert (y = S754_infinity false /\ 900 < d + e \/ finite y /\ fval y = m1 * 2 ^ (e + n + 1074))
      as [Hinf|[Hfin ->]] end.
  { rewrite <- Hval. destruct (shr_m r2) as [|p|p]; [by right| |lia].
    case_if; [right; split; [cbn; lia|done]|left; split; [done|lia]]. }
  { by left. }
  right. split; [done|]. destruct Hc as [(Hx & -> & -> & Hle)|(Hle & -> & _)]; [left|right].
  - rewrite Z.add_0_r. split_and!; [done|lia|done].
  - split; [done|]. exists m1. split_and!; [|done|done]. f_equal. f_equal. lia.
Qed.

(** The mantissa of a result is full, unless its exponent is the least one. *)
Definition canonical (x : float) : Prop :=
  match x with S754_finite _ m e => e = -1074 \/ 2 ^ 52 <= Zpos m | _ => True end.

Lemma round_canonical m e l :
  e <= fexp64 (Zpos (digits2_pos m) + e) -> canonical (binary_round_aux 53 1024 false (Zpos m) e l).
Proof.
  intros He. pose proof (digits_bounds m) as Hd. set (d := Zpos (digits2_pos m)) in *.
  pose proof (shr_fexp_spec (Zpos m) e l ltac:(lia)) as Hs. unfold binary_round_aux.
  destruct (shr_fexp 53 1024 (Zpos m) e l) as [r1 e1]. cbv zeta in Hs. cbn [Zdigits2] in Hs. fold d in Hs.
  rewrite Z.max_r in Hs by lia. destruct Hs as [-> Hs]. set (last := fexp64 (d + e)) in *.
  assert (last = Z.max (d + e - 53) (-1074)) as HT by done. clearbody last.
  destruct (round_even_spec (Zpos m) l (last - e) r1 ltac:(lia) ltac:(lia) Hs) as [Hlo Hhi].
  set (m1 := round_nearest_even _ _) in *. replace (e + (last - e)) with last by lia. clearbody m1. clear Hs.
  assert (0 <= Zpos m / 2 ^ (last - e)) by (apply Z.div_pos; [lia|]; apply pow2_pos; lia).
  assert (m1 <= 2 ^ 53) as Hm1.
  { apply Hhi. rewrite <- pow2_split by lia.
    assert (2 ^ d <= 2 ^ (53 + (last - e))) by (apply Z.pow_le_mono_r; lia). destruct (exact l); lia. }
  assert (last = -1074 \/ 2 ^ 52 <= m1) as Hfull.
  { destruct (decide (last = -1074)); [by left|right]. etrans; [|exact Hlo].
    apply Z.div_le_lower_bound; [apply pow2_pos; lia|]. etrans; [|exact (proj1 Hd)].
    rewrite Z.mul_comm, <- pow2_split by lia. apply Z.pow_le_mono_r; lia. }
  pose proof (shr_fexp_spec m1 last loc_Exact ltac:(lia)) as Hs.
  destruct (shr_fexp 53 1024 m1 last loc_Exact) as [r2 e2]. cbv zeta in Hs. destruct Hs as [-> [Hq _]].
  destruct (carry_ready m1 last ltac:(lia) ltac:(lia)) as [Hc| ->].
  - rewrite Z.max_l, Z.div_1_r in Hq by lia. rewrite Z.max_l, Z.add_0_r by lia. rewrite Hq.
    destruct m1 as [|p|p]; [done| |done]. by case_if.
  - rewrite fexp64_max in Hq. change (Zdigits2 (2 ^ 53)) with 54 in Hq.
    replace (Z.max 0 (Z.max (54 + last - 53) (-1074) - last)) with 1 in Hq by lia. rewrite Hq.
    change (2 ^ 53 / 2 ^ 1) with (Zpos (2 ^ 52)). cbv iota. case_if; [right|]; done.
Qed.

(** Rounding does not cross a representable number, from above or from below. *)
Lemma round_between m e l :
  -2148 <= e ->
  exact l = true \/ e <= fexp64 (Zpos (digits2_pos m) + e) ->
  let x := binary_round_aux 53 1024 false (Zpos m) e l in
  x = S754_infinity false /\ 900 < Zpos (digits2_pos m) + e \/
  finite x /\
  (forall r, representable r -> (exact l = true -> r * one64 <= Zpos m * 2 ^ (e + 2148)) ->
     (forall y, r * one64 = y * 2 ^ (e + 2148) -> y <= Zpos m) -> r <= fval x) /\
  (forall r, representable r -> Zpos m * 2 ^ (e + 2148) <= r * one64 ->
     (forall y, r * one64 = y * 2 ^ (e + 2148) -> (if exact l then Zpos m else Zpos m + 1) <= y) ->
     fval x <= r).
Proof.
  intros He Hl x. destruct (round_steps m e l Hl) as [Hinf|[Hfin Hx]]; [by left|right]. fold x in Hfin, Hx.
  set (d := Zpos (digits2_pos m)) in *. pose proof (digits_bounds m) as Hd. fold d in Hd.
  set (last := fexp64 (d + e)) in *. assert (last = Z.max (d + e - 53) (-1074)) as HT by done.
  clearbody last. split; [done|]. pose proof one64_pos as H1.
  destruct Hx as [(Hex & He' & ->)|(Hle & m' & -> & Hlo & Hhi)].
  { assert (2 ^ (e + 2148) = 2 ^ (e + 1074) * one64) as E by (unfold one64; rewrite <- pow2_split by lia; f_equal; lia).
    rewrite E. split; [intros r _ Hr _; specialize (Hr Hex); nia|]. intros; nia. }
  assert (2 ^ (e + 2148) * 2 ^ (last - e) = 2 ^ (last + 1074) * one64) as E
    by (unfold one64; rewrite <- !pow2_split by lia; f_equal; lia).
  pose proof (pow2_pos (e + 2148) ltac:(lia)) as P1. pose proof (pow2_pos (last - e) ltac:(lia)) as P2.
  pose proof (pow2_pos (last + 1074) ltac:(lia)) as P3.
  assert (forall r, representable r -> last = -1074 \/ 2 ^ (52 + (last + 1074)) <= r ->
    exists y, r = y * 2 ^ (last + 1074)) as Hmult.
  { intros r Hr [->|Hbig]; [exists r; by rewrite Z.mul_1_r|]. apply representable_multiple; [done|lia|done]. }
  assert (last = -1074 \/ 2 ^ (52 + (last + 1074)) * one64 <= Zpos m * 2 ^ (e + 2148)) as Hnorm.
  { destruct (decide (last = -1074)); [by left|right].
    transitivity (2 ^ (d - 1) * 2 ^ (e + 2148)); [|nia].
    unfold one64. rewrite <- !pow2_split by lia. apply Z.pow_le_mono_r; lia. }
  assert (forall y, y * 2 ^ (last + 1074) * one64 = y * 2 ^ (last - e) * 2 ^ (e + 2148)) as Hscale.
  { intros y. rewrite <- !Z.mul_assoc. f_equal. rewrite (Z.mul_comm (2 ^ (last - e))). done. }
  split; intros r Hr Hb.
  - intros Hdown. destruct (decide (last = -1074 \/ 2 ^ (52 + (last + 1074)) <= r)) as [Hbig|Hsmall].
    + destruct (Hmult r Hr Hbig) as [y ->]. apply Z.mul_le_mono_nonneg_r; [lia|].
      etrans; [|exact Hlo]. apply Z.div_le_lower_bound; [done|]. specialize (Hdown _ (Hscale y)). lia.
    + assert (2 ^ 52 <= m') as Hm'.
      { etrans; [|exact Hlo]. apply Z.div_le_lower_bound; [done|]. etrans; [|exact (proj1 Hd)].
        rewrite <- pow2_split by lia. apply Z.pow_le_mono_r; lia. }
      rewrite pow2_split in Hsmall by lia. nia.
  - intros Hup. destruct (Hmult r Hr) as [y ->]; [destruct Hnorm; [by left|right; nia]|].
    apply Z.mul_le_mono_nonneg_r; [lia|]. apply Hhi, Hup, Hscale.
Qed.

(** [x] is the exact value [num / den], in units of 2^-1074, rounded. *)
Definition rounds (x : float) (num den : Z) : Prop :=
  finite x /\
  (forall r, representable r -> r * den <= num -> r <= fval x) /\
  (forall r, representable r -> num <= r * den -> fval x <= r).

Lemma rounds_exact x r den : rounds x (r * den) den -> representable r -> fval x = r.
Proof. intros (_ & H1 & H2) Hr. apply Z.le_antisymm; [apply H2|apply H1]; done. Qed.

Lemma rounds_zero x num den : finite x -> fval x = 0 -> num = 0 -> 0 < den -> rounds x num den.
Proof. intros Hx E -> Hd. split; [done|]. rewrite E. split; intros r _ Hr; nia. Qed.

Lemma fval_nonneg x : finite x -> 0 <= fval x.
Proof. destruct x as [| | |[] m e]; cbn; intros; try done. pose proof (pow2_pos (e + 1074)). nia. Qed.

(** The number of digits of a value that is not too large. *)
Lemma digits_top m e k :
  0 <= k -> 0 <= e + k -> Zpos m * 2 ^ (e + k) < huge * 2 ^ k -> Zpos (digits2_pos m) + e <= 852.
Proof.
  intros Hk He Hlt. unfold huge in Hlt. rewrite <- pow2_split in Hlt by lia. pose proof (digits_bounds m) as [Hd _]. pose proof (pow2_pos (e + k) He).
  assert (2 ^ (Zpos (digits2_pos m) - 1 + (e + k)) < 2 ^ (852 + k)) as Hpow
    by (rewrite pow2_split by lia; nia).
  apply Z.pow_lt_mono_r_iff in Hpow; lia.
Qed.

Lemma round_aux_rounds m e :
  -2148 <= e -> Zpos m * 2 ^ (e + 2148) < huge * (one64 * one64) ->
  rounds (binary_round_aux 53 1024 false (Zpos m) e loc_Exact) (Zpos m * 2 ^ (e + 2148)) one64.
Proof.
  intros He Hlt. rewrite <- pow2_2148 in Hlt. pose proof (digits_top m e 2148 ltac:(lia) ltac:(lia) Hlt).
  destruct (round_between m e loc_Exact He ltac:(by left)) as [[_ ?]|(Hf & Hlo & Hhi)]; [lia|].
  pose proof (pow2_pos (e + 2148) ltac:(lia)).
  split; [done|]. split; intros r Hr Hle; [apply Hlo; [done|done|]|apply Hhi; [done..|]];
    intros y E; rewrite E in Hle; cbn [exact]; nia.
Qed.

Lemma mul_rounds x y :
  finite x -> finite y -> fval x * fval y < huge * (one64 * one64) -> rounds (F64.mul x y) (fval x * fval y) one64.
Proof.
  destruct x as [sx| | |[] mx ex], y as [sy| | |[] my ey]; intros Hx Hy Hlt; try done;
    try (apply rounds_zero; cbn; done || lia). cbn in Hx, Hy.
  assert (fval (S754_finite false mx ex) * fval (S754_finite false my ey) =
    Zpos (mx * my) * 2 ^ (ex + ey + 2148)) as E.
  { cbn [fval]. replace (ex + ey + 2148) with ((ex + 1074) + (ey + 1074)) by lia.
    rewrite (pow2_split (ex + 1074)), Pos2Z.inj_mul by lia. ring. }
  rewrite E in *. apply round_aux_rounds; [lia|done].
Qed.

Lemma iter_xO m p : Zpos (Pos.iter xO m p) = Zpos m * 2 ^ Zpos p.
Proof.
  induction p as [|p IH] using Pos.peano_ind; [cbn; lia|].
  rewrite Pos.iter_succ, Pos2Z.inj_xO, IH, Pos2Z.inj_succ, Z.pow_succ_r by lia. lia.
Qed.

Lemma shl_align_spec m e e' k :
  0 <= e + k -> 0 <= e' + k -> let '(mz, ez) := shl_align m e e' in
  Zpos mz * 2 ^ (ez + k) = Zpos m * 2 ^ (e + k) /\ ez = Z.min e e'.
Proof.
  intros He He'. unfold shl_align. destruct (e' - e) as [|d|d] eqn:E; [split; [done|lia]|split; [done|lia]|].
  split; [|lia]. rewrite iter_xO, <- Z.mul_assoc, <- pow2_split by lia. do 2 f_equal. lia.
Qed.

Lemma normalize_rounds m e s :
  0 <= m -> -1074 <= e -> m * 2 ^ (e + 1074) < huge * one64 ->
  rounds (binary_normalize 53 1024 m e s) (m * 2 ^ (e + 1074)) 1.
Proof.
  intros Hm He Hlt. destruct m as [|m|m]; [by apply rounds_zero| |lia].
  cbn [binary_normalize]. unfold binary_round. set (e' := fexp64 _). assert (-1074 <= e') by (unfold e'; rewrite fexp64_max; lia).
  pose proof (shl_align_spec m e e' 1074 ltac:(lia) ltac:(lia)) as Hs.
  destruct (shl_align m e e') as [mz ez]. destruct Hs as [E Hez].
  assert (Zpos mz * 2 ^ (ez + 2148) = Zpos m * 2 ^ (e + 1074) * one64) as E2.
  { rewrite <- E. unfold one64. rewrite <- Z.mul_assoc, <- pow2_split by lia. do 2 f_equal. lia. }
  destruct (round_aux_rounds mz ez) as (Hf & Hlo & Hhi); [lia| |].
  - rewrite E2, Z.mul_assoc. apply Z.mul_lt_mono_pos_r; [apply one64_pos|done].
  - rewrite E2 in Hlo, Hhi. pose proof one64_pos.
    split; [done|]. split; intros r Hr Hle; [apply Hlo|apply Hhi]; [done|nia|done|nia].
Qed.

Lemma sub_rounds x y :
  finite x -> finite y -> fval y <= fval x -> fval x < huge * one64 ->
  rounds (F64.sub x y) (fval x - fval y) 1.
Proof.
  intros Hx Hy Hle Hlt.
  assert (rounds x (fval x) 1) as Hself by (split; [done|]; split; intros; lia).
  destruct x as [sx| | |[] mx ex], y as [sy| | |[] my ey]; try done.
  - destruct sx, sy; by apply rounds_zero.
  - pose proof (pow2_pos (ey + 1074)). cbn in *. lia.
  - cbn [F64.sub SFsub fval]. by rewrite Z.sub_0_r.
  - cbn in Hx, Hy. unfold F64.sub, SFsub. cbn [cond_Zopp]. set (ez := Z.min ex ey).
    pose proof (shl_align_spec mx ex ez 1074 ltac:(lia) ltac:(lia)) as Hsx.
    pose proof (shl_align_spec my ey ez 1074 ltac:(lia) ltac:(lia)) as Hsy.
    destruct (shl_align mx ex ez) as [m1 e1], (shl_align my ey ez) as [m2 e2].
    destruct Hsx as [E1 He1], Hsy as [E2 He2]. cbn [fst]. replace e1 with ez in E1 by lia.
    replace e2 with ez in E2 by lia. cbn [fval] in *. rewrite <- E1, <- E2, <- Z.mul_sub_distr_r in *.
    pose proof (pow2_pos (ez + 1074)). pose proof (Pos2Z.is_pos m2).
    apply normalize_rounds; [clear Hlt; nia|lia|].
    eapply Z.le_lt_trans; [|exact Hlt]. clear Hlt. nia.
Qed.

Lemma of_int_rounds n : 0 <= n < huge -> rounds (F64.of_int n) (n * one64) 1.
Proof.
  intros Hn. apply (normalize_rounds n 0 false); [lia|lia|].
  apply Z.mul_lt_mono_pos_r; [apply one64_pos|lia].
Qed.

Lemma of_int_exact n : 0 <= n <= 2 ^ 53 -> finite (F64.of_int n) /\ fval (F64.of_int n) = n * one64.
Proof.
  intros Hn. pose proof huge_big.
  pose proof (of_int_rounds n ltac:(lia)) as Hr. split; [apply Hr|].
  apply (rounds_exact _ _ 1); [by rewrite Z.mul_1_r|by apply representable_int].
Qed.

Lemma of_int_positive n :
  1 <= n -> F64.of_int n = S754_infinity false \/ finite (F64.of_int n) /\ one64 <= fval (F64.of_int n).
Proof.
  intros Hn. destruct n as [|m|m]; [lia| |lia]. unfold F64.of_int. cbn [binary_normalize]. unfold binary_round.
  set (e' := fexp64 _). assert (-1074 <= e') by (unfold e'; rewrite fexp64_max; lia).
  pose proof (shl_align_spec m 0 e' 2148 ltac:(lia) ltac:(lia)) as Hs.
  destruct (shl_align m 0 e') as [mz ez]. destruct Hs as [E Hez].
  destruct (round_between mz ez loc_Exact) as [[-> _]|(Hf & Hlo & _)]; [lia|by left|by left|right].
  split; [done|]. pose proof (pow2_pos (ez + 2148) ltac:(lia)).
  assert (one64 * one64 <= Zpos mz * 2 ^ (ez + 2148)) as Hle.
  { rewrite E, Z.add_0_l, pow2_2148. pose proof one64_pos. nia. }
  apply Hlo; [by apply (representable_int 1)|done|]. intros y Ey. rewrite Ey in Hle. nia.
Qed.

(** *** Division *)

Lemma new_location_exact k r : exact (new_location k r) = (r =? 0).
Proof. unfold new_location, new_location_even, new_location_odd. by destruct (Z.even k), (r =? 0). Qed.

(** The quotient has at least as many digits as the one of the exponents. *)
Lemma quotient_digits m1 m2 s q :
  let d1 := Zpos (digits2_pos m1) in let d2 := Zpos (digits2_pos m2) in
  0 <= s -> 0 <= d1 + s - d2 - 1 -> Zpos m1 * 2 ^ s / Zpos m2 = Zpos q -> d1 + s - d2 <= Zpos (digits2_pos q).
Proof.
  intros d1 d2 Hs Hd Eq. pose proof (digits_bounds m1) as [H1 _]. pose proof (digits_bounds m2) as [_ H2].
  pose proof (digits_bounds q) as [_ H3]. fold d1 in H1. fold d2 in H2.
  assert (2 ^ (d1 + s - d2 - 1) <= Zpos q) as Hq.
  { rewrite <- Eq. apply Z.div_le_lower_bound; [lia|].
    transitivity (2 ^ d2 * 2 ^ (d1 + s - d2 - 1)).
    - apply Z.mul_le_mono_nonneg_r; [apply Z.lt_le_incl, pow2_pos|]; lia.
    - rewrite <- pow2_split by lia. replace (d2 + (d1 + s - d2 - 1)) with ((d1 - 1) + s) by lia.
      rewrite pow2_split by lia. apply Z.mul_le_mono_nonneg_r; [apply Z.lt_le_incl, pow2_pos|]; lia. }
  assert (2 ^ (d1 + s - d2 - 1) < 2 ^ Zpos (digits2_pos q)) as Hlt by lia.
  apply Z.pow_lt_mono_r_iff in Hlt; lia.
Qed.

(** Where the quotient lies, by the exponents. *)
Lemma quotient_exponent mx ex my ey :
  -1074 <= ex -> -1074 <= ey ->
  Zpos my * 2 ^ (ey + 1074) <= Zpos mx * 2 ^ (ex + 1074) ->
  0 <= Zpos (digits2_pos mx) + ex - (Zpos (digits2_pos my) + ey).
Proof.
  intros Hx Hy Hle. pose proof (digits_bounds mx) as [_ H1]. pose proof (digits_bounds my) as [H2 _].
  set (d1 := Zpos (digits2_pos mx)) in *. set (d2 := Zpos (digits2_pos my)) in *.
  assert (1 <= d2) by (unfold d2; lia). pose proof (pow2_pos (ex + 1074)). pose proof (pow2_pos (ey + 1074)).
  assert (2 ^ (d2 - 1 + (ey + 1074)) < 2 ^ (d1 + (ex + 1074))) as Hlt.
  { rewrite (pow2_split (d2 - 1)), (pow2_split d1) by lia. nia. }
  apply Z.pow_lt_mono_r_iff in Hlt; lia.
Qed.

(** The quotient and the location of the remainder, rounded. *)
Lemma round_quotient m2 q rem e num den :
  0 <= rem < Zpos m2 -> -2148 <= e -> Zpos (digits2_pos q) + e <= 900 ->
  e <= fexp64 (Zpos (digits2_pos q) + e) -> 0 < den ->
  (Zpos m2 * Zpos q + rem) * 2 ^ (e + 2148) * den = Zpos m2 * one64 * num ->
  rounds (binary_round_aux 53 1024 false (Zpos q) e (new_location (Zpos m2) rem)) num den.
Proof.
  intros Hrem He Hd Hlast Hden E. pose proof (pow2_pos (e + 2148) ltac:(lia)) as HQ. set (Q := 2 ^ (e + 2148)) in *.
  destruct (round_between q e (new_location (Zpos m2) rem) He ltac:(by right)) as [[_ ?]|(Hf & Hlo & Hup)]; [lia|].
  fold Q in Hlo, Hup. rewrite new_location_exact in Hlo, Hup. pose proof one64_pos as H1.
  split; [done|]. split; intros r Hr Hle.
  - assert (Zpos m2 * (r * one64) <= (Zpos m2 * Zpos q + rem) * Q) as Hle'.
    { apply (Z.mul_le_mono_pos_r _ _ den); [done|]. rewrite E.
      replace (Zpos m2 * (r * one64) * den) with (Zpos m2 * one64 * (r * den)) by ring.
      apply Z.mul_le_mono_nonneg_l; lia. }
    apply Hlo; [done| |].
    + intros ->%Z.eqb_eq. nia.
    + intros y Ey. rewrite Ey in Hle'. assert (Zpos m2 * y <= Zpos m2 * Zpos q + rem) by nia. nia.
  - assert ((Zpos m2 * Zpos q + rem) * Q <= Zpos m2 * (r * one64)) as Hle'.
    { apply (Z.mul_le_mono_pos_r _ _ den); [done|]. rewrite E.
      replace (Zpos m2 * (r * one64) * den) with (Zpos m2 * one64 * (r * den)) by ring.
      apply Z.mul_le_mono_nonneg_l; lia. }
    apply Hup; [done|nia|]. intros y Ey. rewrite Ey in Hle'.
    assert (Zpos m2 * Zpos q + rem <= Zpos m2 * y) as Hy by (apply (Z.mul_le_mono_pos_r _ _ Q); lia).
    destruct (Z.eqb_spec rem 0); nia.
Qed.

(** A quotient of at least one. *)
Lemma div_rounds x y :
  finite x -> finite y -> 0 < fval y -> fval y <= fval x -> fval y < huge * one64 ->
  fval x < fval y * huge ->
  rounds (F64.div x y) (fval x * one64) (fval y) /\ canonical (F64.div x y).
Proof.
  destruct x as [sx| | |[] mx ex], y as [sy| | |[] my ey]; intros Hx Hy Hpos Hge Hytop Htop; try done;
    try (cbn in *; lia). destruct Hx as [Hx _], Hy as [Hy _]. cbn [fval] in *.
  pose proof (quotient_exponent mx ex my ey Hx Hy Hge) as HD.
  assert (ey + 1074 < 852 + 1074) as Hey.
  { apply (Z.pow_lt_mono_r_iff 2); [lia|lia|]. rewrite (pow2_split 852) by lia. fold huge one64.
    pose proof (pow2_pos (ey + 1074)). nia. }
  unfold F64.div, SFdiv, SFdiv_core_binary. cbn [Zdigits2 xorb].
  set (d1 := Zpos (digits2_pos mx)) in *. set (d2 := Zpos (digits2_pos my)) in *.
  set (e' := Z.min _ (ex - ey)). set (s := ex - ey - e').
  assert (e' = Z.min (d1 + ex - (d2 + ey) - 53) (ex - ey)) as He' by (unfold e'; rewrite fexp64_max; lia).
  assert (0 <= s) as Hs by (unfold s; lia). assert (ex = ey + e' + s) as Eex by (unfold s; lia).
  replace (match s with Z0 => Zpos mx | Zpos _ => Z.shiftl (Zpos mx) s | Zneg _ => 0 end) with (Zpos mx * 2 ^ s)
    by (destruct s; [lia|by rewrite Z.shiftl_mul_pow2|lia]).
  clearbody e' s. pose proof (Z.div_mod (Zpos mx * 2 ^ s) (Zpos my) ltac:(lia)) as Hdm.
  pose proof (Z.mod_pos_bound (Zpos mx * 2 ^ s) (Zpos my) ltac:(lia)) as Hmod.
  unfold Z.div, Z.modulo in Hdm, Hmod. pose proof (quotient_digits mx my s) as Hdig. unfold Z.div in Hdig.
  destruct (Z.div_eucl (Zpos mx * 2 ^ s) (Zpos my)) as [q rem]. fold d1 d2 in Hdig. cbv zeta in Hdig.
  pose proof (pow2_pos (ey + 1074) ltac:(lia)) as HP. pose proof (pow2_pos (e' + 2148) ltac:(lia)) as HQ.
  assert (Zpos mx * 2 ^ (ex + 1074) * (one64 * one64) = Zpos mx * 2 ^ s * (2 ^ (ey + 1074) * 2 ^ (e' + 2148))) as EV.
  { rewrite <- pow2_2148, <- !Z.mul_assoc, <- !pow2_split by lia. do 2 f_equal. lia. }
  set (P := 2 ^ (ey + 1074)) in *. set (Q := 2 ^ (e' + 2148)) in *. set (V := Zpos mx * 2 ^ (ex + 1074)) in *.
  assert (0 < q) as Hq.
  { assert (2 ^ d2 <= Zpos mx * 2 ^ s); [|pose proof (digits_bounds my) as Hmy; fold d2 in Hmy; nia].
    pose proof (digits_bounds mx) as [Hd _]. fold d1 in Hd. transitivity (2 ^ (d1 - 1 + s)).
    - apply Z.pow_le_mono_r; lia.
    - rewrite pow2_split by lia. apply Z.mul_le_mono_nonneg_r; [apply Z.lt_le_incl, pow2_pos|]; lia. }
  destruct q as [|q|q]; [lia| |lia]. specialize (Hdig q Hs ltac:(lia) eq_refl).
  assert (Zpos my * P * (Zpos q * Q) <= V * (one64 * one64)) as Hfloor by (clear Htop Hytop; rewrite EV, Hdm; nia).
  assert (Zpos (digits2_pos q) + e' <= 852) as Hdq.
  { apply (digits_top q e' 2148); [lia|lia|]. fold Q. rewrite pow2_2148.
    apply (Z.mul_lt_mono_pos_l (Zpos my * P)); [lia|]. eapply Z.le_lt_trans; [exact Hfloor|].
    rewrite (Z.mul_assoc _ huge). pose proof one64_pos. apply Z.mul_lt_mono_pos_r; [nia|done]. }
  split; [|apply round_canonical; rewrite fexp64_max; lia].
  apply round_quotient; [done|lia|lia|rewrite fexp64_max; lia|done|]. fold Q.
  rewrite Hdm in EV. clear Htop Hytop Hfloor.
  transitivity (Zpos my * (V * (one64 * one64))); [rewrite EV; ring|ring].
Qed.

(** *** Conversions to integers *)

Lemma fval_neg_exp m k : 0 < k <= 1074 -> Zpos m * 2 ^ (- k + 1074) * 2 ^ k = Zpos m * one64.
Proof. intros Hk. rewrite <- Z.mul_assoc, <- pow2_split by lia. do 2 f_equal. lia. Qed.

Lemma as_usize_exact x i : finite x -> fval x = i * one64 -> 0 <= i < 2 ^ 64 -> F64.as_usize x = i.
Proof.
  intros Hx E Hi. pose proof one64_pos as H1.
  destruct x as [s| | |[] m e]; try done; cbn [fval] in E; [cbn; nia|]. cbn in Hx.
  unfold F64.as_usize, F64.to_int. enough (Z.shiftl (Zpos m) e = i) as -> by lia.
  destruct (Z_le_gt_dec 0 e).
  - rewrite Z.shiftl_mul_pow2 by done. rewrite pow2_split in E by lia. change (2 ^ 1074) with one64 in E. nia.
  - replace e with (- (- e)) by lia. rewrite Z.shiftl_opp_r, Z.shiftr_div_pow2 by lia.
    replace e with (- (- e)) in E by lia.
    pose proof (fval_neg_exp m (- e) ltac:(lia)) as E2. rewrite E in E2.
    assert (Zpos m = i * 2 ^ (- e)) as -> by nia. apply Z.div_mul. pose proof (pow2_pos (- e)). lia.
Qed.

Lemma as_usize_ge x i : finite x -> i * one64 <= fval x -> 0 <= i < 2 ^ 64 -> i <= F64.as_usize x.
Proof.
  intros Hx Hle Hi. pose proof one64_pos as H1.
  destruct x as [s| | |[] m e]; try done; cbn [fval] in Hle; [cbn; nia|]. cbn in Hx.
  unfold F64.as_usize, F64.to_int. enough (i <= Z.shiftl (Zpos m) e) by lia.
  destruct (Z_le_gt_dec 0 e).
  - rewrite Z.shiftl_mul_pow2 by done. rewrite pow2_split in Hle by lia. change (2 ^ 1074) with one64 in Hle. nia.
  - replace e with (- (- e)) by lia. rewrite Z.shiftl_opp_r, Z.shiftr_div_pow2 by lia.
    replace e with (- (- e)) in Hle by lia. pose proof (pow2_pos (- e) ltac:(lia)).
    pose proof (fval_neg_exp m (- e) ltac:(lia)) as E2. apply Z.div_le_lower_bound; [done|]. nia.
Qed.

Lemma as_usize_of_int i : 0 <= i <= 2 ^ 53 -> F64.as_usize (F64.of_int i) = i.
Proof. intros Hi. destruct (of_int_exact i Hi) as [Hf E]. apply (as_usize_exact _ i Hf E). lia. Qed.

Lemma normalize_sign n s : 0 < n -> binary_normalize 53 1024 n 0 s = F64.of_int n.
Proof. by destruct n. Qed.

Lemma as_usize_normalize n s : 0 <= n <= 2 ^ 53 -> F64.as_usize (binary_normalize 53 1024 n 0 s) = n.
Proof.
  intros Hn. destruct (decide (n = 0)) as [->|]; [by destruct s|].
  rewrite normalize_sign by lia. by apply as_usize_of_int.
Qed.

(** [x.round() as usize] is the nearest integer. *)
Lemma as_usize_round x :
  finite x -> fval x <= (2 ^ 53 - 1) * one64 ->
  F64.as_usize (F64.round x) = (2 * fval x + one64) / (2 * one64).
Proof.
  intros Hx Hle. pose proof one64_pos as H1. destruct x as [s| | |[] m e]; [|done|done|done|].
  { cbn [fval F64.round]. rewrite Z.div_small by lia. done. }
  cbn in Hx.
  cbn [F64.round fval cond_Zopp] in *. case_if.
  - assert (Zpos m * 2 ^ (e + 1074) = Zpos m * 2 ^ e * one64) as E by (rewrite pow2_split by lia; unfold one64; lia).
    rewrite E in *. transitivity (Zpos m * 2 ^ e).
    + apply as_usize_exact; [cbn; lia|cbn; lia|]. pose proof (pow2_pos e ltac:(lia)). nia.
    + apply (Z.div_unique _ _ _ one64); [lia|ring].
  - pose proof (fval_neg_exp m (- e) ltac:(lia)) as E. rewrite Z.opp_involutive in E.
    set (v := Zpos m * 2 ^ (e + 1074)) in *. pose proof (pow2_pos (- e) ltac:(lia)) as HP.
    assert (2 ^ (- e) = 2 * 2 ^ (- e - 1)) as E2
      by (replace (- e) with (1 + (- e - 1)) at 1 by lia; rewrite pow2_split by lia; done).
    rewrite Z.shiftr_div_pow2 by lia. set (P := 2 ^ (- e)) in *. set (P' := 2 ^ (- e - 1)) in *.
    assert ((2 * v + one64) / (2 * one64) = (Zpos m + P') / P) as Ediv.
    { rewrite <- (Z.div_mul_cancel_r (2 * v + one64) (2 * one64) P) by lia.
      rewrite <- (Z.div_mul_cancel_r (Zpos m + P') P (2 * one64)) by lia. f_equal; [|ring].
      transitivity (2 * (v * P) + one64 * P); [ring|]. rewrite E, E2. ring. }
    rewrite Ediv. apply as_usize_normalize. split; [apply Z.div_pos; lia|].
    apply Z.div_le_upper_bound; [lia|]. clearbody P P' v. nia.
Qed.

(** [x.ceil()] is the least integer that is not below [x]. *)
Lemma ceil_exact x :
  finite x -> fval x <= 2 ^ 53 * one64 ->
  finite (F64.ceil x) /\ fval (F64.ceil x) = (fval x + (one64 - 1)) / one64 * one64.
Proof.
  intros Hx Hle. pose proof one64_pos as H1. destruct x as [s| | |[] m e]; [|done|done|done|].
  { cbn [F64.ceil fval]. rewrite Z.div_small by lia. done. }
  destruct Hx as [Hx Hm]. cbn [F64.ceil fval] in *. case_if.
  - assert (Zpos m * 2 ^ (e + 1074) = Zpos m * 2 ^ e * one64) as E by (rewrite pow2_split by lia; unfold one64; lia).
    split; [done|]. cbn [fval]. rewrite E. f_equal. apply (Z.div_unique _ _ _ (one64 - 1)); lia.
  - pose proof (fval_neg_exp m (- e) ltac:(lia)) as E. rewrite Z.opp_involutive in E.
    set (v := Zpos m * 2 ^ (e + 1074)) in *. pose proof (pow2_pos (- e) ltac:(lia)) as HP.
    assert (one64 = 2 ^ (- e) * 2 ^ (e + 1074)) as E1 by (unfold one64; rewrite <- pow2_split by lia; f_equal; lia).
    pose proof (pow2_pos (e + 1074) ltac:(lia)) as HT.
    rewrite Z.shiftr_div_pow2 by lia. set (P := 2 ^ (- e)) in *. set (T := 2 ^ (e + 1074)) in *. clearbody P T.
    assert ((v + (one64 - 1)) / one64 = (Zpos m + (P - 1)) / P) as ->.
    { rewrite E1, Z.mul_comm, <- Z.div_div by lia. f_equal.
      symmetry. apply (Z.div_unique _ _ _ (T - 1)); [lia|]. unfold v. ring. }
    assert (1 <= (Zpos m + (P - 1)) / P) by (apply Z.div_le_lower_bound; lia).
    assert ((Zpos m + (P - 1)) / P < 2 ^ 53 + 1) by (apply Z.div_lt_upper_bound; [lia|]; unfold v in Hle; nia).
    rewrite normalize_sign by lia. apply of_int_exact. lia.
Qed.

(** *** Comparisons with a positive number *)

Definition is_negative (x : float) : bool :=
  match x with
  | S754_zero _ | S754_infinity true | S754_finite true _ _ => true
  | _ => false
  end.

Lemma negative_ltb x m e : is_negative x = true -> F64.ltb x (S754_finite false m e) = true.
Proof. by destruct x as [|[]| |[]]. Qed.

Lemma normalize_negative n :
  n <= 0 -> binary_normalize 53 1024 n 0 true = S754_nan \/
  is_negative (binary_normalize 53 1024 n 0 true) = true.
Proof.
  intros Hn. destruct n as [|p|p]; [by right|lia|]. cbn [binary_normalize]. unfold binary_round.
  destruct (shl_align p 0 _) as [mz ez]. unfold binary_round_aux. destruct (shr_fexp _ _ _ ez _) as [r1 e1].
  destruct (shr_fexp _ _ _ e1 _) as [r2 e2]. destruct (shr_m r2); [by right| |by left].
  case_if; by right.
Qed.

Lemma max_either x y : F64.max x y = x \/ F64.max x y = y.
Proof. unfold F64.max. destruct x, y; try (by left); try (by right); destruct (F64.ltb _ _); auto. Qed.

(** A float that compares below [64.0], whose mantissa is 2^52. *)
Lemma ltb_sixty_four x p :
  finite x -> Zpos p = 2 ^ 52 -> F64.ltb x (S754_finite false p (-46)) = true -> fval x <= 64 * one64.
Proof.
  intros Hx Hp Hlt. destruct x as [s| | |[] m e]; [done|done|done|done|]. destruct Hx as [He Hm]. cbn [fval].
  assert (64 * one64 = 2 ^ (6 + 1074)) as -> by (by rewrite pow2_split).
  unfold F64.ltb, SFltb in Hlt. cbn [SFcompare] in Hlt. destruct (Z.compare_spec e (-46)) as [->|Hc|Hc]; [| |done].
  - change (Pos.compare_cont Eq m p) with (Pos.compare m p) in Hlt.
    destruct (Pos.compare_spec m p) as [|Hc|]; [done| |done].
    transitivity (2 ^ 52 * 2 ^ (-46 + 1074)); [|rewrite <- pow2_split by lia; apply Z.pow_le_mono_r; lia]. apply Z.mul_le_mono_nonneg_r; [by apply Z.lt_le_incl, pow2_pos|lia].
  - transitivity (2 ^ (53 + (e + 1074))); [|apply Z.pow_le_mono_r; lia].
    rewrite (pow2_split 53) by lia. apply Z.mul_le_mono_nonneg_r; [apply Z.lt_le_incl, pow2_pos; lia|done].
Qed.

Lemma small_below_sixty_four v :
  1 <= v < 64 -> F64.ltb (F64.of_int v) (S754_finite false (2 ^ 52) (-46)) = true.
Proof.
  intros Hv. assert (forallb (fun k => F64.ltb (F64.of_int (Z.of_nat k)) (S754_finite false (2 ^ 52) (-46)))
    (seq 1 63) = true) as Hall by (vm_compute; reflexivity).
  rewrite forallb_forall in Hall. rewrite <- (Z2Nat.id v) by lia. apply Hall, in_seq. lia.
Qed.

(** The other way round, for the result of [ceil]. *)
Lemma ceil_below_sixty_four x :
  finite x -> canonical x -> fval x <= 2 ^ 53 * one64 -> (fval x + (one64 - 1)) / one64 < 64 ->
  F64.ltb (F64.ceil x) (S754_finite false (2 ^ 52) (-46)) = true.
Proof.
  intros Hx Hcan Hle Hlt. pose proof one64_pos as H1.
  destruct x as [s| | |[] m e]; [reflexivity|destruct Hx|destruct Hx|destruct Hx|]. destruct Hx as [He Hm]. cbn [F64.ceil fval canonical] in *. case_if.
  - exfalso. destruct Hcan as [->|Hcan]; [lia|].
    assert (Zpos m * 2 ^ (e + 1074) = Zpos m * 2 ^ e * one64) as E by (rewrite pow2_split by lia; unfold one64; lia).
    rewrite E in Hlt. assert (Zpos m * 2 ^ e = (Zpos m * 2 ^ e * one64 + (one64 - 1)) / one64) as E2
      by (apply (Z.div_unique _ _ _ (one64 - 1)); lia). rewrite <- E2 in Hlt. pose proof (pow2_pos e ltac:(lia)). nia.
  - pose proof (pow2_pos (- e) ltac:(lia)) as HP. pose proof (pow2_pos (e + 1074) ltac:(lia)) as HT.
    assert (one64 = 2 ^ (- e) * 2 ^ (e + 1074)) as E1 by (unfold one64; rewrite <- pow2_split by lia; f_equal; lia).
    rewrite Z.shiftr_div_pow2 by lia. set (P := 2 ^ (- e)) in *. set (T := 2 ^ (e + 1074)) in *. clearbody P T.
    assert ((Zpos m * T + (one64 - 1)) / one64 = (Zpos m + (P - 1)) / P) as E2.
    { rewrite E1, (Z.mul_comm P), <- Z.div_div by lia. f_equal.
      symmetry. apply (Z.div_unique _ _ _ (T - 1)); [lia|]. ring. }
    rewrite E2 in Hlt. assert (1 <= (Zpos m + (P - 1)) / P) by (apply Z.div_le_lower_bound; lia).
    rewrite normalize_sign by lia. set (v := (Zpos m + (P - 1)) / P) in *. clearbody v.
    apply small_below_sixty_four. lia.
Qed.

(** [x.ceil().max(y) as usize] is positive for a positive [y]. *)
Lemma ceil_max_positive x m e :
  let y := S754_finite false m e in
  1 <= F64.as_usize y -> 1 <= F64.as_usize (F64.max (F64.ceil x) y).
Proof.
  intros y Hy.
  assert (forall z, z = S754_nan \/ is_negative z = true \/ 1 <= F64.as_usize z -> 1 <= F64.as_usize (F64.max z y)) as Hmax.
  { intros z [->|[Hz|Hz]]; [done| |].
    - pose proof (negative_ltb z m e Hz) as Hlt. fold y in Hlt. destruct z; cbn [F64.max]; [..|done|];
      unfold y at 1; fold y; by rewrite Hlt.
    - unfold F64.max. destruct z; unfold y at 1; fold y; (by destruct (F64.ltb _ y)) || done. }
  apply Hmax. destruct x as [s|[]| |[] k d]; cbn [F64.ceil]; [by right; left|by right; left|by right; right|by left|..];
    case_if; [by right; left| | |].
  - destruct (normalize_negative (- Z.shiftr (Zpos k) (- d))) as [->|]; [|by left|by right; left].
    rewrite Z.shiftr_div_pow2 by lia. pose proof (Z.div_pos (Zpos k) (2 ^ (- d)) ltac:(lia)) as Hp.
    specialize (Hp ltac:(apply pow2_pos; lia)). lia.
  - right; right. unfold F64.as_usize, F64.to_int. rewrite Z.shiftl_mul_pow2 by done. pose proof (pow2_pos d). nia.
  - right; right. rewrite Z.shiftr_div_pow2 by lia. set (i := (_ / _)).
    assert (1 <= i) as Hi.
    { apply Z.div_le_lower_bound; [apply pow2_pos; lia|]. lia. }
    rewrite normalize_sign by lia. destruct (of_int_positive i Hi) as [->|[Hf Hv]]; [done|].
    apply as_usize_ge; [done|by rewrite Z.mul_1_l|lia].
Qed.

End shifts.
