(* ===== verification/Bloom.v ===== *)
(** * Bloom filters ([src/bloom.rs])

    The filter, its sizes, its hashes and its encoding are modelled bit for bit.
    [BloomFilter::new] computes its sizes in [f64]: every operation is the one of
    [Floats], but for [ln] and [powi], whose precision the standard library
    leaves open.  They are the fields of [Libm]; that no inserted key is lost
    holds whatever they return, and [libm_ok] gives the bounds on their results
    that keep the filter small enough for the file format ([bit_count_bounds]). *)

From Stdlib Require SpecFloat.
From S2P Require Import Prelude Bytes Errors Crc Floats.

(** [f64::ln] and [f64::powi]. *)
Class Libm := {
  ln : float -> float;
  powi : float -> Z -> float;
}.

(** [std::f64::consts::LN_2]. *)
Definition LN_2 : float := F64.of_bits 0x3FE62E42FEFA39EF.

(** The literals [0.000_1], [0.5] and [64.0]. *)
Definition least_rate : float := F64.of_bits 0x3F1A36E2EB1C432D.
Definition one_half : float := F64.of_bits 0x3FE0000000000000.
Definition sixty_four : float := F64.of_bits 0x4050000000000000.

(** An instance for examples: the logarithm of one percent, the rate that the
    options and the tests of the repository have, and the product for a square. *)
Definition demo_libm : Libm :=
  {| ln x := match x with SpecFloat.S754_nan => x | _ => F64.of_bits 0xC0126BB1BBB55515 end;
     powi x _ := F64.mul x x |}.

(** ** Hashing *)

Definition fnv1a_64 (l : bytes) : Z :=
  fold_left (fun hash b => wrap64 (Z.lxor hash (b2z b) * 0x100000001b3)) l 0xcbf29ce484222325.

Definition splitmix (x : Z) : Z :=
  let x := wrap64 (x + 0x9E3779B97F4A7C15) in
  let z := x in
  let z := wrap64 (Z.lxor z (Z.shiftr z 30) * 0xBF58476D1CE4E5B9) in
  let z := wrap64 (Z.lxor z (Z.shiftr z 27) * 0x94D049BB133111EB) in
  Z.lxor z (Z.shiftr z 31).

Definition hash_pair (key : bytes) : Z * Z :=
  (fnv1a_64 key, splitmix (Z.lxor (fnv1a_64 key) 0x9E3779B97F4A7C15)).

(** [h1.wrapping_add(i.wrapping_mul(h2)) as usize % bit_count]. *)
Definition probe_index (h : Z * Z) (bit_count i : Z) : Z :=
  wrap64 (fst h + wrap64 (i * snd h)) mod bit_count.

(** ** The filter *)
Module BloomFilter.

Record t := mk { bits : bytes; hash_count : Z }.

(** [((-n * p.ln()) / LN_2.powi(2)).ceil().max(64.0) as usize]. *)
Definition bit_count `{Libm} (expected_items : Z) (false_positive_rate : f64) : Z :=
  let n := F64.of_int (Z.max expected_items 1) in
  let p := F64.clamp (F64.of_bits false_positive_rate) least_rate one_half in
  F64.as_usize (F64.max (F64.ceil (F64.div (F64.mul (F64.neg n) (ln p)) (powi LN_2 2))) sixty_four).

Definition new `{Libm} (expected_items : Z) (false_positive_rate : f64) : t :=
  let n := F64.of_int (Z.max expected_items 1) in
  let bit_count := bit_count expected_items false_positive_rate in
  let hash_count :=
    Z.min (Z.max (F64.as_u32 (F64.round (F64.mul (F64.div (F64.of_int bit_count) n) LN_2))) 1) 16 in
  let byte_count := (bit_count + 7) / 8 in
  mk (replicate (Z.to_nat byte_count) x00) hash_count.

Definition empty : t := mk (replicate 8 x00) 1.

(** [bits[idx / 8] |= 1 << (idx % 8)] *)
Definition set_bit (bs : bytes) (idx : Z) : result bytes :=
  let? b := index bs (idx / 8) in
  Ok (<[Z.to_nat (idx / 8) := z2b (Z.lor (b2z b) (Z.shiftl 1 (idx mod 8)))]> bs).

Fixpoint insert_loop (h : Z * Z) (bit_count i : Z) (n : nat) (bs : bytes) : result bytes :=
  match n with
  | O => Ok bs
  | S n' =>
      let? bs := set_bit bs (probe_index h bit_count i) in
      insert_loop h bit_count (i + 1) n' bs
  end.

(** The remainder by an empty filter's bit count panics. *)
Definition insert (self : t) (key : bytes) : result t :=
  let bit_count := len (bits self) * 8 in
  if (bit_count =? 0) && (0 <? hash_count self) then Panic
  else
  let? bs := insert_loop (hash_pair key) bit_count 0 (Z.to_nat (hash_count self)) (bits self) in
  Ok (mk bs (hash_count self)).

Fixpoint contain_loop (h : Z * Z) (bit_count i : Z) (n : nat) (bs : bytes) : result bool :=
  match n with
  | O => Ok true
  | S n' =>
      let idx := probe_index h bit_count i in
      let? b := index bs (idx / 8) in
      if Z.land (b2z b) (Z.shiftl 1 (idx mod 8)) =? 0 then Ok false
      else contain_loop h bit_count (i + 1) n' bs
  end.

Definition might_contain (self : t) (key : bytes) : result bool :=
  if len (bits self) =? 0 then Ok false
  else
    let bit_count := len (bits self) * 8 in
    contain_loop (hash_pair key) bit_count 0 (Z.to_nat (hash_count self)) (bits self).

Definition encode (self : t) : bytes :=
  let out := le_bytes 4 (hash_count self) ++ le_bytes 4 (len (bits self)) ++ bits self in
  out ++ le_bytes 4 (crc32 out).

Definition decode (bs : bytes) : result t :=
  if len bs <? 12 then Err CorruptedRecord
  else
  let? s := slice bs 0 4 in
  let? hash_count := read_u32_le s in
  let? s := slice bs 4 8 in
  let? bit_len := read_u32_le s in
  if (hash_count =? 0) || (16 <? hash_count) then Err CorruptedRecord
  else
  let expected := 8 + bit_len + 4 in
  if negb (len bs =? expected) then Err CorruptedRecord
  else
  let? body := slice bs 0 (8 + bit_len) in
  let? s := slice_from bs (8 + bit_len) in
  let? checksum := read_u32_le s in
  if negb (crc32 body =? checksum) then Err InvalidChecksum
  else
  let? bits := slice bs 8 (8 + bit_len) in
  Ok (mk bits hash_count).

(** A usable filter: at least one bit, and a number of hashes [decode] accepts. *)
Definition wf (self : t) : Prop := bits self <> [] /\ 1 <= hash_count self <= 16.

(** Bit [idx] of the filter. *)
Definition bit_at (bs : bytes) (idx : Z) : bool :=
  match bs !! Z.to_nat (idx / 8) with
  | Some b => Z.testbit (b2z b) (idx mod 8)
  | None => false
  end.

(** Every probe of [key] is set. *)
Definition has (self : t) (key : bytes) : Prop :=
  forall i, 0 <= i < hash_count self ->
    bit_at (bits self) (probe_index (hash_pair key) (len (bits self) * 8) i) = true.

(** Inserting a list of keys, as [SsTable::create] does. *)
Fixpoint insert_all (self : t) (keys : list bytes) : result t :=
  match keys with
  | [] => Ok self
  | key :: keys' => let? self := insert self key in insert_all self keys'
  end.

End BloomFilter.

(** ** Bits *)

Import BloomFilter.

Lemma land_bit b j :
  0 <= j -> (Z.land b (Z.shiftl 1 j) =? 0) = negb (Z.testbit b j).
Proof.
  intros Hj. rewrite Z.shiftl_1_l. destruct (Z.testbit b j) eqn:E; simpl.
  - apply Z.eqb_neq. intros H0%(f_equal (fun x => Z.testbit x j)).
    rewrite Z.land_spec, Z.pow2_bits_true, E, Z.bits_0 in H0 by done. done.
  - apply Z.eqb_eq, Z.bits_inj'. intros n Hn. rewrite Z.land_spec, Z.bits_0.
    destruct (Z.eq_dec j n) as [->|]; [by rewrite E|].
    by rewrite Z.pow2_bits_false, andb_false_r.
Qed.

Lemma b2z_set_bit b j : 0 <= j < 8 -> b2z (z2b (Z.lor (b2z b) (Z.shiftl 1 j))) = Z.lor (b2z b) (2 ^ j).
Proof.
  intros Hj. rewrite b2z_z2b, Z.shiftl_1_l. apply Z.mod_small. pose proof (b2z_range b).
  split; [apply Z.lor_nonneg; split; [lia|apply Z.pow_nonneg; lia]|].
  apply (Z.log2_lt_cancel _ 256). rewrite Z.log2_lor by (try apply Z.pow_nonneg; lia).
  change (Z.log2 256) with 8. apply Z.max_lub_lt; [|rewrite Z.log2_pow2; lia].
  destruct (Z.eq_dec (b2z b) 0) as [->|]; [done|].
  apply (Z.log2_lt_pow2 _ 8); lia.
Qed.

Section bit_range.
Context (bs : bytes) (idx : Z).
Hypothesis Hidx : 0 <= idx < len bs * 8.

Lemma byte_index_range : 0 <= idx / 8 < len bs.
Proof. split; [apply Z.div_pos; lia|apply Z.div_lt_upper_bound; lia]. Qed.

Lemma bit_index_range : 0 <= idx mod 8 < 8.
Proof. apply Z.mod_pos_bound. lia. Qed.

(** Setting a bit sets that bit and keeps the others. *)
Lemma set_bit_spec :
  exists bs', set_bit bs idx = Ok bs' /\ length bs' = length bs /\
    forall j, 0 <= j -> bit_at bs' j = bit_at bs j || (j =? idx).
Proof.
  pose proof byte_index_range as Hr. pose proof bit_index_range as Hb.
  unfold set_bit. destruct (index_in_range bs (idx / 8) Hr) as (b & -> & Hl). rsimpl.
  eexists; split; [done|]. split; [by rewrite length_insert|]. intros j Hj. unfold bit_at.
  assert (j = idx <-> j / 8 = idx / 8 /\ j mod 8 = idx mod 8) as Hji.
  { split; [by intros ->|]. intros [H1 H2].
    rewrite (Z.div_mod j 8), (Z.div_mod idx 8), H1, H2 by lia. done. }
  assert (0 <= j / 8) by (apply Z.div_pos; lia).
  assert (0 <= j mod 8 < 8) by (apply Z.mod_pos_bound; lia).
  destruct (decide (j / 8 = idx / 8)) as [E|E].
  - rewrite E, list_lookup_insert_eq, Hl by (by eapply lookup_lt_Some).
    rewrite b2z_set_bit, Z.lor_spec by done. f_equal.
    destruct (Z.eqb_spec j idx) as [->|Hne].
    + apply Z.pow2_bits_true. lia.
    + apply Z.pow2_bits_false. intros Hm. apply Hne, Hji. auto.
  - rewrite list_lookup_insert_ne by lia.
    replace (j =? idx) with false by (symmetry; apply Z.eqb_neq; naive_solver).
    by rewrite orb_false_r.
Qed.

Lemma test_bit_spec :
  exists b, index bs (idx / 8) = Ok b /\
    (Z.land (b2z b) (Z.shiftl 1 (idx mod 8)) =? 0) = negb (bit_at bs idx).
Proof.
  destruct (index_in_range bs (idx / 8) byte_index_range) as (b & Hb & Hl).
  exists b. split; [done|]. rewrite land_bit by apply bit_index_range.
  unfold bit_at. by rewrite Hl.
Qed.

End bit_range.

Lemma probe_index_range h n i : 0 < n -> 0 <= probe_index h n i < n.
Proof. intros. by apply Z.mod_pos_bound. Qed.

(** ** Loops *)

Lemma insert_loop_spec h n i bs :
  bs <> [] ->
  exists bs', insert_loop h (len bs * 8) i n bs = Ok bs' /\ length bs' = length bs /\
    (forall j, 0 <= j -> bit_at bs j = true -> bit_at bs' j = true) /\
    (forall k, i <= k < i + Z.of_nat n -> bit_at bs' (probe_index h (len bs * 8) k) = true).
Proof.
  revert i bs. induction n as [|n IH]; intros i bs Hne; cbn [insert_loop].
  { exists bs. split_and!; auto. intros k Hk. lia. }
  assert (0 < len bs * 8) as Hpos by (destruct bs; [done|len_lia]).
  destruct (set_bit_spec bs (probe_index h (len bs * 8) i)) as (b1 & -> & Hl1 & Hb1);
    [by apply probe_index_range|]. rsimpl.
  assert (len b1 = len bs) as Hlen by (unfold len; by rewrite Hl1).
  destruct (IH (i + 1) b1) as (b2 & E & Hl2 & Hm & Hs).
  { intros ->. by destruct bs. }
  rewrite <- Hlen, E. exists b2. split_and!; [done|congruence| |].
  - intros j Hj Hb. apply Hm; [done|]. rewrite Hb1 by done. by rewrite Hb.
  - intros k Hk. destruct (Z.eq_dec k i) as [->|]; [|apply Hs; lia].
    rewrite Hlen. pose proof (probe_index_range h (len bs * 8) i Hpos).
    apply Hm; [lia|]. rewrite Hb1 by lia. by rewrite Z.eqb_refl, orb_true_r.
Qed.

Lemma contain_loop_spec h n i bs :
  bs <> [] ->
  exists r, contain_loop h (len bs * 8) i n bs = Ok r /\
    (r = true <-> forall k, i <= k < i + Z.of_nat n -> bit_at bs (probe_index h (len bs * 8) k) = true).
Proof.
  intros Hne. assert (0 < len bs * 8) as Hpos by (destruct bs; [done|len_lia]).
  revert i. induction n as [|n IH]; intros i; cbn [contain_loop].
  { exists true. split; [done|]. split; [intros _ k Hk; lia|done]. }
  destruct (test_bit_spec bs (probe_index h (len bs * 8) i)) as (b & -> & Ht);
    [by apply probe_index_range|]. rsimpl. rewrite Ht.
  destruct (bit_at bs (probe_index h (len bs * 8) i)) eqn:E; simpl.
  - destruct (IH (i + 1)) as (r & -> & Hr). exists r. split; [done|]. rewrite Hr.
    split; intros H k Hk; [|apply H; lia].
    destruct (Z.eq_dec k i) as [->|]; [done|apply H; lia].
  - exists false. split; [done|]. split; [done|]. intros H.
    rewrite H in E by lia. done.
Qed.

(** ** Sizes *)

(** What is relied on of the two functions: a NaN has no logarithm, those of the
    rates between [0.000_1] and [0.5] lie between [-9.25] and [-0.5], and the
    square of [LN_2] between [0.48] and [0.49]. *)
Record libm_ok `{Libm} : Prop := {
  ln_nan : ln SpecFloat.S754_nan = SpecFloat.S754_nan;
  ln_rate : forall p, p <> SpecFloat.S754_nan ->
    F64.ltb p least_rate = false -> F64.ltb one_half p = false ->
    finite (F64.neg (ln p)) /\ one64 <= 2 * fval (F64.neg (ln p)) /\ 4 * fval (F64.neg (ln p)) <= 37 * one64;
  powi_ln2 : finite (powi LN_2 2) /\ 48 * one64 <= 100 * fval (powi LN_2 2) <= 49 * one64;
}.

Lemma clamp_rate x :
  let p := F64.clamp x least_rate one_half in
  p = SpecFloat.S754_nan \/
  p <> SpecFloat.S754_nan /\ F64.ltb p least_rate = false /\ F64.ltb one_half p = false.
Proof.
  cbv zeta. destruct x as [s|s| |s m e] eqn:Ex; try (by left); right; rewrite <- Ex in *;
    assert (x <> SpecFloat.S754_nan) by (by subst x); unfold F64.clamp;
    (destruct (F64.ltb x least_rate) eqn:E1; [by vm_compute|]);
    (destruct (F64.ltb one_half x) eqn:E2; [by vm_compute|]); done.
Qed.

(** [n] times a logarithm, divided by the square: the bounds of [libm_ok] give
    between one and twenty times [n]. *)
Lemma sizing_quotient n l c :
  1 <= n < 2 ^ 40 ->
  finite l -> one64 <= 2 * fval l -> 4 * fval l <= 37 * one64 ->
  finite c -> 48 * one64 <= 100 * fval c -> 100 * fval c <= 49 * one64 ->
  (finite (F64.div (F64.mul (F64.of_int n) l) c) /\ canonical (F64.div (F64.mul (F64.of_int n) l) c)) /\
  n * one64 <= fval (F64.div (F64.mul (F64.of_int n) l) c) <= 20 * n * one64.
Proof.
  intros Hn Hl Hl1 Hl2 Hc Hc1 Hc2. destruct (of_int_exact n ltac:(lia)) as [Hfn En].
  pose proof one64_pos. pose proof huge_big as Hhuge. set (u := 2 ^ 1072).
  assert (one64 = 4 * u) as Eu by (unfold one64, u; by rewrite <- (pow2_split 2)).
  assert (fval c < huge * one64) as Htop by nia.
  destruct (mul_rounds (F64.of_int n) l Hfn Hl) as (Hf & Hlo & Hhi).
  { rewrite En. apply Z.le_lt_trans with (2 ^ 40 * one64 * (10 * one64)); nia. }
  assert (representable (37 * n * u)) as R1 by (exists (37 * n), 1072; lia).
  assert (representable (n * (2 * u))) as R2.
  { exists n, 1073. split; [lia|]. split; [done|]. unfold u. by rewrite <- (pow2_split 1). }
  rewrite En in Hlo, Hhi. clearbody u. rewrite Eu in *.
  assert (fval (F64.mul (F64.of_int n) l) <= 37 * n * u) as H1.
  { apply Hhi; [done|clear Htop; nia]. }
  assert (n * (2 * u) <= fval (F64.mul (F64.of_int n) l)) as H2.
  { apply Hlo; [done|clear Htop; nia]. }
  destruct (div_rounds (F64.mul (F64.of_int n) l) c Hf Hc) as [(Hfd & Hdlo & Hdhi) Hcan]; [nia|nia|by rewrite Eu| |].
  { apply Z.lt_le_trans with (u * huge); nia. }
  rewrite Eu in *. clear Htop Hlo Hhi.
  split; [done|]. rewrite <- Eu in *. split; [apply Hdlo|apply Hdhi]; try (apply representable_int; lia);
    rewrite Eu in *; nia.
Qed.

Lemma mul_neg_neg x y : F64.mul (F64.neg x) y = F64.mul x (F64.neg y).
Proof. by destruct x as [[]|[]| |[]], y as [[]|[]| |[]]. Qed.

Lemma sixty_four_usize : F64.as_usize sixty_four = 64.
Proof. by vm_compute. Qed.

(** At least 64 bits, at most twenty bits per key if that is more; at least one
    bit per key for a rate that is a number, and 64 bits for one that is not. *)
Lemma bit_count_bounds `{Libm} n rate :
  libm_ok -> 1 <= n < 2 ^ 40 ->
  64 <= bit_count n rate <= Z.max 64 (20 * n) /\
  if decide (F64.of_bits rate = SpecFloat.S754_nan) then bit_count n rate = 64 else n <= bit_count n rate.
Proof.
  intros Hm Hn. unfold bit_count. rewrite Z.max_l by lia. set (p := F64.clamp _ _ _).
  pose proof (clamp_rate (F64.of_bits rate)) as Hp. cbv zeta in Hp. fold p in Hp. rewrite mul_neg_neg.
  assert (p = SpecFloat.S754_nan <-> F64.of_bits rate = SpecFloat.S754_nan) as Hnan.
  { unfold p, F64.clamp. split; [|by intros ->]. generalize (F64.of_bits rate). intros y.
    destruct (F64.ltb y _); [intros E; exfalso; revert E; by vm_compute|].
    destruct (F64.ltb _ y); [intros E; exfalso; revert E; by vm_compute|done]. }
  set (x := F64.div _ _). destruct Hp as [E|(Hp & H1 & H2)].
  - assert (x = SpecFloat.S754_nan) as -> by (unfold x; rewrite E, (ln_nan Hm); by destruct (F64.of_int n)).
    change (F64.max _ _) with sixty_four. rewrite sixty_four_usize, decide_True by (by apply Hnan). lia.
  - rewrite decide_False by (by rewrite <- Hnan).
    destruct (ln_rate Hm p Hp H1 H2) as (Hf & Hlo & Hhi). destruct (powi_ln2 Hm) as (Hf2 & Hlo2 & Hhi2).
    destruct (sizing_quotient n _ _ Hn Hf Hlo Hhi Hf2 Hlo2 Hhi2) as [[Hfx Hcan] Hx]. fold x in Hfx, Hcan, Hx.
    pose proof one64_pos as Hpos. destruct (ceil_exact x Hfx) as [Hfc Ec]; [nia|].
    pose proof (ceil_below_sixty_four x Hfx Hcan ltac:(nia)) as Hbelow.
    set (v := (fval x + (one64 - 1)) / one64) in *.
    assert (n <= v <= 20 * n) as Hv.
    { split; [apply Z.div_le_lower_bound; lia|]. apply Z.lt_succ_r, Z.div_lt_upper_bound; lia. }
    assert (F64.as_usize (F64.ceil x) = v) as Eu by (apply as_usize_exact; [done|done|lia]).
    change (SpecFloat.S754_finite false (2 ^ 52) (-46)) with sixty_four in Hbelow.
    destruct (F64.ltb (F64.ceil x) sixty_four) eqn:Elt.
    + pose proof (ltb_sixty_four (F64.ceil x) (2 ^ 52) Hfc eq_refl Elt) as Hle. rewrite Ec in Hle.
      assert (v <= 64) by nia. assert (F64.max (F64.ceil x) sixty_four = sixty_four) as ->.
      { unfold F64.max. rewrite Elt. by destruct (F64.ceil x). }
      rewrite sixty_four_usize. lia.
    + assert (F64.max (F64.ceil x) sixty_four = F64.ceil x) as ->.
      { unfold F64.max. rewrite Elt. by destruct (F64.ceil x). }
      rewrite Eu. destruct (decide (v < 64)) as [Hv64|]; [|lia]. by specialize (Hbelow Hv64).
Qed.

Lemma demo_libm_ok : libm_ok (H := demo_libm).
Proof.
  split; [done| |by vm_compute]. intros p Hp _ _.
  assert (ln (Libm := demo_libm) p = F64.of_bits 0xC0126BB1BBB55515) as -> by (by destruct p). by vm_compute.
Qed.

(** ** Insertion and membership *)

Lemma bit_count_positive `{Libm} n p : 1 <= bit_count n p.
Proof. unfold bit_count, sixty_four. apply ceil_max_positive. by vm_compute. Qed.

Lemma new_filter_wf `{Libm} n p : wf (new n p).
Proof.
  unfold new, wf. cbn [bits hash_count]. split; [|lia]. pose proof (bit_count_positive n p).
  assert (1 <= (bit_count n p + 7) / 8) by (apply Z.div_le_lower_bound; lia).
  destruct (Z.to_nat ((bit_count n p + 7) / 8)) eqn:E; [lia|done].
Qed.

Lemma insert_spec f key :
  wf f ->
  exists f', insert f key = Ok f' /\ wf f' /\ len (bits f') = len (bits f) /\
    hash_count f' = hash_count f /\ has f' key /\ (forall k, has f k -> has f' k).
Proof.
  intros [Hne Hh]. unfold insert.
  assert (0 < len (bits f) * 8) by (destruct (bits f); [done|len_lia]).
  case_if; [lia|]. clear E.
  destruct (insert_loop_spec (hash_pair key) (Z.to_nat (hash_count f)) 0 (bits f) Hne)
    as (bs & -> & Hl & Hm & Hs). rsimpl.
  assert (len bs = len (bits f)) as Hlen by (unfold len; by rewrite Hl).
  eexists; split; [done|]. cbn [bits hash_count].
  split; [split; [|done]; cbn [bits]; intros ->; by destruct (bits f)|].
  split_and!; [done|done| |].
  - intros i Hi. cbn [bits hash_count] in *. rewrite Hlen. apply Hs. lia.
  - intros k Hk i Hi. cbn [bits hash_count] in *. rewrite Hlen.
    apply Hm; [|by apply Hk]. by apply probe_index_range.
Qed.

Lemma insert_all_spec keys f :
  wf f ->
  exists f', insert_all f keys = Ok f' /\ wf f' /\ len (bits f') = len (bits f) /\
    hash_count f' = hash_count f /\
    (forall k, k ∈ keys -> has f' k) /\ (forall k, has f k -> has f' k).
Proof.
  revert f. induction keys as [|key keys IH]; intros f Hwf; cbn [insert_all].
  { exists f. split_and!; auto; try done. set_solver. }
  destruct (insert_spec f key Hwf) as (f1 & -> & Hwf1 & Hl1 & Hh1 & Hk1 & Hm1). rsimpl.
  destruct (IH f1 Hwf1) as (f2 & -> & Hwf2 & Hl2 & Hh2 & Hk2 & Hm2).
  exists f2. split_and!; auto; try congruence. intros k Hk.
  apply elem_of_cons in Hk as [->|]; auto.
Qed.

Lemma might_contain_spec f key :
  wf f -> exists r, might_contain f key = Ok r /\ (r = true <-> has f key).
Proof.
  intros [Hne Hh]. unfold might_contain. case_if; [by apply len_0_nil in e|].
  destruct (contain_loop_spec (hash_pair key) (Z.to_nat (hash_count f)) 0 (bits f) Hne)
    as (r & -> & Hr). exists r. split; [done|]. rewrite Hr. unfold has.
  split; intros Ha i Hi; apply Ha; lia.
Qed.

Lemma might_contain_has f key : wf f -> has f key -> might_contain f key = Ok true.
Proof.
  intros Hwf Hk. destruct (might_contain_spec f key Hwf) as (r & -> & Hr).
  by rewrite (proj2 Hr Hk).
Qed.

(** ** Encoding *)

(** The filters the format can hold. *)
Definition encodable (f : t) : Prop := wf f /\ len (bits f) < 2 ^ 32.

Lemma len_encode f : len (encode f) = 12 + len (bits f).
Proof. unfold encode. len_lia. Qed.

Lemma decode_encode f : encodable f -> decode (encode f) = Ok f.
Proof.
  destruct f as [bs h]. intros [[Hne Hh] Hl]. cbn [bits hash_count] in *.
  unfold decode. rewrite len_encode. unfold encode. cbn [bits hash_count].
  pose proof (len_nonneg bs). case_if; [lia|].
  set (out := le_bytes 4 h ++ le_bytes 4 (len bs) ++ bs).
  assert (len out = 8 + len bs) as Hout by (unfold out; len_lia).
  assert (out ++ le_bytes 4 (crc32 out) = le_bytes 4 h ++ le_bytes 4 (len bs) ++ bs ++ le_bytes 4 (crc32 out))
    as Ho by (unfold out at 1; by rewrite <- !app_assoc).
  rewrite Ho. rewrite slice_app_l by len_lia. rsimpl. rewrite read_u32_le_bytes by lia. rsimpl.
  slice_as (le_bytes 4 h) (le_bytes 4 (len bs)). rewrite read_u32_le_bytes by lia. rsimpl.
  case_if; [apply orb_true_iff in E as [?|?]; reflect_bools; lia|].
  case_if; [len_lia|].
  rewrite <- Ho. rewrite slice_app_l by lia. rsimpl.
  rewrite slice_from_app by lia. rsimpl.
  rewrite read_u32_le_bytes by apply crc32_u32. rsimpl. rewrite Z.eqb_refl. simpl negb. cbn iota.
  rewrite Ho, app_assoc. slice_as (le_bytes 4 h ++ le_bytes 4 (len bs)) bs. done.
Qed.

(** Fields of an input long enough to have a header and a checksum. *)
Lemma decode_surj bs :
  12 <= len bs -> exists h l rest, u32 h /\ u32 l /\ bs = le_bytes 4 h ++ le_bytes 4 l ++ rest.
Proof.
  intros H. destruct (split_at bs 4) as (a & r & -> & Ha); [lia|]. rewrite len_app in H.
  destruct (split_at r 4) as (b & rest & -> & Hb); [lia|].
  destruct (le_field a 4 Ha) as (h & -> & ?), (le_field b 4 Hb) as (l & -> & ?).
  by exists h, l, rest.
Qed.

(** What [decode] accepts is a checksummed frame, and it never panics. *)
Lemma decode_cases bs :
  (exists e, decode bs = Err e) \/
  (exists f, decode bs = Ok f /\ framed_after bs /\ 1 <= hash_count f <= 16 /\ bs = encode f).
Proof.
  unfold decode. case_if; [by eauto|].
  destruct (decode_surj bs) as (h & l & rest & Hh & Hl & ->); [lia|].
  rewrite slice_app_l by len_lia. rsimpl. rewrite read_u32_le_bytes by done. rsimpl.
  slice_as (le_bytes 4 h) (le_bytes 4 l). rewrite read_u32_le_bytes by done. rsimpl.
  case_if; [by eauto|]. case_if; [by eauto|]. unfold u32 in *.
  assert (exists b c, rest = b ++ le_bytes 4 c /\ len b = l /\ u32 c) as (b & c & -> & Hb & Hc).
  { rewrite !len_app, !len_le_bytes in *.
    destruct (split_at rest l) as (b & k & -> & Hb); [lia|]. rewrite len_app in *.
    destruct (le_field k 4) as (c & -> & ?); [lia|]. by exists b, c. }
  set (out := le_bytes 4 h ++ le_bytes 4 l ++ b).
  assert (len out = 8 + l) as Hout by (unfold out; len_lia).
  assert (le_bytes 4 h ++ le_bytes 4 l ++ b ++ le_bytes 4 c = out ++ le_bytes 4 c) as Ho
    by (unfold out; by rewrite <- !app_assoc).
  rewrite Ho. rewrite slice_app_l by lia. rsimpl. rewrite slice_from_app by lia. rsimpl.
  rewrite read_u32_le_bytes by done. rsimpl. case_if; [by eauto|].
  rewrite <- Ho, (app_assoc (le_bytes 4 h)).
  slice_as (le_bytes 4 h ++ le_bytes 4 l) b. right. exists (mk b h). split; [done|].
  rewrite <- app_assoc, Ho. cbn [hash_count]. subst c l.
  split_and!; [by exists out|lia|lia|done].
Qed.

(** ** Properties *)

(** C31: no false negatives: a filter of any size built by inserting keys
    answers [true] for each of them, and neither insertion nor lookup panics. *)
Theorem bloom_no_false_negative `{Libm} n p keys :
  exists f, insert_all (new n p) keys = Ok f /\
    forall key, key ∈ keys -> might_contain f key = Ok true.
Proof.
  destruct (insert_all_spec keys (new n p) (new_filter_wf n p)) as (f & Hf & Hwf & _ & _ & Hk & _).
  exists f. split; [done|]. intros key Hin. apply might_contain_has; auto.
Qed.

(** C32: the filter fits the file.  Whatever rate the options ask for, infinities
    included, a filter for up to 2^30 items has between one and sixteen hashes,
    at least eight bytes, and at most twenty bits per item when that is more;
    it has at least one bit per item when the rate is a number, and exactly
    eight bytes when it is a NaN; and what [encode] writes for it decodes to it,
    with every key inserted. *)
Theorem bloom_filter_fits `{Libm} n rate keys :
  libm_ok -> 1 <= n < 2 ^ 30 ->
  exists f, insert_all (new n rate) keys = Ok f /\
    1 <= hash_count f <= 16 /\ 8 <= len (bits f) /\ 8 * len (bits f) <= Z.max 64 (20 * n) + 7 /\
    (if decide (F64.of_bits rate = SpecFloat.S754_nan) then len (bits f) = 8 else n <= 8 * len (bits f)) /\
    decode (encode f) = Ok f.
Proof.
  intros Hm Hn. pose proof (new_filter_wf n rate) as Hwf.
  destruct (insert_all_spec keys (new n rate) Hwf) as (f & Hf & [Hne Hh] & Hl & _ & _).
  destruct (bit_count_bounds n rate Hm ltac:(lia)) as [Hb Hb'].
  assert (bit_count n rate <= 8 * len (bits f) <= bit_count n rate + 7) as Hlen.
  { rewrite Hl. unfold new. cbn [bits]. rewrite len_replicate, Z2Nat.id by (apply Z.div_pos; lia).
    pose proof (Z.mul_div_le (bit_count n rate + 7) 8). pose proof (Z.mul_succ_div_gt (bit_count n rate + 7) 8). lia. }
  exists f. split; [exact Hf|]. split; [exact Hh|]. split; [lia|]. split; [lia|].
  split; [destruct (decide _); lia|]. apply decode_encode. split; [split; [exact Hne|exact Hh]|lia].
Qed.

(** 64 items at one percent; and one item, for which the least size is used. *)
Lemma bloom_filter_fits_witness :
  (exists f, insert_all (new (H := demo_libm) 64 one_percent) [[x61]; [x62]] = Ok f /\
    decode (encode f) = Ok f /\ len (bits f) = 77 /\ hash_count f = 7) /\
  exists f, insert_all (new (H := demo_libm) 1 one_percent) [] = Ok f /\ 8 <= len (bits f) /\ len (bits f) = 8.
Proof.
  split.
  - destruct (bloom_filter_fits (H := demo_libm) 64 one_percent [[x61]; [x62]] demo_libm_ok)
      as (f & E & _ & _ & _ & _ & Hd); [lia|].
    exists f. split; [exact E|]. split; [exact Hd|]. revert E. vm_compute. intros [= <-]. split; reflexivity.
  - destruct (bloom_filter_fits (H := demo_libm) 1 one_percent [] demo_libm_ok) as (f & E & _ & Hb & _); [lia|].
    exists f. split; [exact E|]. split; [exact Hb|]. revert E. vm_compute. by intros [= <-].
Defined.

(** Decoding inverts encoding for every filter whose bit array is shorter
    than [2^32] bytes, so a reopened table uses the filter that was written. *)
Theorem bloom_roundtrip f :
  bits f <> [] -> 1 <= hash_count f <= 16 -> len (bits f) < 2 ^ 32 -> decode (encode f) = Ok f.
Proof. intros. by apply decode_encode. Qed.

Lemma bloom_roundtrip_witness : decode (encode (mk [x01; x80] 3)) = Ok (mk [x01; x80] 3).
Proof. apply bloom_roundtrip; [discriminate|cbn; lia|reflexivity]. Defined.

(** [BloomFilter::decode] never panics, whatever bytes it is given, and
    rejects an encoded filter in which one byte was changed. *)
Theorem bloom_decode_total bs :
  decode bs <> Panic /\
  (forall f pre x y post, decode bs = Ok f -> bs = pre ++ x :: post -> x <> y ->
     exists e, decode (pre ++ y :: post) = Err e).
Proof.
  split.
  - destruct (decode_cases bs) as [[e ->]|(f & -> & _)]; done.
  - intros f pre x y post Hd -> Hne.
    destruct (decode_cases (pre ++ x :: post)) as [[e E]|(f1 & _ & F1 & _)]; [congruence|].
    destruct (decode_cases (pre ++ y :: post)) as [[e ->]|(f2 & _ & F2 & _)]; [by eauto|].
    by destruct Hne; apply (framed_after_one_byte pre x y post).
Qed.
