(* ===== verification/Cache.v ===== *)
(** * The block cache ([src/cache.rs])

    The [HashMap] is a [gmap] and the [VecDeque] the list of keys from the least
    to the most recently used.  Blocks are shared through [Arc] and never
    mutated, so a block is its list of entries. *)

From S2P Require Import Prelude Bytes Collections Memtable.

Record BlockKey := { table_id : Z; offset : Z }.

#[global] Instance BlockKey_eq_dec : EqDecision BlockKey.
Proof. solve_decision. Defined.

#[global] Instance BlockKey_countable : Countable BlockKey :=
  inj_countable' (fun k => (table_id k, offset k)) (fun '(t, o) => Build_BlockKey t o)
    ltac:(by intros []).

Abbreviation BlockData := (list (bytes * Entry)).

(** [block_size]: key and value bytes, at least one. *)
Definition block_data_size (block : BlockData) : Z :=
  Z.max (foldr (fun '(k, e) n => len k + value_len e + n) 0 block) 1.

Module BlockCache.

Record t := mk {
  map : gmap BlockKey BlockData;
  order : list BlockKey;
  current_bytes : Z;
  max_bytes : Z;
  hits : Z;
  misses : Z;
}.

Definition new (max_bytes : Z) : t := mk ∅ [] 0 (Z.max max_bytes 1) 0 0.

(** Remove the first occurrence, then push to the back. *)
Fixpoint remove_first (key : BlockKey) (l : list BlockKey) : list BlockKey :=
  match l with
  | [] => []
  | k :: l' => if decide (k = key) then l' else k :: remove_first key l'
  end.

Definition touch_order (key : BlockKey) (l : list BlockKey) : list BlockKey :=
  remove_first key l ++ [key].

Definition touch (self : t) (key : BlockKey) : t :=
  mk (map self) (touch_order key (order self)) (current_bytes self) (max_bytes self)
     (hits self) (misses self).

Definition get (self : t) (key : BlockKey) : option BlockData * t :=
  match map self !! key with
  | Some block =>
      let self := mk (map self) (order self) (current_bytes self) (max_bytes self)
                     (wrap64 (hits self + 1)) (misses self) in
      (Some block, touch self key)
  | None =>
      (None, mk (map self) (order self) (current_bytes self) (max_bytes self)
                (hits self) (wrap64 (misses self + 1)))
  end.

(** The loop of [evict_to_fit], on the keys still in the queue. *)
Fixpoint evict (m : gmap BlockKey BlockData) (bytes max : Z) (l : list BlockKey)
    : gmap BlockKey BlockData * Z * list BlockKey :=
  if max <? bytes then
    match l with
    | [] => (m, bytes, [])
    | oldest :: l' =>
        match m !! oldest with
        | Some block => evict (delete oldest m) (Z.max 0 (bytes - block_data_size block)) max l'
        | None => evict m bytes max l'
        end
    end
  else (m, bytes, l).

Definition evict_to_fit (self : t) : t :=
  let '(m, bytes, l) := evict (map self) (current_bytes self) (max_bytes self) (order self) in
  mk m l bytes (max_bytes self) (hits self) (misses self).

Definition insert (self : t) (key : BlockKey) (block : BlockData) : t :=
  let size := block_data_size block in
  let previous := map self !! key in
  let self := mk (<[key := block]> (map self)) (order self) (current_bytes self)
                 (max_bytes self) (hits self) (misses self) in
  let self :=
    match previous with
    | Some previous =>
        touch (mk (map self) (order self)
                  (wrap64 (current_bytes self - block_data_size previous))
                  (max_bytes self) (hits self) (misses self)) key
    | None =>
        mk (map self) (order self ++ [key]) (current_bytes self)
           (max_bytes self) (hits self) (misses self)
    end in
  evict_to_fit (mk (map self) (order self) (wrap64 (current_bytes self + size))
                   (max_bytes self) (hits self) (misses self)).

Definition cache_len (self : t) : Z := Z.of_nat (size (map self)).
Definition is_empty (self : t) : bool := cache_len self =? 0.

(** ** The invariant *)

(** Bytes of the blocks of a list of keys. *)
Definition total (m : gmap BlockKey BlockData) (l : list BlockKey) : Z :=
  foldr (fun k n => from_option block_data_size 0 (m !! k) + n) 0 l.

(** The queue lists the resident blocks once each, and the byte count is
    theirs. *)
Definition wf (self : t) : Prop :=
  NoDup (order self) /\ (forall k, k ∈ order self <-> is_Some (map self !! k)) /\
  current_bytes self = total (map self) (order self) /\
  1 <= max_bytes self < 2 ^ 64 /\ current_bytes self <= max_bytes self.

End BlockCache.

Import BlockCache.

(** ** Lemmas *)

Lemma block_data_size_pos b : 1 <= block_data_size b.
Proof. unfold block_data_size. lia. Qed.

Lemma total_nonneg m l : 0 <= total m l.
Proof.
  induction l as [|k l IH]; simpl; [lia|].
  destruct (m !! k) as [b|]; simpl; [pose proof (block_data_size_pos b)|]; lia.
Qed.

Lemma total_app m l1 l2 : total m (l1 ++ l2) = total m l1 + total m l2.
Proof. induction l1 as [|k l1 IH]; simpl; [done|]. rewrite IH. lia. Qed.

Lemma total_delete m l k : k ∉ l -> total (delete k m) l = total m l.
Proof.
  induction l as [|k' l IH]; simpl; [done|]. intros H.
  rewrite lookup_delete_ne by set_solver. rewrite IH by set_solver. done.
Qed.

Lemma total_insert_other m l k b : k ∉ l -> total (<[k := b]> m) l = total m l.
Proof.
  induction l as [|k' l IH]; simpl; [done|]. intros H.
  rewrite lookup_insert_ne by set_solver. rewrite IH by set_solver. done.
Qed.

Lemma remove_first_split key l :
  key ∈ l -> exists l1 l2, l = l1 ++ key :: l2 /\ key ∉ l1 /\ remove_first key l = l1 ++ l2.
Proof.
  induction l as [|k l IH]; simpl; [set_solver|]. case_decide as Hk.
  - intros _. subst. exists [], l. split_and!; auto. set_solver.
  - intros Hin. destruct IH as (l1 & l2 & -> & Hn & ->); [set_solver|].
    exists (k :: l1), l2. split_and!; auto. set_solver.
Qed.

Lemma touch_order_perm key l : key ∈ l -> touch_order key l ≡ₚ l.
Proof.
  intros (l1 & l2 & -> & _ & E)%remove_first_split. unfold touch_order. rewrite E.
  solve_Permutation.
Qed.

Lemma total_perm m l1 l2 : l1 ≡ₚ l2 -> total m l1 = total m l2.
Proof. induction 1; simpl; lia. Qed.

(** Eviction drops a prefix of the queue and the blocks of that prefix, and no
    more than it has to: with the last block that it dropped, the rest would
    exceed the bound. *)
Lemma evict_spec m bytes max l m' bytes' l' :
  NoDup l -> (forall k, k ∈ l <-> is_Some (m !! k)) -> bytes = total m l -> 0 <= max ->
  evict m bytes max l = (m', bytes', l') ->
  bytes' = total m' l' /\ bytes' <= max /\ NoDup l' /\
  (forall k, k ∈ l' <-> is_Some (m' !! k)) /\
  (exists dropped, l = dropped ++ l' /\ forall d k, dropped = d ++ [k] -> max < total m (k :: l')) /\
  (forall k, m' !! k = if decide (k ∈ l') then m !! k else None).
Proof.
  revert m bytes. induction l as [|k l IH]; intros m bytes Hnd Hdom Hb Hmax; cbn [evict].
  - simpl in Hb. case_if; [lia|]. intros [= <- <- <-].
    split_and!; [done|lia|done|done|exists []; split; [done|by intros [] ? ?]|].
    intros k. rewrite decide_False by set_solver.
    destruct (m !! k) eqn:E; [|done]. assert (k ∈ []) by (apply Hdom; eauto). set_solver.
  - pose proof Hnd as [Hk Hnd']%NoDup_cons. case_if.
    + destruct (proj1 (Hdom k)) as [b Hbk]; [by left|]. rewrite Hbk. pose proof Hb as Hb'. simpl in Hb'.
      rewrite Hbk in Hb'. simpl in Hb'. pose proof (total_nonneg m l).
      pose proof (block_data_size_pos b). rewrite Z.max_r by lia.
      intros E. apply IH in E as (? & ? & ? & ? & (d & Hd & Hmin) & Hm'); [|done| | |done].
      * split_and!; try done; [exists (k :: d); split; [by rewrite Hd|]|].
        -- intros [|k0 d'] k' [= <- ->]; [cbn in Hd; subst l'; lia|].
           rewrite <- (total_delete m (k' :: l') k); [by apply (Hmin d')|].
           intros Hin. apply Hk. rewrite Hd. set_solver.
        -- intros k'. rewrite Hm'. case_decide; [|done]. rewrite lookup_delete_ne; [done|]. intros <-.
           apply Hk. rewrite Hd. set_solver.
      * intros k'. rewrite lookup_delete_is_Some. rewrite <- Hdom. set_solver.
      * rewrite total_delete by done. lia.
    + intros [= <- <- <-]. split_and!; [done|done|done|done|exists []; split; [done|by intros [] ? ?]|].
      intros k'. case_decide as Hin; [done|]. destruct (m !! k') eqn:E; [|done].
      destruct Hin. apply Hdom. eauto.
Qed.

(** Every resident block was resident before, or is the one inserted. *)
Lemma evict_sub m bytes max l m' bytes' l' k b :
  evict m bytes max l = (m', bytes', l') -> m' !! k = Some b -> m !! k = Some b.
Proof.
  revert m bytes. induction l as [|k0 l IH]; intros m bytes; cbn [evict]; case_if;
    try (by intros [= <- <- <-]).
  destruct (m !! k0); [|apply IH]. intros E Hb. apply (IH _ _ E) in Hb.
  by apply lookup_delete_Some in Hb as [_ Hb].
Qed.

Lemma insert_lookup c key block k b :
  map (insert c key block) !! k = Some b ->
  (k = key /\ b = block) \/ (k <> key /\ map c !! k = Some b).
Proof.
  unfold insert, evict_to_fit.
  destruct (map c !! key) eqn:Ek; cbn [map order current_bytes max_bytes touch];
  match goal with |- context [evict ?m ?x ?y ?l] =>
    destruct (evict m x y l) as [[m' b'] l'] eqn:E end;
  cbn [map]; intros Hb; eapply evict_sub in Hb; [|exact E| |exact E];
  apply lookup_insert_Some in Hb; naive_solver.
Qed.

Lemma get_result c key : fst (get c key) = map c !! key.
Proof. unfold get. by destruct (map c !! key). Qed.

Lemma get_map c key : map (snd (get c key)) = map c.
Proof. unfold get. by destruct (map c !! key). Qed.

(** ** Properties *)

Lemma new_cache_wf n : n < 2 ^ 64 -> wf (new n).
Proof.
  intros. split_and!; cbn; [constructor| | |lia|lia|lia]; try done.
  intros k. rewrite lookup_empty. split; [set_solver|by intros [? ?]].
Qed.

Lemma touch_wf c key : wf c -> key ∈ order c -> wf (touch c key).
Proof.
  intros (Hnd & Hdom & Hb & Hm & Hle) Hin.
  pose proof (touch_order_perm key (order c) Hin) as P.
  split_and!; cbn [touch map order current_bytes max_bytes]; try lia.
  - by rewrite P.
  - intros k. by rewrite P.
  - rewrite Hb. by apply total_perm.
Qed.

Lemma get_wf c key : wf c -> wf (snd (get c key)).
Proof.
  intros Hwf. unfold get. destruct (map c !! key) eqn:E; cbn [snd]; [|exact Hwf].
  apply touch_wf; [exact Hwf|]. cbn [order]. apply Hwf. eauto.
Qed.

(** The state in which [insert] starts to evict. *)
Lemma insert_before_evict c key block :
  wf c -> max_bytes c + block_data_size block < 2 ^ 64 ->
  let l := touch_order key (order c) in
  let m := <[key := block]> (map c) in
  insert c key block = evict_to_fit (mk m l (total m l) (max_bytes c) (hits c) (misses c)) /\
  NoDup l /\ (forall k, k ∈ l <-> is_Some (m !! k)).
Proof.
  intros (Hnd & Hdom & Hb & Hm & Hle) Hlt l m.
  pose proof (block_data_size_pos block) as Hpos. pose proof (total_nonneg (map c) (order c)).
  unfold insert. destruct (map c !! key) as [prev|] eqn:Ek;
    cbn [map order current_bytes max_bytes hits misses touch].
  - assert (key ∈ order c) as Hin by (apply Hdom; eauto).
    pose proof (touch_order_perm key (order c) Hin) as P.
    destruct (remove_first_split key (order c) Hin) as (l1 & l2 & Eo & Hn1 & Er).
    assert (key ∉ l1 ++ l2) as Hn.
    { rewrite Eo in Hnd. apply NoDup_app in Hnd as (_ & Hd & Hnd).
      apply NoDup_cons in Hnd as [? _]. intros [?|?]%elem_of_app; [done|done]. }
    assert (total (map c) (order c) = total (map c) (l1 ++ l2) + block_data_size prev) as Ht.
    { rewrite Eo, !total_app. simpl. rewrite Ek. simpl. lia. }
    assert (total m l = total (map c) (l1 ++ l2) + block_data_size block) as Ht'.
    { unfold l, m, touch_order. rewrite Er, total_app, total_insert_other by done. simpl.
      rewrite lookup_insert_eq. simpl. lia. }
    pose proof (total_nonneg (map c) (l1 ++ l2)). pose proof (block_data_size_pos prev).
    split_and!.
    + f_equal. rewrite ?wrap64_mod. rewrite (Z.mod_small (_ - _)) by lia.
      rewrite Z.mod_small by lia. f_equal. lia.
    + unfold l. by rewrite P.
    + intros k. unfold l, m. rewrite P, Hdom, lookup_insert_is_Some.
      destruct (decide (key = k)) as [<-|]; [rewrite Ek|]; split; try tauto; eauto.
  - assert (key ∉ order c) as Hn by (rewrite Hdom, Ek; by intros [? ?]).
    assert (remove_first key (order c) = order c) as Er.
    { clear -Hn. induction (order c) as [|k o IH]; simpl; [done|].
      rewrite decide_False by set_solver. rewrite IH; set_solver. }
    assert (l = order c ++ [key]) as El by (unfold l, touch_order; by rewrite Er).
    rewrite El. split_and!.
    + f_equal. f_equal. unfold m. rewrite total_app, total_insert_other by done. simpl.
      rewrite lookup_insert_eq. simpl.
      rewrite ?wrap64_mod. rewrite Z.mod_small by lia. lia.
    + apply NoDup_app. split_and!; [done|set_solver|apply NoDup_singleton].
    + intros k. unfold m. rewrite lookup_insert_is_Some, <- Hdom, elem_of_app, list_elem_of_singleton.
      destruct (decide (key = k)); naive_solver.
Qed.

(** C34: inserting keeps the cache consistent and evicts what it has to, no more.
    The recency queue lists exactly the resident blocks, the byte count is
    exact and within the bound; the survivors are the most recently used
    blocks, unchanged, with the new block last (a suffix of the queue), and with
    the last block that was dropped they would exceed the bound; so a block
    that fits is resident after its insertion. *)
Theorem cache_insert_spec c key block :
  wf c -> max_bytes c + block_data_size block < 2 ^ 64 ->
  let c' := insert c key block in
  wf c' /\ max_bytes c' = max_bytes c /\
  (exists dropped, touch_order key (order c) = dropped ++ order c' /\
     forall d k, dropped = d ++ [k] -> max_bytes c < total (<[key := block]> (map c)) (k :: order c')) /\
  (forall k, map c' !! k =
     if decide (k ∈ order c') then if decide (k = key) then Some block else map c !! k else None) /\
  (block_data_size block <= max_bytes c -> map c' !! key = Some block /\ last (order c') = Some key).
Proof.
  intros Hwf Hlt c'.
  destruct (insert_before_evict c key block Hwf Hlt) as (E & Hnd & Hdom).
  unfold c'. rewrite E. unfold evict_to_fit. cbn [map order current_bytes max_bytes hits misses].
  destruct (evict _ _ _ _) as [[m' b'] l'] eqn:Ev.
  destruct Hwf as (_ & _ & _ & Hm & _).
  eapply evict_spec in Ev as (Hb & Hle & Hnd' & Hdom' & (dropped & Hd & Hmin) & Hm'); [|done|done|done|lia].
  cbn [map order max_bytes].
  assert (forall k, m' !! k = if decide (k ∈ l') then if decide (k = key) then Some block else map c !! k else None)
    as Hlook.
  { intros k. rewrite Hm'. case_decide; [|done]. rewrite lookup_insert. repeat case_decide; congruence. }
  split; [split_and!; cbn; done || lia|]. split; [done|]. split; [by exists dropped|]. split; [done|].
  intros Hfit. assert (last l' = Some key) as Hlast.
  { destruct l' as [|x l0 _] using rev_ind.
    - rewrite app_nil_r in Hd. specialize (Hmin _ _ (eq_sym Hd)). cbn in Hmin.
      rewrite lookup_insert_eq in Hmin. cbn in Hmin. lia.
    - rewrite last_snoc. unfold touch_order in Hd. rewrite app_assoc in Hd.
      by apply app_inj_tail in Hd as [_ ->]. }
  split; [|done]. rewrite Hlook, decide_True by (by apply last_Some_elem_of). by rewrite decide_True.
Qed.

(** Three blocks of four bytes in a cache of ten: the third evicts the first,
    and only that. *)
Lemma cache_insert_spec_witness :
  let block x := [([x], Value [x; x; x])] in
  let key n := {| table_id := 1; offset := n |} in
  let c := insert (insert (new 10) (key 0) (block x61)) (key 4) (block x62) in
  let c' := insert c (key 8) (block x63) in
  wf c' /\ map c' !! key 8 = Some (block x63) /\ order c' = [key 4; key 8].
Proof.
  cbv zeta. match goal with |- context [wf (insert (insert (insert ?c0 ?k0 ?b0) ?k1 ?b1) ?k2 ?b2)] =>
    destruct (cache_insert_spec c0 k0 b0) as (H0 & _); [by apply new_cache_wf|reflexivity|];
    destruct (cache_insert_spec (insert c0 k0 b0) k1 b1) as (H1 & _); [exact H0|reflexivity|];
    destruct (cache_insert_spec (insert (insert c0 k0 b0) k1 b1) k2 b2) as (H2 & _ & _ & _ & Hfit);
      [exact H1|reflexivity|] end.
  split; [exact H2|]. split; [apply Hfit; vm_compute; discriminate|vm_compute; reflexivity].
Defined.


