(* ===== verification/Format.v ===== *)
(** * The SSTable format ([src/sstable.rs], the encoding functions)

    Data blocks, the index and the footer, as pure functions on bytes; the file
    operations around them are in [SsTables].  The decoding loops recurse on
    fuel, one unit per remaining byte: every iteration consumes at least nine
    bytes (an entry) or twenty (an index row), so it never runs out. *)

From S2P Require Import Prelude Bytes Errors Crc Collections Records Memtable.

Definition MAGIC : Z := 0x4C534D31.
Definition FOOTER_LEN : Z := 48.
Definition FORMAT_VERSION : Z := 1.
Definition TYPE_VALUE : Z := 1.
Definition TYPE_TOMBSTONE : Z := 2.

Record IndexEntry := mkIndexEntry {
  first_key : bytes;
  last_key : bytes;
  ie_offset : Z;
  ie_length : Z;
}.

(** ** Data blocks *)

(** The bytes [encode_entry] appends to the buffer. *)
Definition encode_entry (key : bytes) (entry : Entry) : bytes :=
  match entry with
  | Value value =>
      z2b TYPE_VALUE :: le_bytes 4 (len key) ++ le_bytes 4 (len value) ++ key ++ value
  | Tombstone =>
      z2b TYPE_TOMBSTONE :: le_bytes 4 (len key) ++ le_bytes 4 0 ++ key
  end.

Abbreviation entries := (list (bytes * Entry)).

Definition encode_entries (l : entries) : bytes :=
  concat ((fun '(k, e) => encode_entry k e) <$> l).

(** The bytes [flush_data_block] writes for a body of [count] entries. *)
Definition block_bytes (body : bytes) (count : Z) : bytes :=
  let block := le_bytes 4 count ++ body in
  block ++ le_bytes 4 (crc32 block).

(** The loop of [read_data_block] over the entries. *)
Fixpoint decode_entries (fuel : nat) (count : Z) (rest : bytes) : result entries :=
  if count <=? 0 then Ok []
  else match fuel with
  | O => Panic
  | S fuel' =>
      if len rest =? 0 then Err CorruptedRecord
      else
      let? kind := index rest 0 in
      if len rest <? 9 then Err CorruptedRecord
      else
      let? s := slice rest 1 5 in
      let? key_len := read_u32_le s in
      let? s := slice rest 5 9 in
      let? value_len := read_u32_le s in
      let? rest := slice_from rest 9 in
      if len rest <? key_len + value_len then Err CorruptedRecord
      else
      let? key := slice rest 0 key_len in
      let? rest := slice_from rest key_len in
      let? (entry, rest) :=
        (if b2z kind =? TYPE_VALUE then
           let? value := slice rest 0 value_len in
           let? rest := slice_from rest value_len in
           Ok (Value value, rest)
         else if b2z kind =? TYPE_TOMBSTONE then
           let? rest := slice_from rest value_len in
           Ok (Tombstone, rest)
         else Err CorruptedRecord) in
      let? out := decode_entries fuel' (count - 1) rest in
      Ok ((key, entry) :: out)
  end.

(** [read_data_block] after the bytes were read from the file. *)
Definition decode_block (bs : bytes) : result entries :=
  if len bs <? 8 then Err CorruptedRecord
  else
  let? s := slice_from bs (len bs - 4) in
  let? checksum := read_u32_le s in
  let? body := slice bs 0 (len bs - 4) in
  if negb (crc32 body =? checksum) then Err InvalidChecksum
  else
  let? s := slice body 0 4 in
  let? count := read_u32_le s in
  let? rest := slice_from body 4 in
  decode_entries (S (length rest)) count rest.

(** ** The index *)

Definition encode_index_entry (e : IndexEntry) : bytes :=
  le_bytes 4 (len (first_key e)) ++ first_key e ++
  le_bytes 4 (len (last_key e)) ++ last_key e ++
  le_bytes 8 (ie_offset e) ++ le_bytes 4 (ie_length e).

Definition encode_index (idx : list IndexEntry) : bytes :=
  let buf := le_bytes 4 (len idx) ++ concat (encode_index_entry <$> idx) in
  buf ++ le_bytes 4 (crc32 buf).

Fixpoint decode_index_entries (fuel : nat) (count : Z) (rest : bytes) : result (list IndexEntry) :=
  if count <=? 0 then Ok []
  else match fuel with
  | O => Panic
  | S fuel' =>
      if len rest <? 4 then Err CorruptedRecord
      else
      let? s := slice rest 0 4 in
      let? first_len := read_u32_le s in
      let? rest := slice_from rest 4 in
      if len rest <? first_len + 4 then Err CorruptedRecord
      else
      let? first_key := slice rest 0 first_len in
      let? rest := slice_from rest first_len in
      let? s := slice rest 0 4 in
      let? last_len := read_u32_le s in
      let? rest := slice_from rest 4 in
      if len rest <? last_len + 12 then Err CorruptedRecord
      else
      let? last_key := slice rest 0 last_len in
      let? rest := slice_from rest last_len in
      let? s := slice rest 0 8 in
      let? offset := read_u64_le s in
      let? s := slice rest 8 12 in
      let? length := read_u32_le s in
      let? rest := slice_from rest 12 in
      let? out := decode_index_entries fuel' (count - 1) rest in
      Ok (mkIndexEntry first_key last_key offset length :: out)
  end.

Definition decode_index (bs : bytes) : result (list IndexEntry) :=
  if len bs <? 8 then Err CorruptedRecord
  else
  let? s := slice_from bs (len bs - 4) in
  let? checksum := read_u32_le s in
  let? body := slice bs 0 (len bs - 4) in
  if negb (crc32 body =? checksum) then Err InvalidChecksum
  else
  let? s := slice body 0 4 in
  let? count := read_u32_le s in
  let? rest := slice_from body 4 in
  decode_index_entries (S (length rest)) count rest.

(** ** The footer *)

Definition encode_footer (index_offset index_len bloom_offset bloom_len : Z) : bytes :=
  let footer := le_bytes 8 index_offset ++ le_bytes 8 index_len ++
    le_bytes 8 bloom_offset ++ le_bytes 8 bloom_len ++
    le_bytes 4 FORMAT_VERSION ++ le_bytes 4 0 in
  footer ++ le_bytes 4 (crc32 footer) ++ le_bytes 4 MAGIC.

(** The checks of [SsTable::open] on the footer, up to the four fields. *)
Definition decode_footer (footer : bytes) : result (Z * Z * Z * Z) :=
  let? s := slice footer 44 48 in
  let? magic := read_u32_le s in
  if negb (magic =? MAGIC) then Err CorruptedRecord
  else
  let? s := slice footer 40 44 in
  let? footer_crc := read_u32_le s in
  let? s := slice footer 0 40 in
  if negb (crc32 s =? footer_crc) then Err InvalidChecksum
  else
  let? s := slice footer 32 36 in
  let? version := read_u32_le s in
  if negb (version =? FORMAT_VERSION) then Err CorruptedRecord
  else
  let? s := slice footer 0 8 in
  let? index_offset := read_u64_le s in
  let? s := slice footer 8 16 in
  let? index_len := read_u64_le s in
  let? s := slice footer 16 24 in
  let? bloom_offset := read_u64_le s in
  let? s := slice footer 24 32 in
  let? bloom_len := read_u64_le s in
  Ok (index_offset, index_len, bloom_offset, bloom_len).

(** [search_block]: binary search in a decoded block. *)
Definition search_block (block : entries) (key : bytes) : option Entry :=
  match binary_search_by (fun '(k, _) => bytes_cmp k key) block with
  | Some i => snd <$> block !! i
  | None => None
  end.

(** ** Sizes *)

(** The lengths that the 32-bit fields of an entry can hold. *)
Definition entry_fits (x : bytes * Entry) : Prop :=
  len (fst x) < 2 ^ 32 /\ value_len (snd x) < 2 ^ 32.

Lemma len_encode_entry k e : len (encode_entry k e) = 9 + len k + value_len e.
Proof. destruct e; unfold encode_entry; cbn [value_len]; len_lia. Qed.

Lemma encode_entries_cons k e l : encode_entries ((k, e) :: l) = encode_entry k e ++ encode_entries l.
Proof. done. Qed.

Lemma encode_entries_app l1 l2 : encode_entries (l1 ++ l2) = encode_entries l1 ++ encode_entries l2.
Proof. unfold encode_entries. by rewrite fmap_app, concat_app. Qed.

Lemma len_block_bytes body count : len (block_bytes body count) = 8 + len body.
Proof. unfold block_bytes. len_lia. Qed.

(** ** Round trips *)

Lemma decode_entries_encode l :
  Forall entry_fits l ->
  forall fuel, (length (encode_entries l) < fuel)%nat ->
  decode_entries fuel (len l) (encode_entries l) = Ok l.
Proof.
  induction 1 as [|[k e] l [Hk Hv] Hl IH]; intros fuel Hf.
  { by destruct fuel. }
  cbn [fst snd] in *. rewrite encode_entries_cons in *.
  destruct fuel as [|fuel]; [lia|]. cbn [decode_entries].
  pose proof (len_nonneg l). pose proof (len_encode_entry k e) as Hlen.
  pose proof (len_nonneg k). pose proof (MemTable.value_len_nonneg e).
  rewrite len_cons. case_if; [lia|]. case_if; [len_lia|].
  assert (exists t v, encode_entry k e = t :: le_bytes 4 (len k) ++ le_bytes 4 (len v) ++ k ++ v
    /\ len v = value_len e
    /\ (e = Value v /\ b2z t = TYPE_VALUE \/ e = Tombstone /\ v = [] /\ b2z t = TYPE_TOMBSTONE))
    as (t & v & -> & Hvl & Ht).
  { destruct e as [v|]; [exists (z2b TYPE_VALUE), v|exists (z2b TYPE_TOMBSTONE), []];
      (split_and!; [|done|]); try (by unfold encode_entry; rewrite ?app_nil_r);
      [left|right]; split_and!; done. }
  rewrite <- app_comm_cons, <- !app_assoc. rewrite index_0. rsimpl. case_if; [len_lia|].
  slice_as [t] (le_bytes 4 (len k)). rewrite read_u32_le_bytes by lia. rsimpl.
  slice_as (t :: le_bytes 4 (len k)) (le_bytes 4 (len v)). rewrite read_u32_le_bytes by lia. rsimpl.
  rewrite app_comm_cons, app_assoc. rewrite slice_from_app by len_lia. rsimpl.
  case_if; [len_lia|]. rewrite slice_app_l by done. rsimpl. rewrite slice_from_app by done. rsimpl.
  assert (decode_entries fuel (1 + len l - 1) (encode_entries l) = Ok l) as Hrec.
  { replace (1 + len l - 1) with (len l) by lia. apply IH.
    rewrite length_app in Hf. unfold len in *. lia. }
  destruct Ht as [[-> Ht]|(-> & -> & Ht)]; rewrite Ht; cbn -[decode_entries slice slice_from len].
  - rewrite slice_app_l by done. rsimpl. rewrite slice_from_app by done. rsimpl.
    by rewrite Hrec.
  - rewrite (slice_from_app [] (encode_entries l)) by done. rsimpl. by rewrite Hrec.
Qed.

(** A checksummed buffer is opened by the common prologue of the decoders. *)
Lemma decode_frame {A} (out : bytes) (k : Z -> bytes -> result A) n rest :
  0 <= n < 2 ^ 32 -> out = le_bytes 4 n ++ rest ->
  let bs := out ++ le_bytes 4 (crc32 out) in
  (if len bs <? 8 then Err CorruptedRecord
   else
   let? s := slice_from bs (len bs - 4) in
   let? checksum := read_u32_le s in
   let? body := slice bs 0 (len bs - 4) in
   if negb (crc32 body =? checksum) then Err InvalidChecksum
   else
   let? s := slice body 0 4 in
   let? count := read_u32_le s in
   let? rest := slice_from body 4 in
   k count rest) = k n rest.
Proof.
  intros Hn Ho bs. unfold bs. assert (4 <= len out) by (rewrite Ho; len_lia).
  assert (len (out ++ le_bytes 4 (crc32 out)) - 4 = len out) as -> by len_lia.
  case_if; [len_lia|]. rewrite slice_from_app by done. rsimpl.
  rewrite read_u32_le_bytes by apply crc32_u32. rsimpl. rewrite slice_app_l by done. rsimpl.
  rewrite Z.eqb_refl. cbn [negb]. rewrite Ho. rewrite slice_app_l by len_lia. rsimpl.
  rewrite read_u32_le_bytes by done. rsimpl. by rewrite slice_from_app by len_lia.
Qed.

Lemma decode_block_bytes l :
  Forall entry_fits l -> len l < 2 ^ 32 ->
  decode_block (block_bytes (encode_entries l) (len l)) = Ok l.
Proof.
  intros Hl Hn. unfold decode_block, block_bytes. pose proof (len_nonneg l).
  rewrite (decode_frame _ (fun count rest => decode_entries (S (length rest)) count rest)
    (len l) (encode_entries l)) by (done || lia).
  apply decode_entries_encode; [done|lia].
Qed.

Definition index_fits (e : IndexEntry) : Prop :=
  len (first_key e) < 2 ^ 32 /\ len (last_key e) < 2 ^ 32 /\
  0 <= ie_offset e < 2 ^ 64 /\ u32 (ie_length e).

Lemma len_encode_index_entry e :
  len (encode_index_entry e) = 20 + len (first_key e) + len (last_key e).
Proof. unfold encode_index_entry. len_lia. Qed.

Lemma decode_index_entries_encode idx :
  Forall index_fits idx ->
  forall fuel, (length (concat (encode_index_entry <$> idx)) < fuel)%nat ->
  decode_index_entries fuel (len idx) (concat (encode_index_entry <$> idx)) = Ok idx.
Proof.
  induction 1 as [|e idx (Hf & Hl & Ho & Hn) Hidx IH]; intros fuel Hfuel.
  { by destruct fuel. }
  destruct fuel as [|fuel]; [lia|]. rewrite fmap_cons in *. cbn [concat] in *.
  cbn [decode_index_entries]. pose proof (len_nonneg idx). pose proof (len_encode_index_entry e).
  pose proof (len_nonneg (first_key e)). pose proof (len_nonneg (last_key e)).
  rewrite len_cons. case_if; [lia|]. case_if; [len_lia|]. set (tl := concat _) in *.
  assert (decode_index_entries fuel (1 + len idx - 1) tl = Ok idx) as Hrec.
  { replace (1 + len idx - 1) with (len idx) by lia. apply IH.
    rewrite length_app in Hfuel. unfold len in *. lia. }
  destruct e as [fk lk off n]. cbn [first_key last_key ie_offset ie_length] in *.
  unfold encode_index_entry. cbn [first_key last_key ie_offset ie_length].
  rewrite <- !app_assoc. rewrite slice_app_l by len_lia. rsimpl.
  rewrite read_u32_le_bytes by lia. rsimpl. rewrite slice_from_app by len_lia. rsimpl.
  case_if; [len_lia|]. rewrite slice_app_l by done. rsimpl. rewrite slice_from_app by done. rsimpl.
  rewrite slice_app_l by len_lia. rsimpl. rewrite read_u32_le_bytes by lia. rsimpl.
  rewrite slice_from_app by len_lia. rsimpl. case_if; [len_lia|].
  rewrite slice_app_l by done. rsimpl. rewrite slice_from_app by done. rsimpl.
  rewrite slice_app_l by len_lia. rsimpl. rewrite read_u64_le_bytes by done. rsimpl.
  rewrite slice_app by len_lia. rsimpl. rewrite read_u32_le_bytes by done. rsimpl.
  rewrite app_assoc, slice_from_app by len_lia. rsimpl. by rewrite Hrec.
Qed.

Lemma decode_index_encode idx :
  Forall index_fits idx -> len idx < 2 ^ 32 -> decode_index (encode_index idx) = Ok idx.
Proof.
  intros Hi Hn. unfold decode_index, encode_index. pose proof (len_nonneg idx).
  rewrite (decode_frame _ (fun count rest => decode_index_entries (S (length rest)) count rest)
    (len idx) (concat (encode_index_entry <$> idx))) by (done || lia).
  apply decode_index_entries_encode; [done|lia].
Qed.

Lemma len_encode_footer a b c d : len (encode_footer a b c d) = FOOTER_LEN.
Proof. unfold encode_footer, FOOTER_LEN. len_lia. Qed.

Lemma decode_footer_encode a b c d :
  0 <= a < 2 ^ 64 -> 0 <= b < 2 ^ 64 -> 0 <= c < 2 ^ 64 -> 0 <= d < 2 ^ 64 ->
  decode_footer (encode_footer a b c d) = Ok (a, b, c, d).
Proof.
  intros Ha Hb Hc Hd. unfold decode_footer, encode_footer.
  set (f := le_bytes 8 a ++ _). assert (len f = 40) as Hf by (unfold f; len_lia).
  rewrite (app_assoc f), slice_app_r by len_lia. rsimpl.
  rewrite read_u32_le_bytes by done. rsimpl. cbn [negb MAGIC Z.eqb Pos.eqb].
  rewrite <- app_assoc. rewrite slice_app by len_lia. rsimpl.
  rewrite read_u32_le_bytes by apply crc32_u32. rsimpl.
  rewrite slice_app_l by done. rsimpl. rewrite Z.eqb_refl. cbn [negb].
  unfold f. rewrite <- !app_assoc.
  slice_as (le_bytes 8 a ++ le_bytes 8 b ++ le_bytes 8 c ++ le_bytes 8 d) (le_bytes 4 FORMAT_VERSION).
  rewrite read_u32_le_bytes by done. rsimpl. cbn [negb FORMAT_VERSION Z.eqb Pos.eqb].
  rewrite slice_app_l by len_lia. rsimpl. rewrite read_u64_le_bytes by done. rsimpl.
  slice_as (le_bytes 8 a) (le_bytes 8 b). rewrite read_u64_le_bytes by done. rsimpl.
  slice_as (le_bytes 8 a ++ le_bytes 8 b) (le_bytes 8 c). rewrite read_u64_le_bytes by done. rsimpl.
  slice_as (le_bytes 8 a ++ le_bytes 8 b ++ le_bytes 8 c) (le_bytes 8 d).
  by rewrite read_u64_le_bytes by done.
Qed.

(** ** No decoder panics *)

(** Run the next reader on a slice whose length is known. *)
Ltac step_read :=
  match goal with
  | |- context [read_u32_le ?s] =>
      let z := fresh "z" in let E := fresh "E" in let Hz := fresh "Hz" in
      destruct (read_u32_ok s) as (z & E & Hz); [len_lia|rewrite E; rsimpl]
  | |- context [read_u64_le ?s] =>
      let z := fresh "z" in let E := fresh "E" in let Hz := fresh "Hz" in
      destruct (read_u64_ok s) as (z & E & Hz); [len_lia|rewrite E; rsimpl]
  end.

(** Run the next step of a decoder, whatever its input. *)
Ltac step_safe :=
  unfold slice_from;
  first
  [ match goal with |- context [if _ then Err _ else _] => case_if; [done|] end
  | step_read
  | let s := fresh "s" in let Hs := fresh "Hs" in step_slice s Hs
  ].

Lemma decode_entries_no_panic fuel count rest :
  (length rest < fuel)%nat -> decode_entries fuel count rest <> Panic.
Proof.
  revert count rest. induction fuel as [|fuel IH]; intros count rest Hf; [lia|].
  cbn [decode_entries]. case_if; [done|]. case_if; [done|].
  destruct (index_in_range rest 0) as (kind & -> & _); [len_lia|]. rsimpl.
  do 7 step_safe. do 2 step_safe.
  assert (forall e r, len r <= len rest - 9 ->
    (let? out := decode_entries fuel (count - 1) r in Ok ((s2, e) :: out)) <> Panic) as Hrec.
  { intros e r Hr. pose proof (IH (count - 1) r) as Hn.
    destruct (decode_entries fuel (count - 1) r); try done. by apply Hn; unfold len in *; lia. }
  case_if; [do 2 step_safe; apply Hrec; len_lia|].
  case_if; [step_safe; apply Hrec; len_lia|done].
Qed.

Lemma decode_block_no_panic bs : decode_block bs <> Panic.
Proof.
  unfold decode_block. repeat step_safe. apply decode_entries_no_panic. lia.
Qed.

Lemma decode_index_entries_no_panic fuel count rest :
  (length rest < fuel)%nat -> decode_index_entries fuel count rest <> Panic.
Proof.
  revert count rest. induction fuel as [|fuel IH]; intros count rest Hf; [lia|].
  cbn [decode_index_entries]. case_if; [done|]. repeat step_safe.
  match goal with |- context [decode_index_entries _ _ ?r] => pose proof (IH (count - 1) r) as Hn end.
  destruct (decode_index_entries fuel _ _); try done. apply Hn. unfold len in *. lia.
Qed.

Lemma decode_index_no_panic bs : decode_index bs <> Panic.
Proof.
  unfold decode_index. repeat step_safe. apply decode_index_entries_no_panic. lia.
Qed.

Lemma decode_footer_no_panic bs : len bs = FOOTER_LEN -> decode_footer bs <> Panic.
Proof. intros Hl. unfold FOOTER_LEN in Hl. unfold decode_footer. repeat step_safe. done. Qed.

(** ** Searching a block *)

Lemma ksorted_lookup_lt (l : entries) i j x y :
  ksorted l -> (i < j)%nat -> l !! i = Some x -> l !! j = Some y -> key_lt (fst x) (fst y).
Proof.
  intros Hs Hij Hi Hj. pose proof (list_elem_of_split_length l i x Hi) as (l1 & l2 & -> & ->).
  apply ksorted_app in Hs as (_ & _ & Hs). apply ksorted_cons in Hs as [F _].
  rewrite Forall_forall in F. apply F. rewrite lookup_app_r in Hj by lia.
  destruct (j - length l1)%nat eqn:E; [lia|]. simpl in Hj.
  by apply list_elem_of_lookup_2 in Hj.
Qed.

Lemma block_ordered (l : entries) key :
  ksorted l -> bs_ordered (fun '(k, _) => bytes_cmp k key) l.
Proof.
  intros Hs i j [k1 e1] [k2 e2] Hij Hi Hj.
  pose proof (ksorted_lookup_lt l i j _ _ Hs Hij Hi Hj) as Hlt. simpl in Hlt.
  rewrite !bytes_cmp_gt, !bytes_cmp_lt. split; intros; key_order.
Qed.

(** The search of a sorted block is the lookup of the key. *)
Lemma search_block_lookup (l : entries) key : ksorted l -> search_block l key = alookup l key.
Proof.
  intros Hs. unfold search_block. pose proof (block_ordered l key Hs) as Ho.
  destruct (binary_search_by _ l) as [j|] eqn:E.
  - apply binary_search_by_sound in E as ([k e] & Hj & Hk). apply bytes_cmp_eq in Hk as ->.
    rewrite Hj. simpl. symmetry. apply ksorted_elem_alookup; [done|].
    by eapply list_elem_of_lookup_2.
  - destruct (alookup l key) as [e|] eqn:Ea; [|done].
    apply alookup_Some_elem, list_elem_of_lookup_1 in Ea as [i Hi].
    destruct (binary_search_by_complete (fun '(k, _) => bytes_cmp k key) l i (key, e))
      as (j & y & Hj & _); [done|done|apply bytes_cmp_refl|congruence].
Qed.

(** ** Properties *)

(** A data block decodes to exactly the entries that were written to it, in
    order, tombstones and empty values included, when the lengths fit their
    32-bit fields. *)
Theorem block_roundtrip l :
  Forall entry_fits l -> len l < 2 ^ 32 ->
  decode_block (block_bytes (encode_entries l) (len l)) = Ok l.
Proof. apply decode_block_bytes. Qed.

Lemma block_roundtrip_witness :
  decode_block (block_bytes (encode_entries [([x61], Value [x31]); ([x62], Tombstone)]) 2) =
  Ok [([x61], Value [x31]); ([x62], Tombstone)].
Proof.
  apply (block_roundtrip [([x61], Value [x31]); ([x62], Tombstone)]);
    [repeat constructor; reflexivity|reflexivity].
Defined.

(** The index and the footer decode to what was encoded. *)
Theorem index_footer_roundtrip idx a b c d :
  Forall index_fits idx -> len idx < 2 ^ 32 ->
  0 <= a < 2 ^ 64 -> 0 <= b < 2 ^ 64 -> 0 <= c < 2 ^ 64 -> 0 <= d < 2 ^ 64 ->
  decode_index (encode_index idx) = Ok idx /\
  decode_footer (encode_footer a b c d) = Ok (a, b, c, d).
Proof. intros. split; [by apply decode_index_encode|by apply decode_footer_encode]. Qed.

Lemma index_footer_roundtrip_witness :
  decode_index (encode_index [mkIndexEntry [x61] [x62] 0 30]) = Ok [mkIndexEntry [x61] [x62] 0 30] /\
  decode_footer (encode_footer 30 40 70 20) = Ok (30, 40, 70, 20).
Proof.
  apply index_footer_roundtrip; [|reflexivity|lia..].
  repeat constructor; (reflexivity || (vm_compute; discriminate)).
Defined.

(** The decoders of data blocks, index and footer never panic: every input
    gives a value or an error. *)
Theorem table_decoders_total bs footer :
  len footer = FOOTER_LEN ->
  decode_block bs <> Panic /\ decode_index bs <> Panic /\ decode_footer footer <> Panic.
Proof.
  intros. split_and!;
    auto using decode_block_no_panic, decode_index_no_panic, decode_footer_no_panic.
Qed.

Lemma table_decoders_total_witness :
  decode_block [x00] <> Panic /\ decode_index [x00] <> Panic /\
  decode_footer (replicate 48 x00) <> Panic.
Proof. apply table_decoders_total. reflexivity. Defined.
