(* ===== verification/Names.v ===== *)
(** * File names ([table_file_name] and [tmp_path] of [src/sstable.rs])

    A database lives in one directory, so a path is the name of a file in it.
    Distinct table ids have distinct names, and no table has the name of a
    temporary file, of the log or of the manifest. *)

From stdpp Require Import pretty.
From S2P Require Import Prelude.

(** [format!("{id:06}.sst")]: decimal digits, padded with zeros to six. *)
Definition pad6 (s : string) : string :=
  String.concat "" (replicate (6 - String.length s) "0") +:+ s.

Definition table_file_name (id : Z) : string := pad6 (pretty (Z.to_N id)) +:+ ".sst".

Definition tmp_path (final_path : string) : string := final_path +:+ ".tmp".

(** [str::ends_with]. *)
Definition ends_with (s suffix : string) : bool :=
  let n := String.length s in
  let k := String.length suffix in
  (k <=? n)%nat && bool_decide (String.substring (n - k) k s = suffix).

(** [WAL_FILE_NAME], and the name in [Manifest::open]. *)
Definition WAL_FILE_NAME : string := "wal.log".
Definition MANIFEST_NAME : string := "MANIFEST".

(** ** Suffixes *)

Lemma length_append s t : String.length (s +:+ t) = (String.length s + String.length t)%nat.
Proof. induction s as [|c s IH]; [done|]. exact (f_equal S IH). Qed.

Lemma substring_all t : String.substring 0 (String.length t) t = t.
Proof. induction t as [|c t IH]; [done|]. exact (f_equal (String c) IH). Qed.

Lemma substring_suffix s t : String.substring (String.length s) (String.length t) (s +:+ t) = t.
Proof. induction s; simpl; [apply substring_all|done]. Qed.

Lemma ends_with_app s t u :
  String.length t = String.length u -> ends_with (s +:+ t) u = bool_decide (t = u).
Proof.
  intros Hl. unfold ends_with. rewrite length_append, <- Hl.
  replace (_ <=? _)%nat with true by (symmetry; apply Nat.leb_le; lia).
  replace (_ + _ - _)%nat with (String.length s) by lia. by rewrite substring_suffix.
Qed.

(** ** Decimal names *)

Definition digit (c : Ascii.ascii) : option N :=
  let n := Ascii.N_of_ascii c in
  if ((48 <=? n) && (n <=? 57))%N then Some (n - 48)%N else None.

(** The number that the leading digits of a string spell. *)
Fixpoint number (s : string) (acc : N) : N :=
  match s with
  | EmptyString => acc
  | String c s' => match digit c with Some d => number s' (acc * 10 + d) | None => acc end
  end.

Lemma digit_char n : (n < 10)%N -> digit (pretty_N_char n) = Some n.
Proof.
  intros Hn. destruct n as [|p]; [done|].
  do 4 (destruct p as [p|p|]; try reflexivity; try lia).
Qed.

Lemma pretty_N_go_app x s t : pretty_N_go x s +:+ t = pretty_N_go x (s +:+ t).
Proof.
  revert s. induction (N.lt_wf_0 x) as [x _ IH]; intros s.
  destruct (decide (x = 0)%N) as [->|]; [by rewrite !pretty_N_go_0|].
  rewrite !(pretty_N_go_step x) by lia. apply (IH (x / 10)%N). apply N.div_lt; lia.
Qed.

Lemma number_go x s : number (pretty_N_go x s) 0 = number s x.
Proof.
  revert s. induction (N.lt_wf_0 x) as [x _ IH]; intros s.
  destruct (decide (x = 0)%N) as [->|]; [by rewrite pretty_N_go_0|].
  rewrite pretty_N_go_step by lia. rewrite IH by (apply N.div_lt; lia).
  cbn [number]. rewrite digit_char by (apply N.mod_lt; done).
  f_equal. rewrite (N.div_mod x 10) at 3 by done. lia.
Qed.

Lemma number_pretty (n : N) t : number (pretty n +:+ ("." +:+ t)) 0 = n.
Proof.
  unfold pretty, pretty_N. case_decide as Hn; [by subst|].
  rewrite pretty_N_go_app, number_go. done.
Qed.

Lemma number_zeros k s : number (String.concat "" (replicate k "0") +:+ s) 0 = number s 0.
Proof.
  induction k as [|k IH]; [done|]. cbn [replicate]. destruct k; [done|]. exact IH.
Qed.

Lemma append_assoc (s t u : string) : (s +:+ t) +:+ u = s +:+ (t +:+ u).
Proof. induction s as [|c s IH]; [done|]. exact (f_equal (String c) IH). Qed.

(** A file name determines the id of its table. *)
Lemma table_file_name_number id : 0 <= id -> number (table_file_name id) 0 = Z.to_N id.
Proof.
  intros Hid. unfold table_file_name, pad6. rewrite append_assoc, number_zeros.
  apply number_pretty.
Qed.

Lemma table_file_name_inj i j :
  0 <= i -> 0 <= j -> table_file_name i = table_file_name j -> i = j.
Proof.
  intros Hi Hj E%(f_equal (fun s => number s 0)).
  rewrite !table_file_name_number in E by done. lia.
Qed.

(** ** Names never clash *)

Lemma table_not_tmp id : ends_with (table_file_name id) ".tmp" = false.
Proof. unfold table_file_name. by rewrite ends_with_app. Qed.

Lemma tmp_is_tmp p : ends_with (tmp_path p) ".tmp" = true.
Proof. unfold tmp_path. by rewrite ends_with_app. Qed.

Lemma table_neq_tmp id p : table_file_name id <> tmp_path p.
Proof. intros E. pose proof (table_not_tmp id). by rewrite E, tmp_is_tmp in *. Qed.

Lemma table_is_sst id : ends_with (table_file_name id) ".sst" = true.
Proof. unfold table_file_name. by rewrite ends_with_app. Qed.

Lemma table_neq_wal id : table_file_name id <> WAL_FILE_NAME.
Proof. intros E. pose proof (table_is_sst id). by rewrite E in *. Qed.

Lemma table_neq_manifest id : table_file_name id <> MANIFEST_NAME.
Proof. intros E. pose proof (table_is_sst id). by rewrite E in *. Qed.

Lemma tmp_neq_wal p : tmp_path p <> WAL_FILE_NAME.
Proof. intros E. pose proof (tmp_is_tmp p). by rewrite E in *. Qed.

Lemma tmp_neq_manifest p : tmp_path p <> MANIFEST_NAME.
Proof. intros E. pose proof (tmp_is_tmp p). by rewrite E in *. Qed.

Create HintDb names.
#[export] Hint Resolve table_neq_tmp table_neq_wal table_neq_manifest tmp_neq_wal
  tmp_neq_manifest not_eq_sym : names.
