(* ===== verification/SsTables.v ===== *)
(** * Sorted string tables ([src/sstable.rs], the files)

    [SsTable.create] writes a table to a temporary file, syncs it and renames
    it; [SsTable.open] reads the footer, the index and the Bloom filter back;
    [SsTable.get] searches one block, through the cache when one is given; and
    [SsTableIterator] streams the entries.  The state of [get] is the cache and
    the world.  The iterator's loop over empty blocks has one unit of fuel per
    remaining block, plus one. *)

From S2P Require Import Prelude Bytes Errors Crc Collections Records World.
From S2P Require Import Memtable Bloom Cache Format Names.

Module SsTable.

Record t := mk {
  id : Z;
  path : string;
  idx : list IndexEntry;
  bloom : BloomFilter.t;
  smallest : bytes;
  largest : bytes;
  size_bytes : Z;
  level : Z;
}.

(** ** Writing *)

(** The variables of the loop of [create]. *)
Record builder := mkBuilder {
  b_index : list IndexEntry;
  b_buf : bytes;
  b_first : option bytes;
  b_last : bytes;
  b_count : Z;
  b_offset : Z;
}.

Definition flush_data_block (file : string) (body : bytes) (count : Z) : M World Z :=
  let block := block_bytes body count in
  let! _ := write_all file block in
  mret (wrap32 (len block)).

(** Write the pending block, push its index row and start the next one. *)
Definition flush_block (file : string) (b : builder) : M World builder :=
  let! length := flush_data_block file (b_buf b) (b_count b) in
  let entry := mkIndexEntry (default [] (b_first b)) (b_last b) (b_offset b) length in
  mret (mkBuilder (b_index b ++ [entry]) [] None [] 0 (wrap64 (b_offset b + length))).

(** One iteration of the loop over the sorted entries. *)
Definition add_entry (file : string) (block_size : Z) (b : builder) (x : bytes * Entry)
    : M World builder :=
  let '(key, entry) := x in
  let b := mkBuilder (b_index b) (b_buf b ++ encode_entry key entry)
    (match b_first b with None => Some key | Some k => Some k end)
    key (wrap32 (b_count b + 1)) (b_offset b) in
  if (block_size <=? len (b_buf b)) && (0 <? b_count b) then flush_block file b
  else mret b.

Fixpoint add_entries (file : string) (block_size : Z) (b : builder) (l : entries)
    : M World builder :=
  match l with
  | [] => mret b
  | x :: l' => let! b := add_entry file block_size b x in add_entries file block_size b l'
  end.

Definition key_sort (l : entries) : entries := sort_by (fun a b => key_leb a.1 b.1) l.

Definition create `{Libm} (final_path : string) (id : Z) (l : entries)
    (bloom_fp : f64) (block_size : Z) : M World t :=
  let tmp := tmp_path final_path in
  let! fail := failpoints.should_fail SsTableWrite in
  if (fail : bool) then merr (injected "injected SSTable write failure")
  else
  let collected := key_sort l in
  let! bloom := mlift (BloomFilter.insert_all
    (BloomFilter.new (Z.max (len collected) 1) bloom_fp) (collected.*1)) in
  let! _ := open_truncate tmp in
  let! b := add_entries tmp block_size (mkBuilder [] [] None [] 0 0) collected in
  let! b := if (0 <? b_count b) || (len (b_index b) =? 0) then flush_block tmp b else mret b in
  let index_offset := b_offset b in
  let index_bytes := encode_index (b_index b) in
  let! _ := write_all tmp index_bytes in
  let index_len := len index_bytes in
  let bloom_offset := wrap64 (index_offset + index_len) in
  let bloom_bytes := BloomFilter.encode bloom in
  let! _ := write_all tmp bloom_bytes in
  let bloom_len := len bloom_bytes in
  let! _ := write_all tmp (encode_footer index_offset index_len bloom_offset bloom_len) in
  let! fail := failpoints.should_fail SsTableSync in
  if (fail : bool) then merr (injected "injected SSTable sync failure")
  else
  let! _ := sync_all tmp in
  let! fail := failpoints.should_fail Rename in
  if (fail : bool) then merr (injected "injected rename failure")
  else
  let! _ := rename tmp final_path in
  let! _ := sync_dir in
  let! size_bytes := file_len final_path in
  mret (mk id final_path (b_index b) bloom
    (default [] (fst <$> head collected)) (default [] (fst <$> last collected)) size_bytes 0).

(** ** Opening *)

Definition open (p : string) (id : Z) : M World t :=
  if ends_with p ".tmp" then merr CorruptedRecord
  else
  let! _ := open_read p in
  let! size_bytes := file_len p in
  if size_bytes <? FOOTER_LEN then merr CorruptedRecord
  else
  let! footer := read_exact p (size_bytes - FOOTER_LEN) FOOTER_LEN in
  let! (index_offset, index_len, bloom_offset, bloom_len) := mlift (decode_footer footer) in
  if (u64_max <? index_offset + index_len) || (size_bytes <? index_offset + index_len)
     || (u64_max <? bloom_offset + bloom_len) || (size_bytes <? bloom_offset + bloom_len)
  then merr CorruptedRecord
  else
  let! index_bytes := read_exact p index_offset index_len in
  let! index := mlift (decode_index index_bytes) in
  let! bloom_bytes := read_exact p bloom_offset bloom_len in
  let! bloom := mlift (BloomFilter.decode bloom_bytes) in
  mret (mk id p index bloom
    (default [] (first_key <$> head index)) (default [] (last_key <$> last index)) size_bytes 0).

Definition set_level (level : Z) (self : t) : t :=
  mk (id self) (path self) (idx self) (bloom self) (smallest self) (largest self)
     (size_bytes self) level.

(** ** Reading *)

Definition contains_range (self : t) (key : bytes) : bool :=
  if (len (smallest self) =? 0) && (len (largest self) =? 0) && (len (idx self) =? 1) then false
  else key_leb (smallest self) key && key_leb key (largest self).

Definition bloom_might_contain (self : t) (key : bytes) : result bool :=
  BloomFilter.might_contain (bloom self) key.

Definition block_for_key (self : t) (key : bytes) : option nat :=
  binary_search_by (fun entry =>
    if key_ltb key (first_key entry) then Gt
    else if key_ltb (last_key entry) key then Lt
    else Eq) (idx self).

Definition read_data_block (p : string) (offset length : Z) : M World entries :=
  let! _ := open_read p in
  let! bs := read_exact p offset length in
  mlift (decode_block bs).

(** The state of a read: the cache and the world. *)
Abbreviation CW := (BlockCache.t * World)%type.

Definition on_world {A} (m : M World A) : M CW A :=
  mzoom snd (fun w cw => (fst cw, w)) m.
Definition cache_get (key : BlockKey) : M CW (option BlockData) := fun cw =>
  let '(r, c) := BlockCache.get (fst cw) key in (Ok r, (c, snd cw)).
Definition cache_insert (key : BlockKey) (block : BlockData) : M CW unit := fun cw =>
  (Ok tt, (BlockCache.insert (fst cw) key block, snd cw)).

Definition load_block (self : t) (i : nat) (cache : bool) : M CW BlockData :=
  let! entry := mlift (or_panic (idx self !! i)) in
  let key := {| table_id := id self; offset := ie_offset entry |} in
  let! cached := if cache then cache_get key else mret None in
  match cached with
  | Some block => mret block
  | None =>
      let! block := on_world (read_data_block (path self) (ie_offset entry) (ie_length entry)) in
      let! _ := if cache then cache_insert key block else mret tt in
      mret block
  end.

Definition get (self : t) (key : bytes) (cache : bool) : M CW (option Entry) :=
  if negb (contains_range self key) then mret None
  else
  let! might := mlift (BloomFilter.might_contain (bloom self) key) in
  if negb might then mret None
  else
  match block_for_key self key with
  | None => mret None
  | Some block_idx =>
      let! block := load_block self block_idx cache in
      mret (search_block block key)
  end.

End SsTable.

(** ** The iterator *)
Module SsTableIterator.

Record t := mk {
  path : string;
  idx : list IndexEntry;
  block_idx : Z;
  entry_idx : Z;
  current : entries;
}.

(** [self] after the call, also when the read fails. *)
Definition load_next_block (self : t) : M World (result unit * t) :=
  let self := mk (path self) (idx self) (block_idx self) 0 [] in
  if len (idx self) <=? block_idx self then mret (Ok tt, self)
  else
  let! entry := mlift (index (idx self) (block_idx self)) in
  fun w =>
    match SsTable.read_data_block (path self) (ie_offset entry) (ie_length entry) w with
    | (Ok current, w) =>
        (Ok (Ok tt, mk (path self) (idx self) (block_idx self + 1) 0 current), w)
    | (Err e, w) => (Ok (Err e, self), w)
    | (Panic, w) => (Panic, w)
    end.

Definition new (table : SsTable.t) : M World t :=
  let! (r, self) := load_next_block (mk (SsTable.path table) (SsTable.idx table) 0 0 []) in
  let! _ := mlift r in
  mret self.

(** [Iterator::next]: the item, and the iterator after the call. *)
Fixpoint next_loop (fuel : nat) (self : t) : M World (option (result (bytes * Entry)) * t) :=
  match fuel with
  | O => mlift Panic
  | S fuel' =>
      if entry_idx self <? len (current self) then
        let! item := mlift (index (current self) (entry_idx self)) in
        mret (Some (Ok item),
              mk (path self) (idx self) (block_idx self) (entry_idx self + 1) (current self))
      else if len (idx self) <=? block_idx self then mret (None, self)
      else
        let! (r, self) := load_next_block self in
        match r with
        | Ok _ => next_loop fuel' self
        | Err e => mret (Some (Err e), self)
        | Panic => mlift Panic
        end
  end.

Definition next (self : t) : M World (option (result (bytes * Entry)) * t) :=
  next_loop (S (S (length (idx self)))) self.

End SsTableIterator.
