(* ===== verification/TableWrite.v ===== *)
(** * Writing and opening tables: proofs

    The content of a table file is described by the list of its data blocks:
    [data_bytes], [index_of] and [table_bytes] say what the file holds for given
    blocks.  [wp_create] shows that [SsTable.create] produces such a file, synced,
    under its final name, and that a failure leaves every file but the temporary
    one alone; [wp_open] that [SsTable.open] reads it back. *)

From S2P Require Import Prelude Bytes Errors Crc Collections Records World.
From S2P Require Import Memtable Bloom Cache Format Names SsTables.

(** ** The content of a table file *)

Definition data_block (b : entries) : bytes := block_bytes (encode_entries b) (len b).

Definition data_bytes (bs : list entries) : bytes := concat (data_block <$> bs).

Definition block_row (off : Z) (b : entries) : IndexEntry :=
  mkIndexEntry (default [] (fst <$> head b)) (default [] (fst <$> last b)) off (len (data_block b)).

(** The index of the blocks [bs], the first of which is at [off]. *)
Fixpoint index_of (off : Z) (bs : list entries) : list IndexEntry :=
  match bs with
  | [] => []
  | b :: bs' => block_row off b :: index_of (off + len (data_block b)) bs'
  end.

Definition table_bytes (bs : list entries) (f : BloomFilter.t) : bytes :=
  let d := data_bytes bs in
  let i := encode_index (index_of 0 bs) in
  let b := BloomFilter.encode f in
  d ++ i ++ b ++ encode_footer (len d) (len i) (len d + len i) (len b).

(** Blocks are not empty, but for the single block of an empty table. *)
Definition blocks_ok (bs : list entries) : Prop :=
  (bs <> [] /\ Forall (fun b => b <> []) bs) \/ bs = [[]].

(** The sizes [Engine] lets through. *)
Definition entry_ok (x : bytes * Entry) : Prop :=
  len (fst x) <= MAX_KEY_SIZE /\ value_len (snd x) <= MAX_VALUE_SIZE.

#[global] Instance entry_ok_dec x : Decision (entry_ok x).
Proof. unfold entry_ok. apply _. Defined.

(** ** Sizes *)

Lemma entry_ok_fits x : entry_ok x -> entry_fits x.
Proof. unfold entry_ok, entry_fits, MAX_KEY_SIZE, MAX_VALUE_SIZE. lia. Qed.

Lemma len_encode_entries_bound l : Forall entry_ok l -> len (encode_entries l) <= 2 ^ 27 * len l.
Proof.
  induction 1 as [|[k e] l [Hk He] Hl IH]; [done|].
  rewrite encode_entries_cons, len_app, len_encode_entry, len_cons.
  unfold MAX_KEY_SIZE, MAX_VALUE_SIZE in *. simpl in *. lia.
Qed.

Lemma len_data_block b : len (data_block b) = 8 + len (encode_entries b).
Proof. apply len_block_bytes. Qed.

Lemma data_bytes_cons b bs : data_bytes (b :: bs) = data_block b ++ data_bytes bs.
Proof. done. Qed.

Lemma data_bytes_app bs1 bs2 : data_bytes (bs1 ++ bs2) = data_bytes bs1 ++ data_bytes bs2.
Proof. unfold data_bytes. by rewrite fmap_app, concat_app. Qed.

Lemma data_bytes_snoc bs b : data_bytes (bs ++ [b]) = data_bytes bs ++ data_block b.
Proof. rewrite data_bytes_app. unfold data_bytes at 2. simpl. by rewrite app_nil_r. Qed.

Lemma len_data_bytes bs :
  len (data_bytes bs) = 8 * len bs + len (encode_entries (concat bs)).
Proof.
  induction bs as [|b bs IH]; [done|]. rewrite data_bytes_cons. cbn [concat].
  rewrite encode_entries_app, len_cons, !len_app, len_data_block, IH. lia.
Qed.

Lemma len_nonempty_blocks bs : Forall (fun b : entries => b <> []) bs -> len bs <= len (concat bs).
Proof.
  induction 1 as [|b bs Hb Hbs IH]; [done|]. cbn [concat]. rewrite len_cons, len_app.
  destruct b; [done|]. len_lia.
Qed.

Lemma blocks_ok_len bs : blocks_ok bs -> len bs <= 1 + len (concat bs).
Proof.
  intros [[_ H]| ->]; [|done]. pose proof (len_nonempty_blocks bs H). lia.
Qed.

Lemma blocks_ok_nonnil bs : blocks_ok bs -> bs <> [].
Proof. by intros [[? _]| ->]. Qed.

Section bounded.
Context (bs : list entries).
Hypothesis Hok : Forall entry_ok (concat bs).
Hypothesis Hb : blocks_ok bs.
Hypothesis Hlen : len (concat bs) < 2 ^ 30.

Lemma len_data_bytes_bound : len (data_bytes bs) < 2 ^ 60.
Proof using Hok Hb Hlen.
  rewrite len_data_bytes. pose proof (blocks_ok_len bs Hb).
  pose proof (len_encode_entries_bound _ Hok). lia.
Qed.

End bounded.

(** A written block: not empty, and its length fits the index. *)
Definition block_fits (b : entries) : Prop := b <> [] /\ len (data_block b) < 2 ^ 32.

Lemma block_fits_nonempty bs : Forall block_fits bs -> Forall (fun b => b <> []) bs.
Proof. intros H. eapply Forall_impl; [done|]. by intros b [? _]. Qed.

(** ** The index of the blocks *)

Lemma index_of_app off bs1 bs2 :
  index_of off (bs1 ++ bs2) = index_of off bs1 ++ index_of (off + len (data_bytes bs1)) bs2.
Proof.
  revert off. induction bs1 as [|b bs1 IH]; intros off; simpl.
  { unfold data_bytes. simpl. by rewrite len_nil, Z.add_0_r. }
  rewrite IH, data_bytes_cons, len_app. do 3 f_equal. lia.
Qed.

Lemma len_index_of off bs : len (index_of off bs) = len bs.
Proof. revert off. induction bs as [|b bs IH]; intros off; simpl; [done|]. by rewrite !len_cons, IH. Qed.

Lemma length_index_of off bs : length (index_of off bs) = length bs.
Proof. pose proof (len_index_of off bs). unfold len in *. lia. Qed.

(** The row of block [b] gives its place in the file. *)
Lemma index_of_lookup off bs i b :
  bs !! i = Some b ->
  exists bs1 bs2, bs = bs1 ++ b :: bs2 /\ length bs1 = i /\
    index_of off bs !! i = Some (block_row (off + len (data_bytes bs1)) b).
Proof.
  intros Hi. destruct (list_elem_of_split_length bs i b Hi) as (bs1 & bs2 & -> & ->).
  exists bs1, bs2. split_and!; [done|done|].
  rewrite index_of_app, lookup_app_r by (by rewrite length_index_of).
  by rewrite length_index_of, Nat.sub_diag.
Qed.

Lemma index_of_lookup_inv off bs i e :
  index_of off bs !! i = Some e ->
  exists bs1 b bs2, bs = bs1 ++ b :: bs2 /\ length bs1 = i /\
    e = block_row (off + len (data_bytes bs1)) b.
Proof.
  intros He. destruct (lookup_lt_is_Some_2 bs i) as [b Hb].
  { rewrite <- (length_index_of off). by eapply lookup_lt_Some. }
  destruct (index_of_lookup off bs i b Hb) as (bs1 & bs2 & Hs & Hl & He').
  exists bs1, b, bs2. split_and!; [done|done|congruence].
Qed.

(** ** Building the data blocks *)

Import SsTable.

(** The loop variables after the blocks [done] were written, with the entries
    [cur] pending. *)
Definition builder_of (done : list entries) (cur : entries) : builder :=
  mkBuilder (index_of 0 done) (encode_entries cur) (fst <$> head cur)
    (default [] (fst <$> last cur)) (len cur) (len (data_bytes done)).

Section building.
Context (file : string) (dur : bytes) (fs : gmap string File) (block_size : Z).
Implicit Types (w : World) (E : Error -> World -> Prop).

(** The file being written holds [bs], and the other files are those of [fs]. *)
Definition writing (bs : bytes) w : Prop := w_files w = <[file := mkFile bs dur]> fs.

(** A failure leaves something in the file being written, and nothing else. *)
Definition abandoned w : Prop := exists bs, writing bs w.

Lemma wp_writing bs bs' (Q : unit -> World -> Prop) E w :
  writing bs w ->
  (forall w', writing (bs ++ bs') w' -> (quiet w -> quiet w') -> Q tt w') ->
  (forall w', abandoned w' -> ~ quiet w -> E device_error w') ->
  wp (write_all file bs') Q E w.
Proof.
  unfold writing. intros Hw HQ HE. eapply wp_write_all; [by rewrite Hw, lookup_insert_eq| |].
  - intros w' Hw'. apply HQ. by rewrite Hw', Hw, insert_insert_eq.
  - intros k w' _ Hw'. apply HE. exists (bs ++ k). unfold writing.
    by rewrite Hw', Hw, insert_insert_eq.
Qed.

Lemma wp_flush_block done cur (Q : builder -> World -> Prop) E w :
  writing (data_bytes done) w ->
  len (data_block cur) < 2 ^ 32 -> len (data_bytes (done ++ [cur])) < 2 ^ 64 ->
  (forall w', writing (data_bytes (done ++ [cur])) w' -> (quiet w -> quiet w') ->
     Q (builder_of (done ++ [cur]) []) w') ->
  (forall w', abandoned w' -> ~ quiet w -> E device_error w') ->
  wp (flush_block file (builder_of done cur)) Q E w.
Proof.
  intros Hw H32 H64 HQ HE. unfold flush_block, flush_data_block. cbn [builder_of b_buf b_count].
  fold (data_block cur). apply wp_bind, wp_bind. eapply wp_writing; [done| |done].
  intros w1 Hw1 Hq1. rewrite <- data_bytes_snoc in Hw1. apply wp_ret, wp_ret. cbn [b_index b_first b_last b_offset builder_of].
  rewrite data_bytes_snoc in H64. pose proof (len_nonneg (data_block cur)).
  pose proof (len_nonneg (data_bytes done)). rewrite len_app in H64.
  unfold wrap32. rewrite ?wrap64_mod. rewrite (Z.mod_small (len (data_block cur))) by lia.
  rewrite Z.mod_small by lia.
  replace (mkBuilder _ _ _ _ _ _) with (builder_of (done ++ [cur]) []); [by apply HQ|].
  unfold builder_of. rewrite index_of_app, data_bytes_snoc, len_app. done.
Qed.

(** The blocks written so far and the pending entries are the entries seen. *)
Definition building (seen : entries) (b : builder) w : Prop :=
  exists done cur, b = builder_of done cur /\ seen = concat done ++ cur /\
    Forall block_fits done /\ writing (data_bytes done) w /\
    (cur = [] \/ len (encode_entries cur) < block_size).

Hypothesis Hbs : 0 <= block_size <= 2 ^ 31.

(** The pending block fits its length field, the file its offsets. *)
Lemma pending_bounds done cur :
  Forall entry_ok (concat done ++ cur) -> len (concat done ++ cur) < 2 ^ 30 ->
  Forall block_fits done ->
  len (encode_entries cur) <= block_size + 2 ^ 27 ->
  len (data_block cur) < 2 ^ 32 /\ len (data_bytes (done ++ [cur])) < 2 ^ 64.
Proof using Hbs.
  intros Hok Hlen Hne Hcur. rewrite data_bytes_snoc, len_app, len_data_bytes, len_data_block.
  pose proof (len_nonempty_blocks done (block_fits_nonempty _ Hne)). apply Forall_app in Hok as [Hd Hc].
  pose proof (len_encode_entries_bound _ Hd). pose proof (len_encode_entries_bound _ Hc).
  rewrite len_app in Hlen. pose proof (len_nonneg cur). pose proof (len_nonneg (concat done)). lia.
Qed.

Lemma pending_step cur x :
  (cur = [] \/ len (encode_entries cur) < block_size) -> entry_ok x ->
  len (encode_entries (cur ++ [x])) <= block_size + 2 ^ 27.
Proof using Hbs.
  intros Hcur Hx. rewrite encode_entries_app, len_app.
  assert (Forall entry_ok [x]) as He%len_encode_entries_bound by auto.
  rewrite len_cons, len_nil in He. destruct Hcur as [->|]; [|lia].
  unfold encode_entries at 1. simpl. rewrite len_nil. lia.
Qed.

(** Adding an entry to the pending block. *)
Lemma builder_of_snoc done cur key e :
  len cur < 2 ^ 30 ->
  mkBuilder (index_of 0 done) (encode_entries cur ++ encode_entry key e)
    (match fst <$> head cur with None => Some key | Some k => Some k end) key
    (wrap32 (len cur + 1)) (len (data_bytes done)) = builder_of done (cur ++ [(key, e)]).
Proof.
  intros Hl. unfold builder_of. rewrite encode_entries_app, last_snoc.
  replace (wrap32 (len cur + 1)) with (len (cur ++ [(key, e)])).
  2: { unfold wrap32. rewrite Z.mod_small; len_lia. }
  unfold encode_entries at 3. simpl. rewrite app_nil_r. f_equal. by destruct cur as [|[]].
Qed.

Lemma wp_add_entry seen x b (Q : builder -> World -> Prop) E w :
  building seen b w -> Forall entry_ok (seen ++ [x]) -> len (seen ++ [x]) < 2 ^ 30 ->
  (forall b' w', building (seen ++ [x]) b' w' -> (quiet w -> quiet w') -> Q b' w') ->
  (forall w', abandoned w' -> ~ quiet w -> E device_error w') ->
  wp (add_entry file block_size b x) Q E w.
Proof using Hbs.
  intros (done & cur & -> & -> & Hne & Hw & Hcur) Hok Hlen HQ HE.
  destruct x as [key e]. unfold add_entry.
  cbn [builder_of b_index b_buf b_first b_last b_count b_offset].
  pose proof (builder_of_snoc done cur key e ltac:(len_lia)) as Hs. rewrite Hs.
  pose proof (f_equal b_buf Hs) as Hs1. pose proof (f_equal b_count Hs) as Hs2.
  cbn [builder_of b_buf b_count] in Hs1, Hs2. rewrite Hs1, Hs2. clear Hs Hs1 Hs2.
  set (cur' := cur ++ [(key, e)]).
  assert (Forall entry_ok [(key, e)]) as Hx by (by apply Forall_app in Hok as [_ ?]).
  pose proof (pending_step cur (key, e) Hcur (proj1 (Forall_singleton _ _) Hx)) as Hb.
  rewrite <- app_assoc in Hok, Hlen, HQ. fold cur' in Hok, Hlen, HQ, Hb.
  assert (cur' <> []) by (unfold cur'; by destruct cur).
  destruct (pending_bounds done cur' Hok Hlen Hne Hb) as [H32 H64].
  case_if.
  - eapply wp_flush_block; [done..| |done]. intros w' Hw' Hq. apply HQ; [|done].
    exists (done ++ [cur']), []. split_and!; [done| | |done|by left].
    + by rewrite concat_app, app_nil_r; simpl; rewrite app_nil_r.
    + by apply Forall_app; split; [|constructor].
  - apply wp_ret, HQ; [|done]. exists done, cur'. split_and!; [done|done|done|done|].
    right. apply andb_false_iff in E0 as [E0|E0]; reflect_bools; [done|].
    unfold cur' in E0. len_lia.
Qed.

Lemma wp_add_entries l seen b (Q : builder -> World -> Prop) E w :
  building seen b w -> Forall entry_ok (seen ++ l) -> len (seen ++ l) < 2 ^ 30 ->
  (forall b' w', building (seen ++ l) b' w' -> (quiet w -> quiet w') -> Q b' w') ->
  (forall e w', abandoned w' -> ~ quiet w -> E e w') ->
  wp (add_entries file block_size b l) Q E w.
Proof using Hbs.
  revert seen b w. induction l as [|x l IH]; intros seen b w Hb Hok Hlen HQ HE; cbn [add_entries].
  { apply wp_ret, HQ; [|done]. by rewrite app_nil_r. }
  rewrite cons_middle, app_assoc in *. apply wp_bind.
  eapply wp_add_entry; [done| | | |by eauto].
  - by apply Forall_app in Hok as [? _].
  - len_lia.
  - intros b' w' Hb' Hq. apply (IH (seen ++ [x])); [done|done|done| |].
    + intros b'' w'' Hb'' Hq'. apply HQ; [done|tauto].
    + intros e w'' Ha Hn. apply HE; [done|tauto].
Qed.

(** The last block, which is empty only for an empty table. *)
Lemma wp_finish_blocks seen b (Q : builder -> World -> Prop) E w :
  building seen b w -> Forall entry_ok seen -> len seen < 2 ^ 30 ->
  (forall bs w', concat bs = seen -> blocks_ok bs ->
     Forall (fun b => len (data_block b) < 2 ^ 32) bs ->
     writing (data_bytes bs) w' -> (quiet w -> quiet w') -> Q (builder_of bs []) w') ->
  (forall w', abandoned w' -> ~ quiet w -> E device_error w') ->
  wp (if (0 <? b_count b) || (len (b_index b) =? 0) then flush_block file b else mret b) Q E w.
Proof using Hbs.
  intros (done & cur & -> & -> & Hne & Hw & Hcur) Hok Hlen HQ HE.
  assert (Forall (fun b => len (data_block b) < 2 ^ 32) done) as H32.
  { eapply Forall_impl; [done|]. by intros b [_ ?]. }
  assert (len (encode_entries cur) <= block_size + 2 ^ 27) as Hb.
  { destruct Hcur as [->|?]; [|lia]. unfold encode_entries. simpl. rewrite len_nil. lia. }
  destruct (pending_bounds done cur Hok Hlen Hne Hb) as [Hc32 H64].
  cbn [builder_of b_count b_index]. rewrite len_index_of. case_if.
  - eapply wp_flush_block; [done..| |done]. intros w' Hw' Hq. apply HQ; [| | |done|done].
    + rewrite concat_app. simpl. by rewrite app_nil_r.
    + destruct cur as [|x cur'].
      * apply orb_true_iff in E0 as [E0|E0]; reflect_bools; [len_lia|].
        apply len_0_nil in E0 as ->. by right.
      * left. split; [by destruct done|]. apply Forall_app.
        split; [by apply block_fits_nonempty|by repeat constructor].
    + by apply Forall_app; split; [|constructor].
  - reflect_bools. destruct cur as [|x cur']; [|len_lia]. rewrite app_nil_r in *.
    apply wp_ret, HQ; [done| |done|done|done].
    left. split; [by intros ->|by apply block_fits_nonempty].
Qed.

End building.

(** ** Tables *)

(** What the writer guarantees about the blocks and the filter of a table. *)
Record table_wf (bs : list entries) (f : BloomFilter.t) : Prop := {
  tw_sorted : ksorted (concat bs);
  tw_blocks : blocks_ok bs;
  tw_entries : Forall entry_ok (concat bs);
  tw_len : len (concat bs) < 2 ^ 30;
  tw_sizes : Forall (fun b => len (data_block b) < 2 ^ 32) bs;
  tw_filter : encodable f;
  tw_keys : forall k, k ∈ (concat bs).*1 -> BloomFilter.has f k;
}.

(** The handle of the table with these blocks. *)
Definition table_of (p : string) (id : Z) (bs : list entries) (f : BloomFilter.t) : t :=
  mk id p (index_of 0 bs) f (default [] (fst <$> head (concat bs)))
     (default [] (fst <$> last (concat bs))) (len (table_bytes bs f)) 0.

Lemma head_elem {A} (l : list A) x : head l = Some x -> x ∈ l.
Proof. destruct l; [done|]. intros [= ->]. by left. Qed.

Lemma last_elem {A} (l : list A) x : last l = Some x -> x ∈ l.
Proof. intros [l' ->]%last_Some. set_solver. Qed.

(** A key taken from the entries, or the empty key. *)
Lemma entry_key_bound (l : entries) (o : option (bytes * Entry)) :
  Forall entry_ok l -> (forall x, o = Some x -> x ∈ l) ->
  len (default [] (fst <$> o)) <= MAX_KEY_SIZE.
Proof.
  intros Hl Ho. destruct o as [x|]; [|done]. rewrite Forall_forall in Hl.
  by destruct (Hl x (Ho x eq_refl)).
Qed.

Lemma block_row_bound off b :
  Forall entry_ok b -> len (encode_index_entry (block_row off b)) <= 2 ^ 18.
Proof.
  intros Hb. rewrite len_encode_index_entry. unfold block_row. cbn [first_key last_key].
  pose proof (entry_key_bound b (head b) Hb (head_elem b)).
  pose proof (entry_key_bound b (last b) Hb (last_elem b)).
  unfold MAX_KEY_SIZE in *. lia.
Qed.

Lemma index_of_bound off bs :
  Forall entry_ok (concat bs) -> len (concat (encode_index_entry <$> index_of off bs)) <= 2 ^ 18 * len bs.
Proof.
  revert off. induction bs as [|b bs IH]; intros off Hok; [done|].
  cbn [concat index_of] in *. apply Forall_app in Hok as [Hb Hok].
  rewrite fmap_cons. cbn [concat]. rewrite len_app, len_cons.
  pose proof (block_row_bound off b Hb). specialize (IH (off + len (data_block b)) Hok). lia.
Qed.

Lemma len_encode_index_bound bs :
  Forall entry_ok (concat bs) -> len (encode_index (index_of 0 bs)) <= 8 + 2 ^ 18 * len bs.
Proof. intros Hok. pose proof (index_of_bound 0 bs Hok). unfold encode_index. len_lia. Qed.

Section table_sizes.
Context (bs : list entries) (f : BloomFilter.t).
Hypothesis Hwf : table_wf bs f.

(** The sections of the file are far from the limits of the footer fields. *)
Lemma table_sections :
  len (data_bytes bs) < 2 ^ 60 /\ len (encode_index (index_of 0 bs)) < 2 ^ 60 /\
  len (BloomFilter.encode f) < 2 ^ 60 /\ len (index_of 0 bs) < 2 ^ 32.
Proof using Hwf.
  destruct Hwf as [_ Hb Hok Hlen _ [_ Hf] _]. pose proof (blocks_ok_len bs Hb).
  pose proof (len_encode_index_bound bs Hok). rewrite len_encode, len_index_of.
  split_and!; [by apply len_data_bytes_bound|lia..].
Qed.

Lemma index_of_fits off bs' :
  Forall entry_ok (concat bs') -> Forall (fun b => len (data_block b) < 2 ^ 32) bs' ->
  0 <= off -> off + len (data_bytes bs') < 2 ^ 64 -> Forall index_fits (index_of off bs').
Proof.
  revert off. induction bs' as [|b bs' IH]; intros off Hok Hs Hoff Hlt; [constructor|].
  cbn [concat] in Hok. apply Forall_app in Hok as [Hb Hok]. apply Forall_cons in Hs as [Hb32 Hs].
  rewrite data_bytes_cons, len_app in Hlt. pose proof (len_nonneg (data_block b)).
  pose proof (len_nonneg (data_bytes bs')). cbn [index_of]. constructor; [|apply IH; (done || lia)].
  unfold index_fits, block_row, u32. cbn [first_key last_key ie_offset ie_length].
  pose proof (entry_key_bound b (head b) Hb (head_elem b)).
  pose proof (entry_key_bound b (last b) Hb (last_elem b)). unfold MAX_KEY_SIZE in *. lia.
Qed.

Lemma table_index_decodes : decode_index (encode_index (index_of 0 bs)) = Ok (index_of 0 bs).
Proof using Hwf.
  destruct table_sections as (Hd & _ & _ & Hi). destruct Hwf.
  apply decode_index_encode; [|done]. apply index_of_fits; [done|done|lia|lia].
Qed.

Lemma table_footer_decodes :
  let d := len (data_bytes bs) in
  let i := len (encode_index (index_of 0 bs)) in
  let b := len (BloomFilter.encode f) in
  decode_footer (encode_footer d i (d + i) b) = Ok (d, i, d + i, b).
Proof using Hwf.
  destruct table_sections as (Hd & Hi & Hb & _). cbn zeta.
  pose proof (len_nonneg (data_bytes bs)). pose proof (len_nonneg (encode_index (index_of 0 bs))).
  pose proof (len_nonneg (BloomFilter.encode f)). apply decode_footer_encode; lia.
Qed.

End table_sizes.

(** ** [SsTable::create] *)

Lemma key_sort_sorted (l : entries) : ksorted l -> key_sort l = l.
Proof.
  intros Hs. apply sort_by_sorted. induction Hs as [|x l Hs IH F]; constructor; [done|].
  eapply Forall_impl; [done|]. intros b Hab. apply key_leb_le, key_le_lteq. by left.
Qed.

Section create.
Context `{Libm} (final : string) (id : Z) (l : entries) (fp : f64) (block_size : Z).
Hypothesis Hsorted : ksorted l.
Hypothesis Hok : Forall entry_ok l.
Hypothesis Hlen : len l < 2 ^ 30.
Hypothesis Hbs : 0 <= block_size <= 2 ^ 31.
Hypothesis Hfp : libm_ok.

(** The filter of the table: every key is in it, and it can be encoded. *)
Lemma create_filter :
  exists f, BloomFilter.insert_all (BloomFilter.new (Z.max (len l) 1) fp) (l.*1) = Ok f /\
    encodable f /\ forall k, k ∈ l.*1 -> BloomFilter.has f k.
Proof using Hlen Hfp.
  destruct (insert_all_spec (l.*1) (BloomFilter.new (Z.max (len l) 1) fp))
    as (f & Hf & Hwf & Hl & _ & Hk & _); [apply new_filter_wf|].
  exists f. split_and!; [done| |done]. split; [done|]. rewrite Hl.
  unfold BloomFilter.new. cbn [BloomFilter.bits]. rewrite len_replicate.
  destruct (bit_count_bounds (Z.max (len l) 1) fp Hfp ltac:(lia)) as [Hb _].
  pose proof (bit_count_positive (Z.max (len l) 1) fp). rewrite Z2Nat.id.
  - apply Z.div_lt_upper_bound; lia.
  - apply Z.div_pos; lia.
Qed.

(** The files after a table was published under its final name. *)
Definition published (bs : list entries) (f : BloomFilter.t) (w w' : World) : Prop :=
  w_files w' = <[final := mkFile (table_bytes bs f) (table_bytes bs f)]>
    (delete (tmp_path final) (w_files w)).

(** After an error only the temporary file may differ, unless the complete
    table was already renamed. *)
Definition create_failed (w w' : World) : Prop :=
  (forall p, p <> tmp_path final -> w_files w' !! p = w_files w !! p) \/
  (exists bs f, concat bs = l /\ table_wf bs f /\ published bs f w w').

Lemma create_failed_same w w' : w_files w' = w_files w -> create_failed w w'.
Proof. intros Hw. left. intros p _. by rewrite Hw. Qed.

Lemma create_failed_abandoned dur w w' :
  abandoned (tmp_path final) dur (w_files w) w' -> create_failed w w'.
Proof.
  intros [bs Hw]. left. intros p Hp. unfold writing in Hw. rewrite Hw. by rewrite lookup_insert_ne.
Qed.

(** The footer ends the file. *)
Lemma wp_write_sections {A} bs f dur w0 (Q : A -> World -> Prop) E w (k : M World A) :
  table_wf bs f -> writing (tmp_path final) dur (w_files w0) (data_bytes bs) w ->
  (forall w', writing (tmp_path final) dur (w_files w0) (table_bytes bs f) w' ->
     (quiet w -> quiet w') -> wp k Q E w') ->
  (forall w', abandoned (tmp_path final) dur (w_files w0) w' -> ~ quiet w -> E device_error w') ->
  wp (let index_offset := len (data_bytes bs) in
      let index_bytes := encode_index (index_of 0 bs) in
      let! _ := write_all (tmp_path final) index_bytes in
      let index_len := len index_bytes in
      let bloom_offset := wrap64 (index_offset + index_len) in
      let bloom_bytes := BloomFilter.encode f in
      let! _ := write_all (tmp_path final) bloom_bytes in
      let bloom_len := len bloom_bytes in
      let! _ := write_all (tmp_path final)
        (encode_footer index_offset index_len bloom_offset bloom_len) in
      k) Q E w.
Proof.
  intros Hwf Hw HQ HE. cbn zeta. destruct (table_sections bs f Hwf) as (Hd & Hi & Hb & _).
  pose proof (len_nonneg (data_bytes bs)). pose proof (len_nonneg (encode_index (index_of 0 bs))).
  rewrite ?wrap64_mod. rewrite Z.mod_small by lia.
  apply wp_bind. eapply wp_writing; [done| |done]. intros w1 Hw1 Hq1.
  apply wp_bind. eapply wp_writing; [done| |intros; apply HE; tauto]. intros w2 Hw2 Hq2.
  apply wp_bind. eapply wp_writing; [done| |intros; apply HE; tauto]. intros w3 Hw3 Hq3.
  apply HQ; [|tauto]. unfold table_bytes. by rewrite !app_assoc.
Qed.

(** From the complete temporary file to the published table. *)
Lemma wp_publish {A} bs f dur w0 (Q : A -> World -> Prop) E w (k : Z -> M World A) :
  concat bs = l -> table_wf bs f ->
  writing (tmp_path final) dur (w_files w0) (table_bytes bs f) w ->
  (forall w', published bs f w0 w' -> (quiet w -> quiet w') ->
     wp (k (len (table_bytes bs f))) Q E w') ->
  (forall e w', create_failed w0 w' -> ~ quiet w -> E e w') ->
  wp (let! fail := failpoints.should_fail SsTableSync in
      if (fail : bool) then merr (injected "injected SSTable sync failure")
      else
      let! _ := sync_all (tmp_path final) in
      let! fail := failpoints.should_fail Rename in
      if (fail : bool) then merr (injected "injected rename failure")
      else
      let! _ := rename (tmp_path final) final in
      let! _ := sync_dir in
      let! size_bytes := file_len final in
      k size_bytes) Q E w.
Proof.
  intros Hl Hwf Hw HQ HE.
  assert (forall w' d, w_files w' = <[tmp_path final := mkFile (table_bytes bs f) d]> (w_files w0) ->
    create_failed w0 w') as Hfail.
  { intros w' d Hw'. apply (create_failed_abandoned d). by eexists. }
  unfold writing in Hw. apply wp_bind, wp_should_fail.
  { intros w1 Hw1 Hn. apply wp_err, HE; [|done]. eapply Hfail. by rewrite Hw1. }
  intros w1 Hw1 Hq1. rewrite Hw in Hw1. apply wp_bind.
  eapply wp_sync_all; [by rewrite Hw1, lookup_insert_eq| |
    intros w2 Hw2 Hn; apply HE; [eapply Hfail; by rewrite Hw2|tauto]].
  cbn [f_data]. intros w2 Hw2 Hq2. rewrite Hw1, insert_insert_eq in Hw2.
  apply wp_bind, wp_should_fail.
  { intros w3 Hw3 Hn. apply wp_err, HE; [eapply Hfail; by rewrite Hw3|tauto]. }
  intros w3 Hw3 Hq3. rewrite Hw2 in Hw3. apply wp_bind.
  eapply wp_rename; [by rewrite Hw3, lookup_insert_eq| |
    intros w4 Hw4 Hn; apply HE; [eapply Hfail; by rewrite Hw4|tauto]].
  intros w4 Hw4 Hq4. rewrite Hw3, delete_insert_eq in Hw4.
  apply wp_bind, wp_sync_dir. intros w5 Hw5 Hq5. rewrite Hw4 in Hw5.
  apply wp_bind. eapply wp_file_len; [by rewrite Hw5, lookup_insert_eq| |].
  - cbn [f_data]. intros w6 Hw6 Hq6. apply HQ; [|tauto]. unfold published. congruence.
  - intros w6 Hw6 Hn. apply HE; [|tauto]. right. exists bs, f. unfold published.
    split_and!; [done|done|congruence].
Qed.

Lemma wp_create (Q : t -> World -> Prop) E w :
  (forall bs f w', concat bs = l -> table_wf bs f -> published bs f w w' ->
     (quiet w -> quiet w') -> Q (table_of final id bs f) w') ->
  (forall e w', create_failed w w' -> ~ quiet w -> E e w') ->
  wp (create final id l fp block_size) Q E w.
Proof using Hsorted Hok Hlen Hbs Hfp.
  intros HQ HE. unfold create. apply wp_bind, wp_should_fail.
  { intros w1 Hw1 Hn. apply wp_err, HE; [by apply create_failed_same|done]. }
  intros w1 Hw1 Hq1. rewrite key_sort_sorted by done.
  destruct create_filter as (f & -> & Hf & Hk). apply wp_bind, wp_ret.
  apply wp_bind, wp_open_truncate.
  2: { intros w2 Hw2 Hn. apply HE; [apply create_failed_same; congruence|tauto]. }
  set (dur := default _ _). intros w2 Hw2 Hq2. rewrite Hw1 in Hw2.
  assert (forall e w' q, abandoned (tmp_path final) dur (w_files w) w' -> ~ quiet q ->
    (quiet w -> quiet q) -> E e w') as HE'.
  { intros e w' q Ha Hn Hq. apply HE; [by eapply create_failed_abandoned|tauto]. }
  apply wp_bind. eapply (wp_add_entries (tmp_path final) dur (w_files w) block_size Hbs l []);
    [|done|done| |by intros; eapply HE'; eauto].
  { exists [], []. split_and!; try done. by left. }
  intros b w3 Hb Hq3. apply wp_bind.
  eapply wp_finish_blocks; [done|done|done|done| |by intros; eapply HE'; eauto].
  intros bs w4 Hl Hbok Hsz Hw4 Hq4. cbn [app] in Hl.
  assert (table_wf bs f) as Hwf by (split; by rewrite ?Hl).
  cbn [b_offset b_index builder_of].
  eapply wp_write_sections; [done|done| |by intros; eapply HE'; eauto].
  intros w5 Hw5 Hq5. eapply wp_publish; [done|done|done| |intros; apply HE; tauto].
  intros w6 Hw6 Hq6. apply wp_ret. rewrite <- Hl. apply HQ; try done. tauto.
Qed.

End create.

(** ** [SsTable::open] *)

Lemma head_concat (bs : list entries) :
  blocks_ok bs -> head (concat bs) = match head bs with Some b => head b | None => None end.
Proof.
  intros [[Hn F]| ->]; [|done]. destruct bs as [|b bs]; [done|]. cbn.
  apply Forall_cons in F as [Hb _]. by destruct b.
Qed.

Lemma last_concat (bs : list entries) :
  blocks_ok bs -> last (concat bs) = match last bs with Some b => last b | None => None end.
Proof.
  intros [[Hn F]| ->]; [|done]. destruct bs as [|b0 bs0 _] using rev_ind; [done|].
  rewrite last_snoc, concat_app. simpl. rewrite app_nil_r.
  apply Forall_app in F as [_ F%Forall_inv]. rewrite last_app.
  destruct (last b0) eqn:E; [done|]. by apply last_None in E.
Qed.

(** The key range read from the index is the range of the entries. *)
Lemma index_range bs :
  blocks_ok bs ->
  default [] (first_key <$> head (index_of 0 bs)) = default [] (fst <$> head (concat bs)) /\
  default [] (last_key <$> last (index_of 0 bs)) = default [] (fst <$> last (concat bs)).
Proof.
  intros Hb. rewrite head_concat, last_concat by done. split.
  - by destruct bs as [|b bs].
  - destruct bs as [|b0 bs0 _] using rev_ind; [done|].
    rewrite index_of_app. simpl. by rewrite !last_snoc.
Qed.

Section open.
Context (p : string) (id : Z) (bs : list entries) (f : BloomFilter.t) (dur : bytes).
Hypothesis Hwf : table_wf bs f.
Hypothesis Hname : ends_with p ".tmp" = false.

Lemma wp_open (Q : t -> World -> Prop) E w :
  w_files w !! p = Some (mkFile (table_bytes bs f) dur) ->
  (forall w', w_files w' = w_files w -> (quiet w -> quiet w') -> Q (table_of p id bs f) w') ->
  (forall e w', w_files w' = w_files w -> ~ quiet w -> E e w') ->
  wp (open p id) Q E w.
Proof using Hwf Hname.
  intros Hp HQ HE. unfold open. rewrite Hname.
  destruct (table_sections bs f Hwf) as (Hd & Hi & Hb & _).
  pose proof (table_footer_decodes bs f Hwf) as Hfoot. cbn zeta in Hfoot.
  assert (table_bytes bs f = data_bytes bs ++ encode_index (index_of 0 bs) ++
    BloomFilter.encode f ++ encode_footer (len (data_bytes bs)) (len (encode_index (index_of 0 bs)))
      (len (data_bytes bs) + len (encode_index (index_of 0 bs))) (len (BloomFilter.encode f)))
    as Ht by done.
  set (d := data_bytes bs) in *. set (i := encode_index (index_of 0 bs)) in *.
  set (b := BloomFilter.encode f) in *. set (foot := encode_footer _ _ _ _) in *.
  pose proof (len_encode_footer (len d) (len i) (len d + len i) (len b) : len foot = _) as Hfl.
  assert (len (table_bytes bs f) = len d + len i + len b + 48) as Hlen.
  { rewrite Ht. unfold FOOTER_LEN in Hfl. len_lia. }
  pose proof (len_nonneg d). pose proof (len_nonneg i). pose proof (len_nonneg b).
  apply wp_bind. eapply wp_open_read; [done| |intros; by apply HE]. intros w1 Hw1 Hq1.
  apply wp_bind. eapply wp_file_len; [by rewrite Hw1| |intros; apply HE; [congruence|tauto]].
  intros w2 Hw2 Hq2. cbn [f_data]. unfold FOOTER_LEN in *. case_if; [lia|].
  apply wp_bind. eapply (wp_read_exact p _ _ _ foot);
    [by rewrite Hw2, Hw1| | |intros; apply HE; [congruence|tauto]].
  { cbn [f_data]. replace (table_bytes bs f) with ((d ++ i ++ b) ++ foot ++ [])
      by (rewrite Ht, app_nil_r; by rewrite <- !app_assoc).
    apply sub_list_app; len_lia. }
  intros w3 Hw3 Hq3. rewrite Hfoot. apply wp_bind, wp_ret.
  case_if; [repeat (apply orb_true_iff in E0 as [E0|E0]); unfold u64_max in *; reflect_bools; lia|].
  apply wp_bind. eapply (wp_read_exact p _ _ _ i);
    [by rewrite Hw3, Hw2, Hw1| | |intros; apply HE; [congruence|tauto]].
  { cbn [f_data]. rewrite Ht. by apply sub_list_app. }
  intros w4 Hw4 Hq4. apply wp_bind. unfold i. rewrite (table_index_decodes bs f Hwf). apply wp_ret.
  apply wp_bind. eapply (wp_read_exact p _ _ _ b);
    [by rewrite Hw4, Hw3, Hw2, Hw1| | |intros; apply HE; [congruence|tauto]].
  { cbn [f_data]. rewrite Ht, (app_assoc d). fold i. apply sub_list_app; len_lia. }
  intros w5 Hw5 Hq5. apply wp_bind. unfold b. rewrite decode_encode by (by destruct Hwf).
  apply wp_ret, wp_ret. destruct (index_range bs (tw_blocks _ _ Hwf)) as [-> ->].
  apply HQ; [congruence|tauto].
Qed.

End open.

(** ** No panic while opening *)

Lemma open_safe p id : safe (open p id).
Proof.
  unfold open. apply safe_if; intros _; [apply safe_err|].
  apply safe_bind; [by apply safe_syscall, safe_on_file|intros _].
  apply safe_bind; [by apply safe_syscall, safe_on_file|intros n].
  apply safe_if; intros _; [apply safe_err|]. apply wp_safe. intros w. apply wp_bind.
  apply wp_read_exact_any; [|done]. intros footer w1 _ Hfl.
  assert (forall {A} (m : M World A), safe m -> wp m (fun _ _ => True) (fun _ _ => True) w1) as Hs.
  { intros A m Hm. unfold wp. specialize (Hm w1). by destruct (m w1) as [[] ?]. }
  apply Hs. apply safe_bind; [by apply safe_lift, decode_footer_no_panic|].
  intros [[[io il] bo] bl]. apply safe_if; intros _; [apply safe_err|].
  assert (forall o n, safe (read_exact p o n)) as Hread.
  { intros o k. apply wp_safe. intros w'. by apply wp_read_exact_any. }
  apply safe_bind; [apply Hread|intros ib].
  apply safe_bind; [apply safe_lift, decode_index_no_panic|intros idx].
  apply safe_bind; [apply Hread|intros bb].
  apply safe_bind; [|intros; apply safe_ret].
  apply safe_lift. by destruct (decode_cases bb) as [[e ->]|(f & -> & _)].
Qed.

(** ** Properties *)

(** C24: a table that [SsTable::create] reports as written is complete and
    durable: whatever a crash leaves of unsynced data, reopening the file gives
    the same handle (index, filter, key range, size).  On a machine where
    nothing fails [create] does succeed. *)
Theorem create_open_roundtrip `{Libm} final id l fp block_size w :
  ksorted l -> Forall entry_ok l -> len l < 2 ^ 30 -> 0 <= block_size <= 2 ^ 31 ->
  libm_ok -> ends_with final ".tmp" = false ->
  (quiet w -> exists t w', create final id l fp block_size w = (Ok t, w')) /\
  (forall t w' w2, create final id l fp block_size w = (Ok t, w') -> crashed w' w2 ->
     exists w3, open final id w2 = (Ok t, w3) /\ w_files w3 = w_files w2).
Proof.
  intros Hs Hok Hlen Hbs Hfp Hname. split.
  - intros Hq. edestruct (wp_run (create final id l fp block_size) (fun _ _ => True)
      (fun _ _ => False) w) as [(t & w' & E & _)|(e & w' & _ & [])]; [|by eauto].
    by apply wp_create; [..|tauto].
  - intros t w' w2 E Hc.
    eapply (wp_Ok _ (fun t w' => exists bs f, table_wf bs f /\ t = table_of final id bs f /\
      published final bs f w w') (fun _ _ => True)) in E as (bs & f & Hwf & -> & Hp).
    2: { apply wp_create; try done. intros bs f w1 _ ???. eauto 6. }
    assert (w_files w' !! final = Some (mkFile (table_bytes bs f) (table_bytes bs f))) as Hf.
    { unfold published in Hp. by rewrite Hp, lookup_insert_eq. }
    pose proof (crashed_synced _ _ _ _ Hc Hf) as Hf2.
    assert (quiet w2) as Hq2 by (destruct Hc as (? & ? & _); done).
    edestruct (wp_run (open final id) (fun t w3 => t = table_of final id bs f /\
      w_files w3 = w_files w2) (fun _ _ => False) w2) as [(t & w3 & E & -> & ?)|(e & w3 & _ & [])].
    + by eapply wp_open; [done|done|done|..].
    + eauto.
Qed.

(** A small table, and the world it is written in. *)
Definition sample_entries : entries :=
  [([x61], Value [x31]); ([x62], Tombstone); ([x63], Value [])].
Definition empty_world : World := mkWorld ∅ None [].

Lemma sample_sorted : ksorted sample_entries.
Proof. refine (bool_decide_unpack _ _). vm_compute. exact I. Qed.

Lemma sample_ok : Forall entry_ok sample_entries.
Proof. repeat constructor; vm_compute; discriminate. Qed.

Lemma create_open_roundtrip_witness :
  let run := create (H := demo_libm) "000001.sst" 1 sample_entries one_percent 16 empty_world in
  (exists t w', run = (Ok t, w')) /\
  (forall t w', run = (Ok t, w') -> exists w3, open "000001.sst" 1 (restart w') = (Ok t, w3)).
Proof.
  cbv zeta.
  destruct (create_open_roundtrip (H := demo_libm) "000001.sst" 1 sample_entries one_percent 16
    empty_world sample_sorted sample_ok) as [H1 H2];
    [reflexivity|lia|apply demo_libm_ok|reflexivity|].
  split; [by apply H1|]. intros t w' E.
  destruct (H2 t w' (restart w') E (crashed_restart w')) as (w3 & E3 & _). by exists w3.
Defined.

(** C25: a failed [SsTable::create] never leaves a partial table visible: every
    other file is untouched, and the final name either is untouched as well or
    names the complete, synced table. *)
Theorem create_failure_atomic `{Libm} final id l fp block_size w e w' :
  ksorted l -> Forall entry_ok l -> len l < 2 ^ 30 -> 0 <= block_size <= 2 ^ 31 ->
  libm_ok -> create final id l fp block_size w = (Err e, w') ->
  (forall p, p <> tmp_path final -> p <> final -> w_files w' !! p = w_files w !! p) /\
  (final <> tmp_path final -> w_files w' !! final = w_files w !! final \/
   exists bs f, concat bs = l /\ table_wf bs f /\
     w_files w' !! final = Some (mkFile (table_bytes bs f) (table_bytes bs f))).
Proof.
  intros Hs Hok Hlen Hbs Hfp E.
  eapply (wp_Err _ (fun _ _ => True) (fun _ w' => create_failed final l w w')) in E.
  2: by apply wp_create.
  destruct E as [Hsame|(bs & f & Hl & Hwf & Hp)].
  - split; [auto|]. intros Hne. left. by apply Hsame.
  - unfold published in Hp. rewrite Hp. split.
    + intros p H1 H2. by rewrite lookup_insert_ne, lookup_delete_ne.
    + intros _. right. exists bs, f. by rewrite lookup_insert_eq.
Qed.

(** The device fails while the second block is written. *)
Lemma create_failure_atomic_witness :
  let w := mkWorld {[ "wal.log" := mkFile [x31] [x31] ]} None [None; None; Some 3%nat] in
  let w' := snd (create (H := demo_libm) "000001.sst" 1 sample_entries one_percent 8 w) in
  w_files w' !! "wal.log" = w_files w !! "wal.log".
Proof.
  cbv zeta.
  match goal with |- w_files (snd (create ?p ?i ?l ?f ?b ?w)) !! _ = _ =>
    edestruct (create_failure_atomic (H := demo_libm) p i l f b w) as [Hsame _];
    [exact sample_sorted|exact sample_ok|reflexivity|lia|apply demo_libm_ok
    |vm_compute; reflexivity|] end.
  etransitivity; [|apply (Hsame "wal.log"); discriminate]. vm_compute. reflexivity.
Defined.

(** C37: [SsTable::open] never panics, whatever the directory holds and whatever
    fails. *)
Theorem open_total p id w :
  (exists t w', SsTable.open p id w = (Ok t, w')) \/ (exists e w', SsTable.open p id w = (Err e, w')).
Proof. pose proof (open_safe p id w) as Hs. destruct (open p id w) as [[] w']; naive_solver. Qed.
