(* ===== verification/TableRead.v ===== *)
(** * Reading tables: proofs

    For a table whose file holds the blocks [bs] ([table_ok]), a point lookup
    gives the entry of the key, with or without the cache, and the iterator
    yields the entries in order.  A cache is coherent with a registry of the
    tables' blocks when every resident block is the block of its table at its
    offset; lookups keep it coherent. *)

From S2P Require Import Prelude Bytes Errors Crc Collections Records World.
From S2P Require Import Memtable Bloom Cache Format Names SsTables TableWrite.

Import SsTable.

(** [t] is the handle of a table whose file, all synced, holds the blocks [bs]. *)
Record table_ok (w : World) (t : SsTable.t) (bs : list entries) : Prop := {
  tok_wf : table_wf bs (bloom t);
  tok_handle : t = set_level (level t) (table_of (path t) (id t) bs (bloom t));
  tok_file : w_files w !! path t =
    Some (mkFile (table_bytes bs (bloom t)) (table_bytes bs (bloom t)));
}.

Lemma table_ok_idx w t bs : table_ok w t bs -> idx t = index_of 0 bs.
Proof. intros [_ -> _]. done. Qed.

Lemma table_ok_range w t bs : table_ok w t bs ->
  smallest t = default [] (fst <$> head (concat bs)) /\
  largest t = default [] (fst <$> last (concat bs)).
Proof. intros [_ -> _]. done. Qed.

Lemma table_ok_files w w' t bs : w_files w' = w_files w -> table_ok w t bs -> table_ok w' t bs.
Proof. intros E [? ? ?]. split; [done|done|by rewrite E]. Qed.

(** ** Lookups in sorted entries *)

Lemma alookup_below (l1 l2 : entries) x key :
  ksorted (l1 ++ l2) -> x ∈ l2 -> key_le (fst x) key -> alookup l1 key = None.
Proof.
  intros (Hlt & _ & _)%ksorted_app Hx Hk. apply alookup_None.
  intros (y & -> & Hy)%list_elem_of_fmap. specialize (Hlt y x Hy Hx). key_order.
Qed.

Lemma alookup_above (l1 l2 : entries) x key :
  ksorted (l1 ++ l2) -> x ∈ l1 -> key_le key (fst x) -> alookup l2 key = None.
Proof.
  intros (Hlt & _ & _)%ksorted_app Hx Hk. apply alookup_None.
  intros (y & -> & Hy)%list_elem_of_fmap. specialize (Hlt x y Hx Hy). key_order.
Qed.

Lemma ksorted_head_le (l : entries) x y : ksorted l -> head l = Some x -> y ∈ l -> key_le (fst x) (fst y).
Proof.
  destruct l as [|z l]; [done|]. intros [F _]%ksorted_cons [= ->] Hy.
  rewrite Forall_forall in F. apply elem_of_cons in Hy as [->|Hy]; [key_order|].
  specialize (F y Hy). key_order.
Qed.

Lemma ksorted_last_ge (l : entries) x y : ksorted l -> last l = Some x -> y ∈ l -> key_le (fst y) (fst x).
Proof.
  intros Hs [l' ->]%last_Some Hy. apply ksorted_app in Hs as (Hlt & _ & _).
  apply elem_of_app in Hy as [Hy|Hy]; [|apply list_elem_of_singleton in Hy as ->; key_order].
  specialize (Hlt y x Hy ltac:(by left)). key_order.
Qed.

Lemma head_last_some (b : entries) : b <> [] -> exists x y, head b = Some x /\ last b = Some y.
Proof.
  intros Hb. destruct (head b) as [x|] eqn:Hh; [|by destruct b].
  destruct (last b) as [y|] eqn:Hl; [by eauto|]. by apply last_None in Hl.
Qed.

(** ** The block of a key *)

Section blocks.
Context (bs : list entries).
Hypothesis Hs : ksorted (concat bs).
Hypothesis Hb : blocks_ok bs.

Lemma blocks_split bs1 b bs2 :
  bs = bs1 ++ b :: bs2 -> concat bs = concat bs1 ++ b ++ concat bs2.
Proof using. intros E. by rewrite E, concat_app. Qed.

Lemma block_sorted b : b ∈ bs -> ksorted b.
Proof using Hs.
  intros (bs1 & bs2 & E)%list_elem_of_split. pose proof Hs as Hs'.
  rewrite (blocks_split _ _ _ E) in Hs'.
  by apply ksorted_app in Hs' as (_ & _ & (_ & ? & _)%ksorted_app).
Qed.

(** A key in the range of a row is found in the block of that row or nowhere. *)
Lemma lookup_in_block bs1 b bs2 key :
  bs = bs1 ++ b :: bs2 ->
  key_le (default [] (fst <$> head b)) key -> key_le key (default [] (fst <$> last b)) ->
  alookup (concat bs) key = alookup b key.
Proof using Hs Hb.
  intros E H1 H2. destruct (decide (b = [])) as [->|Hne].
  { destruct Hb as [[_ F]|Hb']; [rewrite E in F|rewrite Hb'; simpl].
    - by apply Forall_app in F as [_ [? _]%Forall_cons].
    - done. }
  destruct (head_last_some b Hne) as (x & y & Hx & Hy). rewrite Hx in H1. rewrite Hy in H2.
  simpl in H1, H2. rewrite (blocks_split _ _ _ E) in *.
  pose proof Hs as Hs'. rewrite app_assoc in Hs'.
  rewrite alookup_app, (alookup_below _ _ x key Hs); [|apply elem_of_app; left; by apply head_elem|done].
  rewrite alookup_app, (alookup_above (concat bs1 ++ b) _ y key Hs'); [by destruct (alookup b key)| |done].
  apply elem_of_app; right; by apply last_elem.
Qed.

(** The comparison of [block_for_key]. *)
Definition row_probe (key : bytes) (e : IndexEntry) : comparison :=
  if key_ltb key (first_key e) then Gt
  else if key_ltb (last_key e) key then Lt
  else Eq.

Lemma row_probe_Eq key e :
  row_probe key e = Eq <-> key_le (first_key e) key /\ key_le key (last_key e).
Proof.
  unfold row_probe. destruct (key_ltb key (first_key e)) eqn:E1; reflect_keys.
  - split; [done|]. intros [? _]. key_order.
  - destruct (key_ltb (last_key e) key) eqn:E2; reflect_keys; [|done].
    split; [done|]. intros [_ ?]. key_order.
Qed.

(** Rows come in key order. *)
Lemma rows_ordered key : bs_ordered (row_probe key) (index_of 0 bs).
Proof using Hs Hb.
  intros i j e1 e2 Hij H1 H2.
  apply index_of_lookup_inv in H1 as (p1 & b1 & q1 & E1 & L1 & ->).
  apply index_of_lookup_inv in H2 as (p2 & b2 & q2 & E2 & L2 & ->).
  destruct Hb as [[_ F]|Hb1].
  2: { rewrite Hb1 in E1, E2. destruct p1 as [|? p1], p2 as [|? p2]; try done; simpl in *; try lia.
       - injection E2 as _ E2. by destruct p2.
       - injection E2 as _ E2. by destruct p2. }
  assert (b1 <> [] /\ b2 <> []) as [N1 N2].
  { rewrite Forall_forall in F. split; apply F; [rewrite E1|rewrite E2]; set_solver. }
  destruct (head_last_some b1 N1) as (x1 & y1 & Hx1 & Hy1).
  destruct (head_last_some b2 N2) as (x2 & y2 & Hx2 & Hy2).
  assert (exists m, p2 = p1 ++ b1 :: m) as [m ->].
  { rewrite E1 in E2. apply app_eq_inv in E2 as [(k & -> & Ek)|(k & -> & Ek)].
    - rewrite length_app in *. lia.
    - destruct k as [|c k]; [rewrite app_nil_r in *; lia|].
      injection Ek as -> ->. eauto. }
  assert (key_lt (fst y1) (fst x2)) as Hlt.
  { pose proof Hs as Hs'. rewrite E2, <- app_assoc, concat_app in Hs'. cbn [app concat] in Hs'.
    apply ksorted_app in Hs' as (_ & _ & (Hlt & _ & _)%ksorted_app).
    apply Hlt; [by apply last_elem|]. rewrite concat_app. apply elem_of_app. right.
    cbn [concat]. apply elem_of_app. left. by apply head_elem. }
  assert (ksorted b1 /\ ksorted b2) as [S1 S2].
  { split; apply block_sorted; [rewrite E1|rewrite E2]; set_solver. }
  pose proof (ksorted_head_le b1 x1 y1 S1 Hx1 (last_elem _ _ Hy1)).
  pose proof (ksorted_head_le b2 x2 y2 S2 Hx2 (last_elem _ _ Hy2)).
  unfold row_probe, block_row. cbn [first_key last_key]. rewrite Hx1, Hx2, Hy1, Hy2. simpl.
  repeat case_if; reflect_keys; split; intros; try done; key_order.
Qed.

(** [block_for_key] finds the only block that can hold the key. *)
Lemma block_for_key_spec t key :
  idx t = index_of 0 bs ->
  match block_for_key t key with
  | Some i => exists b, bs !! i = Some b /\ alookup (concat bs) key = alookup b key
  | None => alookup (concat bs) key = None
  end.
Proof using Hs Hb.
  intros Hi. unfold block_for_key. rewrite Hi. fold (row_probe key).
  destruct (binary_search_by _ _) as [i|] eqn:E.
  - apply binary_search_by_sound in E as (e & He & Hp). apply row_probe_Eq in Hp as [H1 H2].
    apply index_of_lookup_inv in He as (bs1 & b & bs2 & Hsp & Hl & ->).
    exists b. split; [rewrite Hsp, <- Hl; by apply list_lookup_middle|].
    by eapply lookup_in_block.
  - destruct (alookup (concat bs) key) as [v|] eqn:Ea; [|done]. exfalso.
    apply alookup_Some_elem in Ea. apply list_elem_of_In, in_concat in Ea as (b & Hbin & Hin).
    apply list_elem_of_In in Hbin, Hin. pose proof (block_sorted b Hbin) as Sb.
    apply list_elem_of_lookup in Hbin as [i Hbi].
    destruct (index_of_lookup 0 bs i b Hbi) as (bs1 & bs2 & _ & _ & Hrow).
    destruct (binary_search_by_complete (row_probe key) (index_of 0 bs) i _ (rows_ordered key) Hrow)
      as (j & y & Hj & _); [|congruence].
    apply row_probe_Eq. unfold block_row. cbn [first_key last_key].
    destruct (head_last_some b) as (x & z & Hx & Hz); [intros ->; set_solver|].
    rewrite Hx, Hz. simpl. split.
    + by apply (ksorted_head_le b x (key, v)).
    + by apply (ksorted_last_ge b z (key, v)).
Qed.

End blocks.

(** ** Reading a block *)

Lemma block_decodes bs1 b bs2 f : table_wf (bs1 ++ b :: bs2) f -> decode_block (data_block b) = Ok b.
Proof.
  intros [_ _ Hok Hl _ _ _]. rewrite concat_app in Hok, Hl. cbn [concat] in Hok, Hl.
  apply Forall_app in Hok as [_ Hok]. apply Forall_app in Hok as [Hok _].
  apply decode_block_bytes; [|len_lia].
  eapply Forall_impl; [done|]. apply entry_ok_fits.
Qed.

Section read_block.
Context (w : World) (t : SsTable.t) (bs1 : list entries) (b : entries) (bs2 : list entries).
Hypothesis Ht : table_ok w t (bs1 ++ b :: bs2).

Lemma wp_read_data_block (Q : entries -> World -> Prop) E w1 :
  w_files w1 = w_files w ->
  (forall w', w_files w' = w_files w -> (quiet w1 -> quiet w') -> Q b w') ->
  (forall e w', w_files w' = w_files w -> ~ quiet w1 -> E e w') ->
  wp (read_data_block (path t) (0 + len (data_bytes bs1)) (len (data_block b))) Q E w1.
Proof using Ht.
  intros Hw1 HQ HE. unfold read_data_block. pose proof (tok_file _ _ _ Ht) as Hf.
  apply wp_bind. eapply wp_open_read; [by rewrite Hw1| |intros; apply HE; congruence].
  intros w2 Hw2 Hq2. apply wp_bind.
  eapply (wp_read_exact _ _ _ _ (data_block b));
    [by rewrite Hw2, Hw1| | |intros; apply HE; [congruence|tauto]].
  - cbn [f_data]. unfold table_bytes. rewrite data_bytes_app, data_bytes_cons, <- !app_assoc.
    apply sub_list_app; lia.
  - intros w3 Hw3 Hq3. rewrite (block_decodes bs1 b bs2 _ (tok_wf _ _ _ Ht)). apply HQ; [congruence|tauto].
Qed.

End read_block.

(** ** The cache *)

(** [b] is the block at offset [off] of the table with blocks [bs]. *)
Definition block_at (bs : list entries) (off : Z) (b : entries) : Prop :=
  exists bs1 bs2, bs = bs1 ++ b :: bs2 /\ off = len (data_bytes bs1).

(** Blocks are not empty strings, so an offset determines its block. *)
Lemma block_at_inj bs off b1 b2 : block_at bs off b1 -> block_at bs off b2 -> b1 = b2.
Proof.
  intros (p1 & q1 & E1 & O1) (p2 & q2 & E2 & O2). rewrite E1 in E2.
  assert (forall p c k, len (data_bytes (p ++ c :: k)) > len (data_bytes p)) as Hlt.
  { intros p c k. rewrite data_bytes_app, data_bytes_cons, !len_app, len_data_block.
    pose proof (len_nonneg (encode_entries c)). pose proof (len_nonneg (data_bytes k)). lia. }
  apply app_eq_inv in E2 as [(k & -> & Ek)|(k & -> & Ek)]; destruct k as [|c k].
  1, 3: by injection Ek as ->.
  - specialize (Hlt p2 c k). lia.
  - specialize (Hlt p1 c k). lia.
Qed.

(** The blocks of the tables, by id.  Ids are never reused. *)
Abbreviation registry := (gmap Z (list entries)).

Definition coherent (reg : registry) (c : BlockCache.t) : Prop :=
  forall k b, BlockCache.map c !! k = Some b ->
    exists bs, reg !! table_id k = Some bs /\ block_at bs (Cache.offset k) b.

Lemma coherent_new reg n : coherent reg (BlockCache.new n).
Proof. intros k b. cbn. by rewrite lookup_empty. Qed.

Lemma coherent_get reg c k : coherent reg c -> coherent reg (snd (BlockCache.get c k)).
Proof. intros Hc k' b. rewrite get_map. apply Hc. Qed.

Lemma coherent_insert reg c k b bs :
  coherent reg c -> reg !! table_id k = Some bs -> block_at bs (Cache.offset k) b ->
  coherent reg (BlockCache.insert c k b).
Proof.
  intros Hc Hr Hb k' b' [[-> ->]|[_ H]]%insert_lookup; [by eauto|by apply Hc].
Qed.

(** New tables do not disturb the cache. *)
Lemma coherent_mono reg reg' c : reg ⊆ reg' -> coherent reg c -> coherent reg' c.
Proof.
  intros Hsub Hc k b Hk. destruct (Hc k b Hk) as (bs & Hr & Hb). exists bs.
  split; [by eapply lookup_weaken|done].
Qed.

Lemma wp_on_world {A} (m : M World A) (Q : A -> CW -> Prop) E c w :
  wp m (fun a w' => Q a (c, w')) (fun e w' => E e (c, w')) w -> wp (on_world m) Q E (c, w).
Proof. unfold wp, on_world, mzoom. simpl. by destruct (m w) as [[] ?]. Qed.

(** ** Point lookups *)

Section lookups.
Context (reg : registry) (w : World) (t : SsTable.t) (bs : list entries).
Hypothesis Ht : table_ok w t bs.
Hypothesis Hreg : reg !! id t = Some bs.
Implicit Types (c : BlockCache.t) (E : Error -> CW -> Prop).

Lemma wp_load_block i b cache (Q : BlockData -> CW -> Prop) E c w1 :
  bs !! i = Some b -> coherent reg c -> w_files w1 = w_files w ->
  (forall c' w', coherent reg c' -> w_files w' = w_files w -> (quiet w1 -> quiet w') -> Q b (c', w')) ->
  (forall e c' w', coherent reg c' -> w_files w' = w_files w -> ~ quiet w1 -> E e (c', w')) ->
  wp (load_block t i cache) Q E (c, w1).
Proof using Ht Hreg.
  intros Hi Hc Hw1 HQ HE. unfold load_block. rewrite (table_ok_idx _ _ _ Ht).
  destruct (index_of_lookup 0 bs i b Hi) as (bs1 & bs2 & Hsp & _ & ->).
  apply wp_bind, wp_ret. cbn [block_row ie_offset ie_length].
  set (k := {| table_id := id t; Cache.offset := 0 + len (data_bytes bs1) |}).
  assert (block_at bs (Cache.offset k) b) as Hat by (exists bs1, bs2; split; [done|simpl; lia]).
  assert (forall c1, coherent reg c1 ->
    wp (let! block := on_world (read_data_block (path t) (0 + len (data_bytes bs1))
          (len (data_block b))) in
        let! _ := (if cache then cache_insert k block else mret tt) in mret block) Q E (c1, w1))
    as Hmiss.
  { intros c1 Hc1. apply wp_bind, wp_on_world. rewrite Hsp in Ht.
    eapply wp_read_data_block; [done|done| |intros; by apply HE].
    intros w2 Hw2 Hq2. apply wp_bind. destruct cache.
    - cbn. apply HQ; [|done|done]. by eapply coherent_insert.
    - apply wp_ret, wp_ret. by apply HQ. }
  destruct cache.
  - apply wp_bind. unfold wp at 1, cache_get. cbn [fst snd].
    pose proof (get_result c k) as Hg. pose proof (coherent_get reg c k Hc) as Hc1.
    destruct (BlockCache.get c k) as [[b'|] c1] eqn:Eg; cbn [fst snd] in *.
    + destruct (Hc k b') as (bs' & Hr & Hat'); [done|]. simpl in Hr. rewrite Hreg in Hr.
      injection Hr as <-. rewrite (block_at_inj _ _ _ _ Hat' Hat). apply wp_ret. by apply HQ.
    + by apply Hmiss.
  - apply wp_bind, wp_ret. by apply Hmiss.
Qed.

(** A key outside the range of the table is not in it. *)
Lemma contains_range_complete key :
  key <> [] -> contains_range t key = false -> alookup (concat bs) key = None.
Proof using Ht.
  clear Hreg reg. intros Hk Hr.
  destruct (alookup (concat bs) key) as [v|] eqn:Ea; [exfalso|done].
  apply alookup_Some_elem in Ea. destruct Ht as [Hwf _ _]. pose proof (tw_sorted _ _ Hwf) as Hs.
  destruct (head_last_some (concat bs)) as (x & y & Hx & Hy); [intros E; rewrite E in Ea; set_solver|].
  pose proof (ksorted_head_le _ x (key, v) Hs Hx Ea) as H1.
  pose proof (ksorted_last_ge _ y (key, v) Hs Hy Ea) as H2. simpl in H1, H2.
  unfold contains_range in Hr. destruct (table_ok_range _ _ _ Ht) as [Es El].
  rewrite Es, El, Hx, Hy in Hr. simpl in Hr. revert Hr. case_if.
  - intros _. apply Hk. reflect_bools.
    assert (fst y = []) as E2 by (by apply len_0_nil). rewrite E2 in H2.
    destruct key; [done|]. by destruct H2.
  - rewrite andb_false_iff. intros [Hr|Hr]; reflect_keys; key_order.
Qed.

Lemma wp_get key cache (Q : option Entry -> CW -> Prop) E c w1 :
  key <> [] -> coherent reg c -> w_files w1 = w_files w ->
  (forall c' w', coherent reg c' -> w_files w' = w_files w -> (quiet w1 -> quiet w') ->
     Q (alookup (concat bs) key) (c', w')) ->
  (forall e c' w', coherent reg c' -> w_files w' = w_files w -> ~ quiet w1 -> E e (c', w')) ->
  wp (get t key cache) Q E (c, w1).
Proof using Ht Hreg.
  intros Hk Hc Hw1 HQ HE. unfold get. pose proof (tok_wf _ _ _ Ht) as Hwf.
  destruct (contains_range t key) eqn:Er; cbn [negb].
  2: { apply wp_ret. rewrite <- (contains_range_complete key Hk Er). by apply HQ. }
  destruct (might_contain_spec (bloom t) key) as (r & -> & Hr); [apply Hwf|].
  apply wp_bind, wp_ret. destruct r; cbn [negb].
  2: { apply wp_ret. replace None with (alookup (concat bs) key); [by apply HQ|].
       apply alookup_None. intros Hin%(tw_keys _ _ Hwf). by apply Hr in Hin. }
  pose proof (block_for_key_spec bs (tw_sorted _ _ Hwf) (tw_blocks _ _ Hwf) t key
    (table_ok_idx _ _ _ Ht)) as Hb.
  destruct (block_for_key t key) as [i|].
  - destruct Hb as (b & Hi & Hb). apply wp_bind.
    eapply wp_load_block; [done|done|done| |done]. intros c' w' Hc' Hw' Hq. apply wp_ret.
    rewrite search_block_lookup, <- Hb; [by apply HQ|].
    eapply block_sorted; [apply Hwf|]. by eapply list_elem_of_lookup_2.
  - apply wp_ret. rewrite <- Hb. by apply HQ.
Qed.

End lookups.

(** ** Iteration *)

(** The iterator over the blocks [bs] of [t] has the entries [rest] to yield. *)
Definition it_at (t : SsTable.t) (bs : list entries) (it : SsTableIterator.t) (rest : entries)
    : Prop :=
  exists bs1 bs2 cur1 cur2,
    it = SsTableIterator.mk (path t) (index_of 0 bs) (len bs1) (len cur1) (cur1 ++ cur2) /\
    bs = bs1 ++ bs2 /\ rest = cur2 ++ concat bs2.

Section iteration.
Context (w : World) (t : SsTable.t) (bs : list entries).
Hypothesis Ht : table_ok w t bs.

(** The state after a call: files unchanged, no new failure. *)
Definition after (w1 w' : World) : Prop := w_files w' = w_files w /\ (quiet w1 -> quiet w').

(** Loading the next block, when there is one and the current one is used up. *)
Lemma wp_load_next_block bs1 b bs2 i cur (Q : result unit * SsTableIterator.t -> World -> Prop) E w1 :
  bs = bs1 ++ b :: bs2 -> w_files w1 = w_files w ->
  (forall w', after w1 w' ->
     Q (Ok tt, SsTableIterator.mk (path t) (index_of 0 bs) (len (bs1 ++ [b])) 0 b) w') ->
  (forall e w', after w1 w' -> ~ quiet w1 ->
     Q (Err e, SsTableIterator.mk (path t) (index_of 0 bs) (len bs1) 0 []) w') ->
  wp (SsTableIterator.load_next_block
        (SsTableIterator.mk (path t) (index_of 0 bs) (len bs1) i cur)) Q E w1.
Proof using Ht.
  intros Hsp Hw1 HQ HE. unfold SsTableIterator.load_next_block.
  cbn [SsTableIterator.path SsTableIterator.idx SsTableIterator.block_idx].
  rewrite len_index_of. case_if; [rewrite Hsp in *; len_lia|].
  assert (index (index_of 0 bs) (len bs1) = Ok (block_row (0 + len (data_bytes bs1)) b)) as ->.
  { rewrite Hsp, index_of_app. cbn [index_of]. apply index_app. by rewrite len_index_of. }
  apply wp_bind, wp_ret. cbn [block_row ie_offset ie_length]. unfold wp.
  pose proof Ht as Ht'. rewrite Hsp in Ht'.
  edestruct (wp_run (read_data_block (path t) (0 + len (data_bytes bs1)) (len (data_block b)))
    (fun b' w' => b' = b /\ after w1 w') (fun _ w' => after w1 w' /\ ~ quiet w1) w1)
    as [(b' & w2 & -> & -> & Ha)|(e & w2 & -> & Ha & Hn)].
  - eapply wp_read_data_block; [done|done|by unfold after|]. intros e w' Hw' Hn.
    split; [|done]. split; [done|tauto].
  - replace (len bs1 + 1) with (len (bs1 ++ [b])) by len_lia. by apply HQ.
  - by apply HE.
Qed.

Definition next_post (rest : entries) (w1 : World)
    (r : option (result (bytes * Entry)) * SsTableIterator.t) (w' : World) : Prop :=
  after w1 w' /\
  match r with
  | (None, it') => rest = [] /\ it_at t bs it' []
  | (Some (Ok x), it') => exists rest', rest = x :: rest' /\ it_at t bs it' rest'
  | (Some (Err e), it') => ~ quiet w1 /\ it_at t bs it' rest
  | (Some Panic, _) => False
  end.

Lemma wp_next_loop fuel bs1 bs2 cur1 cur2 E w1 :
  bs = bs1 ++ bs2 -> (length bs2 < fuel)%nat -> w_files w1 = w_files w ->
  wp (SsTableIterator.next_loop fuel
        (SsTableIterator.mk (path t) (index_of 0 bs) (len bs1) (len cur1) (cur1 ++ cur2)))
     (next_post (cur2 ++ concat bs2) w1) E w1.
Proof using Ht.
  revert bs1 bs2 cur1 cur2 w1. induction fuel as [|fuel IH];
    intros bs1 bs2 cur1 cur2 w1 Hsp Hf Hw1; [lia|].
  cbn [SsTableIterator.next_loop SsTableIterator.path SsTableIterator.idx
       SsTableIterator.block_idx SsTableIterator.entry_idx SsTableIterator.current].
  case_if.
  - destruct cur2 as [|x cur2]; [len_lia|]. rewrite index_app by done.
    apply wp_bind, wp_ret, wp_ret. split; [by split|]. exists (cur2 ++ concat bs2).
    split; [done|]. exists bs1, bs2, (cur1 ++ [x]), cur2.
    rewrite <- app_assoc. replace (len (cur1 ++ [x])) with (len cur1 + 1) by len_lia.
    by split_and!.
  - assert (cur2 = []) as -> by (apply len_0_nil; len_lia). rewrite app_nil_r. cbn [app].
    rewrite len_index_of. destruct bs2 as [|b bs2].
    + rewrite app_nil_r in Hsp. case_if; [|subst bs1; lia]. apply wp_ret. split; [by split|].
      split; [done|]. exists bs1, [], cur1, []. rewrite !app_nil_r. by split_and!.
    + case_if; [rewrite Hsp in *; len_lia|]. apply wp_bind.
      eapply wp_load_next_block; [done|done| |].
      * intros w2 [Hw2 Hq2]. eapply wp_mono; [|intros r w3 Hp|by intros e w3 Hp; exact Hp].
        { apply (IH (bs1 ++ [b]) bs2 [] b); [by rewrite <- app_assoc|simpl in Hf; lia|done]. }
        destruct Hp as [[Hw3 Hq3] Hp]. split; [split; [done|tauto]|].
        destruct r as [[[x|e|]|] it']; try done. destruct Hp as [Hn Hp]. split; [tauto|done].
      * intros e w2 Ha Hn. apply wp_ret. split; [done|]. split; [done|].
        exists bs1, (b :: bs2), [], []. by split_and!.
Qed.

Lemma wp_next it rest E w1 :
  it_at t bs it rest -> w_files w1 = w_files w ->
  wp (SsTableIterator.next it) (next_post rest w1) E w1.
Proof using Ht.
  intros (bs1 & bs2 & cur1 & cur2 & -> & Hsp & ->) Hw1. unfold SsTableIterator.next.
  cbn [SsTableIterator.idx]. apply wp_next_loop; [done| |done].
  rewrite length_index_of, Hsp, length_app. lia.
Qed.

Lemma wp_new (Q : SsTableIterator.t -> World -> Prop) E w1 :
  w_files w1 = w_files w ->
  (forall it w', it_at t bs it (concat bs) -> after w1 w' -> Q it w') ->
  (forall e w', after w1 w' -> ~ quiet w1 -> E e w') ->
  wp (SsTableIterator.new t) Q E w1.
Proof using Ht.
  intros Hw1 HQ HE. unfold SsTableIterator.new. apply wp_bind.
  rewrite (table_ok_idx _ _ _ Ht). pose proof (blocks_ok_nonnil bs (tw_blocks _ _ (tok_wf _ _ _ Ht))).
  assert (exists b bs2, bs = [] ++ b :: bs2) as (b & bs2 & Eb) by (destruct bs; [done|eauto]).
  eapply (wp_load_next_block [] b bs2); [done|done| |].
  - intros w2 Ha. apply wp_bind, wp_ret, wp_ret, HQ; [|done].
    exists [b], bs2, [], b. split_and!; [done|done|]. by rewrite Eb.
  - intros e w2 Ha Hn. apply wp_bind, wp_err. by apply HE.
Qed.

End iteration.

(** Every entry of an iterator, up to the first error: [collect] into a
    [Result<Vec<_>>]. *)
Fixpoint drain_table (fuel : nat) (it : SsTableIterator.t) : M World entries :=
  match fuel with
  | O => mlift Panic
  | S fuel' =>
      let! (item, it) := SsTableIterator.next it in
      match item with
      | None => mret []
      | Some r => let! x := mlift r in let! l := drain_table fuel' it in mret (x :: l)
      end
  end.

Lemma wp_drain_table w t bs fuel it rest w1 :
  table_ok w t bs -> it_at t bs it rest -> (length rest < fuel)%nat -> w_files w1 = w_files w ->
  wp (drain_table fuel it) (fun l w' => l = rest /\ after w w1 w') (fun _ _ => ~ quiet w1) w1.
Proof.
  intros Ht. revert it rest w1. induction fuel as [|fuel IH]; intros it rest w1 Hit Hf Hw1; [lia|].
  cbn [drain_table]. apply wp_bind. eapply wp_mono; [by apply (wp_next w t bs Ht it rest (fun _ _ => False))| |done].
  intros [[[x|e|]|] it'] w2 [[Hw2 Hq2] Hp]; [|exact (proj1 Hp)|done|by destruct Hp as [-> _]].
  destruct Hp as (rest' & -> & Hit'). apply wp_bind, wp_ret, wp_bind.
  eapply wp_mono; [apply (IH it' rest' w2); [done|simpl in Hf; lia|done]| |by intros ? ? Hn Hq; apply Hn, Hq2].
  intros l w3 [-> [Hw3 Hq3]]. apply wp_ret. split; [done|]. split; [done|tauto].
Qed.

(** ** Properties *)

(** What a written table promises to its readers, for the entries [l]. *)
Definition reads_back (t : SsTable.t) (w : World) (l : entries) : Prop :=
  exists bs, concat bs = l /\
    (forall reg c key cache, reg !! id t = Some bs -> coherent reg c -> key <> [] ->
       exists c' w', get t key cache (c, w) = (Ok (alookup l key), (c', w')) /\ coherent reg c') /\
    (forall fuel, (length l < fuel)%nat ->
       exists it w1 w2, SsTableIterator.new t w = (Ok it, w1) /\ drain_table fuel it w1 = (Ok l, w2)).

Lemma table_ok_reads_back w t bs : table_ok w t bs -> quiet w -> reads_back t w (concat bs).
Proof.
  intros Ht Hq. exists bs. split_and!; [done| |].
  - intros reg c key cache Hr Hc Hk.
    edestruct (wp_run (get t key cache) (fun r cw => r = alookup (concat bs) key /\
      coherent reg (fst cw)) (fun _ _ => False) (c, w)) as [(r & [c' w'] & E & -> & Hc')|(e & ? & _ & [])].
    + eapply (wp_get reg w t bs Ht Hr); [done|done|done|by intros|by intros].
    + eauto.
  - intros fuel Hf.
    edestruct (wp_run (SsTableIterator.new t) (fun it w1 => it_at t bs it (concat bs) /\
      after w w w1) (fun _ _ => False) w) as [(it & w1 & E1 & Hit & Hw1 & Hq1)|(e & ? & _ & [])].
    { eapply (wp_new w t bs Ht); [done|by intros|by intros]. }
    edestruct (wp_run (drain_table fuel it) (fun l w' => l = concat bs /\ after w w1 w')
      (fun _ _ => ~ quiet w1) w1) as [(l & w2 & E2 & -> & _)|(e & ? & _ & Hn)];
      [by apply (wp_drain_table w t bs)| |by destruct Hn; auto].
    eauto 6.
Qed.

(** C19: what is written is what is read: in the table that [SsTable::create]
    returns, and in the one [SsTable::open] returns after a restart, every
    lookup of a key (through any coherent cache, or none) gives exactly the
    entry that was written for it, tombstones included, or nothing, and the
    iterator yields the entries in key order. *)
Theorem table_read_write `{Libm} final id l fp block_size w t w' :
  ksorted l -> Forall entry_ok l -> len l < 2 ^ 30 -> 0 <= block_size <= 2 ^ 31 ->
  libm_ok -> ends_with final ".tmp" = false -> quiet w ->
  create final id l fp block_size w = (Ok t, w') ->
  reads_back t w' l /\
  (forall w2, crashed w' w2 -> exists t2 w3, open final id w2 = (Ok t2, w3) /\ reads_back t2 w3 l).
Proof.
  intros Hs Hok Hlen Hbs Hfp Hname Hq E.
  eapply (wp_Ok _ (fun t w' => exists bs f, concat bs = l /\ table_wf bs f /\
    t = table_of final id bs f /\ published final bs f w w' /\ quiet w') (fun _ _ => True)) in E
    as (bs & f & <- & Hwf & -> & Hp & Hq').
  2: { apply wp_create; try done. intros bs f w1 ????. exists bs, f. split_and!; auto. }
  assert (forall w, w_files w !! final = Some (mkFile (table_bytes bs f) (table_bytes bs f)) ->
    table_ok w (table_of final id bs f) bs) as Hokay by (intros; by split).
  assert (w_files w' !! final = Some (mkFile (table_bytes bs f) (table_bytes bs f))) as Hf.
  { unfold published in Hp. by rewrite Hp, lookup_insert_eq. }
  split; [by apply table_ok_reads_back; [apply Hokay|]|]. intros w2 Hc.
  pose proof (crashed_synced _ _ _ _ Hc Hf) as Hf2.
  assert (quiet w2) as Hq2 by (destruct Hc as (? & ? & _); done).
  edestruct (wp_run (open final id) (fun t w3 => t = table_of final id bs f /\
    w_files w3 = w_files w2 /\ quiet w3) (fun _ _ => False) w2)
    as [(t & w3 & E & -> & Hw3 & Hq3)|(e & w3 & _ & [])].
  - eapply wp_open; [done|done|done|by intros; auto|by intros].
  - exists (table_of final id bs f), w3. split; [done|]. apply table_ok_reads_back; [|done].
    apply Hokay. congruence.
Qed.

Lemma table_read_write_witness :
  let run := create (H := demo_libm) "000001.sst" 1 sample_entries one_percent 16 empty_world in
  exists t w', run = (Ok t, w') /\ reads_back t w' sample_entries.
Proof.
  cbv zeta. eexists _, _. split; [vm_compute; reflexivity|].
  eapply (table_read_write (H := demo_libm) "000001.sst" 1 sample_entries one_percent 16
    empty_world); [exact sample_sorted|exact sample_ok|reflexivity|lia|apply demo_libm_ok|reflexivity
    |split; reflexivity|vm_compute; reflexivity].
Defined.
