(* ===== verification/Integrity.v ===== *)
(** * Damaged tables ([src/sstable.rs])

    A table file in which one byte has changed is never read as data.  Every
    part of the file is under a checksum, so [SsTable::open] and the readers of
    blocks return what was written or an error, and a pass over the whole table
    does fail. *)

From S2P Require Import Prelude Bytes Errors Crc Collections Records World Memtable Bloom Cache.
From S2P Require Import Format Names SsTables TableWrite TableRead.

Import SsTable.

(** ** One changed byte *)

Definition damaged (good bad : bytes) : Prop :=
  exists pre x y post, good = pre ++ x :: post /\ bad = pre ++ y :: post /\ x <> y.

(** What a read of a part of a damaged file may give. *)
Definition intact_or_damaged (good bad : bytes) : Prop := bad = good \/ damaged good bad.

Lemma damaged_len good bad : damaged good bad -> len bad = len good.
Proof. intros (pre & x & y & post & -> & -> & _). len_lia. Qed.

Lemma intact_or_damaged_len good bad : intact_or_damaged good bad -> len bad = len good.
Proof. intros [->|H]; [done|by apply damaged_len]. Qed.

(** The change is in one of two parts. *)
Lemma damaged_app u v bad :
  damaged (u ++ v) bad ->
  (exists u', bad = u' ++ v /\ damaged u u') \/ (exists v', bad = u ++ v' /\ damaged v v').
Proof.
  intros (pre & x & y & post & E & -> & Hne). apply app_cut in E as [(k & -> & ->)|(k & -> & ->)].
  - left. exists (pre ++ y :: k). split; [by rewrite <- app_assoc|]. by exists pre, x, y, k.
  - right. exists (k ++ y :: post). split; [by rewrite <- app_assoc|]. by exists k, x, y, post.
Qed.

Lemma damaged_sub_list u s v bad a b :
  damaged (u ++ s ++ v) bad -> a = len u -> b = len u + len s ->
  exists s', sub_list bad a b = Some s' /\ intact_or_damaged s s'.
Proof.
  intros Hd -> ->. destruct (damaged_app _ _ _ Hd) as [(u' & -> & Hu)|(v' & -> & Hv)].
  - exists s. split; [|by left]. apply damaged_len in Hu. apply sub_list_app; lia.
  - destruct (damaged_app _ _ _ Hv) as [(s' & -> & Hs)|(v2 & -> & _)].
    + exists s'. split; [|by right]. apply damaged_len in Hs. apply sub_list_app; lia.
    + exists s. split; [|by left]. by apply sub_list_app.
Qed.

(** ** The decoders reject a changed byte *)

(** The checks that the decoders of blocks and of the index start with. *)
Lemma frame_checked bs :
  4 <= len bs -> exists s c body, slice_from bs (len bs - 4) = Ok s /\ read_u32_le s = Ok c /\
    slice bs 0 (len bs - 4) = Ok body /\ (crc32 body = c -> framed_after bs).
Proof.
  intros Hl. destruct (split_at bs (len bs - 4)) as (body & s & E & Hb); [lia|].
  assert (len s = 4) as Hs by (rewrite E in Hb; len_lia). destruct (le_field s 4 Hs) as (c & -> & Hc).
  exists (le_bytes 4 c), c, body. rewrite E at 1 3. split_and!.
  - by apply slice_from_app.
  - by apply read_u32_le_bytes.
  - by apply slice_app_l.
  - intros <-. by exists body.
Qed.

Lemma decode_block_framed bs l : decode_block bs = Ok l -> framed_after bs.
Proof.
  unfold decode_block. case_if; [done|].
  destruct (frame_checked bs) as (s & c & body & -> & Hc & -> & Hf); [lia|]. rsimpl. rewrite Hc. rsimpl.
  case_if; [done|]. intros _. by apply Hf.
Qed.

Lemma decode_index_framed bs l : decode_index bs = Ok l -> framed_after bs.
Proof.
  unfold decode_index. case_if; [done|].
  destruct (frame_checked bs) as (s & c & body & -> & Hc & -> & Hf); [lia|]. rsimpl. rewrite Hc. rsimpl.
  case_if; [done|]. intros _. by apply Hf.
Qed.

Lemma damaged_frame good bad : framed_after good -> damaged good bad -> ~ framed_after bad.
Proof. intros Hg (pre & x & y & post & -> & -> & Hne) Hb. by apply Hne, (framed_after_one_byte pre x y post). Qed.

Lemma damaged_block b bad : damaged (data_block b) bad -> exists e, decode_block bad = Err e.
Proof.
  intros Hd. destruct (decode_block bad) as [l|e|] eqn:E; [|by eauto|by apply decode_block_no_panic in E].
  apply decode_block_framed in E. exfalso. eapply damaged_frame; [|done|done]. by eexists.
Qed.

Lemma damaged_index idx bad : damaged (encode_index idx) bad -> exists e, decode_index bad = Err e.
Proof.
  intros Hd. destruct (decode_index bad) as [l|e|] eqn:E; [|by eauto|by apply decode_index_no_panic in E].
  apply decode_index_framed in E. exfalso. eapply damaged_frame; [|done|done]. by eexists.
Qed.

Lemma damaged_filter f bad : damaged (BloomFilter.encode f) bad -> exists e, BloomFilter.decode bad = Err e.
Proof.
  intros Hd. destruct (decode_cases bad) as [?|(f' & _ & Hf & _)]; [done|].
  exfalso. eapply damaged_frame; [|done|done]. by eexists.
Qed.

(** A footer that passes its checks is a frame and the magic number. *)
Lemma decode_footer_framed bs r :
  len bs = FOOTER_LEN -> decode_footer bs = Ok r ->
  exists body, bs = body ++ le_bytes 4 MAGIC /\ framed_after body.
Proof.
  unfold FOOTER_LEN. intros Hl. destruct (split_at bs 40) as (fields & k & -> & Hf); [lia|].
  destruct (split_at k 4) as (c & m & -> & Hc); [len_lia|].
  destruct (le_field c 4 Hc) as (crc & -> & Hcrc), (le_field m 4) as (magic & -> & Hmagic); [len_lia|].
  unfold decode_footer. rewrite (app_assoc fields).
  rewrite slice_app_r by len_lia. rsimpl. rewrite read_u32_le_bytes by done. rsimpl.
  case_if; [done|]. rewrite <- app_assoc. slice_as fields (le_bytes 4 crc). rewrite read_u32_le_bytes by done. rsimpl.
  rewrite slice_app_l by done. rsimpl. case_if; [done|]. intros _. subst magic crc.
  exists (fields ++ le_bytes 4 (crc32 fields)). split; [by rewrite <- app_assoc|by exists fields].
Qed.

Lemma damaged_footer io il bo bl bad : damaged (encode_footer io il bo bl) bad -> exists e, decode_footer bad = Err e.
Proof.
  intros Hd. pose proof (damaged_len _ _ Hd) as Hl. rewrite len_encode_footer in Hl.
  destruct (decode_footer bad) as [r|e|] eqn:E; [|by eauto|by apply decode_footer_no_panic in E].
  exfalso. apply decode_footer_framed in E as (body & -> & Hf); [|done]. revert Hd. unfold encode_footer. cbv zeta.
  set (fields := le_bytes 8 io ++ _). rewrite app_assoc. intros [(u & E & Hu)|(v & E & Hv)]%damaged_app.
  - apply app_inj_2 in E as [-> _]; [|done]. eapply damaged_frame; [|done|done]. by exists fields.
  - pose proof (damaged_len _ _ Hv) as Hlv. apply app_inj_2 in E as [_ <-].
    + destruct Hv as (pre & x & y & post & E1 & E2 & Hne). rewrite E1 in E2. apply app_inv_head in E2. by injection E2.
    + unfold len in Hlv. lia.
Qed.

(** ** Reading from a damaged file *)

Section damaged_table.
Context (p : string) (id : Z) (bs : list entries) (f : BloomFilter.t) (bad dur : bytes).
Hypothesis Hwf : table_wf bs f.
Hypothesis Hd : damaged (table_bytes bs f) bad.

Definition is_damaged (w : World) : Prop := w_files w !! p = Some (mkFile bad dur).

(** A read of a part of the file. *)
Lemma wp_read_part u s v a n (Q : bytes -> World -> Prop) (E : Error -> World -> Prop) w :
  is_damaged w -> table_bytes bs f = u ++ s ++ v -> a = len u -> n = len s ->
  (forall s' w', w_files w' = w_files w -> intact_or_damaged s s' -> Q s' w') ->
  (forall e w', w_files w' = w_files w -> E e w') ->
  wp (read_exact p a n) Q E w.
Proof using Hd.
  intros Hw Ht -> -> HQ HE. rewrite Ht in Hd.
  destruct (damaged_sub_list u s v bad (len u) (len u + len s) Hd) as (s' & Hs & Hi); [done|done|].
  eapply wp_read_exact; [done|done| |]; intros; [by apply HQ|by apply HE].
Qed.

(** The parts of the damaged file, one of which has the changed byte. *)
Lemma damaged_parts :
  let i := encode_index (index_of 0 bs) in
  let foot := encode_footer (len (data_bytes bs)) (len i) (len (data_bytes bs) + len i) (len (BloomFilter.encode f)) in
  exists d' i' b' foot', bad = d' ++ i' ++ b' ++ foot' /\
    len d' = len (data_bytes bs) /\ len i' = len i /\ len b' = len (BloomFilter.encode f) /\ len foot' = FOOTER_LEN /\
    (damaged (data_bytes bs) d' /\ i' = i /\ b' = BloomFilter.encode f /\ foot' = foot \/
     damaged i i' /\ foot' = foot \/ damaged (BloomFilter.encode f) b' /\ i' = i /\ foot' = foot \/ damaged foot foot').
Proof using Hd.
  intros i foot. unfold table_bytes in Hd. cbv zeta in Hd. fold i foot in Hd.
  pose proof (len_encode_footer (len (data_bytes bs)) (len i) (len (data_bytes bs) + len i)
    (len (BloomFilter.encode f)) : len foot = _) as Hfl.
  destruct (damaged_app _ _ _ Hd) as [(d' & -> & H1)|(v1 & -> & H1)];
    [|destruct (damaged_app _ _ _ H1) as [(i' & -> & H2)|(v2 & -> & H2)];
      [|destruct (damaged_app _ _ _ H2) as [(b' & -> & H3)|(foot' & -> & H3)]]].
  all: eexists _, _, _, _; split; [done|].
  - apply damaged_len in H1 as ?. split_and!; try done. by left.
  - apply damaged_len in H2 as ?. split_and!; try done. by right; left.
  - apply damaged_len in H3 as ?. split_and!; try done. by right; right; left.
  - apply damaged_len in H3 as ?. split_and!; try done. by right; right; right.
Qed.

(** [open] fails, or returns the handle of the table that was written; then the
    changed byte is in a data block. *)
Lemma wp_open_damaged (Q : t -> World -> Prop) E w :
  is_damaged w ->
  (forall w' d' k, w_files w' = w_files w -> damaged (data_bytes bs) d' -> bad = d' ++ k ->
     Q (table_of p id bs f) w') ->
  (forall e w', w_files w' = w_files w -> E e w') ->
  wp (open p id) Q E w.
Proof using Hwf Hd.
  intros Hw HQ HE. unfold open. case_if; [by apply wp_err, HE|].
  destruct (table_sections bs f Hwf) as (Hdl & Hil & Hbl & _).
  pose proof (table_footer_decodes bs f Hwf) as Hfoot. pose proof (table_index_decodes bs f Hwf) as Hidx.
  cbn zeta in Hfoot. destruct damaged_parts as (d' & i' & b' & foot' & Eb & Hd1 & Hi1 & Hb1 & Hf1 & Hcase).
  cbn zeta in Hcase. set (d := data_bytes bs) in *. set (i := encode_index (index_of 0 bs)) in *.
  set (b := BloomFilter.encode f) in *. set (foot := encode_footer _ _ _ _) in *. unfold FOOTER_LEN in *.
  pose proof (len_nonneg d). pose proof (len_nonneg i). pose proof (len_nonneg b).
  assert (len bad = len d + len i + len b + 48) as Hlen by (rewrite Eb; len_lia).
  apply wp_bind. eapply wp_open_read; [exact Hw| |intros; by apply HE]. intros w1 Hw1 _.
  apply wp_bind. eapply wp_file_len; [by rewrite Hw1| |intros; apply HE; congruence].
  intros w2 Hw2 _. cbn [f_data]. case_if; [lia|].
  apply wp_bind. eapply (wp_read_exact p _ _ _ foot'); [by rewrite Hw2, Hw1| | |intros; apply HE; congruence].
  { cbn [f_data]. replace bad with ((d' ++ i' ++ b') ++ foot' ++ [])
      by (rewrite Eb, app_nil_r; by rewrite <- !app_assoc).
    apply sub_list_app; len_lia. }
  intros w3 Hw3 _. apply wp_bind. destruct Hcase as [(Hd' & -> & -> & ->)|[[Hi' ->]|[(Hb' & -> & ->)|Hf']]].
  4: { destruct (damaged_footer _ _ _ _ _ Hf') as [e ->]. apply wp_err, HE. congruence. }
  all: rewrite Hfoot; apply wp_ret;
    (case_if; [repeat (apply orb_true_iff in E1 as [E1|E1]); unfold u64_max in *; reflect_bools; lia|]).
  all: apply wp_bind; eapply wp_read_exact;
    [by rewrite Hw3, Hw2, Hw1|cbn [f_data]; rewrite Eb; apply sub_list_app; lia| |intros; apply HE; congruence];
    intros w4 Hw4 _; apply wp_bind.
  2: { destruct (damaged_index _ _ Hi') as [e ->]. apply wp_err, HE. congruence. }
  all: rewrite Hidx; apply wp_ret, wp_bind; eapply wp_read_exact;
    [by rewrite Hw4, Hw3, Hw2, Hw1|cbn [f_data]; rewrite Eb, (app_assoc d'); apply sub_list_app; len_lia
    | |intros; apply HE; congruence]; intros w5 Hw5 _; apply wp_bind.
  2: { destruct (damaged_filter _ _ Hb') as [e ->]. apply wp_err, HE. congruence. }
  unfold b. rewrite decode_encode by (by destruct Hwf). apply wp_ret, wp_ret.
  destruct (index_range bs (tw_blocks _ _ Hwf)) as [-> ->]. rewrite (damaged_len _ _ Hd).
  eapply HQ; [congruence|done|done].
Qed.

(** ** Lookups in a damaged table *)

Abbreviation handle := (table_of p id bs f).

(** The handle is the one of an intact table. *)
Lemma handle_ok : exists w, table_ok w handle bs.
Proof using Hwf.
  exists (mkWorld {[ p := mkFile (table_bytes bs f) (table_bytes bs f) ]} None []).
  split; [done|done|]. apply lookup_singleton_eq.
Qed.

Lemma wp_read_block_damaged bs1 b bs2 (Q : entries -> World -> Prop) (E : Error -> World -> Prop) w :
  bs = bs1 ++ b :: bs2 -> is_damaged w ->
  (forall w', w_files w' = w_files w -> Q b w') -> (forall e w', w_files w' = w_files w -> E e w') ->
  wp (read_data_block p (0 + len (data_bytes bs1)) (len (data_block b))) Q E w.
Proof using Hwf Hd.
  intros Hsp Hw HQ HE. unfold read_data_block. apply wp_bind.
  eapply wp_open_read; [exact Hw| |intros; by apply HE]. intros w1 Hw1 _. apply wp_bind.
  eapply (wp_read_part (data_bytes bs1) (data_block b)); [by unfold is_damaged; rewrite Hw1| |lia|done| |].
  { unfold table_bytes. rewrite Hsp, data_bytes_app, data_bytes_cons, <- !app_assoc. done. }
  - intros s' w2 Hw2 [->|Hs].
    + rewrite (block_decodes bs1 b bs2 f) by (by rewrite <- Hsp). apply HQ. congruence.
    + destruct (damaged_block _ _ Hs) as [e ->]. apply HE. congruence.
  - intros e w2 Hw2. apply HE. congruence.
Qed.

Lemma wp_load_block_damaged reg i b cache (Q : BlockData -> CW -> Prop) (E : Error -> CW -> Prop) c w :
  reg !! id = Some bs -> bs !! i = Some b -> coherent reg c -> is_damaged w ->
  (forall cw, Q b cw) -> (forall e cw, E e cw) ->
  wp (load_block handle i cache) Q E (c, w).
Proof using Hwf Hd.
  intros Hreg Hi Hc Hw HQ HE. unfold load_block. cbn [table_of idx].
  destruct (index_of_lookup 0 bs i b Hi) as (bs1 & bs2 & Hsp & _ & ->). apply wp_bind, wp_ret.
  cbn [block_row ie_offset ie_length]. set (k := {| table_id := _ |}).
  assert (forall c1, wp (let! block := on_world (read_data_block p (0 + len (data_bytes bs1)) (len (data_block b))) in
    let! _ := (if cache then cache_insert k block else mret tt) in mret block) Q E (c1, w)) as Hmiss.
  { intros c1. apply wp_bind, wp_on_world. eapply wp_read_block_damaged; [done|done| |done].
    intros w1 _. apply wp_bind. destruct cache; [by apply HQ|]. apply wp_ret, wp_ret, HQ. }
  destruct cache; apply wp_bind; [|by apply wp_ret]. unfold wp at 1, cache_get. cbn [fst snd].
  pose proof (get_result c k) as Hg. destruct (BlockCache.get c k) as [[b'|] c1] eqn:Eg; cbn [fst snd] in *; [|done].
  destruct (Hc k b') as (bs' & Hr & Hat'); [done|]. cbn in Hr. rewrite Hreg in Hr. injection Hr as <-.
  assert (block_at bs (Cache.offset k) b) as Hat by (exists bs1, bs2; split; [done|cbn; lia]).
  rewrite (block_at_inj _ _ _ _ Hat' Hat). apply wp_ret, HQ.
Qed.

(** A lookup gives what was written, or an error. *)
Lemma wp_get_damaged reg key cache c w :
  key <> [] -> reg !! id = Some bs -> coherent reg c -> is_damaged w ->
  wp (get handle key cache) (fun r _ => r = alookup (concat bs) key) (fun _ _ => True) (c, w).
Proof using Hwf Hd.
  intros Hk Hreg Hc Hw. destruct handle_ok as [wg Hg]. unfold get.
  destruct (contains_range handle key) eqn:Er; cbn [negb].
  2: { apply wp_ret. by rewrite (contains_range_complete wg handle bs Hg key Hk Er). }
  destruct (might_contain_spec f key) as (r & Em & Hr); [apply Hwf|].
  apply wp_bind. cbn [table_of bloom]. rewrite Em. apply wp_ret. destruct r; cbn [negb].
  2: { apply wp_ret. symmetry. apply alookup_None. intros Hin%(tw_keys _ _ Hwf). by apply Hr in Hin. }
  pose proof (block_for_key_spec bs (tw_sorted _ _ Hwf) (tw_blocks _ _ Hwf) handle key eq_refl) as Hb.
  destruct (block_for_key handle key) as [i|]; [|by apply wp_ret]. destruct Hb as (b & Hi & Hb).
  apply wp_bind. eapply wp_load_block_damaged; [done|done|done|done| |done]. intros cw. apply wp_ret.
  rewrite search_block_lookup, <- Hb; [done|].
  eapply block_sorted; [apply Hwf|]. by eapply list_elem_of_lookup_2.
Qed.

End damaged_table.

(** ** A pass over a damaged table *)

(** The damaged block. *)
Lemma damaged_concat (l : list bytes) bad :
  damaged (concat l) bad ->
  exists l1 x l2 x', l = l1 ++ x :: l2 /\ bad = concat l1 ++ x' ++ concat l2 /\ damaged x x'.
Proof.
  revert bad. induction l as [|y l IH]; intros bad; cbn [concat].
  { intros (pre & ? & ? & ? & E & _). by destruct pre. }
  intros [(y' & -> & Hy)|(v & -> & Hv)]%damaged_app.
  - by exists [], y, l, y'.
  - destruct (IH v Hv) as (l1 & x & l2 & x' & -> & -> & Hx). exists (y :: l1), x, l2, x'.
    split; [done|]. cbn [concat]. by rewrite <- app_assoc.
Qed.

Lemma damaged_data bs d' :
  damaged (data_bytes bs) d' ->
  exists bs1 b bs2 s' k, bs = bs1 ++ b :: bs2 /\ d' = data_bytes bs1 ++ s' ++ k /\ damaged (data_block b) s'.
Proof.
  intros (l1 & x & l2 & x' & E & -> & Hx)%damaged_concat.
  apply fmap_app_inv in E as (bs1 & r & -> & E & ->). symmetry in E.
  apply fmap_cons_inv in E as (b & bs2 & -> & -> & ->). by exists bs1, b, bs2, x', (concat (data_block <$> bs2)).
Qed.

Section damaged_pass.
Context (p : string) (id : Z) (f : BloomFilter.t) (bs1 : list entries) (b : entries) (bs2 : list entries).
Context (s' k dur : bytes).
Abbreviation blocks := (bs1 ++ b :: bs2).
Abbreviation bad := (data_bytes bs1 ++ s' ++ k).
Hypothesis Hwf : table_wf blocks f.
Hypothesis Hd : damaged (table_bytes blocks f) bad.
Hypothesis Hs : damaged (data_block b) s'.

(** The iterator has [n] entries to yield before the damaged block. *)
Definition before (it : SsTableIterator.t) (n : nat) : Prop :=
  exists dn td cur1 cur2,
    it = SsTableIterator.mk p (index_of 0 blocks) (len dn) (len cur1) (cur1 ++ cur2) /\
    bs1 = dn ++ td /\ n = length (cur2 ++ concat td).

(** The damaged block itself cannot be read. *)
Lemma wp_read_damaged (Q : entries -> World -> Prop) (E : Error -> World -> Prop) w :
  is_damaged p bad dur w -> (forall e w', w_files w' = w_files w -> E e w') ->
  wp (read_data_block p (0 + len (data_bytes bs1)) (len (data_block b))) Q E w.
Proof using Hs.
  intros Hw HE. unfold read_data_block. apply wp_bind.
  eapply wp_open_read; [exact Hw| |intros; by apply HE]. intros w1 Hw1 _. apply wp_bind.
  pose proof (damaged_len _ _ Hs). eapply (wp_read_exact p _ _ _ s'); [by rewrite Hw1| | |intros; apply HE; congruence].
  - cbn [f_data]. apply sub_list_app; lia.
  - intros w2 Hw2 _. destruct (damaged_block _ _ Hs) as [e ->]. apply HE. congruence.
Qed.

(** Loading a block before it gives the block or an error; loading it, an error. *)
Lemma wp_load_damaged dn td i cur (Q : result () * SsTableIterator.t -> World -> Prop) E w :
  bs1 = dn ++ td -> is_damaged p bad dur w ->
  (forall w' b1 td', td = b1 :: td' -> w_files w' = w_files w ->
     Q (Ok (), SsTableIterator.mk p (index_of 0 blocks) (len (dn ++ [b1])) 0 b1) w') ->
  (forall w' e it, w_files w' = w_files w -> Q (Err e, it) w') ->
  wp (SsTableIterator.load_next_block (SsTableIterator.mk p (index_of 0 blocks) (len dn) i cur)) Q E w.
Proof using Hwf Hd Hs.
  intros Hsp Hw HQ HE. unfold SsTableIterator.load_next_block.
  cbn [SsTableIterator.path SsTableIterator.idx SsTableIterator.block_idx].
  rewrite len_index_of. case_if; [rewrite Hsp in *; len_lia|].
  assert (exists b1 rest, blocks = dn ++ b1 :: rest /\ (td = [] /\ b1 = b /\ bs1 = dn \/ exists td', td = b1 :: td'))
    as (b1 & rest & Eb & Hcase).
  { rewrite Hsp, <- app_assoc. destruct td as [|b1 td']; cbn [app]; [|by eauto 6].
    exists b, bs2. split; [done|]. left. rewrite app_nil_r. done. }
  assert (index (index_of 0 blocks) (len dn) = Ok (block_row (0 + len (data_bytes dn)) b1)) as ->.
  { rewrite Eb, index_of_app. cbn [index_of]. apply index_app. by rewrite len_index_of. }
  apply wp_bind, wp_ret. cbn [block_row ie_offset ie_length]. unfold wp.
  edestruct (wp_run (read_data_block p (0 + len (data_bytes dn)) (len (data_block b1)))
    (fun b' w' => b' = b1 /\ w_files w' = w_files w /\ exists td', td = b1 :: td')
    (fun _ w' => w_files w' = w_files w) w) as [(b' & w2 & -> & -> & Hw2 & td' & Etd)|(e & w2 & -> & Hw2)].
  - destruct Hcase as [(-> & -> & <-)|[td' Etd]].
    + eapply wp_read_damaged; [exact Hw|done].
    + eapply wp_read_block_damaged; [exact Hwf|exact Hd|exact Eb|exact Hw|eauto|done].
  - replace (len dn + 1) with (len (dn ++ [b1])) by len_lia. by eapply HQ.
  - by apply HE.
Qed.

(** [next] does not reach the end. *)
Definition next_damaged (n : nat) (w : World) (r : option (result (bytes * Entry)) * SsTableIterator.t) (w' : World)
    : Prop :=
  w_files w' = w_files w /\
  match r with
  | (Some (Ok x), it') => exists n', n = S n' /\ before it' n'
  | (Some (Err e), _) => True
  | _ => False
  end.

Lemma wp_next_damaged_loop fuel dn td cur1 cur2 E w :
  bs1 = dn ++ td -> (length td < fuel)%nat -> is_damaged p bad dur w ->
  wp (SsTableIterator.next_loop fuel
        (SsTableIterator.mk p (index_of 0 blocks) (len dn) (len cur1) (cur1 ++ cur2)))
     (next_damaged (length (cur2 ++ concat td)) w) E w.
Proof using Hwf Hd Hs.
  revert dn td cur1 cur2 w. induction fuel as [|fuel IH]; intros dn td cur1 cur2 w Hsp Hf Hw; [lia|].
  cbn [SsTableIterator.next_loop SsTableIterator.path SsTableIterator.idx
       SsTableIterator.block_idx SsTableIterator.entry_idx SsTableIterator.current].
  case_if.
  - destruct cur2 as [|x cur2]; [len_lia|]. rewrite index_app by done.
    apply wp_bind, wp_ret, wp_ret. split; [done|]. exists (length (cur2 ++ concat td)).
    split; [done|]. exists dn, td, (cur1 ++ [x]), cur2.
    rewrite <- app_assoc. replace (len (cur1 ++ [x])) with (len cur1 + 1) by len_lia. by split_and!.
  - assert (cur2 = []) as -> by (apply len_0_nil; len_lia). rewrite app_nil_r. cbn [app].
    rewrite len_index_of. case_if; [rewrite Hsp in *; len_lia|]. apply wp_bind.
    eapply wp_load_damaged; [exact Hsp|exact Hw| |].
    + intros w2 b1 td' -> Hw2. eapply wp_mono; [|intros r w3 Hp|by intros e w3 Hp; exact Hp].
      * apply (IH (dn ++ [b1]) td' [] b1); [by rewrite <- app_assoc|simpl in Hf; lia|].
        unfold is_damaged. by rewrite Hw2.
      * destruct Hp as [Hw3 Hp]. split; [congruence|]. exact Hp.
    + intros w2 e it Hw2. apply wp_ret. by split.
Qed.

(** A pass over the table fails. *)
Lemma wp_drain_damaged fuel it n w :
  before it n -> (n < fuel)%nat -> is_damaged p bad dur w ->
  wp (drain_table fuel it) (fun _ _ => False) (fun _ _ => True) w.
Proof using Hwf Hd Hs.
  revert it n w. induction fuel as [|fuel IH]; intros it n w Hit Hf Hw; [lia|]. cbn [drain_table]. apply wp_bind.
  destruct Hit as (dn & td & cur1 & cur2 & -> & Hsp & ->).
  eapply wp_mono; [apply (wp_next_damaged_loop _ dn td cur1 cur2 (fun _ _ => False)); [done| |done]| |done].
  { cbn [SsTableIterator.idx]. rewrite length_index_of, Hsp, !length_app. lia. }
  intros [[[x|e|]|] it'] w2 [Hw2 Hp]; [|apply wp_bind, wp_err; done|done|done].
  destruct Hp as (n' & En & Hit'). apply wp_bind, wp_ret, wp_bind.
  eapply wp_mono; [apply (IH it' n'); [done|lia|]|done|done]. unfold is_damaged. by rewrite Hw2.
Qed.

Lemma wp_pass_damaged fuel w :
  (length (concat bs1) < fuel)%nat -> is_damaged p bad dur w ->
  wp (let! it := SsTableIterator.new (table_of p id blocks f) in drain_table fuel it)
    (fun _ _ => False) (fun _ _ => True) w.
Proof using Hwf Hd Hs.
  intros Hf Hw. apply wp_bind. unfold SsTableIterator.new. cbn [table_of idx path]. apply wp_bind.
  eapply (wp_load_damaged [] bs1); [done|exact Hw| |].
  - intros w2 b1 td' E Hw2. apply wp_bind, wp_ret, wp_ret.
    apply (wp_drain_damaged fuel _ (length (concat bs1))); [|done|unfold is_damaged; by rewrite Hw2].
    exists ([] ++ [b1]), td', [], b1. rewrite E. by split_and!.
  - intros w2 e it Hw2. by apply wp_bind, wp_err.
Qed.

End damaged_pass.

(** ** Properties *)

(** C20: a changed byte is never read as data.  Change any one byte of a table file
    that [SsTable::create] reported as written.  Then [SsTable::open] returns an
    error or the handle of the table; through this handle every lookup, with
    any coherent cache or none, returns the entry that was written or an error,
    and a pass over the whole table, as a compaction makes it, returns an
    error.  Nothing panics. *)
Theorem table_detects_corruption `{Libm} final id l fp block_size w t w' file bad w2 :
  ksorted l -> Forall entry_ok l -> len l < 2 ^ 30 -> 0 <= block_size <= 2 ^ 31 -> libm_ok ->
  create final id l fp block_size w = (Ok t, w') ->
  w_files w' !! final = Some file -> damaged (f_data file) bad ->
  w_files w2 !! final = Some (mkFile bad bad) ->
  match open final id w2 with
  | (Ok t2, w3) => t2 = t /\ exists bs, concat bs = l /\
      (forall reg c key cache, reg !! id = Some bs -> coherent reg c -> key <> [] ->
         match fst (get t2 key cache (c, w3)) with
         | Ok r => r = alookup l key
         | Err _ => True
         | Panic => False
         end) /\
      (forall fuel, (length l < fuel)%nat ->
         exists e, fst ((let! it := SsTableIterator.new t2 in drain_table fuel it) w3) = Err e)
  | (Err _, _) => True
  | (Panic, _) => False
  end.
Proof.
  intros Hs Hok Hlen Hbs Hfp E Hfile Hdam Hw2.
  eapply (wp_Ok _ (fun t w' => exists bs f, concat bs = l /\ table_wf bs f /\
    t = table_of final id bs f /\ published final bs f w w') (fun _ _ => True)) in E
    as (bs & f & <- & Hwf & -> & Hp).
  2: { apply wp_create; try done. intros bs f w1 ????. exists bs, f. split_and!; auto. }
  unfold published in Hp. rewrite Hp, lookup_insert_eq in Hfile. injection Hfile as <-. cbn [f_data] in Hdam.
  edestruct (wp_run (open final id) (fun t2 w3 => t2 = table_of final id bs f /\ w_files w3 = w_files w2 /\
    exists d' k, damaged (data_bytes bs) d' /\ bad = d' ++ k) (fun _ _ => True) w2)
    as [(t2 & w3 & -> & -> & Hw3 & d' & k & Hd' & Eb)|(e & w3 & -> & _)]; [|split; [done|]|done].
  { eapply (wp_open_damaged final id bs f bad bad Hwf Hdam); [exact Hw2|eauto 8|done]. }
  assert (is_damaged final bad bad w3) as Hw by (unfold is_damaged; by rewrite Hw3).
  exists bs. split; [done|]. split.
  - intros reg c key cache Hreg Hc Hk.
    edestruct (wp_run (get (table_of final id bs f) key cache) (fun r _ => r = alookup (concat bs) key)
      (fun _ _ => True) (c, w3)) as [(r & cw & -> & ->)|(e & cw & -> & _)]; [|done|done].
    by eapply (wp_get_damaged final id bs f bad bad Hwf Hdam).
  - intros fuel Hfuel. destruct (damaged_data _ _ Hd') as (bs1 & b & bs2 & s' & k' & -> & -> & Hsb).
    rewrite <- !app_assoc in Eb. subst bad.
    edestruct (wp_run (let! it := SsTableIterator.new (table_of final id (bs1 ++ b :: bs2) f) in drain_table fuel it)
      (fun _ _ => False) (fun _ _ => True) w3) as [(? & ? & _ & [])|(e & w4 & -> & _)]; [|by exists e].
    eapply (wp_pass_damaged final id f bs1 b bs2 s' (k' ++ k)); [done|done|done| |exact Hw].
    rewrite concat_app, length_app in Hfuel. lia.
Qed.

#[local] Instance integrity_libm : Libm := demo_libm.

(** The table of [sample_entries], with another first value. *)
Definition sample_run : result SsTable.t * World := create "000001.sst" 1 sample_entries one_percent 16 empty_world.
Definition sample_data : bytes := default [] (f_data <$> w_files (snd sample_run) !! "000001.sst").
Definition sample_bad : bytes := <[14%nat := x39]> sample_data.
Definition sample_world : World := put_file "000001.sst" (mkFile sample_bad sample_bad) (snd sample_run).

Lemma sample_created : exists t, sample_run = (Ok t, snd sample_run).
Proof. eexists. vm_compute. reflexivity. Qed.

Lemma sample_damaged : damaged sample_data sample_bad.
Proof.
  exists (take 14 sample_data), x31, x39, (drop 15 sample_data).
  split; [vm_compute; reflexivity|]. split; [vm_compute; reflexivity|discriminate].
Qed.

(** The table opens; looking the first key up is an error, the last one is
    found. *)
Lemma sample_lookups :
  match open "000001.sst" 1 sample_world with
  | (Ok t2, w3) =>
      fst (get t2 [x61] false (BlockCache.new 0, w3)) = Err InvalidChecksum /\
      fst (get t2 [x63] false (BlockCache.new 0, w3)) = Ok (Some (Value []))
  | _ => False
  end.
Proof. vm_compute. split; reflexivity. Qed.

Lemma table_detects_corruption_witness :
  exists t2 w3, open "000001.sst" 1 sample_world = (Ok t2, w3) /\
    (exists e, fst ((let! it := SsTableIterator.new t2 in drain_table 4 it) w3) = Err e) /\
    fst (get t2 [x61] false (BlockCache.new 0, w3)) = Err InvalidChecksum /\
    fst (get t2 [x63] false (BlockCache.new 0, w3)) = Ok (Some (Value [])).
Proof.
  destruct sample_created as [t Ht].
  pose proof (table_detects_corruption "000001.sst" 1 sample_entries one_percent 16 empty_world t (snd sample_run)
    (mkFile sample_data sample_data) sample_bad sample_world sample_sorted sample_ok) as Hthm.
  pose proof sample_lookups as Hl. destruct (open "000001.sst" 1 sample_world) as [[t2|e|] w3];
    [|destruct Hl|destruct Hl].
  exists t2, w3. split; [reflexivity|]. split; [|exact Hl].
  destruct Hthm as (_ & bs & _ & _ & Hpass);
    [reflexivity|lia|exact demo_libm_ok|exact Ht|vm_compute; reflexivity|exact sample_damaged|vm_compute; reflexivity|].
  apply Hpass. cbn. lia.
Defined.
