(* ===== verification/Manifests.v ===== *)
(** * The manifest ([src/manifest.rs])

    The log of table additions, removals and id allocations.  [Manifest.t] is
    the in-memory state; the handle is the file [MANIFEST].  [recover] loops over
    the complete records of the file, with one unit of fuel per byte. *)

From S2P Require Import Prelude Bytes Errors Crc Records World Names.

Definition TYPE_ADD : Z := 1.
Definition TYPE_REMOVE : Z := 2.
Definition TYPE_NEXT_ID : Z := 3.
Definition RECORD_LEN : Z := 4 + 1 + 8 + 4.

Inductive ManifestRecord :=
| AddTable (id level : Z)
| RemoveTable (id : Z)
| SetNextTableId (id : Z).

#[global] Instance ManifestRecord_eq_dec : EqDecision ManifestRecord.
Proof. solve_decision. Defined.

Definition encode_body (record : ManifestRecord) : bytes :=
  let '(kind, id, level) :=
    match record with
    | AddTable id level => (TYPE_ADD, id, level)
    | RemoveTable id => (TYPE_REMOVE, id, 0)
    | SetNextTableId id => (TYPE_NEXT_ID, id, 0)
    end in
  z2b kind :: le_bytes 8 id ++ le_bytes 4 level.

Definition encode_record (record : ManifestRecord) : bytes :=
  let body := encode_body record in le_bytes 4 (crc32 body) ++ body.

Definition decode_body (body : bytes) : result ManifestRecord :=
  if negb (len body =? 13) then Err InvalidManifest
  else
  let? kind := index body 0 in
  let? s := slice body 1 9 in
  let? id := read_u64_le s in
  let? s := slice body 9 13 in
  let? level := read_u32_le s in
  if b2z kind =? TYPE_ADD then Ok (AddTable id level)
  else if b2z kind =? TYPE_REMOVE then Ok (RemoveTable id)
  else if b2z kind =? TYPE_NEXT_ID then Ok (SetNextTableId id)
  else Err InvalidManifest.

Module Manifest.

(** The live tables as [(id, level)], in the order they were added. *)
Record t := mk { next_id : Z; tables : list (Z * Z) }.

(** The manifest and the file system. *)
Abbreviation MW := (t * World)%type.

Definition on_disk {A} (m : M World A) : M MW A := mzoom snd (fun w mw => (fst mw, w)) m.
Definition modify (f : t -> t) : M MW unit := mmodify (fun mw => (f (fst mw), snd mw)).
Definition self : M MW t := fun mw => (Ok (fst mw), mw).

Definition has_table (id : Z) (self : t) : bool :=
  existsb (fun '(existing, _) => existing =? id) (tables self).

(** [self.tables.push((id, level))] and [self.tables.retain(..)]. *)
Definition push_table (id level : Z) (self : t) : t :=
  mk (next_id self) (tables self ++ [(id, level)]).
Definition retain_other (id : Z) (self : t) : t :=
  mk (next_id self) (base.filter (fun x => fst x <> id) (tables self)).

(** The [match] of the recovery loop. *)
Definition apply_record (record : ManifestRecord) : M t unit := fun self =>
  match record with
  | AddTable id level =>
      if has_table id self then (Err InvalidManifest, self)
      else (Ok tt, push_table id level self)
  | RemoveTable id => (Ok tt, retain_other id self)
  | SetNextTableId id => (Ok tt, mk id (tables self))
  end.

(** The loop over the bytes that are left. *)
Fixpoint recover_loop (fuel : nat) (rest : bytes) : M t unit :=
  if RECORD_LEN <=? len rest then
    match fuel with
    | O => mlift Panic
    | S fuel' =>
        let! record := mlift (slice rest 0 RECORD_LEN) in
        let! s := mlift (slice record 0 4) in
        let! checksum := mlift (read_u32_le s) in
        let! body := mlift (slice_from record 4) in
        if negb (crc32 body =? checksum) then merr InvalidManifest
        else
        let! r := mlift (decode_body body) in
        let! _ := apply_record r in
        let! rest := mlift (slice_from rest RECORD_LEN) in
        recover_loop fuel' rest
    end
  else mret tt.

Definition recover : M MW unit :=
  let! bs := on_disk (read_to_end MANIFEST_NAME) in
  let! _ := modify (fun _ => mk 1 []) in
  mzoom fst (fun m mw => (m, snd mw)) (recover_loop (length bs) bs).

(** [open]: the manifest value is built on the way. *)
Definition open : M World t := fun w =>
  (let! _ := create_dir_all in
   let! _ := open_or_create MANIFEST_NAME in
   fun w =>
     let '(r, (m, w)) := recover (mk 1 [], w) in
     (match r with Ok _ => Ok m | Err e => Err e | Panic => Panic end, w)) w.

Definition append (record : ManifestRecord) : M MW unit :=
  on_disk (
    let! fail := failpoints.should_fail ManifestWrite in
    if (fail : bool) then merr (injected "injected manifest write failure")
    else
    let bs := encode_record record in
    let! _ := write_all MANIFEST_NAME bs in
    let! _ := sync_all MANIFEST_NAME in
    sync_dir).

Definition add_table (id level : Z) : M MW unit :=
  let! m := self in
  if has_table id m then merr InvalidManifest
  else
  let! _ := append (AddTable id level) in
  modify (push_table id level).

Fixpoint remove_tables (ids : list Z) : M MW unit :=
  match ids with
  | [] => mret tt
  | id :: ids' =>
      let! _ := append (RemoveTable id) in
      let! _ := modify (retain_other id) in
      remove_tables ids'
  end.

(** [self.next_table_id += 1] on a [u64]. *)
Definition next_table_id : M MW Z :=
  let! m := self in
  let id := next_id m in
  let! _ := modify (fun m => mk (wrap64 (next_id m + 1)) (tables m)) in
  let! m := self in
  let! _ := append (SetNextTableId (next_id m)) in
  mret id.

Definition active_tables (self : t) : list (Z * Z) := tables self.
Definition current_next_id (self : t) : Z := next_id self.

End Manifest.

(** ** Encoding *)

Definition rec_ok (r : ManifestRecord) : Prop :=
  match r with
  | AddTable id level => 0 <= id < 2 ^ 64 /\ 0 <= level < 2 ^ 32
  | RemoveTable id => 0 <= id < 2 ^ 64
  | SetNextTableId id => 0 <= id < 2 ^ 64
  end.

#[global] Instance rec_ok_dec r : Decision (rec_ok r).
Proof. destruct r; simpl; apply _. Defined.

Lemma len_encode_body r : len (encode_body r) = 13.
Proof. destruct r; unfold encode_body; len_lia. Qed.

Lemma len_encode_record r : len (encode_record r) = RECORD_LEN.
Proof. unfold encode_record, RECORD_LEN. pose proof (len_encode_body r). len_lia. Qed.

(** The body with these fields, whatever the record type. *)
Lemma decode_body_fields t id level :
  0 <= id < 2 ^ 64 -> 0 <= level < 2 ^ 32 ->
  decode_body (t :: le_bytes 8 id ++ le_bytes 4 level) =
  if b2z t =? TYPE_ADD then Ok (AddTable id level)
  else if b2z t =? TYPE_REMOVE then Ok (RemoveTable id)
  else if b2z t =? TYPE_NEXT_ID then Ok (SetNextTableId id)
  else Err InvalidManifest.
Proof.
  intros Hid Hl. unfold decode_body. case_if; [len_lia|]. rewrite index_0. rsimpl.
  slice_as [t] (le_bytes 8 id). rewrite read_u64_le_bytes by done. rsimpl.
  rewrite app_comm_cons, slice_app_r by len_lia. rsimpl. by rewrite read_u32_le_bytes.
Qed.

Lemma decode_encode_body r : rec_ok r -> decode_body (encode_body r) = Ok r.
Proof. destruct r; simpl; intros; unfold encode_body; by rewrite decode_body_fields by lia. Qed.

Lemma decode_body_no_panic body : decode_body body <> Panic.
Proof.
  unfold decode_body. case_if; [done|]. destruct (index_in_range body 0) as (k & -> & _); [lia|].
  rsimpl. step_slice s Hs. destruct (read_u64_ok s) as (id & -> & _); [lia|]. rsimpl.
  step_slice s' Hs'. destruct (read_u32_ok s') as (l & -> & _); [lia|]. rsimpl.
  by repeat case_if.
Qed.

(** ** Recovery *)

Import Manifest.

Fixpoint replay (recs : list ManifestRecord) : M t unit :=
  match recs with
  | [] => mret tt
  | r :: recs' => let! _ := apply_record r in replay recs'
  end.

Definition man_bytes (recs : list ManifestRecord) : bytes := concat (encode_record <$> recs).

Lemma man_bytes_snoc recs r : man_bytes (recs ++ [r]) = man_bytes recs ++ encode_record r.
Proof. unfold man_bytes. rewrite fmap_app, concat_app. simpl. by rewrite app_nil_r. Qed.

Lemma replay_app recs1 recs2 m :
  replay (recs1 ++ recs2) m = (let! _ := replay recs1 in replay recs2) m.
Proof.
  revert m. induction recs1 as [|r recs1 IH]; intros m; [done|]. cbn [replay app].
  unfold mbind. destruct (apply_record r m) as [[] m']; [|done|done]. apply IH.
Qed.

(** One iteration on a complete record, corrupt or not. *)
Lemma recover_frame fuel c body rest m :
  0 <= c < 2 ^ 32 -> len body = 13 ->
  recover_loop (S fuel) ((le_bytes 4 c ++ body) ++ rest) m =
  (if negb (crc32 body =? c) then merr InvalidManifest
   else let! r := mlift (decode_body body) in
        let! _ := apply_record r in recover_loop fuel rest) m.
Proof.
  intros Hc Hb. cbn [recover_loop]. unfold RECORD_LEN. case_if; [|len_lia].
  rewrite slice_app_l by len_lia. unfold mbind at 1, mlift at 1.
  rewrite slice_app_l by len_lia. unfold mbind at 1, mlift at 1.
  rewrite read_u32_le_bytes by done. unfold mbind at 1, mlift at 1.
  rewrite slice_from_app by len_lia. unfold mbind at 1, mlift at 1.
  case_if; [done|]. rewrite slice_from_app by len_lia. done.
Qed.

Lemma recover_record fuel r rest m :
  rec_ok r ->
  recover_loop (S fuel) (encode_record r ++ rest) m =
  (let! _ := apply_record r in recover_loop fuel rest) m.
Proof.
  intros Hr. unfold encode_record. rewrite recover_frame; [|apply crc32_u32|apply len_encode_body].
  rewrite Z.eqb_refl. cbn [negb]. by rewrite decode_encode_body.
Qed.

Lemma recover_short fuel rest m : len rest < RECORD_LEN -> recover_loop fuel rest m = (Ok tt, m).
Proof. intros H. destruct fuel; cbn [recover_loop]; (case_if; [lia|done]). Qed.

(** A log with a torn last record replays its complete records. *)
Lemma recover_log recs tail fuel m :
  Forall rec_ok recs -> len tail < RECORD_LEN ->
  (length (man_bytes recs ++ tail) <= fuel)%nat ->
  recover_loop fuel (man_bytes recs ++ tail) m = replay recs m.
Proof.
  intros Hrs Ht. revert fuel m. induction Hrs as [|r recs Hr Hrs IH]; intros fuel m Hf.
  { by apply recover_short. }
  unfold man_bytes in *. rewrite fmap_cons in *. cbn [concat] in *. rewrite <- app_assoc in *.
  pose proof (len_encode_record r) as Hl. unfold RECORD_LEN, len in Hl.
  rewrite length_app in Hf. destruct fuel as [|fuel]; [lia|].
  rewrite recover_record by done. cbn [replay]. unfold mbind.
  destruct (apply_record r m) as [[] m']; [|done|done]. apply IH. lia.
Qed.

Lemma recover_loop_safe fuel rest m :
  (length rest <= fuel)%nat -> fst (recover_loop fuel rest m) <> Panic.
Proof.
  revert rest m. induction fuel as [|fuel IH]; intros rest m Hf.
  { destruct rest; [|simpl in Hf; lia]. by rewrite recover_short. }
  destruct (Z.lt_ge_cases (len rest) RECORD_LEN) as [|Hl]; [by rewrite recover_short|].
  unfold RECORD_LEN in Hl. destruct (split_at rest 4) as (a & r1 & -> & Ha); [lia|].
  rewrite len_app in Hl. destruct (split_at r1 13) as (body & r2 & -> & Hb); [lia|].
  destruct (le_field a 4 Ha) as (c & -> & Hc).
  rewrite app_assoc, recover_frame by done. case_if; [done|].
  unfold mbind, mlift. pose proof (decode_body_no_panic body).
  destruct (decode_body body) as [r| |]; [|done|done].
  assert (fst (apply_record r m) <> Panic) as Ha1.
  { destruct r; simpl; [|done|done]. by destruct (has_table _ _). }
  destruct (apply_record r m) as [[] m']; [|done|done]. apply IH.
  rewrite !length_app in Hf. unfold len in *. lia.
Qed.

(** ** The file *)

(** The file holds the records [recs], all synced, and [m] is their replay. *)
Record man_ok (w : World) (m : t) (recs : list ManifestRecord) : Prop := {
  mok_recs : Forall rec_ok recs;
  mok_file : w_files w !! MANIFEST_NAME = Some (mkFile (man_bytes recs) (man_bytes recs));
  mok_replay : replay recs (mk 1 []) = (Ok tt, m);
}.

(** An append that failed: a prefix of the record is in the file, unsynced. *)
Definition man_torn (w : World) (recs : list ManifestRecord) (r : ManifestRecord) : Prop :=
  exists k, k `prefix_of` encode_record r /\
    w_files w !! MANIFEST_NAME = Some (mkFile (man_bytes recs ++ k) (man_bytes recs)).

Section manifest_rules.
Context (recs : list ManifestRecord).
Implicit Types (w : World) (m : t) (E : Error -> MW -> Prop).

Lemma wp_on_disk {A} (c : M World A) (Q : A -> MW -> Prop) E m w :
  wp c (fun a w' => Q a (m, w')) (fun e w' => E e (m, w')) w -> wp (on_disk c) Q E (m, w).
Proof. unfold wp, on_disk, mzoom. simpl. by destruct (c w) as [[] ?]. Qed.

(** Only the manifest file changes. *)
Definition only_manifest w w' : Prop :=
  forall p, p <> MANIFEST_NAME -> w_files w' !! p = w_files w !! p.

Lemma wp_append_record r (Q : unit -> MW -> Prop) E m0 m w :
  man_ok w m0 recs -> rec_ok r ->
  (forall w', w_files w' !! MANIFEST_NAME =
       Some (mkFile (man_bytes (recs ++ [r])) (man_bytes (recs ++ [r]))) ->
     only_manifest w w' -> (quiet w -> quiet w') -> Q tt (m, w')) ->
  (forall e w', man_torn w' recs r -> only_manifest w w' -> ~ quiet w -> E e (m, w')) ->
  wp (append r) Q E (m, w).
Proof.
  intros [Hrs Hf _] Hr HQ HE. apply wp_on_disk.
  assert (forall w' k, k `prefix_of` encode_record r ->
    w_files w' = <[MANIFEST_NAME := mkFile (man_bytes recs ++ k) (man_bytes recs)]> (w_files w) ->
    man_torn w' recs r /\ only_manifest w w') as Htorn.
  { intros w' k Hk Hw'. split.
    - exists k. split; [done|]. by rewrite Hw', lookup_insert_eq.
    - intros p Hp. rewrite Hw'. by rewrite lookup_insert_ne. }
  apply wp_bind, wp_should_fail.
  { intros w1 Hw1 Hn. apply wp_err, HE; [|by intros p _; rewrite Hw1|done].
    exists []. split; [apply prefix_nil|]. by rewrite app_nil_r, Hw1. }
  intros w1 Hw1 Hq1. apply wp_bind. eapply wp_write_all; [by rewrite Hw1| |]; cbn [f_data f_durable].
  2: { intros k w2 Hk Hw2 Hn. rewrite Hw1 in Hw2. destruct (Htorn w2 k Hk Hw2).
       apply HE; [done|done|tauto]. }
  intros w2 Hw2 Hq2. rewrite Hw1 in Hw2. apply wp_bind.
  eapply wp_sync_all; [by rewrite Hw2, lookup_insert_eq| |]; cbn [f_data f_durable].
  2: { intros w3 Hw3 Hn. rewrite Hw2 in Hw3.
       destruct (Htorn w3 (encode_record r) (reflexivity _) Hw3).
       apply HE; [done|done|tauto]. }
  intros w3 Hw3 Hq3. rewrite Hw2, insert_insert_eq in Hw3. apply wp_sync_dir.
  intros w4 Hw4 Hq4. rewrite Hw3 in Hw4. apply HQ; [| |tauto].
  - by rewrite Hw4, lookup_insert_eq, man_bytes_snoc.
  - intros p Hp. by rewrite Hw4, lookup_insert_ne.
Qed.

End manifest_rules.

(** The state after one more record. *)
Lemma man_ok_snoc w w' m m' recs r :
  man_ok w m recs -> rec_ok r -> apply_record r m = (Ok tt, m') ->
  w_files w' !! MANIFEST_NAME = Some (mkFile (man_bytes (recs ++ [r])) (man_bytes (recs ++ [r]))) ->
  man_ok w' m' (recs ++ [r]).
Proof.
  intros [Hrs _ Hm] Hr Ha Hf. split; [by apply Forall_app; auto|done|].
  rewrite replay_app. unfold mbind. rewrite Hm. cbn [replay]. unfold mbind. by rewrite Ha.
Qed.

(** ** Operations *)

Definition u64 (z : Z) : Prop := 0 <= z < 2 ^ 64.

(** The manifest in memory, and an append of [r] that may have reached the disk:
    what an error leaves behind. *)
Definition man_failed (w : World) (m : t) (m0 : t) (recs : list ManifestRecord)
    (r : ManifestRecord) : Prop :=
  exists m1, replay recs (mk 1 []) = (Ok tt, m0) /\ tables m0 = tables m /\
    Forall rec_ok recs /\ rec_ok r /\ apply_record r m0 = (Ok tt, m1) /\ man_torn w recs r.

Section operations.
Implicit Types (w : World) (m : t) (E : Error -> MW -> Prop).

Lemma wp_self (Q : t -> MW -> Prop) E m w : Q m (m, w) -> wp self Q E (m, w).
Proof. done. Qed.

Lemma wp_modify f (Q : unit -> MW -> Prop) E m w : Q tt (f m, w) -> wp (modify f) Q E (m, w).
Proof. done. Qed.

Lemma wp_add_table id level recs (Q : unit -> MW -> Prop) E m w :
  man_ok w m recs -> u64 id -> 0 <= level < 2 ^ 32 -> has_table id m = false ->
  (forall w', man_ok w' (push_table id level m) (recs ++ [AddTable id level]) ->
     only_manifest w w' -> (quiet w -> quiet w') -> Q tt (push_table id level m, w')) ->
  (forall e w', man_failed w' m m recs (AddTable id level) -> only_manifest w w' -> ~ quiet w ->
     E e (m, w')) ->
  wp (add_table id level) Q E (m, w).
Proof.
  intros Hm Hid Hl Hn HQ HE. assert (rec_ok (AddTable id level)) as Hr by done.
  assert (apply_record (AddTable id level) m = (Ok tt, push_table id level m)) as Ha
    by (cbn; by rewrite Hn).
  unfold add_table. apply wp_bind, wp_self. rewrite Hn. apply wp_bind.
  eapply wp_append_record; [done|done| |].
  - intros w' Hf Ho Hq. apply wp_modify, HQ; [|done|done]. by eapply man_ok_snoc.
  - intros e w' Ht Ho Hq. apply HE; [|done|done]. destruct Hm. by eexists.
Qed.

Lemma wp_next_table_id recs (Q : Z -> MW -> Prop) E m w :
  man_ok w m recs ->
  let m' := mk (wrap64 (next_id m + 1)) (tables m) in
  (forall w', man_ok w' m' (recs ++ [SetNextTableId (next_id m')]) ->
     only_manifest w w' -> (quiet w -> quiet w') -> Q (next_id m) (m', w')) ->
  (forall e w', man_failed w' m' m recs (SetNextTableId (next_id m')) -> only_manifest w w' ->
     ~ quiet w -> E e (m', w')) ->
  wp next_table_id Q E (m, w).
Proof.
  intros Hm m' HQ HE. unfold next_table_id. apply wp_bind, wp_self, wp_bind, wp_modify, wp_bind, wp_self.
  fold m'. apply wp_bind. set (r := SetNextTableId (next_id m')).
  assert (rec_ok r) as Hr by (cbn; rewrite wrap64_mod; by apply Z.mod_pos_bound).
  eapply wp_append_record; [done|done| |].
  - intros w' Hf Ho Hq. apply wp_ret, HQ; [|done|done]. by eapply man_ok_snoc.
  - intros e w' Ht Ho Hq. apply HE; [|done|done]. destruct Hm. by eexists.
Qed.

(** The tables that are left, and the records that say so. *)
Definition retain_all (ids : list Z) (m : t) : t := foldl (fun m id => retain_other id m) m ids.

(** A failure in the middle keeps the removals made before it. *)
Lemma wp_remove_tables ids recs (Q : unit -> MW -> Prop) E m w :
  man_ok w m recs -> Forall u64 ids ->
  (forall w', man_ok w' (retain_all ids m) (recs ++ (RemoveTable <$> ids)) ->
     only_manifest w w' -> (quiet w -> quiet w') -> Q tt (retain_all ids m, w')) ->
  (forall e w' ids1 id ids2, ids = ids1 ++ id :: ids2 ->
     man_failed w' (retain_all ids1 m) (retain_all ids1 m) (recs ++ (RemoveTable <$> ids1))
       (RemoveTable id) ->
     only_manifest w w' -> ~ quiet w -> E e (retain_all ids1 m, w')) ->
  wp (remove_tables ids) Q E (m, w).
Proof.
  revert recs m w. induction ids as [|id ids IH]; intros recs m w Hm Hids HQ HE; cbn [remove_tables].
  { apply wp_ret, HQ; [by rewrite app_nil_r|done|done]. }
  apply Forall_cons in Hids as [Hid Hids]. apply wp_bind.
  eapply wp_append_record; [done|exact Hid| |].
  - intros w' Hf Ho Hq. apply wp_bind, wp_modify.
    apply (IH (recs ++ [RemoveTable id])); [by eapply man_ok_snoc|done| |].
    + intros w2 Hm2 Ho2 Hq2. apply HQ; [|by intros p Hp; rewrite Ho2, Ho|tauto].
      by rewrite <- app_assoc in Hm2.
    + intros e w2 ids1 id2 ids2 -> Hf2 Ho2 Hq2.
      apply (HE e w2 (id :: ids1) id2 ids2); [done| | |tauto].
      * by rewrite <- app_assoc in Hf2.
      * intros p Hp. by rewrite Ho2, Ho.
  - intros e w' Ht Ho Hq. apply (HE e w' [] id ids); [done| |done|done].
    destruct Hm as [Hr _ Hm]. exists (retain_other id m).
    change (RemoveTable <$> []) with (@nil ManifestRecord). rewrite app_nil_r. by split_and!.
Qed.

End operations.

(** ** Opening *)

Lemma wp_open_manifest recs tail f m (Q : t -> World -> Prop) (E : Error -> World -> Prop) w :
  w_files w !! MANIFEST_NAME = Some f -> f_data f = man_bytes recs ++ tail ->
  Forall rec_ok recs -> len tail < RECORD_LEN -> replay recs (mk 1 []) = (Ok tt, m) ->
  (forall w', w_files w' = w_files w -> (quiet w -> quiet w') -> Q m w') ->
  (forall e w', w_files w' = w_files w -> ~ quiet w -> E e w') ->
  wp open Q E w.
Proof.
  intros Hf Hd Hrs Ht Hm HQ HE. unfold open.
  change (wp (let! _ := create_dir_all in
              let! _ := open_or_create MANIFEST_NAME in
              (fun w => let '(r, (m, w)) := recover (mk 1 [], w) in
                (match r with Ok _ => Ok m | Err e => Err e | Panic => Panic end, w))) Q E w).
  apply wp_bind, wp_syscall; [intros fs Hfs|intros; by apply HE].
  apply wp_ret, wp_bind, wp_open_or_create.
  2: { intros w2 Hw2 Hn. apply HE; [done|]. intros Hq. apply Hn.
       by apply (quiet_after w _ fs). }
  intros w2. cbn [w_files set_faults]. rewrite Hf. intros Hw2 Hq2.
  assert (quiet w -> quiet w2) as Hq.
  { intros Hq. apply Hq2. by apply (quiet_after w _ fs). }
  unfold wp, recover, mbind, on_disk, mzoom. cbn [fst snd].
  edestruct (wp_run (read_to_end MANIFEST_NAME) (fun bs w3 => bs = man_bytes recs ++ tail /\
    w_files w3 = w_files w /\ (quiet w -> quiet w3))
    (fun _ w3 => w_files w3 = w_files w /\ ~ quiet w) w2)
    as [(bs & w3 & -> & -> & Hw3 & Hq3)|(e & w3 & -> & Hw3 & Hn)].
  - eapply wp_read_to_end; [by rewrite Hw2|..].
    + intros w3 Hw3 Hq3. split_and!; [done|congruence|tauto].
    + intros w3 Hw3 Hn. split; [congruence|tauto].
  - cbn [fst snd modify mmodify]. rewrite recover_log, Hm by done. by apply HQ.
  - by apply HE.
Qed.

(** A file that is created when it is missing. *)
Definition touched (p : string) (w : World) : gmap string File :=
  match w_files w !! p with
  | Some _ => w_files w
  | None => <[p := mkFile [] []]> (w_files w)
  end.

Lemma touched_other p q w : q <> p -> touched p w !! q = w_files w !! q.
Proof. intros Hq. unfold touched. destruct (w_files w !! p); [done|]. by rewrite lookup_insert_ne. Qed.

(** The manifest that opening the directory gives, or starts with. *)
Definition man_image (w : World) (m : t) : Prop :=
  match w_files w !! MANIFEST_NAME with
  | Some f => exists recs tail, f_data f = man_bytes recs ++ tail /\ Forall rec_ok recs /\
      len tail < RECORD_LEN /\ replay recs (mk 1 []) = (Ok tt, m)
  | None => m = mk 1 []
  end.

Lemma wp_open_image m (Q : t -> World -> Prop) (E : Error -> World -> Prop) w :
  man_image w m ->
  (forall w', w_files w' = touched MANIFEST_NAME w -> (quiet w -> quiet w') -> Q m w') ->
  (forall e w', ~ quiet w -> E e w') ->
  wp open Q E w.
Proof.
  unfold man_image, touched. destruct (w_files w !! MANIFEST_NAME) as [f|] eqn:Hf.
  { intros (recs & tail & Hd & Hr & Ht & Hm) HQ HE. eapply wp_open_manifest; try done. auto. }
  intros -> HQ HE. unfold open.
  change (wp (let! _ := create_dir_all in
              let! _ := open_or_create MANIFEST_NAME in
              (fun w => let '(r, (m, w)) := recover (mk 1 [], w) in
                (match r with Ok _ => Ok m | Err e => Err e | Panic => Panic end, w))) Q E w).
  apply wp_bind, wp_syscall; [intros fs Hfs|by intros; apply HE].
  apply wp_ret, wp_bind, wp_open_or_create.
  2: { intros w2 Hw2 Hn. apply HE. intros Hq. apply Hn. by apply (quiet_after w _ fs). }
  intros w2. cbn [w_files set_faults]. rewrite Hf. intros Hw2 Hq2.
  assert (quiet w -> quiet w2) as Hq.
  { intros Hq. apply Hq2. by apply (quiet_after w _ fs). }
  unfold wp, recover, mbind, on_disk, mzoom. cbn [fst snd].
  edestruct (wp_run (read_to_end MANIFEST_NAME) (fun bs w3 => bs = [] /\
    w_files w3 = w_files w2 /\ (quiet w -> quiet w3)) (fun _ w3 => ~ quiet w) w2)
    as [(bs & w3 & -> & -> & Hw3 & Hq3)|(e & w3 & -> & Hn)].
  - eapply wp_read_to_end; [by rewrite Hw2, lookup_insert_eq|..].
    + intros w3 Hw3 Hq3. split_and!; [done|congruence|tauto].
    + intros w3 Hw3 Hn. tauto.
  - cbn. apply HQ; [congruence|done].
  - by apply HE.
Qed.

(** What a crash makes of the manifest. *)
Lemma crash_man_clean w w2 m recs : man_ok w m recs -> crashed w w2 -> man_ok w2 m recs.
Proof. intros [Hrs Hf Hm] Hc. split; [done|by eapply crashed_synced|done]. Qed.

Lemma man_ok_image w m recs : man_ok w m recs -> man_image w m.
Proof.
  intros [Hrs Hf Hm]. unfold man_image. rewrite Hf. exists recs, [].
  split_and!; [by rewrite app_nil_r|done|done|done].
Qed.

Lemma crash_man_torn w w2 m m0 recs r :
  man_failed w m m0 recs r -> crashed w w2 ->
  exists m1, apply_record r m0 = (Ok tt, m1) /\ (man_image w2 m0 \/ man_image w2 m1).
Proof.
  intros (m1 & Hm0 & Htab & Hrs & Hr & Ha & k & Hk & Hf) (Hn & Hfl & Hc).
  exists m1. split; [done|]. specialize (Hc MANIFEST_NAME). rewrite Hf in Hc. unfold man_image.
  destruct (w_files w2 !! MANIFEST_NAME) as [f2|] eqn:Hf2; [|done].
  assert (exists k', f_data f2 = man_bytes recs ++ k' /\ k' `prefix_of` encode_record r)
    as (k' & Hd & Hk').
  { destruct Hc as [[Hc|[Hc|[[j Hj] Hp]]] _]; cbn [f_data f_durable] in *.
    - exists []. split; [by rewrite app_nil_r|apply prefix_nil].
    - by exists k.
    - rewrite Hj in Hp. apply prefix_app_inv in Hp. exists j. split; [done|by trans k]. }
  destruct (decide (len k' < RECORD_LEN)) as [Hl|Hl]; [left; by exists recs, k'|right].
  assert (k' = encode_record r) as ->.
  { destruct Hk' as [j Hj]. pose proof (len_encode_record r) as Hlr.
    rewrite Hj, len_app in Hlr. assert (j = []) as -> by (apply len_0_nil; len_lia).
    by rewrite app_nil_r in Hj. }
  exists (recs ++ [r]), []. split_and!; [by rewrite man_bytes_snoc, app_nil_r|by apply Forall_app; auto|done|].
  rewrite replay_app. unfold mbind. rewrite Hm0. cbn [replay]. unfold mbind. by rewrite Ha.
Qed.

(** A manifest whose last append failed opens with or without that record. *)
Lemma crash_torn w w2 m m0 recs r :
  man_failed w m m0 recs r -> crashed w w2 ->
  exists m1, apply_record r m0 = (Ok tt, m1) /\ tables m0 = tables m /\
    (wp open (fun m2 _ => m2 = m0) (fun _ _ => False) w2 \/
     wp open (fun m2 _ => m2 = m1) (fun _ _ => False) w2).
Proof.
  intros Hf Hc. destruct (crash_man_torn _ _ _ _ _ _ Hf Hc) as (m1 & Ha & Hi).
  exists m1. destruct Hf as (_ & _ & Htab & _). assert (quiet w2) as Hq by (by destruct Hc as (? & ? & _)).
  split_and!; [done|done|]. destruct Hi as [Hi|Hi]; [left|right]; by eapply wp_open_image.
Qed.

Lemma crash_clean w w2 m recs :
  man_ok w m recs -> crashed w w2 -> wp open (fun m2 _ => m2 = m) (fun _ _ => False) w2.
Proof.
  intros Hm Hc. assert (quiet w2) as Hq by (by destruct Hc as (? & ? & _)).
  eapply wp_open_image; [|done|done]. by eapply man_ok_image, crash_man_clean.
Qed.

(** ** Properties *)

(** A change of the manifest, as the engine makes them. *)
Inductive man_op := OpAdd (id level : Z) | OpRemove (ids : list Z) | OpNextId.

Definition op_in_range (o : man_op) : Prop :=
  match o with
  | OpAdd id level => u64 id /\ 0 <= level < 2 ^ 32
  | OpRemove ids => Forall u64 ids
  | OpNextId => True
  end.

Definition run_op (o : man_op) : M MW unit :=
  match o with
  | OpAdd id level => add_table id level
  | OpRemove ids => remove_tables ids
  | OpNextId => let! _ := next_table_id in mret tt
  end.

(** A sequence of changes, up to the first one that fails. *)
Fixpoint run_ops (l : list man_op) : M MW unit :=
  match l with [] => mret tt | o :: l' => let! _ := run_op o in run_ops l' end.

(** What a change makes of the manifest. *)
Definition man_after (o : man_op) (m : t) : t :=
  match o with
  | OpAdd id level => push_table id level m
  | OpRemove ids => retain_all ids m
  | OpNextId => mk (wrap64 (next_id m + 1)) (tables m)
  end.

(** What a change that was cut short may have made of it: one record more or
    less, and for a removal of several tables the first few of them. *)
Definition man_within (o : man_op) (m m2 : t) : Prop :=
  match o with
  | OpRemove ids => exists ids1, ids1 `prefix_of` ids /\ m2 = retain_all ids1 m
  | _ => m2 = m \/ m2 = man_after o m
  end.

Lemma retain_all_snoc ids id m : retain_all (ids ++ [id]) m = retain_other id (retain_all ids m).
Proof. unfold retain_all. by rewrite foldl_app. Qed.

(** What is opened after a crash. *)
Definition man_reopens (P : t -> Prop) (w : World) : Prop :=
  forall w2, crashed w w2 -> exists m2 w3, open w2 = (Ok m2, w3) /\ P m2.

Lemma man_ok_reopens w m recs : man_ok w m recs -> man_reopens (eq m) w.
Proof.
  intros Hm w2 Hc. destruct (wp_run _ _ _ _ (crash_clean _ _ _ _ Hm Hc)) as [(m2 & w3 & E & ->)|(? & ? & _ & [])].
  by exists m, w3.
Qed.

Lemma man_failed_reopens w m m0 recs r :
  man_failed w m m0 recs r -> man_reopens (fun m2 => m2 = m0 \/ apply_record r m0 = (Ok tt, m2)) w.
Proof.
  intros Hf w2 Hc. destruct (crash_torn _ _ _ _ _ _ Hf Hc) as (m1 & Ha & _ & [Ho|Ho]);
    destruct (wp_run _ _ _ _ Ho) as [(m2 & w3 & E & ->)|(? & ? & _ & [])]; eauto.
Qed.

Lemma man_reopens_mono (P P' : t -> Prop) w :
  man_reopens P w -> (forall m2, P m2 -> P' m2) -> man_reopens P' w.
Proof. intros H HP w2 Hc. destruct (H w2 Hc) as (m2 & w3 & E & Hm). eauto. Qed.

Lemma wp_run_op o recs m w :
  man_ok w m recs -> op_in_range o ->
  wp (run_op o) (fun _ mw => fst mw = man_after o m /\ exists recs', man_ok (snd mw) (fst mw) recs')
     (fun _ mw => man_reopens (man_within o m) (snd mw)) (m, w).
Proof.
  intros Hm Ho. destruct o as [id level|ids|]; cbn [run_op op_in_range] in *.
  - destruct (has_table id m) eqn:Hh.
    { unfold add_table. apply wp_bind, wp_self. rewrite Hh. apply wp_err.
      eapply man_reopens_mono; [by eapply man_ok_reopens|]. intros m2 <-. by left. }
    eapply wp_add_table; [done|apply Ho|apply Ho|done|cbn; eauto|]. intros e w' Hf _ _.
    eapply man_reopens_mono; [by eapply man_failed_reopens|]. cbn. rewrite Hh. intros m2 [->|[= <-]]; auto.
  - eapply wp_remove_tables; [done|done|cbn; eauto|]. intros e w' ids1 id ids2 -> Hf _ _.
    eapply man_reopens_mono; [by eapply man_failed_reopens|]. intros m2 [->|[= <-]].
    + exists ids1. split; [by eexists|done].
    + exists (ids1 ++ [id]). split; [exists ids2; by rewrite <- app_assoc|by rewrite retain_all_snoc].
  - apply wp_bind. eapply wp_next_table_id; [done|intros; apply wp_ret; cbn [fst snd]; eauto|]. intros e w' Hf _ _.
    eapply man_reopens_mono; [by eapply man_failed_reopens|]. cbn. intros m2 [->|[= <-]]; auto.
Qed.

Lemma wp_run_ops l recs m w :
  man_ok w m recs -> Forall op_in_range l ->
  wp (run_ops l) (fun _ mw => fst mw = foldl (flip man_after) m l /\ exists recs', man_ok (snd mw) (fst mw) recs')
     (fun _ mw => man_reopens (fun m2 => exists l1 o l2, l = l1 ++ o :: l2 /\
        man_within o (foldl (flip man_after) m l1) m2) (snd mw)) (m, w).
Proof.
  revert recs m w. induction l as [|o l IH]; intros recs m w Hm Hl; cbn [run_ops].
  { apply wp_ret. eauto. }
  apply Forall_cons in Hl as [Ho Hl]. apply wp_bind. eapply wp_mono; [by eapply wp_run_op| |].
  - intros _ [m' w'] [Em [recs' Hm']]. cbn [fst snd] in *. subst m'. eapply wp_mono; [by eapply IH|done|].
    intros x mw Hr. eapply man_reopens_mono; [exact Hr|]. intros m2 (l1 & o1 & l2 & -> & Hw).
    by exists (o :: l1), o1, l2.
  - intros x mw Hr. eapply man_reopens_mono; [exact Hr|]. intros m2 Hw. by exists [], o, l.
Qed.

(** C23: the manifest is crash consistent.  Let changes be made one after the other
    until one fails, at any I/O call, and let the machine crash then.  When all
    were reported successful, recovery gives the manifest in memory, which is
    the one that the changes describe.  When one failed, recovery succeeds and
    gives the manifest of the changes before it, with or without the record
    that failed; for the removal of several tables, with a first part of them
    removed.  (What changes made after a failed one are worth is another
    matter: [torn_manifest_rejected].) *)
Theorem manifest_crash_consistent l recs m w r m' w' w2 :
  man_ok w m recs -> Forall op_in_range l -> run_ops l (m, w) = (r, (m', w')) -> crashed w' w2 ->
  exists m2 w3, open w2 = (Ok m2, w3) /\
    match r with
    | Ok _ => m2 = m' /\ m' = foldl (flip man_after) m l
    | Err _ => exists l1 o l2, l = l1 ++ o :: l2 /\ man_within o (foldl (flip man_after) m l1) m2
    | Panic => False
    end.
Proof.
  intros Hm Hl Hr Hc. pose proof (wp_run_ops l recs m w Hm Hl) as Hw. unfold wp in Hw.
  rewrite Hr in Hw. cbn [fst snd] in Hw. destruct r as [[]|e|]; [|by apply Hw|done].
  destruct Hw as [-> [recs' Hm']]. destruct (man_ok_reopens _ _ _ Hm' _ Hc) as (m2 & w3 & E & <-). eauto.
Qed.

(** An empty manifest, and a device that fails while the removal of the second
    of two tables is appended: it is still listed, the first one is gone. *)
Lemma manifest_crash_consistent_witness :
  let w := mkWorld {[ MANIFEST_NAME := mkFile [] [] ]} None (replicate 15 None ++ [Some 3%nat]) in
  let run := run_ops [OpNextId; OpAdd 1 0; OpNextId; OpAdd 2 0; OpRemove [1; 2]] (mk 1 [], w) in
  exists m2 w3, open (restart (snd (snd run))) = (Ok m2, w3) /\ m2 = mk 3 [(2, 0)] /\
    exists l1 o l2, [OpNextId; OpAdd 1 0; OpNextId; OpAdd 2 0; OpRemove [1; 2]] = l1 ++ o :: l2 /\
      man_within o (foldl (flip man_after) (mk 1 []) l1) m2.
Proof.
  cbv zeta.
  match goal with |- context [run_ops ?l (?m, ?w)] =>
    destruct (run_ops l (m, w)) as [r [m' w']] eqn:E;
    destruct (manifest_crash_consistent l [] m w r m' w' (restart w')) as (m2 & w3 & Ho & Hone) end.
  - split; [constructor|apply lookup_singleton_eq|reflexivity].
  - repeat constructor; vm_compute; discriminate.
  - exact E.
  - apply crashed_restart.
  - assert (r = Err device_error) as ->
      by (change r with (fst (r, (m', w'))); rewrite <- E; vm_compute; reflexivity).
    exists m2, w3. split; [exact Ho|]. split; [|exact Hone].
    enough (Ok m2 = Ok (mk 3 [(2, 0)])) as H by (by injection H). change (Ok m2) with (fst (Ok m2, w3)). rewrite <- Ho.
    change w' with (snd (snd (Err device_error : result unit, (m', w')))). rewrite <- E. vm_compute. reflexivity.
Defined.

(** C36: recovery never panics, whatever the file holds. *)
Theorem manifest_recover_total m w :
  (exists m', recover (m, w) = (Ok tt, m')) \/ (exists e m', recover (m, w) = (Err e, m')).
Proof.
  unfold recover, mbind, on_disk, mzoom. cbn [fst snd].
  assert (safe (read_to_end MANIFEST_NAME)) as Hr by (by apply safe_syscall, safe_on_file).
  specialize (Hr w). destruct (read_to_end MANIFEST_NAME w) as [[bs|e|] w1]; [|by eauto|done].
  cbn. pose proof (recover_loop_safe (length bs) bs (mk 1 []) ltac:(lia)) as Hs.
  destruct (recover_loop _ _ _) as [[[]|e|] m2]; [by eauto|by eauto|done].
Qed.

(** C35: a complete manifest record in which one byte was changed makes recovery
    fail with [InvalidManifest], wherever it is in the log. *)
Theorem manifest_detects_corruption recs r pre x y post tail m :
  Forall rec_ok recs -> replay recs (mk 1 []) = (Ok tt, m) ->
  encode_record r = pre ++ x :: post -> x <> y ->
  let bs := man_bytes recs ++ (pre ++ y :: post) ++ tail in
  fst (recover_loop (length bs) bs (mk 1 [])) = Err InvalidManifest.
Proof.
  intros Hrs Hm Hr Hne bs.
  assert (len (pre ++ y :: post) = 17) as Hl.
  { pose proof (len_encode_record r) as Hl. rewrite Hr in Hl. unfold RECORD_LEN in Hl. len_lia. }
  destruct (split_at (pre ++ y :: post) 4) as (a & body & E & Ha); [lia|].
  destruct (le_field a 4 Ha) as (c & -> & Hc).
  assert (crc32 body <> c) as Hcrc.
  { intros <-. apply Hne. apply (framed_one_byte pre x y post);
      [rewrite <- Hr|rewrite E]; by eexists. }
  assert (forall fuel m0, (length bs <= fuel)%nat -> replay recs m0 = (Ok tt, m) ->
    fst (recover_loop fuel bs m0) = Err InvalidManifest) as H; [|by apply H].
  unfold bs. clear bs Hm Hr. revert E Hl. generalize (pre ++ y :: post). intros q E Hl.
  induction Hrs as [|r' recs Hr' Hrs IH]; intros fuel m0 Hf Hm.
  - destruct fuel as [|fuel].
    { rewrite !length_app in Hf. unfold len in Hl. lia. }
    cbn [man_bytes fmap list_fmap concat app]. rewrite E.
    rewrite recover_frame by (done || (rewrite E in Hl; len_lia)).
    replace (crc32 body =? c) with false by (symmetry; by apply Z.eqb_neq). done.
  - unfold man_bytes in *. rewrite fmap_cons in *. cbn [concat] in *. rewrite <- app_assoc in *.
    pose proof (len_encode_record r') as Hl'. unfold RECORD_LEN, len in Hl'.
    rewrite length_app in Hf. destruct fuel as [|fuel]; [lia|].
    rewrite recover_record by done. cbn [replay] in Hm. unfold mbind in *.
    destruct (apply_record r' m0) as [[[]| |] m1]; [|done|done]. apply IH; [lia|done].
Qed.

Lemma manifest_detects_corruption_witness :
  let bs := man_bytes [SetNextTableId 2] ++ (take 16 (encode_record (AddTable 1 0)) ++ [x01]) ++ [x00] in
  fst (recover_loop (length bs) bs (mk 1 [])) = Err InvalidManifest.
Proof.
  apply (manifest_detects_corruption [SetNextTableId 2] (AddTable 1 0)
    (take 16 (encode_record (AddTable 1 0))) x00 x01 [] [x00] (mk 2 []));
    [repeat constructor; vm_compute; discriminate|reflexivity|vm_compute; reflexivity|discriminate].
Defined.
