(* ===== verification/Merge.v ===== *)
(** * Merging sorted runs, newest first

    The reference against which compaction and range scans are verified.  A
    database is a list of runs, newest first, each sorted by key; the entry of a
    key is the one of the newest run that has the key ([newest]).  Both merges
    of the engine work in rounds: take the least key at the head of any run,
    keep the entry of the newest run that has it, and drop the key from every
    run ([drop_key]).  The lemmas here say what one round does to [newest]. *)

From S2P Require Import Prelude Bytes Collections Memtable.

Abbreviation run := (list (bytes * Entry)) (only parsing).

(** The entry of [k] in the newest run that has one. *)
Definition newest (runs : list run) (k : bytes) : option Entry :=
  first_some (fun r => alookup r k) runs.

(** The run after a round for [key]. *)
Definition drop_key (key : bytes) (r : run) : run :=
  match r with
  | (k, _) :: r' => if decide (k = key) then r' else r
  | [] => []
  end.

(** The newest run with [key] at its head. *)
Definition head_entry (key : bytes) (r : run) : option Entry :=
  match r with
  | (k, e) :: _ => if decide (k = key) then Some e else None
  | [] => None
  end.

(** No head is below [key]. *)
Definition key_bound (key : bytes) (runs : list run) : Prop :=
  Forall (fun r => match head r with Some (k, _) => key_le key k | None => True end) runs.

(** Total number of entries. *)
Definition total_len (runs : list run) : nat := sum_list (length <$> runs).

Lemma total_len_cons r runs : total_len (r :: runs) = (length r + total_len runs)%nat.
Proof. done. Qed.

Lemma total_len_app runs1 runs2 :
  total_len (runs1 ++ runs2) = (total_len runs1 + total_len runs2)%nat.
Proof.
  induction runs1 as [|r runs1 IH]; [done|]. rewrite <- app_comm_cons, !total_len_cons, IH. lia.
Qed.

Lemma total_len_concat runs : total_len runs = length (concat runs).
Proof.
  induction runs as [|r runs IH]; [done|]. rewrite total_len_cons, IH. cbn [concat].
  by rewrite length_app.
Qed.

Section round.
Context (key : bytes).

Lemma drop_key_sorted r : ksorted r -> ksorted (drop_key key r).
Proof.
  destruct r as [|[k e] r]; [done|]. simpl. intros Hs. case_decide; [|done].
  by apply ksorted_cons in Hs as [_ ?].
Qed.

(** In a sorted run that starts at [key] or later, the key is at the head or absent. *)
Lemma head_entry_lookup (r : run) :
  ksorted r -> match head r with Some (k, _) => key_le key k | None => True end ->
  alookup r key = head_entry key r.
Proof.
  destruct r as [|[k e] r]; [done|]. simpl. intros [F Hs]%ksorted_cons Hk.
  destruct (decide (key = k)) as [->|Hne]; [by rewrite decide_True|].
  rewrite decide_False by congruence. apply alookup_None.
  intros ([k' e'] & -> & Hin)%list_elem_of_fmap. rewrite Forall_forall in F.
  specialize (F _ Hin). simpl in *. key_order.
Qed.

Lemma drop_key_lookup (r : run) k :
  ksorted r -> match head r with Some (k, _) => key_le key k | None => True end ->
  alookup (drop_key key r) k = if decide (k = key) then None else alookup r k.
Proof.
  intros Hs Hb. case_decide as Hk.
  - subst k. destruct r as [|[k e] r]; [done|]. apply ksorted_cons in Hs as [F Hs]. simpl in *.
    rewrite Forall_forall in F. apply alookup_None.
    intros ([k' e'] & -> & Hin)%list_elem_of_fmap. simpl in *.
    destruct (decide (k = k')) as [->|Hne].
    + specialize (F _ Hin). simpl in F. key_order.
    + apply elem_of_cons in Hin as [[= ? ?]|Hin]; [congruence|]. specialize (F _ Hin).
      simpl in F. key_order.
  - destruct r as [|[k' e] r]; [done|]. simpl. case_decide; [subst|done].
    by rewrite decide_False.
Qed.

Lemma drop_key_above (r : run) k e :
  ksorted r -> match head r with Some (k, _) => key_le key k | None => True end ->
  (k, e) ∈ drop_key key r -> key_lt key k /\ (k, e) ∈ r.
Proof.
  destruct r as [|[k' e'] r]; simpl; [set_solver|]. intros [F Hs]%ksorted_cons Hb Hin.
  rewrite Forall_forall in F. case_decide as Hk; [subst k'|].
  - split; [by apply (F (k, e))|by right].
  - split; [|done]. apply elem_of_cons in Hin as [[= -> ->]|Hin]; [key_order|].
    specialize (F _ Hin). simpl in F. key_order.
Qed.

Context (runs : list run).
Hypothesis Hs : Forall ksorted runs.
Hypothesis Hb : key_bound key runs.

Lemma run_bound r : r ∈ runs ->
  ksorted r /\ match head r with Some (k, _) => key_le key k | None => True end.
Proof using Hs Hb.
  intros Hr. split; [exact (proj1 (Forall_forall _ _) Hs r Hr)|].
  exact (proj1 (Forall_forall _ _) Hb r Hr).
Qed.

(** The winner of the round is the newest entry of the key. *)
Lemma newest_winner : newest runs key = first_some (head_entry key) runs.
Proof using Hs Hb.
  apply first_some_ext. intros r Hr. destruct (run_bound r Hr). by apply head_entry_lookup.
Qed.

(** The other keys are untouched. *)
Lemma newest_drop k :
  newest (drop_key key <$> runs) k = if decide (k = key) then None else newest runs k.
Proof using Hs Hb.
  unfold newest. pose proof run_bound as Hrb. clear Hs Hb.
  induction runs as [|r rs IH]; cbn; [by case_decide|].
  destruct (Hrb r) as [H1 H2]; [by left|]. rewrite drop_key_lookup by done.
  rewrite IH by (intros; apply Hrb; by right). case_decide; done.
Qed.

Lemma drop_keys_above k e r :
  r ∈ drop_key key <$> runs -> (k, e) ∈ r -> key_lt key k /\ exists r', r' ∈ runs /\ (k, e) ∈ r'.
Proof using Hs Hb.
  intros (r' & -> & Hr')%list_elem_of_fmap Hin. destruct (run_bound r' Hr').
  destruct (drop_key_above r' k e) as [? ?]; [done|done|done|]. eauto.
Qed.

Lemma drop_keys_sorted : Forall ksorted (drop_key key <$> runs).
Proof using Hs.
  apply Forall_fmap. eapply Forall_impl; [exact Hs|]. intros r Hr. by apply drop_key_sorted.
Qed.

(** A round for a key that is at some head makes progress. *)
Lemma total_len_drop r e :
  r ∈ runs -> head r = Some (key, e) -> (total_len (drop_key key <$> runs) < total_len runs)%nat.
Proof using.
  clear Hs Hb. assert (forall r', (length (drop_key key r') <= length r')%nat) as Hle.
  { intros [|[k' e'] r']; simpl; [done|]. case_decide; simpl; lia. }
  assert (forall rs, (total_len (drop_key key <$> rs) <= total_len rs)%nat) as Hlen.
  { induction rs as [|r' rs IH]; [done|]. rewrite fmap_cons, !total_len_cons.
    specialize (Hle r'). lia. }
  intros (l1 & l2 & ->)%list_elem_of_split Hh.
  rewrite fmap_app, fmap_cons, !total_len_app, !total_len_cons.
  pose proof (Hlen l1). pose proof (Hlen l2). destruct r as [|[k' e'] r]; [done|].
  injection Hh as -> ->. simpl. rewrite decide_True by done. lia.
Qed.

End round.

(** ** The result of a merge *)

(** What an entry becomes when tombstones are dropped. *)
Definition keep (drop_tombstones : bool) (o : option Entry) : option Entry :=
  match o with
  | Some Tombstone => if drop_tombstones then None else Some Tombstone
  | o => o
  end.

(** [out] is the merge of [runs]: sorted, and the newest entry of every key. *)
Definition is_merge (drop_tombstones : bool) (runs : list run) (out : run) : Prop :=
  ksorted out /\ forall k, alookup out k = keep drop_tombstones (newest runs k).

(** There is only one merge. *)
Lemma is_merge_unique d runs out1 out2 : is_merge d runs out1 -> is_merge d runs out2 -> out1 = out2.
Proof. intros [S1 L1] [S2 L2]. apply ksorted_ext; [done|done|]. intros k. by rewrite L1, L2. Qed.

Lemma newest_elem runs k e : newest runs k = Some e -> exists r, r ∈ runs /\ (k, e) ∈ r.
Proof.
  intros (r & Hr & Hk)%first_some_Some. exists r. split; [done|]. by apply alookup_Some_elem.
Qed.

(** Adding the winner of a round in front of the merge of what is left. *)
Lemma is_merge_round d key runs out e :
  Forall ksorted runs -> key_bound key runs -> newest runs key = Some e ->
  is_merge d (drop_key key <$> runs) out ->
  is_merge d runs (match keep d (Some e) with Some e => (key, e) :: out | None => out end).
Proof.
  intros Hs Hb He [So Lo].
  assert (forall x, x ∈ out -> key_lt key (fst x)) as Habove.
  { intros [k v] Hin. simpl. pose proof (ksorted_elem_alookup out k v So Hin) as Hl.
    rewrite Lo in Hl. destruct (newest (drop_key key <$> runs) k) as [e'|] eqn:En; [|done].
    apply newest_elem in En as (r & Hr & Hin'). by eapply drop_keys_above in Hin' as [? _]. }
  assert (alookup out key = None) as Hn by (rewrite Lo, newest_drop, decide_True by done; done).
  split.
  - destruct (keep d (Some e)); [|done]. apply ksorted_cons. split; [|done]. by apply Forall_forall.
  - intros k. destruct (decide (k = key)) as [->|Hne].
    + rewrite He. destruct (keep d (Some e)); simpl; [by rewrite decide_True|done].
    + transitivity (alookup out k); [|by rewrite Lo, newest_drop, decide_False].
      destruct (keep d (Some e)); simpl; [by rewrite decide_False|done].
Qed.

Lemma is_merge_done d runs : Forall (fun r => r = []) runs -> is_merge d runs [].
Proof.
  intros Hr. split; [constructor|]. intros k. replace (newest runs k) with (@None Entry); [done|].
  symmetry. apply first_some_None. eapply Forall_impl; [done|]. by intros ? ->.
Qed.

Lemma merge_entry d runs out x : is_merge d runs out -> x ∈ out -> exists r, r ∈ runs /\ x ∈ r.
Proof.
  intros [Hs Hl] Hx. destruct x as [k e]. pose proof (ksorted_elem_alookup out k e Hs Hx) as He.
  rewrite Hl in He. apply newest_elem. destruct (newest runs k) as [[v|]|]; simpl in He; try done.
  by destruct d.
Qed.

Lemma ksorted_keys_nodup (l : run) : ksorted l -> NoDup (l.*1).
Proof.
  induction l as [|[k e] l IH]; intros Hs; [constructor|]. apply ksorted_cons in Hs as [F Hs].
  cbn. constructor; [|by apply IH]. intros ([k' e'] & -> & Hin)%list_elem_of_fmap.
  rewrite Forall_forall in F. specialize (F _ Hin). simpl in F. key_order.
Qed.

(** A merge is no longer than its inputs together. *)
Lemma merge_len d runs out : is_merge d runs out -> (length out <= total_len runs)%nat.
Proof.
  intros Hm. assert (out.*1 ⊆+ (concat runs).*1) as Hsub.
  { apply NoDup_submseteq; [by apply ksorted_keys_nodup; destruct Hm|].
    intros k (x & -> & Hx)%list_elem_of_fmap. destruct (merge_entry d runs out x Hm Hx) as (r & Hr & Hxr).
    apply list_elem_of_fmap. exists x. split; [done|].
    apply list_elem_of_In, in_concat. exists r. by rewrite <- !list_elem_of_In. }
  apply submseteq_length in Hsub. rewrite !length_fmap in Hsub.
  by rewrite total_len_concat.
Qed.
