(* ===== verification/Compaction.v ===== *)
(** * Compaction ([src/compaction.rs])

    [merge_tables] is a k-way merge over table iterators with a heap of the keys
    at their heads, [compact] writes its result as a table, and [worker_loop]
    is the background thread.  The heap is the list of its elements in the order
    in which it pops them.  The merge loop has one unit of fuel per byte of the
    input files: an entry takes at least nine. *)

From S2P Require Import Prelude Bytes Errors Crc Collections Records World.
From S2P Require Import Memtable Bloom Cache Format Names SsTables TableWrite TableRead Merge.

(** ** [BinaryHeap<Reverse<(Vec<u8>, usize)>>]: the least pair is popped first *)

Definition pair_leb (a b : bytes * nat) : bool :=
  match bytes_cmp (fst a) (fst b) with
  | Lt => true
  | Eq => (snd a <=? snd b)%nat
  | Gt => false
  end.

Abbreviation heap := (list (bytes * nat)).

Definition heap_push (x : bytes * nat) (h : heap) : heap := insert_by pair_leb x h.

(** The inner loop: pop while the key at the top is [key]. *)
Fixpoint pop_same (key : bytes) (h : heap) : heap :=
  match h with
  | (next_key, _) :: h' => if decide (next_key = key) then pop_same key h' else h
  | [] => []
  end.

(** ** The merge *)

Abbreviation head_entry_t := (option (bytes * Entry)).

(** [iter.next()] where an error ends the merge. *)
Definition pull (it : SsTableIterator.t) : M World (head_entry_t * SsTableIterator.t) :=
  let! (item, it) := SsTableIterator.next it in
  match item with
  | Some r => let! x := mlift r in mret (Some x, it)
  | None => mret (None, it)
  end.

Fixpoint open_iters (tables : list SsTable.t) : M World (list SsTableIterator.t) :=
  match tables with
  | [] => mret []
  | t :: tables' =>
      let! it := SsTableIterator.new t in
      let! its := open_iters tables' in
      mret (it :: its)
  end.

Fixpoint first_heads (iters : list SsTableIterator.t)
    : M World (list head_entry_t * list SsTableIterator.t) :=
  match iters with
  | [] => mret ([], [])
  | it :: iters' =>
      let! (h, it) := pull it in
      let! (hs, its) := first_heads iters' in
      mret (h :: hs, it :: its)
  end.

Fixpoint fill_heap (idx : nat) (heads : list head_entry_t) (h : heap) : heap :=
  match heads with
  | [] => h
  | head :: heads' =>
      fill_heap (S idx) heads'
        (match head with Some (key, _) => heap_push (key, idx) h | None => h end)
  end.

(** The first table that sits on [key]. *)
Fixpoint find_winner (key : bytes) (heads : list head_entry_t) : option Entry :=
  match heads with
  | Some (k, entry) :: heads' => if decide (k = key) then Some entry else find_winner key heads'
  | None :: heads' => find_winner key heads'
  | [] => None
  end.

(** Advance every iterator that contributed [key]. *)
Fixpoint advance (key : bytes) (idx : nat) (heads : list head_entry_t)
    (iters : list SsTableIterator.t) (h : heap)
    : M World (list head_entry_t * list SsTableIterator.t * heap) :=
  match heads, iters with
  | [], _ => mret ([], iters, h)
  | head :: heads', it :: iters' =>
      let! (head, it, h) :=
        (if bool_decide (fst <$> head = Some key) then
           let! (head, it) := pull it in
           mret (head, it, match head with Some (k, _) => heap_push (k, idx) h | None => h end)
         else mret (head, it, h)) in
      let! (hs, its, h) := advance key (S idx) heads' iters' h in
      mret (head :: hs, it :: its, h)
  | _ :: _, [] => mlift Panic
  end.

Fixpoint merge_loop (fuel : nat) (drop_tombstones : bool) (heads : list head_entry_t)
    (iters : list SsTableIterator.t) (h : heap) : M World entries :=
  match h with
  | [] => mret []
  | (key, _) :: h =>
      match fuel with
      | O => mlift Panic
      | S fuel' =>
          let h := pop_same key h in
          let winner := find_winner key heads in
          let! (heads, iters, h) := advance key 0 heads iters h in
          let! out := merge_loop fuel' drop_tombstones heads iters h in
          mret (match winner with
                | Some Tombstone => if drop_tombstones then out else (key, Tombstone) :: out
                | Some other => (key, other) :: out
                | None => out
                end)
      end
  end.

(** One unit of fuel per byte of the inputs. *)
Definition merge_fuel (tables : list SsTable.t) : nat :=
  sum_list ((fun t => Z.to_nat (SsTable.size_bytes t)) <$> tables).

Definition merge_tables (input_tables : list SsTable.t) (drop_tombstones : bool) : M World entries :=
  let! iters := open_iters input_tables in
  let! (heads, iters) := first_heads iters in
  merge_loop (merge_fuel input_tables) drop_tombstones heads iters (fill_heap 0 heads []).

Definition compact `{Libm} (input_tables : list SsTable.t) (output_path : string)
    (output_id : Z) (bloom_fp : f64) (block_size : Z) (drop_tombstones : bool) : M World SsTable.t :=
  let! merged := merge_tables input_tables drop_tombstones in
  SsTable.create output_path output_id merged bloom_fp block_size.

(** ** The background worker *)

Inductive CompactionMessage := Compact | Shutdown.

(** The loop over the messages of the channel, which ends when the channel is
    closed.  [slot] is [last_error]; the state [S] is what the callback works
    on. *)
Fixpoint worker_loop {S} (on_compact : M S unit) (messages : list CompactionMessage)
    (slot : option string) : M S (option string) :=
  match messages with
  | [] => mret slot
  | Shutdown :: _ => mret slot
  | Compact :: messages' => fun s =>
      match on_compact s with
      | (Ok _, s) => worker_loop on_compact messages' slot s
      | (Err err, s) => worker_loop on_compact messages' (Some (error_to_string err)) s
      | (Panic, s) => (Panic, s)
      end
  end.

(** [CompactionWorker]: what was sent, and whether the receiver still runs. *)
Module CompactionWorker.

Record t := mk { sent : list CompactionMessage; running : bool }.

Definition start : t := mk [] true.

(** A [send] fails when the receiver is gone. *)
Definition send (self : t) (m : CompactionMessage) : result t :=
  if running self then Ok (mk (sent self ++ [m]) true)
  else Err (Errors.Compaction "sending on a closed channel").

Definition request_compaction (self : t) : result t := send self Compact.

(** Send [Shutdown], ignoring a failure, then join the thread when there is one:
    the worker has processed every message up to the first [Shutdown]. *)
Definition shutdown {S} (on_compact : M S unit) (slot : option string) (self : t)
    : M S (t * option string) := fun s =>
  let self := match send self Shutdown with Ok self => self | _ => self end in
  if running self then
    match worker_loop on_compact (sent self) slot s with
    | (Ok slot, s) => (Ok (mk [] false, slot), s)
    | (Err e, s) => (Err e, s)
    | (Panic, s) => (Err (Errors.Compaction "compaction worker panicked"), s)
    end
  else (Ok (self, slot), s).

(** What is left of a worker whose thread was joined, whatever it returned. *)
Definition stopped : t := mk [] false.

(** [Drop]: shut down, and ignore a failure. *)
Definition drop {S} (on_compact : M S unit) (slot : option string) (self : t)
    : M S (t * option string) := fun s =>
  match shutdown on_compact slot self s with
  | (Err _, s) => (Ok (stopped, slot), s)
  | r => r
  end.

End CompactionWorker.

(** ** The heap *)

Lemma heap_push_perm x h : heap_push x h ≡ₚ x :: h.
Proof. apply insert_by_perm. Qed.

Definition heap_sorted (h : heap) : Prop := StronglySorted (fun a b => key_le (fst a) (fst b)) h.

Lemma heap_push_sorted x h : heap_sorted h -> heap_sorted (heap_push x h).
Proof.
  unfold heap_sorted, heap_push. induction h as [|y h IH]; simpl; intros Hs.
  { by repeat constructor. }
  pose proof Hs as Hs0. apply StronglySorted_cons in Hs as [F Hs].
  unfold pair_leb. destruct (bytes_cmp (fst x) (fst y)) eqn:E.
  - apply bytes_cmp_eq in E. destruct (_ <=? _)%nat.
    + constructor; [done|]. constructor; [rewrite E; key_order|]. by rewrite E.
    + constructor; [auto|]. change (insert_by pair_leb x h) with (heap_push x h).
      rewrite heap_push_perm. constructor; [rewrite E; key_order|done].
  - constructor; [done|]. change (key_lt (fst x) (fst y)) in E. constructor; [key_order|].
    eapply Forall_impl; [done|]. intros z Hz. simpl in *. key_order.
  - constructor; [auto|]. change (insert_by pair_leb x h) with (heap_push x h).
    rewrite heap_push_perm. apply bytes_cmp_gt in E. constructor; [key_order|done].
Qed.

(** Popping the pairs of the least key leaves the pairs of the other keys. *)
Lemma pop_same_filter key h :
  heap_sorted h -> Forall (fun x => key_le key (fst x)) h ->
  pop_same key h = base.filter (fun x => fst x <> key) h.
Proof.
  unfold heap_sorted. induction h as [|[k i] h IH]; intros Hs F; [done|]. cbn [pop_same].
  apply StronglySorted_cons in Hs as [Fk Hs]. apply Forall_cons in F as [Hk F].
  rewrite filter_cons. simpl in *. case_decide as E.
  - rewrite decide_False by naive_solver. by apply IH.
  - rewrite decide_True by done. f_equal. symmetry. apply filter_all.
    eapply Forall_impl; [exact Fk|]. intros [k' i']. simpl. intros ? ->. apply E. key_order.
Qed.

Lemma pop_same_sorted key h : heap_sorted h -> heap_sorted (pop_same key h).
Proof.
  unfold heap_sorted. induction h as [|[k i] h IH]; intros Hs; [done|]. cbn [pop_same].
  case_decide; [|done]. apply IH. by apply StronglySorted_cons in Hs as [_ ?].
Qed.

(** ** Cursors *)

(** An input of the merge: the table, its blocks, the entry at the head, the
    iterator and, as a specification, the entries that are left. *)
Record cursor := mkCursor {
  c_table : SsTable.t;
  c_blocks : list entries;
  c_head : head_entry_t;
  c_iter : SsTableIterator.t;
  c_rest : entries;
}.

Definition cursor_ok (w : World) (c : cursor) : Prop :=
  table_ok w (c_table c) (c_blocks c) /\ ksorted (c_rest c) /\
  exists r, it_at (c_table c) (c_blocks c) (c_iter c) r /\
    match c_head c with
    | Some x => c_rest c = x :: r
    | None => c_rest c = [] /\ r = []
    end.

Definition heads (cs : list cursor) : list head_entry_t := c_head <$> cs.
Definition iters (cs : list cursor) : list SsTableIterator.t := c_iter <$> cs.
Definition rests (cs : list cursor) : list entries := c_rest <$> cs.

Lemma cursor_head w c : cursor_ok w c -> head (c_rest c) = c_head c.
Proof. intros (_ & _ & r & _ & H). destruct (c_head c); [by rewrite H|by destruct H as [-> _]]. Qed.

Lemma cursors_sorted w cs : Forall (cursor_ok w) cs -> Forall ksorted (rests cs).
Proof. intros H. apply Forall_fmap. eapply Forall_impl; [done|]. by intros c (_ & ? & _). Qed.

(** The pairs that belong on the heap, the first table being number [idx]. *)
Fixpoint head_pairs (idx : nat) (hs : list head_entry_t) : heap :=
  match hs with
  | [] => []
  | Some (k, _) :: hs' => (k, idx) :: head_pairs (S idx) hs'
  | None :: hs' => head_pairs (S idx) hs'
  end.

Lemma fill_heap_spec idx hs h :
  heap_sorted h -> heap_sorted (fill_heap idx hs h) /\ fill_heap idx hs h ≡ₚ h ++ head_pairs idx hs.
Proof.
  revert idx h. induction hs as [|[[k e]|] hs IH]; intros idx h Hs; cbn [fill_heap head_pairs].
  - by rewrite app_nil_r.
  - destruct (IH (S idx) (heap_push (k, idx) h)) as [H1 H2]; [by apply heap_push_sorted|].
    split; [done|]. rewrite H2, heap_push_perm. solve_Permutation.
  - by apply IH.
Qed.

Lemma head_pairs_in idx cs w k i :
  Forall (cursor_ok w) cs -> (k, i) ∈ head_pairs idx (heads cs) ->
  exists r e, r ∈ rests cs /\ head r = Some (k, e).
Proof.
  intros Hcs. revert idx. unfold heads, rests.
  induction Hcs as [|c cs Hc Hcs IH]; intros idx; cbn; [set_solver|].
  pose proof (cursor_head w c Hc) as Hh. destruct (c_head c) as [[k' e]|].
  - intros [[= -> ->]|Hin]%elem_of_cons; [exists (c_rest c), e; split; [by left|done]|].
    destruct (IH _ Hin) as (r & e' & Hr & He). exists r, e'. split; [by right|done].
  - intros Hin. destruct (IH _ Hin) as (r & e' & Hr & He). exists r, e'. split; [by right|done].
Qed.

Lemma head_pairs_nil idx cs c : head_pairs idx (heads cs) = [] -> c ∈ cs -> c_head c = None.
Proof.
  revert idx. unfold heads. induction cs as [|c' cs IH]; intros idx; [set_solver|]. cbn.
  destruct (c_head c') as [[k e]|] eqn:E; [done|]. intros Hn [->|Hin]%elem_of_cons; [done|].
  by apply (IH (S idx)).
Qed.

Lemma head_pairs_bound idx cs w key :
  Forall (cursor_ok w) cs -> Forall (fun x => key_le key (fst x)) (head_pairs idx (heads cs)) ->
  key_bound key (rests cs).
Proof.
  intros Hcs. revert idx. unfold heads, rests, key_bound.
  induction Hcs as [|c cs Hc Hcs IH]; intros idx F; cbn in *; [constructor|].
  pose proof (cursor_head w c Hc) as Hh. rewrite <- Hh in F. constructor.
  - destruct (head (c_rest c)) as [[k e]|]; [|done]. by apply Forall_cons in F as [? _].
  - destruct (head (c_rest c)) as [[k e]|]; [apply Forall_cons in F as [_ F]|]; by apply (IH (S idx)).
Qed.

Lemma find_winner_spec w cs key :
  Forall (cursor_ok w) cs -> find_winner key (heads cs) = first_some (head_entry key) (rests cs).
Proof.
  unfold heads, rests. induction 1 as [|c cs Hc Hcs IH]; [done|]. cbn.
  pose proof (cursor_head w c Hc) as Hh. destruct (c_rest c) as [|[k e] r]; cbn in *; rewrite <- Hh; [done|].
  by case_decide.
Qed.

(** ** The rounds of the merge *)

Section merging.
Context (w : World).
Implicit Types (cs : list cursor) (E : Error -> World -> Prop).

Lemma wp_pull t bs it r (Q : head_entry_t * SsTableIterator.t -> World -> Prop) E w1 :
  table_ok w t bs -> it_at t bs it r -> w_files w1 = w_files w ->
  (forall h it' r' w', it_at t bs it' r' ->
     match h with Some x => r = x :: r' | None => r = [] /\ r' = [] end ->
     after w w1 w' -> Q (h, it') w') ->
  (forall e w', w_files w' = w_files w -> ~ quiet w1 -> E e w') ->
  wp (pull it) Q E w1.
Proof.
  intros Ht Hit Hw1 HQ HE. unfold pull. apply wp_bind.
  eapply wp_mono; [by apply (wp_next w t bs Ht it r (fun _ _ => False))| |done].
  intros [[[x|e|]|] it'] w2 [Ha Hp].
  - destruct Hp as (r' & -> & Hit'). apply wp_bind, wp_ret, wp_ret. by eapply HQ.
  - destruct Hp as [Hn _]. apply wp_bind, wp_err. by apply HE; [apply Ha|].
  - done.
  - destruct Hp as [-> Hit']. apply wp_ret. by eapply HQ.
Qed.

(** Advancing drops [key] from every run and keeps the heap in step. *)
Lemma wp_advance key cs idx h (Q : list head_entry_t * list SsTableIterator.t * heap -> World -> Prop) E w1 :
  Forall (cursor_ok w) cs -> heap_sorted h -> w_files w1 = w_files w ->
  (forall cs' h' w', Forall (cursor_ok w) cs' -> rests cs' = drop_key key <$> rests cs ->
     heap_sorted h' ->
     h' ++ base.filter (fun x => fst x <> key) (head_pairs idx (heads cs)) ≡ₚ
       h ++ head_pairs idx (heads cs') ->
     after w w1 w' -> Q (heads cs', iters cs', h') w') ->
  (forall e w', w_files w' = w_files w -> ~ quiet w1 -> E e w') ->
  wp (advance key idx (heads cs) (iters cs) h) Q E w1.
Proof.
  intros Hcs. revert idx h Q w1. induction Hcs as [|c cs Hc Hcs IH]; intros idx h Q w1 Hh Hw1 HQ HE.
  { apply wp_ret. by apply (HQ [] h). }
  unfold heads, iters. rewrite !fmap_cons. cbn [advance]. fold (heads cs) (iters cs).
  pose proof Hc as (Ht & Hs & r & Hit & Hhead).
  apply wp_bind. case_bool_decide as Hk.
  - destruct (c_head c) as [[k e]|] eqn:Ehead; [|done]. injection Hk as ->.
    apply wp_bind. eapply wp_pull; [done|done|done| |done].
    intros h' it' r' w2 Hit' Hr [Hw2 Hq2]. apply wp_ret. cbn beta iota.
    set (c' := mkCursor (c_table c) (c_blocks c) h' it' r).
    assert (cursor_ok w c') as Hc'.
    { split; [done|]. split; [rewrite Hhead in Hs; by apply ksorted_cons in Hs as [_ ?]|].
      exists r'. split; [done|]. cbn. by destruct h' as [x|]. }
    apply wp_bind. eapply (IH (S idx)); [by destruct h' as [[]|]; [apply heap_push_sorted|]|done| |
      by intros; apply HE; [|tauto]].
    intros cs' h2 w3 Hcs' Hrest Hh2 Hperm [Hw3 Hq3]. apply wp_ret.
    apply (HQ (c' :: cs') h2); [by constructor| |done| |split; [done|tauto]].
    + unfold rests in *. rewrite !fmap_cons, Hrest, Hhead. cbn. by rewrite decide_True.
    + unfold heads. rewrite !fmap_cons. fold (heads cs) (heads cs'). rewrite Ehead.
      cbn [head_pairs c' c_head]. rewrite filter_cons_False by (simpl; tauto). rewrite Hperm.
      destruct h' as [[k' e']|]; [|done]. rewrite heap_push_perm. solve_Permutation.
  - apply wp_ret. cbn beta iota. apply wp_bind.
    eapply (IH (S idx)); [done|done| |done].
    intros cs' h2 w3 Hcs' Hrest Hh2 Hperm Ha. apply wp_ret.
    apply (HQ (c :: cs') h2); [by constructor| |done| |done].
    + unfold rests in *. rewrite !fmap_cons, Hrest. f_equal.
      destruct (c_head c) as [[k e]|]; [rewrite Hhead; cbn|by destruct Hhead as [-> _]].
      rewrite decide_False; [done|]. intros ->. by apply Hk.
    + unfold heads. rewrite !fmap_cons. fold (heads cs) (heads cs').
      destruct (c_head c) as [[k e]|] eqn:Ehead; cbn [head_pairs]; rewrite ?Ehead; [|done].
      rewrite filter_cons_True by (simpl; intros ->; by apply Hk).
      rewrite <- Permutation_middle, Hperm. solve_Permutation.
Qed.

Lemma wp_merge_loop fuel d cs h w1 :
  Forall (cursor_ok w) cs -> heap_sorted h -> h ≡ₚ head_pairs 0 (heads cs) ->
  (total_len (rests cs) <= fuel)%nat -> w_files w1 = w_files w ->
  wp (merge_loop fuel d (heads cs) (iters cs) h)
     (fun out w' => is_merge d (rests cs) out /\ after w w1 w')
     (fun _ w' => w_files w' = w_files w /\ ~ quiet w1) w1.
Proof.
  revert cs h w1. induction fuel as [|fuel IH]; intros cs h w1 Hcs Hh Hperm Hf Hw1;
    destruct h as [|[key i] h]; cbn [merge_loop].
  1, 3: apply wp_ret; (split; [|by split]); apply is_merge_done, Forall_fmap, Forall_forall;
    intros c Hc; apply Permutation_nil in Hperm;
    rewrite Forall_forall in Hcs; pose proof (cursor_head w c (Hcs c Hc)) as Hhd;
    by apply (head_pairs_nil 0 cs c Hperm) in Hc; rewrite Hc in Hhd; cbn; destruct (c_rest c).
  - exfalso. destruct (head_pairs_in 0 cs w key i Hcs) as (r & e & Hr & He).
    { rewrite <- Hperm. by left. }
    pose proof (total_len_drop key (rests cs) r e Hr He). lia.
  - assert ((key, i) ∈ head_pairs 0 (heads cs)) as Hin by (rewrite <- Hperm; by left).
    destruct (head_pairs_in 0 cs w key i Hcs Hin) as (r & e & Hr & He).
    pose proof Hh as [Fk Hh']%StronglySorted_cons. cbn [fst] in Fk.
    assert (key_bound key (rests cs)) as Hb.
    { apply (head_pairs_bound 0 cs w); [done|]. rewrite <- Hperm. constructor; [simpl; key_order|done]. }
    pose proof (cursors_sorted w cs Hcs) as Hsr.
    pose proof (total_len_drop key (rests cs) r e Hr He) as Hlt.
    apply wp_bind. eapply wp_advance; [done|by apply pop_same_sorted|done| |done].
    intros cs' h' w2 Hcs' Hrest Hs' Hp' [Hw2 Hq2]. apply wp_bind.
    assert (h' ≡ₚ head_pairs 0 (heads cs')) as Hp2.
    { rewrite pop_same_filter in Hp' by done.
      assert (base.filter (fun x => fst x <> key) (head_pairs 0 (heads cs)) ≡ₚ
        base.filter (fun x => fst x <> key) h) as Hfl.
      { rewrite <- Hperm. rewrite filter_cons_False by (simpl; tauto). done. }
      rewrite Hfl, (Permutation_app_comm h') in Hp'. by apply Permutation_app_inv_l in Hp'. }
    eapply wp_mono; [apply (IH cs' h' w2); [done|done|done|rewrite Hrest; lia|done]| |].
    2: { intros e' w3 [? ?]. split; [done|tauto]. }
    intros out w3 [Hm [Hw3 Hq3]]. apply wp_ret. split; [|split; [done|tauto]].
    rewrite Hrest in Hm. rewrite (find_winner_spec w) by done.
    rewrite <- (newest_winner key (rests cs) Hsr Hb).
    assert (exists v, newest (rests cs) key = Some v) as [v Hv].
    { destruct (newest (rests cs) key) as [v|] eqn:En; [by eauto|]. exfalso.
      apply first_some_None in En. rewrite Forall_forall in En. specialize (En r Hr).
      destruct r as [|[k' e'] r']; [done|]. injection He as -> ->. simpl in En. by rewrite decide_True in En. }
    pose proof (is_merge_round d key (rests cs) out v Hsr Hb Hv Hm) as Hround. rewrite Hv.
    destruct v as [v|], d; exact Hround.
Qed.

(** ** The whole merge *)

(** The run of a table. *)
Definition run_of (bs : list entries) : entries := concat bs.

Lemma wp_open_iters ts bss (Q : list SsTableIterator.t -> World -> Prop) E w1 :
  Forall2 (table_ok w) ts bss -> w_files w1 = w_files w ->
  (forall its w', Forall2 (fun tb it => it_at (fst tb) (snd tb) it (run_of (snd tb))) (zip ts bss) its ->
     after w w1 w' -> Q its w') ->
  (forall e w', w_files w' = w_files w -> ~ quiet w1 -> E e w') ->
  wp (open_iters ts) Q E w1.
Proof.
  intros Hts. revert Q w1. induction Hts as [|t bs ts bss Ht Hts IH]; intros Q w1 Hw1 HQ HE.
  { apply wp_ret. apply HQ; [constructor|by split]. }
  cbn [open_iters]. apply wp_bind.
  eapply (wp_new w t bs Ht); [done| |intros e w' [? _] ?; by apply HE].
  intros it w2 Hit [Hw2 Hq2]. apply wp_bind. apply IH; [done| |intros; apply HE; [done|tauto]].
  intros its w3 Hits [Hw3 Hq3]. apply wp_ret, HQ; [by constructor|split; [done|tauto]].
Qed.

Lemma wp_first_heads ts bss its
    (Q : list head_entry_t * list SsTableIterator.t -> World -> Prop) E w1 :
  Forall2 (table_ok w) ts bss ->
  Forall2 (fun tb it => it_at (fst tb) (snd tb) it (run_of (snd tb))) (zip ts bss) its ->
  w_files w1 = w_files w ->
  (forall cs w', Forall (cursor_ok w) cs -> rests cs = run_of <$> bss -> after w w1 w' ->
     Q (heads cs, iters cs) w') ->
  (forall e w', w_files w' = w_files w -> ~ quiet w1 -> E e w') ->
  wp (first_heads its) Q E w1.
Proof.
  intros Hts. revert its Q w1.
  induction Hts as [|t bs ts bss Ht Hts IH]; intros its Q w1 Hits Hw1 HQ HE.
  { inversion Hits; subst. apply wp_ret. by apply (HQ []). }
  cbn [zip_with] in Hits. inversion Hits as [|? it ? its' Hit Hits']; subst. cbn [fst snd] in Hit.
  cbn [first_heads]. apply wp_bind. eapply wp_pull; [done|done|done| |done].
  intros h it' r' w2 Hit' Hr [Hw2 Hq2]. cbn beta iota. apply wp_bind.
  eapply IH; [done|done| |intros; apply HE; [done|tauto]].
  intros cs w3 Hcs Hrest [Hw3 Hq3]. apply wp_ret.
  apply (HQ (mkCursor t bs h it' (run_of bs) :: cs)); [|by unfold rests in *; rewrite fmap_cons, Hrest|
    split; [done|tauto]].
  constructor; [|done]. split; [done|]. split; [apply Ht|]. exists r'. split; [done|].
  cbn. by destruct h.
Qed.

(** A file is at least as long as it has entries. *)
Lemma table_size_bound t bs : table_ok w t bs -> (length (run_of bs) <= Z.to_nat (SsTable.size_bytes t))%nat.
Proof.
  intros [_ -> _]. cbn [SsTable.set_level SsTable.size_bytes table_of].
  assert (len (run_of bs) <= len (encode_entries (run_of bs))) as Hl.
  { induction (run_of bs) as [|[k e] l IH]; [done|]. rewrite encode_entries_cons, len_app, len_encode_entry.
    pose proof (MemTable.value_len_nonneg e). len_lia. }
  unfold table_bytes. rewrite len_app, len_data_bytes. unfold run_of in *. unfold len in *. lia.
Qed.

Lemma merge_fuel_enough ts bss :
  Forall2 (table_ok w) ts bss -> (total_len (run_of <$> bss) <= merge_fuel ts)%nat.
Proof.
  induction 1 as [|t bs ts bss Ht Hts IH]; [done|].
  rewrite fmap_cons, total_len_cons. unfold merge_fuel in *. rewrite fmap_cons. cbn [sum_list].
  pose proof (table_size_bound t bs Ht). simpl. lia.
Qed.

Lemma wp_merge_tables ts bss d w1 :
  Forall2 (table_ok w) ts bss -> w_files w1 = w_files w ->
  wp (merge_tables ts d) (fun out w' => is_merge d (run_of <$> bss) out /\ after w w1 w')
     (fun _ w' => w_files w' = w_files w /\ ~ quiet w1) w1.
Proof.
  intros Hts Hw1. unfold merge_tables. apply wp_bind.
  eapply wp_open_iters; [done|done| |done]. intros its w2 Hits [Hw2 Hq2]. apply wp_bind.
  eapply wp_first_heads; [done|done|done| |intros; split; [done|tauto]].
  intros cs w3 Hcs Hrest [Hw3 Hq3].
  destruct (fill_heap_spec 0 (heads cs) []) as [Hs Hp]; [constructor|].
  rewrite <- Hrest. eapply wp_mono.
  - apply (wp_merge_loop (merge_fuel ts) d cs); [done|done|done| |done].
    rewrite Hrest. by apply merge_fuel_enough.
  - intros out w4 [Hm [Hw4 Hq4]]. split; [done|]. split; [done|tauto].
  - intros e w4 [? ?]. split; [done|tauto].
Qed.

End merging.

(** ** Writing the output *)

Section compact.
Context `{Libm} (w : World) (ts : list SsTable.t) (bss : list (list entries)).
Context (path : string) (id : Z) (fp : f64) (block_size : Z) (d : bool).
Hypothesis Hts : Forall2 (table_ok w) ts bss.
Hypothesis Hlen : Z.of_nat (total_len (run_of <$> bss)) < 2 ^ 30.
Hypothesis Hbs : 0 <= block_size <= 2 ^ 31.
Hypothesis Hfp : libm_ok.

Lemma merge_fits out :
  is_merge d (run_of <$> bss) out -> ksorted out /\ Forall entry_ok out /\ len out < 2 ^ 30.
Proof using Hts Hlen.
  intros Hm. split_and!; [apply Hm| |pose proof (merge_len d _ out Hm); unfold len; lia].
  apply Forall_forall. intros x Hx. destruct (merge_entry d _ out x Hm Hx) as (r & Hr & Hxr).
  apply list_elem_of_fmap in Hr as (bs & -> & Hbs'). 
  destruct (Forall2_elem_r _ _ _ _ Hts Hbs') as (t & _ & [Hwf _ _]).
  by apply (proj1 (Forall_forall _ _) (tw_entries _ _ Hwf)).
Qed.

Lemma wp_compact (Q : SsTable.t -> World -> Prop) (E : Error -> World -> Prop) :
  (forall bs f w', is_merge d (run_of <$> bss) (run_of bs) -> table_wf bs f ->
     published path bs f w w' -> (quiet w -> quiet w') -> Q (table_of path id bs f) w') ->
  (forall e out w', is_merge d (run_of <$> bss) out -> create_failed path out w w' ->
     ~ quiet w -> E e w') ->
  (forall e w', w_files w' = w_files w -> ~ quiet w -> E e w') ->
  wp (compact ts path id fp block_size d) Q E w.
Proof using Hts Hlen Hbs Hfp.
  intros HQ HE HE0. unfold compact. apply wp_bind.
  eapply wp_mono; [by apply (wp_merge_tables w ts bss d w)| |intros e w' [? ?]; by apply HE0].
  intros out w1 [Hm [Hw1 Hq1]]. destruct (merge_fits out Hm) as (Hs & Hok & Hl).
  apply wp_create; try done.
  - intros bs f w2 Hc Hwf Hp Hq2. apply HQ; [by unfold run_of at 2; rewrite Hc|done| |tauto].
    unfold published in *. by rewrite Hp, Hw1.
  - intros e w2 Hf Hn. apply (HE e out); [done| |tauto].
    destruct Hf as [Hsame|(bs & f & Hc & Hwf & Hp)].
    + left. intros p Hp. by rewrite Hsame, Hw1.
    + right. exists bs, f. split_and!; [done|done|]. unfold published in *. by rewrite Hp, Hw1.
Qed.

End compact.

(** ** Properties *)

(** C21: compaction's merge is the newest-wins merge.  For any well-formed input
    tables, newest first, and when nothing fails, [merge_tables] terminates
    with the sorted list that has, for every key, the entry of the newest table
    that has the key, without the tombstones when they are to be dropped; that
    list is unique. *)
Theorem merge_tables_correct w ts bss d :
  Forall2 (table_ok w) ts bss -> quiet w ->
  exists out w', merge_tables ts d w = (Ok out, w') /\ w_files w' = w_files w /\
    is_merge d (run_of <$> bss) out /\
    (forall out', is_merge d (run_of <$> bss) out' -> out' = out).
Proof.
  intros Hts Hq. destruct (wp_run _ _ _ _ (wp_merge_tables w ts bss d w Hts eq_refl))
    as [(out & w' & E & Hm & Hw & _)|(e & w' & _ & _ & Hn)]; [|done].
  exists out, w'. split_and!; [done|done|done|]. intros out' Hm'. by eapply is_merge_unique.
Qed.

(** Two tables with one key in common, and the world that holds them. *)
Definition sample_filter : BloomFilter.t := BloomFilter.mk (replicate 8 xff) 1.
Definition newer_blocks : list entries := [[([x61], Value [x32])]; [([x63], Tombstone)]].
Definition older_blocks : list entries := [[([x61], Value [x31]); ([x62], Value [])]].
Definition sample_file (bs : list entries) : File :=
  mkFile (table_bytes bs sample_filter) (table_bytes bs sample_filter).
Definition two_tables : World :=
  mkWorld (<["000002.sst" := sample_file newer_blocks]>
           {["000001.sst" := sample_file older_blocks]}) None [].

Lemma full_filter_has k : BloomFilter.has sample_filter k.
Proof.
  intros i Hi. pose proof (probe_index_range (hash_pair k) (len (BloomFilter.bits sample_filter) * 8) i
    ltac:(done)) as Hr. revert Hr. generalize (probe_index (hash_pair k)
    (len (BloomFilter.bits sample_filter) * 8) i). intros j Hj.
  change (len (BloomFilter.bits sample_filter) * 8) with 64 in Hj. unfold BloomFilter.bit_at.
  assert (0 <= j / 8 < 8) by (split; [apply Z.div_pos; lia|apply Z.div_lt_upper_bound; lia]).
  assert (BloomFilter.bits sample_filter !! Z.to_nat (j / 8) = Some xff) as ->.
  { apply lookup_replicate_2. lia. }
  apply (Z.ones_spec_low 8). apply Z.mod_pos_bound. lia.
Qed.

Lemma sample_wf bs :
  bool_decide (ksorted (concat bs)) = true -> bool_decide (Forall (fun b => b <> []) bs) = true ->
  bool_decide (bs <> []) = true ->
  bool_decide (Forall entry_ok (concat bs)) = true -> len (concat bs) < 2 ^ 30 ->
  bool_decide (Forall (fun b => len (data_block b) < 2 ^ 32) bs) = true ->
  table_wf bs sample_filter.
Proof.
  rewrite !bool_decide_eq_true. intros. split; try done; [by left|].
  intros k _. apply full_filter_has.
Qed.

Lemma two_tables_ok :
  Forall2 (table_ok two_tables)
    [table_of "000002.sst" 2 newer_blocks sample_filter;
     table_of "000001.sst" 1 older_blocks sample_filter] [newer_blocks; older_blocks].
Proof.
  do 2 (constructor; [split; [apply sample_wf; vm_compute; reflexivity|reflexivity|reflexivity]|]).
  constructor.
Qed.

Lemma merge_tables_correct_witness :
  exists w', merge_tables
    [table_of "000002.sst" 2 newer_blocks sample_filter;
     table_of "000001.sst" 1 older_blocks sample_filter] true two_tables =
  (Ok [([x61], Value [x32]); ([x62], Value [])], w').
Proof.
  destruct (merge_tables_correct two_tables
    [table_of "000002.sst" 2 newer_blocks sample_filter;
     table_of "000001.sst" 1 older_blocks sample_filter] [newer_blocks; older_blocks] true)
    as (out & w' & E & _ & Hm & _); [exact two_tables_ok|split; reflexivity|].
  exists w'. rewrite E. vm_compute in E. injection E as <- _. reflexivity.
Defined.

(** A failed merge reads only: it reports an error, never panics, and leaves
    every file as it was. *)
Theorem merge_tables_safe w ts bss d :
  Forall2 (table_ok w) ts bss ->
  fst (merge_tables ts d w) <> Panic /\ w_files (snd (merge_tables ts d w)) = w_files w.
Proof.
  intros Hts. destruct (wp_run _ _ _ _ (wp_merge_tables w ts bss d w Hts eq_refl))
    as [(out & w' & -> & _ & Hw & _)|(e & w' & -> & Hw & _)]; by split.
Qed.

Lemma merge_tables_safe_witness :
  let w := mkWorld (w_files two_tables) None [None; None; Some 0%nat] in
  w_files (snd (merge_tables
    [table_of "000002.sst" 2 newer_blocks sample_filter;
     table_of "000001.sst" 1 older_blocks sample_filter] false w)) = w_files two_tables.
Proof.
  cbv zeta. destruct (merge_tables_safe (mkWorld (w_files two_tables) None [None; None; Some 0%nat])
    [table_of "000002.sst" 2 newer_blocks sample_filter;
     table_of "000001.sst" 1 older_blocks sample_filter] [newer_blocks; older_blocks] false)
    as [_ Hw]; [|exact Hw].
  pose proof two_tables_ok as Ht. eapply Forall2_impl; [exact Ht|].
  intros t bs. apply table_ok_files. reflexivity.
Defined.

(** The passes one after the other, errors recorded. *)
Fixpoint passes {S} (on_compact : M S unit) (n : nat) (slot : option string) : M S (option string) :=
  match n with
  | O => mret slot
  | S n' => fun s =>
      match on_compact s with
      | (Ok _, s) => passes on_compact n' slot s
      | (Err err, s) => passes on_compact n' (Some (error_to_string err)) s
      | (Panic, s) => (Panic, s)
      end
  end.

(** Shutting the worker down waits for every compaction requested before:
    it runs one pass per request, an error being recorded and not stopping the
    following passes, and afterwards the worker takes no request.  A panic of
    a pass is reported as a compaction error, not propagated. *)
Theorem worker_shutdown_spec {S} (on_compact : M S unit) slot n s :
  let worker := CompactionWorker.mk (replicate n Compact) true in
  CompactionWorker.shutdown on_compact slot worker s =
  match passes on_compact n slot s with
  | (Ok slot, s) => (Ok (CompactionWorker.mk [] false, slot), s)
  | (Err e, s) => (Err e, s)
  | (Panic, s) => (Err (Errors.Compaction "compaction worker panicked"), s)
  end /\
  (forall w' slot' s', CompactionWorker.shutdown on_compact slot worker s = (Ok (w', slot'), s') ->
     is_ok (CompactionWorker.request_compaction w') = false).
Proof.
  cbn zeta. unfold CompactionWorker.shutdown, CompactionWorker.send. cbn.
  assert (worker_loop on_compact (replicate n Compact ++ [Shutdown]) slot s =
    passes on_compact n slot s) as ->.
  { revert slot s. induction n as [|n IH]; intros slot s; cbn; [done|].
    destruct (on_compact s) as [[] s']; by rewrite ?IH. }
  split; [done|]. intros w' slot' s'. destruct (passes on_compact n slot s) as [[] ?]; [|done|done].
  by intros [= <- <- <-].
Qed.
