(* ===== verification/Versions.v ===== *)
(** * Versions and the choice of compactions ([src/engine.rs], the pure part)

    The live tables by level, which tables a compaction takes, whether it may
    drop tombstones, and the version after it.  These functions only look at
    ids, key ranges and sizes; the proofs relate them to the contents of the
    tables, which are a parameter [run] here and the blocks on disk in
    [EngineInv]. *)

From S2P Require Import Prelude Bytes Errors Collections World Memtable.
From S2P Require Import Bloom SsTables Merge.

Module Version.

Record t := mk { levels : list (list SsTable.t) }.

Definition with_max_levels (max_levels : Z) : t := mk (replicate (Z.to_nat max_levels) []).

Definition tables_newest_first (self : t) : list SsTable.t :=
  match levels self with
  | [] => []
  | l0 :: rest => l0 ++ concat rest
  end.

End Version.

Record CompactionJob := mkJob { inputs : list SsTable.t; output_level : Z }.

Definition overlaps (a : SsTable.t) (b_small b_large : bytes) : bool :=
  if (len (SsTable.smallest a) =? 0) && (len (SsTable.largest a) =? 0) then false
  else key_leb (SsTable.smallest a) b_large && key_leb b_small (SsTable.largest a).

(** The loop over the tables after the first. *)
Definition span_step (acc : bytes * bytes) (table : SsTable.t) : bytes * bytes :=
  let '(small, large) := acc in
  (if key_ltb (SsTable.smallest table) small then SsTable.smallest table else small,
   if key_ltb large (SsTable.largest table) then SsTable.largest table else large).

Definition span (tables : list SsTable.t) : bytes * bytes :=
  let small := default [] (SsTable.smallest <$> head tables) in
  let large := default [] (SsTable.largest <$> head tables) in
  fold_left span_step (tail tables) (small, large).

(** [u64] sums wrap; [saturating_mul] stops at the largest [u64]. *)
Definition total_size (tables : list SsTable.t) : Z :=
  fold_left (fun n t => wrap64 (n + SsTable.size_bytes t)) tables 0.
Definition saturating_mul (a b : Z) : Z := Z.min (a * b) u64_max.

(** The loop [for level in 1..max_levels.saturating_sub(1)], on the levels left. *)
Fixpoint pick_level (version : Version.t) (multiplier : Z) (todo : list nat) (limit : Z)
    : option CompactionJob :=
  match todo with
  | [] => None
  | level :: todo' =>
      match Version.levels version !! level with
      | None => None
      | Some tables =>
          if limit <? total_size tables then
            match tables with
            | [] => None
            | victim :: _ =>
                let next := default [] (Version.levels version !! S level) in
                Some (mkJob (victim :: base.filter (fun table =>
                  overlaps table (SsTable.smallest victim) (SsTable.largest victim) = true) next)
                  (Z.of_nat (S level)))
            end
          else pick_level version multiplier todo' (saturating_mul limit multiplier)
      end
  end.

Definition pick_compaction (version : Version.t) (options : Options) : option CompactionJob :=
  match Version.levels version with
  | [] => None
  | l0 :: _ =>
      if l0_compaction_trigger options <=? len l0 then
        let '(small, large) := span l0 in
        let l1 := default [] (Version.levels version !! 1%nat) in
        Some (mkJob (l0 ++ base.filter (fun table => overlaps table small large = true) l1)
                    (Z.min 1 (Z.max 0 (max_levels options - 1))))
      else
        pick_level version (level_size_multiplier options)
          (seq 1 (Z.to_nat (max_levels options - 1) - 1))
          (wrap64 (memtable_size_bytes options * l0_compaction_trigger options))
  end.

(** The tombstone test of [compact_once]. *)
Definition lower_overlap (version : Version.t) (job : CompactionJob) : bool :=
  existsb (fun '(level, tables) =>
    (output_level job <? Z.of_nat level) &&
    existsb (fun t =>
      existsb (fun i => overlaps t (SsTable.smallest i) (SsTable.largest i)) (inputs job)) tables)
    (imap pair (Version.levels version)).

Definition drop_tombstones (version : Version.t) (options : Options) (job : CompactionJob) : bool :=
  (max_levels options <=? output_level job + 1) || negb (lower_overlap version job).

Definition smallest_sort (l : list SsTable.t) : list SsTable.t :=
  sort_by (fun a b => key_leb (SsTable.smallest a) (SsTable.smallest b)) l.

(** [retain], then [push] into the output level, which stays sorted. *)
Definition apply_compaction (version : Version.t) (job : CompactionJob) (output : SsTable.t)
    : result Version.t :=
  let remove := SsTable.id <$> inputs job in
  let kept := (fun level => base.filter (fun t => SsTable.id t ∉ remove) level)
                <$> Version.levels version in
  let dest := Z.to_nat (Z.min (output_level job) (Z.max 0 (len kept - 1))) in
  let? level := or_panic (kept !! dest) in
  let level := level ++ [output] in
  Ok (Version.mk (<[dest := if (0 <? dest)%nat then smallest_sort level else level]> kept)).

(** ** What a reader sees *)

(** The value of an entry: a tombstone is as good as nothing. *)
Definition visible (o : option Entry) : option bytes :=
  match o with Some (Value v) => Some v | _ => None end.

Lemma newest_app runs1 runs2 k :
  newest (runs1 ++ runs2) k =
  match newest runs1 k with Some e => Some e | None => newest runs2 k end.
Proof. apply first_some_app. Qed.

Lemma newest_None runs k : newest runs k = None <-> forall r, r ∈ runs -> alookup r k = None.
Proof. unfold newest. by rewrite first_some_None, Forall_forall. Qed.

(** Two runs whose key ranges do not meet. *)
Definition separated (c1 c2 : run) : Prop :=
  (forall x y, x ∈ c1 -> y ∈ c2 -> key_lt (fst x) (fst y)) \/
  (forall x y, x ∈ c1 -> y ∈ c2 -> key_lt (fst y) (fst x)).

Lemma separated_sym c1 c2 : separated c1 c2 -> separated c2 c1.
Proof. unfold separated. intros [H|H]; [right|left]; auto. Qed.

Lemma separated_lookup c1 c2 k e : separated c1 c2 -> alookup c1 k = Some e -> alookup c2 k = None.
Proof.
  intros Hs H1%alookup_Some_elem. apply alookup_None. intros ([k' e'] & -> & Hin)%list_elem_of_fmap.
  destruct Hs as [Hs|Hs]; specialize (Hs _ _ H1 Hin); simpl in Hs; key_order.
Qed.

Section contents.
(** The entries of a table. *)
Context (run : SsTable.t -> run).

(** The handle's range is the range of its entries, which are sorted and have
    no empty key. *)
Record described (t : SsTable.t) : Prop := {
  d_sorted : ksorted (run t);
  d_smallest : SsTable.smallest t = default [] (fst <$> head (run t));
  d_largest : SsTable.largest t = default [] (fst <$> last (run t));
  d_keys : Forall (fun x => fst x <> []) (run t);
}.

Definition runs_of (l : list SsTable.t) : list Merge.run := run <$> l.

Lemma runs_of_app l1 l2 : runs_of (l1 ++ l2) = runs_of l1 ++ runs_of l2.
Proof. apply fmap_app. Qed.

Lemma runs_of_cons t l : runs_of (t :: l) = run t :: runs_of l.
Proof. done. Qed.

Lemma runs_elem t l : t ∈ l -> run t ∈ runs_of l.
Proof. apply list_elem_of_fmap_2. Qed.

Lemma newest_runs_None l k :
  newest (runs_of l) k = None <-> forall t, t ∈ l -> alookup (run t) k = None.
Proof.
  rewrite newest_None. split; [intros H t Ht; by apply H, runs_elem|].
  intros H r (t & -> & Ht)%list_elem_of_fmap. auto.
Qed.

Lemma newest_runs_Some l k e :
  newest (runs_of l) k = Some e -> exists t, t ∈ l /\ alookup (run t) k = Some e.
Proof. intros (r & (t & -> & Ht)%list_elem_of_fmap & H)%first_some_Some. eauto. Qed.

(** ** Distinct ids *)

Lemma ids_part l1 l2 l3 : NoDup (SsTable.id <$> l1 ++ l2 ++ l3) -> NoDup (SsTable.id <$> l2).
Proof. rewrite !fmap_app. by intros (_ & _ & (? & _ & _)%NoDup_app)%NoDup_app. Qed.

Lemma ids_disjoint l1 l2 t u :
  NoDup (SsTable.id <$> l1 ++ l2) -> t ∈ l1 -> u ∈ l2 -> SsTable.id t <> SsTable.id u.
Proof.
  rewrite fmap_app. intros (_ & Hd & _)%NoDup_app Ht Hu E.
  apply (Hd (SsTable.id t)); [by apply list_elem_of_fmap_2|]. rewrite E. by apply list_elem_of_fmap_2.
Qed.

Lemma ids_inj l t u :
  NoDup (SsTable.id <$> l) -> t ∈ l -> u ∈ l -> SsTable.id t = SsTable.id u -> t = u.
Proof.
  intros Hnd [i Hi]%list_elem_of_lookup [j Hj]%list_elem_of_lookup E.
  assert (i = j) as ->; [|congruence].
  eapply NoDup_lookup; [done| |]; rewrite list_lookup_fmap; [by rewrite Hi|by rewrite Hj, E].
Qed.

(** ** Levels without overlaps *)

(** Distinct tables of a level hold disjoint ranges. *)
Definition level_ok (l : list SsTable.t) : Prop :=
  forall t1 t2, t1 ∈ l -> t2 ∈ l -> SsTable.id t1 <> SsTable.id t2 -> separated (run t1) (run t2).

(** In such a level the order of the tables is irrelevant. *)
Lemma level_lookup l t k e :
  level_ok l -> NoDup (SsTable.id <$> l) -> t ∈ l -> alookup (run t) k = Some e ->
  newest (runs_of l) k = Some e.
Proof.
  intros Hl Hnd Ht Hk. apply (first_some_agree _ _ (run t)); [by apply runs_elem|done|].
  intros r (t' & -> & Ht')%list_elem_of_fmap.
  destruct (decide (SsTable.id t = SsTable.id t')) as [E|E].
  - right. by rewrite <- (ids_inj l t t' Hnd Ht Ht' E).
  - left. eapply separated_lookup; [|done]. by apply Hl.
Qed.

(** ** Ranges *)

Lemma described_bounds t x :
  described t -> x ∈ run t ->
  key_le (SsTable.smallest t) (fst x) /\ key_le (fst x) (SsTable.largest t).
Proof.
  intros [Hs Hsm Hla _] Hx.
  destruct (head (run t)) as [h|] eqn:Hh; [|destruct (run t); set_solver].
  destruct (last (run t)) as [z|] eqn:Hz; [|apply last_None in Hz; rewrite Hz in Hx; set_solver].
  rewrite Hsm, Hla. simpl. split.
  - destruct (run t) as [|y l]; [done|]. injection Hh as ->.
    apply ksorted_cons in Hs as [F _]. rewrite Forall_forall in F.
    apply elem_of_cons in Hx as [->|Hx]; [key_order|]. specialize (F x Hx). key_order.
  - apply last_Some in Hz as [l Hl]. rewrite Hl in Hs, Hx. apply ksorted_app in Hs as (Hlt & _ & _).
    apply elem_of_app in Hx as [Hx|Hx]; [|apply list_elem_of_singleton in Hx as ->; key_order].
    specialize (Hlt x z Hx ltac:(by left)). key_order.
Qed.

(** The ends of the range are keys of the table. *)
Lemma described_ends t :
  described t -> run t <> [] ->
  (exists x, x ∈ run t /\ SsTable.smallest t = fst x) /\
  (exists y, y ∈ run t /\ SsTable.largest t = fst y).
Proof.
  intros [Hs Hsm Hla _] Hne. rewrite Hsm, Hla. split.
  - destruct (run t) as [|x l]; [done|]. exists x. split; [by left|done].
  - destruct (last (run t)) as [y|] eqn:Hl; [|by apply last_None in Hl].
    apply last_Some in Hl as [l ->]. exists y. split; [set_solver|done].
Qed.

(** A table that is not empty has a range that is not empty. *)
Lemma described_nonempty t x :
  described t -> x ∈ run t ->
  (len (SsTable.smallest t) =? 0) && (len (SsTable.largest t) =? 0) = false.
Proof.
  intros Hd Hx. apply andb_false_iff. left. apply Z.eqb_neq. intros Hl%len_0_nil.
  destruct (described_ends t Hd) as [(y & Hy & E) _]; [intros E; rewrite E in Hx; set_solver|].
  pose proof (proj1 (Forall_forall _ _) (d_keys t Hd) y Hy) as Hk. simpl in Hk. congruence.
Qed.

(** A table outside [small, large] lies on one side of it. *)
Lemma not_overlaps t small large x :
  described t -> x ∈ run t -> overlaps t small large = false ->
  (forall y, y ∈ run t -> key_lt large (fst y)) \/ (forall y, y ∈ run t -> key_lt (fst y) small).
Proof.
  intros Hd Hx. unfold overlaps. rewrite (described_nonempty t x Hd Hx).
  rewrite andb_false_iff. intros [H|H]; reflect_keys; [left|right];
    intros y Hy; destruct (described_bounds t y Hd Hy); key_order.
Qed.

Lemma overlaps_true t small large :
  overlaps t small large = true ->
  key_le (SsTable.smallest t) large /\ key_le small (SsTable.largest t).
Proof.
  unfold overlaps. case_if; [done|]. rewrite andb_true_iff. intros [? ?]. reflect_keys. done.
Qed.

(** An overlapping table is not empty, unless the range is that of an empty one. *)
Lemma overlaps_run t small large :
  described t -> overlaps t small large = true -> run t <> [].
Proof.
  intros [_ Hsm Hla _] Ho E. rewrite E in Hsm, Hla. simpl in *. unfold overlaps in Ho.
  by rewrite Hsm, Hla in Ho.
Qed.

Lemma span_fold l acc :
  let s := fold_left span_step l acc in
  key_le (fst s) (fst acc) /\ key_le (snd acc) (snd s) /\
  forall t, t ∈ l -> key_le (fst s) (SsTable.smallest t) /\ key_le (SsTable.largest t) (snd s).
Proof.
  revert acc. induction l as [|t l IH]; intros [small large]; cbn [fold_left].
  { simpl. split_and!; [key_order|key_order|set_solver]. }
  destruct (IH (span_step (small, large) t)) as (H1 & H2 & H3). cbn zeta in *.
  assert (key_le (fst (span_step (small, large) t)) small /\
    key_le (fst (span_step (small, large) t)) (SsTable.smallest t) /\
    key_le large (snd (span_step (small, large) t)) /\
    key_le (SsTable.largest t) (snd (span_step (small, large) t))) as (?&?&?&?).
  { unfold span_step. simpl. repeat case_if; reflect_keys; split_and!; key_order. }
  simpl in *. split_and!; [key_order|key_order|].
  intros t' [->|Ht]%elem_of_cons; [split; key_order|auto].
Qed.

(** The span of tables covers their ranges. *)
Lemma span_covers l t :
  t ∈ l -> key_le (fst (span l)) (SsTable.smallest t) /\ key_le (SsTable.largest t) (snd (span l)).
Proof.
  destruct l as [|t0 l]; [set_solver|]. unfold span. cbn [head tail fmap option_fmap option_map default].
  destruct (span_fold l (SsTable.smallest t0, SsTable.largest t0)) as (H1 & H2 & H3).
  simpl in *. intros [->|Ht]%elem_of_cons; [split; key_order|auto].
Qed.

(** ** One compaction step

    [xin] and [yin] are merged into [out]; [xrest] and [yrest] are what is left
    of the two levels, [below] are the tables of the deeper levels. *)
Section step.
Context (xin xrest yin yrest level' below : list SsTable.t) (out : SsTable.t) (d : bool).
Hypothesis Hx : xrest = [] \/ (level_ok (xin ++ xrest) /\ NoDup (SsTable.id <$> xin ++ xrest)).
Hypothesis Hy : level_ok (yin ++ yrest).
Hypothesis Hyd : NoDup (SsTable.id <$> yin ++ yrest).
Hypothesis Hout : is_merge d (runs_of (xin ++ yin)) (run out).
Hypothesis Hlevel : level' ≡ₚ out :: yrest.
(** The tables left in the target level do not hold a key of [xin]. *)
Hypothesis Hfree : forall t u k e,
  t ∈ yrest -> u ∈ xin -> alookup (run u) k = Some e -> alookup (run t) k = None.
(** When tombstones are dropped, nothing below holds a key of the inputs. *)
Hypothesis Hbelow : d = true -> forall t u k e,
  t ∈ below -> u ∈ xin ++ yin -> alookup (run u) k = Some e -> alookup (run t) k = None.

(** A key of the inputs is in no table that stays in the target level. *)
Lemma input_not_in_rest t k e :
  newest (runs_of (xin ++ yin)) k = Some e -> t ∈ yrest -> alookup (run t) k = None.
Proof.
  intros (u & Hu & Hk)%newest_runs_Some Ht. apply elem_of_app in Hu as [Hu|Hu]; [by eapply Hfree|].
  eapply separated_lookup; [|done]. apply Hy; [set_solver|set_solver|].
  by apply (ids_disjoint yin yrest).
Qed.

(** The target level after the step. *)
Lemma level'_lookup k :
  newest (runs_of level') k =
  match newest (runs_of (xin ++ yin)) k with
  | Some e => keep d (Some e)
  | None => newest (runs_of yrest) k
  end.
Proof.
  pose proof Hout as [_ Hl]. specialize (Hl k).
  assert (forall t, t ∈ level' -> t = out \/ t ∈ yrest) as Hin.
  { intros t Ht. rewrite Hlevel in Ht. set_solver. }
  assert (forall t, t = out \/ t ∈ yrest -> t ∈ level') as Hin'.
  { intros t Ht. rewrite Hlevel. set_solver. }
  destruct (newest (runs_of (xin ++ yin)) k) as [e|] eqn:En.
  - assert (forall t, t ∈ yrest -> alookup (run t) k = None) as Hr.
    { intros t Ht. by eapply input_not_in_rest. }
    destruct (keep d (Some e)) as [e'|] eqn:Ek.
    + apply (first_some_agree _ _ (run out)); [apply runs_elem, Hin'; auto|done|].
      intros r (t & -> & [->|Ht]%Hin)%list_elem_of_fmap; [by right|left; auto].
    + apply newest_runs_None. intros t [->|Ht]%Hin; auto.
  - simpl in Hl. destruct (newest (runs_of yrest) k) as [e|] eqn:Ey.
    + apply newest_runs_Some in Ey as (t & Ht & Hk).
      apply (first_some_agree _ _ (run t)); [apply runs_elem, Hin'; auto|done|].
      intros r (t' & -> & [->|Ht']%Hin)%list_elem_of_fmap; [by left|].
      destruct (decide (SsTable.id t = SsTable.id t')) as [E|E].
      * right. rewrite <- (ids_inj (yin ++ yrest) t t' Hyd) by (set_solver || done). done.
      * left. eapply separated_lookup; [|done]. apply Hy; [set_solver|set_solver|done].
    + apply newest_runs_None. rewrite newest_runs_None in Ey. intros t [->|Ht]%Hin; auto.
Qed.

(** The target level before the step, for a key that [xin] does not hold. *)
Lemma level_before_lookup k :
  newest (runs_of xin) k = None ->
  newest (runs_of (yin ++ yrest)) k =
  match newest (runs_of (xin ++ yin)) k with
  | Some e => Some e
  | None => newest (runs_of yrest) k
  end.
Proof. intros Hn. by rewrite !runs_of_app, !newest_app, Hn. Qed.

(** Every key shows the same value before and after. *)
Lemma step_visible ylevel k :
  ylevel ≡ₚ yin ++ yrest ->
  visible (newest (runs_of (xin ++ xrest ++ ylevel ++ below)) k) =
  visible (newest (runs_of (xrest ++ level' ++ below)) k).
Proof.
  intros Hperm.
  assert (newest (runs_of ylevel) k = newest (runs_of (yin ++ yrest)) k) as Ey.
  { destruct (newest (runs_of (yin ++ yrest)) k) as [e|] eqn:E.
    - apply newest_runs_Some in E as (t & Ht & Hk).
      apply (level_lookup ylevel t); [|by rewrite Hperm|by rewrite Hperm|done].
      intros t1 t2 H1 H2. rewrite Hperm in H1, H2. by apply Hy.
    - apply newest_runs_None. rewrite newest_runs_None in E. intros t Ht. rewrite Hperm in Ht. auto. }
  rewrite !runs_of_app, !newest_app. fold (runs_of level'). rewrite level'_lookup, Ey.
  assert (d = true -> newest (runs_of (xin ++ yin)) k <> None -> newest (runs_of below) k = None) as Hlow.
  { intros Hd Hn. destruct (newest (runs_of (xin ++ yin)) k) as [e|] eqn:E; [|done].
    apply newest_runs_Some in E as (u & Hu & Hk). apply newest_runs_None. intros t Ht.
    by eapply Hbelow. }
  destruct (newest (runs_of xin) k) as [e|] eqn:En.
  - assert (newest (runs_of (xin ++ yin)) k = Some e) as Hin by (by rewrite runs_of_app, newest_app, En).
    rewrite Hin in *. assert (newest (runs_of xrest) k = None) as ->.
    { destruct Hx as [->|[Hxl Hxn]]; [done|]. apply newest_runs_Some in En as (u & Hu & Hk).
      apply newest_runs_None. intros t Ht. eapply separated_lookup; [|done].
      apply Hxl; [set_solver|set_solver|]. by apply (ids_disjoint xin xrest). }
    destruct e as [v|], d; simpl; try done. by rewrite Hlow.
  - rewrite level_before_lookup by done. destruct (newest (runs_of xrest) k); [done|].
    destruct (newest (runs_of (xin ++ yin)) k) as [[v|]|]; [done| |done].
    destruct d; simpl; [by rewrite Hlow|done].
Qed.

End step.

(** ** Versions *)

Record version_ok (v : Version.t) : Prop := {
  v_tables : forall t, t ∈ concat (Version.levels v) -> described t;
  v_nodup : NoDup (SsTable.id <$> concat (Version.levels v));
  v_levels : forall i l, Version.levels v !! i = Some l -> (0 < i)%nat -> level_ok l;
}.

(** The entry of a key in the tables. *)
Definition view (v : Version.t) (k : bytes) : option Entry :=
  newest (runs_of (Version.tables_newest_first v)) k.

Lemma tables_newest_first_concat v : Version.tables_newest_first v = concat (Version.levels v).
Proof. unfold Version.tables_newest_first. by destruct (Version.levels v). Qed.

(** The tables flushed since a snapshot was taken come first in level 0. *)
Definition push_l0 (extra : list SsTable.t) (ls : list (list SsTable.t)) : list (list SsTable.t) :=
  match ls with
  | [] => []
  | l0 :: rest => (extra ++ l0) :: rest
  end.

Lemma concat_push_l0 extra ls : ls <> [] -> concat (push_l0 extra ls) = extra ++ concat ls.
Proof. destruct ls as [|l0 ls]; [done|]. intros _. cbn. by rewrite app_assoc. Qed.

(** The two levels a job is about: [xin] and [xrest] are the source level, [y]
    the target. *)
Record job_shape (v : Version.t) (job : CompactionJob) (pre post : list (list SsTable.t))
    (xin xrest y : list SsTable.t) : Prop := {
  js_levels : Version.levels v = pre ++ (xin ++ xrest) :: y :: post;
  js_source : xrest = [] \/ pre <> [];
  js_inputs : inputs job =
    xin ++ base.filter (fun t => overlaps t (fst (span xin)) (snd (span xin)) = true) y;
  js_output : output_level job = Z.of_nat (S (length pre));
}.

Lemma pick_level_shape v m todo limit job :
  pick_level v m todo limit = Some job ->
  Forall (fun i => (0 < i)%nat /\ (S i < length (Version.levels v))%nat) todo ->
  exists pre post xin xrest y, job_shape v job pre post xin xrest y.
Proof.
  revert limit. induction todo as [|i todo IH]; intros limit; cbn [pick_level]; [done|].
  intros Hp [[Hi Hlt] Htodo]%Forall_cons.
  destruct (Version.levels v !! i) as [tables|] eqn:Ei; [|done].
  revert Hp. case_if; intros Hp; [|by eapply IH]. destruct tables as [|victim rest]; [done|].
  destruct (lookup_lt_is_Some_2 (Version.levels v) (S i) Hlt) as [y Ey]. rewrite Ey in Hp.
  injection Hp as <-.
  destruct (list_elem_of_split_length _ _ _ Ei) as (pre & tl & E & Hl).
  rewrite E in Ey. rewrite lookup_app_r in Ey by lia.
  replace (S i - length pre)%nat with 1%nat in Ey by lia.
  destruct tl as [|y' post]; [done|]. injection Ey as ->.
  exists pre, post, [victim], rest, y. split; [done| |done|cbn; lia].
  right. intros ->. simpl in Hl. lia.
Qed.

Lemma pick_compaction_shape v o job :
  len (Version.levels v) = max_levels o -> 2 <= max_levels o ->
  pick_compaction v o = Some job ->
  exists pre post xin xrest y, job_shape v job pre post xin xrest y.
Proof.
  intros Hlen H2. unfold pick_compaction. destruct (Version.levels v) as [|l0 ls] eqn:E; [done|].
  case_if.
  - destruct ls as [|y post]; [len_lia|]. intros Hj.
    exists [], post, l0, [], y. destruct (span l0) as [small large] eqn:Es.
    injection Hj as <-. split; [by rewrite E, app_nil_r|by left|cbn; by rewrite Es|cbn; lia].
  - intros Hj. eapply pick_level_shape; [done|]. apply Forall_forall. intros i Hi%elem_of_seq.
    rewrite E. unfold len in Hlen. lia.
Qed.

Section apply.
Context (v : Version.t) (o : Options) (job : CompactionJob) (out : SsTable.t).
Context (pre post : list (list SsTable.t)) (xin xrest y extra : list SsTable.t).
Hypothesis Hshape : job_shape v job pre post xin xrest y.
Hypothesis Hmax : len (Version.levels v) = max_levels o.
(** The version when the result is installed. *)
Context (v2 : Version.t).
Hypothesis Hv2 : Version.levels v2 = push_l0 extra (Version.levels v).
Hypothesis Hok : version_ok v2.
Hypothesis Hmerge : is_merge (drop_tombstones v o job) (runs_of (inputs job)) (run out).
Hypothesis Hdesc : described out.
Hypothesis Hfresh : SsTable.id out ∉ SsTable.id <$> concat (Version.levels v2).

Let small := fst (span xin).
Let large := snd (span xin).
Let yin := base.filter (fun t => overlaps t small large = true) y.
Let yrest := base.filter (fun t => overlaps t small large <> true) y.

Lemma all_tables :
  concat (Version.levels v2) = extra ++ concat pre ++ xin ++ xrest ++ y ++ concat post.
Proof.
  rewrite Hv2, (js_levels _ _ _ _ _ _ _ Hshape), concat_push_l0 by (by destruct pre).
  rewrite concat_app. cbn [concat]. by rewrite <- !app_assoc.
Qed.

Lemma y_split : y ≡ₚ yin ++ yrest.
Proof. symmetry. apply filter_app_complement. Qed.

(** Every table named below is a table of the version. *)
Lemma in_version t :
  t ∈ extra \/ t ∈ concat pre \/ t ∈ xin \/ t ∈ xrest \/ t ∈ y \/ t ∈ concat post -> described t.
Proof. intros Ht. apply (v_tables _ Hok). rewrite all_tables, !elem_of_app. tauto. Qed.

Lemma y_level : level_ok y.
Proof.
  apply (v_levels _ Hok (S (length pre))); [|lia].
  rewrite Hv2, (js_levels _ _ _ _ _ _ _ Hshape). clear. destruct pre as [|l0 pre']; [done|].
  change (push_l0 extra ((l0 :: pre') ++ (xin ++ xrest) :: y :: post)) with
    (((extra ++ l0) :: pre') ++ (xin ++ xrest) :: y :: post).
  rewrite lookup_app_r by (simpl; lia). simpl length.
  by replace (S (S (length pre')) - S (length pre'))%nat with 1%nat by lia.
Qed.

Lemma ids_nodup :
  NoDup (SsTable.id <$> extra ++ concat pre ++ xin ++ xrest ++ y ++ concat post).
Proof. rewrite <- all_tables. apply Hok. Qed.

Lemma x_nodup : NoDup (SsTable.id <$> xin ++ xrest).
Proof.
  apply (ids_part (extra ++ concat pre) _ (y ++ concat post)).
  pose proof ids_nodup as Hn. by rewrite <- !app_assoc.
Qed.

Lemma y_nodup : NoDup (SsTable.id <$> yin ++ yrest).
Proof.
  rewrite <- y_split. apply (ids_part (extra ++ concat pre ++ xin ++ xrest) _ (concat post)).
  pose proof ids_nodup as Hn. by rewrite <- !app_assoc.
Qed.

(** The tables left in the target level lie beside the span of the inputs. *)
Lemma yrest_side t x :
  t ∈ yrest -> x ∈ run t ->
  (forall z, z ∈ run t -> key_lt large (fst z)) \/ (forall z, z ∈ run t -> key_lt (fst z) small).
Proof.
  intros [Hn Ht]%list_elem_of_filter Hx. apply (not_overlaps t small large x); [|done|].
  - apply in_version. tauto.
  - by destruct (overlaps t small large).
Qed.

Lemma xin_in_span u x : u ∈ xin -> x ∈ run u -> key_le small (fst x) /\ key_le (fst x) large.
Proof.
  intros Hu Hx. destruct (span_covers xin u Hu) as [H1 H2]. fold small large in H1, H2.
  destruct (described_bounds u x) as [H3 H4]; [apply in_version; tauto|done|]. split; key_order.
Qed.

(** A table that stays is separated from every input, on the same side. *)
Lemma yrest_beside t : t ∈ yrest ->
  (forall u x z, u ∈ xin ++ yin -> x ∈ run u -> z ∈ run t -> key_lt (fst x) (fst z)) \/
  (forall u x z, u ∈ xin ++ yin -> x ∈ run u -> z ∈ run t -> key_lt (fst z) (fst x)).
Proof.
  intros Ht. destruct (run t) as [|z0 r] eqn:Er; [left; set_solver|]. rewrite <- Er.
  assert (z0 ∈ run t) as Hz0 by (rewrite Er; by left).
  assert (forall u, u ∈ yin -> separated (run u) (run t) /\ described u /\
    key_le (SsTable.smallest u) large /\ key_le small (SsTable.largest u) /\ run u <> []) as Hyin.
  { intros u Hu. pose proof (ids_disjoint yin yrest u t y_nodup Hu Ht) as Hne.
    apply list_elem_of_filter in Hu as [Ho Hu]. apply list_elem_of_filter in Ht as [_ Hty].
    assert (described u) as Hd by (apply in_version; tauto).
    destruct (overlaps_true u small large Ho). split_and!; try done; [by apply y_level|].
    by eapply overlaps_run. }
  destruct (yrest_side t z0 Ht Hz0) as [Hside|Hside]; [left|right];
    intros u x z [Hu|Hu]%elem_of_app Hx Hz.
  - destruct (xin_in_span u x Hu Hx). specialize (Hside z Hz). key_order.
  - destruct (Hyin u Hu) as ([Hs|Hs] & Hd & H1 & H2 & Hne); [by apply Hs|]. exfalso.
    destruct (described_ends u Hd Hne) as [(x0 & Hx0 & E) _]. rewrite E in H1.
    specialize (Hs x0 z Hx0 Hz). specialize (Hside z Hz). key_order.
  - destruct (xin_in_span u x Hu Hx). specialize (Hside z Hz). key_order.
  - destruct (Hyin u Hu) as ([Hs|Hs] & Hd & H1 & H2 & Hne); [|by apply Hs]. exfalso.
    destruct (described_ends u Hd Hne) as [_ (x0 & Hx0 & E)]. rewrite E in H2.
    specialize (Hs x0 z Hx0 Hz). specialize (Hside z Hz). key_order.
Qed.

Lemma inputs_eq : inputs job = xin ++ yin.
Proof. apply (js_inputs _ _ _ _ _ _ _ Hshape). Qed.

Lemma out_separated t : t ∈ yrest -> separated (run out) (run t).
Proof.
  intros Ht. pose proof Hmerge as Hm. rewrite inputs_eq in Hm.
  destruct (yrest_beside t Ht) as [H|H]; [left|right]; intros x z Hx Hz;
    destruct (merge_entry _ _ _ x Hm Hx) as (r & (u & -> & Hu)%list_elem_of_fmap & Hxu); eauto.
Qed.

(** *** The levels after the step *)

Abbreviation removed := (SsTable.id <$> inputs job).

(** The other tables have other ids. *)
Lemma not_removed t :
  t ∈ extra \/ t ∈ concat pre \/ t ∈ xrest \/ t ∈ concat post -> SsTable.id t ∉ removed.
Proof.
  intros Ht. rewrite inputs_eq. intros (u & E & Hu)%list_elem_of_fmap.
  assert (u ∈ xin \/ u ∈ y) as Hu'.
  { apply elem_of_app in Hu as [?|Hu]; [by left|]. apply list_elem_of_filter in Hu as [_ ?]. by right. }
  pose proof ids_nodup as Hn. rewrite !fmap_app, !NoDup_app in Hn.
  assert (forall l : list SsTable.t, t ∈ l -> SsTable.id t ∈ SsTable.id <$> l) as Hti
    by (intros; by apply list_elem_of_fmap_2).
  assert (forall l : list SsTable.t, u ∈ l -> SsTable.id t ∈ SsTable.id <$> l) as Hui
    by (intros; rewrite E; by apply list_elem_of_fmap_2).
  destruct Hn as (_ & H1 & _ & H2 & _ & H3 & _ & H4 & _ & H5 & _).
  specialize (H1 (SsTable.id t)). specialize (H2 (SsTable.id t)). specialize (H3 (SsTable.id t)).
  specialize (H4 (SsTable.id t)). specialize (H5 (SsTable.id t)). rewrite !elem_of_app in *.
  destruct Ht as [Ht|[Ht|[Ht|Ht]]]; apply Hti in Ht; destruct Hu' as [Hu'|Hu']; apply Hui in Hu'; tauto.
Qed.

Lemma retain_rest (l : list SsTable.t) :
  (forall t, t ∈ l -> t ∈ extra \/ t ∈ concat pre \/ t ∈ xrest \/ t ∈ concat post) ->
  base.filter (fun t => SsTable.id t ∉ removed) l = l.
Proof. intros Hl. apply filter_all, Forall_forall. intros t Ht. by apply not_removed, Hl. Qed.

Lemma retain_x : base.filter (fun t => SsTable.id t ∉ removed) (xin ++ xrest) = xrest.
Proof.
  rewrite filter_app, (retain_rest xrest) by tauto. rewrite filter_none; [done|].
  apply Forall_forall. intros t Ht Hn. apply Hn. rewrite inputs_eq, fmap_app. apply elem_of_app. left.
  by apply list_elem_of_fmap_2.
Qed.

Lemma retain_y : base.filter (fun t => SsTable.id t ∉ removed) y = yrest.
Proof.
  apply filter_ext_elem. intros t Ht. rewrite inputs_eq. split; intros Hn.
  - intros Ho. apply Hn. rewrite fmap_app. apply elem_of_app. right.
    apply list_elem_of_fmap_2, list_elem_of_filter. done.
  - intros (u & E & Hu)%list_elem_of_fmap. pose proof ids_nodup as Hnd.
    apply elem_of_app in Hu as [Hu|Hu].
    + apply (ids_disjoint (extra ++ concat pre ++ xin ++ xrest) (y ++ concat post) u t);
        [by rewrite <- !app_assoc|rewrite !elem_of_app; tauto|apply elem_of_app; by left|done].
    + apply list_elem_of_filter in Hu as [Ho Hu]. apply Hn.
      rewrite (ids_inj y t u); [done| |done|done|done].
      apply (ids_part (extra ++ concat pre ++ xin ++ xrest) _ (concat post)). by rewrite <- !app_assoc.
Qed.

Lemma retain_levels (ls : list (list SsTable.t)) :
  (forall t, t ∈ concat ls -> t ∈ extra \/ t ∈ concat pre \/ t ∈ xrest \/ t ∈ concat post) ->
  (fun level => base.filter (fun t => SsTable.id t ∉ removed) level) <$> ls = ls.
Proof.
  induction ls as [|l ls IH]; intros Hl; [done|]. rewrite fmap_cons. cbn [concat] in Hl.
  rewrite retain_rest by (intros; apply Hl, elem_of_app; by left).
  rewrite IH by (intros; apply Hl, elem_of_app; by right). done.
Qed.

Lemma kept_levels :
  (fun level => base.filter (fun t => SsTable.id t ∉ removed) level) <$> Version.levels v2 =
  push_l0 extra (pre ++ xrest :: yrest :: post).
Proof.
  rewrite Hv2, (js_levels _ _ _ _ _ _ _ Hshape).
  assert (forall e ls, (fun level => base.filter (fun t => SsTable.id t ∉ removed) level) <$> push_l0 e ls =
    push_l0 (base.filter (fun t => SsTable.id t ∉ removed) e)
      ((fun level => base.filter (fun t => SsTable.id t ∉ removed) level) <$> ls)) as ->.
  { intros e [|l ls]; [done|]. cbn [push_l0]. rewrite !fmap_cons. cbn [push_l0]. by rewrite filter_app. }
  rewrite (retain_rest extra) by tauto. f_equal.
  rewrite fmap_app, !fmap_cons, retain_x, retain_y, !retain_levels; [done|tauto|tauto].
Qed.

(** The target level with the output. *)
Definition new_level : list SsTable.t := smallest_sort (yrest ++ [out]).

Lemma new_level_perm : new_level ≡ₚ out :: yrest.
Proof. unfold new_level, smallest_sort. rewrite sort_by_perm. solve_Permutation. Qed.

Lemma apply_compaction_eq :
  apply_compaction v2 job out =
  Ok (Version.mk (push_l0 extra (pre ++ xrest :: new_level :: post))).
Proof.
  unfold apply_compaction. rewrite kept_levels. cbn zeta.
  rewrite (js_output _ _ _ _ _ _ _ Hshape).
  assert (forall b, exists pre', push_l0 extra (pre ++ xrest :: b :: post) = pre' ++ b :: post /\
    length pre' = S (length pre) /\
    (forall b', push_l0 extra (pre ++ xrest :: b' :: post) = pre' ++ b' :: post)) as Hpush.
  { intros b. destruct pre as [|l0 pre'].
    - by exists [extra ++ xrest].
    - exists (((extra ++ l0) :: pre') ++ [xrest]). rewrite length_app. cbn.
      split_and!; [by rewrite <- app_assoc|lia|]. intros b'. by rewrite <- app_assoc. }
  destruct (Hpush yrest) as (pre' & -> & Hl & Hb).
  assert (Z.to_nat (Z.min (Z.of_nat (S (length pre))) (Z.max 0 (len (pre' ++ yrest :: post) - 1)))
    = length pre') as ->.
  { rewrite len_app, len_cons. unfold len. lia. }
  rewrite list_lookup_middle by done. cbn [or_panic]. rsimpl.
  rewrite insert_app_r_alt, Nat.sub_diag by lia. cbn [base.insert list_insert].
  replace (0 <? length pre')%nat with true by (symmetry; apply Nat.ltb_lt; lia).
  by rewrite Hb.
Qed.

Abbreviation new_version := (Version.mk (push_l0 extra (pre ++ xrest :: new_level :: post))).

Lemma new_tables :
  concat (Version.levels new_version) =
  extra ++ concat pre ++ xrest ++ new_level ++ concat post.
Proof. cbn [Version.levels]. rewrite concat_push_l0 by (by destruct pre). by rewrite concat_app. Qed.

(** They are the output and the tables that were not inputs. *)
Lemma new_tables_perm :
  concat (Version.levels new_version) ≡ₚ
  out :: base.filter (fun t => SsTable.id t ∉ removed) (concat (Version.levels v2)).
Proof.
  rewrite filter_concat, kept_levels, concat_push_l0, new_tables, new_level_perm by (by destruct pre).
  rewrite concat_app. cbn [concat]. solve_Permutation.
Qed.

Lemma input_described u : u ∈ inputs job -> described u.
Proof.
  rewrite inputs_eq. intros [Hu|Hu]%elem_of_app; [apply in_version; tauto|].
  apply list_elem_of_filter in Hu as [_ Hu]. apply in_version; tauto.
Qed.

(** Tombstones are dropped only when no deeper table holds a key of the inputs. *)
Lemma lower_clear t u k e :
  drop_tombstones v o job = true -> t ∈ concat post -> u ∈ inputs job ->
  alookup (run u) k = Some e -> alookup (run t) k = None.
Proof.
  unfold drop_tombstones. intros [Hd|Hd]%orb_true_iff Ht Hu Hk.
  { apply Z.leb_le in Hd. rewrite (js_output _ _ _ _ _ _ _ Hshape) in Hd.
    pose proof Hmax as Hm. rewrite (js_levels _ _ _ _ _ _ _ Hshape), len_app, !len_cons in Hm.
    destruct post; [set_solver|]. rewrite len_cons in Hm. unfold len in *. lia. }
  assert (overlaps t (SsTable.smallest u) (SsTable.largest u) = false) as Ho.
  { apply negb_true_iff in Hd. destruct (overlaps _ _ _) eqn:Ho; [|done]. rewrite <- Hd.
    symmetry. apply existsb_exists.
    apply elem_of_concat in Ht as (l & Ht & [i Hi]%list_elem_of_lookup).
    exists (length pre + 2 + i, l)%nat. split.
    - apply list_elem_of_In, list_elem_of_lookup. exists (length pre + 2 + i)%nat.
      rewrite list_lookup_imap, (js_levels _ _ _ _ _ _ _ Hshape), lookup_app_r by lia.
      replace (length pre + 2 + i - length pre)%nat with (S (S i)) by lia.
      change (((xin ++ xrest) :: y :: post) !! S (S i)) with (post !! i). by rewrite Hi.
    - rewrite (js_output _ _ _ _ _ _ _ Hshape). apply andb_true_iff. split; [apply Z.ltb_lt; lia|].
      apply existsb_exists. exists t. split; [by apply list_elem_of_In|].
      apply existsb_exists. exists u. split; [by apply list_elem_of_In|done]. }
  destruct (alookup (run t) k) as [e'|] eqn:E; [|done]. exfalso.
  apply alookup_Some_elem in E, Hk.
  destruct (described_bounds u _ (input_described u Hu) Hk) as [Hlo Hhi]. simpl in *.
  destruct (not_overlaps t _ _ _ (in_version t ltac:(tauto)) E Ho) as [H|H];
    specialize (H _ E); simpl in H; key_order.
Qed.

(** A prefix of tables hides whatever is below it. *)
Lemma visible_under l t1 t2 k :
  visible (newest (runs_of t1) k) = visible (newest (runs_of t2) k) ->
  visible (newest (runs_of (l ++ t1)) k) = visible (newest (runs_of (l ++ t2)) k).
Proof. intros H. rewrite !runs_of_app, !newest_app. by destruct (newest (runs_of l) k). Qed.

Lemma new_version_view k : visible (view new_version k) = visible (view v2 k).
Proof.
  unfold view. rewrite !tables_newest_first_concat, new_tables, all_tables. symmetry.
  do 2 apply visible_under.
  apply (step_visible xin xrest yin yrest new_level (concat post) out (drop_tombstones v o job)).
  - destruct (js_source _ _ _ _ _ _ _ Hshape) as [E|E]; [by left|right]. split; [|apply x_nodup].
    apply (v_levels _ Hok (length pre)); [|destruct pre; [done|simpl; lia]].
    rewrite Hv2, (js_levels _ _ _ _ _ _ _ Hshape). destruct pre as [|l0 pre']; [done|].
    cbn [app push_l0 length]. by apply list_lookup_middle.
  - intros t1 t2. rewrite <- !y_split. apply y_level.
  - apply y_nodup.
  - rewrite <- inputs_eq. apply Hmerge.
  - apply new_level_perm.
  - intros t u k' e Ht Hu Hk. destruct (alookup (run t) k') as [e'|] eqn:E; [|done].
    apply alookup_Some_elem in E, Hk.
    destruct (yrest_beside t Ht) as [H|H]; specialize (H u _ _ ltac:(set_solver) Hk E); simpl in H; key_order.
  - intros Hd t u k' e Ht Hu. rewrite <- inputs_eq in Hu. by apply lower_clear.
  - apply y_split.
Qed.

Lemma push_l0_lookup (e : list SsTable.t) ls i : (0 < i)%nat -> push_l0 e ls !! i = ls !! i.
Proof. destruct ls, i; (lia || done). Qed.

Lemma new_version_ok : version_ok new_version.
Proof.
  assert (forall t, t ∈ new_level -> t = out \/ t ∈ yrest) as Hnew.
  { intros t. rewrite new_level_perm. set_solver. }
  split.
  - intros t. rewrite new_tables, !elem_of_app. intros [Ht|[Ht|[Ht|[Ht|Ht]]]].
    4: apply Hnew in Ht as [->|[_ Ht]%list_elem_of_filter]; [done|].
    all: apply in_version; tauto.
  - rewrite new_tables_perm, fmap_cons. apply NoDup_cons.
    pose proof (fmap_sublist SsTable.id _ _ (sublist_filter (fun t => SsTable.id t ∉ removed)
      (concat (Version.levels v2)))) as Hsub. split.
    + intros Hin. apply Hfresh. eapply elem_of_submseteq; [done|by apply sublist_submseteq].
    + eapply sublist_NoDup; [apply Hok|done].
  - intros i l. cbn [Version.levels]. intros Hl Hi. rewrite push_l0_lookup in Hl by done.
    assert (forall l, Version.levels v !! i = Some l -> level_ok l) as Hold.
    { intros l' H. apply (v_levels _ Hok i); [|done]. by rewrite Hv2, push_l0_lookup. }
    rewrite (js_levels _ _ _ _ _ _ _ Hshape) in Hold.
    destruct (Nat.lt_ge_cases i (length pre)) as [Hlt|Hge].
    { apply Hold. rewrite lookup_app_l in * by done. done. }
    rewrite lookup_app_r in Hl by done.
    rewrite lookup_app_r in Hold by done.
    destruct (i - length pre)%nat as [|[|j]]; cbn in Hl, Hold; [| |by apply Hold].
    + injection Hl as <-. specialize (Hold _ eq_refl).
      intros t1 t2 H1 H2. apply Hold; set_solver.
    + injection Hl as <-. intros t1 t2 [->|H1]%Hnew [->|H2]%Hnew Hne; [done|by apply out_separated| |].
      * by apply separated_sym, out_separated.
      * apply list_elem_of_filter in H1 as [_ H1], H2 as [_ H2]. by apply y_level.
Qed.

End apply.

(** What a compaction needs of the version it was planned on and of the one it
    is installed in, to which flushes may have added tables meanwhile. *)
Record installs (v v2 : Version.t) (o : Options) (job : CompactionJob) (out : SsTable.t) : Prop := {
  in_levels : len (Version.levels v) = max_levels o;
  in_two : 2 <= max_levels o;
  in_job : pick_compaction v o = Some job;
  in_later : exists extra, Version.levels v2 = push_l0 extra (Version.levels v);
  in_ok : version_ok v2;
  in_merge : is_merge (drop_tombstones v o job) (runs_of (inputs job)) (run out);
  in_described : described out;
  in_fresh : SsTable.id out ∉ SsTable.id <$> concat (Version.levels v2);
}.

Lemma apply_compaction_sound v v2 o job out :
  installs v v2 o job out ->
  exists v3, apply_compaction v2 job out = Ok v3 /\ version_ok v3 /\
    len (Version.levels v3) = len (Version.levels v2) /\
    concat (Version.levels v3) ≡ₚ
      out :: base.filter (fun t => SsTable.id t ∉ SsTable.id <$> inputs job) (concat (Version.levels v2)) /\
    forall k, visible (view v3 k) = visible (view v2 k).
Proof.
  intros [Hmax H2 Hjob [extra Hv2] Hok Hm Hd Hf].
  destruct (pick_compaction_shape v o job Hmax H2 Hjob) as (pre & post & xin & xrest & y & Hs).
  eexists. split_and!.
  - by eapply apply_compaction_eq.
  - by eapply new_version_ok.
  - cbn [Version.levels]. rewrite Hv2, (js_levels _ _ _ _ _ _ _ Hs).
    destruct pre; cbn [app push_l0]; rewrite !len_cons, ?len_app, ?len_cons; done.
  - by eapply new_tables_perm.
  - intros k. by eapply new_version_view.
Qed.

End contents.

(** ** Changes of the contents *)

Lemma described_ext run run' t : run' t = run t -> described run t -> described run' t.
Proof. intros E []. split; by rewrite E. Qed.

Lemma version_ok_ext run run' v :
  (forall t, t ∈ concat (Version.levels v) -> run' t = run t) -> version_ok run v -> version_ok run' v.
Proof.
  intros E [Ht Hn Hl]. split; [|done|].
  - intros t Hin. eapply described_ext; [by apply E|by apply Ht].
  - intros i l Hi Hpos t1 t2 H1 H2 Hne.
    assert (forall t, t ∈ l -> t ∈ concat (Version.levels v)) as Hin.
    { intros t Htl. apply elem_of_concat. exists l. split; [done|]. by eapply list_elem_of_lookup_2. }
    rewrite !E by auto. by apply (Hl i l).
Qed.

(** A flush puts a table in front of level 0. *)
Lemma version_ok_push run t l0 rest :
  version_ok run (Version.mk (l0 :: rest)) -> described run t ->
  SsTable.id t ∉ SsTable.id <$> concat (l0 :: rest) ->
  version_ok run (Version.mk ((t :: l0) :: rest)).
Proof.
  intros [Ht Hn Hl] Hd Hf. split; cbn [Version.levels] in *.
  - intros u. cbn [concat app]. intros [->|Hu]%elem_of_cons; [done|]. by apply Ht.
  - cbn [concat app]. rewrite fmap_cons. by apply NoDup_cons.
  - intros [|i] l Hi Hpos; [lia|]. by apply (Hl (S i)).
Qed.

(** ** Properties *)

(** C5: installing a compaction keeps the version well formed and changes no value.
    A compaction that was planned on a version, merged its inputs newest first
    and dropped tombstones only when the tombstone test allowed it, can be
    installed in any later version that differs by tables flushed meanwhile:
    the levels below 0 stay free of overlaps, and every key shows the value it
    showed before, deletions included. *)
Theorem apply_compaction_preserves run v v2 o job out :
  installs run v v2 o job out ->
  exists v3, apply_compaction v2 job out = Ok v3 /\ version_ok run v3 /\
    len (Version.levels v3) = len (Version.levels v2) /\
    forall k, visible (view run v3 k) = visible (view run v2 k).
Proof.
  intros Hi. destruct (apply_compaction_sound run v v2 o job out Hi) as (v3 & ? & ? & ? & _ & ?).
  by exists v3.
Qed.

(** Two tables in level 0, one below, and a flush in between. *)
Definition sample_run (t : SsTable.t) : run :=
  if SsTable.id t =? 1 then [([x61], Value [x31])]
  else if SsTable.id t =? 2 then [([x61], Tombstone); ([x63], Value [x33])]
  else if SsTable.id t =? 3 then [([x62], Value [x32])]
  else if SsTable.id t =? 4 then [([x62], Value [x32]); ([x63], Value [x33])]
  else [([x61], Value [x35])].

Definition sample_table (id level : Z) : SsTable.t :=
  let t := SsTable.mk id "" [] (BloomFilter.mk [] 0) [] [] 100 level in
  SsTable.mk id "" [] (BloomFilter.mk [] 0) (default [] (fst <$> head (sample_run t)))
    (default [] (fst <$> last (sample_run t))) 100 level.

Definition sample_version (extra : list SsTable.t) : Version.t :=
  Version.mk [extra ++ [sample_table 2 0; sample_table 1 0]; [sample_table 3 1]; []; []].

Definition sample_job : CompactionJob :=
  mkJob [sample_table 2 0; sample_table 1 0; sample_table 3 1] 1.

Lemma sample_described id level : described sample_run (sample_table id level).
Proof.
  unfold sample_table. split; cbn [SsTable.smallest SsTable.largest]; unfold sample_run;
    cbn [SsTable.id]; repeat case_if; try reflexivity;
    repeat (constructor; try done).
Qed.

Lemma apply_compaction_preserves_witness :
  exists v3, apply_compaction (sample_version [sample_table 5 0]) sample_job (sample_table 4 1) = Ok v3 /\
    (forall k, visible (view sample_run v3 k) =
               visible (view sample_run (sample_version [sample_table 5 0]) k)) /\
    visible (view sample_run v3 [x61]) = Some [x35].
Proof.
  destruct (apply_compaction_preserves sample_run (sample_version [])
    (sample_version [sample_table 5 0]) for_test sample_job (sample_table 4 1)) as (v3 & Ha & _ & _ & Hv).
  - split.
    + reflexivity.
    + cbn. lia.
    + vm_compute. reflexivity.
    + exists [sample_table 5 0]. reflexivity.
    + split.
      * intros t Ht. cbn in Ht. repeat (apply elem_of_cons in Ht as [->|Ht]; [apply sample_described|]).
        by apply not_elem_of_nil in Ht.
      * cbn. repeat (constructor; [set_solver|]). constructor.
      * intros [|[|[|[|i]]]] l Hl Hi; cbn in Hl; try lia; try done; injection Hl as <-;
          intros t1 t2 H1 H2 Hne; [|set_solver..].
        apply list_elem_of_singleton in H1 as ->, H2 as ->. done.
    + split; [repeat (constructor; try done)|]. intros k. unfold newest, runs_of. cbn.
      repeat case_decide; simplify_eq; reflexivity.
    + apply sample_described.
    + cbn. set_solver.
  - exists v3. split; [exact Ha|]. split; [exact Hv|]. rewrite Hv. reflexivity.
Defined.
