(* ===== verification/Engine.v ===== *)
(** * The engine ([src/engine.rs])

    [SharedState] and [Engine.t] are the two structs, without the path: a
    database is one directory.  A method works on the engine and the world; the
    part that the background thread shares works on [SharedState] and the world.
    [compact_once] is split where other threads can interleave with it:
    [compact_begin] plans a compaction on a snapshot and writes its output,
    [compact_finish] installs it.  The number of references to a table
    ([Arc::strong_count]) is counted over the variables that hold one. *)

From S2P Require Import Prelude Bytes Errors Collections Records World Wal Memtable.
From S2P Require Import Bloom Cache Names SsTables Manifests Compaction Versions.

Record SharedState := mkShared {
  s_options : Options;
  s_version : Version.t;
  s_manifest : Manifest.t;
  s_cache : BlockCache.t;
  s_last_error : option string;
  s_bloom_skips : Z;
  s_sstable_reads : Z;
}.

(** The state of the shared part: the struct and the file system. *)
Abbreviation SW := (SharedState * World)%type.

Definition set_version (v : Version.t) (s : SharedState) : SharedState :=
  mkShared (s_options s) v (s_manifest s) (s_cache s) (s_last_error s) (s_bloom_skips s)
    (s_sstable_reads s).
Definition set_manifest (m : Manifest.t) (s : SharedState) : SharedState :=
  mkShared (s_options s) (s_version s) m (s_cache s) (s_last_error s) (s_bloom_skips s)
    (s_sstable_reads s).
Definition set_cache (c : BlockCache.t) (s : SharedState) : SharedState :=
  mkShared (s_options s) (s_version s) (s_manifest s) c (s_last_error s) (s_bloom_skips s)
    (s_sstable_reads s).
Definition set_last_error (l : option string) (s : SharedState) : SharedState :=
  mkShared (s_options s) (s_version s) (s_manifest s) (s_cache s) l (s_bloom_skips s)
    (s_sstable_reads s).
(** [fetch_add(1)] on an [AtomicU64]. *)
Definition count_skip (s : SharedState) : SharedState :=
  mkShared (s_options s) (s_version s) (s_manifest s) (s_cache s) (s_last_error s)
    (wrap64 (s_bloom_skips s + 1)) (s_sstable_reads s).
Definition count_read (s : SharedState) : SharedState :=
  mkShared (s_options s) (s_version s) (s_manifest s) (s_cache s) (s_last_error s)
    (s_bloom_skips s) (wrap64 (s_sstable_reads s + 1)).

Definition shared_self : M SW SharedState := fun sw => (Ok (fst sw), sw).
Definition shared_modify (f : SharedState -> SharedState) : M SW unit :=
  mmodify (fun sw => (f (fst sw), snd sw)).
Definition on_files {A} (m : M World A) : M SW A := mzoom snd (fun w sw => (fst sw, w)) m.

(** [manifest.lock()] and [cache.lock()]: the call has the field to itself. *)
Definition with_manifest {A} (m : M (Manifest.t * World) A) : M SW A :=
  mzoom (fun sw => (s_manifest (fst sw), snd sw))
        (fun mw sw => (set_manifest (fst mw) (fst sw), snd mw)) m.
Definition with_cache {A} (m : M (BlockCache.t * World) A) : M SW A :=
  mzoom (fun sw => (s_cache (fst sw), snd sw))
        (fun cw sw => (set_cache (fst cw) (fst sw), snd cw)) m.

(** ** Compaction *)

(** What the plan of a compaction keeps until it is installed. *)
Record Pending := mkPending {
  p_version : Version.t;
  p_job : CompactionJob;
  p_output : SsTable.t;
}.

(** References to the table [t] among the tables of a list. *)
Definition references (t : SsTable.t) (l : list SsTable.t) : Z :=
  len (base.filter (fun u => SsTable.id u = SsTable.id t) l).

(** The loop over [job.inputs], which gives up one reference per iteration. *)
Fixpoint remove_inputs (version : Version.t) (tables : list SsTable.t) : M SW unit :=
  match tables with
  | [] => mret tt
  | table :: tables' =>
      let! s := shared_self in
      let strong_count := references table tables + references table (concat (Version.levels version))
        + references table (concat (Version.levels (s_version s))) in
      let! _ := (if strong_count =? 1 then on_files (mignore (remove_file (SsTable.path table)))
                 else mret tt) in
      remove_inputs version tables'
  end.

(** From the snapshot of the version to the output table. *)
Definition compact_begin `{Libm} : M SW (option Pending) :=
  let! s := shared_self in
  let options := s_options s in
  let version := s_version s in
  match pick_compaction version options with
  | None => mret None
  | Some job =>
      let! output_id := with_manifest Manifest.next_table_id in
      let output_path := table_file_name output_id in
      let! output := on_files (compact (inputs job) output_path output_id
        (bloom_false_positive_rate options) (block_size options)
        (drop_tombstones version options job)) in
      mret (Some (mkPending version job (SsTable.set_level (output_level job) output)))
  end.

(** The manifest, the version, and the source files. *)
Definition compact_finish (p : Pending) : M SW unit :=
  let job := p_job p in
  let remove_ids := SsTable.id <$> inputs job in
  let! _ := with_manifest (
    let! _ := Manifest.add_table (SsTable.id (p_output p)) (wrap32 (output_level job)) in
    Manifest.remove_tables remove_ids) in
  let! s := shared_self in
  let! version := mlift (apply_compaction (s_version s) job (p_output p)) in
  let! _ := shared_modify (set_version version) in
  remove_inputs (p_version p) (inputs job).

Definition compact_once `{Libm} : M SW unit :=
  let! p := compact_begin in
  match p with
  | None => mret tt
  | Some p => compact_finish p
  end.

(** ** Lookups in the tables *)

Fixpoint search_tables (key : bytes) (tables : list SsTable.t) : M SW (option bytes) :=
  match tables with
  | [] => mret None
  | table :: tables' =>
      if negb (SsTable.contains_range table key) then search_tables key tables'
      else
      let! might := mlift (SsTable.bloom_might_contain table key) in
      if negb might then
        let! _ := shared_modify count_skip in search_tables key tables'
      else
      let! _ := shared_modify count_read in
      let! found := with_cache (SsTable.get table key true) in
      match found with
      | Some (Value value) => mret (Some value)
      | Some Tombstone => mret None
      | None => search_tables key tables'
      end
  end.

Definition get_from_tables (key : bytes) : M SW (option bytes) :=
  let! s := shared_self in search_tables key (Version.tables_newest_first (s_version s)).

Inductive Lookup := LookupValue (value : bytes) | LookupTombstone | LookupMiss.

Definition lookup_memtable (table : MemTable.t) (key : bytes) : Lookup :=
  match MemTable.get table key with
  | Some (Value value) => LookupValue value
  | Some Tombstone => LookupTombstone
  | None => LookupMiss
  end.

Definition apply (memtable : MemTable.t) (operation : Operation) : MemTable.t :=
  match operation with
  | Put key value => MemTable.put memtable key value
  | Delete key => MemTable.delete memtable key
  end.

(** ** Opening *)

(** [version.levels[level].push(..)]. *)
Definition push_level (version : Version.t) (level : Z) (table : SsTable.t) : result Version.t :=
  let i := Z.to_nat level in
  let? l := or_panic (Version.levels version !! i) in
  Ok (Version.mk (<[i := l ++ [table]]> (Version.levels version))).

Fixpoint load_tables (options : Options) (tables : list (Z * Z)) (version : Version.t)
    : M World Version.t :=
  match tables with
  | [] => mret version
  | (id, level) :: tables' =>
      let table_path := table_file_name id in
      let! exists_ := path_exists table_path in
      if negb exists_ then merr InvalidManifest
      else
      let! table := SsTable.open table_path id in
      let table := SsTable.set_level level table in
      let level := Z.min level (Z.max 0 (max_levels options - 1)) in
      let! version := mlift (push_level version level table) in
      load_tables options tables' version
  end.

(** Newest first in level 0, by smallest key below. *)
Definition arrange (version : Version.t) : Version.t :=
  Version.mk match Version.levels version with
  | [] => []
  | l0 :: rest => reverse l0 :: (smallest_sort <$> rest)
  end.

Module Engine.

Record t := mk {
  options : Options;
  wal : Wal.t;
  memtable : MemTable.t;
  immutable : option MemTable.t;
  shared : SharedState;
  worker : CompactionWorker.t;
}.

Abbreviation EW := (t * World)%type.

Definition set_memtable (m : MemTable.t) (e : t) : t :=
  mk (options e) (wal e) m (immutable e) (shared e) (worker e).
Definition set_immutable (m : option MemTable.t) (e : t) : t :=
  mk (options e) (wal e) (memtable e) m (shared e) (worker e).
Definition set_shared (s : SharedState) (e : t) : t :=
  mk (options e) (wal e) (memtable e) (immutable e) s (worker e).
Definition set_worker (c : CompactionWorker.t) (e : t) : t :=
  mk (options e) (wal e) (memtable e) (immutable e) (shared e) c.

Definition self : M EW t := fun ew => (Ok (fst ew), ew).
Definition modify (f : t -> t) : M EW unit := mmodify (fun ew => (f (fst ew), snd ew)).
Definition on_disk {A} (m : M World A) : M EW A := mzoom snd (fun w ew => (fst ew, w)) m.
Definition on_shared {A} (m : M SW A) : M EW A :=
  mzoom (fun ew => (shared (fst ew), snd ew)) (fun sw ew => (set_shared (fst sw) (fst ew), snd sw)) m.

Definition open_with (options : Options) : M World t :=
  let! _ := create_dir_all in
  let! manifest := Manifest.open in
  let! version := load_tables options (Manifest.active_tables manifest)
    (Version.with_max_levels (max_levels options)) in
  let version := arrange version in
  let! wal := Wal.open WAL_FILE_NAME in
  let! iter := Wal.iter wal in
  let! operations := mlift (WalIterator.collect iter) in
  let memtable := fold_left apply operations MemTable.new in
  mret (mk options wal memtable None
    (mkShared options version manifest (BlockCache.new (cache_size_bytes options)) None 0 0)
    CompactionWorker.start).

Definition open : M World t := open_with default_options.

Definition validate_key (key : bytes) : result unit :=
  if len key =? 0 then Err EmptyKey
  else if MAX_KEY_SIZE <? len key then Err KeyTooLarge
  else Ok tt.

Definition validate_value (value : bytes) : result unit :=
  if MAX_VALUE_SIZE <? len value then Err ValueTooLarge else Ok tt.

(** The copy of the frozen table that serves reads during the flush. *)
Definition rebuild (snapshot : list (bytes * Entry)) : MemTable.t :=
  fold_left (fun imm '(k, e) =>
    match e with
    | Value v => MemTable.put imm k v
    | Tombstone => MemTable.delete imm k
    end) snapshot MemTable.new.

(** [version.levels[0].insert(0, table)]. *)
Definition insert_l0 (table : SsTable.t) (version : Version.t) : result Version.t :=
  match Version.levels version with
  | [] => Panic
  | l0 :: rest => Ok (Version.mk ((table :: l0) :: rest))
  end.

Definition flush_memtable `{Libm} : M EW unit :=
  let! e := self in
  if MemTable.is_empty (memtable e) then on_disk (Wal.sync (wal e))
  else
  let frozen := memtable e in
  let! _ := modify (set_memtable MemTable.new) in
  let! _ := modify (set_immutable (Some MemTable.new)) in
  let snapshot := MemTable.iter frozen in
  let! _ := modify (set_immutable (Some (rebuild snapshot))) in
  let! id := on_shared (with_manifest Manifest.next_table_id) in
  let table_path := table_file_name id in
  let! table := on_disk (SsTable.create table_path id snapshot
    (bloom_false_positive_rate (options e)) (block_size (options e))) in
  let! _ := on_shared (with_manifest (Manifest.add_table id 0)) in
  let! _ := on_shared (
    let! s := shared_self in
    let! version := mlift (insert_l0 table (s_version s)) in
    shared_modify (set_version version)) in
  let! _ := on_disk (Wal.truncate (wal e)) in
  modify (set_immutable None).

(** The result of [request_compaction] is ignored. *)
Definition maybe_request_compaction : M EW unit :=
  modify (fun e =>
    let l0_len := default 0 (len <$> head (Version.levels (s_version (shared e)))) in
    if l0_compaction_trigger (options e) <=? l0_len then
      match CompactionWorker.request_compaction (worker e) with
      | Ok worker => set_worker worker e
      | _ => e
      end
    else e).

Definition flush `{Libm} : M EW unit :=
  let! _ := flush_memtable in maybe_request_compaction.

Definition write `{Libm} (operation : Operation) : M EW unit :=
  let! e := self in
  let! _ := on_disk (Wal.append (wal e) operation) in
  let! _ := on_disk (Wal.sync (wal e)) in
  let! _ := modify (fun e => set_memtable (apply (memtable e) operation) e) in
  let! e := self in
  if memtable_size_bytes (options e) <=? MemTable.approximate_size (memtable e)
  then flush
  else mret tt.

Definition put `{Libm} (key value : bytes) : M EW unit :=
  let! _ := mlift (validate_key key) in
  let! _ := mlift (validate_value value) in
  write (Put key value).

Definition delete `{Libm} (key : bytes) : M EW unit :=
  let! _ := mlift (validate_key key) in
  write (Delete key).

Definition get (key : bytes) : M EW (option bytes) :=
  let! _ := mlift (validate_key key) in
  let! e := self in
  match lookup_memtable (memtable e) key with
  | LookupValue value => mret (Some value)
  | LookupTombstone => mret None
  | LookupMiss =>
      match immutable e with
      | Some imm =>
          match lookup_memtable imm key with
          | LookupValue value => mret (Some value)
          | LookupTombstone => mret None
          | LookupMiss => on_shared (get_from_tables key)
          end
      | None => on_shared (get_from_tables key)
      end
  end.

Definition compact `{Libm} : M EW unit := on_shared compact_once.

(** One message of the worker's channel, as its loop handles it. *)
Definition worker_step `{Libm} : M EW unit := fun ew =>
  let '(e, w) := ew in
  match CompactionWorker.running (worker e), CompactionWorker.sent (worker e) with
  | true, Compact :: messages =>
      let e := set_worker (CompactionWorker.mk messages true) e in
      match worker_loop compact_once [Compact] (s_last_error (shared e)) (shared e, w) with
      | (Ok slot, (s, w)) => (Ok tt, (set_shared (set_last_error slot s) e, w))
      | (Err err, (s, w)) => (Err err, (set_shared s e, w))
      | (Panic, (s, w)) => (Panic, (set_shared s e, w))
      end
  | _, _ => (Ok tt, ew)
  end.

(** [self.worker.shutdown()]: the worker handles what is left in its channel. *)
Definition shutdown `{Libm} : M EW unit := fun ew =>
  let '(e, w) := ew in
  match CompactionWorker.shutdown compact_once (s_last_error (shared e)) (worker e) (shared e, w) with
  | (Ok (worker, slot), (s, w)) =>
      (Ok tt, (set_worker worker (set_shared (set_last_error slot s) e), w))
  | (Err err, (s, w)) => (Err err, (set_worker CompactionWorker.stopped (set_shared s e), w))
  | (Panic, (s, w)) => (Panic, (set_shared s e, w))
  end.

Definition close `{Libm} : M EW unit :=
  let! _ := shutdown in
  let! e := self in
  on_disk (Wal.sync (wal e)).

Definition drop `{Libm} : M EW unit := mignore shutdown.

(** Going out of scope: [drop], and then the fields, the worker among them. *)
Definition end_of_scope `{Libm} : M EW unit :=
  let! _ := drop in
  fun ew =>
  let '(e, w) := ew in
  match CompactionWorker.drop compact_once (s_last_error (shared e)) (worker e) (shared e, w) with
  | (Ok (worker, slot), (s, w)) =>
      (Ok tt, (set_worker worker (set_shared (set_last_error slot s) e), w))
  | (Err err, (s, w)) => (Err err, (set_shared s e, w))
  | (Panic, (s, w)) => (Panic, (set_shared s e, w))
  end.

Definition bloom_skips (e : t) : Z := s_bloom_skips (shared e).
Definition sstable_reads (e : t) : Z := s_sstable_reads (shared e).
Definition compaction_error (e : t) : option string := s_last_error (shared e).

End Engine.
