(* ===== verification/EngineInv.v ===== *)
(** * The state of an engine: invariants and lookups

    [stored] ties a table handle to its file and to the registry of blocks,
    [readable] says that an engine answers lookups as the map [db], and
    [engine_ok] is the full invariant: the version matches the manifest on
    disk, the log on disk replays to the memtable, and a compaction that was
    planned but not installed still fits the version. *)

From S2P Require Import Prelude Bytes Errors Collections Records World Wal Memtable.
From S2P Require Import Bloom Cache Format Names SsTables TableWrite TableRead Manifests Merge.
From S2P Require Import Compaction Versions Engine.

(** ** Rules for the parts of the state *)

Lemma wp_zoom {S T A} (get : S -> T) (set : T -> S -> S) (m : M T A) (Q : A -> S -> Prop) E s :
  wp m (fun a t => Q a (set t s)) (fun e t => E e (set t s)) (get s) -> wp (mzoom get set m) Q E s.
Proof. unfold wp, mzoom. by destruct (m (get s)) as [[] ?]. Qed.

Section zoom_rules.
Implicit Types (s : SharedState) (e : Engine.t) (w : World).

Lemma wp_on_files {A} (m : M World A) (Q : A -> SW -> Prop) E s w :
  wp m (fun a w' => Q a (s, w')) (fun x w' => E x (s, w')) w -> wp (on_files m) Q E (s, w).
Proof. exact (wp_zoom _ _ m Q E _). Qed.

Lemma wp_with_manifest {A} (m : M (Manifest.t * World) A) (Q : A -> SW -> Prop) E s w :
  wp m (fun a mw => Q a (set_manifest (fst mw) s, snd mw))
    (fun x mw => E x (set_manifest (fst mw) s, snd mw)) (s_manifest s, w) ->
  wp (with_manifest m) Q E (s, w).
Proof. exact (wp_zoom _ _ m Q E _). Qed.

Lemma wp_with_cache {A} (m : M (BlockCache.t * World) A) (Q : A -> SW -> Prop) E s w :
  wp m (fun a cw => Q a (set_cache (fst cw) s, snd cw))
    (fun x cw => E x (set_cache (fst cw) s, snd cw)) (s_cache s, w) ->
  wp (with_cache m) Q E (s, w).
Proof. exact (wp_zoom _ _ m Q E _). Qed.

Lemma wp_shared_self (Q : SharedState -> SW -> Prop) E s w : Q s (s, w) -> wp shared_self Q E (s, w).
Proof. done. Qed.

Lemma wp_shared_modify f (Q : unit -> SW -> Prop) E s w :
  Q tt (f s, w) -> wp (shared_modify f) Q E (s, w).
Proof. done. Qed.

Lemma wp_eng_disk {A} (m : M World A) (Q : A -> Engine.EW -> Prop) E e w :
  wp m (fun a w' => Q a (e, w')) (fun x w' => E x (e, w')) w -> wp (Engine.on_disk m) Q E (e, w).
Proof. exact (wp_zoom _ _ m Q E _). Qed.

Lemma wp_eng_shared {A} (m : M SW A) (Q : A -> Engine.EW -> Prop) E e w :
  wp m (fun a sw => Q a (Engine.set_shared (fst sw) e, snd sw))
    (fun x sw => E x (Engine.set_shared (fst sw) e, snd sw)) (Engine.shared e, w) ->
  wp (Engine.on_shared m) Q E (e, w).
Proof. exact (wp_zoom _ _ m Q E _). Qed.

Lemma wp_eng_self (Q : Engine.t -> Engine.EW -> Prop) E e w : Q e (e, w) -> wp Engine.self Q E (e, w).
Proof. done. Qed.

Lemma wp_eng_modify f (Q : unit -> Engine.EW -> Prop) E e w :
  Q tt (f e, w) -> wp (Engine.modify f) Q E (e, w).
Proof. done. Qed.

End zoom_rules.

(** ** Tables on disk *)

(** The entries of a table, by its id. *)
Definition id_run (reg : registry) (id : Z) : run := from_option (fun bs => concat bs) [] (reg !! id).
Definition table_run (reg : registry) (t : SsTable.t) : run := id_run reg (SsTable.id t).

Record stored (reg : registry) (w : World) (t : SsTable.t) : Prop := {
  st_id : 0 <= SsTable.id t;
  st_path : SsTable.path t = table_file_name (SsTable.id t);
  st_blocks : exists bs, reg !! SsTable.id t = Some bs /\ table_ok w t bs;
  st_keys : Forall (fun x => fst x <> []) (table_run reg t);
}.

Lemma table_run_eq reg t bs : reg !! SsTable.id t = Some bs -> table_run reg t = concat bs.
Proof. unfold table_run, id_run. by intros ->. Qed.

Lemma stored_described reg w t : stored reg w t -> described (table_run reg) t.
Proof.
  intros [_ _ (bs & Hr & Ht) Hk]. rewrite (table_run_eq _ _ _ Hr) in Hk.
  destruct (table_ok_range _ _ _ Ht) as [Hs Hl].
  split; rewrite (table_run_eq _ _ _ Hr); [apply Ht|done|done|done].
Qed.

Lemma id_run_mono reg reg' id : reg ⊆ reg' -> is_Some (reg !! id) -> id_run reg' id = id_run reg id.
Proof. intros Hs [bs Hb]. unfold id_run. by rewrite Hb, (lookup_weaken _ _ _ _ Hb Hs). Qed.

Lemma table_run_mono reg reg' w t : reg ⊆ reg' -> stored reg w t -> table_run reg' t = table_run reg t.
Proof. intros Hs [_ _ (bs & Hb & _) _]. apply id_run_mono; [done|by eauto]. Qed.

(** A table is stored as long as its own file stays. *)
Lemma stored_mono reg reg' w w' t :
  stored reg w t -> reg ⊆ reg' ->
  w_files w' !! table_file_name (SsTable.id t) = w_files w !! table_file_name (SsTable.id t) ->
  stored reg' w' t.
Proof.
  intros Ht Hs Hf. pose proof (table_run_mono _ _ _ _ Hs Ht) as Hr.
  destruct Ht as [Hi Hp (bs & Hb & [Hwf Hh Hfile]) Hk].
  split; [done|done| |by rewrite Hr]. exists bs. split; [by eapply lookup_weaken|].
  split; [done|done|]. by rewrite Hp, Hf, <- Hp.
Qed.

Lemma stored_files reg w w' t : w_files w' = w_files w -> stored reg w t -> stored reg w' t.
Proof. intros Hw Ht. eapply stored_mono; [done|done|by rewrite Hw]. Qed.

(** The file of a stored table survives a crash. *)
Lemma stored_crash reg w w2 t : stored reg w t -> crashed w w2 -> stored reg w2 t.
Proof.
  intros Ht Hc. pose proof Ht as [_ Hp (bs & _ & [_ _ Hf]) _]. rewrite Hp in Hf.
  eapply stored_mono; [done|done|]. by rewrite (crashed_synced _ _ _ _ Hc Hf).
Qed.

(** Handles with the same id and the same file have the same entries. *)
Lemma runs_of_ids reg l : runs_of (table_run reg) l = id_run reg <$> (SsTable.id <$> l).
Proof. unfold runs_of. by rewrite <- list_fmap_compose. Qed.

Lemma runs_of_ext run run' l :
  (forall t, t ∈ l -> run' t = run t) -> runs_of run' l = runs_of run l.
Proof. intros H. apply list_fmap_ext. intros i t Ht. by apply H, list_elem_of_lookup_2 with i. Qed.

(** ** Lookups *)

(** What a read may change: the cache and the counters. *)
Definition reads_only (s s' : SharedState) : Prop :=
  s_options s' = s_options s /\ s_version s' = s_version s /\ s_manifest s' = s_manifest s /\
  s_last_error s' = s_last_error s.

Lemma reads_only_refl s : reads_only s s.
Proof. done. Qed.

Lemma reads_only_trans s1 s2 s3 : reads_only s1 s2 -> reads_only s2 s3 -> reads_only s1 s3.
Proof. unfold reads_only. intuition congruence. Qed.

Section lookup.
Context (reg : registry) (w : World) (key : bytes).
Hypothesis Hkey : key <> [].

Lemma wp_search_tables ts (Q : option bytes -> SW -> Prop) E s w1 :
  Forall (stored reg w) ts -> coherent reg (s_cache s) -> w_files w1 = w_files w ->
  (forall s' w', reads_only s s' -> coherent reg (s_cache s') -> w_files w' = w_files w ->
     (quiet w1 -> quiet w') ->
     Q (visible (newest (runs_of (table_run reg) ts) key)) (s', w')) ->
  (forall e s' w', reads_only s s' -> coherent reg (s_cache s') -> w_files w' = w_files w ->
     ~ quiet w1 -> E e (s', w')) ->
  wp (search_tables key ts) Q E (s, w1).
Proof using Hkey.
  intros Hts. revert Q s w1. induction Hts as [|t ts Ht Hts IH]; intros Q s w1 Hc Hw1 HQ HE;
    cbn [search_tables].
  { apply wp_ret. by apply HQ. }
  pose proof Ht as [_ _ (bs & Hr & Hok) _]. pose proof (tok_wf _ _ _ Hok) as Hwf.
  assert (forall o, o = alookup (table_run reg t) key ->
    newest (runs_of (table_run reg) (t :: ts)) key =
    match o with Some x => Some x | None => newest (runs_of (table_run reg) ts) key end) as Hn.
  { by intros o ->. }
  rewrite (table_run_eq _ _ _ Hr) in Hn.
  assert (alookup (concat bs) key = None -> forall s1, reads_only s s1 -> coherent reg (s_cache s1) ->
    forall w2, w_files w2 = w_files w -> (quiet w1 -> quiet w2) ->
    wp (search_tables key ts) Q E (s1, w2)) as Hskip.
  { intros Hnone s1 Hs1 Hc1 w2 Hw2 Hq2. apply IH; [done|done| |].
    - intros s2 w3 Hs2 Hc2 Hw3 Hq3. rewrite <- (Hn None) by done.
      apply HQ; [by eapply reads_only_trans|done|done|tauto].
    - intros x s2 w3 Hs2 Hc2 Hw3 Hq3. apply HE; [by eapply reads_only_trans|done|done|tauto]. }
  destruct (SsTable.contains_range t key) eqn:Er; cbn [negb].
  2: { apply Hskip; try done. by eapply contains_range_complete. }
  destruct (might_contain_spec (SsTable.bloom t) key) as (r & Er' & Hr'); [apply Hwf|].
  unfold SsTable.bloom_might_contain. rewrite Er'. apply wp_bind, wp_ret. destruct r; cbn [negb].
  2: { apply wp_bind, wp_shared_modify. apply Hskip; try done. apply alookup_None.
       intros Hin%(tw_keys _ _ Hwf). by apply Hr' in Hin. }
  apply wp_bind, wp_shared_modify, wp_bind, wp_with_cache.
  eapply (wp_get reg w t bs Hok Hr); [done|done|done| |by intros; apply HE].
  intros c' w' Hc' Hw' Hq'. cbn [fst snd].
  destruct (alookup (concat bs) key) as [[v|]|] eqn:Ea.
  - apply wp_ret. specialize (HQ (set_cache c' (count_read s)) w').
    rewrite (Hn (Some (Value v))) in HQ by done. by apply HQ.
  - apply wp_ret. specialize (HQ (set_cache c' (count_read s)) w').
    rewrite (Hn (Some Tombstone)) in HQ by done. by apply HQ.
  - by apply Hskip.
Qed.

End lookup.

(** ** The memtable of a log *)

Definition op_entry (op : Operation) : Entry :=
  match op with Put _ value => Value value | Delete _ => Tombstone end.

(** What an operation does to the map a user sees. *)
Definition op_spec (op : Operation) (db : gmap bytes bytes) : gmap bytes bytes :=
  match op with Put key value => <[key := value]> db | Delete key => delete key db end.

Lemma apply_insert m op : apply m op = MemTable.insert m (op_key op) (op_entry op).
Proof. by destruct op. Qed.

Definition replay_mem (ops : list Operation) : MemTable.t := fold_left apply ops MemTable.new.

Lemma replay_mem_snoc ops op : replay_mem (ops ++ [op]) = apply (replay_mem ops) op.
Proof. unfold replay_mem. by rewrite fold_left_app. Qed.

(** An operation that [Engine] lets through. *)
Definition op_valid (op : Operation) : Prop := op_fits op /\ op_key op <> [].

(** What the entries of a memtable satisfy. *)
Record mem_ok (m : MemTable.t) : Prop := {
  mo_wf : MemTable.wf m;
  mo_entries : Forall entry_ok (MemTable.entries m);
  mo_keys : Forall (fun x => fst x <> []) (MemTable.entries m);
}.

Lemma insert_len (m : run) k e : len (BTreeMap.insert m k e) <= 1 + len m.
Proof.
  induction m as [|[k0 e0] m IH]; cbn; [done|]. destruct (bytes_cmp k k0); len_lia.
Qed.

Lemma apply_ok m op : mem_ok m -> op_valid op -> mem_ok (apply m op).
Proof.
  intros [Hwf Hent Hk] [[Hf1 Hf2] Hne]. rewrite apply_insert.
  assert (forall P : bytes * Entry -> Prop, P (op_key op, op_entry op) -> Forall P (MemTable.entries m) ->
    Forall P (MemTable.entries (MemTable.insert m (op_key op) (op_entry op)))) as HP.
  { intros P H1 H2. apply Forall_forall. intros x [->|Hx]%BTreeMap.insert_elem; [done|].
    by apply (proj1 (Forall_forall _ _) H2). }
  split; [by apply MemTable.insert_wf|apply HP; [|done]|by apply HP].
  split; [done|]. unfold MAX_VALUE_SIZE in *. destruct op; simpl in *; lia.
Qed.

Lemma replay_ok ops : Forall op_valid ops -> mem_ok (replay_mem ops).
Proof.
  induction ops as [|op ops IH] using rev_ind; intros Hv.
  { split; [apply MemTable.new_wf|constructor|constructor]. }
  apply Forall_app in Hv as [Hv Hop]. rewrite replay_mem_snoc.
  apply apply_ok; [auto|by apply Forall_inv in Hop].
Qed.

Lemma apply_len m op : len (MemTable.entries (apply m op)) <= 1 + len (MemTable.entries m).
Proof. rewrite apply_insert. apply insert_len. Qed.

(** Applying an operation on top of any layers. *)
Lemma apply_visible m op runs k :
  mem_ok m ->
  visible (newest (MemTable.entries (apply m op) :: runs) k) =
  if decide (k = op_key op) then visible (Some (op_entry op))
  else visible (newest (MemTable.entries m :: runs) k).
Proof.
  intros [Hwf _ _]. unfold newest. cbn [first_some]. rewrite apply_insert.
  change (alookup (MemTable.entries ?m) k) with (MemTable.get m k).
  rewrite MemTable.get_after_insert by done. by case_decide.
Qed.

Lemma op_spec_lookup op db k :
  op_spec op db !! k = if decide (k = op_key op) then visible (Some (op_entry op)) else db !! k.
Proof.
  destruct op as [key value|key]; simpl; rewrite ?lookup_insert, ?lookup_delete;
    repeat case_decide; congruence.
Qed.

(** The copy made by a flush holds the same entries. *)
Lemma rebuild_get l m k :
  MemTable.wf m -> NoDup (l.*1) ->
  let m' := fold_left (fun imm '(k, e) => MemTable.insert imm k e) l m in
  MemTable.wf m' /\
  MemTable.get m' k = match alookup l k with Some e => Some e | None => MemTable.get m k end.
Proof.
  revert m. induction l as [|[k0 e0] l IH]; intros m Hwf Hn; [done|].
  apply NoDup_cons in Hn as [Hk0 Hn]. cbn [fold_left].
  destruct (IH (MemTable.insert m k0 e0)) as [H1 H2]; [by apply MemTable.insert_wf|done|].
  split; [done|]. rewrite H2. cbn [alookup]. rewrite MemTable.get_after_insert by done.
  case_decide as Ek; [|done]. subst k0. by rewrite (proj2 (alookup_None l k) Hk0).
Qed.

Lemma rebuild_entries l : ksorted l -> MemTable.entries (Engine.rebuild l) = l.
Proof.
  intros Hs. assert (Engine.rebuild l = fold_left (fun imm '(k, e) => MemTable.insert imm k e) l MemTable.new)
    as ->.
  { unfold Engine.rebuild. generalize MemTable.new. clear Hs.
    induction l as [|[k [v|]] l IH]; intros m; cbn [fold_left]; [done|apply IH|apply IH]. }
  pose proof (ksorted_keys_nodup l Hs) as Hn.
  apply ksorted_ext; [by apply (rebuild_get l MemTable.new [] MemTable.new_wf Hn)|done|].
  intros k. destruct (rebuild_get l MemTable.new k MemTable.new_wf Hn) as [_ H].
  etrans; [exact H|]. by destruct (alookup l k).
Qed.

(** ** What an engine shows *)

(** Every run of entries, newest first. *)
Definition layers (reg : registry) (e : Engine.t) : list run :=
  MemTable.entries (Engine.memtable e) ::
  match Engine.immutable e with Some imm => [MemTable.entries imm] | None => [] end ++
  runs_of (table_run reg) (concat (Version.levels (s_version (Engine.shared e)))).

Record readable (reg : registry) (e : Engine.t) (w : World) (db : gmap bytes bytes) : Prop := {
  rd_tables : Forall (stored reg w) (concat (Version.levels (s_version (Engine.shared e))));
  rd_cache : coherent reg (s_cache (Engine.shared e));
  rd_db : forall k, db !! k = visible (newest (layers reg e) k);
}.

(** The engine after a read. *)
Definition read_from (e e' : Engine.t) : Prop :=
  exists s', reads_only (Engine.shared e) s' /\ e' = Engine.set_shared s' e.

Lemma read_from_refl e : read_from e e.
Proof. exists (Engine.shared e). split; [apply reads_only_refl|by destruct e]. Qed.

Lemma readable_read reg e w w' db s' :
  readable reg e w db -> reads_only (Engine.shared e) s' -> coherent reg (s_cache s') ->
  w_files w' = w_files w -> readable reg (Engine.set_shared s' e) w' db.
Proof.
  intros [Ht Hc Hdb] Hs Hc' Hw. destruct Hs as (_ & Hv & _). split; cbn [Engine.set_shared Engine.shared].
  - rewrite Hv. eapply Forall_impl; [exact Ht|]. intros t. by apply stored_files.
  - done.
  - intros k. rewrite Hdb. unfold layers. cbn [Engine.set_shared Engine.shared Engine.memtable
      Engine.immutable]. by rewrite Hv.
Qed.

Lemma wp_validate_key {S A} key (k : M S A) (Q : A -> S -> Prop) E s :
  (forall e, Engine.validate_key key = Err e -> E e s) ->
  (key <> [] -> len key <= MAX_KEY_SIZE -> wp k Q E s) ->
  wp (let! _ := mlift (Engine.validate_key key) in k) Q E s.
Proof.
  intros HE HQ. apply wp_bind. unfold wp at 1, mlift. revert HE. unfold Engine.validate_key.
  case_if; [intros HE; by apply HE|]. case_if; intros HE; [by apply HE|].
  apply HQ; [by intros ->|lia].
Qed.

(** A lookup answers as the map, and changes nothing but the cache and the
    counters. *)
Lemma wp_engine_get reg db key (Q : option bytes -> Engine.EW -> Prop) E e w :
  readable reg e w db ->
  (forall x, Engine.validate_key key = Err x -> E x (e, w)) ->
  (forall e' w', read_from e e' -> readable reg e' w' db -> w_files w' = w_files w ->
     (quiet w -> quiet w') -> Q (db !! key) (e', w')) ->
  (forall x e' w', read_from e e' -> readable reg e' w' db -> w_files w' = w_files w ->
     ~ quiet w -> E x (e', w')) ->
  wp (Engine.get key) Q E (e, w).
Proof.
  intros Hrd Hval HQ HE. unfold Engine.get. apply wp_validate_key; [done|]. intros Hne _.
  apply wp_bind, wp_eng_self. pose proof (rd_db _ _ _ _ Hrd key) as Hdb.
  assert (db !! key = visible (newest (runs_of (table_run reg)
      (concat (Version.levels (s_version (Engine.shared e))))) key) ->
    wp (Engine.on_shared (get_from_tables key)) Q E (e, w)) as Htab.
  { intros Hd. apply wp_eng_shared. unfold get_from_tables. apply wp_bind, wp_shared_self.
    rewrite tables_newest_first_concat.
    eapply (wp_search_tables reg w key Hne); [apply Hrd|apply Hrd|done| |].
    - intros s' w' Hs Hc Hw Hq. cbn [fst snd]. rewrite <- Hd.
      apply HQ; [by eexists|by apply (readable_read _ _ w)|done|done].
    - intros x s' w' Hs Hc Hw Hq. cbn [fst snd].
      apply HE; [by eexists|by apply (readable_read _ _ w)|done|done]. }
  assert (forall o, db !! key = o -> wp (mret o) Q E (e, w)) as Hret.
  { intros o <-. apply wp_ret, HQ; [apply read_from_refl|done|done|done]. }
  unfold layers, newest in Hdb. cbn [first_some] in Hdb. unfold lookup_memtable.
  change (alookup (MemTable.entries ?m) key) with (MemTable.get m key) in Hdb.
  destruct (MemTable.get (Engine.memtable e) key) as [[v|]|]; [by apply Hret..|].
  destruct (Engine.immutable e) as [imm|]; [|by apply Htab].
  cbn [app first_some] in Hdb. change (alookup (MemTable.entries ?m) key) with (MemTable.get m key) in Hdb.
  destruct (MemTable.get imm key) as [[v|]|]; [by apply Hret..|by apply Htab].
Qed.

(** ** The version and the manifest *)

(** The ids the manifest has for a level, in the order they were added. *)
Definition level_ids (m : Manifest.t) (i : nat) : list Z :=
  fst <$> base.filter (fun x => snd x = Z.of_nat i) (Manifest.tables m).

(** Level 0 is newest first; below, the order of the tables is irrelevant. *)
Record matches (m : Manifest.t) (v : Version.t) : Prop := {
  ma_l0 : forall l, Version.levels v !! 0%nat = Some l -> SsTable.id <$> l = reverse (level_ids m 0);
  ma_level : forall i l, Version.levels v !! i = Some l -> (0 < i)%nat ->
    SsTable.id <$> l ≡ₚ level_ids m i;
  ma_all : SsTable.id <$> concat (Version.levels v) ≡ₚ fst <$> Manifest.tables m;
  ma_range : Forall (fun x => 0 <= snd x < len (Version.levels v)) (Manifest.tables m);
}.

Lemma newest_concat run ls k :
  newest (runs_of run (concat ls)) k = first_some (fun l => newest (runs_of run l) k) ls.
Proof.
  induction ls as [|l ls IH]; [done|]. cbn [concat first_some].
  by rewrite runs_of_app, newest_app, IH.
Qed.

Lemma first_some_Forall2 {A B} (f : A -> option B) l k :
  Forall2 (fun x y => f x = f y) l k -> first_some f l = first_some f k.
Proof. induction 1 as [|x y l k H _ IH]; [done|]. simpl. by rewrite H, IH. Qed.

Section transfer.
Context (reg : registry).
Abbreviation run := (table_run reg).

(** A level whose tables do not overlap, in another order. *)
Lemma newest_perm l l2 k :
  level_ok run l -> NoDup (SsTable.id <$> l) -> SsTable.id <$> l2 ≡ₚ SsTable.id <$> l ->
  newest (runs_of run l2) k = newest (runs_of run l) k.
Proof.
  intros Hl Hn Hp.
  assert (forall l l2, SsTable.id <$> l2 ≡ₚ SsTable.id <$> l -> forall t, t ∈ l ->
    exists t2, t2 ∈ l2 /\ run t2 = run t) as Hpartner.
  { clear. intros l l2 Hp t Ht. apply (list_elem_of_fmap_2 SsTable.id) in Ht as Hid.
    rewrite <- Hp in Hid. apply list_elem_of_fmap in Hid as (t2 & E & Ht2). exists t2.
    split; [done|]. unfold table_run. by rewrite E. }
  destruct (newest (runs_of run l2) k) as [x|] eqn:E.
  - apply newest_runs_Some in E as (t2 & Ht2 & Hk).
    destruct (Hpartner l2 l (symmetry Hp) t2 Ht2) as (t & Ht & Er). symmetry.
    eapply level_lookup; [done|done|done|by rewrite Er].
  - symmetry. apply newest_runs_None. rewrite newest_runs_None in E. intros t Ht.
    destruct (Hpartner l l2 Hp t Ht) as (t2 & Ht2 & <-). auto.
Qed.

Lemma level_ok_perm l l2 :
  level_ok run l -> SsTable.id <$> l2 ≡ₚ SsTable.id <$> l -> level_ok run l2.
Proof.
  intros Hl Hp t1 t2 H1 H2 Hne.
  apply (list_elem_of_fmap_2 SsTable.id) in H1, H2. rewrite Hp in H1, H2.
  apply list_elem_of_fmap in H1 as (u1 & E1 & Hu1), H2 as (u2 & E2 & Hu2).
  unfold table_run. rewrite E1, E2. apply Hl; [done|done|congruence].
Qed.

(** Two versions of the same manifest show the same entries. *)
Lemma matches_same m v v2 :
  matches m v -> matches m v2 -> len (Version.levels v2) = len (Version.levels v) ->
  version_ok run v -> (forall t, t ∈ concat (Version.levels v2) -> described run t) ->
  version_ok run v2 /\
  forall k, newest (runs_of run (concat (Version.levels v2))) k =
            newest (runs_of run (concat (Version.levels v))) k.
Proof.
  intros Hm Hm2 Hlen Hok Hd.
  assert (forall i l l2, Version.levels v !! i = Some l -> Version.levels v2 !! i = Some l2 ->
    SsTable.id <$> l2 ≡ₚ SsTable.id <$> l) as Hids.
  { intros [|i] l l2 Hl Hl2.
    - by rewrite (ma_l0 _ _ Hm2 _ Hl2), (ma_l0 _ _ Hm _ Hl).
    - by rewrite (ma_level _ _ Hm2 _ _ Hl2), (ma_level _ _ Hm _ _ Hl) by lia. }
  assert (length (Version.levels v2) = length (Version.levels v)) as Hl by (unfold len in Hlen; lia).
  split; [split|].
  - done.
  - rewrite (ma_all _ _ Hm2), <- (ma_all _ _ Hm). apply Hok.
  - intros i l2 Hl2 Hi. destruct (lookup_lt_is_Some_2 (Version.levels v) i) as [l Hl1].
    { rewrite <- Hl. by eapply lookup_lt_Some. }
    eapply level_ok_perm; [by eapply (v_levels _ _ Hok)|]. by eapply Hids.
  - intros k. rewrite !newest_concat. apply first_some_Forall2, Forall2_same_length_lookup_2; [done|].
    intros [|i] l2 l Hl2 Hl1.
    + by rewrite !runs_of_ids, (ma_l0 _ _ Hm2 _ Hl2), (ma_l0 _ _ Hm _ Hl1).
    + apply newest_perm; [eapply (v_levels _ _ Hok (S i)); [done|lia]| |by eapply Hids].
      pose proof (v_nodup _ _ Hok) as Hn. apply list_elem_of_lookup_2 in Hl1.
      apply list_elem_of_split in Hl1 as (a & b & E). rewrite E, concat_app in Hn. cbn [concat] in Hn.
      by eapply ids_part.
Qed.

End transfer.

(** The tables of a version and the manifest [m] that lists them. *)
Record disk_ok (reg : registry) (w : World) (m : Manifest.t) (v : Version.t) : Prop := {
  dk_version : version_ok (table_run reg) v;
  dk_stored : Forall (stored reg w) (concat (Version.levels v));
  dk_matches : matches m v;
  dk_ids : forall id, is_Some (reg !! id) -> 0 <= id < Manifest.next_id m;
}.

Lemma disk_ok_mono reg w w' m v :
  disk_ok reg w m v ->
  (forall id, w_files w' !! table_file_name id = w_files w !! table_file_name id) ->
  disk_ok reg w' m v.
Proof.
  intros [Hv Hs Hm Hi] Hf. split; [done| |done|done]. eapply Forall_impl; [exact Hs|].
  intros t Ht. by eapply stored_mono.
Qed.

Lemma disk_ok_crash reg w w2 m v : disk_ok reg w m v -> crashed w w2 -> disk_ok reg w2 m v.
Proof.
  intros [Hv Hs Hm Hi] Hc. split; [done| |done|done]. eapply Forall_impl; [exact Hs|].
  intros t Ht. by eapply stored_crash.
Qed.

(** ** The invariant *)

Record options_ok `{Libm} (o : Options) : Prop := {
  oo_levels : 2 <= max_levels o < 2 ^ 32;
  oo_block : 0 <= block_size o <= 2 ^ 31;
  oo_libm : libm_ok;
}.

(** A compaction that is planned and written but not installed. *)
Record pending_ok (o : Options) (reg : registry) (w : World) (v : Version.t) (p : Pending)
    : Prop := {
  pe_levels : len (Version.levels (p_version p)) = max_levels o;
  pe_job : pick_compaction (p_version p) o = Some (p_job p);
  pe_later : exists extra, Version.levels v = push_l0 extra (Version.levels (p_version p));
  pe_merge : is_merge (drop_tombstones (p_version p) o (p_job p))
    (runs_of (table_run reg) (inputs (p_job p))) (table_run reg (p_output p));
  pe_stored : stored reg w (p_output p);
  pe_fresh : SsTable.id (p_output p) ∉ SsTable.id <$> concat (Version.levels v);
}.

(** [n] bounds the entries and the table ids: one more with every operation.
    [db] is the map that the user sees. *)
Record engine_ok (o : Options) (reg : registry) (n : Z) (pend : option Pending)
    (e : Engine.t) (w : World) (db : gmap bytes bytes) : Prop := {
  eo_options : Engine.options e = o /\ s_options (Engine.shared e) = o;
  eo_wal : Engine.wal e = Wal.mk WAL_FILE_NAME;
  eo_imm : Engine.immutable e = None;
  eo_levels : len (Version.levels (s_version (Engine.shared e))) = max_levels o;
  eo_disk : disk_ok reg w (s_manifest (Engine.shared e)) (s_version (Engine.shared e));
  eo_cache : coherent reg (s_cache (Engine.shared e));
  eo_manifest : exists recs, man_ok w (s_manifest (Engine.shared e)) recs;
  eo_log : exists ops, Forall op_valid ops /\ clean_log w WAL_FILE_NAME ops /\
    Engine.memtable e = replay_mem ops;
  eo_size : Z.of_nat (total_len (layers reg e)) <= n;
  eo_next : 1 <= Manifest.next_id (s_manifest (Engine.shared e)) <= n + 1;
  eo_pend : match pend with
    | None => True
    | Some p => pending_ok o reg w (s_version (Engine.shared e)) p
    end;
  eo_db : forall k, db !! k = visible (newest (layers reg e) k);
}.

Lemma engine_ok_readable o reg n pend e w db : engine_ok o reg n pend e w db -> readable reg e w db.
Proof. intros []. split; [by destruct eo_disk0|done|done]. Qed.

(** The map an engine shows is determined by its layers. *)
Lemma readable_det reg e w db db' : readable reg e w db -> readable reg e w db' -> db = db'.
Proof. intros H1 H2. apply map_eq. intros k. by rewrite (rd_db _ _ _ _ H1), (rd_db _ _ _ _ H2). Qed.
