(* ===== verification/Recovery.v ===== *)
(** * Opening a database: proofs

    [image] describes a directory that can be opened: a manifest with at most
    a torn record at its end, a log with at most a torn record at its end, and
    the tables that the manifest lists.  [wp_open_with] says that opening it
    gives an engine that shows the operations of the log on top of the tables. *)

From S2P Require Import Prelude Bytes Errors Collections Records World Wal Memtable.
From S2P Require Import Bloom Cache Format Names SsTables TableWrite TableRead Manifests Merge.
From S2P Require Import Compaction Versions Engine EngineInv.

(** ** Loading the tables *)

(** A table id whose file can be opened. *)
Definition openable (reg : registry) (w : World) (id : Z) : Prop :=
  0 <= id /\ exists bs f, reg !! id = Some bs /\ table_wf bs f /\
    Forall (fun x => fst x <> []) (concat bs) /\
    w_files w !! table_file_name id = Some (mkFile (table_bytes bs f) (table_bytes bs f)).

Lemma stored_openable reg w t : stored reg w t -> openable reg w (SsTable.id t).
Proof.
  intros [Hi Hp (bs & Hr & [Hwf _ Hf]) Hk]. split; [done|]. exists bs, (SsTable.bloom t).
  rewrite (table_run_eq _ _ _ Hr) in Hk. rewrite Hp in Hf. by split_and!.
Qed.

(** The handle of an opened table. *)
Lemma opened_stored reg w id lvl bs f :
  0 <= id -> reg !! id = Some bs -> table_wf bs f -> Forall (fun x => fst x <> []) (concat bs) ->
  w_files w !! table_file_name id = Some (mkFile (table_bytes bs f) (table_bytes bs f)) ->
  stored reg w (SsTable.set_level lvl (table_of (table_file_name id) id bs f)).
Proof.
  intros Hi Hr Hwf Hk Hf. split; [done|done| |].
  - exists bs. split; [done|]. by split.
  - unfold table_run, id_run. cbn. by rewrite Hr.
Qed.

(** [version.levels[table.level].push(table)]. *)
Definition place (v : Version.t) (t : SsTable.t) : Version.t :=
  Version.mk (alter (fun l => l ++ [t]) (Z.to_nat (SsTable.level t)) (Version.levels v)).

Lemma push_level_place v t :
  0 <= SsTable.level t < len (Version.levels v) -> push_level v (SsTable.level t) t = Ok (place v t).
Proof.
  intros Hl. unfold push_level.
  destruct (lookup_lt_is_Some_2 (Version.levels v) (Z.to_nat (SsTable.level t))) as [l Hi];
    [unfold len in Hl; lia|].
  rewrite Hi. cbn [or_panic]. rsimpl. unfold place. do 2 f_equal.
  apply list_eq. intros j. destruct (decide (j = Z.to_nat (SsTable.level t))) as [->|Hne].
  - rewrite list_lookup_alter_eq, Hi, list_lookup_insert_eq; [done|]. by eapply lookup_lt_Some.
  - by rewrite list_lookup_alter_ne, list_lookup_insert_ne.
Qed.

Lemma place_len v t : len (Version.levels (place v t)) = len (Version.levels v).
Proof. unfold len. cbn. by rewrite length_alter. Qed.

Lemma places_len ts v : len (Version.levels (foldl place v ts)) = len (Version.levels v).
Proof. revert v. induction ts as [|t ts IH]; intros v; [done|]. cbn. by rewrite IH, place_len. Qed.

Lemma places_lookup ts v i :
  Forall (fun t => 0 <= SsTable.level t) ts ->
  Version.levels (foldl place v ts) !! i =
  (fun l => l ++ base.filter (fun t => SsTable.level t = Z.of_nat i) ts) <$> Version.levels v !! i.
Proof.
  intros Hts. revert v. induction Hts as [|t ts Ht Hts IH]; intros v; cbn [foldl].
  { destruct (Version.levels v !! i); simpl; [by rewrite app_nil_r|done]. }
  rewrite IH. cbn [place Version.levels]. rewrite filter_cons.
  destruct (decide (i = Z.to_nat (SsTable.level t))) as [->|Hne].
  - rewrite list_lookup_alter_eq, decide_True by lia.
    destruct (Version.levels v !! _); simpl; [by rewrite <- app_assoc|done].
  - rewrite list_lookup_alter_ne, decide_False by lia. done.
Qed.

Lemma place_concat v t :
  0 <= SsTable.level t < len (Version.levels v) ->
  concat (Version.levels (place v t)) ≡ₚ concat (Version.levels v) ++ [t].
Proof.
  intros Hl. cbn [place Version.levels].
  destruct (lookup_lt_is_Some_2 (Version.levels v) (Z.to_nat (SsTable.level t))) as [l Hi];
    [unfold len in Hl; lia|].
  destruct (list_elem_of_split_length _ _ _ Hi) as (a & b & -> & ->).
  rewrite alter_app_r_alt, Nat.sub_diag by lia. cbn [alter list_alter]. rewrite !concat_app.
  cbn [concat]. solve_Permutation.
Qed.

Lemma places_concat ts v :
  Forall (fun t => 0 <= SsTable.level t < len (Version.levels v)) ts ->
  concat (Version.levels (foldl place v ts)) ≡ₚ concat (Version.levels v) ++ ts.
Proof.
  revert v. induction ts as [|t ts IH]; intros v Hts; [by rewrite app_nil_r|].
  apply Forall_cons in Hts as [Ht Hts]. cbn [foldl].
  rewrite IH by (by rewrite place_len). rewrite place_concat by done. by rewrite <- app_assoc.
Qed.

Lemma wp_load_tables o reg w tabs (Q : Version.t -> World -> Prop) E v w1 :
  Forall (fun x => openable reg w (fst x) /\ 0 <= snd x < max_levels o) tabs ->
  len (Version.levels v) = max_levels o -> w_files w1 = w_files w ->
  (forall ts w', (fun t => (SsTable.id t, SsTable.level t)) <$> ts = tabs -> Forall (stored reg w) ts ->
     w_files w' = w_files w -> (quiet w1 -> quiet w') -> Q (foldl place v ts) w') ->
  (forall e w', ~ quiet w1 -> E e w') ->
  wp (load_tables o tabs v) Q E w1.
Proof.
  intros Htabs. revert Q v w1. induction Htabs as [|[id lvl] tabs [Ho Hlvl] Htabs IH];
    intros Q v w1 Hlen Hw1 HQ HE; cbn [load_tables].
  { apply wp_ret. by apply (HQ []). }
  destruct Ho as (Hid & bs & f & Hr & Hwf & Hk & Hf). cbn [fst snd] in *.
  apply wp_bind. unfold wp at 1, path_exists. rewrite Hw1, Hf.
  rewrite bool_decide_eq_true_2 by eauto. cbn [negb]. apply wp_bind.
  eapply wp_open; [done|apply table_not_tmp|by rewrite Hw1| |by intros; apply HE].
  intros w2 Hw2 Hq2. set (t := SsTable.set_level lvl (table_of (table_file_name id) id bs f)).
  assert (stored reg w t) as Ht by (by apply opened_stored).
  replace (Z.min lvl (Z.max 0 (max_levels o - 1))) with (SsTable.level t) by (cbn; lia).
  rewrite push_level_place by (cbn; lia). apply wp_bind, wp_ret.
  apply IH; [by rewrite place_len|congruence| |intros; apply HE; tauto].
  intros ts w3 Hts Hst Hw3 Hq3. apply (HQ (t :: ts)); [by rewrite fmap_cons, Hts|by constructor|done|tauto].
Qed.

(** ** The version that opening builds *)

Lemma filter_level_ids (ts : list SsTable.t) i :
  SsTable.id <$> base.filter (fun t => SsTable.level t = Z.of_nat i) ts =
  fst <$> base.filter (fun x => snd x = Z.of_nat i) ((fun t => (SsTable.id t, SsTable.level t)) <$> ts).
Proof.
  induction ts as [|t ts IH]; [done|]. rewrite fmap_cons, !filter_cons. cbn [snd].
  case_decide; [by rewrite !fmap_cons, IH|done].
Qed.

Lemma smallest_sort_perm l : smallest_sort l ≡ₚ l.
Proof. apply sort_by_perm. Qed.

Lemma arrange_concat v : concat (Version.levels (arrange v)) ≡ₚ concat (Version.levels v).
Proof.
  unfold arrange. cbn [Version.levels]. destruct (Version.levels v) as [|l0 ls]; [done|].
  cbn [concat]. f_equiv; [apply reverse_Permutation|].
  induction ls as [|l ls IH]; [done|]. rewrite fmap_cons. cbn [concat].
  by rewrite smallest_sort_perm, IH.
Qed.

Lemma arrange_len v : len (Version.levels (arrange v)) = len (Version.levels v).
Proof.
  unfold arrange, len. cbn [Version.levels]. destruct (Version.levels v); [done|].
  cbn [length]. by rewrite length_fmap.
Qed.

Lemma loaded_matches o m ts :
  2 <= max_levels o ->
  (fun t => (SsTable.id t, SsTable.level t)) <$> ts = Manifest.tables m ->
  Forall (fun x => 0 <= snd x < max_levels o) (Manifest.tables m) ->
  let v := arrange (foldl place (Version.with_max_levels (max_levels o)) ts) in
  matches m v /\ len (Version.levels v) = max_levels o /\ concat (Version.levels v) ≡ₚ ts.
Proof.
  intros Ho Hts Hr v. set (v0 := Version.with_max_levels (max_levels o)) in *.
  assert (len (Version.levels v0) = max_levels o) as Hlen0 by (cbn; rewrite len_replicate; lia).
  assert (concat (Version.levels v0) = []) as Hc0.
  { cbn. generalize (Z.to_nat (max_levels o)). intros k. by induction k. }
  assert (Forall (fun t => 0 <= SsTable.level t < max_levels o) ts) as Hts'.
  { rewrite <- Hts in Hr. by apply Forall_fmap in Hr. }
  assert (len (Version.levels v) = max_levels o) as Hlen.
  { unfold v. by rewrite arrange_len, places_len. }
  assert (concat (Version.levels v) ≡ₚ ts) as Hc.
  { unfold v. rewrite arrange_concat, places_concat by (by rewrite Hlen0). by rewrite Hc0. }
  assert (forall i, (i < Z.to_nat (max_levels o))%nat ->
    Version.levels (foldl place v0 ts) !! i = Some (base.filter (fun t => SsTable.level t = Z.of_nat i) ts))
    as Hlook.
  { intros i Hi. rewrite places_lookup by (eapply Forall_impl; [exact Hts'|]; simpl; intros; lia).
    cbn [v0 Version.with_max_levels Version.levels]. rewrite lookup_replicate_2 by done. done. }
  split; [split|done].
  - intros l Hl. assert (0 < Z.to_nat (max_levels o))%nat as Hpos by lia. specialize (Hlook 0%nat Hpos).
    unfold v, arrange in Hl. cbn [Version.levels] in Hl.
    destruct (Version.levels (foldl place v0 ts)) as [|l0 ls]; [done|].
    injection Hlook as ->. injection Hl as <-. rewrite fmap_reverse. f_equal.
    unfold level_ids. rewrite <- Hts. apply filter_level_ids.
  - intros i l Hl Hi. unfold v, arrange in Hl. cbn [Version.levels] in Hl.
    assert (i < Z.to_nat (max_levels o))%nat as Hlt.
    { apply lookup_lt_Some in Hl. unfold v, arrange, len in Hlen. cbn [Version.levels] in Hlen. lia. }
    specialize (Hlook i Hlt).
    destruct (Version.levels (foldl place v0 ts)) as [|l0 ls]; [done|].
    destruct i as [|i]; [lia|]. change ((smallest_sort <$> ls) !! i = Some l) in Hl.
    change (ls !! i = Some (base.filter (fun t => SsTable.level t = Z.of_nat (S i)) ts)) in Hlook.
    rewrite list_lookup_fmap, Hlook in Hl.
    injection Hl as <-. rewrite smallest_sort_perm. unfold level_ids. rewrite <- Hts.
    by rewrite filter_level_ids.
  - rewrite Hc, <- Hts, <- list_fmap_compose. done.
  - by rewrite Hlen.
Qed.

(** ** Opening *)

(** The log that opening replays, or starts with. *)
Definition log_image (w : World) (ops : list Operation) : Prop :=
  Forall op_valid ops /\
  match w_files w !! WAL_FILE_NAME with
  | Some f => exists t, f_data f = log_bytes ops ++ t /\ torn t
  | None => ops = []
  end.

Lemma op_valid_fits ops : Forall op_valid ops -> Forall op_fits ops.
Proof. intros H. eapply Forall_impl; [exact H|]. by intros op []. Qed.

Record image (o : Options) (reg : registry) (w : World) (m : Manifest.t) (v : Version.t)
    (ops : list Operation) : Prop := {
  im_man : man_image w m;
  im_log : log_image w ops;
  im_disk : disk_ok reg w m v;
  im_levels : len (Version.levels v) = max_levels o;
}.

(** The engine that opening gives. *)
Definition opened (o : Options) (m : Manifest.t) (v : Version.t) (ops : list Operation) : Engine.t :=
  Engine.mk o (Wal.mk WAL_FILE_NAME) (replay_mem ops) None
    (mkShared o v m (BlockCache.new (cache_size_bytes o)) None 0 0) CompactionWorker.start.

(** The end of [open_with]: the log, created when it is missing, and its
    operations. *)
Lemma wp_open_log {A} ops (k : Wal.t -> list Operation -> M World A) (Q : A -> World -> Prop) E w :
  log_image w ops -> quiet w ->
  (forall w', quiet w' -> w_files w' = (match w_files w !! WAL_FILE_NAME with
     | Some _ => w_files w
     | None => <[WAL_FILE_NAME := mkFile [] []]> (w_files w)
     end) -> wp (k (Wal.mk WAL_FILE_NAME) ops) Q E w') ->
  wp (let! wal := Wal.open WAL_FILE_NAME in
      let! iter := Wal.iter wal in
      let! operations := mlift (WalIterator.collect iter) in k wal operations) Q E w.
Proof.
  intros [Hops Hlog] Hq HQ. apply wp_bind. unfold Wal.open.
  apply wp_bind, wp_open_or_create; [|intros ? ? []; tauto].
  intros w3 Hw3 Hq3. apply wp_ret.
  assert (exists f, w_files w3 !! WAL_FILE_NAME = Some f /\
    WalIterator.collect (WalIterator.from_bytes (f_data f)) = Ok ops) as (f & Hf & Hcol).
  { destruct (w_files w !! WAL_FILE_NAME) as [f|] eqn:Ef.
    - destruct Hlog as (t & Hd & Ht). exists f. rewrite Hw3, Ef. split; [done|].
      rewrite Hd. apply collect_log; [by apply op_valid_fits|done].
    - exists (mkFile [] []). rewrite Hw3, lookup_insert_eq. split; [done|]. by rewrite Hlog. }
  apply wp_bind. unfold Wal.iter. apply wp_bind. cbn [Wal.path].
  eapply wp_read_to_end; [done| |intros ? ? []; tauto].
  intros w4 Hw4 Hq4. apply wp_ret, wp_bind. unfold wp at 1, mlift. rewrite Hcol.
  apply HQ; [tauto|]. by rewrite Hw4, Hw3.
Qed.

(** Every table of the manifest can be opened. *)
Lemma image_openable o reg w m v :
  disk_ok reg w m v -> len (Version.levels v) = max_levels o ->
  Forall (fun x => openable reg w (fst x) /\ 0 <= snd x < max_levels o) (Manifest.tables m).
Proof.
  intros Hdk Hlev. pose proof (dk_matches _ _ _ _ Hdk) as Hma. apply Forall_forall. intros x Hx. split.
  - apply (list_elem_of_fmap_2 fst) in Hx. rewrite <- (ma_all _ _ Hma) in Hx.
    apply list_elem_of_fmap in Hx as (t & -> & Ht). apply stored_openable.
    by apply (proj1 (Forall_forall _ _) (dk_stored _ _ _ _ Hdk)).
  - rewrite <- Hlev. by apply (proj1 (Forall_forall _ _) (ma_range _ _ Hma)).
Qed.

Lemma wp_open_with o reg m v ops (Q : Engine.t -> World -> Prop) E w :
  image o reg w m v ops -> 2 <= max_levels o -> quiet w ->
  (forall v2 w', disk_ok reg w' m v2 -> len (Version.levels v2) = max_levels o ->
     (forall k, newest (runs_of (table_run reg) (concat (Version.levels v2))) k =
                newest (runs_of (table_run reg) (concat (Version.levels v))) k) ->
     runs_of (table_run reg) (concat (Version.levels v2)) ≡ₚ
       runs_of (table_run reg) (concat (Version.levels v)) ->
     quiet w' ->
     w_files w' = (match w_files w !! WAL_FILE_NAME with
       | Some _ => touched MANIFEST_NAME w
       | None => <[WAL_FILE_NAME := mkFile [] []]> (touched MANIFEST_NAME w)
       end) ->
     Q (opened o m v2 ops) w') ->
  wp (Engine.open_with o) Q E w.
Proof.
  intros [Him Hlog [Hv Hst Hma Hids] Hlev] Ho Hq HQ.
  unfold Engine.open_with. apply wp_bind, wp_syscall; [|by intros ? ? []].
  intros fs Hfs. apply wp_ret. assert (set_faults fs w = w) as -> .
  { rewrite (Hfs Hq). destruct w. destruct Hq as [? Hq]. cbn in *. by rewrite Hq. }
  apply wp_bind. eapply wp_open_image; [done| |by intros ? ? []].
  intros w1 Hw1 Hq1. unfold Manifest.active_tables.
  assert (forall p, p <> MANIFEST_NAME -> w_files w1 !! p = w_files w !! p) as Hother.
  { intros p Hp. rewrite Hw1. by apply touched_other. }
  assert (disk_ok reg w1 m v) as Hdk1.
  { eapply disk_ok_mono; [by split|]. intros id. apply Hother, table_neq_manifest. }
  apply wp_bind. eapply (wp_load_tables o reg w1); [by apply (image_openable o _ _ _ v)| |done| |].
  { cbn. rewrite len_replicate. lia. }
  2: { intros e w2 Hn. exfalso. tauto. }
  intros ts w2 Hts Hst2 Hw2 Hq2.
  assert (Forall (fun x => 0 <= snd x < max_levels o) (Manifest.tables m)) as Hrange.
  { rewrite <- Hlev. apply Hma. }
  destruct (loaded_matches o m ts Ho Hts Hrange) as (Hm2 & Hl2 & Hc2).
  set (v2 := arrange _) in *.
  assert (Forall (stored reg w1) (concat (Version.levels v2))) as Hst3 by (by rewrite Hc2).
  destruct (matches_same reg m v v2 Hma Hm2) as [Hv2 Hview]; [congruence|done| |].
  { intros t Ht. eapply stored_described. by apply (proj1 (Forall_forall _ _) Hst3). }
  assert (w_files w2 !! WAL_FILE_NAME = w_files w !! WAL_FILE_NAME) as Ewal.
  { rewrite Hw2. by apply Hother. }
  apply (wp_open_log ops); [|tauto|].
  { destruct Hlog as [Hops Hlog]. split; [done|]. by rewrite Ewal. }
  intros w4 Hq4 Hw4. rewrite Ewal, Hw2, Hw1 in Hw4. apply wp_ret, HQ; [|done|done| |done|done].
  - eapply (disk_ok_mono reg w1); [by split|]. intros id.
    rewrite Hw4, <- Hw1. destruct (w_files w !! WAL_FILE_NAME); [done|].
    rewrite lookup_insert_ne; [done|]. intros E1. by eapply table_neq_wal.
  - rewrite !runs_of_ids, (ma_all _ _ Hm2), (ma_all _ _ Hma). done.
Qed.
