(* ===== verification/EngineOps.v ===== *)
(** * Writes, flushes and compactions: proofs

    Every operation that returns [Ok] keeps [engine_ok], with the map changed
    as the operation says; after an error, reads show the old or the new map,
    and so does the engine that is opened after a crash ([failed_op]). *)

From S2P Require Import Prelude Bytes Errors Collections Records World Wal Memtable.
From S2P Require Import Bloom Cache Format Names SsTables TableWrite TableRead Manifests Merge.
From S2P Require Import Compaction Versions Engine EngineInv Recovery.

(** ** Small changes of the state *)

Lemma matches_tables m m' v : Manifest.tables m' = Manifest.tables m -> matches m v -> matches m' v.
Proof. intros E []. split; unfold level_ids in *; by rewrite E. Qed.

Lemma disk_ok_next reg w m m' v :
  disk_ok reg w m v -> Manifest.tables m' = Manifest.tables m ->
  Manifest.next_id m <= Manifest.next_id m' -> disk_ok reg w m' v.
Proof.
  intros [Hv Hs Hm Hi] Et Hn. split; [done|done|by eapply matches_tables|].
  intros id Hid. specialize (Hi id Hid). lia.
Qed.

(** A new table in the registry. *)
Lemma disk_ok_extend reg w m v id bs :
  disk_ok reg w m v -> reg !! id = None -> 0 <= id < Manifest.next_id m ->
  disk_ok (<[id := bs]> reg) w m v.
Proof.
  intros [Hv Hs Hm Hi] Hn Hid. assert (reg ⊆ <[id := bs]> reg) as Hsub by (by apply insert_subseteq).
  split; [| |done|].
  - eapply version_ok_ext; [|done]. intros t Ht. eapply table_run_mono; [done|].
    by apply (proj1 (Forall_forall _ _) Hs).
  - eapply Forall_impl; [exact Hs|]. intros t Ht. by eapply stored_mono.
  - intros id' [bs' [[-> _]|[_ H]]%lookup_insert_Some]; [done|]. apply Hi. by eexists.
Qed.

(** Only the files of registered tables matter. *)
Lemma disk_ok_files reg w w' m v :
  disk_ok reg w m v ->
  (forall id, is_Some (reg !! id) ->
     w_files w' !! table_file_name id = w_files w !! table_file_name id) ->
  disk_ok reg w' m v.
Proof.
  intros [Hv Hs Hm Hi] Hf. split; [done| |done|done]. eapply Forall_impl; [exact Hs|].
  intros t Ht. eapply stored_mono; [done|done|]. apply Hf. destruct Ht as [_ _ (bs & ? & _) _]. by eexists.
Qed.

(** A registered id is below the next one. *)
Lemma disk_ok_fresh reg w m v : disk_ok reg w m v -> reg !! Manifest.next_id m = None.
Proof.
  intros Hd. destruct (reg !! Manifest.next_id m) eqn:E; [|done].
  pose proof (dk_ids _ _ _ _ Hd (Manifest.next_id m) ltac:(by eexists)). lia.
Qed.

Lemma disk_ok_table_id reg w m v t :
  disk_ok reg w m v -> t ∈ concat (Version.levels v) -> is_Some (reg !! SsTable.id t).
Proof.
  intros Hd Ht. destruct (proj1 (Forall_forall _ _) (dk_stored _ _ _ _ Hd) t Ht) as [_ _ (bs & ? & _) _].
  by eexists.
Qed.

(** A table that is not in the version is not in the manifest. *)
Lemma matches_unlisted m v id :
  matches m v -> id ∉ SsTable.id <$> concat (Version.levels v) -> Manifest.has_table id m = false.
Proof.
  intros Hm Hv. unfold Manifest.has_table. apply not_true_is_false. intros ([id' lvl] & Hx & E)%existsb_exists.
  apply Z.eqb_eq in E as ->. apply list_elem_of_In in Hx.
  apply Hv. rewrite (ma_all _ _ Hm). by apply (list_elem_of_fmap_2 fst) in Hx.
Qed.

(** An unregistered id is in neither the version nor the manifest. *)
Lemma disk_ok_unlisted reg w m v id :
  disk_ok reg w m v -> reg !! id = None ->
  id ∉ SsTable.id <$> concat (Version.levels v) /\ Manifest.has_table id m = false.
Proof.
  intros Hd Hn. assert (id ∉ SsTable.id <$> concat (Version.levels v)) as Hv.
  { intros (t & -> & Ht)%list_elem_of_fmap. destruct (disk_ok_table_id _ _ _ _ _ Hd Ht). congruence. }
  split; [done|]. eapply matches_unlisted; [apply Hd|done].
Qed.

(** A flushed table, in front of level 0 and at the end of the manifest. *)
Lemma disk_ok_push reg w m t l0 rest :
  disk_ok reg w m (Version.mk (l0 :: rest)) -> stored reg w t ->
  SsTable.id t ∉ SsTable.id <$> concat (l0 :: rest) ->
  disk_ok reg w (Manifest.push_table (SsTable.id t) 0 m) (Version.mk ((t :: l0) :: rest)).
Proof.
  intros [Hv Hs Hm Hi] Ht Hf. split; [|by constructor| |done].
  - apply version_ok_push; [done|by eapply stored_described|done].
  - assert (forall i, level_ids (Manifest.push_table (SsTable.id t) 0 m) i =
      level_ids m i ++ (if decide (0 = Z.of_nat i) then [SsTable.id t] else [])) as Hids.
    { intros i. unfold level_ids. cbn [Manifest.push_table Manifest.tables].
      rewrite filter_app, fmap_app, filter_cons. cbn [snd]. f_equal. by case_decide. }
    destruct Hm as [H0 Hl Ha Hr]. cbn [Version.levels] in *. split; cbn [Version.levels].
    + intros l [= <-]. rewrite Hids, decide_True, reverse_app by done.
      rewrite <- (H0 l0) by done. done.
    + intros [|i] l Hl' Hpos; [lia|]. rewrite Hids, decide_False, app_nil_r by lia. by apply (Hl (S i)).
    + cbn [concat app Manifest.push_table Manifest.tables]. rewrite fmap_cons, (fmap_app fst).
      cbn [concat] in Ha. rewrite Ha. apply Permutation_cons_append.
    + cbn [Manifest.push_table Manifest.tables]. apply Forall_app. split; [done|].
      apply Forall_singleton. cbn [snd]. rewrite len_cons. pose proof (len_nonneg rest). lia.
Qed.

(** ** Crashes *)

(** Opening [w2] succeeds, and the engine shows [db]. *)
Definition recovers (o : Options) (w2 : World) (db : gmap bytes bytes) : Prop :=
  exists reg e w3, Engine.open_with o w2 = (Ok e, w3) /\ readable reg e w3 db /\ quiet w3.

(** The map that a log shows on top of a version. *)
Definition shows (reg : registry) (ops : list Operation) (v : Version.t) (db : gmap bytes bytes) : Prop :=
  forall k, db !! k = visible (newest (MemTable.entries (replay_mem ops) ::
    runs_of (table_run reg) (concat (Version.levels v))) k).

Lemma recovers_from o reg w w2 m v ops db :
  2 <= max_levels o -> crashed w w2 -> disk_ok reg w m v -> len (Version.levels v) = max_levels o ->
  man_image w2 m -> log_image w2 ops -> shows reg ops v db -> recovers o w2 db.
Proof.
  intros Ho Hc Hd Hl Hm Hlog Hdb. assert (quiet w2) as Hq by (by destruct Hc as (? & ? & _)).
  assert (image o reg w2 m v ops) as Him by (split; [done|done|by eapply disk_ok_crash|done]).
  edestruct (wp_run (Engine.open_with o) (fun e w3 => readable reg e w3 db /\ quiet w3)
    (fun _ _ => False) w2) as [(e & w3 & E & Hr & Hq3)|(? & ? & _ & [])]; [|by exists reg, e, w3].
  eapply wp_open_with; [done|done|done|]. intros v2 w3 Hd3 Hl3 Hv2 _ Hq3 _. split; [|done].
  split; [apply Hd3|apply coherent_new|]. intros k. rewrite Hdb. unfold layers, newest in *.
  cbn [opened Engine.memtable Engine.immutable Engine.shared s_version first_some app].
  by rewrite Hv2.
Qed.

Lemma crash_log_clean w w2 ops :
  Forall op_valid ops -> clean_log w WAL_FILE_NAME ops -> crashed w w2 -> log_image w2 ops.
Proof.
  intros Hv [_ Hf] Hc. split; [done|]. rewrite (crashed_synced _ _ _ _ Hc Hf). exists [].
  split; [by rewrite app_nil_r|apply torn_nil].
Qed.

Lemma crash_log_torn w w2 ops op k :
  Forall op_valid ops -> op_valid op -> k `prefix_of` op_bytes op ->
  w_files w !! WAL_FILE_NAME = Some (mkFile (log_bytes ops ++ k) (log_bytes ops)) ->
  crashed w w2 -> log_image w2 ops \/ log_image w2 (ops ++ [op]).
Proof.
  intros Hv Hop Hk Hf (_ & _ & Hc). specialize (Hc WAL_FILE_NAME). rewrite Hf in Hc. unfold log_image.
  destruct (w_files w2 !! WAL_FILE_NAME) as [f2|]; [|done]. destruct Hc as [Hc _].
  apply crash_content_append in Hc as (k' & Hk' & Ed).
  destruct (decide (k' = op_bytes op)) as [->|Hne].
  - right. split; [by apply Forall_app; auto|]. exists []. rewrite log_bytes_app, log_bytes_1, app_nil_r.
    split; [done|apply torn_nil].
  - left. split; [done|]. exists k'. split; [done|]. apply (torn_prefix op); [apply Hop|by etrans|done].
Qed.

Lemma crash_log_truncated w w2 ops d :
  Forall op_valid ops -> d = log_bytes ops \/ d = [] ->
  w_files w !! WAL_FILE_NAME = Some (mkFile d (log_bytes ops)) ->
  crashed w w2 -> log_image w2 ops \/ log_image w2 [].
Proof.
  intros Hv Hd Hf (_ & _ & Hc). specialize (Hc WAL_FILE_NAME). rewrite Hf in Hc. unfold log_image.
  destruct (w_files w2 !! WAL_FILE_NAME) as [f2|]; [|done]. destruct Hc as [Hc _].
  assert (f_data f2 = log_bytes ops \/ f_data f2 = []) as [E|E].
  { destruct Hc as [->|[->|[H1 H2]]]; cbn in *; [by left|done|].
    destruct Hd as [->| ->]; [left; by apply (anti_symm prefix)|right; by apply prefix_nil_inv]. }
  - left. split; [done|]. exists []. rewrite app_nil_r. split; [done|apply torn_nil].
  - right. split; [done|]. exists []. split; [done|apply torn_nil].
Qed.

(** What an error of an operation that takes [db] to [db'] leaves behind: reads
    show one of the two maps, and so does the engine after a crash. *)
Definition failed_op (o : Options) (db db' : gmap bytes bytes) (e : Engine.t) (w : World) : Prop :=
  (exists reg shown, (shown = db \/ shown = db') /\ readable reg e w shown) /\
  forall w2, crashed w w2 -> recovers o w2 db \/ recovers o w2 db'.

(** ** Planned compactions *)

Lemma pick_inputs v o job t :
  len (Version.levels v) = max_levels o -> 2 <= max_levels o ->
  pick_compaction v o = Some job -> t ∈ inputs job -> t ∈ concat (Version.levels v).
Proof.
  intros Hl Ho Hp Ht. destruct (pick_compaction_shape v o job Hl Ho Hp) as (pre & post & xin & xrest & y & Hs).
  rewrite (js_inputs _ _ _ _ _ _ _ Hs) in Ht. rewrite (js_levels _ _ _ _ _ _ _ Hs), concat_app.
  cbn [concat]. rewrite !elem_of_app. apply elem_of_app in Ht as [Ht|Ht]; [tauto|].
  apply list_elem_of_filter in Ht as [_ Ht]. tauto.
Qed.

Lemma push_l0_elem extra ls (t : SsTable.t) : t ∈ concat ls -> t ∈ concat (push_l0 extra ls).
Proof. destruct ls; [done|]. cbn. set_solver. Qed.

Lemma push_l0_push a b ls : push_l0 a (push_l0 b ls) = push_l0 (a ++ b) ls.
Proof. destruct ls; [done|]. cbn. by rewrite app_assoc. Qed.

Lemma pending_input o reg w v p t :
  2 <= max_levels o -> pending_ok o reg w v p -> t ∈ inputs (p_job p) -> t ∈ concat (Version.levels v).
Proof.
  intros Ho [Hl Hj [extra He] _ _ _] Ht. rewrite He. apply push_l0_elem. by eapply pick_inputs.
Qed.

Lemma pending_mono o reg reg' w w' m v v' p extra :
  2 <= max_levels o -> pending_ok o reg w v p -> disk_ok reg w m v -> reg ⊆ reg' ->
  (forall id, is_Some (reg !! id) ->
     w_files w' !! table_file_name id = w_files w !! table_file_name id) ->
  Version.levels v' = push_l0 extra (Version.levels v) ->
  (forall t, t ∈ extra -> reg !! SsTable.id t = None) ->
  pending_ok o reg' w' v' p.
Proof.
  intros Ho Hp Hd Hsub Hf Hv' Hex. pose proof Hp as [Hl Hj [ex2 He] Hm Hs Hfr].
  assert (is_Some (reg !! SsTable.id (p_output p))) as Hout by (destruct Hs as [_ _ (bs & ? & _) _]; by eexists).
  split; [done|done| | |eapply stored_mono; [done|done|by apply Hf]|].
  - exists (extra ++ ex2). by rewrite Hv', He, push_l0_push.
  - rewrite (runs_of_ext (table_run reg)).
    + by rewrite (table_run_mono _ _ _ _ Hsub Hs).
    + intros t Ht. eapply table_run_mono; [done|].
      apply (proj1 (Forall_forall _ _) (dk_stored _ _ _ _ Hd)). by eapply pending_input.
  - rewrite Hv'. destruct (Version.levels v) as [|l0 ls] eqn:E; [apply not_elem_of_nil|].
    cbn [push_l0 concat]. rewrite <- app_assoc, fmap_app. intros [Hin|Hin]%elem_of_app; [|by apply Hfr].
    apply list_elem_of_fmap in Hin as (t & Et & Hin). destruct Hout as [bs Hbs].
    rewrite Et, (Hex t Hin) in Hbs. done.
Qed.

Lemma pending_mono_opt o reg reg' w w' m v v' pend extra :
  2 <= max_levels o ->
  match pend with None => True | Some p => pending_ok o reg w v p end ->
  disk_ok reg w m v -> reg ⊆ reg' ->
  (forall id, is_Some (reg !! id) ->
     w_files w' !! table_file_name id = w_files w !! table_file_name id) ->
  Version.levels v' = push_l0 extra (Version.levels v) ->
  (forall t, t ∈ extra -> reg !! SsTable.id t = None) ->
  match pend with None => True | Some p => pending_ok o reg' w' v' p end.
Proof. intros. destruct pend; [by eapply pending_mono|done]. Qed.

(** ** Shapes of the invariant *)

Lemma engine_ok_files o reg n pend e w w' db :
  w_files w' = w_files w -> engine_ok o reg n pend e w db -> engine_ok o reg n pend e w' db.
Proof.
  intros Hw [? ? ? ? Hd ? [recs Hm] (ops & Hv & [Hf Hl] & Hmem) ? ? Hp ?]. split; try done.
  - eapply disk_ok_files; [done|]. intros. by rewrite Hw.
  - destruct Hm as [? Hmf ?]. exists recs. split; [done|by rewrite Hw|done].
  - exists ops. split_and!; [done| |done]. split; [done|by rewrite Hw].
  - destruct pend as [p|]; [|done]. destruct Hp. split; try done. by eapply stored_files.
Qed.

Lemma engine_ok_le o reg n n' pend e w db :
  n <= n' -> engine_ok o reg n pend e w db -> engine_ok o reg n' pend e w db.
Proof. intros Hn []. split; try done; lia. Qed.

(** The fields of a well-formed engine. *)
Lemma engine_ok_shape o reg n pend e w db :
  engine_ok o reg n pend e w db ->
  exists ops v m c le sk rd wk,
    e = Engine.mk o (Wal.mk WAL_FILE_NAME) (replay_mem ops) None (mkShared o v m c le sk rd) wk /\
    Forall op_valid ops /\ clean_log w WAL_FILE_NAME ops.
Proof.
  intros [[Ho1 Ho2] Hw Hi _ _ _ _ (ops & Hv & Hl & Hm) _ _ _ _].
  destruct e as [o1 wl mem im [o2 v m c le sk rd] wk]. cbn in *. subst.
  exists ops, v, m, c, le, sk, rd, wk. done.
Qed.

(** The engine of this shape, and what its invariant says of the map. *)
Abbreviation eng o ops v m c le sk rd wk :=
  (Engine.mk o (Wal.mk WAL_FILE_NAME) (replay_mem ops) None (mkShared o v m c le sk rd) wk).

Lemma engine_ok_shows o reg n pend ops v m c le sk rd wk w db :
  engine_ok o reg n pend (eng o ops v m c le sk rd wk) w db -> shows reg ops v db.
Proof. intros Hok k. by rewrite (eo_db _ _ _ _ _ _ _ Hok). Qed.

(** A crash of a well-formed engine loses nothing. *)
Lemma engine_ok_crash o reg n pend e w db w2 :
  2 <= max_levels o -> engine_ok o reg n pend e w db -> crashed w w2 -> recovers o w2 db.
Proof.
  intros Ho Hok Hc. destruct (engine_ok_shape _ _ _ _ _ _ _ Hok)
    as (ops & v & m & c & le & sk & rd & wk & -> & Hv & Hl).
  destruct (eo_manifest _ _ _ _ _ _ _ Hok) as [recs Hm].
  eapply recovers_from; [done|done|apply Hok|apply Hok| | |by eapply engine_ok_shows].
  - by eapply man_ok_image, crash_man_clean.
  - by eapply crash_log_clean.
Qed.

Lemma engine_ok_failed o reg n pend e w db db' :
  2 <= max_levels o -> engine_ok o reg n pend e w db -> failed_op o db db' e w.
Proof.
  intros Ho Hok. split.
  - exists reg, db. split; [by left|]. by eapply engine_ok_readable.
  - intros w2 Hc. left. by eapply engine_ok_crash.
Qed.

(** ** Flushing *)

Section flush.
Context `{Libm} (o : Options) (reg : registry) (n : Z) (pend : option Pending).
Context (ops : list Operation) (v : Version.t) (m : Manifest.t) (c : BlockCache.t).
Context (le : option string) (sk rd : Z) (wk : CompactionWorker.t) (w : World) (db : gmap bytes bytes).
Abbreviation e := (eng o ops v m c le sk rd wk).
Hypothesis Ho : options_ok o.
Hypothesis Hok : engine_ok o reg n pend e w db.
Hypothesis Hn : n < 2 ^ 30.
Hypothesis Hid : Manifest.next_id m <= n.
Hypothesis Hv : Forall op_valid ops.
Hypothesis Hlog : clean_log w WAL_FILE_NAME ops.

Abbreviation l := (MemTable.entries (replay_mem ops)).
Abbreviation id := (Manifest.next_id m).
Abbreviation m1 := (Manifest.mk (id + 1) (Manifest.tables m)).
(** The engine while the memtable is written, with the manifest [m']. *)
Abbreviation frozen m' v' :=
  (Engine.mk o (Wal.mk WAL_FILE_NAME) MemTable.new (Some (Engine.rebuild l))
     (mkShared o v' m' c le sk rd) wk).

Lemma mem_sorted : ksorted l.
Proof using Hv. apply (replay_ok ops Hv). Qed.

Lemma frozen_readable reg' w' m' v' :
  Forall (stored reg' w') (concat (Version.levels v')) -> coherent reg' c -> shows reg' ops v' db ->
  readable reg' (frozen m' v') w' db.
Proof using Hv.
  intros Hst Hc Hs. split; [done|done|]. intros k. rewrite Hs. unfold layers, newest.
  cbn [Engine.memtable Engine.immutable Engine.shared s_version first_some app].
  by rewrite rebuild_entries by apply mem_sorted.
Qed.

(** What a crash of the frozen engine needs for the map to survive. *)
Lemma frozen_failed reg' w' m' v' :
  Forall (stored reg' w') (concat (Version.levels v')) -> coherent reg' c -> shows reg' ops v' db ->
  (forall w2, crashed w' w2 -> recovers o w2 db) -> failed_op o db db (frozen m' v') w'.
Proof using Hv.
  intros Hst Hc Hs Hr. split; [|by auto]. exists reg', db. split; [by left|]. by apply frozen_readable.
Qed.

(** The new table. *)
Section table.
Context (bs : list entries) (f : BloomFilter.t) (w2 : World).
Hypothesis Hbs : concat bs = l.
Hypothesis Hwf : table_wf bs f.
Hypothesis Hfile : w_files w2 !! table_file_name id = Some (mkFile (table_bytes bs f) (table_bytes bs f)).
Hypothesis Hkept : forall i, is_Some (reg !! i) ->
  w_files w2 !! table_file_name i = w_files w !! table_file_name i.
Abbreviation t := (table_of (table_file_name id) id bs f).
Abbreviation reg2 := (<[id := bs]> reg).

Lemma flush_fresh : reg !! id = None.
Proof using Hok. eapply disk_ok_fresh, Hok. Qed.

Lemma flush_sub : reg ⊆ reg2.
Proof using Hok. apply insert_subseteq, flush_fresh. Qed.

Lemma flush_stored : stored reg2 w2 t.
Proof using Hok Hv Hbs Hwf Hfile.
  pose proof (eo_next _ _ _ _ _ _ _ Hok) as Hnx. cbn in Hnx.
  split; [cbn; lia|done| |].
  - exists bs. split; [apply lookup_insert_eq|]. by split.
  - unfold table_run, id_run. cbn [table_of SsTable.id]. rewrite lookup_insert_eq. cbn.
    rewrite Hbs. apply (replay_ok ops Hv).
Qed.

Lemma flush_disk : disk_ok reg2 w2 m1 v.
Proof using Hok Hkept.
  pose proof (eo_next _ _ _ _ _ _ _ Hok) as Hnx. cbn in Hnx.
  apply disk_ok_extend; [|apply flush_fresh|cbn; lia].
  apply (disk_ok_next _ _ m); [|done|cbn; lia]. eapply disk_ok_files; [apply Hok|done].
Qed.

Lemma flush_shows : shows reg2 ops v db.
Proof using Hok.
  intros k. rewrite (engine_ok_shows _ _ _ _ _ _ _ _ _ _ _ _ _ _ Hok).
  rewrite (runs_of_ext (table_run reg) (table_run reg2)); [done|]. intros u Hu.
  eapply table_run_mono; [apply flush_sub|].
  by apply (proj1 (Forall_forall _ _) (dk_stored _ _ _ _ (eo_disk _ _ _ _ _ _ _ Hok))).
Qed.

Lemma flush_run : table_run reg2 t = l.
Proof using Hbs. unfold table_run, id_run. cbn [table_of SsTable.id]. by rewrite lookup_insert_eq. Qed.

(** With the table installed, the log may be kept or dropped. *)
Lemma flush_shows_pushed l0 rest ops' :
  Version.levels v = l0 :: rest -> ops' = ops \/ ops' = [] ->
  shows reg2 ops' (Version.mk ((t :: l0) :: rest)) db.
Proof using Hok Hbs.
  intros El Hops k. rewrite (flush_shows k), El. cbn [Version.levels concat app].
  rewrite runs_of_cons, flush_run. unfold newest. cbn [first_some].
  destruct Hops as [->| ->]; [|done]. by destruct (alookup l k).
Qed.
End table.

(** What [next_table_id] and [create] leave alone. *)
Lemma created_kept bs f w1 w2 i :
  only_manifest w w1 -> published (table_file_name id) bs f w1 w2 -> is_Some (reg !! i) ->
  w_files w2 !! table_file_name i = w_files w !! table_file_name i.
Proof using Hok.
  intros Hw1 Hw2 Hi. pose proof (dk_ids _ _ _ _ (eo_disk _ _ _ _ _ _ _ Hok) i Hi) as Hlt. cbn in Hlt.
  pose proof (eo_next _ _ _ _ _ _ _ Hok) as Hnx. cbn in Hnx. unfold published in Hw2.
  rewrite Hw2, lookup_insert_ne, lookup_delete_ne, Hw1; [done|apply table_neq_manifest| |].
  - intros E. by eapply table_neq_tmp.
  - intros E. apply table_file_name_inj in E; lia.
Qed.

Lemma created_other bs f w1 w2 p :
  published (table_file_name id) bs f w1 w2 -> p <> table_file_name id ->
  p <> tmp_path (table_file_name id) -> w_files w2 !! p = w_files w1 !! p.
Proof using. intros Hw2 H1 H2. unfold published in Hw2. by rewrite Hw2, lookup_insert_ne, lookup_delete_ne. Qed.

(** Only the files of the new table differ. *)
Definition only_table (w1 w2 : World) : Prop :=
  forall p, p <> table_file_name id -> p <> tmp_path (table_file_name id) ->
  w_files w2 !! p = w_files w1 !! p.

Lemma only_table_manifest w1 w2 m' recs : only_table w1 w2 -> man_ok w1 m' recs -> man_ok w2 m' recs.
Proof using.
  intros Ho12 [? Hmf ?]. split; [done| |done]. rewrite Ho12; [done| |];
    intros E; [by eapply table_neq_manifest|by eapply tmp_neq_manifest].
Qed.

Lemma only_table_log w1 w2 : only_table w1 w2 -> clean_log w1 WAL_FILE_NAME ops -> clean_log w2 WAL_FILE_NAME ops.
Proof using.
  intros Ho12 [? Hf]. split; [done|]. rewrite Ho12; [done| |];
    intros E; [by eapply table_neq_wal|by eapply tmp_neq_wal].
Qed.

(** A flush whose table could not be created. *)
Lemma flush_create_failed w1 w2 recs1 :
  only_table w1 w2 -> man_ok w1 m1 recs1 -> disk_ok reg w1 m1 v -> clean_log w1 WAL_FILE_NAME ops ->
  failed_op o db db (frozen m1 v) w2.
Proof using Ho Hok Hv.
  intros Hother Hm1 Hd1 Hl1. assert (disk_ok reg w2 m1 v) as Hd2.
  { eapply disk_ok_files; [exact Hd1|]. intros i Hi. apply Hother; [|apply table_neq_tmp].
    pose proof (dk_ids _ _ _ _ (eo_disk _ _ _ _ _ _ _ Hok) i Hi) as Hlt. cbn in Hlt.
    intros E1. apply table_file_name_inj in E1; lia. }
  apply (frozen_failed reg); [apply Hd2|apply (eo_cache _ _ _ _ _ _ _ Hok)|by eapply engine_ok_shows|].
  intros w3 Hc. eapply recovers_from; [apply Ho|done|exact Hd2|apply (eo_levels _ _ _ _ _ _ _ Hok)| | |
    by eapply engine_ok_shows].
  - eapply man_ok_image, crash_man_clean; [|done]. by eapply only_table_manifest.
  - eapply crash_log_clean; [done| |done]. by eapply only_table_log.
Qed.

(** The first part of the flush: an id for the table. *)
Lemma wp_flush_id {A} recs (k : Z -> M Engine.EW A) (Q : A -> Engine.EW -> Prop) E :
  man_ok w m recs ->
  (forall w1 recs1, man_ok w1 m1 recs1 -> only_manifest w w1 -> disk_ok reg w1 m1 v ->
     clean_log w1 WAL_FILE_NAME ops -> (quiet w -> quiet w1) -> wp (k id) Q E (frozen m1 v, w1)) ->
  (forall x e' w', failed_op o db db e' w' -> ~ quiet w -> E x (e', w')) ->
  wp (let! i := Engine.on_shared (with_manifest Manifest.next_table_id) in k i) Q E (frozen m v, w).
Proof using Ho Hok Hn Hid Hv Hlog.
  intros Hm HQ HE. pose proof (eo_next _ _ _ _ _ _ _ Hok) as Hnx. cbn in Hnx.
  assert (wrap64 (id + 1) = id + 1) as Hwrap by (rewrite ?wrap64_mod; rewrite Z.mod_small; lia).
  assert (forall w', only_manifest w w' -> disk_ok reg w' m v /\ clean_log w' WAL_FILE_NAME ops) as Hkeep.
  { intros w' Hw'. split.
    - eapply disk_ok_mono; [apply Hok|]. intros i. apply Hw', table_neq_manifest.
    - destruct Hlog as [? Hf]. split; [done|]. by rewrite Hw'. }
  assert (forall w', disk_ok reg w' m v -> disk_ok reg w' m1 v) as Hnext.
  { intros w' Hd. apply (disk_ok_next _ _ m); [done|done|cbn; lia]. }
  apply wp_bind, wp_eng_shared, wp_with_manifest. cbn [Engine.shared s_manifest].
  eapply wp_next_table_id; [done|..]; rewrite Hwrap; cbn [fst snd].
  - intros w1 Hm1 Hw1 Hq1. destruct (Hkeep w1 Hw1). eapply HQ; try done. by apply Hnext.
  - intros x w1 Hf Hw1 Hq1. destruct (Hkeep w1 Hw1) as [Hd1 Hl1]. apply HE; [|done].
    apply (frozen_failed reg); [apply Hd1|apply (eo_cache _ _ _ _ _ _ _ Hok)|
      by eapply engine_ok_shows|].
    intros w2 Hc. destruct (crash_man_torn _ _ _ _ _ _ Hf Hc) as (m2 & Ha & Hi). injection Ha as <-.
    destruct Hi as [Hi|Hi]; (eapply recovers_from;
      [apply Ho|done| |apply Hok|exact Hi|by eapply crash_log_clean|by eapply engine_ok_shows]);
      [done|by apply Hnext].
Qed.

Lemma version_cons : exists l0 rest, Version.levels v = l0 :: rest.
Proof using Ho Hok.
  pose proof (eo_levels _ _ _ _ _ _ _ Hok) as Hl. cbn in Hl. pose proof (oo_levels _ Ho).
  destruct (Version.levels v) as [|l0 rest] eqn:E; [|eauto]. rewrite len_nil in Hl. lia.
Qed.

Lemma mem_len : len l <= n.
Proof using Hok.
  pose proof (eo_size _ _ _ _ _ _ _ Hok) as Hs. unfold layers in Hs.
  cbn [Engine.memtable] in Hs. rewrite total_len_cons in Hs. unfold len. lia.
Qed.

(** The last part: the table is on disk. *)
Section install.
Context (bs : list entries) (f : BloomFilter.t) (w2 : World) (recs1 : list ManifestRecord).
Context (l0 : list SsTable.t) (rest : list (list SsTable.t)).
Hypothesis Hbs : concat bs = l.
Hypothesis Hwf : table_wf bs f.
Hypothesis Hfile : w_files w2 !! table_file_name id = Some (mkFile (table_bytes bs f) (table_bytes bs f)).
Hypothesis Hkept : forall i, is_Some (reg !! i) ->
  w_files w2 !! table_file_name i = w_files w !! table_file_name i.
Hypothesis Hman : man_ok w2 m1 recs1.
Hypothesis Hlog2 : clean_log w2 WAL_FILE_NAME ops.
Hypothesis Hlev : Version.levels v = l0 :: rest.
Abbreviation t := (table_of (table_file_name id) id bs f).
Abbreviation reg2 := (<[id := bs]> reg).
Abbreviation v' := (Version.mk ((t :: l0) :: rest)).
Abbreviation m3 := (Manifest.push_table id 0 m1).

(** Both versions are on disk from here on. *)
Lemma install_disk w3 :
  (forall i, w_files w3 !! table_file_name i = w_files w2 !! table_file_name i) ->
  disk_ok reg2 w3 m1 v /\ disk_ok reg2 w3 m3 v'.
Proof using Hok Hv Hbs Hwf Hfile Hkept Hlev.
  intros Hw3. pose proof (flush_disk bs w2 Hkept) as Hd.
  assert (disk_ok reg2 w3 m1 v) as Hd3 by (by eapply disk_ok_mono). split; [done|].
  pose proof (flush_stored bs f w2 Hbs Hwf Hfile) as Ht.
  destruct (disk_ok_unlisted _ _ _ _ id (eo_disk _ _ _ _ _ _ _ Hok) flush_fresh) as [Hf _].
  cbn [Engine.shared s_version] in Hf. rewrite Hlev in Hf.
  destruct v as [ls]. cbn [Version.levels] in Hlev. subst ls.
  apply (disk_ok_push _ _ m1 t); [done| |done]. eapply stored_mono; [done|done|apply Hw3].
Qed.

Lemma install_len : len (Version.levels v') = max_levels o.
Proof using Hok Hlev.
  rewrite <- (eo_levels _ _ _ _ _ _ _ Hok). cbn. rewrite Hlev. by rewrite !len_cons.
Qed.

Lemma install_cache : coherent reg2 c.
Proof using Hok. eapply coherent_mono; [apply flush_sub|apply (eo_cache _ _ _ _ _ _ _ Hok)]. Qed.

(** The engine after the flush. *)
Lemma install_ok w5 recs3 :
  (forall i, w_files w5 !! table_file_name i = w_files w2 !! table_file_name i) ->
  man_ok w5 m3 recs3 -> clean_log w5 WAL_FILE_NAME [] ->
  engine_ok o reg2 n pend (eng o [] v' m3 c le sk rd wk) w5 db.
Proof using Ho Hok Hid Hv Hbs Hwf Hfile Hkept Hlev.
  intros Hw5 Hm5 Hl5. destruct (install_disk w5 Hw5) as [_ Hd].
  pose proof (eo_next _ _ _ _ _ _ _ Hok) as Hnx. cbn in Hnx.
  split; try done; cbn [Engine.shared s_version s_manifest s_cache].
  - apply install_len.
  - apply install_cache.
  - by exists recs3.
  - by exists [].
  - etrans; [|apply (eo_size _ _ _ _ _ _ _ Hok)]. unfold layers. apply inj_le.
    cbn [Engine.memtable Engine.immutable Engine.shared s_version app]. rewrite Hlev.
    cbn [Version.levels concat app].
    rewrite runs_of_cons, (flush_run bs f Hbs), (runs_of_ext (table_run reg) (table_run reg2)); [done|].
    intros u Hu. eapply table_run_mono; [apply flush_sub|].
    apply (proj1 (Forall_forall _ _) (dk_stored _ _ _ _ (eo_disk _ _ _ _ _ _ _ Hok))).
    cbn. by rewrite Hlev.
  - cbn. lia.
  - eapply (pending_mono_opt o reg _ w _ m v _ pend [t]);
      [apply Ho|apply (eo_pend _ _ _ _ _ _ _ Hok)|apply Hok|apply flush_sub| | |].
    + intros i Hi. by rewrite Hw5, Hkept.
    + cbn. by rewrite Hlev.
    + intros u ->%list_elem_of_singleton. apply flush_fresh.
  - by apply (flush_shows_pushed bs f Hbs l0 rest []); auto.
Qed.

(** What a change of the manifest leaves alone. *)
Lemma install_keep w3 : only_manifest w2 w3 ->
  (forall i, w_files w3 !! table_file_name i = w_files w2 !! table_file_name i) /\
  clean_log w3 WAL_FILE_NAME ops.
Proof using Hlog2.
  intros Hw3. split; [intros i; apply Hw3, table_neq_manifest|].
  destruct Hlog2 as [? Hf2]. split; [done|]. by rewrite Hw3.
Qed.

(** The flush cannot record its table. *)
Lemma install_failed w3 :
  man_failed w3 m1 m1 recs1 (AddTable id 0) -> only_manifest w2 w3 -> failed_op o db db (frozen m1 v) w3.
Proof using Ho Hok Hn Hid Hv Hbs Hwf Hfile Hkept Hman Hlog2 Hlev.
  intros Hf Hw3. destruct (install_keep w3 Hw3) as [Hk3 Hl3]. destruct (install_disk w3 Hk3) as [Hd1 Hd3].
  destruct (disk_ok_unlisted _ _ _ _ id (eo_disk _ _ _ _ _ _ _ Hok) flush_fresh) as [_ Hnot].
  eapply (frozen_failed reg2); [apply Hd1|apply install_cache|apply flush_shows|].
  intros w4 Hc. destruct (crash_man_torn _ _ _ _ _ _ Hf Hc) as (m2 & Ha & Hi).
  cbn in Ha. unfold Manifest.has_table in Hnot, Ha. cbn in Hnot, Ha. rewrite Hnot in Ha.
  injection Ha as <-. destruct Hi as [Hi|Hi].
  - eapply recovers_from; [apply Ho|done|exact Hd1|apply (eo_levels _ _ _ _ _ _ _ Hok)|exact Hi|
      by eapply crash_log_clean|apply flush_shows].
  - eapply recovers_from; [apply Ho|done|exact Hd3|apply install_len|exact Hi|
      by eapply crash_log_clean|apply flush_shows_pushed; auto].
Qed.

Lemma wp_flush_install (Q : unit -> Engine.EW -> Prop) E :
  (forall e' w', engine_ok o reg2 n pend e' w' db -> (quiet w2 -> quiet w') -> Q tt (e', w')) ->
  (forall x e' w', failed_op o db db e' w' -> ~ quiet w2 -> E x (e', w')) ->
  wp (let! _ := Engine.on_shared (with_manifest (Manifest.add_table id 0)) in
      let! _ := Engine.on_shared (
        let! s := shared_self in
        let! version := mlift (Engine.insert_l0 t (s_version s)) in
        shared_modify (set_version version)) in
      let! _ := Engine.on_disk (Wal.truncate (Wal.mk WAL_FILE_NAME)) in
      Engine.modify (Engine.set_immutable None)) Q E (frozen m1 v, w2).
Proof using Ho Hok Hn Hid Hv Hbs Hwf Hfile Hkept Hman Hlog2 Hlev.
  intros HQ HE. pose proof (eo_next _ _ _ _ _ _ _ Hok) as Hnx. cbn in Hnx.
  apply wp_bind, wp_eng_shared, wp_with_manifest. cbn [Engine.shared s_manifest].
  destruct (disk_ok_unlisted _ _ _ _ id (eo_disk _ _ _ _ _ _ _ Hok) flush_fresh) as [_ Hnot].
  eapply wp_add_table; [done|unfold u64; lia|lia|done| |]; cbn [fst snd].
  2: { intros x w3 Hf Hw3 Hq3. apply HE; [|done]. by apply install_failed. }
  intros w3 Hm3 Hw3 Hq3. destruct (install_keep w3 Hw3) as [Hk3 Hl3].
  apply wp_bind, wp_eng_shared, wp_bind, wp_shared_self.
  cbn [Engine.set_shared Engine.shared set_manifest s_version].
  unfold Engine.insert_l0. rewrite Hlev. apply wp_bind, wp_ret, wp_shared_modify.
  cbn [fst snd]. apply wp_bind, wp_eng_disk. destruct Hl3 as [Hf3 Hwal3].
  eapply wp_truncate; [exact Hwal3| |]; cbn [f_data f_durable Wal.path].
  - intros w4 Hw4 Hq4. apply wp_eng_modify, HQ; [|tauto].
    apply (install_ok w4 (recs1 ++ [AddTable id 0])).
    + intros i. rewrite Hw4, lookup_insert_ne; [by rewrite Hk3|]. intros E1. by eapply table_neq_wal.
    + destruct Hm3 as [? Hmf ?]. split; [done| |done]. by rewrite Hw4, lookup_insert_ne.
    + split; [done|]. by rewrite Hw4, lookup_insert_eq.
  - intros x d w4 Hdd Hw4 Hq4. apply HE; [|tauto].
    assert (forall i, w_files w4 !! table_file_name i = w_files w2 !! table_file_name i) as Hk4.
    { intros i. rewrite Hw4, lookup_insert_ne; [by rewrite Hk3|]. intros E1. by eapply table_neq_wal. }
    destruct (install_disk w4 Hk4) as [_ Hd4].
    apply (frozen_failed reg2); [apply Hd4|apply install_cache|apply flush_shows_pushed; auto|].
    intros w5 Hc. assert (man_image w5 m3) as Hi.
    { eapply man_ok_image, crash_man_clean; [|done]. destruct Hm3 as [? Hmf ?].
      split; [done| |done]. by rewrite Hw4, lookup_insert_ne. }
    destruct (crash_log_truncated w4 w5 ops d) as [Hli|Hli]; [done|done|by rewrite Hw4, lookup_insert_eq|done| |];
      (eapply recovers_from; [apply Ho|done|exact Hd4|apply install_len|exact Hi|exact Hli|
        apply flush_shows_pushed; auto]).
Qed.
End install.

Lemma wp_flush_memtable (Q : unit -> Engine.EW -> Prop) E :
  (forall reg' e' w', engine_ok o reg' n pend e' w' db -> (quiet w -> quiet w') -> Q tt (e', w')) ->
  (forall x e' w', failed_op o db db e' w' -> ~ quiet w -> E x (e', w')) ->
  wp Engine.flush_memtable Q E (e, w).
Proof using Ho Hok Hn Hid Hv Hlog.
  intros HQ HE. unfold Engine.flush_memtable. apply wp_bind, wp_eng_self. cbn [Engine.memtable].
  destruct (MemTable.is_empty (replay_mem ops)).
  { destruct Hlog as [Hf Hfile]. apply wp_eng_disk. eapply wp_sync; [exact Hfile| |].
    - intros w1 Hw1 Hq1. eapply HQ; [|done]. eapply engine_ok_files; [|exact Hok].
      cbn [f_data Wal.path Engine.wal] in Hw1. by rewrite Hw1, insert_id.
    - intros x w1 Hw1 Hq1. apply HE; [|done]. eapply engine_ok_failed; [apply Ho|].
      by eapply engine_ok_files. }
  do 3 apply wp_bind, wp_eng_modify.
  destruct (eo_manifest _ _ _ _ _ _ _ Hok) as [recs Hm].
  cbn [Engine.set_memtable Engine.set_immutable Engine.options Engine.wal Engine.memtable
    Engine.immutable Engine.shared Engine.worker].
  eapply (wp_flush_id recs); [exact Hm| |done]. intros w1 recs1 Hm1 Hw1 Hd1 Hl1 Hq1.
  destruct (replay_ok ops Hv) as [[Hsorted _] Hent Hkeys]. pose proof mem_len as Hlen.
  apply wp_bind, wp_eng_disk.
  unfold MemTable.iter. eapply wp_create; [done|done|lia|apply Ho|apply Ho| |].
  - intros bs f w2 Hbs Hwf Hp Hq2.
    assert (only_table w1 w2) as Hother by (intros ???; by eapply created_other).
    destruct version_cons as (l0 & rest & Hlev).
    eapply (wp_flush_install bs f w2 recs1 l0 rest); try done.
    + unfold published in Hp. by rewrite Hp, lookup_insert_eq.
    + intros i Hi. by eapply created_kept.
    + by eapply only_table_manifest.
    + by eapply only_table_log.
    + intros e' w' Hok' Hq'. eapply HQ; [done|tauto].
    + intros x e' w' Hf' Hq'. apply HE; [done|tauto].
  - intros x w2 Hcf Hq2. apply HE; [|tauto]. eapply flush_create_failed; [|done..].
    intros p H1 H2. destruct Hcf as [Hsame|(bs & f & _ & _ & Hp)]; [by apply Hsame|by eapply created_other].
Qed.

End flush.

Lemma engine_ok_worker o reg n pend e w db wk :
  engine_ok o reg n pend e w db -> engine_ok o reg n pend (Engine.set_worker wk e) w db.
Proof. by intros []. Qed.

Lemma maybe_request_worker e : exists wk,
  (let l0_len := default 0 (len <$> head (Version.levels (s_version (Engine.shared e)))) in
   if l0_compaction_trigger (Engine.options e) <=? l0_len then
     match CompactionWorker.request_compaction (Engine.worker e) with
     | Ok worker => Engine.set_worker worker e
     | _ => e
     end
   else e) = Engine.set_worker wk e.
Proof.
  assert (e = Engine.set_worker (Engine.worker e) e) as He by (by destruct e). cbn zeta.
  case_if; [|by eexists]. destruct (CompactionWorker.request_compaction _); by eexists.
Qed.

Section write.
Context `{Libm} (o : Options) (reg : registry) (n : Z) (pend : option Pending).
Context (e : Engine.t) (w : World) (db : gmap bytes bytes).
Hypothesis Ho : options_ok o.
Hypothesis Hok : engine_ok o reg n pend e w db.

Lemma wp_flush (Q : unit -> Engine.EW -> Prop) E :
  n < 2 ^ 30 -> Manifest.next_id (s_manifest (Engine.shared e)) <= n ->
  (forall reg' e' w', engine_ok o reg' n pend e' w' db -> (quiet w -> quiet w') -> Q tt (e', w')) ->
  (forall x e' w', failed_op o db db e' w' -> ~ quiet w -> E x (e', w')) ->
  wp Engine.flush Q E (e, w).
Proof using Ho Hok.
  intros Hn Hid HQ HE. destruct (engine_ok_shape _ _ _ _ _ _ _ Hok)
    as (ops & v & m & c & le & sk & rd & wk & -> & Hv & Hl).
  unfold Engine.flush. apply wp_bind. eapply wp_flush_memtable; try done.
  intros reg' e' w' Hok' Hq'. apply wp_eng_modify.
  destruct (maybe_request_worker e') as [wk' ->]. eapply HQ; [|done]. by apply engine_ok_worker.
Qed.

End write.

(** A write in the log but not in the memtable. *)
Lemma logged_failed o reg n pend ops v m c le sk rd wk w db op k w' :
  2 <= max_levels o -> engine_ok o reg n pend (eng o ops v m c le sk rd wk) w db ->
  Forall op_valid ops -> op_valid op -> k `prefix_of` op_bytes op ->
  w_files w' = <[WAL_FILE_NAME := mkFile (log_bytes ops ++ k) (log_bytes ops)]> (w_files w) ->
  failed_op o db (op_spec op db) (eng o ops v m c le sk rd wk) w'.
Proof.
  intros Ho Hok Hv Hop Hk Hw'.
  assert (forall i, w_files w' !! table_file_name i = w_files w !! table_file_name i) as Hkeep.
  { intros i. rewrite Hw', lookup_insert_ne; [done|]. intros E. by eapply table_neq_wal. }
  assert (disk_ok reg w' m v) as Hd by (eapply disk_ok_mono; [apply Hok|done]). split.
  - exists reg, db. split; [by left|]. destruct (engine_ok_readable _ _ _ _ _ _ _ Hok). by split; [apply Hd|..].
  - intros w2 Hc. destruct (eo_manifest _ _ _ _ _ _ _ Hok) as [recs [Hr Hmf Hm]].
    assert (man_image w2 m) as Hi.
    { eapply man_ok_image, crash_man_clean; [|done]. split; [done| |done].
      by rewrite Hw', lookup_insert_ne. }
    pose proof (engine_ok_shows _ _ _ _ _ _ _ _ _ _ _ _ _ _ Hok) as Hs.
    destruct (crash_log_torn w' w2 ops op k Hv Hop Hk) as [Hli|Hli];
      [by rewrite Hw', lookup_insert_eq|done|left|right].
    + eapply recovers_from; [done|done|exact Hd|apply (eo_levels _ _ _ _ _ _ _ Hok)|done|done|done].
    + eapply recovers_from; [done|done|exact Hd|apply (eo_levels _ _ _ _ _ _ _ Hok)|done|exact Hli|].
      intros j. rewrite replay_mem_snoc, apply_visible by (by apply replay_ok).
      rewrite op_spec_lookup. case_decide; [done|]. apply Hs.
Qed.

(** The memtable with one more operation. *)
Lemma applied_ok o reg n pend ops v m c le sk rd wk w db op w' :
  engine_ok o reg n pend (eng o ops v m c le sk rd wk) w db ->
  Forall op_valid ops -> op_valid op ->
  w_files w' = <[WAL_FILE_NAME := mkFile (log_bytes (ops ++ [op])) (log_bytes (ops ++ [op]))]> (w_files w) ->
  engine_ok o reg (n + 1) pend (eng o (ops ++ [op]) v m c le sk rd wk) w' (op_spec op db).
Proof.
  intros Hok Hv Hop Hw'.
  assert (forall i, w_files w' !! table_file_name i = w_files w !! table_file_name i) as Hkeep.
  { intros i. rewrite Hw', lookup_insert_ne; [done|]. intros E. by eapply table_neq_wal. }
  pose proof (engine_ok_shows _ _ _ _ _ _ _ _ _ _ _ _ _ _ Hok) as Hs.
  destruct Hok as [Ho Hw Hi Hl Hd Hc [recs [Hr Hmf Hm]] _ Hsz Hnx Hp Hdb]. split; try done.
  - by eapply disk_ok_mono.
  - exists recs. split; [done| |done]. by rewrite Hw', lookup_insert_ne.
  - exists (ops ++ [op]). assert (Forall op_valid (ops ++ [op])) as Hv' by (by apply Forall_app; auto).
    split_and!; [done| |done]. split; [by apply op_valid_fits|]. by rewrite Hw', lookup_insert_eq.
  - revert Hsz. unfold layers. cbn [Engine.memtable Engine.immutable Engine.shared]. rewrite !total_len_cons.
    rewrite replay_mem_snoc. pose proof (apply_len (replay_mem ops) op) as Hle. unfold len in Hle.
    cbn [app s_version]. lia.
  - cbn in *. lia.
  - destruct pend as [p|]; [|done]. destruct Hp as [? ? ? ? Hst ?]. split; try done. by eapply stored_mono.
  - intros j. rewrite op_spec_lookup, (Hs j). unfold layers.
    cbn [Engine.memtable Engine.immutable Engine.shared app s_version].
    rewrite replay_mem_snoc, apply_visible by (by apply replay_ok). by case_decide.
Qed.

Section write_op.
Context `{Libm} (o : Options) (reg : registry) (n : Z) (pend : option Pending).
Context (e : Engine.t) (w : World) (db : gmap bytes bytes) (op : Operation).
Hypothesis Ho : options_ok o.
Hypothesis Hok : engine_ok o reg n pend e w db.
Hypothesis Hn : n + 1 < 2 ^ 30.
Hypothesis Hop : op_valid op.

Lemma wp_write (Q : unit -> Engine.EW -> Prop) E :
  (forall reg' e' w', engine_ok o reg' (n + 1) pend e' w' (op_spec op db) -> (quiet w -> quiet w') ->
     Q tt (e', w')) ->
  (forall x e' w', failed_op o db (op_spec op db) e' w' -> ~ quiet w -> E x (e', w')) ->
  wp (Engine.write op) Q E (e, w).
Proof using Ho Hok Hn Hop.
  intros HQ HE. destruct (engine_ok_shape _ _ _ _ _ _ _ Hok)
    as (ops & v & m & c & le & sk & rd & wk & -> & Hv & Hl). pose proof Hl as [_ Hf].
  assert (2 <= max_levels o) as Ho2 by apply Ho.
  unfold Engine.write. apply wp_bind, wp_eng_self, wp_bind, wp_eng_disk. cbn [Engine.wal].
  eapply wp_append; [exact Hf| |]; cbn [f_data f_durable Wal.path].
  2: { intros x k w1 Hk Hw1 Hq1. apply HE; [by eapply logged_failed|].
       intros Hq. apply (Hq1 Hq), Hop. }
  intros w1 _ Hw1 Hq1. apply wp_bind, wp_eng_disk.
  eapply wp_sync; [by cbn [Wal.path]; rewrite Hw1, lookup_insert_eq| |]; cbn [f_data f_durable Wal.path].
  2: { intros x w2 Hw2 Hq2. apply HE; [|tauto]. eapply (logged_failed _ _ _ _ _ _ _ _ _ _ _ _ w _ op (op_bytes op));
       try done. congruence. }
  intros w2 Hw2 Hq2. apply wp_bind, wp_eng_modify.
  cbn [Engine.set_memtable Engine.options Engine.wal Engine.memtable Engine.immutable Engine.shared Engine.worker].
  rewrite <- replay_mem_snoc. apply wp_bind, wp_eng_self. cbn [Engine.options Engine.memtable].
  rewrite Hw1, insert_insert_eq in Hw2. rewrite <- (log_bytes_1 op), <- log_bytes_app in Hw2.
  pose proof (applied_ok _ _ _ _ _ _ _ _ _ _ _ _ _ _ op w2 Hok Hv Hop Hw2) as Hok2.
  case_if; [|apply wp_ret; eapply HQ; [exact Hok2|tauto]].
  eapply wp_flush; [done|exact Hok2|done| | |].
  - cbn. apply (eo_next _ _ _ _ _ _ _ Hok).
  - intros reg' e' w' Hok' Hq'. eapply HQ; [exact Hok'|tauto].
  - intros x e' w' [(reg' & shown & Hsh & Hrd) Hcr] Hq'. apply HE; [|tauto]. split.
    + exists reg', shown. split; [right; by destruct Hsh|done].
    + intros w3 Hc. right. by destruct (Hcr w3 Hc).
Qed.

End write_op.
