(* ===== verification/Compacting.v ===== *)
(** * Compaction in the engine: proofs

    [compact_begin] leaves an engine that is well formed with a compaction
    pending; writes and flushes keep it so; and [compact_finish] installs it
    without changing the map that the user sees. *)

From S2P Require Import Prelude Bytes Errors Collections Records World Wal Memtable.
From S2P Require Import Bloom Cache Format Names SsTables TableWrite TableRead Manifests Merge.
From S2P Require Import Compaction Versions Engine EngineInv Recovery EngineOps.

(** ** The manifest of the new version *)

Lemma retain_all_tables ids m :
  Manifest.tables (retain_all ids m) = base.filter (fun x => fst x ∉ ids) (Manifest.tables m).
Proof.
  revert m. induction ids as [|i ids IH]; intros m.
  { cbn. symmetry. apply filter_all, Forall_forall. intros x _. apply not_elem_of_nil. }
  change (retain_all (i :: ids) m) with (retain_all ids (Manifest.retain_other i m)). rewrite IH.
  cbn [Manifest.retain_other Manifest.tables]. generalize (Manifest.tables m). intros l.
  induction l as [|x l IHl]; [done|]. rewrite !filter_cons.
  destruct (decide (fst x <> i)) as [Hx|Hx].
  - rewrite filter_cons. destruct (decide (fst x ∉ ids)) as [Hi|Hi].
    + rewrite decide_True by (rewrite not_elem_of_cons; done). by rewrite IHl.
    + rewrite decide_False by (rewrite not_elem_of_cons; tauto). done.
  - rewrite decide_False by (rewrite not_elem_of_cons; tauto). done.
Qed.

Lemma retain_all_next ids m : Manifest.next_id (retain_all ids m) = Manifest.next_id m.
Proof. revert m. induction ids as [|i ids IH]; intros m; [done|]. by apply (IH (Manifest.retain_other i m)). Qed.

Lemma retain_all_level ids m i :
  level_ids (retain_all ids m) i = base.filter (fun x => x ∉ ids) (level_ids m i).
Proof.
  unfold level_ids. rewrite retain_all_tables, filter_comm.
  by rewrite <- (fmap_filter_comm fst (fun x => x ∉ ids)).
Qed.

Lemma push_table_level id lvl m i :
  level_ids (Manifest.push_table id lvl m) i =
  level_ids m i ++ (if decide (lvl = Z.of_nat i) then [id] else []).
Proof.
  unfold level_ids. cbn [Manifest.push_table Manifest.tables].
  rewrite filter_app, fmap_app, filter_cons. cbn [snd]. f_equal. by case_decide.
Qed.

(** ** The levels of the new version *)

Lemma apply_compaction_levels v job out v3 :
  apply_compaction v job out = Ok v3 ->
  0 < output_level job < len (Version.levels v) ->
  forall i l3, Version.levels v3 !! i = Some l3 ->
  exists l, Version.levels v !! i = Some l /\
    if decide (output_level job = Z.of_nat i)
    then l3 ≡ₚ base.filter (fun t => SsTable.id t ∉ SsTable.id <$> inputs job) l ++ [out]
    else l3 = base.filter (fun t => SsTable.id t ∉ SsTable.id <$> inputs job) l.
Proof.
  unfold apply_compaction. cbn zeta. intros Hap Hlvl i l3 Hl3.
  set (kept := _ <$> Version.levels v) in *.
  assert (len kept = len (Version.levels v)) as Hlen by apply len_fmap.
  replace (Z.to_nat (Z.min (output_level job) (Z.max 0 (len kept - 1)))) with
    (Z.to_nat (output_level job)) in Hap by lia.
  set (dest := Z.to_nat (output_level job)) in *.
  destruct (kept !! dest) as [level|] eqn:Ed; [|done]. cbn [or_panic] in Hap. revert Hap. rsimpl.
  replace (0 <? dest)%nat with true by (symmetry; apply Nat.ltb_lt; lia). intros [= <-].
  cbn [Version.levels] in Hl3. assert (dest < length kept)%nat as Hd by (by eapply lookup_lt_Some).
  case_decide as Hdec.
  - assert (i = dest) as -> by lia. rewrite list_lookup_insert_eq in Hl3 by done. injection Hl3 as <-.
    unfold kept in Ed. rewrite list_lookup_fmap in Ed.
    destruct (Version.levels v !! dest) as [l|]; [|done]. injection Ed as <-. exists l.
    split; [done|]. apply smallest_sort_perm.
  - rewrite list_lookup_insert_ne in Hl3 by lia. unfold kept in Hl3. rewrite list_lookup_fmap in Hl3.
    destruct (Version.levels v !! i) as [l|]; [|done]. injection Hl3 as <-. by exists l.
Qed.

Lemma job_level v o job :
  len (Version.levels v) = max_levels o -> 2 <= max_levels o -> pick_compaction v o = Some job ->
  0 < output_level job < max_levels o.
Proof.
  intros Hl Ho Hp. destruct (pick_compaction_shape v o job Hl Ho Hp) as (pre & post & xin & xrest & y & Hs).
  rewrite (js_output _ _ _ _ _ _ _ Hs). rewrite (js_levels _ _ _ _ _ _ _ Hs) in Hl.
  rewrite len_app, !len_cons in Hl. unfold len in Hl. lia.
Qed.

(** The inputs are tables of the version, each once. *)
Lemma pick_inputs_sub v o job :
  len (Version.levels v) = max_levels o -> 2 <= max_levels o -> pick_compaction v o = Some job ->
  inputs job ⊆+ concat (Version.levels v).
Proof.
  intros Hl Ho Hp. destruct (pick_compaction_shape v o job Hl Ho Hp) as (pre & post & xin & xrest & y & Hs).
  rewrite (js_inputs _ _ _ _ _ _ _ Hs), (js_levels _ _ _ _ _ _ _ Hs), concat_app. cbn [concat].
  apply submseteq_inserts_l. rewrite <- app_assoc. apply submseteq_app; [done|].
  apply submseteq_inserts_l. apply submseteq_inserts_r, sublist_submseteq, sublist_filter.
Qed.

Lemma total_len_submseteq r1 r2 : r1 ⊆+ r2 -> (total_len r1 <= total_len r2)%nat.
Proof.
  unfold total_len. induction 1; cbn; try lia.
Qed.

(** ** Planning and writing *)

(** The next id is allocated. *)
Lemma engine_ok_bump o reg n pend ops v m c le sk rd wk w db w1 recs1 :
  let m1 := Manifest.mk (Manifest.next_id m + 1) (Manifest.tables m) in
  engine_ok o reg n pend (eng o ops v m c le sk rd wk) w db -> Manifest.next_id m <= n ->
  Forall op_valid ops -> clean_log w WAL_FILE_NAME ops ->
  man_ok w1 m1 recs1 -> only_manifest w w1 ->
  engine_ok o reg n pend (eng o ops v m1 c le sk rd wk) w1 db.
Proof.
  intros m1 [? ? ? ? Hd ? _ _ ? Hnx Hp Hdb] Hn Hv [Hf Hl] Hm1 Hw1.
  assert (forall i, w_files w1 !! table_file_name i = w_files w !! table_file_name i) as Hk.
  { intros i. apply Hw1, table_neq_manifest. }
  split; try done; cbn in *.
  - eapply disk_ok_mono; [|done]. apply (disk_ok_next _ _ m); [done|done|cbn; lia].
  - by exists recs1.
  - exists ops. split_and!; [done| |done]. split; [done|]. by rewrite Hw1.
  - lia.
  - destruct pend as [p|]; [|done]. destruct Hp. split; try done. by eapply stored_mono.
Qed.

(** Files that no table, log or manifest uses. *)
Lemma engine_ok_frame o reg n pend e w w' db id :
  engine_ok o reg n pend e w db -> reg !! id = None -> 0 <= id ->
  (forall p, p <> table_file_name id -> p <> tmp_path (table_file_name id) ->
     w_files w' !! p = w_files w !! p) ->
  engine_ok o reg n pend e w' db.
Proof.
  intros [? ? ? ? Hd ? [recs [Hr Hmf Hm]] (ops & Hv & [Hf Hl] & Hmem) ? ? Hp ?] Hid H0 Hw'.
  assert (forall i, is_Some (reg !! i) ->
    w_files w' !! table_file_name i = w_files w !! table_file_name i) as Hk.
  { intros i Hi. apply Hw'; [|apply table_neq_tmp]. intros E.
    pose proof (dk_ids _ _ _ _ Hd i Hi). apply table_file_name_inj in E; [|lia|lia]. subst i.
    rewrite Hid in Hi. by destruct Hi. }
  split; try done.
  - by eapply disk_ok_files.
  - exists recs. split; [done| |done]. rewrite Hw'; [done| |].
    + intros E. by eapply table_neq_manifest.
    + intros E. by eapply tmp_neq_manifest.
  - exists ops. split_and!; [done| |done]. split; [done|]. rewrite Hw'; [done| |].
    + intros E. by eapply table_neq_wal.
    + intros E. by eapply tmp_neq_wal.
  - destruct pend as [p|]; [|done]. destruct Hp as [? ? ? ? Hs ?]. split; try done.
    eapply stored_mono; [done|done|]. apply Hk. destruct Hs as [_ _ (bs & ? & _) _]. by eexists.
Qed.

(** The layers do not depend on ids that are not in use. *)
Lemma layers_extend reg reg' e w :
  reg ⊆ reg' -> Forall (stored reg w) (concat (Version.levels (s_version (Engine.shared e)))) ->
  layers reg' e = layers reg e.
Proof.
  intros Hsub Hs. unfold layers. rewrite (runs_of_ext (table_run reg) (table_run reg')); [done|].
  intros t Ht. eapply table_run_mono; [done|]. by apply (proj1 (Forall_forall _ _) Hs).
Qed.

Lemma engine_ok_register o reg n e w db id bs :
  engine_ok o reg n None e w db -> reg !! id = None ->
  0 <= id < Manifest.next_id (s_manifest (Engine.shared e)) ->
  engine_ok o (<[id := bs]> reg) n None e w db.
Proof.
  intros [? ? ? ? Hd Hc ? ? Hsz ? _ Hdb] Hid Hlt.
  assert (reg ⊆ <[id := bs]> reg) as Hsub by (by apply insert_subseteq).
  assert (layers (<[id := bs]> reg) e = layers reg e) as El by (eapply layers_extend; [done|apply Hd]).
  split; try done.
  - by apply disk_ok_extend.
  - by eapply coherent_mono.
  - by rewrite El.
  - intros k. by rewrite El.
Qed.

Lemma stored_blocks reg w ts :
  Forall (stored reg w) ts ->
  exists bss, Forall2 (table_ok w) ts bss /\ run_of <$> bss = runs_of (table_run reg) ts.
Proof.
  induction 1 as [|t ts Ht Hts (bss & H1 & H2)]; [by exists []|].
  pose proof Ht as [_ _ (bs & Hr & Hok) _]. exists (bs :: bss). split; [by constructor|].
  rewrite fmap_cons, H2, runs_of_cons. by rewrite (table_run_eq _ _ _ Hr).
Qed.

Section begin.
Context `{Libm} (o : Options) (reg : registry) (n : Z).
Context (ops : list Operation) (v : Version.t) (m : Manifest.t) (c : BlockCache.t).
Context (le : option string) (sk rd : Z) (wk : CompactionWorker.t) (w : World) (db : gmap bytes bytes).
Hypothesis Ho : options_ok o.
Hypothesis Hok : engine_ok o reg n None (eng o ops v m c le sk rd wk) w db.
Hypothesis Hn : n < 2 ^ 30.
Hypothesis Hid : Manifest.next_id m <= n.
Hypothesis Hv : Forall op_valid ops.
Hypothesis Hlog : clean_log w WAL_FILE_NAME ops.
Context (job : CompactionJob).
Hypothesis Hjob : pick_compaction v o = Some job.
Abbreviation id := (Manifest.next_id m).
Abbreviation m1 := (Manifest.mk (id + 1) (Manifest.tables m)).
Abbreviation d := (drop_tombstones v o job).

Lemma begin_levels : len (Version.levels v) = max_levels o.
Proof using Hok. apply (eo_levels _ _ _ _ _ _ _ Hok). Qed.

Lemma begin_inputs t : t ∈ inputs job -> stored reg w t.
Proof using Ho Hok Hjob.
  intros Ht. apply (proj1 (Forall_forall _ _) (dk_stored _ _ _ _ (eo_disk _ _ _ _ _ _ _ Hok))).
  eapply pick_inputs; [apply begin_levels|apply Ho|done|done].
Qed.

Lemma begin_size : Z.of_nat (total_len (runs_of (table_run reg) (inputs job))) <= n.
Proof using Ho Hok Hjob.
  pose proof (eo_size _ _ _ _ _ _ _ Hok) as Hs. unfold layers in Hs. rewrite total_len_cons in Hs.
  cbn [Engine.immutable app Engine.shared s_version] in Hs.
  assert (total_len (runs_of (table_run reg) (inputs job)) <=
    total_len (runs_of (table_run reg) (concat (Version.levels v))))%nat; [|lia].
  apply total_len_submseteq, fmap_submseteq. eapply pick_inputs_sub; [apply begin_levels|apply Ho|done].
Qed.

(** The output is written; the plan is pending. *)
Lemma begin_pending bs f w1 w2 :
  engine_ok o reg n None (eng o ops v m1 c le sk rd wk) w1 db ->
  is_merge d (runs_of (table_run reg) (inputs job)) (run_of bs) -> table_wf bs f ->
  published (table_file_name id) bs f w1 w2 ->
  engine_ok o (<[id := bs]> reg) n
    (Some (mkPending v job (SsTable.set_level (output_level job) (table_of (table_file_name id) id bs f))))
    (eng o ops v m1 c le sk rd wk) w2 db.
Proof using Ho Hok Hjob.
  intros Hok1 Hm Hwf Hp. pose proof (eo_next _ _ _ _ _ _ _ Hok) as Hnx. cbn in Hnx.
  assert (reg !! id = None) as Hfresh by (eapply disk_ok_fresh, Hok).
  assert (engine_ok o (<[id := bs]> reg) n None (eng o ops v m1 c le sk rd wk) w2 db) as Hok2.
  { apply engine_ok_register; [|done|cbn; lia]. eapply engine_ok_frame; [exact Hok1|done|lia|].
    intros p H1 H2. unfold published in Hp. by rewrite Hp, lookup_insert_ne, lookup_delete_ne. }
  assert (reg ⊆ <[id := bs]> reg) as Hsub by (by apply insert_subseteq).
  assert (forall t, t ∈ inputs job -> table_run (<[id := bs]> reg) t = table_run reg t) as Hrun.
  { intros t Ht. eapply table_run_mono; [done|by apply begin_inputs]. }
  pose proof (disk_ok_unlisted _ _ _ _ id (eo_disk _ _ _ _ _ _ _ Hok) Hfresh) as [Hun _].
  destruct Hok2. split; try done. split; cbn [p_version p_job p_output].
  - apply begin_levels.
  - done.
  - exists []. cbn. by destruct (Version.levels v).
  - rewrite (runs_of_ext (table_run reg)) by done. unfold table_run at 2, id_run.
    cbn [SsTable.set_level SsTable.id table_of]. rewrite lookup_insert_eq. exact Hm.
  - apply opened_stored; [lia|apply lookup_insert_eq|done| |].
    + apply Forall_forall. intros x Hx. destruct (merge_entry _ _ _ x Hm Hx) as (r & Hr & Hxr).
      apply list_elem_of_fmap in Hr as (t & -> & Ht).
      apply (proj1 (Forall_forall _ _) (st_keys _ _ _ (begin_inputs t Ht)) x Hxr).
    + unfold published in Hp. by rewrite Hp, lookup_insert_eq.
  - exact Hun.
Qed.

End begin.

(** The manifest cannot record the id of the output. *)
Lemma begin_id_failed o reg n ops v m c le sk rd wk w db recs m' w1 :
  2 <= max_levels o -> engine_ok o reg n None (eng o ops v m c le sk rd wk) w db ->
  Forall op_valid ops -> clean_log w WAL_FILE_NAME ops ->
  man_failed w1 m' m recs (SetNextTableId (Manifest.next_id m + 1)) -> only_manifest w w1 ->
  failed_op o db db (eng o ops v m' c le sk rd wk) w1.
Proof.
  intros Ho2 Hok Hv Hl Hf Hw1.
  assert (disk_ok reg w1 m v) as Hd.
  { eapply disk_ok_mono; [apply Hok|]. intros i. apply Hw1, table_neq_manifest. }
  pose proof (engine_ok_shows _ _ _ _ _ _ _ _ _ _ _ _ _ _ Hok) as Hs. split.
  - exists reg, db. split; [by left|]. split; [apply Hd|apply (eo_cache _ _ _ _ _ _ _ Hok)|].
    apply (eo_db _ _ _ _ _ _ _ Hok).
  - intros w2 Hc. left. destruct (crash_man_torn _ _ _ _ _ _ Hf Hc) as (m2 & Ha & Hi). injection Ha as <-.
    assert (log_image w2 ops) as Hli.
    { eapply crash_log_clean; [done| |done]. destruct Hl as [? Hlf]. split; [done|]. by rewrite Hw1. }
    destruct Hi as [Hi|Hi]; (eapply recovers_from; [done|done| |apply (eo_levels _ _ _ _ _ _ _ Hok)|
      exact Hi|exact Hli|exact Hs]); [done|]. apply (disk_ok_next _ _ m); [done|done|cbn; lia].
Qed.

Lemma wp_compact_begin `{Libm} o reg n e w db (Q : option Pending -> Engine.EW -> Prop) E :
  options_ok o -> engine_ok o reg n None e w db -> n < 2 ^ 30 ->
  Manifest.next_id (s_manifest (Engine.shared e)) <= n ->
  (forall p reg' e' w', engine_ok o reg' n p e' w' db -> (quiet w -> quiet w') -> Q p (e', w')) ->
  (forall x e' w', failed_op o db db e' w' -> ~ quiet w -> E x (e', w')) ->
  wp (Engine.on_shared compact_begin) Q E (e, w).
Proof.
  intros Ho Hok Hn Hid HQ HE. assert (2 <= max_levels o) as Ho2 by apply Ho.
  destruct (engine_ok_shape _ _ _ _ _ _ _ Hok) as (ops & v & m & c & le & sk & rd & wk & -> & Hv & Hl).
  cbn [Engine.shared s_manifest] in Hid.
  pose proof (eo_next _ _ _ _ _ _ _ Hok) as Hnx. cbn in Hnx.
  apply wp_eng_shared. unfold compact_begin. apply wp_bind, wp_shared_self.
  cbn [Engine.shared s_options s_version].
  destruct (pick_compaction v o) as [job|] eqn:Hjob.
  2: { apply wp_ret. eapply HQ; [exact Hok|done]. }
  assert (wrap64 (Manifest.next_id m + 1) = Manifest.next_id m + 1) as Hwrap
    by (rewrite ?wrap64_mod; rewrite Z.mod_small; lia).
  destruct (eo_manifest _ _ _ _ _ _ _ Hok) as [recs Hm].
  apply wp_bind, wp_with_manifest. cbn [s_manifest].
  eapply wp_next_table_id; [exact Hm|..]; rewrite Hwrap; cbn [fst snd].
  2: { intros x w1 Hf Hw1 Hq1. apply HE; [|done]. by eapply begin_id_failed. }
  intros w1 Hm1 Hw1 Hq1.
  pose proof (engine_ok_bump _ _ _ _ _ _ _ _ _ _ _ _ _ _ w1 _ Hok Hid Hv Hl Hm1 Hw1) as Hok1.
  apply wp_bind, wp_on_files.
  destruct (stored_blocks reg w1 (inputs job)) as (bss & Hbss & Hruns).
  { apply Forall_forall. intros t Ht. eapply (stored_mono reg reg w w1); [by eapply begin_inputs|done|].
    apply Hw1, table_neq_manifest. }
  eapply (wp_compact w1 (inputs job) bss); [done| |apply Ho|apply Ho| | |].
  - rewrite Hruns. pose proof (begin_size o reg n ops v m c le sk rd wk w db Ho Hok job Hjob). lia.
  - intros bs f w2 Hmg Hwf Hp Hq2. rewrite Hruns in Hmg. apply wp_ret. cbn [fst snd].
    eapply HQ; [|tauto]. by eapply begin_pending.
  - intros x out w2 _ Hcf Hq2. cbn [fst snd]. apply HE; [|tauto]. eapply engine_ok_failed; [done|].
    eapply (engine_ok_frame _ _ _ _ _ w1 _ _ (Manifest.next_id m)); [exact Hok1|eapply disk_ok_fresh, Hok|lia|].
    intros p H1 H2. destruct Hcf as [Hsame|(bs & f & _ & _ & Hp)]; [by apply Hsame|].
    unfold published in Hp. by rewrite Hp, lookup_insert_ne, lookup_delete_ne.
  - intros x w2 Hw2 Hq2. cbn [fst snd]. apply HE; [|tauto]. eapply engine_ok_failed; [done|].
    by eapply engine_ok_files.
Qed.

(** ** Installing *)

(** The source files are never removed: the plan still holds every input. *)
Lemma references_pos t l : t ∈ l -> 1 <= references t l.
Proof.
  intros Ht. unfold references.
  assert (t ∈ base.filter (fun u => SsTable.id u = SsTable.id t) l) as Hf by (by apply list_elem_of_filter).
  destruct (base.filter _ l) as [|u us]; [by apply not_elem_of_nil in Hf|len_lia].
Qed.

Lemma references_nonneg t l : 0 <= references t l.
Proof. apply len_nonneg. Qed.

Lemma remove_inputs_noop version tables sw :
  (forall t, t ∈ tables -> t ∈ concat (Version.levels version)) ->
  remove_inputs version tables sw = (Ok tt, sw).
Proof.
  revert sw. induction tables as [|t ts IH]; intros [s w] Hin; [done|]. cbn [remove_inputs].
  unfold mbind at 1, shared_self. cbn [fst].
  pose proof (references_pos t (t :: ts) ltac:(by left)).
  pose proof (references_pos t (concat (Version.levels version)) ltac:(apply Hin; by left)).
  pose proof (references_nonneg t (concat (Version.levels (s_version s)))).
  case_if; [lia|]. unfold mbind, mret. apply IH. intros u Hu. apply Hin. by right.
Qed.

Section finish.
Context `{Libm} (o : Options) (reg : registry) (n : Z) (p : Pending).
Context (ops : list Operation) (v : Version.t) (m : Manifest.t) (c : BlockCache.t).
Context (le : option string) (sk rd : Z) (wk : CompactionWorker.t) (w : World) (db : gmap bytes bytes).
Hypothesis Ho : options_ok o.
Hypothesis Hok : engine_ok o reg n (Some p) (eng o ops v m c le sk rd wk) w db.
Abbreviation run := (table_run reg).
Abbreviation out := (p_output p).
Abbreviation ids := (SsTable.id <$> inputs (p_job p)).
Abbreviation lvl := (output_level (p_job p)).
Abbreviation m2 := (Manifest.push_table (SsTable.id out) lvl m).
Abbreviation m3 := (retain_all ids m2).

Lemma finish_pending : pending_ok o reg w v p.
Proof using Hok. apply (eo_pend _ _ _ _ _ _ _ Hok). Qed.

Lemma finish_disk : disk_ok reg w m v.
Proof using Hok. apply (eo_disk _ _ _ _ _ _ _ Hok). Qed.

Lemma finish_input t : t ∈ inputs (p_job p) -> t ∈ concat (Version.levels v).
Proof using Ho Hok. intros Ht. eapply pending_input; [apply Ho|apply finish_pending|done]. Qed.

Lemma finish_installs : installs run (p_version p) v o (p_job p) out.
Proof using Ho Hok.
  pose proof finish_pending as [Hl Hj Hlat Hm Hs Hf].
  split; [done|apply Ho|done|done|apply finish_disk|done|by eapply stored_described|done].
Qed.

Lemma finish_level : 0 < lvl < max_levels o.
Proof using Ho Hok.
  pose proof finish_pending as [Hl Hj _ _ _ _]. eapply job_level; [done|apply Ho|done].
Qed.

Lemma out_not_input : SsTable.id out ∉ ids.
Proof using Ho Hok.
  intros (t & E & Ht)%list_elem_of_fmap. apply (pe_fresh _ _ _ _ _ finish_pending). rewrite E.
  by apply list_elem_of_fmap_2, finish_input.
Qed.

Lemma finish_matches v3 :
  apply_compaction v (p_job p) out = Ok v3 ->
  len (Version.levels v3) = len (Version.levels v) ->
  concat (Version.levels v3) ≡ₚ
    out :: base.filter (fun t => SsTable.id t ∉ ids) (concat (Version.levels v)) ->
  matches m3 v3.
Proof using Ho Hok.
  intros Hap Hlen Hperm. pose proof finish_level as Hlvl. pose proof out_not_input as Hout.
  pose proof (dk_matches _ _ _ _ finish_disk) as [H0 Hl Ha Hr].
  assert (forall i l3, Version.levels v3 !! i = Some l3 -> exists l, Version.levels v !! i = Some l /\
    if decide (lvl = Z.of_nat i)
    then l3 ≡ₚ base.filter (fun t => SsTable.id t ∉ ids) l ++ [out]
    else l3 = base.filter (fun t => SsTable.id t ∉ ids) l) as Hlev.
  { apply apply_compaction_levels; [done|]. pose proof (eo_levels _ _ _ _ _ _ _ Hok) as E.
    cbn in E. rewrite E. done. }
  assert (forall i, level_ids m3 i = base.filter (fun x => x ∉ ids) (level_ids m i) ++
    (if decide (lvl = Z.of_nat i) then [SsTable.id out] else [])) as Hids.
  { intros i. rewrite retain_all_level, push_table_level, filter_app. f_equal.
    case_decide; [|done]. rewrite filter_cons. by rewrite decide_True. }
  split.
  - intros l3 Hl3. destruct (Hlev _ _ Hl3) as (l & Hl0 & E). rewrite decide_False in E by lia. subst l3.
    rewrite Hids, decide_False, app_nil_r by lia.
    rewrite (fmap_filter_comm SsTable.id (fun x => x ∉ ids)), (H0 l Hl0). apply filter_reverse.
  - intros i l3 Hl3 Hi. destruct (Hlev _ _ Hl3) as (l & Hl0 & E). rewrite Hids.
    case_decide; [rewrite E, fmap_app|subst l3; rewrite app_nil_r];
      by rewrite (fmap_filter_comm SsTable.id (fun x => x ∉ ids)), (Hl i l Hl0 Hi).
  - rewrite Hperm, fmap_cons, (fmap_filter_comm SsTable.id (fun x => x ∉ ids)), Ha, retain_all_tables.
    cbn [Manifest.push_table Manifest.tables].
    rewrite (fmap_filter_comm fst (fun x => x ∉ ids)), fmap_app, filter_app.
    change (fst <$> [(SsTable.id out, lvl)]) with [SsTable.id out].
    rewrite filter_cons, decide_True by done. apply Permutation_cons_append.
  - rewrite retain_all_tables. apply Forall_forall. intros x [_ Hx]%list_elem_of_filter.
    cbn [Manifest.push_table Manifest.tables] in Hx. rewrite Hlen.
    apply elem_of_app in Hx as [Hx|Hx]; [by apply (proj1 (Forall_forall _ _) Hr)|].
    apply list_elem_of_singleton in Hx as ->. cbn [snd]. pose proof (eo_levels _ _ _ _ _ _ _ Hok) as E. cbn in E. rewrite E. lia.
Qed.

(** The output is not larger than what it replaces. *)
Lemma finish_size v3 :
  concat (Version.levels v3) ≡ₚ
    out :: base.filter (fun t => SsTable.id t ∉ ids) (concat (Version.levels v)) ->
  (total_len (runs_of run (concat (Version.levels v3))) <=
   total_len (runs_of run (concat (Version.levels v))))%nat.
Proof using Ho Hok.
  intros Hperm. pose proof finish_pending as [Hl Hj [extra Hlat] Hm _ _].
  etrans; [apply total_len_submseteq, Permutation_submseteq, fmap_Permutation, Hperm|].
  fold (runs_of run). rewrite runs_of_cons, total_len_cons. pose proof (merge_len _ _ _ Hm) as Hle.
  assert (inputs (p_job p) ++ base.filter (fun t => SsTable.id t ∉ ids) (concat (Version.levels v)) ⊆+
    concat (Version.levels v)) as Hsub.
  { pose proof (NoDup_fmap_1 _ _ (v_nodup _ _ (dk_version _ _ _ _ finish_disk))) as Hn.
    apply NoDup_submseteq.
    - apply NoDup_app. split_and!.
      + assert (inputs (p_job p) ⊆+ concat (Version.levels v)) as Hs.
        { etrans; [eapply pick_inputs_sub; [done|apply Ho|done]|]. rewrite Hlat.
          destruct (Version.levels (p_version p)); [done|]. cbn [push_l0 concat].
          rewrite <- app_assoc. by apply submseteq_inserts_l. }
        apply submseteq_Permutation in Hs as [k Hk]. rewrite Hk in Hn. by apply NoDup_app in Hn as [? _].
      + intros t Ht [Hnot _]%list_elem_of_filter. by apply Hnot, list_elem_of_fmap_2.
      + by apply NoDup_filter.
    - intros t [Ht|Ht]%elem_of_app; [by apply finish_input|].
      by apply list_elem_of_filter in Ht as [_ Ht]. }
  apply (fmap_submseteq run), total_len_submseteq in Hsub. rewrite fmap_app, total_len_app in Hsub.
  unfold runs_of in *. lia.
Qed.

(** The engine after the compaction. *)
Lemma finish_ok w2 recs3 :
  only_manifest w w2 -> man_ok w2 m3 recs3 ->
  exists v3, apply_compaction v (p_job p) out = Ok v3 /\
    engine_ok o reg n None (eng o ops v3 m3 c le sk rd wk) w2 db.
Proof using Ho Hok.
  intros Hw2 Hm3. destruct (apply_compaction_sound run _ _ _ _ _ finish_installs)
    as (v3 & Hap & Hv3 & Hlen & Hperm & Hview).
  exists v3. split; [done|]. pose proof finish_disk as Hd. pose proof finish_pending as Hp.
  pose proof (engine_ok_shows _ _ _ _ _ _ _ _ _ _ _ _ _ _ Hok) as Hs.
  pose proof (finish_matches v3 Hap Hlen Hperm) as Hma. pose proof (finish_size v3 Hperm) as Hsz3.
  assert (forall i, w_files w2 !! table_file_name i = w_files w !! table_file_name i) as Hk.
  { intros i. apply Hw2, table_neq_manifest. }
  assert (Forall (stored reg w2) (concat (Version.levels v3))) as Hst.
  { rewrite Hperm. apply Forall_cons. split; [eapply stored_mono; [apply Hp|done|apply Hk]|].
    apply Forall_forall. intros t [_ Ht]%list_elem_of_filter.
    eapply stored_mono; [by apply (proj1 (Forall_forall _ _) (dk_stored _ _ _ _ Hd))|done|apply Hk]. }
  destruct Hok as [? ? ? Hl _ ? _ (ops' & Hv & [Hf Hlf] & Hmem) Hsz Hnx _ Hdb].
  split; try done; cbn [Engine.shared s_version s_manifest Engine.memtable] in *.
  - by rewrite Hlen.
  - split; [done|done|done|]. intros id Hid. rewrite retain_all_next. cbn. by apply (dk_ids _ _ _ _ Hd).
  - by exists recs3.
  - exists ops'. split_and!; [done| |done]. split; [done|]. by rewrite Hw2.
  - unfold layers in *. cbn [Engine.memtable Engine.immutable Engine.shared s_version app] in *.
    rewrite total_len_cons in *. lia.
  - rewrite retain_all_next. done.
  - intros k. rewrite (Hs k). unfold layers, newest in *. cbn [Engine.memtable Engine.immutable
      Engine.shared s_version first_some app]. destruct (alookup _ k); [done|].
    specialize (Hview k). unfold view in Hview. rewrite !tables_newest_first_concat in Hview. done.
Qed.

(** The records of the compaction in the manifest. *)
Lemma wp_finish_record (Q : unit -> Manifest.t * World -> Prop) E :
  n < 2 ^ 30 ->
  (forall w2 recs3, only_manifest w w2 -> man_ok w2 m3 recs3 -> (quiet w -> quiet w2) -> Q tt (m3, w2)) ->
  (forall x m' w', only_manifest w w' -> ~ quiet w -> E x (m', w')) ->
  wp (let! _ := Manifest.add_table (SsTable.id out) (wrap32 lvl) in Manifest.remove_tables ids) Q E (m, w).
Proof using Ho Hok.
  intros Hn HQ HE. pose proof finish_level as Hlvl. pose proof (oo_levels _ Ho) as Ho2.
  pose proof finish_disk as Hd. pose proof finish_pending as Hp.
  pose proof (eo_next _ _ _ _ _ _ _ Hok) as Hnx. cbn in Hnx.
  assert (forall id, is_Some (reg !! id) -> u64 id) as Hu64.
  { intros id Hid. pose proof (dk_ids _ _ _ _ Hd id Hid). unfold u64. lia. }
  destruct (eo_manifest _ _ _ _ _ _ _ Hok) as [recs Hm]. cbn in Hm.
  replace (wrap32 lvl) with lvl by (unfold wrap32; rewrite Z.mod_small; lia). apply wp_bind.
  destruct (pe_stored _ _ _ _ _ Hp) as [_ _ (bs & Hbs & _) _].
  assert (Manifest.has_table (SsTable.id out) m = false) as Hnot.
  { eapply matches_unlisted; [apply Hd|]. apply (pe_fresh _ _ _ _ _ Hp). }
  eapply wp_add_table; [exact Hm|by apply Hu64; eexists|lia|done| |by intros; apply HE].
  intros w1 Hm1 Hw1 Hq1. eapply wp_remove_tables; [exact Hm1| | |].
  - apply Forall_fmap, Forall_forall. intros t Ht. apply Hu64. eapply disk_ok_table_id; [exact Hd|].
    by apply finish_input.
  - intros w2 Hm2 Hw2 Hq2. eapply HQ; [|exact Hm2|tauto]. intros q Hq. by rewrite Hw2, Hw1.
  - intros x w2 ids1 id ids2 _ _ Hw2 Hq2. apply HE; [|tauto]. intros q Hq. by rewrite Hw2, Hw1.
Qed.

Lemma wp_finish (Q : unit -> Engine.EW -> Prop) E :
  n < 2 ^ 30 ->
  (forall e' w', engine_ok o reg n None e' w' db -> (quiet w -> quiet w') -> Q tt (e', w')) ->
  (forall x e' w', readable reg e' w' db -> ~ quiet w -> E x (e', w')) ->
  wp (Engine.on_shared (compact_finish p)) Q E (eng o ops v m c le sk rd wk, w).
Proof using Ho Hok.
  intros Hn HQ HE. apply wp_eng_shared. unfold compact_finish.
  apply wp_bind, wp_with_manifest. cbn [Engine.shared s_manifest]. apply wp_finish_record; [done| |].
  - intros w2 recs3 Hw Hm2 Hq2. cbn [fst snd]. destruct (finish_ok w2 _ Hw Hm2) as (v3 & Hap & Hok3).
    apply wp_bind, wp_shared_self. cbn [set_manifest s_version]. rewrite Hap.
    apply wp_bind, wp_ret, wp_bind, wp_shared_modify. unfold wp. rewrite remove_inputs_noop.
    + cbn [fst snd]. apply HQ; [exact Hok3|done].
    + intros t Ht. destruct finish_pending as [Hl Hj _ _ _ _]. eapply pick_inputs; [done|apply Ho|done|done].
  - intros x m' w' Hw' Hq'. cbn [fst snd]. apply HE; [|done].
    split; [|apply (eo_cache _ _ _ _ _ _ _ Hok)|apply (eo_db _ _ _ _ _ _ _ Hok)].
    eapply Forall_impl; [apply (dk_stored _ _ _ _ finish_disk)|]. intros t Ht.
    eapply stored_mono; [exact Ht|done|]. apply Hw', table_neq_manifest.
Qed.

End finish.

Lemma wp_compact_finish `{Libm} o reg n p e w db (Q : unit -> Engine.EW -> Prop) E :
  options_ok o -> engine_ok o reg n (Some p) e w db -> n < 2 ^ 30 ->
  (forall e' w', engine_ok o reg n None e' w' db -> (quiet w -> quiet w') -> Q tt (e', w')) ->
  (forall x e' w', readable reg e' w' db -> ~ quiet w -> E x (e', w')) ->
  wp (Engine.on_shared (compact_finish p)) Q E (e, w).
Proof.
  intros Ho Hok Hn HQ HE.
  destruct (engine_ok_shape _ _ _ _ _ _ _ Hok) as (ops & v & m & c & le & sk & rd & wk & -> & _ & _).
  by eapply wp_finish.
Qed.
