(* ===== verification/EngineProps.v ===== *)
(** * The engine: properties

    [step] is one step of a database: a call of the API that returns [Ok], half
    of a background compaction, or a crash followed by a restart.  The map that
    the user sees is the reference; the theorems say that the engine answers as
    the map in every reachable state, what an error leaves behind, and that
    nothing fails when the file system does not. *)

From S2P Require Import Prelude Bytes Errors Collections Records World Wal Memtable.
From S2P Require Import Bloom Cache Format Names SsTables TableWrite TableRead Manifests Merge.
From S2P Require Import Compaction Versions Engine EngineInv Recovery EngineOps Compacting.

(** ** Opening gives a well-formed engine *)

(** A file of this content, or no file when there is nothing in it. *)
Definition clean_file (w : World) (p : string) (bs : bytes) : Prop :=
  match w_files w !! p with Some f => f = mkFile bs bs | None => bs = [] end.

Lemma wp_open_clean o reg n m v ops recs db w (Q : Engine.t -> World -> Prop) E :
  2 <= max_levels o -> quiet w -> disk_ok reg w m v -> len (Version.levels v) = max_levels o ->
  Forall rec_ok recs -> Manifests.replay recs (Manifest.mk 1 []) = (Ok tt, m) ->
  clean_file w MANIFEST_NAME (man_bytes recs) ->
  Forall op_valid ops -> clean_file w WAL_FILE_NAME (log_bytes ops) ->
  (w_files w !! MANIFEST_NAME = None -> m = Manifest.mk 1 []) ->
  (w_files w !! WAL_FILE_NAME = None -> ops = []) ->
  Z.of_nat (total_len (MemTable.entries (replay_mem ops) ::
    runs_of (table_run reg) (concat (Version.levels v)))) <= n ->
  1 <= Manifest.next_id m <= n + 1 -> shows reg ops v db ->
  (forall e w', engine_ok o reg n None e w' db -> quiet w' -> Q e w') ->
  wp (Engine.open_with o) Q E w.
Proof.
  intros Ho Hq Hd Hl Hrecs Hrep Hmf Hops Hlf Hm0 Hl0 Hsz Hnx Hs HQ. unfold clean_file in *.
  assert (image o reg w m v ops) as Him.
  { split; [| |done|done].
    - unfold man_image. destruct (w_files w !! MANIFEST_NAME) as [f|]; [|by apply Hm0]. subst f.
      exists recs, []. split_and!; [by rewrite app_nil_r|done|done|done].
    - split; [done|]. destruct (w_files w !! WAL_FILE_NAME) as [f|]; [|by apply Hl0]. subst f.
      exists []. split; [by rewrite app_nil_r|apply torn_nil]. }
  eapply wp_open_with; [exact Him|done|done|].
  intros v2 w' Hd2 Hl2 Hview Hperm Hq' Hw'. apply HQ; [|done].
  split; try done; cbn [opened Engine.shared s_version s_manifest s_cache].
  - exists recs. split; [done| |done]. unfold touched in Hw'. rewrite Hw'.
    destruct (w_files w !! WAL_FILE_NAME) as [g|]; [|rewrite lookup_insert_ne by done];
      destruct (w_files w !! MANIFEST_NAME) as [f|] eqn:Ef;
      rewrite ?lookup_insert_eq, ?Ef; by rewrite Hmf.
  - exists ops. split_and!; [done| |done]. split; [by apply op_valid_fits|]. unfold touched in Hw'.
    rewrite Hw'. destruct (w_files w !! WAL_FILE_NAME) as [f|] eqn:Ef; [|by rewrite lookup_insert_eq, Hlf].
    destruct (w_files w !! MANIFEST_NAME); [|rewrite lookup_insert_ne by done]; by rewrite Ef, Hlf.
  - etrans; [|exact Hsz]. unfold layers. cbn [opened Engine.memtable Engine.immutable Engine.shared s_version app].
    rewrite !total_len_cons. apply inj_le. apply Nat.add_le_mono_l.
    by apply total_len_submseteq, Permutation_submseteq.
  - intros k. rewrite (Hs k). unfold layers, newest in *.
    cbn [opened Engine.memtable Engine.immutable Engine.shared s_version first_some app]. by rewrite Hview.
Qed.

Lemma wp_open_crash o reg n pend e w db w2 (Q : Engine.t -> World -> Prop) E :
  2 <= max_levels o -> engine_ok o reg n pend e w db -> crashed w w2 ->
  (forall e2 w3, engine_ok o reg n None e2 w3 db -> quiet w3 -> Q e2 w3) ->
  wp (Engine.open_with o) Q E w2.
Proof.
  intros Ho Hok Hc HQ.
  destruct (engine_ok_shape _ _ _ _ _ _ _ Hok) as (ops & v & m & c & le & sk & rd & wk & -> & Hv & Hl).
  destruct (eo_manifest _ _ _ _ _ _ _ Hok) as [recs Hm]. pose proof Hm as [Hr _ Hrep].
  destruct (crash_man_clean _ _ _ _ Hm Hc) as [_ Hmf _]. destruct Hl as [_ Hlf].
  pose proof (crashed_synced _ _ _ _ Hc Hlf) as Hlf2.
  assert (quiet w2) as Hq by (by destruct Hc as (? & ? & _)).
  eapply (wp_open_clean o reg n m v ops recs db); try done.
  - eapply disk_ok_crash; [apply (eo_disk _ _ _ _ _ _ _ Hok)|done].
  - apply (eo_levels _ _ _ _ _ _ _ Hok).
  - unfold clean_file. by rewrite Hmf.
  - unfold clean_file. by rewrite Hlf2.
  - by rewrite Hmf.
  - by rewrite Hlf2.
  - apply (eo_size _ _ _ _ _ _ _ Hok).
  - apply (eo_next _ _ _ _ _ _ _ Hok).
  - by eapply engine_ok_shows.
Qed.

(** A directory without a database. *)
Definition fresh_dir (w : World) : Prop :=
  quiet w /\ w_files w !! MANIFEST_NAME = None /\ w_files w !! WAL_FILE_NAME = None.

Lemma empty_levels k : concat (replicate k (@nil SsTable.t)) = [].
Proof. by induction k. Qed.

Lemma wp_open_fresh o w (Q : Engine.t -> World -> Prop) E :
  2 <= max_levels o -> fresh_dir w ->
  (forall e w', engine_ok o ∅ 0 None e w' ∅ -> quiet w' -> Q e w') -> wp (Engine.open_with o) Q E w.
Proof.
  intros Ho (Hq & Hm & Hl) HQ. set (v := Version.with_max_levels (max_levels o)).
  assert (concat (Version.levels v) = []) as Hc by apply empty_levels.
  assert (forall i l, Version.levels v !! i = Some l -> l = []) as Hlev.
  { intros i l Hi. by apply lookup_replicate in Hi as [-> _]. }
  eapply (wp_open_clean o ∅ 0 (Manifest.mk 1 []) v [] [] ∅); try done.
  - split.
    + split; [rewrite Hc; set_solver|rewrite Hc; constructor|]. intros i l ->%Hlev _ t1 t2 H1. set_solver.
    + by rewrite Hc.
    + split; [by intros l ->%Hlev|by intros i l ->%Hlev|by rewrite Hc|constructor].
    + intros id [bs Hb]. by rewrite lookup_empty in Hb.
  - cbn. rewrite len_replicate. lia.
  - unfold clean_file. by rewrite Hm.
  - unfold clean_file. by rewrite Hl.
  - by rewrite Hc.
  - intros k. rewrite Hc. cbn. apply lookup_empty.
Qed.

(** ** The API on a well-formed engine *)

(** [put] and [delete]. *)
Definition user_write `{Libm} (op : Operation) : M Engine.EW unit :=
  match op with Put key value => Engine.put key value | Delete key => Engine.delete key end.

Lemma validate_value_spec {S A} value (k : M S A) (Q : A -> S -> Prop) E s :
  (forall x, MAX_VALUE_SIZE < len value -> E x s) -> (len value <= MAX_VALUE_SIZE -> wp k Q E s) ->
  wp (let! _ := mlift (Engine.validate_value value) in k) Q E s.
Proof.
  intros HE HQ. apply wp_bind. unfold wp at 1, mlift, Engine.validate_value. case_if; [by apply HE|].
  apply HQ. lia.
Qed.

Lemma validate_key_Err key x :
  Engine.validate_key key = Err x -> key = [] \/ MAX_KEY_SIZE < len key.
Proof.
  unfold Engine.validate_key. case_if; [left; by apply len_0_nil|]. case_if; [by right|done].
Qed.

Lemma wp_user_write `{Libm} o reg n pend e w db op (Q : unit -> Engine.EW -> Prop) E :
  options_ok o -> engine_ok o reg n pend e w db -> n + 1 < 2 ^ 30 ->
  (forall reg' e' w', op_valid op -> engine_ok o reg' (n + 1) pend e' w' (op_spec op db) ->
     (quiet w -> quiet w') -> Q tt (e', w')) ->
  (forall x, ~ op_valid op -> E x (e, w)) ->
  (forall x e' w', op_valid op -> failed_op o db (op_spec op db) e' w' -> ~ quiet w -> E x (e', w')) ->
  wp (user_write op) Q E (e, w).
Proof.
  intros Ho Hok Hn HQ Hbad HE.
  assert (op_valid op -> wp (Engine.write op) Q E (e, w)) as Hwrite.
  { intros Hop. eapply wp_write; [done|done|done|done|by intros; eapply HQ|by intros; apply HE]. }
  assert (forall x, Engine.validate_key (op_key op) = Err x -> E x (e, w)) as Hkey.
  { intros x Hx. apply Hbad. intros [[Hf _] Hne]. destruct (validate_key_Err _ _ Hx); [done|lia]. }
  destruct op as [key value|key]; cbn [user_write].
  - unfold Engine.put. apply wp_validate_key; [done|]. intros Hne Hlen.
    apply validate_value_spec; [intros x Hx; apply Hbad; intros [[_ Hf] _]; cbn in Hf; lia|].
    intros Hval. by apply Hwrite.
  - unfold Engine.delete. apply wp_validate_key; [done|]. intros Hne Hlen. apply Hwrite.
    split; [split; [done|]|done]. cbn. unfold MAX_VALUE_SIZE. rewrite len_nil. lia.
Qed.

Lemma engine_ok_read o reg n pend e w db e' w' :
  engine_ok o reg n pend e w db -> read_from e e' -> readable reg e' w' db ->
  w_files w' = w_files w -> engine_ok o reg n pend e' w' db.
Proof.
  intros Hok (s' & (H1 & H2 & H3 & H4) & ->) Hrd Hw.
  apply (engine_ok_files _ _ _ _ _ w w' _ Hw) in Hok. destruct Hok as [[? ?] ? ? ? ? ? ? ? ? ? ? ?].
  destruct Hrd. split; cbn [Engine.set_shared Engine.shared Engine.options Engine.wal Engine.memtable
    Engine.immutable] in *; rewrite ?H1, ?H2, ?H3; try done.
  unfold layers in *. cbn [Engine.set_shared Engine.shared Engine.memtable Engine.immutable] in *.
  by rewrite ?H2.
Qed.

(** A compaction, whole. *)
Lemma wp_compact_once `{Libm} o reg n e w db (Q : unit -> Engine.EW -> Prop) E :
  options_ok o -> engine_ok o reg n None e w db -> n < 2 ^ 30 ->
  Manifest.next_id (s_manifest (Engine.shared e)) <= n ->
  (forall reg' e' w', engine_ok o reg' n None e' w' db -> (quiet w -> quiet w') -> Q tt (e', w')) ->
  (forall x reg' e' w', readable reg' e' w' db ->
     (is_ok (fst (Engine.on_shared compact_begin (e, w))) = false ->
      forall w2, crashed w' w2 -> recovers o w2 db) -> ~ quiet w -> E x (e', w')) ->
  wp Engine.compact Q E (e, w).
Proof.
  intros Ho Hok Hn Hid HQ HE.
  assert (Engine.compact (e, w) = (let! p := Engine.on_shared compact_begin in
    match p with None => mret tt | Some p => Engine.on_shared (compact_finish p) end) (e, w)) as Heq.
  { unfold Engine.compact, compact_once, Engine.on_shared, mzoom, mbind. cbn [fst snd].
    by destruct (compact_begin _) as [[[p|]|x|] [s w1]]. }
  unfold wp. rewrite Heq. change (wp (let! p := Engine.on_shared compact_begin in
    match p with None => mret tt | Some p => Engine.on_shared (compact_finish p) end) Q E (e, w)).
  assert (wp (Engine.on_shared compact_begin)
    (fun p ew => exists reg', engine_ok o reg' n p (fst ew) (snd ew) db /\ (quiet w -> quiet (snd ew)))
    (fun _ ew => failed_op o db db (fst ew) (snd ew) /\ ~ quiet w) (e, w)) as Hb.
  { eapply wp_compact_begin; [done|done|done|done|by intros; eexists|done]. }
  unfold wp, mbind in *. destruct (Engine.on_shared compact_begin (e, w)) as [[[p|]|x|] [e' w']]; cbn [fst snd] in Hb.
  - destruct Hb as (reg' & Hok' & Hq'). eapply wp_compact_finish; [done|done|done| |].
    + intros e2 w2 Hok2 Hq2. eapply HQ; [done|tauto].
    + intros x e2 w2 Hrd Hq2. eapply HE; [done|done|tauto].
  - destruct Hb as (reg' & Hok' & Hq'). by eapply HQ.
  - destruct Hb as [[(reg' & shown & Hs & Hrd) Hcr] Hq]. assert (shown = db) as -> by tauto.
    eapply HE; [exact Hrd| |done]. intros _ w2 Hc. by destruct (Hcr w2 Hc).
  - done.
Qed.

(** ** Reachable states *)

(** An engine, its directory, and a compaction that the background thread has
    planned but not installed. *)
Record state := mkState { st_engine : Engine.t; st_world : World; st_pending : option Pending }.

(** One step, and the writes it acknowledges. *)
Inductive step `{Libm} (o : Options) : state -> list Operation -> state -> Prop :=
| step_write op e w p e' w' :
    user_write op (e, w) = (Ok tt, (e', w')) -> step o (mkState e w p) [op] (mkState e' w' p)
| step_get key r e w p e' w' :
    Engine.get key (e, w) = (r, (e', w')) -> step o (mkState e w p) [] (mkState e' w' p)
| step_flush e w p e' w' :
    Engine.flush (e, w) = (Ok tt, (e', w')) -> step o (mkState e w p) [] (mkState e' w' p)
| step_begin e w p e' w' :
    Engine.on_shared compact_begin (e, w) = (Ok p, (e', w')) ->
    step o (mkState e w None) [] (mkState e' w' p)
| step_finish e w p e' w' :
    Engine.on_shared (compact_finish p) (e, w) = (Ok tt, (e', w')) ->
    step o (mkState e w (Some p)) [] (mkState e' w' None)
| step_crash e w p w2 e' w' :
    crashed w w2 -> Engine.open_with o w2 = (Ok e', w') -> step o (mkState e w p) [] (mkState e' w' None)
(** Any failures may come to be pending. *)
| step_faults e w p w' :
    w_files w' = w_files w -> step o (mkState e w p) [] (mkState e w' p).

(** [reachable o n ops s]: in [n] steps that acknowledged the writes [ops]. *)
Inductive reachable `{Libm} (o : Options) : Z -> list Operation -> state -> Prop :=
| reach_open w e w' :
    fresh_dir w -> Engine.open_with o w = (Ok e, w') -> reachable o 0 [] (mkState e w' None)
| reach_step n ops s ops' s' :
    reachable o n ops s -> step o s ops' s' -> reachable o (n + 1) (ops ++ ops') s'.

(** The reference: the map that the writes build. *)
Definition spec_map (ops : list Operation) : gmap bytes bytes := foldl (flip op_spec) ∅ ops.

Lemma spec_map_app ops ops' : spec_map (ops ++ ops') = foldl (flip op_spec) (spec_map ops) ops'.
Proof. unfold spec_map. by rewrite foldl_app. Qed.

Lemma step_keeps `{Libm} o reg n s ops' s' db :
  options_ok o -> n + 1 < 2 ^ 30 -> step o s ops' s' ->
  engine_ok o reg n (st_pending s) (st_engine s) (st_world s) db ->
  exists reg', engine_ok o reg' (n + 1) (st_pending s') (st_engine s') (st_world s')
    (foldl (flip op_spec) db ops').
Proof.
  intros Ho Hn Hstep Hok. pose proof (engine_ok_le o reg n (n + 1) _ _ _ _ ltac:(lia) Hok) as Hok1.
  assert (2 <= max_levels o) as Ho2 by apply Ho.
  destruct Hstep as [op e w p e' w' Hr|key r e w p e' w' Hr|e w p e' w' Hr|e w p e' w' Hr|e w p e' w' Hr
    |e w p w2 e' w' Hc Hr|e w p w' Hw]; cbn [st_engine st_world st_pending foldl flip] in *.
  - eapply (wp_Ok _ (fun _ ew => exists reg', engine_ok o reg' (n + 1) p (fst ew) (snd ew) (op_spec op db))
      (fun _ _ => True)) in Hr; [exact Hr|].
    eapply wp_user_write; [done|exact Hok|done| |done|done]. intros. cbn [fst snd]. eauto.
  - exists reg. assert (wp (Engine.get key) (fun _ ew => engine_ok o reg (n + 1) p (fst ew) (snd ew) db)
      (fun _ ew => engine_ok o reg (n + 1) p (fst ew) (snd ew) db) (e, w)) as Hwp.
    { eapply wp_engine_get; [by eapply engine_ok_readable|done| |];
        intros; cbn [fst snd]; by eapply engine_ok_read. }
    unfold wp in Hwp. rewrite Hr in Hwp. by destruct r.
  - eapply (wp_Ok _ (fun _ ew => exists reg', engine_ok o reg' (n + 1) p (fst ew) (snd ew) db)
      (fun _ _ => True)) in Hr; [exact Hr|].
    eapply wp_flush; [done|exact Hok1|done|apply (eo_next _ _ _ _ _ _ _ Hok)| |done].
    intros. cbn [fst snd]. eauto.
  - eapply (wp_Ok _ (fun p ew => exists reg', engine_ok o reg' (n + 1) p (fst ew) (snd ew) db)
      (fun _ _ => True)) in Hr; [exact Hr|].
    eapply wp_compact_begin; [done|exact Hok1|done|apply (eo_next _ _ _ _ _ _ _ Hok)| |done].
    intros. cbn [fst snd]. eauto.
  - exists reg. eapply (wp_Ok _ (fun _ ew => engine_ok o reg (n + 1) None (fst ew) (snd ew) db)
      (fun _ _ => True)) in Hr; [exact Hr|].
    eapply wp_compact_finish; [done|exact Hok1|done|done|done].
  - exists reg. eapply (wp_Ok _ (fun e2 w3 => engine_ok o reg (n + 1) None e2 w3 db)
      (fun _ _ => True)) in Hr; [exact Hr|]. by eapply wp_open_crash.
  - exists reg. by eapply engine_ok_files.
Qed.

Lemma reachable_ok `{Libm} o n ops s :
  options_ok o -> reachable o n ops s -> n < 2 ^ 30 ->
  exists reg, engine_ok o reg n (st_pending s) (st_engine s) (st_world s) (spec_map ops).
Proof.
  intros Ho Hr. induction Hr as [w e w' Hf Hop|n ops s ops' s' Hr IH Hs]; intros Hn.
  - exists ∅. eapply (wp_Ok _ (fun e w => engine_ok o ∅ 0 None e w ∅) (fun _ _ => True)) in Hop;
      [exact Hop|]. eapply wp_open_fresh; [apply Ho|done|done].
  - destruct IH as [reg Hok]; [lia|]. rewrite spec_map_app. by eapply step_keeps.
Qed.

(** ** What a user observes *)

(** Every lookup of a valid key succeeds, and answers as the map. *)
Definition answers (e : Engine.t) (w : World) (db : gmap bytes bytes) : Prop :=
  forall key, Engine.validate_key key = Ok tt -> exists ew, Engine.get key (e, w) = (Ok (db !! key), ew).

(** Whatever failures are pending, a lookup does not panic and, if it succeeds,
    answers as the map; and the directory holds all that lookups need: once no
    failure is pending, every one succeeds. *)
Definition consistent (e : Engine.t) (w : World) (db : gmap bytes bytes) : Prop :=
  (forall key, fst (Engine.get key (e, w)) <> Panic /\
     forall r ew, Engine.get key (e, w) = (Ok r, ew) -> r = db !! key) /\
  forall w', w_files w' = w_files w -> quiet w' -> answers e w' db.

(** The directory opens, and the engine answers as the map. *)
Definition reopens (o : Options) (w : World) (db : gmap bytes bytes) : Prop :=
  exists e w', Engine.open_with o w = (Ok e, w') /\ answers e w' db.

Lemma readable_answers reg e w db : readable reg e w db -> quiet w -> answers e w db.
Proof.
  intros Hrd Hq key Hk. edestruct (wp_run (Engine.get key) (fun r _ => r = db !! key)
    (fun _ _ => False) (e, w)) as [(r & ew & -> & ->)|(? & ? & _ & [])]; [|by eauto].
  eapply wp_engine_get; [done| |done|done]. intros x Hx. congruence.
Qed.

Lemma readable_consistent reg e w db : readable reg e w db -> consistent e w db.
Proof.
  intros Hrd. split.
  - intros key. assert (wp (Engine.get key) (fun r _ => r = db !! key) (fun _ _ => True) (e, w)) as Hwp
      by (by eapply wp_engine_get).
    unfold wp in Hwp. destruct (Engine.get key (e, w)) as [[a|x|] ew1]; [|done|done].
    split; [done|]. by intros r ew [= <- <-].
  - intros w' Hw' Hq. eapply readable_answers; [|done]. destruct Hrd as [Ht Hc Hdb]. split; [|done|done].
    eapply Forall_impl; [exact Ht|]. intros t. by apply stored_files.
Qed.

Lemma recovers_reopens o w db : recovers o w db -> reopens o w db.
Proof. intros (reg & e & w' & He & Hrd & Hq). exists e, w'. split; [done|]. by eapply readable_answers. Qed.

(** ** A database for the examples *)

Definition run_state (m : M Engine.EW unit) (s : state) : state :=
  let '(e, w) := snd (m (st_engine s, st_world s)) in mkState e w (st_pending s).

Definition open_state (o : Options) (w : World) : state :=
  match Engine.open_with o w with
  | (Ok e, w') => mkState e w' None
  | (_, w') => mkState (opened o (Manifest.mk 1 []) (Version.mk []) []) w' None
  end.

Lemma reach_opened `{Libm} o w :
  fresh_dir w -> is_ok (fst (Engine.open_with o w)) = true -> reachable o 0 [] (open_state o w).
Proof.
  intros Hf Hok. unfold open_state. destruct (Engine.open_with o w) as [[e| |] w'] eqn:E; try done.
  by apply (reach_open o w).
Qed.

Lemma reach_write `{Libm} o n ops s op :
  reachable o n ops s -> fst (user_write op (st_engine s, st_world s)) = Ok tt ->
  reachable o (n + 1) (ops ++ [op]) (run_state (user_write op) s).
Proof.
  intros Hr Hw. eapply reach_step; [done|]. unfold run_state. destruct s as [e w p].
  cbn [st_engine st_world st_pending] in *. destruct (user_write op (e, w)) as [r [e' w']] eqn:E.
  cbn in Hw. subst r. cbn. by apply step_write.
Qed.

#[local] Instance demo_sizing : Libm := demo_libm.

Definition demo_ops : list Operation := [Put [x61] [x31]; Put [x62] []; Delete [x61]].

Definition demo : state :=
  foldl (fun s op => run_state (user_write op) s) (open_state for_test empty_world) demo_ops.

Lemma demo_options : options_ok for_test.
Proof. split; [cbn; lia|cbn; lia|apply demo_libm_ok]. Qed.

Lemma demo_reachable : reachable for_test 3 demo_ops demo.
Proof.
  change 3 with (0 + 1 + 1 + 1). change demo_ops with ((([] ++ [Put [x61] [x31]]) ++ [Put [x62] []]) ++ [Delete [x61]]).
  unfold demo. cbn [foldl demo_ops]. repeat apply reach_write; [|vm_compute; reflexivity..].
  apply reach_opened; [|vm_compute; reflexivity]. split_and!; [by split|apply lookup_empty|apply lookup_empty].
Qed.

(** ** Properties *)

(** C1: the engine refines a finite map, through flushes, compactions and crashes.
    In every state reached by any interleaving of acknowledged puts and deletes,
    lookups, flushes, the two halves of background compactions and crashes with
    restarts, and whatever I/O failures are pending, a lookup that succeeds
    returns exactly what the acknowledged writes put there last; and when no
    failure is pending every lookup succeeds. *)
Theorem engine_refines_map `{Libm} o n ops s :
  options_ok o -> reachable o n ops s -> n < 2 ^ 30 ->
  consistent (st_engine s) (st_world s) (spec_map ops) /\
  (quiet (st_world s) -> answers (st_engine s) (st_world s) (spec_map ops)).
Proof.
  intros Ho Hr Hn. destruct (reachable_ok o n ops s Ho Hr Hn) as [reg Hok%engine_ok_readable].
  split; [by eapply readable_consistent|]. intros Hq. by eapply readable_answers.
Qed.

Lemma engine_refines_map_witness :
  consistent (st_engine demo) (st_world demo) (spec_map demo_ops) /\
  spec_map demo_ops !! [x61] = None /\ spec_map demo_ops !! [x62] = Some [].
Proof.
  split; [|split; vm_compute; reflexivity].
  apply (engine_refines_map for_test 3 demo_ops demo demo_options demo_reachable). reflexivity.
Defined.

(** C3: acknowledged writes are durable.  In a database in which every call so far
    has returned [Ok], and when the machine crashes between two calls or between
    the two halves of a background compaction, opening the directory succeeds
    and every lookup answers as the acknowledged writes say, whatever the crash
    leaves of the data that the operating system had not synced.  A crash inside
    a call is the business of [write_failure_atomic], [flush_failure_safe] and
    [compact_transparent]. *)
Theorem acknowledged_writes_survive `{Libm} o n ops s w2 :
  options_ok o -> reachable o n ops s -> n < 2 ^ 30 -> crashed (st_world s) w2 ->
  reopens o w2 (spec_map ops).
Proof.
  intros Ho Hr Hn Hc. destruct (reachable_ok o n ops s Ho Hr Hn) as [reg Hok].
  eapply recovers_reopens, engine_ok_crash; [apply Ho|exact Hok|done].
Qed.

Lemma acknowledged_writes_survive_witness : reopens for_test (restart (st_world demo)) (spec_map demo_ops).
Proof.
  apply (acknowledged_writes_survive for_test 3 demo_ops demo _ demo_options demo_reachable);
    [reflexivity|apply crashed_restart].
Defined.

(** C4: a write that reports an error is all or nothing.  Either the key or the
    value was not valid and nothing changed, or, whatever failed, lookups show
    the map without the write or the map with it, and so does the engine that
    is opened after a crash. *)
Theorem write_failure_atomic `{Libm} o n ops s op x e' w' :
  options_ok o -> reachable o n ops s -> n + 1 < 2 ^ 30 ->
  user_write op (st_engine s, st_world s) = (Err x, (e', w')) ->
  let db := spec_map ops in
  let db' := spec_map (ops ++ [op]) in
  (~ op_valid op /\ e' = st_engine s /\ w' = st_world s) \/
  ((consistent e' w' db \/ consistent e' w' db') /\
   forall w2, crashed w' w2 -> reopens o w2 db \/ reopens o w2 db').
Proof.
  intros Ho Hr Hn Hw db db'. destruct (reachable_ok o n ops s Ho Hr ltac:(lia)) as [reg Hok].
  assert (db' = op_spec op db) as -> by (unfold db'; by rewrite spec_map_app).
  eapply (wp_Err _ (fun _ _ => True) (fun _ ew =>
    (~ op_valid op /\ fst ew = st_engine s /\ snd ew = st_world s) \/
    ((consistent (fst ew) (snd ew) db \/ consistent (fst ew) (snd ew) (op_spec op db)) /\
     forall w2, crashed (snd ew) w2 -> reopens o w2 db \/ reopens o w2 (op_spec op db)))) in Hw; [exact Hw|].
  eapply wp_user_write; [done|exact Hok|done|done|by left|].
  intros y e1 w1 _ [(reg1 & shown & Hsh & Hrd%readable_consistent) Hcr] _. right. split.
  - destruct Hsh as [->| ->]; auto.
  - intros w2 Hc. destruct (Hcr w2 Hc) as [H1|H1]; [left|right]; by apply recovers_reopens.
Qed.

(** The device fails while the record of a third put is written. *)
Lemma write_failure_atomic_witness :
  let s := mkState (st_engine demo) (set_faults [None; Some 3%nat] (st_world demo)) None in
  let op := Put [x63] [x33] in
  exists x e' w', user_write op (st_engine s, st_world s) = (Err x, (e', w')) /\
    (consistent e' w' (spec_map demo_ops) \/ consistent e' w' (spec_map (demo_ops ++ [op]))).
Proof.
  cbv zeta. match goal with |- context [user_write ?op (st_engine ?s, _)] =>
    pose proof (write_failure_atomic for_test 4 demo_ops s op) as Hthm;
    destruct (user_write op (st_engine s, st_world s)) as [r [e' w']] eqn:E end.
  assert (r = Err device_error) as ->
    by (change r with (fst (r, (e', w'))); rewrite <- E; vm_compute; reflexivity).
  exists device_error, e', w'. split; [reflexivity|].
  destruct (Hthm device_error e' w') as [(Hbad & _)|[Hc _]].
  - exact demo_options.
  - rewrite <- (app_nil_r demo_ops). change 4 with (3 + 1). eapply reach_step; [exact demo_reachable|].
    destruct demo as [e w p] eqn:Ed. assert (p = None) as ->
      by (change p with (st_pending (mkState e w p)); rewrite <- Ed; vm_compute; reflexivity).
    apply step_faults. reflexivity.
  - reflexivity.
  - reflexivity.
  - exfalso. apply Hbad. split; [split; vm_compute; discriminate|discriminate].
  - exact Hc.
Defined.

(** C7: a flush that reports an error loses nothing: lookups still show the map,
    and so does the engine that is opened after a crash, wherever the flush was
    interrupted. *)
Theorem flush_failure_safe `{Libm} o n ops s x e' w' :
  options_ok o -> reachable o n ops s -> n + 1 < 2 ^ 30 ->
  Engine.flush (st_engine s, st_world s) = (Err x, (e', w')) ->
  consistent e' w' (spec_map ops) /\ forall w2, crashed w' w2 -> reopens o w2 (spec_map ops).
Proof.
  intros Ho Hr Hn Hw. destruct (reachable_ok o n ops s Ho Hr ltac:(lia)) as [reg Hok].
  pose proof (engine_ok_le o reg n (n + 1) _ _ _ _ ltac:(lia) Hok) as Hok1.
  eapply (wp_Err _ (fun _ _ => True) (fun _ ew => consistent (fst ew) (snd ew) (spec_map ops) /\
    forall w2, crashed (snd ew) w2 -> reopens o w2 (spec_map ops))) in Hw; [exact Hw|].
  eapply wp_flush; [done|exact Hok1|done|apply (eo_next _ _ _ _ _ _ _ Hok)|done|].
  intros y e1 w1 [(reg1 & shown & Hsh & Hrd%readable_consistent) Hcr] _. cbn [fst snd]. split.
  - by destruct Hsh as [->| ->].
  - intros w2 Hc. destruct (Hcr w2 Hc); by apply recovers_reopens.
Qed.

(** The device fails while the table of the flush is written. *)
Lemma flush_failure_safe_witness :
  let w := set_faults [None; None; None; None; None; Some 5%nat] (st_world demo) in
  exists x e' w', Engine.flush (st_engine demo, w) = (Err x, (e', w')) /\
    consistent e' w' (spec_map demo_ops).
Proof.
  cbv zeta. match goal with |- context [Engine.flush (?e, ?w)] =>
    pose proof (flush_failure_safe for_test 4 demo_ops (mkState e w None)) as Hthm;
    destruct (Engine.flush (e, w)) as [r [e' w']] eqn:E end.
  assert (r = Err device_error) as ->
    by (change r with (fst (r, (e', w'))); rewrite <- E; vm_compute; reflexivity).
  exists device_error, e', w'. split; [reflexivity|]. apply (Hthm device_error e' w').
  - exact demo_options.
  - rewrite <- (app_nil_r demo_ops). change 4 with (3 + 1). eapply reach_step; [exact demo_reachable|].
    destruct demo as [e w p] eqn:Ed. assert (p = None) as ->
      by (change p with (st_pending (mkState e w p)); rewrite <- Ed; vm_compute; reflexivity).
    apply step_faults. reflexivity.
  - reflexivity.
  - exact E.
Defined.

(** C6: the engine makes progress.  In a reachable state with no failure pending,
    every valid write, every flush, and every compaction that does not overlap
    another one returns [Ok]: no loop runs out of fuel, nothing panics, and no
    error is reported. *)
Theorem engine_progress `{Libm} o n ops s :
  options_ok o -> reachable o n ops s -> n + 1 < 2 ^ 30 -> quiet (st_world s) ->
  let ew := (st_engine s, st_world s) in
  (forall op, op_valid op -> fst (user_write op ew) = Ok tt) /\
  fst (Engine.flush ew) = Ok tt /\
  (st_pending s = None -> fst (Engine.compact ew) = Ok tt).
Proof.
  intros Ho Hr Hn Hq ew. destruct (reachable_ok o n ops s Ho Hr ltac:(lia)) as [reg Hok].
  pose proof (engine_ok_le o reg n (n + 1) _ _ _ _ ltac:(lia) Hok) as Hok1.
  assert (forall m : M Engine.EW unit, wp m (fun _ _ => True) (fun _ _ => False) ew -> fst (m ew) = Ok tt)
    as Hwp.
  { intros m Hm. unfold wp in Hm. by destruct (m ew) as [[[]| |] ?]. }
  split_and!.
  - intros op Hop. apply Hwp. eapply wp_user_write; [done|exact Hok|done|done|done|done].
  - apply Hwp. eapply wp_flush; [done|exact Hok1|done|apply (eo_next _ _ _ _ _ _ _ Hok)|done|done].
  - intros Hp. rewrite Hp in *. apply Hwp.
    eapply wp_compact_once; [done|exact Hok1|done|apply (eo_next _ _ _ _ _ _ _ Hok)|done|done].
Qed.

Lemma engine_progress_witness :
  fst (user_write (Put [x63] [x33]) (st_engine demo, st_world demo)) = Ok tt.
Proof.
  destruct (engine_progress for_test 3 demo_ops demo demo_options demo_reachable) as [Hw _];
    [reflexivity|split; vm_compute; reflexivity|]. apply Hw.
  split; [split; vm_compute; discriminate|discriminate].
Defined.

(** C8: compaction is transparent to readers.  A foreground compaction that does not
    overlap another one, whether it succeeds or fails and wherever it fails,
    leaves every lookup as it was, and every table that lookups need; and when
    it succeeds, or fails before its first record of the new tables (no id, or
    the merge failed), so does the engine that is opened after a crash. *)
Theorem compact_transparent `{Libm} o n ops s r e' w' :
  options_ok o -> reachable o n ops s -> n + 1 < 2 ^ 30 -> st_pending s = None ->
  let ew := (st_engine s, st_world s) in
  Engine.compact ew = (r, (e', w')) ->
  consistent e' w' (spec_map ops) /\
  (r = Ok tt \/ is_ok (fst (Engine.on_shared compact_begin ew)) = false ->
   forall w2, crashed w' w2 -> reopens o w2 (spec_map ops)).
Proof.
  intros Ho Hr Hn Hp ew Hw. destruct (reachable_ok o n ops s Ho Hr ltac:(lia)) as [reg Hok]. rewrite Hp in Hok.
  pose proof (engine_ok_le o reg n (n + 1) _ _ _ _ ltac:(lia) Hok) as Hok1.
  assert (wp Engine.compact (fun _ ew => consistent (fst ew) (snd ew) (spec_map ops) /\
    forall w2, crashed (snd ew) w2 -> reopens o w2 (spec_map ops))
    (fun _ ew2 => consistent (fst ew2) (snd ew2) (spec_map ops) /\
      (is_ok (fst (Engine.on_shared compact_begin ew)) = false ->
       forall w2, crashed (snd ew2) w2 -> reopens o w2 (spec_map ops))) ew) as Hwp.
  { eapply wp_compact_once; [done|exact Hok1|done|apply (eo_next _ _ _ _ _ _ _ Hok)| |].
    - intros reg' e1 w1 Hok' _. cbn [fst snd]. split.
      + by eapply readable_consistent, engine_ok_readable.
      + intros w2 Hc. eapply recovers_reopens, engine_ok_crash; [apply Ho|done|done].
    - intros y reg' e1 w1 Hrd Hcr _. split; [by eapply readable_consistent|].
      intros Hb w2 Hc. by eapply recovers_reopens, Hcr. }
  unfold wp in Hwp. rewrite Hw in Hwp. destruct r as [[]|y|]; [|destruct Hwp as [H1 H2]; split; [done|]|done].
  - destruct Hwp as [H1 H2]. split; [done|]. by intros _.
  - intros [?|Hb]; [done|by apply H2].
Qed.

(** Two flushed tables, which a compaction merges. *)
Definition demo2 : state :=
  run_state Engine.flush (run_state (user_write (Put [x61] [x32])) (run_state Engine.flush demo)).

Lemma reach_flush `{Libm} o n ops s :
  reachable o n ops s -> fst (Engine.flush (st_engine s, st_world s)) = Ok tt ->
  reachable o (n + 1) (ops ++ []) (run_state Engine.flush s).
Proof.
  intros Hr Hw. eapply reach_step; [done|]. unfold run_state. destruct s as [e w p].
  cbn [st_engine st_world st_pending] in *. destruct (Engine.flush (e, w)) as [r [e' w']] eqn:E.
  cbn in Hw. subst r. cbn. by apply step_flush.
Qed.

Lemma demo2_reachable : reachable for_test 6 (demo_ops ++ [Put [x61] [x32]]) demo2.
Proof.
  change (demo_ops ++ [Put [x61] [x32]]) with (((demo_ops ++ []) ++ [Put [x61] [x32]]) ++ []).
  change 6 with (3 + 1 + 1 + 1). unfold demo2.
  apply reach_flush; [|vm_compute; reflexivity]. apply reach_write; [|vm_compute; reflexivity].
  apply reach_flush; [exact demo_reachable|vm_compute; reflexivity].
Qed.

Lemma compact_transparent_witness :
  exists e' w', Engine.compact (st_engine demo2, st_world demo2) = (Ok tt, (e', w')) /\
    consistent e' w' (spec_map (demo_ops ++ [Put [x61] [x32]])) /\
    Manifest.tables (s_manifest (Engine.shared e')) = [(3, 1)].
Proof.
  pose proof (compact_transparent for_test 6 (demo_ops ++ [Put [x61] [x32]]) demo2) as Hthm.
  destruct (Engine.compact (st_engine demo2, st_world demo2)) as [r [e' w']] eqn:E.
  assert (r = Ok tt) as -> by (change r with (fst (r, (e', w'))); rewrite <- E; vm_compute; reflexivity).
  exists e', w'. split; [reflexivity|]. split.
  - apply (Hthm (Ok tt) e' w' demo_options demo2_reachable); [reflexivity|vm_compute; reflexivity|exact E].
  - change e' with (fst (snd (Ok tt, (e', w')))). rewrite <- E. vm_compute. reflexivity.
Defined.

(** Invalid arguments are rejected with the documented error, before anything
    is touched: an empty key, a key longer than 64 KiB, a value longer than
    64 MiB. *)
Theorem invalid_arguments_rejected `{Libm} key value ew :
  (key = [] -> Engine.put key value ew = (Err EmptyKey, ew) /\
     Engine.delete key ew = (Err EmptyKey, ew) /\ Engine.get key ew = (Err EmptyKey, ew)) /\
  (MAX_KEY_SIZE < len key -> Engine.put key value ew = (Err KeyTooLarge, ew) /\
     Engine.delete key ew = (Err KeyTooLarge, ew) /\ Engine.get key ew = (Err KeyTooLarge, ew)) /\
  (key <> [] -> len key <= MAX_KEY_SIZE -> MAX_VALUE_SIZE < len value ->
     Engine.put key value ew = (Err ValueTooLarge, ew)).
Proof.
  unfold Engine.put, Engine.delete, Engine.get, mbind, mlift. split_and!.
  - by intros ->.
  - intros Hk. unfold Engine.validate_key, MAX_KEY_SIZE in *. case_if; [lia|]. case_if; [done|lia].
  - intros Hne Hk Hv. unfold Engine.validate_key, Engine.validate_value in *.
    case_if; [by destruct Hne; apply len_0_nil|]. case_if; [lia|]. case_if; [done|lia].
Qed.

Lemma invalid_arguments_rejected_witness :
  Engine.put [] [x31] (st_engine demo, st_world demo) = (Err EmptyKey, (st_engine demo, st_world demo)).
Proof. apply (invalid_arguments_rejected [] [x31] (st_engine demo, st_world demo)). reflexivity. Defined.

(** ** The shape of the state *)

(** Tables with disjoint contents do not overlap, by the code's own test. *)
Lemma separated_no_overlap run t1 t2 :
  described run t1 -> described run t2 -> separated (run t1) (run t2) ->
  overlaps t1 (SsTable.smallest t2) (SsTable.largest t2) = false.
Proof.
  intros Hd1 Hd2 Hs. apply not_true_is_false. intros Ho. pose proof (overlaps_run run t1 _ _ Hd1 Ho) as Hne.
  apply overlaps_true in Ho as [H1 H2].
  destruct (described_ends run t1 Hd1 Hne) as [(x1 & Hx1 & Ex1) (y1 & Hy1 & Ey1)].
  destruct (decide (run t2 = [])) as [E2|Hne2].
  - destruct Hd2 as [_ Hsm Hla _]. rewrite E2 in Hsm, Hla. cbn in Hsm, Hla. rewrite Hla, Ex1 in H1.
    pose proof (proj1 (Forall_forall _ _) (d_keys _ _ Hd1) x1 Hx1) as Hk. cbn in Hk.
    apply Hk. destruct (fst x1); [done|]. exfalso. unfold key_le in H1. by destruct H1.
  - destruct (described_ends run t2 Hd2 Hne2) as [(x2 & Hx2 & Ex2) (y2 & Hy2 & Ey2)].
    destruct Hs as [Hs|Hs]; [specialize (Hs _ _ Hy1 Hx2)|specialize (Hs _ _ Hx1 Hy2)]; key_order.
Qed.

(** What the fields of an engine between two calls have to do with each other. *)
Record well_typed (o : Options) (e : Engine.t) : Prop := {
  wt_levels : len (Version.levels (s_version (Engine.shared e))) = max_levels o;
  wt_ids : NoDup (SsTable.id <$> concat (Version.levels (s_version (Engine.shared e))));
  wt_range : Forall (fun t => 0 <= SsTable.id t < Manifest.next_id (s_manifest (Engine.shared e)))
    (concat (Version.levels (s_version (Engine.shared e))));
  wt_next : u64 (Manifest.next_id (s_manifest (Engine.shared e)));
  wt_manifest : forall i l, Version.levels (s_version (Engine.shared e)) !! i = Some l ->
    SsTable.id <$> l ≡ₚ level_ids (s_manifest (Engine.shared e)) i;
  wt_disjoint : forall i l t1 t2, Version.levels (s_version (Engine.shared e)) !! i = Some l -> (0 < i)%nat ->
    t1 ∈ l -> t2 ∈ l -> SsTable.id t1 <> SsTable.id t2 ->
    overlaps t1 (SsTable.smallest t2) (SsTable.largest t2) = false;
  wt_memtable : MemTable.wf (Engine.memtable e) /\ Forall entry_ok (MemTable.entries (Engine.memtable e));
  wt_immutable : Engine.immutable e = None;
}.

Lemma engine_ok_typed o reg n pend e w db : n < 2 ^ 30 -> engine_ok o reg n pend e w db -> well_typed o e.
Proof.
  intros Hn Hok. pose proof (eo_disk _ _ _ _ _ _ _ Hok) as [Hv Hst Hma Hids].
  pose proof (eo_next _ _ _ _ _ _ _ Hok) as Hnx. split.
  - apply Hok.
  - apply Hv.
  - eapply Forall_impl; [exact Hst|]. intros t [_ _ (bs & Hb & _) _]. apply Hids. by exists bs.
  - unfold u64. lia.
  - intros [|i] l Hl; [by rewrite (ma_l0 _ _ Hma l Hl), reverse_Permutation|]. by apply (ma_level _ _ Hma); [|lia].
  - intros i l t1 t2 Hl Hi H1 H2 Hne.
    assert (forall t, t ∈ l -> described (table_run reg) t) as Hd.
    { intros t Ht. apply (v_tables _ _ Hv). apply list_elem_of_lookup_2 in Hl.
      apply list_elem_of_In, in_concat. exists l. by split; apply list_elem_of_In. }
    apply (separated_no_overlap (table_run reg)); [by apply Hd..|]. by eapply (v_levels _ _ Hv).
  - destruct (eo_log _ _ _ _ _ _ _ Hok) as (ops & Hops & _ & ->). destruct (replay_ok ops Hops). done.
  - apply Hok.
Qed.

(** C15: the state is well formed after every step.  In every reachable state the
    version has the configured number of levels, its tables have distinct ids
    below the next one, which is a [u64], it lists level by level the tables
    that the manifest lists, no two tables of a level below 0 overlap by the
    test that picks compactions, and the memtable is sorted, within the size
    limits and counts its own bytes. *)
Theorem reachable_well_typed `{Libm} o n ops s :
  options_ok o -> reachable o n ops s -> n < 2 ^ 30 -> well_typed o (st_engine s).
Proof.
  intros Ho Hr Hn. destruct (reachable_ok o n ops s Ho Hr Hn) as [reg Hok]. by eapply engine_ok_typed.
Qed.

Lemma reachable_well_typed_witness :
  NoDup (SsTable.id <$> concat (Version.levels (s_version (Engine.shared (st_engine demo2))))) /\
  SsTable.id <$> concat (Version.levels (s_version (Engine.shared (st_engine demo2)))) = [2; 1].
Proof.
  split; [|vm_compute; reflexivity].
  apply (reachable_well_typed for_test 6 (demo_ops ++ [Put [x61] [x32]]) demo2 demo_options demo2_reachable).
  reflexivity.
Defined.
