(* ===== verification/Scan.v ===== *)
(** * Range scans ([src/engine.rs], [EngineIterator])

    A scan merges the memtables and every table, newest first, each restricted
    to the bounds.  A table source reads lazily, so it may fail at any step; the
    iterator after a failure is part of the model.  [next_in_range] has one unit
    of fuel per byte of data blocks, and [next] one per entry its sources can
    still have, which [iter_fuel_enough] and [scan_fuel_enough] show to be enough. *)

From S2P Require Import Prelude Bytes Errors Collections Records World Wal Memtable.
From S2P Require Import Bloom Cache Format Names SsTables TableWrite TableRead Manifests Merge.
From S2P Require Import Compaction Versions Engine EngineInv EngineOps EngineProps.

(** [std::ops::Bound<&[u8]>]. *)
Inductive Bound := Unbounded | Included (k : bytes) | Excluded (k : bytes).

(** Owned and borrowed keys are the same values here. *)
Definition clone_bound (bound : Bound) : Bound :=
  match bound with
  | Unbounded => Unbounded
  | Included k => Included k
  | Excluded k => Excluded k
  end.

Definition bound_as_ref (bound : Bound) : Bound :=
  match bound with
  | Unbounded => Unbounded
  | Included k => Included k
  | Excluded k => Excluded k
  end.

Definition in_range (key : bytes) (start end_ : Bound) : bool :=
  let after_start :=
    match start with
    | Unbounded => true
    | Included s => key_leb s key
    | Excluded s => key_ltb s key
    end in
  let before_end :=
    match end_ with
    | Unbounded => true
    | Included e => key_leb key e
    | Excluded e => key_ltb key e
    end in
  after_start && before_end.

Definition past_end (key : bytes) (end_ : Bound) : bool :=
  match end_ with
  | Unbounded => false
  | Included e => key_ltb e key
  | Excluded e => key_leb e key
  end.

(** The [for] loop over the iterator, which keeps its position on every exit. *)
Fixpoint next_in_range_loop (fuel : nat) (iter : SsTableIterator.t) (start end_ : Bound)
    : M World (result (option (bytes * Entry)) * SsTableIterator.t) :=
  match fuel with
  | O => mlift Panic
  | S fuel' =>
      let! (item, iter) := SsTableIterator.next iter in
      match item with
      | None => mret (Ok None, iter)
      | Some (Err e) => mret (Err e, iter)
      | Some Panic => mlift Panic
      | Some (Ok (key, entry)) =>
          if in_range key start end_ then mret (Ok (Some (key, entry)), iter)
          else if past_end key end_ then mret (Ok None, iter)
          else next_in_range_loop fuel' iter start end_
      end
  end.

(** More than the entries the iterator can still have. *)
Definition iter_fuel (iter : SsTableIterator.t) : nat :=
  S (length (SsTableIterator.current iter) +
     sum_list ((fun e => Z.to_nat (ie_length e)) <$> SsTableIterator.idx iter)).

Definition next_in_range (iter : SsTableIterator.t) (start end_ : Bound) :=
  next_in_range_loop (iter_fuel iter) iter start end_.

Inductive SourceRest := SVec (items : list (bytes * Entry)) | STable (iter : SsTableIterator.t).

Record PeekSource := mkSource { ps_next : option (bytes * Entry); ps_rest : SourceRest }.

Definition from_mem (table : MemTable.t) (start end_ : Bound) : PeekSource :=
  let items := base.filter (fun x => in_range (fst x) start end_ = true) (MemTable.iter table) in
  mkSource (head items) (SVec (tail items)).

Definition from_table (iter : SsTableIterator.t) (start end_ : Bound) : M World PeekSource :=
  let! (next, iter) := next_in_range iter start end_ in
  let! next := mlift next in
  mret (mkSource next (STable iter)).

(** [PeekSource::advance]: an error leaves [next] as it was. *)
Definition source_advance (self : PeekSource) (start end_ : Bound)
    : M World (result unit * PeekSource) :=
  match ps_rest self with
  | SVec items => mret (Ok tt, mkSource (head items) (SVec (tail items)))
  | STable iter =>
      let! (next, iter) := next_in_range iter start end_ in
      match next with
      | Ok next => mret (Ok tt, mkSource next (STable iter))
      | Err e => mret (Err e, mkSource (ps_next self) (STable iter))
      | Panic => mlift Panic
      end
  end.

Module EngineIterator.

Record t := mk { sources : list PeekSource; start : Bound; end_ : Bound }.

Fixpoint table_sources (tables : list SsTable.t) (start end_ : Bound) : M World (list PeekSource) :=
  match tables with
  | [] => mret []
  | table :: tables' =>
      let! iter := SsTableIterator.new table in
      let! source := from_table iter start end_ in
      let! sources := table_sources tables' start end_ in
      mret (source :: sources)
  end.

Definition new (engine : Engine.t) (start end_ : Bound) : M World t :=
  let mem := from_mem (Engine.memtable engine) start end_ in
  let imm := match Engine.immutable engine with
             | Some imm => [from_mem imm start end_]
             | None => []
             end in
  let! tables := table_sources (Version.tables_newest_first (s_version (Engine.shared engine)))
    start end_ in
  mret (mk (mem :: imm ++ tables) (clone_bound start) (clone_bound end_)).

(** The least key at the head of a source, and the first source that has it. *)
Fixpoint find_best (idx : nat) (sources : list PeekSource) (best : option (nat * bytes))
    : option (nat * bytes) :=
  match sources with
  | [] => best
  | source :: sources' =>
      find_best (S idx) sources'
        match ps_next source with
        | Some (key, _) =>
            match best with
            | None => Some (idx, key)
            | Some (_, best_key) => if key_ltb key best_key then Some (idx, key) else best
            end
        | None => best
        end
  end.

(** Advance every source on [key]; the first error ends the loop. *)
Fixpoint advance_all (key : bytes) (start end_ : Bound) (sources : list PeekSource)
    : M World (result unit * list PeekSource) :=
  match sources with
  | [] => mret (Ok tt, [])
  | source :: sources' =>
      let! (r, source) :=
        (if bool_decide (fst <$> ps_next source = Some key) then source_advance source start end_
         else mret (Ok tt, source)) in
      match r with
      | Err e => mret (Err e, source :: sources')
      | _ =>
          let! (r, sources') := advance_all key start end_ sources' in
          mret (r, source :: sources')
      end
  end.

Fixpoint next_loop (fuel : nat) (self : t) : M World (option (result (bytes * bytes)) * t) :=
  match fuel with
  | O => mlift Panic
  | S fuel' =>
      match find_best 0 (sources self) None with
      | None => mret (None, self)
      | Some (winner_idx, key) =>
          let! winner := mlift (or_panic (sources self !! winner_idx)) in
          let entry := snd <$> ps_next winner in
          let! (r, sources) := advance_all key (bound_as_ref (start self)) (bound_as_ref (end_ self))
            (sources self) in
          let self := mk sources (start self) (end_ self) in
          match r with
          | Err e => mret (Some (Err e), self)
          | _ =>
              match entry with
              | Some (Value value) => mret (Some (Ok (key, value)), self)
              | Some Tombstone => next_loop fuel' self
              | None => next_loop fuel' self
              end
          end
      end
  end.

(** More than the entries the sources can still have. *)
Definition source_fuel (s : PeekSource) : nat :=
  match ps_rest s with SVec items => S (length items) | STable iter => S (iter_fuel iter) end.
Definition scan_fuel (self : t) : nat := S (sum_list (source_fuel <$> sources self)).

Definition next (self : t) : M World (option (result (bytes * bytes)) * t) :=
  next_loop (scan_fuel self) self.

End EngineIterator.

(** [Engine::scan]. *)
Definition scan (engine : Engine.t) (start end_ : Bound) : M World EngineIterator.t :=
  EngineIterator.new engine start end_.

(** The [collect] of a scan: every pair, up to the first error. *)
Fixpoint collect_scan (fuel : nat) (self : EngineIterator.t) : M World (list (bytes * bytes)) :=
  match fuel with
  | O => mlift Panic
  | S fuel' =>
      let! (item, self) := EngineIterator.next self in
      match item with
      | None => mret []
      | Some r => let! x := mlift r in let! l := collect_scan fuel' self in mret (x :: l)
      end
  end.

(** ** Ranges *)

Lemma clone_bound_id bound : clone_bound bound = bound.
Proof. by destruct bound. Qed.

Lemma bound_as_ref_id bound : bound_as_ref bound = bound.
Proof. by destruct bound. Qed.

(** The part of a run that is in the bounds. *)
Definition clip (start end_ : Bound) (r : run) : run :=
  base.filter (fun x => in_range (fst x) start end_ = true) r.

Lemma clip_cons start end_ x r :
  clip start end_ (x :: r) =
  if in_range (fst x) start end_ then x :: clip start end_ r else clip start end_ r.
Proof. unfold clip. rewrite filter_cons. case_decide as H; [by rewrite H|by destruct (in_range _ _ _)]. Qed.

Lemma clip_sorted start end_ r : ksorted r -> ksorted (clip start end_ r).
Proof. apply ksorted_filter. Qed.

Lemma clip_length start end_ r : (length (clip start end_ r) <= length r)%nat.
Proof. apply length_filter. Qed.

Lemma clip_lookup start end_ r k :
  alookup (clip start end_ r) k = if in_range k start end_ then alookup r k else None.
Proof.
  induction r as [|[k' e] r IH]; [by case_if|]. rewrite clip_cons. cbn [fst].
  destruct (in_range k' start end_) eqn:E; cbn [alookup]; rewrite IH; case_decide; subst; [by rewrite E|done| |done].
  by rewrite E.
Qed.

Lemma newest_clip start end_ rs k :
  newest (clip start end_ <$> rs) k = if in_range k start end_ then newest rs k else None.
Proof.
  unfold newest. induction rs as [|r rs IH]; [by case_if|]. rewrite fmap_cons. cbn [first_some].
  rewrite clip_lookup, IH. by destruct (in_range k start end_).
Qed.

Lemma total_len_clip start end_ rs : (total_len (clip start end_ <$> rs) <= total_len rs)%nat.
Proof.
  induction rs as [|r rs IH]; [done|]. rewrite fmap_cons, !total_len_cons.
  pose proof (clip_length start end_ r). lia.
Qed.

(** From a key past the end on, nothing of a sorted run is in the bounds. *)
Lemma past_end_clip start end_ x r :
  ksorted (x :: r) -> past_end (fst x) end_ = true -> clip start end_ r = [].
Proof.
  intros [F _]%ksorted_cons Hp. apply filter_none. eapply Forall_impl; [exact F|].
  intros y Hy Hin. unfold in_range, past_end in *. apply andb_true_iff in Hin as [_ Hin].
  destruct end_ as [|e|e]; [done|key_order..].
Qed.

(** ** Sources *)

(** A registered table and its blocks. *)
Definition held (reg : registry) (w : World) (t : SsTable.t) (bs : list entries) : Prop :=
  stored reg w t /\ reg !! SsTable.id t = Some bs.

Lemma held_ok reg w t bs : held reg w t bs -> table_ok w t bs.
Proof. intros [[_ _ (bs' & Hb & Hok) _] Hr]. by rewrite Hr in Hb; injection Hb as ->. Qed.

(** [s] has the entries [r] left: the first is peeked, and the rest is what the
    vector or the table iterator has in the bounds. *)
Definition source_at (reg : registry) (w : World) (start end_ : Bound) (s : PeekSource) (r : run) : Prop :=
  ksorted r /\ head r = ps_next s /\
  match ps_rest s with
  | SVec items => items = tail r
  | STable iter => exists t bs raw, held reg w t bs /\ it_at t bs iter raw /\ ksorted raw /\
      (r <> [] -> tail r = clip start end_ raw)
  end.

Lemma index_fuel off bs :
  (length (concat bs) <= sum_list ((fun e => Z.to_nat (ie_length e)) <$> index_of off bs))%nat.
Proof.
  revert off. induction bs as [|b bs IH]; intros off; [done|].
  cbn [concat index_of]. rewrite length_app, fmap_cons. cbn [sum_list block_row ie_length].
  specialize (IH (off + len (data_block b))).
  assert (length b <= Z.to_nat (len (data_block b)))%nat; [|simpl in *; lia].
  unfold data_block. rewrite len_block_bytes. clear.
  assert (len b <= len (encode_entries b)) as Hl; [|unfold len in *; lia].
  induction b as [|[k e] l IH]; [done|]. rewrite encode_entries_cons, len_app, len_encode_entry.
  pose proof (MemTable.value_len_nonneg e). len_lia.
Qed.

Lemma iter_fuel_enough t bs it raw : it_at t bs it raw -> (length raw < iter_fuel it)%nat.
Proof.
  intros (bs1 & bs2 & cur1 & cur2 & -> & Hsp & ->). unfold iter_fuel.
  cbn [SsTableIterator.current SsTableIterator.idx].
  pose proof (index_fuel 0 bs) as Hf. rewrite Hsp, concat_app, !length_app in Hf.
  rewrite Hsp, !length_app. lia.
Qed.

Section sources.
Context (reg : registry) (w : World) (start end_ : Bound).
Abbreviation clip := (clip start end_).
Abbreviation source_at := (source_at reg w start end_).
Implicit Types (E : Error -> World -> Prop).

(** What [next_in_range] leaves to the iterator, [raw] being what it had. *)
Definition in_range_post (t : SsTable.t) (bs : list entries) (raw : run) (w1 : World)
    (x : result (option (bytes * Entry)) * SsTableIterator.t) (w' : World) : Prop :=
  after w w1 w' /\
  match fst x with
  | Ok o => exists raw', it_at t bs (snd x) raw' /\ ksorted raw' /\ head (clip raw) = o /\
      (clip raw <> [] -> tail (clip raw) = clip raw')
  | Err _ => ~ quiet w1
  | Panic => False
  end.

Lemma wp_next_in_range_loop t bs fuel iter raw E w1 :
  table_ok w t bs -> it_at t bs iter raw -> ksorted raw -> (length raw < fuel)%nat ->
  w_files w1 = w_files w ->
  wp (next_in_range_loop fuel iter start end_) (in_range_post t bs raw w1) E w1.
Proof.
  intros Ht. revert iter raw w1. induction fuel as [|fuel IH]; intros iter raw w1 Hit Hs Hf Hw1; [lia|].
  cbn [next_in_range_loop]. apply wp_bind.
  eapply wp_mono; [by apply (wp_next w t bs Ht iter raw (fun _ _ => False))| |done].
  intros [[[[k e]|x|]|] it'] w2 [Ha Hp].
  - destruct Hp as (raw' & -> & Hit'). pose proof Hs as [F Hs']%ksorted_cons.
    destruct (in_range k start end_) eqn:Er; [|destruct (past_end k end_) eqn:Ep].
    + apply wp_ret. split; [done|]. exists raw'. rewrite clip_cons. cbn [fst snd]. by rewrite Er.
    + apply wp_ret. split; [done|]. exists raw'. rewrite clip_cons. cbn [fst snd]. rewrite Er.
      by rewrite (past_end_clip start end_ (k, e) raw' Hs Ep).
    + eapply wp_mono; [apply (IH it' raw' w2); [done|done|simpl in Hf; lia|apply Ha]| |done].
      intros [r it2] w3 [[Hw3 Hq3] Hp]. destruct Ha as [Hw2 Hq2]. split; [split; [done|tauto]|].
      destruct r as [o|x|]; cbn [fst snd] in *; [|tauto|done].
      rewrite clip_cons. cbn [fst]. by rewrite Er.
  - apply wp_ret. split; [done|apply Hp].
  - done.
  - destruct Hp as [-> Hit']. apply wp_ret. split; [done|]. by exists [].
Qed.

Lemma wp_next_in_range t bs iter raw E w1 :
  table_ok w t bs -> it_at t bs iter raw -> ksorted raw -> w_files w1 = w_files w ->
  wp (next_in_range iter start end_) (in_range_post t bs raw w1) E w1.
Proof.
  intros. unfold next_in_range. eapply wp_next_in_range_loop; [done|done|done| |done].
  by eapply iter_fuel_enough.
Qed.

Lemma from_mem_at m : ksorted (MemTable.entries m) ->
  source_at (from_mem m start end_) (clip (MemTable.entries m)).
Proof. intros Hs. split; [by apply clip_sorted|done]. Qed.

Lemma wp_from_table t bs iter raw (Q : PeekSource -> World -> Prop) E w1 :
  held reg w t bs -> it_at t bs iter raw -> ksorted raw -> w_files w1 = w_files w ->
  (forall s w', source_at s (clip raw) -> after w w1 w' -> Q s w') ->
  (forall e w', w_files w' = w_files w -> ~ quiet w1 -> E e w') ->
  wp (from_table iter start end_) Q E w1.
Proof.
  intros Ht Hit Hs Hw1 HQ HE. unfold from_table. apply wp_bind. pose proof (held_ok _ _ _ _ Ht) as Htok.
  eapply wp_mono; [by apply (wp_next_in_range t bs iter raw (fun _ _ => False))| |done].
  intros [[o|x|] it'] w2 [Ha Hp]; cbn [fst snd] in Hp; [|apply wp_bind, wp_err, HE; [apply Ha|done]|done].
  apply wp_bind, wp_ret, wp_ret. destruct Hp as (raw' & Hit' & Hs' & Hh & Htl).
  apply HQ; [|done]. split; [by apply clip_sorted|]. split; [done|]. by exists t, bs, raw'.
Qed.

Lemma wp_source_advance s x r (Q : result unit * PeekSource -> World -> Prop) E w1 :
  source_at s (x :: r) -> w_files w1 = w_files w ->
  (forall s' w', source_at s' r -> after w w1 w' -> Q (Ok tt, s') w') ->
  (forall e s' w', w_files w' = w_files w -> ~ quiet w1 -> Q (Err e, s') w') ->
  wp (source_advance s start end_) Q E w1.
Proof.
  intros (Hs & Hh & Hrest) Hw1 HQ HE. apply ksorted_cons in Hs as [F Hs]. unfold source_advance.
  destruct (ps_rest s) as [items|iter].
  - subst items. apply wp_ret, HQ; [|by split]. by split.
  - destruct Hrest as (t & bs & raw & Ht & Hit & Hraw & Htl). specialize (Htl ltac:(done)). cbn in Htl.
    pose proof (held_ok _ _ _ _ Ht) as Htok. apply wp_bind. eapply wp_mono; [by apply (wp_next_in_range t bs iter raw (fun _ _ => False))| |done].
    intros [[o|e|] it'] w2 [Ha Hp]; cbn [fst snd] in Hp; [|apply wp_ret, HE; [apply Ha|done]|done].
    destruct Hp as (raw' & Hit' & Hs' & Hh' & Htl'). apply wp_ret, HQ; [|done].
    rewrite <- Htl in *. split; [done|]. split; [done|]. by exists t, bs, raw'.
Qed.

Lemma wp_table_sources ts bss (Q : list PeekSource -> World -> Prop) E w1 :
  Forall2 (held reg w) ts bss -> w_files w1 = w_files w ->
  (forall ss w', Forall2 source_at ss (clip <$> (run_of <$> bss)) -> after w w1 w' -> Q ss w') ->
  (forall e w', w_files w' = w_files w -> ~ quiet w1 -> E e w') ->
  wp (EngineIterator.table_sources ts start end_) Q E w1.
Proof.
  intros Hts. revert Q w1. induction Hts as [|t bs ts bss Ht Hts IH]; intros Q w1 Hw1 HQ HE.
  { apply wp_ret. apply HQ; [constructor|by split]. }
  cbn [EngineIterator.table_sources]. apply wp_bind.
  eapply (wp_new w t bs (held_ok _ _ _ _ Ht)); [done| |intros e w' [? _] ?; by apply HE].
  intros it w2 Hit [Hw2 Hq2]. apply wp_bind.
  eapply wp_from_table; [done|done|apply (held_ok _ _ _ _ Ht)|done| |intros; apply HE; [done|tauto]].
  intros s w3 Hsrc [Hw3 Hq3]. apply wp_bind. apply IH; [done| |intros; apply HE; [done|tauto]].
  intros ss w4 Hss [Hw4 Hq4]. apply wp_ret, HQ; [by constructor|split; [done|tauto]].
Qed.

(** ** One round *)

Lemma source_head s r : source_at s r -> head r = ps_next s.
Proof. by intros (_ & ? & _). Qed.

Lemma find_best_none ss rs idx best :
  Forall2 source_at ss rs -> EngineIterator.find_best idx ss best = None ->
  best = None /\ Forall (fun r => r = []) rs.
Proof.
  intros Hss. revert idx best. induction Hss as [|s r ss rs Hsrc Hss IH]; intros idx best; [done|].
  cbn [EngineIterator.find_best]. intros [Hb Hr]%IH. rewrite <- (source_head s r Hsrc) in Hb.
  destruct r as [|[k e] r]; cbn in Hb; [by split; [|constructor]|].
  destruct best as [[b bk]|]; [by destruct (key_ltb k bk)|done].
Qed.

(** The least head key, and the entry of the first source that has it. *)
Lemma find_best_some ss rs idx best i key :
  Forall2 source_at ss rs -> EngineIterator.find_best idx ss best = Some (i, key) ->
  key_bound key rs /\
  match best with Some (_, bk) => key_le key bk | None => True end /\
  (best = Some (i, key) \/
   exists j s e, i = (idx + j)%nat /\ ss !! j = Some s /\ ps_next s = Some (key, e) /\
     first_some (head_entry key) rs = Some e /\
     match best with Some (_, bk) => key_lt key bk | None => True end).
Proof.
  intros Hss. revert idx best. induction Hss as [|s r ss rs Hsrc Hss IH]; intros idx best.
  { cbn. intros ->. split; [constructor|]. split; [key_order|by left]. }
  cbn [EngineIterator.find_best]. intros (Hb & Hle & Hwin)%IH. unfold key_bound in *.
  pose proof (source_head s r Hsrc) as Hh. rewrite <- Hh in *.
  destruct r as [|[k e] r]; cbn [head] in *.
  - split; [by constructor|]. split; [done|]. destruct Hwin as [?|(j & s' & e' & -> & ? & ? & ? & ?)]; [by left|].
    right. exists (S j), s', e'. split_and!; [lia|done|done|done|done].
  - assert (forall j s' e', ss !! j = Some s' -> ps_next s' = Some (key, e') ->
      first_some (head_entry key) rs = Some e' -> key_lt key k ->
      match best with Some (_, bk) => key_lt key bk | None => True end ->
      exists j0 s0 e0, (S idx + j)%nat = (idx + j0)%nat /\ (s :: ss) !! j0 = Some s0 /\
        ps_next s0 = Some (key, e0) /\ first_some (head_entry key) (((k, e) :: r) :: rs) = Some e0 /\
        match best with Some (_, bk) => key_lt key bk | None => True end) as Hlater.
    { intros j s' e' H1 H2 H3 H4 H5. exists (S j), s', e'. split_and!; [lia|done|done| |done].
      cbn. rewrite decide_False; [done|]. intros ->. key_order. }
    assert (key_le key k -> Forall (fun r => match head r with Some (k, _) => key_le key k | None => True end)
      (((k, e) :: r) :: rs)) as Hcons by (intros; by constructor).
    destruct best as [[b bk]|]; [destruct (key_ltb k bk) eqn:Ek; reflect_keys|].
    + split; [by apply Hcons|]. split; [key_order|]. right.
      destruct Hwin as [[= <- <-]|(j & s' & e' & -> & ? & ? & ? & ?)]; [|by eapply Hlater; [..|key_order]].
      exists 0%nat, s, e. split_and!; [lia|done|done| |done]. cbn. by rewrite decide_True.
    + split; [apply Hcons; key_order|]. split; [done|].
      destruct Hwin as [?|(j & s' & e' & -> & ? & ? & ? & ?)]; [by left|]. right.
      by eapply Hlater; [..|key_order|].
    + split; [by apply Hcons|]. split; [done|]. right.
      destruct Hwin as [[= <- <-]|(j & s' & e' & -> & ? & ? & ? & ?)]; [|by eapply Hlater].
      exists 0%nat, s, e. split_and!; [lia|done|done| |done]. cbn. by rewrite decide_True.
Qed.

Lemma wp_advance_all key ss rs (Q : result unit * list PeekSource -> World -> Prop) E w1 :
  Forall2 source_at ss rs -> w_files w1 = w_files w ->
  (forall ss' w', Forall2 source_at ss' (drop_key key <$> rs) -> after w w1 w' -> Q (Ok tt, ss') w') ->
  (forall e ss' w', w_files w' = w_files w -> ~ quiet w1 -> Q (Err e, ss') w') ->
  wp (EngineIterator.advance_all key start end_ ss) Q E w1.
Proof.
  intros Hss. revert Q w1. induction Hss as [|s r ss rs Hsrc Hss IH]; intros Q w1 Hw1 HQ HE.
  { apply wp_ret. apply HQ; [constructor|by split]. }
  cbn [EngineIterator.advance_all]. apply wp_bind.
  assert (forall s' w2, source_at s' (drop_key key r) -> after w w1 w2 ->
    wp (let! (r, sources') := EngineIterator.advance_all key start end_ ss in mret (r, s' :: sources')) Q E w2)
    as Hrest.
  { intros s' w2 Hs' [Hw2 Hq2]. apply wp_bind. apply IH; [done| |intros; apply wp_ret, HE; [done|tauto]].
    intros ss' w3 Hss' [Hw3 Hq3]. apply wp_ret, HQ; [by constructor|split; [done|tauto]]. }
  pose proof (source_head s r Hsrc) as Hh. rewrite <- Hh.
  case_bool_decide as Hk.
  - destruct r as [|[k e] r]; [done|]. injection Hk as ->.
    eapply wp_source_advance; [done|done| |intros; by apply wp_ret, HE].
    intros s' w2 Hs' Ha. apply Hrest; [|done]. cbn. by rewrite decide_True.
  - apply wp_ret. apply Hrest; [|by split]. destruct r as [|[k e] r]; [done|]. cbn.
    rewrite decide_False; [done|]. intros ->. by apply Hk.
Qed.

End sources.

(** ** The iterator *)

(** The iterator has the runs [rs] left to merge. *)
Definition iterator_at (reg : registry) (w : World) (it : EngineIterator.t) (rs : list run) : Prop :=
  Forall2 (source_at reg w (EngineIterator.start it) (EngineIterator.end_ it)) (EngineIterator.sources it) rs.

Lemma iterator_sorted reg w it rs : iterator_at reg w it rs -> Forall ksorted rs.
Proof.
  intros H. eapply Forall2_Forall_r; [exact H|]. apply Forall_forall. by intros s _ r (? & _).
Qed.

Lemma source_fuel_enough reg w st en s r :
  source_at reg w st en s r -> (length r <= EngineIterator.source_fuel s)%nat.
Proof.
  intros (_ & _ & Hr). unfold EngineIterator.source_fuel. destruct r as [|x r]; [simpl; lia|].
  destruct (ps_rest s) as [items|iter]; [subst; simpl; lia|].
  destruct Hr as (t & bs & raw & _ & Hit & _ & Htl). specialize (Htl ltac:(done)). cbn in Htl. subst r.
  pose proof (iter_fuel_enough t bs iter raw Hit). pose proof (clip_length st en raw). simpl. lia.
Qed.

Lemma scan_fuel_enough reg w it rs :
  iterator_at reg w it rs -> (total_len rs < EngineIterator.scan_fuel it)%nat.
Proof.
  unfold iterator_at, EngineIterator.scan_fuel. generalize (EngineIterator.sources it). intros ss.
  induction 1 as [|s r ss rs Hs Hss IH]; [apply Nat.lt_0_succ|]. rewrite total_len_cons, fmap_cons.
  pose proof (source_fuel_enough _ _ _ _ _ _ Hs). simpl in *. lia.
Qed.

(** What a call of [next] returns, and what it leaves. *)
Definition iterator_post (reg : registry) (w : World) (rs : list run) (w1 : World)
    (x : option (result (bytes * bytes)) * EngineIterator.t) (w' : World) : Prop :=
  after w w1 w' /\
  match fst x with
  | None => is_merge true rs []
  | Some (Ok (k, v)) => exists rs', iterator_at reg w (snd x) rs' /\ (total_len rs' < total_len rs)%nat /\
      forall out, is_merge true rs' out -> is_merge true rs ((k, Value v) :: out)
  | Some (Err _) => ~ quiet w1
  | Some Panic => False
  end.

Lemma wp_iterator_loop reg w fuel it rs E w1 :
  iterator_at reg w it rs -> (total_len rs < fuel)%nat -> w_files w1 = w_files w ->
  wp (EngineIterator.next_loop fuel it) (iterator_post reg w rs w1) E w1.
Proof.
  revert it rs w1. induction fuel as [|fuel IH]; intros it rs w1 Hit Hf Hw1; [lia|].
  cbn [EngineIterator.next_loop].
  destruct (EngineIterator.find_best 0 (EngineIterator.sources it) None) as [[i key]|] eqn:Eb.
  2: { apply wp_ret. split; [by split|]. apply is_merge_done. by eapply find_best_none. }
  pose proof (iterator_sorted reg w it rs Hit) as Hs.
  destruct (find_best_some reg w (EngineIterator.start it) (EngineIterator.end_ it) _ rs _ _ _ _ Hit Eb)
    as (Hb & _ & [|(j & s & e & -> & Hsj & Hnext & Hfirst & _)]); [done|].
  cbn [Nat.add]. rewrite Hsj. apply wp_bind, wp_ret. rewrite Hnext. cbn [fmap option_fmap option_map snd].
  assert (newest rs key = Some e) as Hn by (by rewrite newest_winner).
  assert (exists r, r ∈ rs /\ head r = Some (key, e)) as (r & Hr & Hhd).
  { destruct (Forall2_elem_l _ _ _ s Hit) as (r & Hr & _ & Hh & _); [by eapply list_elem_of_lookup_2|].
    exists r. by rewrite Hh. }
  pose proof (total_len_drop key rs r e Hr Hhd) as Hlt.
  rewrite !bound_as_ref_id. apply wp_bind. eapply wp_advance_all; [exact Hit|done| |].
  2: { intros x ss' w2 Hw2 Hq. apply wp_ret. split; [split; [done|tauto]|done]. }
  intros ss' w2 Hss' [Hw2 Hq2]. destruct e as [v|].
  - apply wp_ret. split; [by split|]. exists (drop_key key <$> rs). split; [done|]. split; [done|].
    intros out Ho. by apply (is_merge_round true key rs out (Value v)).
  - eapply wp_mono; [apply (IH _ (drop_key key <$> rs) w2); [done|lia|done]| |done].
    intros [item it'] w3 [[Hw3 Hq3] Hp]. split; [split; [done|tauto]|].
    pose proof (fun out => is_merge_round true key rs out Tombstone Hs Hb Hn) as Hround. cbn in Hround.
    destruct item as [[[k v]|x|]|]; cbn [fst snd] in *; [|tauto|done|by apply Hround].
    destruct Hp as (rs' & H1 & H2 & H3). exists rs'. split; [done|]. split; [lia|]. auto.
Qed.

Definition as_value (x : bytes * bytes) : bytes * Entry := (fst x, Value (snd x)).

Lemma wp_collect reg w fuel it rs w1 :
  iterator_at reg w it rs -> (total_len rs < fuel)%nat -> w_files w1 = w_files w ->
  wp (collect_scan fuel it) (fun l w' => is_merge true rs (as_value <$> l) /\ w_files w' = w_files w)
    (fun _ w' => w_files w' = w_files w /\ ~ quiet w1) w1.
Proof.
  revert it rs w1. induction fuel as [|fuel IH]; intros it rs w1 Hit Hf Hw1; [lia|].
  cbn [collect_scan]. apply wp_bind. eapply wp_mono.
  { apply (wp_iterator_loop reg w _ it rs (fun _ _ => False) w1); [done|by eapply scan_fuel_enough|done]. }
  2: done.
  intros [[[[k v]|x|]|] it'] w2 [[Hw2 Hq2] Hp]; cbn [fst snd] in Hp;
    [|by apply wp_bind, wp_err|done|by apply wp_ret].
  destruct Hp as (rs' & Hit' & Hlt & Hm). apply wp_bind, wp_ret, wp_bind.
  eapply wp_mono; [apply (IH it' rs' w2); [done|lia|done]| |intros ? ? [? ?]; split; [done|tauto]].
  intros l w3 [Hl Hw3]. apply wp_ret. split; [|done]. rewrite fmap_cons. by apply Hm.
Qed.

(** Opening a scan on a readable engine. *)
Lemma wp_scan reg e w db start end_ (Q : EngineIterator.t -> World -> Prop) E :
  readable reg e w db -> ksorted (MemTable.entries (Engine.memtable e)) ->
  match Engine.immutable e with Some imm => ksorted (MemTable.entries imm) | None => True end ->
  (forall it w', iterator_at reg w it (clip start end_ <$> layers reg e) ->
     w_files w' = w_files w -> (quiet w -> quiet w') -> Q it w') ->
  (forall x w', w_files w' = w_files w -> ~ quiet w -> E x w') ->
  wp (scan e start end_) Q E w.
Proof.
  intros Hrd Hmem Himm HQ HE. unfold scan, EngineIterator.new. rewrite tables_newest_first_concat.
  assert (exists bss, Forall2 (held reg w) (concat (Version.levels (s_version (Engine.shared e)))) bss /\
    run_of <$> bss = runs_of (table_run reg) (concat (Version.levels (s_version (Engine.shared e)))))
    as (bss & Hts & Hruns).
  { pose proof (rd_tables _ _ _ _ Hrd) as Hst. induction Hst as [|t ts Ht Hts IH]; [by exists []|].
    destruct IH as (bss & H1 & H2). pose proof Ht as [_ _ (bs & Hb & Hok) _]. exists (bs :: bss).
    split; [by constructor|]. rewrite runs_of_cons, fmap_cons, H2. by rewrite (table_run_eq _ _ _ Hb). }
  apply wp_bind. eapply wp_table_sources; [done|done| |done].
  intros ss w2 Hss [Hw2 Hq2]. apply wp_ret, HQ; [|done|done].
  rewrite !clone_bound_id. unfold iterator_at, layers. cbn [EngineIterator.sources EngineIterator.start EngineIterator.end_].
  rewrite fmap_cons, fmap_app. constructor; [by apply from_mem_at|].
  apply Forall2_app; [|by rewrite <- Hruns].
  destruct (Engine.immutable e); [|constructor]. by repeat constructor; apply from_mem_at.
Qed.

(** What a scan must return: the pairs of the map in the bounds, in key order. *)
Definition scan_of (db : gmap bytes bytes) (start end_ : Bound) (l : list (bytes * bytes)) : Prop :=
  StronglySorted (fun x y => key_lt (fst x) (fst y)) l /\
  forall k v, (k, v) ∈ l <-> db !! k = Some v /\ in_range k start end_ = true.

Lemma merge_scan_of reg e w db start end_ l :
  readable reg e w db -> is_merge true (clip start end_ <$> layers reg e) (as_value <$> l) ->
  scan_of db start end_ l.
Proof.
  intros Hrd [Hs Hl]. split.
  - unfold ksorted in Hs. clear Hl. induction l as [|x l IH]; [constructor|]. rewrite fmap_cons in Hs.
    apply StronglySorted_cons in Hs as [F Hs]. constructor; [by apply IH|].
    by rewrite Forall_fmap in F.
  - intros k v. rewrite (rd_db _ _ _ _ Hrd k). specialize (Hl k). rewrite newest_clip in Hl.
    assert ((k, v) ∈ l <-> alookup (as_value <$> l) k = Some (Value v)) as ->.
    { split.
      - intros Hin. apply ksorted_elem_alookup; [done|]. apply list_elem_of_fmap. by exists (k, v).
      - intros Ha%alookup_Some_elem. apply list_elem_of_fmap in Ha as ([k' v'] & [= -> ->] & ?). done. }
    rewrite Hl. destruct (in_range k start end_); [|naive_solver].
    destruct (newest (layers reg e) k) as [[v'|]|]; cbn; naive_solver.
Qed.

(** ** Properties *)

(** C9: a range scan is the map, in order.  In every reachable state and for any
    bounds, a scan that succeeds yields exactly the pairs that the acknowledged
    writes left in the bounds, deleted keys excluded, each key once and in
    increasing order; it always ends, never panics, changes no file, and
    succeeds when no failure is pending. *)
Theorem scan_refines_map `{Libm} o n ops s start end_ fuel :
  options_ok o -> reachable o n ops s -> n < 2 ^ 30 -> n < Z.of_nat fuel ->
  let '(r, w') := (let! it := scan (st_engine s) start end_ in collect_scan fuel it) (st_world s) in
  w_files w' = w_files (st_world s) /\
  match r with
  | Ok l => scan_of (spec_map ops) start end_ l
  | Err _ => ~ quiet (st_world s)
  | Panic => False
  end.
Proof.
  intros Ho Hr Hn Hf. destruct (reachable_ok o n ops s Ho Hr Hn) as [reg Hok].
  pose proof (engine_ok_readable _ _ _ _ _ _ _ Hok) as Hrd.
  set (db := spec_map ops) in *. set (e := st_engine s) in *. set (w := st_world s) in *.
  assert (wp (let! it := scan e start end_ in collect_scan fuel it)
    (fun l w' => w_files w' = w_files w /\ scan_of db start end_ l)
    (fun _ w' => w_files w' = w_files w /\ ~ quiet w) w) as Hwp.
  { apply wp_bind. eapply wp_scan; [done| | | |done].
    - destruct (eo_log _ _ _ _ _ _ _ Hok) as (l & Hl & _ & ->). apply (mo_wf _ (replay_ok l Hl)).
    - by rewrite (eo_imm _ _ _ _ _ _ _ Hok).
    - intros it w1 Hit Hw1 Hq1. eapply wp_mono; [apply (wp_collect reg w fuel it _ w1 Hit); [|done]| |].
      + pose proof (eo_size _ _ _ _ _ _ _ Hok). pose proof (total_len_clip start end_ (layers reg e)). lia.
      + intros l w2 [Hm Hw2]. split; [done|]. by eapply merge_scan_of.
      + intros x w2 [Hw2 Hq]. split; [done|tauto]. }
  unfold wp in Hwp. destruct (mbind _ _ w) as [[l|x|] w']; tauto.
Qed.

#[local] Instance scan_sizing : Libm := demo_libm.

Lemma scan_refines_map_witness :
  exists w', (let! it := scan (st_engine demo2) (Included [x61]) (Excluded [x63]) in collect_scan 7 it)
    (st_world demo2) = (Ok [([x61], [x32]); ([x62], [])], w') /\
  scan_of (spec_map (demo_ops ++ [Put [x61] [x32]])) (Included [x61]) (Excluded [x63])
    [([x61], [x32]); ([x62], [])].
Proof.
  pose proof (scan_refines_map for_test 6 (demo_ops ++ [Put [x61] [x32]]) demo2 (Included [x61])
    (Excluded [x63]) 7 demo_options demo2_reachable) as Hthm.
  destruct ((let! it := scan (st_engine demo2) (Included [x61]) (Excluded [x63]) in collect_scan 7 it)
    (st_world demo2)) as [r w'] eqn:E.
  assert (r = Ok [([x61], [x32]); ([x62], [])]) as ->
    by (change r with (fst (r, w')); rewrite <- E; vm_compute; reflexivity).
  exists w'. split; [reflexivity|]. apply Hthm; reflexivity.
Defined.
