(* ===== verification/Threads.v ===== *)
(** * Two threads in the engine ([src/engine.rs])

    The thread that owns the engine and the compaction worker share the version
    and the manifest, each behind its lock.  A method is cut here where it takes
    or gives back a lock: a section is what it does in between, and other
    sections may run before the next one.  [flush_at] and [compact_at] are the
    points between two sections, with the local variables that are alive there.
    [methods_in_sections] says that the sections one after the other are the
    methods of [Engine]; [Concurrent] lets the two threads interleave.

    Writing a table file is one section: no other thread knows its name, and
    the tables a merge reads are never written again.  So are the accesses to
    the log and the memtables, which only the owner of the engine has. *)

From S2P Require Import Prelude Bytes Errors Collections Records World Wal Memtable.
From S2P Require Import Bloom Cache Names SsTables Manifests Compaction Versions Engine.

(** ** Flushing *)

Inductive flush_at :=
| FIdle
| FNamed (id : Z) (snapshot : list (bytes * Entry))
| FWritten (id : Z) (table : SsTable.t)
| FRecorded (table : SsTable.t)
| FInstalled.

Definition flush_section `{Libm} (f : flush_at) : M Engine.EW flush_at :=
  let! e := Engine.self in
  match f with
  | FIdle =>
      if MemTable.is_empty (Engine.memtable e) then
        let! _ := Engine.on_disk (Wal.sync (Engine.wal e)) in mret FIdle
      else
      let snapshot := MemTable.iter (Engine.memtable e) in
      let! _ := Engine.modify (Engine.set_memtable MemTable.new) in
      let! _ := Engine.modify (Engine.set_immutable (Some MemTable.new)) in
      let! _ := Engine.modify (Engine.set_immutable (Some (Engine.rebuild snapshot))) in
      let! id := Engine.on_shared (with_manifest Manifest.next_table_id) in
      mret (FNamed id snapshot)
  | FNamed id snapshot =>
      let! table := Engine.on_disk (SsTable.create (table_file_name id) id snapshot
        (bloom_false_positive_rate (Engine.options e)) (block_size (Engine.options e))) in
      mret (FWritten id table)
  | FWritten id table =>
      let! _ := Engine.on_shared (with_manifest (Manifest.add_table id 0)) in
      mret (FRecorded table)
  | FRecorded table =>
      let! _ := Engine.on_shared (
        let! s := shared_self in
        let! version := mlift (Engine.insert_l0 table (s_version s)) in
        shared_modify (set_version version)) in
      mret FInstalled
  | FInstalled =>
      let! _ := Engine.on_disk (Wal.truncate (Engine.wal e)) in
      let! _ := Engine.modify (Engine.set_immutable None) in
      mret FIdle
  end.

(** The sections up to the end of the method. *)
Fixpoint flush_from `{Libm} (fuel : nat) (f : flush_at) : M Engine.EW unit :=
  match fuel with
  | O => mlift Panic
  | S fuel' =>
      let! f := flush_section f in
      match f with
      | FIdle => mret tt
      | _ => flush_from fuel' f
      end
  end.

(** ** Compacting *)

Inductive compact_at :=
| CIdle
| CPlanned (version : Version.t) (job : CompactionJob)
| CNamed (version : Version.t) (job : CompactionJob) (output_id : Z)
| CWritten (p : Pending)
| CRecorded (p : Pending)
| CInstalled (p : Pending).

Definition compact_section `{Libm} (b : compact_at) : M SW compact_at :=
  let! s := shared_self in
  let options := s_options s in
  match b with
  | CIdle =>
      match pick_compaction (s_version s) options with
      | None => mret CIdle
      | Some job => mret (CPlanned (s_version s) job)
      end
  | CPlanned version job =>
      let! output_id := with_manifest Manifest.next_table_id in
      mret (CNamed version job output_id)
  | CNamed version job output_id =>
      let! output := on_files (compact (inputs job) (table_file_name output_id) output_id
        (bloom_false_positive_rate options) (block_size options)
        (drop_tombstones version options job)) in
      mret (CWritten (mkPending version job (SsTable.set_level (output_level job) output)))
  | CWritten p =>
      let! _ := with_manifest (
        let! _ := Manifest.add_table (SsTable.id (p_output p)) (wrap32 (output_level (p_job p))) in
        Manifest.remove_tables (SsTable.id <$> inputs (p_job p))) in
      mret (CRecorded p)
  | CRecorded p =>
      let! version := mlift (apply_compaction (s_version s) (p_job p) (p_output p)) in
      let! _ := shared_modify (set_version version) in
      mret (CInstalled p)
  | CInstalled p =>
      let! _ := remove_inputs (p_version p) (inputs (p_job p)) in
      mret CIdle
  end.

Fixpoint compact_from `{Libm} (fuel : nat) (b : compact_at) : M SW unit :=
  match fuel with
  | O => mlift Panic
  | S fuel' =>
      let! b := compact_section b in
      match b with
      | CIdle => mret tt
      | _ => compact_from fuel' b
      end
  end.

(** ** Writing *)

(** [write] up to the test of the memtable's size. *)
Definition write_section (operation : Operation) : M Engine.EW unit :=
  let! e := Engine.self in
  let! _ := Engine.on_disk (Wal.append (Engine.wal e) operation) in
  let! _ := Engine.on_disk (Wal.sync (Engine.wal e)) in
  Engine.modify (fun e => Engine.set_memtable (apply (Engine.memtable e) operation) e).

(** [put] and [delete] up to there. *)
Definition user_section (operation : Operation) : M Engine.EW unit :=
  match operation with
  | Put key value =>
      let! _ := mlift (Engine.validate_key key) in
      let! _ := mlift (Engine.validate_value value) in
      write_section operation
  | Delete key =>
      let! _ := mlift (Engine.validate_key key) in
      write_section operation
  end.

(** ** The sections make up the methods *)

Lemma bind_ext {S A B} (m : M S A) (f g : A -> M S B) s :
  (forall a s', m s = (Ok a, s') -> f a s' = g a s') -> mbind m f s = mbind m g s.
Proof. unfold mbind. destruct (m s) as [[] ?]; auto. Qed.

(** Unfold the parts of the state down to the calls themselves. *)
Ltac run_parts :=
  lazy beta iota zeta delta [fst snd Engine.on_disk Engine.on_shared with_manifest on_files mzoom mbind
    mret mlift Engine.self shared_self Engine.modify shared_modify mmodify flush_section
    compact_section].

Lemma flush_from_S `{Libm} n f ew :
  flush_from (S n) f ew =
  (let! f := flush_section f in match f with FIdle => mret tt | _ => flush_from n f end) ew.
Proof. reflexivity. Qed.

Lemma compact_from_S `{Libm} n b sw :
  compact_from (S n) b sw =
  (let! b := compact_section b in match b with CIdle => mret tt | _ => compact_from n b end) sw.
Proof. reflexivity. Qed.

Lemma flush_sections `{Libm} ew : Engine.flush_memtable ew = flush_from 5 FIdle ew.
Proof.
  destruct ew as [e w]. unfold Engine.flush_memtable. rewrite flush_from_S. run_parts.
  destruct (MemTable.is_empty (Engine.memtable e)); run_parts.
  { destruct (Wal.sync (Engine.wal e) w) as [[[]|x|] w1]; reflexivity. }
  destruct (Manifest.next_table_id _) as [[id|x|] [m1 w1]]; run_parts; [rewrite flush_from_S; run_parts|reflexivity|reflexivity].
  destruct (SsTable.create _ _ _ _ _ _) as [[t|x|] w2]; run_parts; [rewrite flush_from_S; run_parts|reflexivity|reflexivity].
  destruct (Manifest.add_table _ _ _) as [[[]|x|] [m3 w3]]; run_parts; [rewrite flush_from_S; run_parts|reflexivity|reflexivity].
  destruct (Engine.insert_l0 _ _) as [v|x|]; run_parts; [rewrite flush_from_S; run_parts|reflexivity|reflexivity].
  destruct (Wal.truncate _ _) as [[[]|x|] w4]; reflexivity.
Qed.

Lemma compact_sections `{Libm} sw : compact_once sw = compact_from 6 CIdle sw.
Proof.
  destruct sw as [s w]. unfold compact_once, compact_begin, compact_finish. rewrite compact_from_S. run_parts.
  destruct (pick_compaction _ _) as [job|]; run_parts; [rewrite compact_from_S; run_parts|reflexivity].
  destruct (Manifest.next_table_id _) as [[id|x|] [m1 w1]]; run_parts; [rewrite compact_from_S; run_parts|reflexivity|reflexivity].
  destruct (compact _ _ _ _ _ _ _) as [[t|x|] w2]; run_parts; [rewrite compact_from_S; run_parts|reflexivity|reflexivity].
  destruct (Manifest.add_table _ _ _) as [[[]|x|] [m3 w3]]; run_parts; [|reflexivity|reflexivity].
  destruct (Manifest.remove_tables _ _) as [[[]|x|] [m4 w4]]; run_parts; [rewrite compact_from_S; run_parts|reflexivity|reflexivity].
  destruct (apply_compaction _ _ _) as [v|x|]; run_parts; [rewrite compact_from_S; run_parts|reflexivity|reflexivity].
  destruct (remove_inputs _ _ _) as [[[]|x|] [s5 w5]]; reflexivity.
Qed.

Lemma write_sections `{Libm} op ew :
  Engine.write op ew =
  (let! _ := write_section op in
   let! e := Engine.self in
   if memtable_size_bytes (Engine.options e) <=? MemTable.approximate_size (Engine.memtable e)
   then Engine.flush else mret tt) ew.
Proof.
  destruct ew as [e w]. unfold Engine.write, write_section. run_parts.
  destruct (Wal.append _ _ _) as [[k|x|] w1]; run_parts; [|reflexivity|reflexivity].
  destruct (Wal.sync _ _) as [[[]|x|] w2]; reflexivity.
Qed.

(** The methods are their sections.  On every state, whatever fails, a flush is
    the five sections of [flush_section] one after the other, a compaction the
    six of [compact_section], and a write its section followed by the flush
    that a full memtable calls for. *)
Theorem methods_in_sections `{Libm} ew sw op :
  Engine.flush_memtable ew = flush_from 5 FIdle ew /\
  compact_once sw = compact_from 6 CIdle sw /\
  Engine.write op ew =
    (let! _ := write_section op in
     let! e := Engine.self in
     if memtable_size_bytes (Engine.options e) <=? MemTable.approximate_size (Engine.memtable e)
     then let! _ := flush_from 5 FIdle in Engine.maybe_request_compaction else mret tt) ew.
Proof.
  split_and!; [apply flush_sections|apply compact_sections|]. rewrite write_sections.
  apply bind_ext. intros [] ew1 _. apply bind_ext. intros e ew2 _. case_if; [|done].
  unfold Engine.flush, mbind. by rewrite flush_sections.
Qed.
