(* ===== verification/Concurrent.v ===== *)
(** * The engine under its two threads

    The thread that owns the engine and the compaction worker interleave at the
    sections of [Threads].  Between two sections the manifest may be ahead of
    the version: a table is recorded before it is installed.  The proofs look at
    the engine that has caught up, [caught_up], which is well formed in the
    sense of [EngineInv] at every point, and at what separates it from the
    engine in memory. *)

From S2P Require Import Prelude Bytes Errors Collections Records World Wal Memtable.
From S2P Require Import Bloom Cache Format Names SsTables TableWrite TableRead Manifests Merge.
From S2P Require Import Compaction Versions Engine EngineInv Recovery EngineOps Compacting EngineProps.
From S2P Require Import Threads.

(** ** States and steps *)

(** The engine, its directory, and where the two threads are. *)
Record cstate := mkC {
  cs_engine : Engine.t;
  cs_world : World;
  cs_flush : flush_at;
  cs_compact : compact_at;
}.

(** One section of one of the threads, and the writes it acknowledges.  A flush
    may start at any time, as [flush] or as the end of a write, and so may a
    compaction, whatever the worker was asked for. *)
Inductive cstep `{Libm} : cstate -> list Operation -> cstate -> Prop :=
| cstep_write op e w b e' w' :
    user_section op (e, w) = (Ok tt, (e', w')) -> cstep (mkC e w FIdle b) [op] (mkC e' w' FIdle b)
| cstep_get key r e w f b e' w' :
    Engine.get key (e, w) = (r, (e', w')) -> cstep (mkC e w f b) [] (mkC e' w' f b)
| cstep_flush e w f b f' e' w' :
    flush_section f (e, w) = (Ok f', (e', w')) -> cstep (mkC e w f b) [] (mkC e' w' f' b)
| cstep_compact e w f b b' e' w' :
    Engine.on_shared (compact_section b) (e, w) = (Ok b', (e', w')) ->
    cstep (mkC e w f b) [] (mkC e' w' f b')
(** The merge of a compaction fails: the worker gives up. *)
| cstep_give_up version job id x e w f e' w' :
    Engine.on_shared (compact_section (CNamed version job id)) (e, w) = (Err x, (e', w')) ->
    cstep (mkC e w f (CNamed version job id)) [] (mkC e' w' f CIdle)
(** The worker's channel and its error slot. *)
| cstep_worker wk le e w f b :
    cstep (mkC e w f b) []
      (mkC (Engine.set_worker wk (Engine.set_shared (set_last_error le (Engine.shared e)) e)) w f b)
| cstep_faults e w f b w' : w_files w' = w_files w -> cstep (mkC e w f b) [] (mkC e w' f b).

(** What a step to the point [f'] of the flush counts for: recording a flushed
    table counts its entries, which are in the log and in a table from then on. *)
Definition cost (s : cstate) (f' : flush_at) : Z :=
  match cs_flush s, f', Engine.immutable (cs_engine s) with
  | FWritten _ _, FRecorded _, Some imm => 1 + len (MemTable.entries imm)
  | _, _, _ => 1
  end.

(** Sections of the threads, and crashes between any two of them. *)
Inductive creachable `{Libm} (o : Options) : Z -> list Operation -> cstate -> Prop :=
| creach_open w e w' :
    fresh_dir w -> Engine.open_with o w = (Ok e, w') -> creachable o 0 [] (mkC e w' FIdle CIdle)
| creach_step n ops s ops' s' :
    creachable o n ops s -> cstep s ops' s' -> creachable o (n + cost s (cs_flush s')) (ops ++ ops') s'
| creach_crash n ops s w2 e' w' :
    creachable o n ops s -> crashed (cs_world s) w2 -> Engine.open_with o w2 = (Ok e', w') ->
    creachable o (n + 1) ops (mkC e' w' FIdle CIdle).

Lemma cost_pos s f' : 1 <= cost s f'.
Proof.
  unfold cost. destruct (cs_flush s), f'; try lia. destruct (Engine.immutable _) as [imm|]; [|lia].
  pose proof (len_nonneg (MemTable.entries imm)). lia.
Qed.

(** ** A flushed table and a compaction do not get in each other's way *)

(** The level that a compaction writes to is not the one that a flush does. *)
Lemma insert_apply_commute t v job out :
  0 < output_level job < len (Version.levels v) -> SsTable.id t ∉ SsTable.id <$> inputs job ->
  (let? v' := Engine.insert_l0 t v in apply_compaction v' job out) =
  (let? v' := apply_compaction v job out in Engine.insert_l0 t v').
Proof.
  intros Hlvl Ht. destruct v as [[|l0 rest]]; cbn [Version.levels] in *; [unfold len in Hlvl; simpl in Hlvl; lia|].
  unfold Engine.insert_l0 at 1. cbn [Version.levels]. rsimpl.
  unfold apply_compaction. cbn [Version.levels]. rewrite !fmap_cons, filter_cons, decide_True by done.
  cbn zeta. set (p := fun level => base.filter _ level). set (kept := p <$> rest).
  assert (forall l : list SsTable.t, len (l :: kept) = len (l0 :: rest)) as Hlen.
  { intros l. unfold kept. by rewrite !len_cons, len_fmap. }
  rewrite !Hlen. replace (Z.to_nat (Z.min (output_level job) (Z.max 0 (len (l0 :: rest) - 1))))
    with (S (Z.to_nat (output_level job - 1))) by lia.
  cbn [lookup list_lookup]. fold (p l0).
  destruct (kept !! Z.to_nat (output_level job - 1)) as [l|]; cbn [or_panic]; rsimpl; done.
Qed.

(** ** The invariant *)

(** A later registry and world, in which every registered table is still there. *)
Definition extends (reg : registry) (w : World) (reg' : registry) (w' : World) : Prop :=
  reg ⊆ reg' /\ forall id, is_Some (reg !! id) ->
    w_files w' !! table_file_name id = w_files w !! table_file_name id.

Lemma extends_refl reg w : extends reg w reg w.
Proof. done. Qed.

Lemma extends_trans reg1 w1 reg2 w2 reg3 w3 :
  extends reg1 w1 reg2 w2 -> extends reg2 w2 reg3 w3 -> extends reg1 w1 reg3 w3.
Proof.
  intros [Hs1 Hf1] [Hs2 Hf2]. split; [by etrans|]. intros id [bs Hid].
  rewrite Hf2 by (exists bs; by eapply lookup_weaken). apply Hf1. by exists bs.
Qed.

Lemma extends_files reg w w' : w_files w' = w_files w -> extends reg w reg w'.
Proof. intros Hw. split; [done|]. intros. by rewrite Hw. Qed.

Lemma extends_manifest reg w w' : only_manifest w w' -> extends reg w reg w'.
Proof. intros Hw. split; [done|]. intros. apply Hw, table_neq_manifest. Qed.

Lemma stored_ext reg w reg' w' t : extends reg w reg' w' -> stored reg w t -> stored reg' w' t.
Proof.
  intros [Hs Hf] Ht. eapply stored_mono; [done|done|]. apply Hf. destruct Ht as [_ _ (bs & ? & _) _]. by exists bs.
Qed.

Lemma runs_ext reg w reg' w' l :
  extends reg w reg' w' -> Forall (stored reg w) l -> runs_of (table_run reg') l = runs_of (table_run reg) l.
Proof.
  intros [Hs _] Hl. apply runs_of_ext. intros t Ht. eapply table_run_mono; [done|].
  by apply (proj1 (Forall_forall _ _) Hl).
Qed.

Lemma stored_unregistered reg w l id :
  Forall (stored reg w) l -> reg !! id = None -> id ∉ SsTable.id <$> l.
Proof.
  intros Hl Hn (t & -> & Ht)%list_elem_of_fmap.
  destruct (proj1 (Forall_forall _ _) Hl t Ht) as [_ _ (bs & ? & _) _]. congruence.
Qed.

(** An id that was given out but is not in use yet. *)
Definition reserved (reg : registry) (m : Manifest.t) (id : Z) : Prop :=
  reg !! id = None /\ 0 <= id < Manifest.next_id m.

(** A compaction planned on an earlier version. *)
Record planned (o : Options) (v v0 : Version.t) (job : CompactionJob) : Prop := {
  pl_levels : len (Version.levels v0) = max_levels o;
  pl_job : pick_compaction v0 o = Some job;
  pl_later : exists extra, Version.levels v = push_l0 extra (Version.levels v0);
}.

(** The inputs of a planned compaction are tables of the version. *)
Lemma planned_input o v v0 job t :
  2 <= max_levels o -> planned o v v0 job -> t ∈ inputs job -> t ∈ concat (Version.levels v).
Proof.
  intros Ho [Hl Hj [extra He]] Ht. rewrite He. apply push_l0_elem. by eapply pick_inputs.
Qed.

Section invariant.
Context (o : Options) (reg : registry) (w : World) (ops : list Operation) (db : gmap bytes bytes).
Abbreviation l := (MemTable.entries (replay_mem ops)).
Abbreviation ids v := (SsTable.id <$> concat (Version.levels v)).

(** The memtable is frozen: its copy answers the reads. *)
Definition is_frozen (e : Engine.t) : Prop :=
  Engine.memtable e = MemTable.new /\ Engine.immutable e = Some (Engine.rebuild l).

(** A table with the entries of the log. *)
Definition flushed (t : SsTable.t) : Prop := stored reg w t /\ table_run reg t = l.

(** What the flush has done; [v] is the version in memory, [vh] the one that the
    manifest lists. *)
Definition flush_ok (m : Manifest.t) (v vh : Version.t) (e : Engine.t) (f : flush_at) : Prop :=
  match f with
  | FIdle => Engine.memtable e = replay_mem ops /\ Engine.immutable e = None
  | FNamed id snapshot => is_frozen e /\ snapshot = l /\ reserved reg m id
  | FWritten id t => is_frozen e /\ id = SsTable.id t /\ flushed t /\ (id ∉ ids v) /\ (id ∉ ids vh)
  | FRecorded t => is_frozen e /\ flushed t /\ (SsTable.id t ∉ ids v) /\ shows reg [] vh db
  | FInstalled => is_frozen e /\ shows reg [] vh db
  end.

(** What the compaction has done. *)
Definition compact_ok (m : Manifest.t) (v vh : Version.t) (b : compact_at) : Prop :=
  match b with
  | CIdle => True
  | CPlanned v0 job => planned o v v0 job
  | CNamed v0 job id => planned o v v0 job /\ reserved reg m id
  | CWritten p => planned o v (p_version p) (p_job p) /\ stored reg w (p_output p) /\
      is_merge (drop_tombstones (p_version p) o (p_job p))
        (runs_of (table_run reg) (inputs (p_job p))) (table_run reg (p_output p)) /\
      SsTable.id (p_output p) ∉ ids vh
  | CRecorded p => planned o v (p_version p) (p_job p)
  | CInstalled p => forall t, t ∈ inputs (p_job p) -> t ∈ concat (Version.levels (p_version p))
  end.

End invariant.

(** The ids of the tables that no one else knows of. *)
Definition flush_id (f : flush_at) : option Z :=
  match f with FNamed id _ | FWritten id _ => Some id | _ => None end.
Definition compact_id (b : compact_at) : option Z :=
  match b with CNamed _ _ id => Some id | CWritten p => Some (SsTable.id (p_output p)) | _ => None end.

(** From the version in memory to the one that the manifest lists: first the
    flushed table, then the compaction. *)
Definition pushed (f : flush_at) (v v1 : Version.t) : Prop :=
  match f with FRecorded t => Engine.insert_l0 t v = Ok v1 | _ => v1 = v end.
Definition compacted (b : compact_at) (v1 vh : Version.t) : Prop :=
  match b with CRecorded p => apply_compaction v1 (p_job p) (p_output p) = Ok vh | _ => vh = v1 end.

(** The engine whose memory has caught up with the disk. *)
Definition caught_up (ops : list Operation) (vh : Version.t) (e : Engine.t) : Engine.t :=
  Engine.mk (Engine.options e) (Engine.wal e) (replay_mem ops) None (set_version vh (Engine.shared e))
    (Engine.worker e).

Abbreviation version_of e := (s_version (Engine.shared e)).
Abbreviation manifest_of e := (s_manifest (Engine.shared e)).

Record conc_at (o : Options) (reg : registry) (n : Z) (ops : list Operation) (v1 vh : Version.t)
    (s : cstate) (db : gmap bytes bytes) : Prop := {
  ca_caught : engine_ok o reg n None (caught_up ops vh (cs_engine s)) (cs_world s) db;
  ca_pushed : pushed (cs_flush s) (version_of (cs_engine s)) v1;
  ca_compacted : compacted (cs_compact s) v1 vh;
  ca_view : forall k, visible (newest (runs_of (table_run reg) (concat (Version.levels v1))) k) =
    visible (newest (runs_of (table_run reg) (concat (Version.levels vh))) k);
  ca_levels : len (Version.levels (version_of (cs_engine s))) = max_levels o;
  ca_stored : Forall (stored reg (cs_world s)) (concat (Version.levels (version_of (cs_engine s))));
  ca_log : Forall op_valid ops /\ clean_log (cs_world s) WAL_FILE_NAME ops;
  ca_flush : flush_ok reg (cs_world s) ops db (manifest_of (cs_engine s)) (version_of (cs_engine s)) vh
    (cs_engine s) (cs_flush s);
  ca_compact : compact_ok o reg (cs_world s) (manifest_of (cs_engine s)) (version_of (cs_engine s)) vh
    (cs_compact s);
  ca_names : forall id, flush_id (cs_flush s) = Some id -> compact_id (cs_compact s) = Some id -> False;
}.

Definition conc_ok (o : Options) (reg : registry) (n : Z) (s : cstate) (db : gmap bytes bytes) : Prop :=
  exists ops v1 vh, conc_at o reg n ops v1 vh s db.

(** ** What the invariant says of reads *)

Lemma visible_cons r rs k :
  visible (newest (r :: rs) k) = match alookup r k with Some x => visible (Some x) | None => visible (newest rs k) end.
Proof. unfold newest. cbn [first_some]. by destruct (alookup r k). Qed.

(** Equal below, equal on top. *)
Lemma visible_cons_ext r rs rs' k :
  visible (newest rs k) = visible (newest rs' k) -> visible (newest (r :: rs) k) = visible (newest (r :: rs') k).
Proof. intros H. rewrite !visible_cons, H. done. Qed.

Lemma visible_twice r rs k : visible (newest (r :: r :: rs) k) = visible (newest (r :: rs) k).
Proof. rewrite !visible_cons. by destruct (alookup r k). Qed.

Lemma insert_l0_levels t v v1 :
  Engine.insert_l0 t v = Ok v1 ->
  exists l0 rest, Version.levels v = l0 :: rest /\ v1 = Version.mk ((t :: l0) :: rest).
Proof. unfold Engine.insert_l0. destruct (Version.levels v) as [|l0 rest]; [done|]. intros [= <-]. eauto. Qed.

Lemma insert_l0_concat t v v1 :
  Engine.insert_l0 t v = Ok v1 -> concat (Version.levels v1) = t :: concat (Version.levels v).
Proof. intros (l0 & rest & E & ->)%insert_l0_levels. by rewrite E. Qed.

Lemma insert_l0_len t v v1 :
  Engine.insert_l0 t v = Ok v1 -> len (Version.levels v1) = len (Version.levels v).
Proof. intros (l0 & rest & E & ->)%insert_l0_levels. rewrite E. cbn. by rewrite !len_cons. Qed.

Lemma insert_l0_later t v v1 v0 extra :
  Engine.insert_l0 t v = Ok v1 -> Version.levels v = push_l0 extra v0 -> Version.levels v1 = push_l0 (t :: extra) v0.
Proof.
  intros (l0 & rest & E & ->)%insert_l0_levels. rewrite E. destruct v0 as [|l0' v0]; [done|]. by intros [= -> ->].
Qed.

Section conc.
Context (o : Options) (reg : registry) (n : Z) (ops : list Operation) (v1 vh : Version.t).
Context (s : cstate) (db : gmap bytes bytes).
Abbreviation e := (cs_engine s).
Abbreviation w := (cs_world s).
Abbreviation f := (cs_flush s).
Abbreviation b := (cs_compact s).
Abbreviation v := (version_of e).
Abbreviation m := (manifest_of e).
Abbreviation l := (MemTable.entries (replay_mem ops)).
Abbreviation run := (table_run reg).
Hypothesis Hok : conc_at o reg n ops v1 vh s db.

Lemma conc_shows : shows reg ops vh db.
Proof using Hok. intros k. apply (eo_db _ _ _ _ _ _ _ (ca_caught _ _ _ _ _ _ _ _ Hok)). Qed.

Lemma conc_sorted : ksorted l.
Proof using Hok. apply (replay_ok ops), (ca_log _ _ _ _ _ _ _ _ Hok). Qed.

Lemma conc_shows_v k : db !! k = visible (newest (l :: runs_of run (concat (Version.levels v))) k).
Proof using Hok.
  rewrite (conc_shows k), <- (visible_cons_ext l _ _ k (ca_view _ _ _ _ _ _ _ _ Hok k)).
  pose proof (ca_pushed _ _ _ _ _ _ _ _ Hok) as Hp. pose proof (ca_flush _ _ _ _ _ _ _ _ Hok) as Hf.
  destruct f; cbn [pushed] in Hp; try by rewrite Hp.
  rewrite (insert_l0_concat _ _ _ Hp), runs_of_cons. destruct Hf as (_ & [_ ->] & _). apply visible_twice.
Qed.

Lemma conc_layers k :
  visible (newest (layers reg e) k) = visible (newest (l :: runs_of run (concat (Version.levels v))) k).
Proof using Hok.
  pose proof (ca_flush _ _ _ _ _ _ _ _ Hok) as Hf. unfold layers.
  assert (is_frozen ops e -> visible (newest (MemTable.entries (Engine.memtable e) ::
    (match Engine.immutable e with Some imm => [MemTable.entries imm] | None => [] end) ++
    runs_of run (concat (Version.levels v))) k) =
    visible (newest (l :: runs_of run (concat (Version.levels v))) k)) as Hfr.
  { intros [-> ->]. by rewrite rebuild_entries by apply conc_sorted. }
  destruct f; cbn [flush_ok] in Hf; [|apply Hfr, Hf..]. by destruct Hf as [-> ->].
Qed.

Lemma conc_readable : readable reg e w db.
Proof using Hok.
  split; [apply Hok|apply (eo_cache _ _ _ _ _ _ _ (ca_caught _ _ _ _ _ _ _ _ Hok))|].
  intros k. by rewrite conc_layers, conc_shows_v.
Qed.

Lemma conc_crash w2 : 2 <= max_levels o -> crashed w w2 -> recovers o w2 db.
Proof using Hok. intros Ho Hc. eapply engine_ok_crash; [done|apply (ca_caught _ _ _ _ _ _ _ _ Hok)|done]. Qed.

(** ** Framing *)

Lemma conc_vh_stored : Forall (stored reg w) (concat (Version.levels vh)).
Proof using Hok. apply (dk_stored _ _ _ _ (eo_disk _ _ _ _ _ _ _ (ca_caught _ _ _ _ _ _ _ _ Hok))). Qed.

Lemma conc_v1_stored : Forall (stored reg w) (concat (Version.levels v1)).
Proof using Hok.
  pose proof (ca_pushed _ _ _ _ _ _ _ _ Hok) as Hp. pose proof (ca_flush _ _ _ _ _ _ _ _ Hok) as Hf.
  pose proof (ca_stored _ _ _ _ _ _ _ _ Hok) as Hs.
  destruct f; cbn [pushed] in Hp; try by rewrite Hp.
  rewrite (insert_l0_concat _ _ _ Hp). constructor; [|done]. apply Hf.
Qed.

Lemma conc_v1_len : len (Version.levels v1) = max_levels o.
Proof using Hok.
  pose proof (ca_pushed _ _ _ _ _ _ _ _ Hok) as Hp. pose proof (ca_levels _ _ _ _ _ _ _ _ Hok) as Hl.
  destruct f; cbn [pushed] in Hp; try by rewrite Hp. by rewrite (insert_l0_len _ _ _ Hp).
Qed.

Lemma conc_view_ext reg' w' k :
  extends reg w reg' w' ->
  visible (newest (runs_of (table_run reg') (concat (Version.levels v1))) k) =
  visible (newest (runs_of (table_run reg') (concat (Version.levels vh))) k).
Proof using Hok.
  intros He. rewrite (runs_ext _ _ _ _ _ He conc_v1_stored), (runs_ext _ _ _ _ _ He conc_vh_stored).
  apply (ca_view _ _ _ _ _ _ _ _ Hok).
Qed.

Lemma conc_stored_ext reg' w' : extends reg w reg' w' -> Forall (stored reg' w') (concat (Version.levels v)).
Proof using Hok.
  intros He. eapply Forall_impl; [apply (ca_stored _ _ _ _ _ _ _ _ Hok)|]. intros t. by apply stored_ext.
Qed.

Lemma shows_ext reg' w' ops' :
  extends reg w reg' w' -> shows reg ops' vh db -> shows reg' ops' vh db.
Proof using Hok. intros He Hs k. by rewrite (runs_ext _ _ _ _ _ He conc_vh_stored). Qed.

Lemma flush_ok_ext reg' w' m' e' :
  extends reg w reg' w' -> Manifest.next_id m <= Manifest.next_id m' ->
  Engine.memtable e' = Engine.memtable e -> Engine.immutable e' = Engine.immutable e ->
  (forall id, flush_id f = Some id -> reg !! id = None -> reg' !! id = None) ->
  flush_ok reg' w' ops db m' v vh e' f.
Proof using Hok.
  intros He Hn Hm Hi Hres. pose proof (ca_flush _ _ _ _ _ _ _ _ Hok) as Hf.
  assert (is_frozen ops e -> is_frozen ops e') as Hfr by (unfold is_frozen; by rewrite Hm, Hi).
  assert (forall t, flushed reg w ops t -> flushed reg' w' ops t) as Hfl.
  { intros t [Ht Hr]. split; [by eapply stored_ext|]. rewrite <- Hr. eapply table_run_mono; [apply He|done]. }
  destruct f; cbn [flush_ok] in *.
  - by rewrite Hm, Hi.
  - destruct Hf as (? & ? & Hr & ?). split; [by apply Hfr|]. split; [done|]. split; [by apply Hres|lia].
  - destruct Hf as (? & ? & ? & ?). split; [by apply Hfr|]. split; [done|]. split; [by apply Hfl|done].
  - destruct Hf as (? & ? & ? & ?). split; [by apply Hfr|]. split; [by apply Hfl|].
    split; [done|by eapply shows_ext].
  - destruct Hf as (? & ?). split; [by apply Hfr|by eapply shows_ext].
Qed.

Lemma compact_ok_ext reg' w' m' :
  2 <= max_levels o -> extends reg w reg' w' -> Manifest.next_id m <= Manifest.next_id m' ->
  (forall id, compact_id b = Some id -> reg !! id = None -> reg' !! id = None) ->
  compact_ok o reg' w' m' v vh b.
Proof using Hok.
  intros Ho He Hn Hres. pose proof (ca_compact _ _ _ _ _ _ _ _ Hok) as Hb.
  destruct b; cbn [compact_ok] in *; try done.
  - destruct Hb as (? & Hr & ?). split; [done|]. split; [by apply Hres|lia].
  - destruct Hb as (Hp & Hs & Hm & ?). split_and!; [done|by eapply stored_ext| |done].
    rewrite (runs_ext reg w reg' w'), (table_run_mono reg reg' w); [done|apply He|done|done|].
    apply Forall_forall. intros t Ht. apply (proj1 (Forall_forall _ _) (ca_stored _ _ _ _ _ _ _ _ Hok)).
    by eapply planned_input.
Qed.

End conc.

(** ** Steps of the engine that has caught up *)

Lemma engine_ok_pend o reg n e w db p :
  engine_ok o reg n None e w db -> pending_ok o reg w (version_of e) p -> engine_ok o reg n (Some p) e w db.
Proof. by intros [] ?. Qed.

(** A table with the entries of the log is recorded. *)
Lemma engine_ok_push o reg n ops v v' m c le sk rd wk w w' db t recs :
  engine_ok o reg n None (eng o ops v m c le sk rd wk) w db ->
  Forall op_valid ops -> clean_log w WAL_FILE_NAME ops ->
  flushed reg w ops t -> SsTable.id t ∉ SsTable.id <$> concat (Version.levels v) ->
  Engine.insert_l0 t v = Ok v' -> man_ok w' (Manifest.push_table (SsTable.id t) 0 m) recs -> only_manifest w w' ->
  engine_ok o reg (n + len (MemTable.entries (replay_mem ops))) None
    (eng o ops v' (Manifest.push_table (SsTable.id t) 0 m) c le sk rd wk) w' db.
Proof.
  intros Hok Hops [Hf Hlog] [Ht Hrun] Hid Hins Hman Hw.
  pose proof (insert_l0_concat _ _ _ Hins) as Hc. pose proof (insert_l0_len _ _ _ Hins) as Hl.
  pose proof (len_nonneg (MemTable.entries (replay_mem ops))) as Hnn.
  pose proof (engine_ok_shows _ _ _ _ _ _ _ _ _ _ _ _ _ _ Hok) as Hs.
  destruct Hok as [? ? ? Hlev Hd ? _ _ Hsz Hnx _ _]. split; try done; cbn [Engine.shared s_version s_manifest] in *.
  - by rewrite Hl.
  - destruct (insert_l0_levels _ _ _ Hins) as (l0 & rest & E & ->). destruct v as [ls]. cbn in E. subst ls.
    eapply disk_ok_mono; [by apply disk_ok_push|]. intros i. apply Hw, table_neq_manifest.
  - by exists recs.
  - exists ops. split_and!; [done| |done]. split; [done|]. by rewrite Hw.
  - unfold layers in *. cbn [Engine.memtable Engine.immutable Engine.shared s_version app] in *.
    rewrite Hc, runs_of_cons, Hrun. rewrite !total_len_cons in *. unfold len. lia.
  - cbn in *. lia.
  - intros k. rewrite (Hs k). unfold layers.
    cbn [Engine.memtable Engine.immutable Engine.shared s_version app].
    by rewrite Hc, runs_of_cons, Hrun, visible_twice.
Qed.

(** The log is emptied when the tables have its entries. *)
Lemma engine_ok_truncated o reg n ops v m c le sk rd wk w w' db :
  engine_ok o reg n None (eng o ops v m c le sk rd wk) w db -> shows reg [] v db ->
  w_files w' = <[WAL_FILE_NAME := mkFile [] []]> (w_files w) ->
  engine_ok o reg n None (eng o [] v m c le sk rd wk) w' db.
Proof.
  intros [? ? ? ? Hd ? [recs [Hr Hmf Hm]] _ Hsz ? _ _] Hs Hw'.
  split; try done; cbn [Engine.shared s_version s_manifest Engine.memtable] in *.
  - eapply disk_ok_mono; [done|]. intros i. rewrite Hw', lookup_insert_ne; [done|].
    intros E. by eapply table_neq_wal.
  - exists recs. split; [done| |done]. by rewrite Hw', lookup_insert_ne.
  - exists []. split_and!; [done| |done]. split; [done|]. by rewrite Hw', lookup_insert_eq.
  - unfold layers in *. cbn [Engine.memtable Engine.immutable Engine.shared s_version app] in *.
    rewrite total_len_cons in *. simpl. lia.
Qed.

(** A new table file appears. *)
Lemma published_extends reg w w' m v id bs f :
  disk_ok reg w m v -> reserved reg m id -> published (table_file_name id) bs f w w' ->
  extends reg w (<[id := bs]> reg) w'.
Proof.
  intros Hd [Hn Hid] Hp. split; [by apply insert_subseteq|]. intros i Hi.
  pose proof (dk_ids _ _ _ _ Hd i Hi). unfold published in Hp.
  rewrite Hp, lookup_insert_ne, lookup_delete_ne; [done| |].
  - intros E. by eapply table_neq_tmp.
  - intros E. apply table_file_name_inj in E; [|lia|lia]. subst i. rewrite Hn in Hi. by destruct Hi.
Qed.

Lemma published_other p id bs f w w' :
  published (table_file_name id) bs f w w' -> p <> table_file_name id -> p <> tmp_path (table_file_name id) ->
  w_files w' !! p = w_files w !! p.
Proof. intros Hp H1 H2. unfold published in Hp. by rewrite Hp, lookup_insert_ne, lookup_delete_ne. Qed.

Lemma table_frame_log w w' id ops :
  (forall p, p <> table_file_name id -> p <> tmp_path (table_file_name id) -> w_files w' !! p = w_files w !! p) ->
  clean_log w WAL_FILE_NAME ops -> clean_log w' WAL_FILE_NAME ops.
Proof.
  intros Hw [? Hf]. split; [done|]. rewrite Hw; [done| |]; intros E; [by eapply table_neq_wal|by eapply tmp_neq_wal].
Qed.

Lemma engine_ok_created o reg n e w w' db id bs f :
  engine_ok o reg n None e w db -> reserved reg (manifest_of e) id ->
  published (table_file_name id) bs f w w' -> engine_ok o (<[id := bs]> reg) n None e w' db.
Proof.
  intros Hok [Hn Hid] Hp. apply engine_ok_register; [|done|done].
  eapply engine_ok_frame; [exact Hok|done|lia|]. intros p. by apply (published_other p id bs f).
Qed.

Lemma manifest_log w w' ops : only_manifest w w' -> clean_log w WAL_FILE_NAME ops -> clean_log w' WAL_FILE_NAME ops.
Proof. intros Hw [? Hf]. split; [done|]. by rewrite Hw. Qed.

(** ** The sections keep the invariant *)

(** What a section leaves: the invariant, every table file, and no failure when
    none was pending. *)
Definition kept (o : Options) (reg : registry) (n : Z) (w : World) (db : gmap bytes bytes)
    (f : flush_at) (b : compact_at) (ew : Engine.EW) : Prop :=
  (exists reg', extends reg w reg' (snd ew) /\ conc_ok o reg' n (mkC (fst ew) (snd ew) f b) db) /\
  (quiet w -> quiet (snd ew)).

Lemma kept_intro o reg reg' n w db f b e' w' :
  extends reg w reg' w' -> (quiet w -> quiet w') -> conc_ok o reg' n (mkC e' w' f b) db ->
  kept o reg n w db f b (e', w').
Proof. intros Hx Hq Hok. split; [by exists reg'|done]. Qed.

(** The engine of these fields. *)
Abbreviation engine o mem imm v m c le sk rd wk :=
  (Engine.mk o (Wal.mk WAL_FILE_NAME) mem imm (mkShared o v m c le sk rd) wk).

Lemma conc_shape o reg n ops v1 vh s db :
  conc_at o reg n ops v1 vh s db ->
  exists mem imm v m c le sk rd wk w f b, s = mkC (engine o mem imm v m c le sk rd wk) w f b.
Proof.
  intros [[[Ho1 Ho2] Hw _ _ _ _ _ _ _ _ _ _] _ _ _ _ _ _ _ _ _].
  destruct s as [[o1 wl mem imm [o2 v m c le sk rd] wk] w f b]. cbn in *. subst. repeat eexists.
Qed.

Lemma wp_eng_shared_bind {A B} (h : M SW A) (k : A -> M SW B) (Q : B -> Engine.EW -> Prop) E e w :
  wp (let! a := Engine.on_shared h in Engine.on_shared (k a)) Q E (e, w) ->
  wp (Engine.on_shared (let! a := h in k a)) Q E (e, w).
Proof.
  unfold wp, Engine.on_shared, mzoom, mbind. cbn [fst snd].
  destruct (h (Engine.shared e, w)) as [[a|x|] [s' w']]; cbn [fst snd]; [|done|done].
  change (Engine.shared (Engine.set_shared s' e)) with s'.
  by destruct (k a (s', w')) as [[y|x|] [s2 w2]].
Qed.

Section sections.
Context `{Libm} (o : Options) (reg : registry) (n : Z) (ops : list Operation) (v1 vh : Version.t).
Context (mem : MemTable.t) (imm : option MemTable.t) (v : Version.t) (m : Manifest.t) (c : BlockCache.t).
Context (le : option string) (sk rd : Z) (wk : CompactionWorker.t) (w : World) (db : gmap bytes bytes).
Abbreviation e := (engine o mem imm v m c le sk rd wk).
Abbreviation at_ f b := (conc_at o reg n ops v1 vh (mkC e w f b) db).
Abbreviation l := (MemTable.entries (replay_mem ops)).
Abbreviation ids v := (SsTable.id <$> concat (Version.levels v)).
Hypothesis Ho : options_ok o.
Hypothesis Hn : n + 1 < 2 ^ 30.

Lemma sec_two : 2 <= max_levels o.
Proof using Ho. apply Ho. Qed.

Lemma sec_caught f b : at_ f b -> engine_ok o reg n None (eng o ops vh m c le sk rd wk) w db.
Proof using. apply ca_caught. Qed.

Lemma sec_disk f b : at_ f b -> disk_ok reg w m vh.
Proof using. intros Hok. apply (eo_disk _ _ _ _ _ _ _ (sec_caught f b Hok)). Qed.

Lemma sec_next f b : at_ f b -> 1 <= Manifest.next_id m <= n + 1.
Proof using. intros Hok. apply (eo_next _ _ _ _ _ _ _ (sec_caught f b Hok)). Qed.

Lemma sec_man f b : at_ f b -> exists recs, man_ok w m recs.
Proof using. intros Hok. apply (eo_manifest _ _ _ _ _ _ _ (sec_caught f b Hok)). Qed.

(** A private id is below the next one. *)
Lemma flush_id_lt f b id : at_ f b -> flush_id f = Some id -> id < Manifest.next_id m.
Proof using.
  intros Hok Hid. pose proof (ca_flush _ _ _ _ _ _ _ _ Hok) as Hf. cbn in Hf.
  destruct f as [|i snap|i t| |]; cbn in Hf, Hid; try done; injection Hid as ->.
  - apply Hf.
  - destruct Hf as (_ & -> & [[_ _ (bs & Hb & _) _] _] & _).
    apply (dk_ids _ _ _ _ (sec_disk _ _ Hok)). by exists bs.
Qed.

Lemma compact_id_lt f b id : at_ f b -> compact_id b = Some id -> id < Manifest.next_id m.
Proof using.
  intros Hok Hid. pose proof (ca_compact _ _ _ _ _ _ _ _ Hok) as Hb. cbn in Hb.
  destruct b as [| |v0 job i|p| |]; cbn in Hb, Hid; try done; injection Hid as <-.
  - apply Hb.
  - destruct Hb as (_ & [_ _ (bs & Hb & _) _] & _). apply (dk_ids _ _ _ _ (sec_disk _ _ Hok)). by exists bs.
Qed.

(** A section that leaves both versions alone. *)
Lemma conc_keep f b reg' n' mem' imm' m' c' le' sk' rd' wk' w' f' b' :
  at_ f b -> extends reg w reg' w' ->
  engine_ok o reg' n' None (eng o ops vh m' c' le' sk' rd' wk') w' db -> clean_log w' WAL_FILE_NAME ops ->
  pushed f' v v1 -> compacted b' v1 vh ->
  let e' := engine o mem' imm' v m' c' le' sk' rd' wk' in
  flush_ok reg' w' ops db m' v vh e' f' -> compact_ok o reg' w' m' v vh b' ->
  (forall id, flush_id f' = Some id -> compact_id b' = Some id -> False) ->
  conc_ok o reg' n' (mkC e' w' f' b') db.
Proof using.
  intros Hok Hx Hok' Hlog Hpu Hco e' Hfl Hcp Hnames. exists ops, v1, vh. split; try done.
  - intros k. by apply (conc_view_ext _ _ _ _ _ _ _ _ Hok _ w').
  - apply (ca_levels _ _ _ _ _ _ _ _ Hok).
  - by apply (conc_stored_ext _ _ _ _ _ _ _ _ Hok).
  - split; [|done]. apply (ca_log _ _ _ _ _ _ _ _ Hok).
Qed.

(** The next id, for either thread. *)
Lemma wp_name {A} f b (k : Z -> M Engine.EW A) (Q : A -> Engine.EW -> Prop) E mem' imm' :
  at_ f b ->
  (forall w1, let m1 := Manifest.mk (Manifest.next_id m + 1) (Manifest.tables m) in
     only_manifest w w1 -> engine_ok o reg (n + 1) None (eng o ops vh m1 c le sk rd wk) w1 db ->
     reserved reg m1 (Manifest.next_id m) -> (quiet w -> quiet w1) ->
     wp (k (Manifest.next_id m)) Q E (engine o mem' imm' v m1 c le sk rd wk, w1)) ->
  (forall x ew, ~ quiet w -> E x ew) ->
  wp (let! id := Engine.on_shared (with_manifest Manifest.next_table_id) in k id) Q E
    (engine o mem' imm' v m c le sk rd wk, w).
Proof using Ho Hn.
  intros Hok HQ HE. pose proof (sec_next f b Hok) as Hnx. destruct (sec_man f b Hok) as [recs Hm].
  destruct (ca_log _ _ _ _ _ _ _ _ Hok) as [Hv Hl].
  assert (wrap64 (Manifest.next_id m + 1) = Manifest.next_id m + 1) as Hwrap
    by (rewrite ?wrap64_mod; rewrite Z.mod_small; lia).
  apply wp_bind, wp_eng_shared, wp_with_manifest. cbn [Engine.shared s_manifest].
  eapply wp_next_table_id; [exact Hm|..]; rewrite Hwrap; cbn [fst snd]; [|by intros; apply HE].
  intros w1 Hm1 Hw1 Hq1. apply HQ; [done| | |done].
  - eapply (engine_ok_bump _ _ (n + 1) _ _ _ m _ _ _ _ _ w); [|lia|done|done|exact Hm1|done].
    eapply engine_ok_le; [|by eapply sec_caught]. lia.
  - split; [eapply disk_ok_fresh, (sec_disk f b Hok)|cbn; lia].
Qed.

(** The flushed table is no input of the compaction. *)
Lemma commute_at f b p t :
  at_ f b -> planned o v (p_version p) (p_job p) -> SsTable.id t ∉ ids v ->
  (let? v' := Engine.insert_l0 t v in apply_compaction v' (p_job p) (p_output p)) =
  (let? v' := apply_compaction v (p_job p) (p_output p) in Engine.insert_l0 t v').
Proof using Ho.
  intros Hok Hpl Hid. apply insert_apply_commute.
  - pose proof (ca_levels _ _ _ _ _ _ _ _ Hok) as Hl. cbn in Hl. rewrite Hl.
    destruct Hpl as [Hl0 Hj _]. by apply (job_level (p_version p)); [|apply sec_two|].
  - intros (u & Eu & Hu)%list_elem_of_fmap. apply Hid. rewrite Eu. apply list_elem_of_fmap_2.
    eapply planned_input; [apply sec_two|exact Hpl|done].
Qed.

Section flushing.
Context (b : compact_at).
Abbreviation keeps n' := (fun f' ew => kept o reg n' w db f' b ew).
Abbreviation fails := (fun (_ : Error) (_ : Engine.EW) => ~ quiet w).

(** The first section: an empty memtable, or a name for the table. *)
Lemma wp_flush_start : at_ FIdle b -> wp (flush_section FIdle) (keeps (n + 1)) fails (e, w).
Proof using Ho Hn.
  intros Hok. pose proof (ca_flush _ _ _ _ _ _ _ _ Hok) as [Hmem Himm]. cbn in Hmem, Himm.
  pose proof (ca_log _ _ _ _ _ _ _ _ Hok) as [Hv Hl]. cbn in Hl.
  unfold flush_section. apply wp_bind, wp_eng_self. cbn [Engine.memtable Engine.wal].
  rewrite Hmem. destruct (MemTable.is_empty (replay_mem ops)).
  - destruct Hl as [Hf Hfile]. apply wp_bind, wp_eng_disk. eapply wp_sync; [exact Hfile| |done].
    cbn [f_data Wal.path]. intros w1 Hw1 Hq1. apply wp_ret.
    rewrite insert_id in Hw1 by done. pose proof (extends_files reg w w1 Hw1) as Hx.
    apply (kept_intro _ _ reg); [done|done|]. apply (conc_keep FIdle b); try done.
    + eapply engine_ok_files; [exact Hw1|]. eapply engine_ok_le; [|exact (sec_caught _ _ Hok)]. lia.
    + split; [done|]. by rewrite Hw1.
    + apply Hok.
    + apply Hok.
    + by apply (compact_ok_ext _ _ _ _ _ _ _ _ Hok); [apply sec_two|..].
  - do 3 apply wp_bind, wp_eng_modify.
    cbn [Engine.set_memtable Engine.set_immutable Engine.options Engine.wal Engine.memtable
      Engine.immutable Engine.shared Engine.worker].
    eapply (wp_name FIdle b); [exact Hok| |done]. intros w1 m1 Hw1 Hok1 Hres Hq1. apply wp_ret.
    pose proof (extends_manifest reg w w1 Hw1) as Hx. apply (kept_intro _ _ reg); [done|done|].
    apply (conc_keep FIdle b); try done.
    + by eapply manifest_log.
    + apply Hok.
    + apply Hok.
    + apply (compact_ok_ext _ _ _ _ _ _ _ _ Hok); [apply sec_two|done|cbn; lia|done].
    + intros id [= <-] Hid. pose proof (compact_id_lt _ _ _ Hok Hid). lia.
Qed.

(** The table of the frozen entries is written. *)
Lemma wp_flush_create id snapshot :
  at_ (FNamed id snapshot) b -> wp (flush_section (FNamed id snapshot)) (keeps (n + 1)) fails (e, w).
Proof using Ho Hn.
  intros Hok. pose proof (ca_flush _ _ _ _ _ _ _ _ Hok) as (Hfr & -> & Hres). cbn in Hfr, Hres.
  pose proof (ca_log _ _ _ _ _ _ _ _ Hok) as [Hv Hl]. cbn in Hl. pose proof (sec_caught _ _ Hok) as Hcu.
  destruct (replay_ok ops Hv) as [[Hsorted _] Hent Hkeys].
  assert (len l < 2 ^ 30) as Hlen.
  { pose proof (eo_size _ _ _ _ _ _ _ Hcu) as Hs. unfold layers in Hs. rewrite total_len_cons in Hs.
    cbn [Engine.memtable] in Hs. unfold len. lia. }
  unfold flush_section. apply wp_bind, wp_eng_self, wp_bind, wp_eng_disk. cbn [Engine.options].
  eapply wp_create; [done|done|done|apply Ho|apply Ho| |done]. intros bs fl w1 Hbs Hwf Hp Hq1.
  apply wp_ret. pose proof (published_extends _ _ _ _ _ _ _ _ (sec_disk _ _ Hok) Hres Hp) as Hx.
  apply (kept_intro _ _ (<[id := bs]> reg)); [done|done|]. apply (conc_keep (FNamed id l) b); try done.
  - eapply engine_ok_created; [|done|exact Hp]. eapply engine_ok_le; [|exact Hcu]. lia.
  - eapply table_frame_log; [|exact Hl]. intros p. by apply (published_other p id bs fl).
  - apply Hok.
  - apply Hok.
  - cbn. split; [done|]. split; [done|]. split; [split|split].
    + apply (opened_stored _ _ id 0); [apply Hres|apply lookup_insert_eq|done|by rewrite Hbs|].
      unfold published in Hp. by rewrite Hp, lookup_insert_eq.
    + unfold table_run, id_run. cbn [table_of SsTable.id]. by rewrite lookup_insert_eq.
    + eapply stored_unregistered; [apply (ca_stored _ _ _ _ _ _ _ _ Hok)|apply Hres].
    + eapply stored_unregistered; [apply (conc_vh_stored _ _ _ _ _ _ _ _ Hok)|apply Hres].
  - apply (compact_ok_ext _ _ _ _ _ _ _ _ Hok); [apply sec_two|done|cbn; lia|].
    intros i Hi Hnone. rewrite lookup_insert_ne; [done|]. intros <-.
    by apply (ca_names _ _ _ _ _ _ _ _ Hok id).
  - apply Hok.
Qed.

Lemma sec_cons f : at_ f b -> (exists l0 rest, Version.levels v = l0 :: rest) /\
  exists l0 rest, Version.levels vh = l0 :: rest.
Proof using Ho.
  intros Hok. pose proof (ca_levels _ _ _ _ _ _ _ _ Hok) as H1. cbn in H1.
  pose proof (eo_levels _ _ _ _ _ _ _ (sec_caught _ _ Hok)) as H2. cbn in H2. pose proof sec_two.
  split; [destruct (Version.levels v)|destruct (Version.levels vh)]; eauto; rewrite len_nil in *; lia.
Qed.

(** A recorded compaction and a table that is about to be recorded. *)
Lemma record_commute id t v1' :
  at_ (FWritten id t) b -> Engine.insert_l0 t v = Ok v1' ->
  exists vh', Engine.insert_l0 t vh = Ok vh' /\ compacted b v1' vh'.
Proof using Ho.
  intros Hok Hins. destruct (sec_cons _ Hok) as [_ (l0 & rest & E)].
  pose proof (ca_pushed _ _ _ _ _ _ _ _ Hok) as Hpu. cbn in Hpu.
  pose proof (ca_compacted _ _ _ _ _ _ _ _ Hok) as Hco. pose proof (ca_compact _ _ _ _ _ _ _ _ Hok) as Hb.
  pose proof (ca_flush _ _ _ _ _ _ _ _ Hok) as (_ & -> & _ & Hid & _). cbn in Hco, Hb, Hid. rewrite Hpu in Hco.
  destruct b; cbn in *; try by (exists v1'; rewrite Hco).
  pose proof (commute_at _ _ p t Hok Hb Hid) as Hcom. rewrite Hins, Hco in Hcom. revert Hcom. rsimpl.
  intros Hcom. exists (Version.mk ((t :: l0) :: rest)).
  assert (Engine.insert_l0 t vh = Ok (Version.mk ((t :: l0) :: rest))) as Hvh
    by (unfold Engine.insert_l0; by rewrite E).
  split; [done|]. by rewrite Hcom, Hvh.
Qed.

(** The table is recorded in the manifest. *)
Lemma wp_flush_record id t :
  at_ (FWritten id t) b ->
  wp (flush_section (FWritten id t)) (fun f' ew => f' = FRecorded t /\ kept o reg (n + 1 + len l) w db f' b ew)
    fails (e, w).
Proof using Ho Hn.
  intros Hok. pose proof (ca_flush _ _ _ _ _ _ _ _ Hok) as (Hfr & -> & Hfl & Hid & Hidh).
  cbn in Hfr, Hfl, Hid, Hidh. pose proof (ca_log _ _ _ _ _ _ _ _ Hok) as [Hv Hl]. cbn in Hl.
  pose proof (ca_compact _ _ _ _ _ _ _ _ Hok) as Hb. cbn in Hb.
  destruct (sec_man _ _ Hok) as [recs Hm]. pose proof (sec_disk _ _ Hok) as Hd.
  pose proof (sec_next _ _ Hok) as Hnx.
  pose proof (flush_id_lt _ _ _ Hok eq_refl) as Hlt. pose proof (st_id _ _ _ (proj1 Hfl)) as Hpos.
  unfold flush_section. apply wp_bind, wp_eng_self, wp_bind, wp_eng_shared, wp_with_manifest.
  cbn [Engine.shared s_manifest]. eapply wp_add_table; [exact Hm|unfold u64; lia|lia| | |done].
  { eapply matches_unlisted; [apply Hd|done]. }
  intros w1 Hm1 Hw1 Hq1. apply wp_ret. cbn [fst snd]. split; [done|].
  pose proof (extends_manifest reg w w1 Hw1) as Hx. apply (kept_intro _ _ reg); [done|done|].
  destruct (sec_cons _ Hok) as [(l0 & rest & E) _].
  assert (exists v1', Engine.insert_l0 t v = Ok v1') as [v1' Hins] by (unfold Engine.insert_l0; rewrite E; eauto).
  destruct (record_commute _ _ _ Hok Hins) as (vh' & Hins' & Hco').
  pose proof (ca_pushed _ _ _ _ _ _ _ _ Hok) as Hpu. cbn in Hpu.
  pose proof (insert_l0_concat _ _ _ Hins) as Hc1. pose proof (insert_l0_concat _ _ _ Hins') as Hch.
  exists ops, v1', vh'. split; cbn [cs_engine cs_world cs_flush cs_compact].
  - eapply (engine_ok_push o reg (n + 1) ops vh); [|done|done|exact Hfl|exact Hidh|exact Hins'|exact Hm1|done].
    eapply engine_ok_le; [|exact (sec_caught _ _ Hok)]. lia.
  - exact Hins.
  - exact Hco'.
  - intros k. rewrite Hc1, Hch, !runs_of_cons. apply visible_cons_ext.
    rewrite <- Hpu. apply (ca_view _ _ _ _ _ _ _ _ Hok).
  - apply Hok.
  - by apply (conc_stored_ext _ _ _ _ _ _ _ _ Hok).
  - split; [done|]. by eapply manifest_log.
  - split; [done|]. split; [|split; [exact Hid|]].
    + destruct Hfl as [Hst Hrun]. split; [by eapply stored_ext|done].
    + intros k. rewrite Hch, runs_of_cons. destruct Hfl as [_ ->]. apply (conc_shows _ _ _ _ _ _ _ _ Hok).
  - pose proof (compact_ok_ext _ _ _ _ _ _ _ _ Hok reg w1 m sec_two Hx ltac:(cbn; lia) ltac:(done)) as Hb'.
    cbn in Hb'. pose proof (ca_names _ _ _ _ _ _ _ _ Hok (SsTable.id t)) as Hnm. cbn in Hnm.
    destruct b; cbn [compact_ok compact_id] in *; try done.
    destruct Hb' as (? & ? & ? & Hout). split_and!; [done|done|done|]. rewrite Hch, fmap_cons.
    intros [E1|E1]%elem_of_cons; [|done]. apply Hnm; [done|by rewrite E1].
  - done.
Qed.

(** The table is installed in the version. *)
Lemma wp_flush_insert t :
  at_ (FRecorded t) b -> wp (flush_section (FRecorded t)) (keeps (n + 1)) fails (e, w).
Proof using Ho Hn.
  intros Hok. pose proof (ca_flush _ _ _ _ _ _ _ _ Hok) as (Hfr & Hfl & Hid & Hsh). cbn in Hfr, Hfl, Hid, Hsh.
  pose proof (ca_pushed _ _ _ _ _ _ _ _ Hok) as Hpu. cbn in Hpu.
  pose proof (ca_compact _ _ _ _ _ _ _ _ Hok) as Hb. cbn in Hb.
  unfold flush_section. apply wp_bind, wp_eng_self, wp_bind, wp_eng_shared, wp_bind, wp_shared_self.
  cbn [Engine.shared s_version]. rewrite Hpu. apply wp_bind, wp_ret, wp_shared_modify, wp_ret. cbn [fst snd].
  apply (kept_intro _ _ reg); [done|done|]. exists ops, v1, vh.
  split; cbn [cs_engine cs_world cs_flush cs_compact].
  - eapply engine_ok_le; [|exact (sec_caught _ _ Hok)]. lia.
  - done.
  - apply Hok.
  - apply Hok.
  - apply (conc_v1_len _ _ _ _ _ _ _ _ Hok).
  - apply (conc_v1_stored _ _ _ _ _ _ _ _ Hok).
  - apply Hok.
  - by split.
  - assert (forall v0 job, planned o v v0 job -> planned o v1 v0 job) as Hpl.
    { intros v0 job [? ? [extra E]]. split; [done|done|]. exists (t :: extra). by eapply insert_l0_later. }
    destruct b; cbn in *; try done; [by apply Hpl|split; [apply Hpl, Hb|apply Hb]
      |split; [apply Hpl, Hb|apply Hb]|by apply Hpl].
  - done.
Qed.

(** The log is dropped, and the copy of the frozen entries. *)
Lemma wp_flush_truncate : at_ FInstalled b -> wp (flush_section FInstalled) (keeps (n + 1)) fails (e, w).
Proof using Ho Hn.
  intros Hok. pose proof (ca_flush _ _ _ _ _ _ _ _ Hok) as [[Hmem Himm] Hsh]. cbn in Hmem, Himm, Hsh.
  pose proof (ca_log _ _ _ _ _ _ _ _ Hok) as [Hv [Hf Hfile]]. cbn in Hfile.
  unfold flush_section. apply wp_bind, wp_eng_self, wp_bind, wp_eng_disk. cbn [Engine.wal].
  eapply wp_truncate; [exact Hfile| |done]. cbn [Wal.path]. intros w1 Hw1 Hq1.
  apply wp_bind, wp_eng_modify, wp_ret. cbn [Engine.set_immutable Engine.options Engine.wal Engine.memtable
    Engine.shared Engine.worker].
  assert (extends reg w reg w1) as Hx.
  { split; [done|]. intros i _. rewrite Hw1, lookup_insert_ne; [done|]. intros E. by eapply table_neq_wal. }
  apply (kept_intro _ _ reg); [done|done|]. exists [], v1, vh.
  split; cbn [cs_engine cs_world cs_flush cs_compact].
  - eapply (engine_ok_truncated o reg _ ops); [|done|exact Hw1].
    eapply engine_ok_le; [|exact (sec_caught _ _ Hok)]. lia.
  - apply Hok.
  - apply Hok.
  - apply Hok.
  - apply Hok.
  - by apply (conc_stored_ext _ _ _ _ _ _ _ _ Hok).
  - split; [done|]. split; [done|]. by rewrite Hw1, lookup_insert_eq.
  - by split.
  - by apply (compact_ok_ext _ _ _ _ _ _ _ _ Hok); [apply sec_two|..].
  - done.
Qed.

(** A flush section, wherever the flush is. *)
Lemma wp_flush_section f :
  at_ f b ->
  wp (flush_section f) (fun f' ew => kept o reg (n + cost (mkC e w f b) f') w db f' b ew) fails (e, w).
Proof using Ho Hn.
  intros Hok. destruct f as [|id snapshot|id t|t|].
  - by apply wp_flush_start.
  - by apply wp_flush_create.
  - eapply wp_mono; [by apply wp_flush_record| |done]. intros f' ew [-> Hk].
    assert (cost (mkC e w (FWritten id t) b) (FRecorded t) = 1 + len l) as ->; [|by rewrite Z.add_assoc].
    pose proof (ca_flush _ _ _ _ _ _ _ _ Hok) as ((_ & Himm) & _). cbn in Himm. unfold cost. cbn.
    rewrite Himm, rebuild_entries; [done|]. apply (conc_sorted _ _ _ _ _ _ _ _ Hok).
  - by apply wp_flush_insert.
  - by apply wp_flush_truncate.
Qed.

(** A write: logged, synced and applied. *)
Lemma wp_write_section op :
  at_ FIdle b -> op_valid op ->
  wp (write_section op) (fun _ ew => kept o reg (n + 1) w (op_spec op db) FIdle b ew) fails (e, w).
Proof using Ho.
  intros Hok Hop. pose proof (ca_flush _ _ _ _ _ _ _ _ Hok) as [Hmem Himm]. cbn in Hmem, Himm.
  pose proof (ca_log _ _ _ _ _ _ _ _ Hok) as [Hv [Hf Hfile]]. cbn in Hfile.
  unfold write_section. apply wp_bind, wp_eng_self, wp_bind, wp_eng_disk. cbn [Engine.wal].
  eapply wp_append; [exact Hfile| |]; cbn [f_data f_durable Wal.path].
  2: { intros x k w1 Hk Hw1 Hq1 Hq. apply (Hq1 Hq), Hop. }
  intros w1 _ Hw1 Hq1. apply wp_bind, wp_eng_disk.
  eapply wp_sync; [by cbn [Wal.path]; rewrite Hw1, lookup_insert_eq| |]; cbn [f_data f_durable Wal.path]; [|tauto].
  intros w2 Hw2 Hq2. apply wp_eng_modify.
  cbn [Engine.set_memtable Engine.options Engine.wal Engine.memtable Engine.immutable Engine.shared Engine.worker].
  rewrite Hmem, <- replay_mem_snoc. rewrite Hw1, insert_insert_eq in Hw2.
  rewrite <- (log_bytes_1 op), <- log_bytes_app in Hw2.
  pose proof (applied_ok _ _ _ _ _ _ _ _ _ _ _ _ _ _ op w2 (sec_caught _ _ Hok) Hv Hop Hw2) as Hok2.
  assert (extends reg w reg w2) as Hx.
  { split; [done|]. intros i _. rewrite Hw2, lookup_insert_ne; [done|]. intros E. by eapply table_neq_wal. }
  assert (Forall op_valid (ops ++ [op])) as Hv2 by (by apply Forall_app; auto).
  apply (kept_intro _ _ reg); [done|tauto|]. exists (ops ++ [op]), v1, vh.
  split; cbn [cs_engine cs_world cs_flush cs_compact].
  - exact Hok2.
  - apply Hok.
  - apply Hok.
  - apply Hok.
  - apply Hok.
  - by apply (conc_stored_ext _ _ _ _ _ _ _ _ Hok).
  - split; [done|]. split; [by apply op_valid_fits|]. by rewrite Hw2, lookup_insert_eq.
  - by split.
  - by apply (compact_ok_ext _ _ _ _ _ _ _ _ Hok); [apply sec_two|..].
  - done.
Qed.

End flushing.

Section compacting.
Context (f : flush_at).
Abbreviation keeps n' := (fun b' ew => kept o reg n' w db f b' ew).
Abbreviation fails := (fun (_ : Error) (_ : Engine.EW) => ~ quiet w).

(** A compaction is planned on a copy of the version. *)
Lemma wp_compact_plan :
  at_ f CIdle -> wp (Engine.on_shared (compact_section CIdle)) (keeps (n + 1)) fails (e, w).
Proof using Ho Hn.
  intros Hok. apply wp_eng_shared. unfold compact_section. apply wp_bind, wp_shared_self.
  cbn [Engine.shared s_version s_options].
  assert (forall b', compacted b' v1 vh -> compact_id b' = None -> compact_ok o reg w m v vh b' ->
    kept o reg (n + 1) w db f b' (e, w)) as Hkeep.
  { intros b' Hco Hid Hcp. apply (kept_intro _ _ reg); [done|done|]. apply (conc_keep f CIdle); try done.
    - eapply engine_ok_le; [|exact (sec_caught _ _ Hok)]. lia.
    - apply Hok.
    - apply Hok.
    - apply Hok.
    - intros id _. by rewrite Hid. }
  pose proof (ca_compacted _ _ _ _ _ _ _ _ Hok) as Hco. cbn in Hco.
  destruct (pick_compaction v o) as [job|] eqn:Ej; apply wp_ret; cbn [fst snd]; apply Hkeep; try done.
  split; [apply (ca_levels _ _ _ _ _ _ _ _ Hok)|done|]. exists []. by destruct (Version.levels v).
Qed.

(** Its output gets an id. *)
Lemma wp_compact_name v0 job :
  at_ f (CPlanned v0 job) ->
  wp (Engine.on_shared (compact_section (CPlanned v0 job))) (keeps (n + 1)) fails (e, w).
Proof using Ho Hn.
  intros Hok. pose proof (ca_compact _ _ _ _ _ _ _ _ Hok) as Hpl. cbn in Hpl.
  unfold compact_section. apply wp_eng_shared_bind, wp_bind, wp_eng_shared, wp_shared_self.
  cbn [fst snd Engine.set_shared Engine.options Engine.wal Engine.memtable Engine.immutable Engine.shared Engine.worker].
  apply wp_eng_shared_bind.
  eapply (wp_name f (CPlanned v0 job)); [exact Hok| |done]. intros w1 m1 Hw1 Hok1 Hres Hq1.
  apply wp_eng_shared, wp_ret. cbn [fst snd].
  pose proof (extends_manifest reg w w1 Hw1) as Hx. apply (kept_intro _ _ reg); [done|done|].
  apply (conc_keep f (CPlanned v0 job)); try done.
  - eapply manifest_log; [done|]. apply (ca_log _ _ _ _ _ _ _ _ Hok).
  - apply Hok.
  - apply (ca_compacted _ _ _ _ _ _ _ _ Hok).
  - apply (flush_ok_ext _ _ _ _ _ _ _ _ Hok); try done. cbn. lia.
  - intros id Hid [= <-]. pose proof (flush_id_lt _ _ _ Hok Hid). lia.
Qed.

(** As long as nothing is recorded, the plan fits the version of the manifest. *)
Lemma planned_caught b v0 job :
  at_ f b -> vh = v1 -> planned o v v0 job -> exists extra, Version.levels vh = push_l0 extra (Version.levels v0).
Proof using.
  intros Hok -> [_ _ [extra Hl]]. pose proof (ca_pushed _ _ _ _ _ _ _ _ Hok) as Hpu. cbn in Hpu.
  destruct f as [| | |t|]; cbn in Hpu; try by (exists extra; rewrite Hpu).
  exists (t :: extra). by eapply insert_l0_later.
Qed.

Lemma merge_input_size b v0 job :
  at_ f b -> vh = v1 -> planned o v v0 job -> Z.of_nat (total_len (runs_of (table_run reg) (inputs job))) <= n.
Proof using Ho.
  intros Hok Heq Hpl. destruct (planned_caught b v0 job Hok Heq Hpl) as [extra Hl]. destruct Hpl as [Hlen Hj _].
  pose proof (eo_size _ _ _ _ _ _ _ (sec_caught _ _ Hok)) as Hs. unfold layers in Hs.
  rewrite total_len_cons in Hs. cbn [Engine.immutable app Engine.shared s_version] in Hs.
  assert (total_len (runs_of (table_run reg) (inputs job)) <=
    total_len (runs_of (table_run reg) (concat (Version.levels vh))))%nat; [|lia].
  apply total_len_submseteq, fmap_submseteq. etrans; [eapply pick_inputs_sub; [done|apply Ho|done]|].
  rewrite Hl. destruct (Version.levels v0); [done|]. cbn [push_l0 concat]. rewrite <- app_assoc.
  by apply submseteq_inserts_l.
Qed.

Lemma planned_stored b v0 job t : at_ f b -> planned o v v0 job -> t ∈ inputs job -> stored reg w t.
Proof using Ho.
  intros Hok Hpl Ht. apply (proj1 (Forall_forall _ _) (ca_stored _ _ _ _ _ _ _ _ Hok)). cbn.
  eapply planned_input; [apply sec_two|exact Hpl|done].
Qed.

(** The merge failed: its id is lost, and nothing else. *)
Lemma merge_gave_up v0 job id w' :
  at_ f (CNamed v0 job id) ->
  (forall p, p <> table_file_name id -> p <> tmp_path (table_file_name id) -> w_files w' !! p = w_files w !! p) ->
  exists reg', extends reg w reg' w' /\ conc_ok o reg' (n + 1) (mkC e w' f CIdle) db.
Proof using.
  intros Hok Hw'. pose proof (ca_compact _ _ _ _ _ _ _ _ Hok) as [_ [Hnone Hres]]. cbn in Hnone, Hres.
  exists reg. assert (extends reg w reg w') as Hx.
  { split; [done|]. intros i Hi. apply Hw'; [|apply table_neq_tmp].
    pose proof (dk_ids _ _ _ _ (sec_disk _ _ Hok) i Hi) as Hlt. intros E1.
    apply table_file_name_inj in E1; [|lia|lia]. subst i. rewrite Hnone in Hi. by destruct Hi. }
  split; [done|]. apply (conc_keep f (CNamed v0 job id)); try done.
  - eapply engine_ok_frame; [|exact Hnone|apply Hres|exact Hw'].
    eapply engine_ok_le; [|exact (sec_caught _ _ Hok)]. lia.
  - eapply table_frame_log; [exact Hw'|]. apply (ca_log _ _ _ _ _ _ _ _ Hok).
  - apply Hok.
  - apply (ca_compacted _ _ _ _ _ _ _ _ Hok).
  - by apply (flush_ok_ext _ _ _ _ _ _ _ _ Hok).
Qed.

(** The merged table is on disk. *)
Lemma merge_written v0 job id bs fl w1 :
  at_ f (CNamed v0 job id) ->
  is_merge (drop_tombstones v0 o job) (runs_of (table_run reg) (inputs job)) (run_of bs) -> table_wf bs fl ->
  published (table_file_name id) bs fl w w1 -> (quiet w -> quiet w1) ->
  kept o reg (n + 1) w db f (CWritten (mkPending v0 job
    (SsTable.set_level (output_level job) (table_of (table_file_name id) id bs fl)))) (e, w1).
Proof using Ho.
  intros Hok Hmg Hwf Hp Hq1. pose proof (ca_compact _ _ _ _ _ _ _ _ Hok) as [Hpl Hres]. cbn in Hpl, Hres.
  pose proof (ca_compacted _ _ _ _ _ _ _ _ Hok) as Heq. cbn in Heq.
  assert (forall t, t ∈ inputs job -> stored reg w t) as Hins by (intros t; by apply (planned_stored _ v0 job t Hok)).
  pose proof (published_extends _ _ _ _ _ _ _ _ (sec_disk _ _ Hok) Hres Hp) as Hx.
  apply (kept_intro _ _ (<[id := bs]> reg)); [done|done|]. apply (conc_keep f (CNamed v0 job id)); try done.
  - eapply engine_ok_created; [|exact Hres|exact Hp]. eapply engine_ok_le; [|exact (sec_caught _ _ Hok)]. lia.
  - eapply table_frame_log; [|apply (ca_log _ _ _ _ _ _ _ _ Hok)]. intros p. by apply (published_other p id bs fl).
  - apply Hok.
  - apply (flush_ok_ext _ _ _ _ _ _ _ _ Hok); try done. cbn. intros i Hi Hnone.
    rewrite lookup_insert_ne; [done|]. intros <-. by apply (ca_names _ _ _ _ _ _ _ _ Hok id).
  - cbn. split; [done|]. split; [|split].
    + apply opened_stored; [apply Hres|apply lookup_insert_eq|done| |].
      * apply Forall_forall. intros x Hx'. destruct (merge_entry _ _ _ x Hmg Hx') as (r & Hr & Hxr).
        apply list_elem_of_fmap in Hr as (t & -> & Ht).
        apply (proj1 (Forall_forall _ _) (st_keys _ _ _ (Hins t Ht)) x Hxr).
      * unfold published in Hp. by rewrite Hp, lookup_insert_eq.
    + rewrite (runs_ext reg w _ w1); [|done|by apply Forall_forall]. unfold table_run at 2, id_run. cbn.
      rewrite lookup_insert_eq. exact Hmg.
    + eapply stored_unregistered; [apply (conc_vh_stored _ _ _ _ _ _ _ _ Hok)|apply Hres].
  - apply (ca_names _ _ _ _ _ _ _ _ Hok).
Qed.

(** The tables are merged; when that fails, the worker gives up. *)
Lemma wp_compact_merge v0 job id :
  at_ f (CNamed v0 job id) ->
  wp (Engine.on_shared (compact_section (CNamed v0 job id))) (keeps (n + 1))
    (fun _ ew => (exists reg', extends reg w reg' (snd ew) /\
       conc_ok o reg' (n + 1) (mkC (fst ew) (snd ew) f CIdle) db) /\ ~ quiet w) (e, w).
Proof using Ho Hn.
  intros Hok. pose proof (ca_compact _ _ _ _ _ _ _ _ Hok) as [Hpl Hres]. cbn in Hpl, Hres.
  pose proof (ca_compacted _ _ _ _ _ _ _ _ Hok) as Heq. cbn in Heq.
  destruct (stored_blocks reg w (inputs job)) as (bss & Hbss & Hruns).
  { apply Forall_forall. intros t. by apply (planned_stored _ v0 job t Hok). }
  apply wp_eng_shared. unfold compact_section. apply wp_bind, wp_shared_self, wp_bind, wp_on_files.
  cbn [Engine.shared s_options]. eapply (wp_compact w (inputs job) bss); [done| |apply Ho|apply Ho| | |].
  - rewrite Hruns. pose proof (merge_input_size _ _ _ Hok Heq Hpl). lia.
  - intros bs fl w1 Hmg Hwf Hp Hq1. rewrite Hruns in Hmg. apply wp_ret. by apply merge_written.
  - intros x out w1 _ Hcf Hq1. cbn [fst snd]. split; [|done]. eapply merge_gave_up; [done|]. intros p H1 H2.
    destruct Hcf as [Hsame|(bs & fl & _ & _ & Hp)]; [by apply Hsame|by apply (published_other p id bs fl)].
  - intros x w1 Hw1 Hq1. cbn [fst snd]. split; [|done]. eapply merge_gave_up; [done|]. intros p _ _. by rewrite Hw1.
Qed.

(** The compaction that is about to be recorded. *)
Lemma written_pending p : at_ f (CWritten p) -> pending_ok o reg w vh p.
Proof using.
  intros Hok. pose proof (ca_compact _ _ _ _ _ _ _ _ Hok) as (Hpl & Hst & Hmg & Hout). cbn in *.
  pose proof (planned_caught _ _ _ Hok (ca_compacted _ _ _ _ _ _ _ _ Hok) Hpl) as Hlater.
  destruct Hpl. by split.
Qed.

(** The compaction is recorded in the manifest. *)
Lemma wp_compact_record p :
  at_ f (CWritten p) -> wp (Engine.on_shared (compact_section (CWritten p))) (keeps (n + 1)) fails (e, w).
Proof using Ho Hn.
  intros Hok. pose proof (written_pending p Hok) as Hp.
  pose proof (ca_compact _ _ _ _ _ _ _ _ Hok) as (Hpl & _). cbn in Hpl.
  pose proof (ca_compacted _ _ _ _ _ _ _ _ Hok) as Heq. cbn in Heq.
  pose proof (ca_log _ _ _ _ _ _ _ _ Hok) as [Hv Hl]. cbn in Hl.
  assert (engine_ok o reg (n + 1) (Some p) (eng o ops vh m c le sk rd wk) w db) as Hcu.
  { apply engine_ok_pend; [|done]. eapply engine_ok_le; [|exact (sec_caught _ _ Hok)]. lia. }
  apply wp_eng_shared. unfold compact_section. apply wp_bind, wp_shared_self, wp_bind, wp_with_manifest.
  cbn [Engine.shared s_manifest]. eapply (wp_finish_record o reg (n + 1) p); [done|exact Hcu|done| |done].
  intros w2 recs3 Hw Hm2 Hq2. apply wp_ret. cbn [fst snd].
  pose proof (extends_manifest reg w w2 Hw) as Hx. apply (kept_intro _ _ reg); [done|done|].
  destruct (finish_ok _ _ _ _ _ _ _ _ _ _ _ _ _ _ Ho Hcu w2 _ Hw Hm2) as (v3 & Hap & Hok3).
  destruct (apply_compaction_sound _ _ _ _ _ _ (finish_installs _ _ _ _ _ _ _ _ _ _ _ _ _ _ Ho Hcu))
    as (v3' & Hap' & _ & _ & Hperm & Hview).
  rewrite Hap in Hap'. injection Hap' as <-. unfold view in Hview.
  setoid_rewrite tables_newest_first_concat in Hview.
  exists ops, v1, v3. split; cbn [cs_engine cs_world cs_flush cs_compact].
  - exact Hok3.
  - apply Hok.
  - cbn. by rewrite <- Heq.
  - intros k. by rewrite Hview, Heq.
  - apply Hok.
  - by apply (conc_stored_ext _ _ _ _ _ _ _ _ Hok).
  - split; [done|]. by eapply manifest_log.
  - pose proof (ca_names _ _ _ _ _ _ _ _ Hok) as Hnm. cbn in Hnm.
    pose proof (flush_ok_ext _ _ _ _ _ _ _ _ Hok reg w2 (retain_all (SsTable.id <$> inputs (p_job p))
      (Manifest.push_table (SsTable.id (p_output p)) (output_level (p_job p)) m)) e Hx
      ltac:(rewrite retain_all_next; cbn; lia) eq_refl eq_refl ltac:(done)) as Hf.
    cbn [cs_engine cs_world cs_flush cs_compact] in Hf. assert (shows reg [] vh db -> shows reg [] v3 db) as Hsh.
    { intros Hs k. rewrite (Hs k). by apply visible_cons_ext. }
    destruct f as [| |id t|t|]; cbn [flush_ok] in *; try done.
    + destruct Hf as (? & ? & ? & ? & Hid). split; [done|]. split; [done|]. split; [done|]. split; [done|].
      rewrite Hperm, fmap_cons. intros [E|E]%elem_of_cons; [by apply (Hnm id); [|rewrite E]|].
      apply Hid. apply list_elem_of_fmap in E as (u & -> & [_ Hu]%list_elem_of_filter).
      by apply list_elem_of_fmap_2.
    + destruct Hf as (? & ? & ? & ?). split; [done|]. split; [done|]. split; [done|]. by apply Hsh.
    + destruct Hf. split; [done|]. by apply Hsh.
  - done.
  - done.
Qed.

(** Installing in memory what is recorded, with a flushed table on its way. *)
Lemma install_commute p :
  at_ f (CRecorded p) ->
  exists v', apply_compaction v (p_job p) (p_output p) = Ok v' /\ pushed f v' vh.
Proof using Ho.
  intros Hok. pose proof (ca_pushed _ _ _ _ _ _ _ _ Hok) as Hpu. pose proof (ca_compacted _ _ _ _ _ _ _ _ Hok) as Hco.
  pose proof (ca_flush _ _ _ _ _ _ _ _ Hok) as Hf. pose proof (ca_compact _ _ _ _ _ _ _ _ Hok) as Hb.
  cbn in Hpu, Hco, Hf, Hb. destruct f as [| | |t|]; cbn [pushed] in *; try by (exists vh; rewrite <- Hpu).
  destruct Hf as (_ & _ & Hid & _). pose proof (commute_at _ _ p t Hok Hb Hid) as Hcom.
  rewrite Hpu in Hcom. revert Hcom. rsimpl. rewrite Hco.
  destruct (apply_compaction v (p_job p) (p_output p)) as [v'|x|]; rsimpl; intros Hcom; [|done|done].
  by exists v'.
Qed.

(** The compaction is installed in the version. *)
Lemma wp_compact_install p :
  at_ f (CRecorded p) -> wp (Engine.on_shared (compact_section (CRecorded p))) (keeps (n + 1)) fails (e, w).
Proof using Ho Hn.
  intros Hok. destruct (install_commute p Hok) as (v' & Hap & Hpu').
  pose proof (ca_compact _ _ _ _ _ _ _ _ Hok) as [Hl0 Hj _]. cbn in Hl0, Hj.
  pose proof (sec_caught _ _ Hok) as Hcu. pose proof (eo_levels _ _ _ _ _ _ _ Hcu) as Hlh. cbn in Hlh.
  pose proof (conc_vh_stored _ _ _ _ _ _ _ _ Hok) as Hsh. cbn in Hsh.
  pose proof (ca_flush _ _ _ _ _ _ _ _ Hok) as Hf. cbn in Hf.
  apply wp_eng_shared. unfold compact_section. apply wp_bind, wp_shared_self. cbn [Engine.shared s_version].
  rewrite Hap. apply wp_bind, wp_ret, wp_bind, wp_shared_modify, wp_ret. cbn [fst snd].
  apply (kept_intro _ _ reg); [done|done|]. exists ops, vh, vh.
  assert (len (Version.levels v') = max_levels o /\ Forall (stored reg w) (concat (Version.levels v')))
    as [Hlen Hst].
  { destruct f as [| | |t|]; cbn [pushed] in Hpu'; try (by rewrite <- Hpu').
    rewrite <- (insert_l0_len _ _ _ Hpu'). split; [done|]. rewrite (insert_l0_concat _ _ _ Hpu') in Hsh.
    by apply Forall_cons in Hsh as [_ ?]. }
  split; cbn [cs_engine cs_world cs_flush cs_compact]; try done.
  - eapply engine_ok_le; [|exact Hcu]. lia.
  - apply Hok.
  - destruct f as [| |id t|t|]; cbn [pushed flush_ok] in *; try done.
    + destruct Hf as (? & ? & ? & ? & ?). by rewrite <- Hpu'.
    + destruct Hf as (? & ? & ? & ?). split; [done|]. split; [done|]. split; [|done]. cbn.
      pose proof (v_nodup _ _ (dk_version _ _ _ _ (sec_disk _ _ Hok))) as Hnd.
      rewrite (insert_l0_concat _ _ _ Hpu'), fmap_cons in Hnd. by apply NoDup_cons in Hnd as [? _].
  - intros t Ht. by eapply pick_inputs; [|apply Ho|..].
Qed.

(** The inputs' files: they all stay. *)
Lemma wp_compact_cleanup p :
  at_ f (CInstalled p) -> wp (Engine.on_shared (compact_section (CInstalled p))) (keeps (n + 1)) fails (e, w).
Proof using Ho Hn.
  intros Hok. pose proof (ca_compact _ _ _ _ _ _ _ _ Hok) as Hin. cbn in Hin.
  apply wp_eng_shared. unfold compact_section. apply wp_bind, wp_shared_self, wp_bind. unfold wp at 1.
  rewrite (remove_inputs_noop _ _ _ Hin). apply wp_ret. cbn [fst snd].
  apply (kept_intro _ _ reg); [done|done|]. apply (conc_keep f (CInstalled p)); try done.
  - eapply engine_ok_le; [|exact (sec_caught _ _ Hok)]. lia.
  - apply Hok.
  - apply Hok.
  - apply (ca_compacted _ _ _ _ _ _ _ _ Hok).
  - apply Hok.
Qed.

Lemma wp_compact_section b :
  at_ f b -> wp (Engine.on_shared (compact_section b)) (keeps (n + 1)) fails (e, w).
Proof using Ho Hn.
  intros Hok. destruct b as [|v0 job|v0 job id|p|p|p].
  - by apply wp_compact_plan.
  - by apply wp_compact_name.
  - eapply wp_mono; [by apply wp_compact_merge|done|]. by intros x ew [_ ?].
  - by apply wp_compact_record.
  - by apply wp_compact_install.
  - by apply wp_compact_cleanup.
Qed.

End compacting.

End sections.

(** ** Steps *)

(** The cache, the counters, the error slot and the channel. *)
Lemma engine_ok_volatile o reg n pend ops v m c le sk rd wk c' le' sk' rd' wk' w db :
  engine_ok o reg n pend (eng o ops v m c le sk rd wk) w db -> coherent reg c' ->
  engine_ok o reg n pend (eng o ops v m c' le' sk' rd' wk') w db.
Proof. intros [] ?. by split. Qed.

(** A step that touches nothing else. *)
Lemma conc_volatile o reg n ops v1 vh mem imm v m c le sk rd wk c' le' sk' rd' wk' w w' f b db :
  2 <= max_levels o -> conc_at o reg n ops v1 vh (mkC (engine o mem imm v m c le sk rd wk) w f b) db ->
  w_files w' = w_files w -> coherent reg c' ->
  conc_ok o reg (n + 1) (mkC (engine o mem imm v m c' le' sk' rd' wk') w' f b) db.
Proof.
  intros Ho Hok Hw Hc. pose proof (extends_files reg w w' Hw) as Hx.
  eapply (conc_keep o reg n ops v1 vh mem imm v m c le sk rd wk w db f b); [exact Hok|exact Hx|..].
  - eapply engine_ok_files; [exact Hw|]. eapply engine_ok_le; [|eapply engine_ok_volatile; [apply Hok|done]]. lia.
  - destruct (ca_log _ _ _ _ _ _ _ _ Hok) as [_ [? Hf]]. split; [done|]. by rewrite Hw.
  - apply Hok.
  - apply Hok.
  - by apply (flush_ok_ext _ _ _ _ _ _ _ _ Hok).
  - by apply (compact_ok_ext _ _ _ _ _ _ _ _ Hok).
  - apply Hok.
Qed.

(** Validation, then the write. *)
Lemma wp_user_section o reg n ops v1 vh mem imm v m c le sk rd wk w b db op `{Libm} :
  options_ok o -> conc_at o reg n ops v1 vh (mkC (engine o mem imm v m c le sk rd wk) w FIdle b) db ->
  wp (user_section op) (fun _ ew => kept o reg (n + 1) w (op_spec op db) FIdle b ew)
    (fun _ _ => ~ op_valid op \/ ~ quiet w) (engine o mem imm v m c le sk rd wk, w).
Proof.
  intros Ho Hok.
  assert (op_valid op -> wp (write_section op) (fun _ ew => kept o reg (n + 1) w (op_spec op db) FIdle b ew)
    (fun _ _ => ~ op_valid op \/ ~ quiet w) (engine o mem imm v m c le sk rd wk, w)) as Hwrite.
  { intros Hop. eapply wp_mono; [by eapply wp_write_section|done|]. by right. }
  assert (forall x, Engine.validate_key (op_key op) = Err x -> ~ op_valid op) as Hkey.
  { intros x Hx [[Hf _] Hne]. destruct (validate_key_Err _ _ Hx); [done|lia]. }
  destruct op as [key value|key]; cbn [user_section].
  - apply wp_validate_key; [intros x Hx; left; by eapply Hkey|]. intros Hne Hlen.
    apply validate_value_spec; [intros x Hx; left; intros [[_ Hf] _]; cbn in Hf; lia|].
    intros Hval. by apply Hwrite.
  - apply wp_validate_key; [intros x Hx; left; by eapply Hkey|]. intros Hne Hlen. apply Hwrite.
    split; [split; [done|]|done]. cbn. unfold MAX_VALUE_SIZE. rewrite len_nil. lia.
Qed.

Lemma conc_ok_le o reg n n' s db : n <= n' -> conc_ok o reg n s db -> conc_ok o reg n' s db.
Proof.
  intros Hn (ops & v1 & vh & []). exists ops, v1, vh. split; try done. by eapply engine_ok_le.
Qed.

(** A lookup keeps the invariant. *)
Lemma conc_get o reg n ops v1 vh e w f b db key r e' w' :
  2 <= max_levels o -> conc_at o reg n ops v1 vh (mkC e w f b) db ->
  Engine.get key (e, w) = (r, (e', w')) ->
  w_files w' = w_files w /\ conc_ok o reg (n + 1) (mkC e' w' f b) db.
Proof.
  intros Ho Hok Hr.
  destruct (conc_shape _ _ _ _ _ _ _ _ Hok) as (mem & imm & v & m & c & le & sk & rd & wk & ? & ? & ? & [= -> -> -> ->]).
  pose proof (conc_readable _ _ _ _ _ _ _ _ Hok) as Hrd. cbn in Hrd.
  set (P := fun ew : Engine.EW => w_files (snd ew) = w_files x /\ conc_ok o reg (n + 1) (mkC (fst ew) (snd ew) x0 x1) db).
  assert (wp (Engine.get key) (fun _ => P) (fun _ => P) (engine o mem imm v m c le sk rd wk, x)) as Hwp.
  { assert (forall e2 w2, read_from (engine o mem imm v m c le sk rd wk) e2 -> readable reg e2 w2 db ->
      w_files w2 = w_files x -> P (e2, w2)) as HP.
    { intros e2 w2 (s2 & (H1 & H2 & H3 & H4) & ->) Hrd2 Hw2. destruct s2 as [o2 v2 m2 c2 le2 sk2 rd2]. cbn in *. subst.
      split; [done|]. eapply conc_volatile; [done|exact Hok|done|apply (rd_cache _ _ _ _ Hrd2)]. }
    eapply wp_engine_get; [exact Hrd| | |]; [|by intros; apply HP..].
    intros y _. apply HP; [apply read_from_refl|done|done]. }
  unfold wp in Hwp. rewrite Hr in Hwp. by destruct r.
Qed.

Lemma cstep_keeps `{Libm} o reg n s ops' s' db :
  options_ok o -> n + cost s (cs_flush s') < 2 ^ 30 -> cstep s ops' s' -> conc_ok o reg n s db ->
  exists reg', extends reg (cs_world s) reg' (cs_world s') /\
    conc_ok o reg' (n + cost s (cs_flush s')) s' (foldl (flip op_spec) db ops').
Proof.
  intros Ho Hn Hstep (ops & v1 & vh & Hok). pose proof (cost_pos s (cs_flush s')) as Hcost. assert (n + 1 < 2 ^ 30) as Hn1 by lia.
  assert (forall s2 db2, (exists reg', extends reg (cs_world s) reg' (cs_world s2) /\ conc_ok o reg' (n + 1) s2 db2) ->
    exists reg', extends reg (cs_world s) reg' (cs_world s2) /\ conc_ok o reg' (n + cost s (cs_flush s')) s2 db2) as Hle.
  { intros s2 db2 (reg' & Hx & Hc). exists reg'. split; [done|]. by eapply conc_ok_le; [|exact Hc]; lia. }
  pose proof Ho as [Ho2 _ _].
  destruct (conc_shape _ _ _ _ _ _ _ _ Hok) as (mem & imm & v & m & c & le & sk & rd & wk & w0 & f0 & b0 & Es).
  destruct Hstep as [op e w b e' w' Hr|key r e w f b e' w' Hr|e w f b f' e' w' Hr|e w f b b' e' w' Hr
    |v0 job id x e w f e' w' Hr|wk' le' e w f b|e w f b w' Hw]; cbn [foldl flip] in *;
    injection Es as ->; subst.
  - apply Hle. eapply (wp_Ok _ _ _ _ _ _ (wp_user_section _ _ _ _ _ _ _ _ _ _ _ _ _ _ _ _ _ _ op Ho Hok)) in Hr.
    apply Hr.
  - apply Hle. exists reg. eapply conc_get in Hr as [Hw Hc]; [|apply Ho|exact Hok]. split; [by apply extends_files|done].
  - eapply (wp_Ok _ _ _ _ _ _ (wp_flush_section _ _ _ _ _ _ _ _ _ _ _ _ _ _ _ _ _ Ho Hn1 _ _ Hok)) in Hr. apply Hr.
  - apply Hle. eapply (wp_Ok _ _ _ _ _ _ (wp_compact_section _ _ _ _ _ _ _ _ _ _ _ _ _ _ _ _ _ Ho Hn1 _ _ Hok)) in Hr.
    apply Hr.
  - apply Hle. eapply (wp_Err _ _ _ _ _ _ (wp_compact_merge _ _ _ _ _ _ _ _ _ _ _ _ _ _ _ _ _ Ho Hn1 _ _ _ _ Hok)) in Hr.
    apply Hr.
  - apply Hle. exists reg. split; [done|]. eapply conc_volatile; [apply Ho|exact Hok|done|].
    apply (eo_cache _ _ _ _ _ _ _ (ca_caught _ _ _ _ _ _ _ _ Hok)).
  - apply Hle. exists reg. split; [by apply extends_files|]. eapply conc_volatile; [apply Ho|exact Hok|done|].
    apply (eo_cache _ _ _ _ _ _ _ (ca_caught _ _ _ _ _ _ _ _ Hok)).
Qed.

(** A well-formed engine with both threads idle. *)
Lemma conc_idle o reg n e w db :
  engine_ok o reg n None e w db -> conc_ok o reg n (mkC e w FIdle CIdle) db.
Proof.
  intros Hok. destruct (engine_ok_shape _ _ _ _ _ _ _ Hok) as (ops & v & m & c & le & sk & rd & wk & -> & Hv & Hl).
  exists ops, v, v. split; try done; cbn; [apply (eo_levels _ _ _ _ _ _ _ Hok)|].
  apply (dk_stored _ _ _ _ (eo_disk _ _ _ _ _ _ _ Hok)).
Qed.

Lemma creachable_nonneg `{Libm} o n ops s : creachable o n ops s -> 0 <= n.
Proof. induction 1 as [|n ops s ops' s' Hr IH Hs|]; [lia| |lia]. pose proof (cost_pos s (cs_flush s')). lia. Qed.

Lemma creachable_ok `{Libm} o n ops s :
  options_ok o -> creachable o n ops s -> n < 2 ^ 30 -> exists reg, conc_ok o reg n s (spec_map ops).
Proof.
  intros Ho Hr. induction Hr as [w e w' Hf Hop|n ops s ops' s' Hr IH Hs|n ops s w2 e' w' Hr IH Hc Hop]; intros Hn.
  - exists ∅. apply conc_idle.
    eapply (wp_Ok _ (fun e w => engine_ok o ∅ 0 None e w ∅) (fun _ _ => True)) in Hop; [exact Hop|].
    eapply wp_open_fresh; [apply Ho|done|done].
  - pose proof (cost_pos s (cs_flush s')). destruct IH as [reg Hok]; [lia|]. rewrite spec_map_app.
    destruct (cstep_keeps _ _ _ _ _ _ _ Ho Hn Hs Hok) as (reg' & _ & ?). by exists reg'.
  - destruct IH as (reg & ol & v1 & vh & Hok); [lia|]. exists reg. apply conc_idle.
    eapply (wp_Ok _ (fun e2 w3 => engine_ok o reg (n + 1) None e2 w3 (spec_map ops)) (fun _ _ => True)) in Hop;
      [exact Hop|]. eapply wp_open_crash; [apply Ho| |exact Hc|done].
    eapply engine_ok_le; [|apply (ca_caught _ _ _ _ _ _ _ _ Hok)]. lia.
Qed.

(** ** Schedules *)

(** Which thread runs next; a write is the owner's choice. *)
Inductive action := AWrite (op : Operation) | AFlush | ACompact.

Definition act `{Libm} (a : action) (s : cstate) : option (list Operation * cstate) :=
  let ew := (cs_engine s, cs_world s) in
  match a, cs_flush s with
  | AWrite op, FIdle =>
      match user_section op ew with
      | (Ok _, (e, w)) => Some ([op], mkC e w FIdle (cs_compact s))
      | _ => None
      end
  | AWrite _, _ => None
  | AFlush, f =>
      match flush_section f ew with
      | (Ok f', (e, w)) => Some ([], mkC e w f' (cs_compact s))
      | _ => None
      end
  | ACompact, f =>
      match Engine.on_shared (compact_section (cs_compact s)) ew with
      | (Ok b', (e, w)) => Some ([], mkC e w f b')
      | _ => None
      end
  end.

Fixpoint schedule `{Libm} (l : list action) (x : Z * list Operation * cstate)
    : option (Z * list Operation * cstate) :=
  match l with
  | [] => Some x
  | a :: l' =>
      let '(n, ops, s) := x in
      match act a s with
      | Some (ops', s') => schedule l' (n + cost s (cs_flush s'), ops ++ ops', s')
      | None => None
      end
  end.

Lemma act_cstep `{Libm} a s ops' s' : act a s = Some (ops', s') -> cstep s ops' s'.
Proof.
  destruct s as [e w f b]. unfold act. cbn [cs_engine cs_world cs_flush cs_compact].
  destruct a as [op| |].
  - destruct f; try done. destruct (user_section op (e, w)) as [[[]|x|] [e' w']] eqn:E; try done.
    intros [= <- <-]. by apply cstep_write.
  - intros Ha. destruct (flush_section f (e, w)) as [[f'|x|] [e' w']] eqn:E; destruct f; try done;
      injection Ha as <- <-; by apply cstep_flush.
  - intros Ha. destruct (Engine.on_shared (compact_section b) (e, w)) as [[b'|x|] [e' w']] eqn:E; destruct f; try done;
      injection Ha as <- <-; by apply cstep_compact.
Qed.

Lemma schedule_reachable `{Libm} o l n ops s n' ops' s' :
  creachable o n ops s -> schedule l (n, ops, s) = Some (n', ops', s') -> creachable o n' ops' s'.
Proof.
  revert n ops s. induction l as [|a l IH]; intros n ops s Hr; cbn [schedule]; [by intros [= <- <- <-]|].
  destruct (act a s) as [[ops1 s1]|] eqn:E; [|done]. apply IH. eapply creach_step; [done|]. by eapply act_cstep.
Qed.

#[local] Instance threads_sizing : Libm := demo_libm.

(** Two flushed versions of a key; then a compaction of the two tables and a
    flush of a third version take turns: the flush records its table before the
    compaction records its own, and installs it after. *)
Definition whole_flush : list action := replicate 5 AFlush.
Definition turns : list action :=
  [AWrite (Put [x61] [x31])] ++ whole_flush ++ [AWrite (Put [x61] [x32]); AWrite (Put [x62] [x32])] ++ whole_flush ++
  [ACompact; AWrite (Put [x61] [x33]); AFlush; ACompact; AFlush; ACompact; AFlush; ACompact; ACompact; AFlush].
Definition turns_ops : list Operation :=
  [Put [x61] [x31]; Put [x61] [x32]; Put [x62] [x32]; Put [x61] [x33]].

Definition idle_at (o : Options) (w : World) : cstate :=
  let s := open_state o w in mkC (st_engine s) (st_world s) FIdle CIdle.

Definition turned : cstate :=
  match schedule turns (0, [], idle_at for_test empty_world) with
  | Some (_, _, s) => s
  | None => idle_at for_test empty_world
  end.

Lemma turned_run : schedule turns (0, [], idle_at for_test empty_world) = Some (27, turns_ops, turned).
Proof. vm_compute. reflexivity. Qed.

Lemma start_reachable : creachable for_test 0 [] (idle_at for_test empty_world).
Proof.
  unfold idle_at, open_state. destruct (Engine.open_with for_test empty_world) as [r w] eqn:E.
  assert (is_ok r = true) as Hr by (change r with (fst (r, w)); rewrite <- E; vm_compute; reflexivity).
  destruct r as [e| |]; [|done|done]. apply (creach_open for_test empty_world); [|done].
  split_and!; [by split|apply lookup_empty|apply lookup_empty].
Qed.

Lemma turned_reachable : creachable for_test 27 turns_ops turned.
Proof. eapply schedule_reachable; [exact start_reachable|exact turned_run]. Qed.

(** ** Properties *)

(** C2: the engine refines a finite map under its two threads.  However the sections
    of writes and flushes interleave with those of background compactions, with
    merges that fail and crashes between any two sections, a lookup that
    succeeds returns what the acknowledged writes put there last, every lookup
    succeeds when no failure is pending, and whatever a crash leaves of the
    unsynced data, the directory opens again to the same map. *)
Theorem concurrent_refines_map `{Libm} o n ops s :
  options_ok o -> creachable o n ops s -> n < 2 ^ 30 ->
  consistent (cs_engine s) (cs_world s) (spec_map ops) /\
  (quiet (cs_world s) -> answers (cs_engine s) (cs_world s) (spec_map ops)) /\
  forall w2, crashed (cs_world s) w2 -> reopens o w2 (spec_map ops).
Proof.
  intros Ho Hr Hn. destruct (creachable_ok o n ops s Ho Hr Hn) as (reg & ol & v1 & vh & Hok).
  pose proof (conc_readable _ _ _ _ _ _ _ _ Hok) as Hrd. split_and!.
  - by eapply readable_consistent.
  - intros Hq. by eapply readable_answers.
  - intros w2 Hc. eapply recovers_reopens, conc_crash; [exact Hok|apply Ho|done].
Qed.

(** The compaction and the flush have both installed their tables; the log still
    has the flushed write. *)
Lemma concurrent_refines_map_witness :
  consistent (cs_engine turned) (cs_world turned) (spec_map turns_ops) /\
  reopens for_test (restart (cs_world turned)) (spec_map turns_ops) /\
  cs_flush turned = FInstalled /\
  Manifest.tables (s_manifest (Engine.shared (cs_engine turned))) = [(3, 0); (4, 1)] /\
  spec_map turns_ops !! [x61] = Some [x33].
Proof.
  destruct (concurrent_refines_map for_test 27 turns_ops turned demo_options turned_reachable)
    as (Hc & _ & Hr); [reflexivity|].
  split; [exact Hc|]. split; [apply Hr, crashed_restart|]. split_and!; vm_compute; reflexivity.
Defined.

(** C11: neither thread gets stuck.  In any state of the two threads with no failure
    pending, the next section of the flush and the next section of the
    compaction both return [Ok], whatever the other thread is in the middle of,
    and so does a valid write when no flush is under way: no lookup of a level
    is out of range, no table is added twice, no error is reported. *)
Theorem concurrent_progress `{Libm} o n ops s :
  options_ok o -> creachable o n ops s -> n + 1 < 2 ^ 30 -> quiet (cs_world s) ->
  let ew := (cs_engine s, cs_world s) in
  is_ok (fst (flush_section (cs_flush s) ew)) = true /\
  is_ok (fst (Engine.on_shared (compact_section (cs_compact s)) ew)) = true /\
  (cs_flush s = FIdle -> forall op, op_valid op -> fst (user_section op ew) = Ok tt).
Proof.
  intros Ho Hr Hn Hq ew. destruct (creachable_ok o n ops s Ho Hr ltac:(lia)) as (reg & ol & v1 & vh & Hok).
  destruct (conc_shape _ _ _ _ _ _ _ _ Hok) as (mem & imm & v & m & c & le & sk & rd & wk & w & f & b & ->).
  unfold ew. cbn [cs_engine cs_world cs_flush cs_compact] in *. split_and!.
  - pose proof (wp_flush_section _ _ _ _ _ _ _ _ _ _ _ _ _ _ _ _ _ Ho Hn _ _ Hok) as Hwp.
    unfold wp in Hwp. by destruct (flush_section f _) as [[?|?|] ?].
  - pose proof (wp_compact_section _ _ _ _ _ _ _ _ _ _ _ _ _ _ _ _ _ Ho Hn _ _ Hok) as Hwp.
    unfold wp in Hwp. by destruct (Engine.on_shared _ _) as [[?|?|] ?].
  - intros -> op Hop. pose proof (wp_user_section _ _ _ _ _ _ _ _ _ _ _ _ _ _ _ _ _ _ op Ho Hok) as Hwp.
    unfold wp in Hwp. destruct (user_section op _) as [[[]|x|] ?]; [done| |done]. by destruct Hwp.
Qed.

Lemma concurrent_progress_witness :
  is_ok (fst (flush_section (cs_flush turned) (cs_engine turned, cs_world turned))) = true /\
  is_ok (fst (Engine.on_shared (compact_section (cs_compact turned)) (cs_engine turned, cs_world turned))) = true.
Proof.
  destruct (concurrent_progress for_test 27 turns_ops turned demo_options turned_reachable) as (Hf & Hc & _);
    [reflexivity|split; vm_compute; reflexivity|]. split; [exact Hf|exact Hc].
Defined.
