(* ===== verification/Snapshots.v ===== *)
(** * Scans that outlive the state they were opened in

    An [EngineIterator] owns copies of the memtables and handles of the tables,
    so it can be drained while the engine goes on: writes, flushes and
    compactions happen between two calls of [next].  The table files it reads
    are never written again and never removed, and it yields the map as it was
    when the scan was opened. *)

From S2P Require Import Prelude Bytes Errors Collections Records World Wal Memtable.
From S2P Require Import Bloom Cache Format Names SsTables TableWrite TableRead Manifests Merge.
From S2P Require Import Compaction Versions Engine EngineInv Recovery EngineOps Compacting EngineProps.
From S2P Require Import Scan Threads Concurrent.

(** ** Iterators and later states *)

Lemma held_ext reg w reg' w' t bs : extends reg w reg' w' -> held reg w t bs -> held reg' w' t bs.
Proof. intros Hx [Hs Hb]. split; [by eapply stored_ext|]. by eapply lookup_weaken; [|apply Hx]. Qed.

Lemma source_at_ext reg w reg' w' start end_ s r :
  extends reg w reg' w' -> source_at reg w start end_ s r -> source_at reg' w' start end_ s r.
Proof.
  intros Hx (Hs & Hh & Hr). split; [done|]. split; [done|]. destruct (ps_rest s) as [items|iter]; [done|].
  destruct Hr as (t & bs & raw & Ht & ?). exists t, bs, raw. split; [by eapply held_ext|done].
Qed.

Lemma iterator_at_ext reg w reg' w' it rs :
  extends reg w reg' w' -> iterator_at reg w it rs -> iterator_at reg' w' it rs.
Proof. intros Hx Hit. eapply Forall2_impl; [exact Hit|]. intros s r. by apply source_at_ext. Qed.

(** The rest of a scan exists: it is what the iterator would yield if nothing
    failed any more. *)
Lemma iterator_rest reg w it rs : iterator_at reg w it rs -> exists l, is_merge true rs (as_value <$> l).
Proof.
  intros Hit. set (w1 := mkWorld (w_files w) None []).
  pose proof (wp_collect reg w (S (total_len rs)) it rs w1 Hit ltac:(lia) eq_refl) as Hwp.
  apply wp_run in Hwp as [(l & w2 & _ & Hm & _)|(x & w2 & _ & _ & Hq)]; [by exists l|].
  by destruct Hq.
Qed.

(** One call of [next]. *)
Lemma iterator_next reg w it rs :
  iterator_at reg w it rs ->
  match EngineIterator.next it w with
  | (Ok (item, it'), w') => iterator_post reg w rs w (item, it') w'
  | _ => False
  end.
Proof.
  intros Hit. pose proof (wp_iterator_loop reg w _ it rs (fun _ _ => False) w Hit
    (scan_fuel_enough _ _ _ _ Hit) eq_refl) as Hwp.
  unfold wp in Hwp. fold (EngineIterator.next it w) in Hwp.
  by destruct (EngineIterator.next it w) as [[[item it']|x|] w'].
Qed.

(** ** Sessions *)

Definition with_world (w : World) (s : cstate) : cstate :=
  mkC (cs_engine s) w (cs_flush s) (cs_compact s).

(** The steps of the engine and the calls of [next] that yield a pair, in any
    order, from a state and an iterator. *)
Inductive session `{Libm} (n0 : Z) (s0 : cstate) (it0 : EngineIterator.t)
    : Z -> cstate -> EngineIterator.t -> list (bytes * bytes) -> Prop :=
| session_open : session n0 s0 it0 n0 s0 it0 []
| session_step n s it l ops' s' :
    session n0 s0 it0 n s it l -> cstep s ops' s' -> session n0 s0 it0 (n + cost s (cs_flush s')) s' it l
| session_next n s it l x it' w' :
    session n0 s0 it0 n s it l -> EngineIterator.next it (cs_world s) = (Ok (Some (Ok x), it'), w') ->
    session n0 s0 it0 (n + 1) (with_world w' s) it' (l ++ [x]).

Lemma conc_world o reg n s db w' :
  2 <= max_levels o -> conc_ok o reg n s db -> w_files w' = w_files (cs_world s) ->
  conc_ok o reg (n + 1) (with_world w' s) db.
Proof.
  intros Ho (ops & v1 & vh & Hok) Hw.
  destruct (conc_shape _ _ _ _ _ _ _ _ Hok) as (mem & imm & v & m & c & le & sk & rd & wk & w & f & b & ->).
  eapply conc_volatile; [done|exact Hok|done|].
  apply (eo_cache _ _ _ _ _ _ _ (ca_caught _ _ _ _ _ _ _ _ Hok)).
Qed.

Section session.
Context `{Libm} (o : Options) (reg0 : registry) (n0 : Z) (s0 : cstate) (it0 : EngineIterator.t).
Context (db0 : gmap bytes bytes) (rs0 : list run).
Hypothesis Ho : options_ok o.
Hypothesis Hok : conc_ok o reg0 n0 s0 db0.
Hypothesis Hit : iterator_at reg0 (cs_world s0) it0 rs0.

(** What was yielded and what is left make up the scan that was opened. *)
Lemma session_keeps n s it l :
  session n0 s0 it0 n s it l -> n < 2 ^ 30 ->
  exists reg db rs, conc_ok o reg n s db /\ iterator_at reg (cs_world s) it rs /\
    forall out, is_merge true rs out -> is_merge true rs0 ((as_value <$> l) ++ out).
Proof using Ho Hok Hit.
  intros Hs. induction Hs as [|n s it l ops' s' Hs IH Hstep|n s it l x it' w' Hs IH Hnext]; intros Hn.
  - by exists reg0, db0, rs0.
  - pose proof (cost_pos s (cs_flush s')). destruct IH as (reg & db & rs & Hc & Hi & Hm); [lia|].
    destruct (cstep_keeps _ _ _ _ _ _ _ Ho Hn Hstep Hc) as (reg' & Hx & Hc').
    exists reg', (foldl (flip op_spec) db ops'), rs. split; [done|]. split; [by eapply iterator_at_ext|done].
  - destruct IH as (reg & db & rs & Hc & Hi & Hm); [lia|]. pose proof (iterator_next _ _ _ _ Hi) as Hp.
    rewrite Hnext in Hp. destruct Hp as [[Hw _] Hp]. destruct x as [k v]. cbn in Hp.
    destruct Hp as (rs' & Hi' & _ & Hm'). exists reg, db, rs'. split; [by apply conc_world; [apply Ho|..]|].
    split; [by eapply iterator_at_ext; [apply extends_files|]|].
    intros out Hout. rewrite fmap_app, <- app_assoc. cbn. by apply Hm, Hm'.
Qed.

End session.

(** The memtables of a reachable engine are sorted. *)
Lemma conc_memtables o reg n ops v1 vh s db :
  conc_at o reg n ops v1 vh s db ->
  ksorted (MemTable.entries (Engine.memtable (cs_engine s))) /\
  match Engine.immutable (cs_engine s) with Some imm => ksorted (MemTable.entries imm) | None => True end.
Proof.
  intros Hok. pose proof (conc_sorted _ _ _ _ _ _ _ _ Hok) as Hs. pose proof (ca_flush _ _ _ _ _ _ _ _ Hok) as Hf.
  assert (is_frozen ops (cs_engine s) -> ksorted (MemTable.entries (Engine.memtable (cs_engine s))) /\
    match Engine.immutable (cs_engine s) with Some imm => ksorted (MemTable.entries imm) | None => True end) as Hfr.
  { intros [-> ->]. rewrite rebuild_entries by done. split; [constructor|done]. }
  destruct (cs_flush s); cbn in Hf; [by destruct Hf as [-> ->]|apply Hfr, Hf..].
Qed.

Lemma session_le `{Libm} n0 s0 it0 n s it l : session n0 s0 it0 n s it l -> n0 <= n.
Proof.
  induction 1 as [|n s it l ops' s' _ IH _|n s it l x it' w' _ IH _]; [lia| |lia].
  pose proof (cost_pos s (cs_flush s')). lia.
Qed.

(** What the next call may return when [rest] is left. *)
Definition yields_next (rest : list (bytes * bytes)) (it : EngineIterator.t) (w : World) : Prop :=
  match EngineIterator.next it w with
  | (Ok (item, _), w') => w_files w' = w_files w /\
      match item with
      | None => rest = []
      | Some (Ok x) => head rest = Some x
      | Some (Err _) => ~ quiet w
      | Some Panic => False
      end
  | _ => False
  end.

Lemma iterator_yields reg w it rs rest :
  iterator_at reg w it rs -> is_merge true rs (as_value <$> rest) -> yields_next rest it w.
Proof.
  intros Hit Hm. pose proof (iterator_next _ _ _ _ Hit) as Hp. unfold yields_next.
  destruct (EngineIterator.next it w) as [[[item it']|x|] w']; [|done|done].
  destruct Hp as [[Hw Hq] Hp]. split; [done|]. destruct item as [[[k v]|x|]|]; cbn in Hp; [|done|done|].
  - destruct Hp as (rs' & Hit' & _ & Hm'). destruct (iterator_rest _ _ _ _ Hit') as [out Hout].
    pose proof (is_merge_unique _ _ _ _ Hm (Hm' _ Hout)) as E. destruct rest as [|[k' v'] rest]; [done|].
    by injection E as -> -> _.
  - pose proof (is_merge_unique _ _ _ _ Hm Hp) as E. by destruct rest.
Qed.

(** C10: a scan is a snapshot.  Open a scan in any state of the two threads, even in
    the middle of a flush or a compaction, and go on: whatever writes, flush
    and compaction sections and failures come between the calls of [next], the
    pairs it has yielded are a prefix of the map as it was when the scan was
    opened, restricted to the bounds and in key order; the next call yields the
    next pair of it, ends exactly when there is none, and fails only when a
    failure of the file system was pending.  It never panics. *)
Theorem scan_snapshot `{Libm} o n0 ops s0 start end_ it0 w1 n s it l :
  options_ok o -> creachable o n0 ops s0 ->
  scan (cs_engine s0) start end_ (cs_world s0) = (Ok it0, w1) ->
  session (n0 + 1) (with_world w1 s0) it0 n s it l -> n < 2 ^ 30 ->
  exists rest, scan_of (spec_map ops) start end_ (l ++ rest) /\ yields_next rest it (cs_world s).
Proof.
  intros Ho Hr Hscan Hses Hn. pose proof (session_le _ _ _ _ _ _ _ Hses).
  destruct (creachable_ok o n0 ops s0 Ho Hr ltac:(lia)) as [reg Hc]. pose proof Hc as (ol & v1 & vh & Hat).
  pose proof (conc_readable _ _ _ _ _ _ _ _ Hat) as Hrd. destruct (conc_memtables _ _ _ _ _ _ _ _ Hat) as [Hmem Himm].
  eapply (wp_Ok _ (fun it w => iterator_at reg (cs_world s0) it (clip start end_ <$> layers reg (cs_engine s0)) /\
    w_files w = w_files (cs_world s0)) (fun _ _ => True)) in Hscan as [Hit Hw1].
  2: { eapply wp_scan; [exact Hrd|done|done|done|done]. }
  apply (iterator_at_ext _ _ reg w1) in Hit; [|by apply extends_files].
  eapply conc_world in Hc; [|apply Ho|exact Hw1].
  destruct (session_keeps o reg _ _ _ _ _ Ho Hc Hit _ _ _ _ Hses Hn) as (reg' & db' & rs & _ & Hi & Hm).
  destruct (iterator_rest _ _ _ _ Hi) as [rest Hrest]. exists rest. split; [|by eapply iterator_yields].
  eapply merge_scan_of; [exact Hrd|]. rewrite fmap_app. by apply Hm.
Qed.

#[local] Instance snapshot_sizing : Libm := demo_libm.

Lemma schedule_session `{Libm} n0 s0 it0 it acts l n ops s n' ops' s' :
  session n0 s0 it0 n s it l -> schedule acts (n, ops, s) = Some (n', ops', s') -> session n0 s0 it0 n' s' it l.
Proof.
  revert n ops s. induction acts as [|a acts IH]; intros n ops s Hs; cbn [schedule]; [by intros [= <- <- <-]|].
  destruct (act a s) as [[ops1 s1]|] eqn:E; [|done]. apply IH. eapply session_step; [done|]. by eapply act_cstep.
Qed.

(** A scan opened in the middle of the run of [Concurrent], between two sections
    of a flush; the rest of the run and an overwrite of [b] come before its
    first pair is taken. *)
Definition start_run : Z * list Operation * cstate := (0, [], idle_at for_test empty_world).
Definition opened_at : Z * list Operation * cstate := default start_run (schedule (take 18 turns) start_run).
Definition there : cstate := snd opened_at.
Definition scan_there : EngineIterator.t * World :=
  match scan (cs_engine there) Unbounded Unbounded (cs_world there) with
  | (Ok it, w) => (it, w)
  | (_, w) => (EngineIterator.mk [] Unbounded Unbounded, w)
  end.
Definition goes_on : list action := drop 18 turns ++ [AFlush; ACompact; AWrite (Put [x62] [x39])].
Definition ends_at : Z * list Operation * cstate :=
  default start_run (schedule goes_on (22, [], with_world (snd scan_there) there)).

Lemma opened_run : schedule (take 18 turns) start_run = Some (21, turns_ops, there).
Proof. vm_compute. reflexivity. Qed.

Lemma ends_run :
  schedule goes_on (22, [], with_world (snd scan_there) there) = Some (31, [Put [x62] [x39]], snd ends_at).
Proof. vm_compute. reflexivity. Qed.

Lemma there_reachable : creachable for_test 21 turns_ops there.
Proof. eapply schedule_reachable; [exact start_reachable|exact opened_run]. Qed.

Lemma scan_opens :
  scan (cs_engine there) Unbounded Unbounded (cs_world there) = (Ok (fst scan_there), snd scan_there).
Proof.
  unfold scan_there. destruct (scan _ _ _ _) as [r w] eqn:E.
  assert (is_ok r = true) as Hr by (change r with (fst (r, w)); rewrite <- E; vm_compute; reflexivity).
  by destruct r.
Qed.

(** The scan yields the values it was opened on, [b] included. *)
Lemma scan_snapshot_witness :
  (exists rest, scan_of (spec_map turns_ops) Unbounded Unbounded rest /\
     yields_next rest (fst scan_there) (cs_world (snd ends_at))) /\
  fst (collect_scan 9 (fst scan_there) (cs_world (snd ends_at))) = Ok [([x61], [x33]); ([x62], [x32])] /\
  fst (Engine.get [x62] (cs_engine (snd ends_at), cs_world (snd ends_at))) = Ok (Some [x39]).
Proof.
  split; [|split; vm_compute; reflexivity].
  apply (scan_snapshot for_test 21 turns_ops there Unbounded Unbounded (fst scan_there) (snd scan_there)
    31 (snd ends_at) (fst scan_there) []).
  - exact demo_options.
  - exact there_reachable.
  - exact scan_opens.
  - eapply schedule_session; [apply session_open|exact ends_run].
  - reflexivity.
Defined.
