(* ===== verification/Failures.v ===== *)
(** * Sections that fail

    A section of either thread may fail while the other thread is in the middle
    of something.  The theorem says what is left: lookups still answer as the
    map, and so does the engine that is opened after a crash, except when the
    records of a compaction were being written, which [Findings] is about. *)

From S2P Require Import Prelude Bytes Errors Collections Records World Wal Memtable.
From S2P Require Import Bloom Cache Format Names SsTables TableWrite TableRead Manifests Merge.
From S2P Require Import Compaction Versions Engine EngineInv Recovery EngineOps Compacting EngineProps.
From S2P Require Import Threads Concurrent.

(** Reads show [db]. *)
Definition reads_as (db : gmap bytes bytes) (ew : Engine.EW) : Prop :=
  exists reg, readable reg (fst ew) (snd ew) db.

(** A crash loses nothing. *)
Definition survives (o : Options) (db : gmap bytes bytes) (ew : Engine.EW) : Prop :=
  forall w2, crashed (snd ew) w2 -> recovers o w2 db.

Section failures.
Context `{Libm} (o : Options) (reg : registry) (n : Z) (ops : list Operation) (v1 vh : Version.t).
Context (mem : MemTable.t) (imm : option MemTable.t) (v : Version.t) (m : Manifest.t) (c : BlockCache.t).
Context (le : option string) (sk rd : Z) (wk : CompactionWorker.t) (w : World) (db : gmap bytes bytes).
Context (f : flush_at) (b : compact_at).
Abbreviation e := (engine o mem imm v m c le sk rd wk).
Abbreviation l := (MemTable.entries (replay_mem ops)).
Hypothesis Ho : options_ok o.
Hypothesis Hn : n + 1 < 2 ^ 30.
Hypothesis Hok : conc_at o reg n ops v1 vh (mkC e w f b) db.
Abbreviation caught := (eng o ops vh m c le sk rd wk).

Lemma fail_caught : engine_ok o reg n None caught w db.
Proof using Hok. apply (ca_caught _ _ _ _ _ _ _ _ Hok). Qed.

Lemma fail_log : Forall op_valid ops /\ clean_log w WAL_FILE_NAME ops.
Proof using Hok. apply (ca_log _ _ _ _ _ _ _ _ Hok). Qed.

(** The engine as it is, or with its memtable frozen, in a later world. *)
Lemma fail_reads m' w' : extends reg w reg w' -> reads_as db (engine o mem imm v m' c le sk rd wk, w').
Proof using Hok.
  intros Hx. destruct (conc_readable _ _ _ _ _ _ _ _ Hok) as [Hst Hc Hdb]. exists reg.
  split; [|done|done]. eapply Forall_impl; [exact Hst|]. intros t. by apply stored_ext.
Qed.

Lemma fail_reads_frozen m' w' :
  extends reg w reg w' ->
  reads_as db (engine o MemTable.new (Some (Engine.rebuild l)) v m' c le sk rd wk, w').
Proof using Hok.
  intros Hx. destruct (conc_readable _ _ _ _ _ _ _ _ Hok) as [Hst Hc _]. exists reg. split; [|done|].
  - eapply Forall_impl; [exact Hst|]. intros t. by apply stored_ext.
  - intros k. rewrite (conc_shows_v _ _ _ _ _ _ _ _ Hok k). unfold layers, newest.
    cbn [fst Engine.memtable Engine.immutable Engine.shared s_version first_some app].
    by rewrite rebuild_entries by apply (conc_sorted _ _ _ _ _ _ _ _ Hok).
Qed.

(** A crash of a world that differs in nothing that matters. *)
Lemma fail_survives e' w' : engine_ok o reg n None caught w' db -> survives o db (e', w').
Proof using Ho. intros Hok' w2 Hc. eapply engine_ok_crash; [apply Ho|exact Hok'|done]. Qed.

(** A name could not be recorded. *)
Lemma fail_name_survives e' m' recs w' :
  man_failed w' m' m recs (SetNextTableId (Manifest.next_id m + 1)) -> only_manifest w w' -> survives o db (e', w').
Proof using Ho Hok.
  intros Hf Hw w2 Hc. destruct fail_log as [Hv Hl].
  destruct (begin_id_failed _ _ _ _ _ _ _ _ _ _ _ _ _ recs m' w' (proj1 (oo_levels _ Ho)) fail_caught Hv Hl Hf Hw)
    as [_ Hcr]. by destruct (Hcr w2 Hc).
Qed.

Lemma wp_name_fails {A} mem' imm' (k : Z -> M Engine.EW A) (E : Error -> Engine.EW -> Prop) :
  (forall x m' w', only_manifest w w' -> survives o db (engine o mem' imm' v m' c le sk rd wk, w') ->
     E x (engine o mem' imm' v m' c le sk rd wk, w')) ->
  (forall id ew, wp (k id) (fun _ _ => True) E ew) ->
  wp (let! id := Engine.on_shared (with_manifest Manifest.next_table_id) in k id) (fun _ _ => True) E
    (engine o mem' imm' v m c le sk rd wk, w).
Proof using Ho Hok Hn.
  intros HE Hk. pose proof (eo_next _ _ _ _ _ _ _ fail_caught) as Hnx. cbn in Hnx.
  destruct (eo_manifest _ _ _ _ _ _ _ fail_caught) as [recs Hm]. cbn in Hm.
  assert (wrap64 (Manifest.next_id m + 1) = Manifest.next_id m + 1) as Hwrap
    by (rewrite ?wrap64_mod; rewrite Z.mod_small; lia).
  apply wp_bind, wp_eng_shared, wp_with_manifest. cbn [Engine.shared s_manifest].
  eapply wp_next_table_id; [exact Hm|..]; rewrite Hwrap; cbn [fst snd].
  - intros w1 _ _ _. apply Hk.
  - intros x w1 Hf Hw1 _. apply HE; [done|]. by eapply fail_name_survives.
Qed.

(** ** The flush *)

Abbreviation fail_safe := (fun (_ : Error) (ew : Engine.EW) => reads_as db ew /\ survives o db ew).

Lemma flush_start_fails : f = FIdle -> wp (flush_section FIdle) (fun _ _ => True) fail_safe (e, w).
Proof using Ho Hok Hn.
  intros Ef. pose proof (ca_flush _ _ _ _ _ _ _ _ Hok) as Hf. cbn in Hf. rewrite Ef in Hf.
  destruct Hf as [Hmem Himm]. cbn in Hmem, Himm. destruct fail_log as [Hv [Hf Hfile]].
  unfold flush_section. apply wp_bind, wp_eng_self. cbn [Engine.memtable Engine.wal].
  destruct (MemTable.is_empty mem).
  - apply wp_bind, wp_eng_disk. eapply wp_sync; [exact Hfile| |]; [by intros; apply wp_ret|].
    intros x w1 Hw1 _. split; [by apply fail_reads, extends_files|].
    apply fail_survives. by eapply engine_ok_files; [|exact fail_caught].
  - do 3 apply wp_bind, wp_eng_modify.
    cbn [Engine.set_memtable Engine.set_immutable Engine.options Engine.wal Engine.memtable
      Engine.immutable Engine.shared Engine.worker].
    unfold MemTable.iter. rewrite Hmem. apply wp_name_fails; [|by intros; apply wp_ret].
    intros x m' w' Hw' Hs. split; [|done]. by apply fail_reads_frozen, extends_manifest.
Qed.

Lemma flush_create_fails id snapshot :
  f = FNamed id snapshot -> wp (flush_section (FNamed id snapshot)) (fun _ _ => True) fail_safe (e, w).
Proof using Ho Hok Hn.
  intros Ef. pose proof (ca_flush _ _ _ _ _ _ _ _ Hok) as Hf. cbn in Hf. rewrite Ef in Hf.
  destruct Hf as (_ & -> & [Hnone Hres]). destruct fail_log as [Hv _].
  destruct (replay_ok ops Hv) as [[Hsorted _] Hent Hkeys].
  assert (len l < 2 ^ 30) as Hlen.
  { pose proof (eo_size _ _ _ _ _ _ _ fail_caught) as Hs. unfold layers in Hs. rewrite total_len_cons in Hs.
    cbn [Engine.memtable] in Hs. unfold len. lia. }
  unfold flush_section. apply wp_bind, wp_eng_self, wp_bind, wp_eng_disk. cbn [Engine.options].
  eapply wp_create; [done|done|done|apply Ho|apply Ho|by intros; apply wp_ret|].
  intros x w1 Hcf _. assert (forall p, p <> table_file_name id -> p <> tmp_path (table_file_name id) ->
    w_files w1 !! p = w_files w !! p) as Hw1.
  { intros p H1 H2. destruct Hcf as [Hsame|(bs & fl & _ & _ & Hp)]; [by apply Hsame|by eapply published_other]. }
  split.
  - apply fail_reads. split; [done|]. intros i Hi. apply Hw1; [|apply table_neq_tmp].
    pose proof (dk_ids _ _ _ _ (eo_disk _ _ _ _ _ _ _ fail_caught) i Hi) as Hlt. intros E1.
    apply table_file_name_inj in E1; [|lia|lia]. subst i. rewrite Hnone in Hi. by destruct Hi.
  - apply fail_survives. eapply engine_ok_frame; [exact fail_caught|exact Hnone|lia|exact Hw1].
Qed.

(** The record of the table was cut short: after a crash it is there or not. *)
Lemma flush_record_fails id t :
  f = FWritten id t -> wp (flush_section (FWritten id t)) (fun _ _ => True) fail_safe (e, w).
Proof using Ho Hok Hn.
  intros Ef. pose proof (ca_flush _ _ _ _ _ _ _ _ Hok) as Hf. cbn in Hf. rewrite Ef in Hf.
  destruct Hf as (_ & -> & Hfl & _ & Hidh). destruct fail_log as [Hv Hl].
  pose proof fail_caught as Hcu. pose proof (eo_disk _ _ _ _ _ _ _ Hcu) as Hd. cbn in Hd.
  destruct (eo_manifest _ _ _ _ _ _ _ Hcu) as [recs Hm]. cbn in Hm.
  pose proof (eo_next _ _ _ _ _ _ _ Hcu) as Hnx. cbn in Hnx.
  assert (0 <= SsTable.id t < Manifest.next_id m) as Hid.
  { destruct Hfl as [[_ _ (bs & Hb & _) _] _]. apply (dk_ids _ _ _ _ Hd). by exists bs. }
  pose proof (matches_unlisted _ _ _ (dk_matches _ _ _ _ Hd) Hidh) as Hnot.
  unfold flush_section. apply wp_bind, wp_eng_self, wp_bind, wp_eng_shared, wp_with_manifest.
  cbn [Engine.shared s_manifest].
  eapply wp_add_table; [exact Hm|unfold u64; lia|lia|exact Hnot|by intros; apply wp_ret|].
  intros x w1 Hmf Hw1 _. split; [by apply fail_reads, extends_manifest|].
  intros w2 Hc. cbn [snd] in Hc. destruct (crash_man_torn _ _ _ _ _ _ Hmf Hc) as (m2 & Ha & Hi).
  cbn in Ha. rewrite Hnot in Ha. injection Ha as <-.
  assert (disk_ok reg w1 m vh) as Hd1.
  { eapply disk_ok_mono; [exact Hd|]. intros i. apply Hw1, table_neq_manifest. }
  assert (log_image w2 ops) as Hli by (eapply crash_log_clean; [done|by eapply manifest_log|done]).
  pose proof (eo_levels _ _ _ _ _ _ _ Hcu) as Hlen. cbn in Hlen. pose proof (proj1 (oo_levels _ Ho)) as Ho2.
  pose proof (engine_ok_shows _ _ _ _ _ _ _ _ _ _ _ _ _ _ Hcu) as Hs. destruct Hi as [Hi|Hi].
  - eapply recovers_from; [done|done|exact Hd1|exact Hlen|exact Hi|exact Hli|exact Hs].
  - destruct vh as [[|l0 rest]]; cbn [Version.levels] in *; [rewrite len_nil in Hlen; lia|].
    eapply (recovers_from _ _ _ _ _ (Version.mk ((t :: l0) :: rest)));
      [done|done| |by rewrite <- Hlen; cbn; rewrite !len_cons|exact Hi|exact Hli|].
    + apply disk_ok_push; [done| |exact Hidh]. destruct Hfl as [Hst _].
      by eapply stored_ext; [apply extends_manifest|].
    + intros k. rewrite (Hs k). cbn [Version.levels concat app]. rewrite runs_of_cons.
      destruct Hfl as [_ ->]. by rewrite visible_twice.
Qed.

Lemma flush_truncate_fails : f = FInstalled -> wp (flush_section FInstalled) (fun _ _ => True) fail_safe (e, w).
Proof using Ho Hok.
  intros Ef. pose proof (ca_flush _ _ _ _ _ _ _ _ Hok) as Hf. cbn in Hf. rewrite Ef in Hf.
  destruct Hf as [_ Hsh]. destruct fail_log as [Hv [Hfits Hfile]]. pose proof fail_caught as Hcu.
  unfold flush_section. apply wp_bind, wp_eng_self, wp_bind, wp_eng_disk. cbn [Engine.wal].
  eapply wp_truncate; [exact Hfile|by intros; apply wp_bind, wp_eng_modify, wp_ret|]. cbn [f_data f_durable Wal.path].
  intros x d w1 Hd Hw1 _.
  assert (forall i, w_files w1 !! table_file_name i = w_files w !! table_file_name i) as Hk.
  { intros i. rewrite Hw1, lookup_insert_ne; [done|]. intros E1. by eapply table_neq_wal. }
  split; [apply fail_reads; by split|]. intros w2 Hc. cbn [snd] in Hc. destruct (eo_manifest _ _ _ _ _ _ _ Hcu) as [recs Hm].
  assert (man_image w2 m) as Hi.
  { eapply man_ok_image, crash_man_clean; [|done]. destruct Hm as [? Hmf ?]. split; [done| |done].
    by rewrite Hw1, lookup_insert_ne. }
  assert (disk_ok reg w1 m vh) as Hd1 by (eapply disk_ok_mono; [apply (eo_disk _ _ _ _ _ _ _ Hcu)|done]).
  pose proof (eo_levels _ _ _ _ _ _ _ Hcu) as Hlen. cbn in Hlen. pose proof (proj1 (oo_levels _ Ho)) as Ho2.
  destruct (crash_log_truncated w1 w2 ops d) as [Hli|Hli]; [done|done|by rewrite Hw1, lookup_insert_eq|done| |].
  - eapply recovers_from; [done|done|exact Hd1|exact Hlen|exact Hi|exact Hli|by eapply engine_ok_shows].
  - eapply recovers_from; [done|done|exact Hd1|exact Hlen|exact Hi|exact Hli|exact Hsh].
Qed.

Lemma flush_section_fails : wp (flush_section f) (fun _ _ => True) fail_safe (e, w).
Proof using Ho Hok Hn.
  cut (forall g, f = g -> wp (flush_section g) (fun _ _ => True) fail_safe (e, w)); [intros Hg; by apply Hg|].
  intros [|id snapshot|id t|t|] Ef.
  - by apply flush_start_fails.
  - by apply flush_create_fails.
  - by apply flush_record_fails.
  - pose proof (ca_pushed _ _ _ _ _ _ _ _ Hok) as Hpu. cbn in Hpu. rewrite Ef in Hpu. cbn in Hpu.
    unfold flush_section. apply wp_bind, wp_eng_self, wp_bind, wp_eng_shared, wp_bind, wp_shared_self.
    cbn [Engine.shared s_version]. rewrite Hpu. by apply wp_bind, wp_ret, wp_shared_modify, wp_ret.
  - by apply flush_truncate_fails.
Qed.

(** ** The compaction *)

Abbreviation compact_safe := (fun (_ : Error) (ew : Engine.EW) =>
  reads_as db ew /\ (match b with CWritten _ => False | _ => True end -> survives o db ew)).

Lemma compact_name_fails v0 job :
  b = CPlanned v0 job ->
  wp (Engine.on_shared (compact_section (CPlanned v0 job))) (fun _ _ => True) compact_safe (e, w).
Proof using Ho Hok Hn.
  intros Eb. unfold compact_section. apply wp_eng_shared_bind, wp_bind, wp_eng_shared, wp_shared_self.
  cbn [fst snd Engine.set_shared Engine.options Engine.wal Engine.memtable Engine.immutable Engine.shared Engine.worker].
  apply wp_eng_shared_bind. apply wp_name_fails; [|intros; by destruct ew; apply wp_eng_shared, wp_ret].
  intros x m' w' Hw' Hs. split; [|done]. by apply fail_reads, extends_manifest.
Qed.

Lemma compact_record_fails p :
  b = CWritten p -> wp (Engine.on_shared (compact_section (CWritten p))) (fun _ _ => True) compact_safe (e, w).
Proof using Ho Hok Hn.
  intros Eb. pose proof Hok as Hat. rewrite Eb in Hat.
  pose proof (written_pending _ _ _ _ _ _ _ _ _ _ _ _ _ _ _ _ _ _ _ Hat) as Hp.
  apply wp_eng_shared. unfold compact_section. apply wp_bind, wp_shared_self, wp_bind, wp_with_manifest.
  cbn [Engine.shared s_manifest].
  eapply (wp_finish_record o reg n p ops vh m c le sk rd wk w db);
    [done|by apply engine_ok_pend; [exact fail_caught|]|lia|by intros; apply wp_ret|].
  intros x m' w' Hw' _. cbn [fst snd]. split; [by apply fail_reads, extends_manifest|]. by rewrite Eb.
Qed.

Lemma compact_section_fails :
  wp (Engine.on_shared (compact_section b)) (fun _ _ => True) compact_safe (e, w).
Proof using Ho Hok Hn.
  cut (forall g, b = g -> wp (Engine.on_shared (compact_section g)) (fun _ _ => True) compact_safe (e, w));
    [intros Hg; by apply Hg|].
  intros [|v0 job|v0 job id|p|p|p] Eb.
  - apply wp_eng_shared. unfold compact_section. apply wp_bind, wp_shared_self.
    by destruct (pick_compaction _ _); apply wp_ret.
  - by apply compact_name_fails.
  - pose proof Hok as Hat. rewrite Eb in Hat.
    eapply wp_mono; [by eapply wp_compact_merge|done|]. intros x [e' w'] [(reg' & _ & ol & u1 & uh & Hc) _].
    split; [exists reg'; apply (conc_readable _ _ _ _ _ _ _ _ Hc)|]. intros _ w2 Hcr.
    eapply (conc_crash _ _ _ _ _ _ _ _ Hc); [apply Ho|exact Hcr].
  - by apply compact_record_fails.
  - pose proof Hok as Hat. rewrite Eb in Hat.
    destruct (install_commute _ _ _ _ _ _ _ _ _ _ _ _ _ _ _ _ _ Ho _ _ Hat) as (v' & Hap & _).
    apply wp_eng_shared. unfold compact_section. apply wp_bind, wp_shared_self. cbn [Engine.shared s_version].
    rewrite Hap. by apply wp_bind, wp_ret, wp_bind, wp_shared_modify, wp_ret.
  - pose proof (ca_compact _ _ _ _ _ _ _ _ Hok) as Hin. cbn in Hin. rewrite Eb in Hin. cbn in Hin.
    apply wp_eng_shared. unfold compact_section. apply wp_bind, wp_shared_self, wp_bind. unfold wp at 1.
    by rewrite (remove_inputs_noop _ _ _ Hin).
Qed.

(** ** Writes *)

(** The write is in the log, in part or unsynced, and not in the memtable. *)
Lemma write_section_fails op :
  op_valid op ->
  wp (write_section op) (fun _ _ => True) (fun _ ew => reads_as db ew /\
    forall w2, crashed (snd ew) w2 -> recovers o w2 db \/ recovers o w2 (op_spec op db)) (e, w).
Proof using Ho Hok.
  intros Hop. destruct fail_log as [Hv [Hfits Hfile]].
  assert (forall k w', k `prefix_of` op_bytes op ->
    w_files w' = <[WAL_FILE_NAME := mkFile (log_bytes ops ++ k) (log_bytes ops)]> (w_files w) ->
    reads_as db (e, w') /\
    forall w2, crashed w' w2 -> recovers o w2 db \/ recovers o w2 (op_spec op db)) as Hfail.
  { intros k w' Hk Hw'. split.
    - apply fail_reads. split; [done|]. intros i _. rewrite Hw', lookup_insert_ne; [done|].
      intros E1. by eapply table_neq_wal.
    - destruct (logged_failed _ _ _ _ _ _ _ _ _ _ _ _ _ _ op k w' (proj1 (oo_levels _ Ho)) fail_caught Hv Hop Hk Hw')
        as [_ Hcr]. exact Hcr. }
  unfold write_section. apply wp_bind, wp_eng_self, wp_bind, wp_eng_disk. cbn [Engine.wal].
  eapply wp_append; [exact Hfile| |]; cbn [f_data f_durable Wal.path].
  2: { intros x k w1 Hk Hw1 _. by apply (Hfail k w1). }
  intros w1 _ Hw1 _. apply wp_bind, wp_eng_disk.
  eapply wp_sync; [by cbn [Wal.path]; rewrite Hw1, lookup_insert_eq| |]; cbn [f_data f_durable Wal.path].
  - intros w2 _ _. by apply wp_eng_modify.
  - intros x w2 Hw2 _. apply (Hfail (op_bytes op) w2); [done|]. by rewrite Hw2.
Qed.

End failures.

(** ** Properties *)

Lemma reads_as_consistent db e w : reads_as db (e, w) -> consistent e w db.
Proof. intros [reg Hrd]. by eapply readable_consistent. Qed.

(** C12: a section that fails loses nothing, whatever the other thread is in the
    middle of.  When a section of a flush or of a compaction reports an error,
    lookups still answer as the map, and so does the engine that is opened
    after a crash (for the section that writes a compaction's manifest records
    only the former); when a valid write fails, lookups show the old map, and
    a crash recovers the old map or the new one. *)
Theorem failed_section_safe `{Libm} o n ops s x e' w' :
  options_ok o -> creachable o n ops s -> n + 1 < 2 ^ 30 ->
  let ew := (cs_engine s, cs_world s) in
  let db := spec_map ops in
  (flush_section (cs_flush s) ew = (Err x, (e', w')) ->
     consistent e' w' db /\ forall w2, crashed w' w2 -> reopens o w2 db) /\
  (Engine.on_shared (compact_section (cs_compact s)) ew = (Err x, (e', w')) ->
     consistent e' w' db /\
     (match cs_compact s with CWritten _ => False | _ => True end ->
      forall w2, crashed w' w2 -> reopens o w2 db)) /\
  (forall op, op_valid op -> write_section op ew = (Err x, (e', w')) ->
     consistent e' w' db /\
     forall w2, crashed w' w2 -> reopens o w2 db \/ reopens o w2 (spec_map (ops ++ [op]))).
Proof.
  intros Ho Hr Hn ew db. destruct (creachable_ok o n ops s Ho Hr ltac:(lia)) as (reg & ol & v1 & vh & Hok).
  destruct (conc_shape _ _ _ _ _ _ _ _ Hok) as (mem & imm & v & m & c & le & sk & rd & wk & w & f & b & ->).
  unfold ew. cbn [cs_engine cs_world cs_flush cs_compact] in *. split_and!.
  - intros He. eapply (wp_Err _ _ _ _ _ _ (flush_section_fails _ _ _ _ _ _ _ _ _ _ _ _ _ _ _ _ _ _ _ Ho Hn Hok))
      in He as [H1 H2]. split; [by apply reads_as_consistent|]. intros w2 Hc. by apply recovers_reopens, H2.
  - intros He. eapply (wp_Err _ _ _ _ _ _ (compact_section_fails _ _ _ _ _ _ _ _ _ _ _ _ _ _ _ _ _ _ _ Ho Hn Hok))
      in He as [H1 H2]. split; [by apply reads_as_consistent|]. intros Hb w2 Hc. by apply recovers_reopens, H2.
  - intros op Hop He. rewrite spec_map_app.
    eapply (wp_Err _ _ _ _ _ _ (write_section_fails _ _ _ _ _ _ _ _ _ _ _ _ _ _ _ _ _ _ _ Ho Hok op Hop)) in He as [H1 H2].
    split; [by apply reads_as_consistent|]. intros w2 Hc.
    destruct (H2 w2 Hc) as [H3|H3]; [left|right]; by apply recovers_reopens.
Qed.

#[local] Instance failures_sizing : Libm := demo_libm.

(** The flush of [Concurrent]'s run cannot record its table: the device fails
    after three bytes of the record, while the worker is about to record its
    own. *)
Definition before_record : cstate :=
  match schedule (take 19 turns) (0, [], idle_at for_test empty_world) with
  | Some (_, _, s) => mkC (cs_engine s) (set_faults [Some 3%nat] (cs_world s)) (cs_flush s) (cs_compact s)
  | None => idle_at for_test empty_world
  end.

Lemma before_record_reachable : creachable for_test 23 turns_ops before_record.
Proof.
  assert (exists s, schedule (take 19 turns) (0, [], idle_at for_test empty_world) = Some (22, turns_ops, s) /\
    before_record = mkC (cs_engine s) (set_faults [Some 3%nat] (cs_world s)) (cs_flush s) (cs_compact s))
    as (s & Hs & ->).
  { unfold before_record. destruct (schedule (take 19 turns) _) as [[[k l] s]|] eqn:E.
    - exists s. split; [|done]. assert ((k, l) = (22, turns_ops)) as [= -> ->]; [|done].
      assert (Some (k, l) = fst <$> schedule (take 19 turns) (0, [], idle_at for_test empty_world)) as Hkl
        by (by rewrite E). apply (inj Some). rewrite Hkl. vm_compute. reflexivity.
    - exfalso. revert E. vm_compute. discriminate. }
  assert (22 + cost s (cs_flush s) = 23) as <- by (unfold cost; by destruct (cs_flush s)).
  rewrite <- (app_nil_r turns_ops).
  change (cs_flush s) with (cs_flush (mkC (cs_engine s) (set_faults [Some 3%nat] (cs_world s)) (cs_flush s)
    (cs_compact s))) at 1.
  eapply creach_step; [eapply schedule_reachable; [exact start_reachable|exact Hs]|].
  destruct s as [e w f b]. by apply cstep_faults.
Qed.

Lemma failed_section_safe_witness :
  exists x e' w', flush_section (cs_flush before_record) (cs_engine before_record, cs_world before_record) =
    (Err x, (e', w')) /\
  (exists id t, cs_flush before_record = FWritten id t) /\ (exists p, cs_compact before_record = CWritten p) /\
  consistent e' w' (spec_map turns_ops) /\ reopens for_test (restart w') (spec_map turns_ops).
Proof.
  pose proof (failed_section_safe for_test 23 turns_ops before_record) as Hthm.
  destruct (flush_section (cs_flush before_record) (cs_engine before_record, cs_world before_record))
    as [r [e' w']] eqn:E.
  assert (r = Err device_error) as ->
    by (change r with (fst (r, (e', w'))); rewrite <- E; vm_compute; reflexivity).
  exists device_error, e', w'. split; [reflexivity|].
  destruct (Hthm device_error e' w' demo_options before_record_reachable) as [[Hc Hr] _]; [reflexivity|exact E|].
  split; [vm_compute; eexists _, _; reflexivity|]. split; [vm_compute; eexists; reflexivity|].
  split; [exact Hc|apply Hr, crashed_restart].
Defined.
