(* ===== verification/Effects.v ===== *)
(** * What flushes and compactions achieve

    The theorems of [EngineProps] say that flushes and compactions change
    nothing that a user sees; these say that they do their work: a flush empties
    the memtable and the log into a table of level 0 and asks for a compaction
    when there are enough of them, and a compaction replaces its inputs by one
    table of the next level, so that a due level 0 is empty afterwards. *)

From S2P Require Import Prelude Bytes Errors Collections Records World Wal Memtable.
From S2P Require Import Bloom Cache Format Names SsTables TableWrite TableRead Manifests Merge.
From S2P Require Import Compaction Versions Engine EngineInv Recovery EngineOps Compacting EngineProps.
From S2P Require Import Threads Concurrent.

(** ** The last state of a run *)

Lemma flush_memtable_effect `{Libm} e w e' w' :
  Engine.flush_memtable (e, w) = (Ok tt, (e', w')) ->
  Engine.worker e' = Engine.worker e /\ Engine.options e' = Engine.options e /\
  if MemTable.is_empty (Engine.memtable e) then e' = e
  else Engine.memtable e' = MemTable.new /\
    exists t, Engine.insert_l0 t (version_of e) = Ok (version_of e').
Proof.
  unfold Engine.flush_memtable. run_parts.
  destruct (MemTable.is_empty (Engine.memtable e)); run_parts.
  { destruct (Wal.sync (Engine.wal e) w) as [[[]|x|] w1]; by intros [= <- <-]. }
  destruct (Manifest.next_table_id _) as [[id|x|] [m1 w1]]; run_parts; [|done|done].
  destruct (SsTable.create _ _ _ _ _ _) as [[t|x|] w2]; run_parts; [|done|done].
  destruct (Manifest.add_table _ _ _) as [[[]|x|] [m3 w3]]; run_parts; [|done|done].
  destruct (Engine.insert_l0 _ _) as [v|x|] eqn:Ei; run_parts; [|done|done].
  destruct (Wal.truncate _ _) as [[[]|x|] w4]; run_parts; [|done|done].
  intros [= <- <-]. split; [done|]. split; [done|]. split; [done|]. by exists t.
Qed.

(** What every successful run returns. *)
Definition returns {S A} (m : M S A) (P : A -> Prop) : Prop := forall s a s', m s = (Ok a, s') -> P a.

Lemma returns_bind {S A B} (m : M S A) (f : A -> M S B) P :
  (forall a, returns (f a) P) -> returns (mbind m f) P.
Proof. intros Hf s b s'. unfold mbind. destruct (m s) as [[a|x|] s1]; [apply Hf|done|done]. Qed.

Lemma create_id `{Libm} p id l fp bs : returns (SsTable.create p id l fp bs) (fun t => SsTable.id t = id).
Proof.
  unfold SsTable.create. cbn zeta.
  repeat first [apply returns_bind; intros ?|case_if; [by intros ? ? ?|]]. by intros s t s' [= <- _].
Qed.

Lemma compact_once_effect `{Libm} s w s' w' :
  compact_once (s, w) = (Ok tt, (s', w')) ->
  match pick_compaction (s_version s) (s_options s) with
  | None => s' = s /\ w' = w
  | Some job =>
      (forall t, t ∈ inputs job -> t ∈ concat (Version.levels (s_version s))) ->
      exists out, SsTable.id out = Manifest.next_id (s_manifest s) /\
        apply_compaction (s_version s) job out = Ok (s_version s')
  end.
Proof.
  unfold compact_once, compact_begin, compact_finish. run_parts.
  destruct (pick_compaction _ _) as [job|]; run_parts; [|by intros [= <- <-]].
  destruct (Manifest.next_table_id _) as [[id|x|] [m1 w1]] eqn:Eid; run_parts; [|done|done].
  assert (id = Manifest.next_id (s_manifest s)) as ->.
  { unfold Manifest.next_table_id, mbind, Manifest.self in Eid. cbn in Eid.
    destruct (Manifest.append _ _) as [[[]|x|] ?]; by injection Eid. }
  destruct (compact _ _ _ _ _ _ _) as [[t|x|] w2] eqn:Ec; run_parts; [|done|done].
  assert (SsTable.id t = Manifest.next_id (s_manifest s)) as Ht.
  { revert Ec. apply (returns_bind _ _ (fun t => SsTable.id t = _)). intros merged. apply create_id. }
  destruct (Manifest.add_table _ _ _) as [[[]|x|] [m3 w3]]; run_parts; [|done|done].
  destruct (Manifest.remove_tables _ _) as [[[]|x|] [m4 w4]]; run_parts; [|done|done].
  cbn [p_job p_output p_version set_manifest s_version].
  destruct (apply_compaction _ _ _) as [v|x|] eqn:Ea; run_parts; [|done|done].
  intros Hr Hin. rewrite remove_inputs_noop in Hr by done. injection Hr as <- <-. eexists.
  split; [|exact Ea]. exact Ht.
Qed.

(** A log that replays to nothing is empty. *)
Lemma replay_mem_nil ops : Forall op_valid ops -> MemTable.entries (replay_mem ops) = [] -> ops = [].
Proof.
  intros Hv E. destruct ops as [|op ops _] using rev_ind; [done|]. exfalso.
  apply Forall_app in Hv as [Hv _]. rewrite replay_mem_snoc, apply_insert in E.
  pose proof (MemTable.get_after_insert (replay_mem ops) (op_key op) (op_entry op) (op_key op)
    (mo_wf _ (replay_ok ops Hv))) as Hg.
  rewrite decide_True in Hg by done. unfold MemTable.get in Hg. rewrite E in Hg. done.
Qed.

Lemma engine_ok_log_empty o reg n pend e w db :
  engine_ok o reg n pend e w db -> MemTable.entries (Engine.memtable e) = [] ->
  w_files w !! WAL_FILE_NAME = Some (mkFile [] []).
Proof.
  intros Hok He. destruct (eo_log _ _ _ _ _ _ _ Hok) as (ops & Hv & [_ Hf] & Hm). rewrite Hm in He.
  by rewrite (replay_mem_nil ops Hv He) in Hf.
Qed.

Lemma engine_ok_cons o reg n pend e w db :
  2 <= max_levels o -> engine_ok o reg n pend e w db ->
  exists l0 rest, Version.levels (version_of e) = l0 :: rest.
Proof.
  intros Ho Hok. pose proof (eo_levels _ _ _ _ _ _ _ Hok) as Hl.
  destruct (Version.levels (version_of e)); eauto. rewrite len_nil in Hl. lia.
Qed.

(** The flush of the memtable: at most one table, in front of level 0. *)
Lemma flush_memtable_levels `{Libm} e w e1 w1 l0 rest :
  Engine.flush_memtable (e, w) = (Ok tt, (e1, w1)) -> Version.levels (version_of e) = l0 :: rest ->
  exists new, Version.levels (version_of e1) = (new ++ l0) :: rest /\
    length new = (if MemTable.is_empty (Engine.memtable e) then 0 else 1)%nat /\
    MemTable.entries (Engine.memtable e1) = [].
Proof.
  intros (_ & _ & Hm)%flush_memtable_effect El. destruct (MemTable.is_empty (Engine.memtable e)) eqn:Eem.
  - subst e1. exists []. split; [done|]. split; [done|]. unfold MemTable.is_empty in Eem.
    apply Z.eqb_eq in Eem. by apply len_0_nil.
  - destruct Hm as [-> [t Ht]]. apply insert_l0_levels in Ht as (l0' & rest' & E & ->).
    rewrite El in E. injection E as <- <-. by exists [t].
Qed.

(** The request that follows it. *)
Lemma request_effect e w e' w' :
  Engine.maybe_request_compaction (e, w) = (Ok tt, (e', w')) ->
  e' = Engine.set_worker (Engine.worker e') e /\
  forall l0 rest, Version.levels (version_of e) = l0 :: rest ->
    CompactionWorker.running (Engine.worker e) = true ->
    CompactionWorker.sent (Engine.worker e') = CompactionWorker.sent (Engine.worker e) ++
      (if l0_compaction_trigger (Engine.options e) <=? len l0 then [Compact] else []).
Proof.
  unfold Engine.maybe_request_compaction, Engine.modify, mmodify. cbn. intros [= <- _]. split.
  - destruct (maybe_request_worker e) as [wk E]. cbn zeta in E. by rewrite E.
  - intros l0 rest El Hrun. rewrite El. cbn.
    unfold CompactionWorker.request_compaction, CompactionWorker.send. rewrite Hrun.
    case_if; cbn; [done|]. by rewrite app_nil_r.
Qed.

(** ** Properties *)

(** C13: a flush does its work.  From a reachable state, a flush that returns [Ok]
    leaves an empty memtable, an empty log that is synced, and, when there was
    something to flush, exactly one more table, the newest of level 0; no other
    level changes, lookups still answer as the map; and when level 0 has reached
    its trigger, the running worker is asked for one more compaction. *)
Theorem flush_effective `{Libm} o n ops s e' w' :
  options_ok o -> reachable o n ops s -> n + 1 < 2 ^ 30 ->
  Engine.flush (st_engine s, st_world s) = (Ok tt, (e', w')) ->
  let e := st_engine s in
  MemTable.entries (Engine.memtable e') = [] /\
  w_files w' !! WAL_FILE_NAME = Some (mkFile [] []) /\
  (exists l0 rest new, Version.levels (version_of e) = l0 :: rest /\
     Version.levels (version_of e') = (new ++ l0) :: rest /\
     length new = (if MemTable.is_empty (Engine.memtable e) then 0 else 1)%nat /\
     (CompactionWorker.running (Engine.worker e) = true ->
      CompactionWorker.sent (Engine.worker e') = CompactionWorker.sent (Engine.worker e) ++
        (if l0_compaction_trigger o <=? len (new ++ l0) then [Compact] else []))) /\
  consistent e' w' (spec_map ops).
Proof.
  intros Ho Hr Hn Hf e. destruct (reachable_ok o n ops s Ho Hr ltac:(lia)) as [reg Hok].
  assert (reachable o (n + 1) (ops ++ []) (mkState e' w' (st_pending s))) as Hr'.
  { eapply reach_step; [exact Hr|]. destruct s. by apply step_flush. }
  destruct (reachable_ok _ _ _ _ Ho Hr' Hn) as [reg' Hok']. cbn [st_engine st_world] in Hok'.
  rewrite app_nil_r in Hok'. unfold Engine.flush, mbind in Hf.
  destruct (Engine.flush_memtable (st_engine s, st_world s)) as [[[]|x|] [e1 w1]] eqn:Em; [|done|done].
  destruct (engine_ok_cons _ _ _ _ _ _ _ (proj1 (oo_levels _ Ho)) Hok) as (l0 & rest & El).
  destruct (flush_memtable_levels _ _ _ _ _ _ Em El) as (new & Hlev & Hlen & Hmem).
  apply flush_memtable_effect in Em as (Hwk & Hopt & _). apply request_effect in Hf as [He' Hsent].
  destruct (eo_options _ _ _ _ _ _ _ Hok) as [Ho1 _].
  assert (MemTable.entries (Engine.memtable e') = []) as Hmem' by (by rewrite He').
  split; [done|]. split; [by eapply engine_ok_log_empty|].
  split; [|by eapply readable_consistent, engine_ok_readable].
  exists l0, rest, new. split; [done|]. split; [by rewrite He'|]. split; [done|]. intros Hrun.
  rewrite (Hsent _ _ Hlev), Hopt, Ho1, Hwk; [done|by rewrite Hwk].
Qed.

(** When level 0 is due, all of it is merged. *)
Lemma due_level0_inputs v o job l0 rest t :
  Version.levels v = l0 :: rest -> l0_compaction_trigger o <= len l0 ->
  pick_compaction v o = Some job -> t ∈ l0 -> t ∈ inputs job.
Proof.
  intros El Htr. unfold pick_compaction. rewrite El. case_if; [|lia]. destruct (span l0) as [small large].
  intros [= <-] Ht. cbn. apply elem_of_app. by left.
Qed.

(** C14: a compaction does its work.  From a reachable state, a compaction that
    returns [Ok] changes nothing when no level is due; otherwise there is one
    new table, with a fresh id, each level loses exactly the inputs of the job,
    the output level gains the new table, and a level 0 that had reached its
    trigger is empty; the manifest lists the tables of the new version. *)
Theorem compact_effective `{Libm} o n ops s e' w' :
  options_ok o -> reachable o n ops s -> n + 1 < 2 ^ 30 -> st_pending s = None ->
  Engine.compact (st_engine s, st_world s) = (Ok tt, (e', w')) ->
  let v := version_of (st_engine s) in
  match pick_compaction v o with
  | None => e' = st_engine s /\ w' = st_world s
  | Some job => exists out,
      (SsTable.id out ∉ SsTable.id <$> concat (Version.levels v)) /\
      (forall i l', Version.levels (version_of e') !! i = Some l' ->
         exists l, Version.levels v !! i = Some l /\
         l' ≡ₚ base.filter (fun t => SsTable.id t ∉ SsTable.id <$> inputs job) l ++
               (if decide (output_level job = Z.of_nat i) then [out] else []) /\
         SsTable.id <$> l' ≡ₚ level_ids (manifest_of e') i) /\
      (forall l0, Version.levels v !! 0%nat = Some l0 -> l0_compaction_trigger o <= len l0 ->
         Version.levels (version_of e') !! 0%nat = Some [])
  end.
Proof.
  intros Ho Hr Hn Hp Hc v. destruct (reachable_ok o n ops s Ho Hr ltac:(lia)) as [reg Hok]. rewrite Hp in Hok.
  pose proof (engine_ok_le o reg n (n + 1) _ _ _ _ ltac:(lia) Hok) as Hok1.
  pose proof (eo_levels _ _ _ _ _ _ _ Hok) as Hl. fold v in Hl. destruct (eo_options _ _ _ _ _ _ _ Hok) as [_ Ho2].
  assert (2 <= max_levels o) as Htwo by apply Ho.
  assert (exists reg', engine_ok o reg' (n + 1) None e' w' (spec_map ops)) as [reg' Hok'].
  { eapply (wp_Ok _ (fun _ ew => exists reg', engine_ok o reg' (n + 1) None (fst ew) (snd ew) (spec_map ops))
      (fun _ _ => True)) in Hc; [exact Hc|].
    eapply wp_compact_once; [done|exact Hok1|done|apply (eo_next _ _ _ _ _ _ _ Hok)| |done].
    intros. cbn [fst snd]. eauto. }
  unfold Engine.compact, Engine.on_shared, mzoom in Hc. cbn [fst snd] in Hc.
  destruct (compact_once (Engine.shared (st_engine s), st_world s)) as [r [s1 w1]] eqn:Ec.
  injection Hc as -> <- <-. apply compact_once_effect in Ec. rewrite Ho2 in Ec. fold v in Ec.
  destruct (pick_compaction v o) as [job|] eqn:Ej; [|destruct Ec as [-> ->]; by destruct (st_engine s)].
  destruct Ec as (out & Hid & Hap); [intros t; by apply (pick_inputs v o job t)|].
  pose proof (job_level v o job Hl Htwo Ej) as Hlvl. rewrite <- Hl in Hlvl.
  pose proof (apply_compaction_levels _ _ _ _ Hap Hlvl) as Hlev. exists out. split_and!.
  - rewrite Hid. eapply disk_ok_unlisted; [apply (eo_disk _ _ _ _ _ _ _ Hok)|].
    eapply disk_ok_fresh, (eo_disk _ _ _ _ _ _ _ Hok).
  - intros i l' Hl'. destruct (Hlev i l' Hl') as (l & Hli & E). exists l. split; [done|]. split.
    + case_decide; [done|]. by rewrite E, app_nil_r.
    + by apply (wt_manifest _ _ (engine_ok_typed _ _ _ _ _ _ _ Hn Hok')).
  - intros l0 Hl0 Htr. destruct (lookup_lt_is_Some_2 (Version.levels (s_version s1)) 0) as [l' Hl'].
    { pose proof (eo_levels _ _ _ _ _ _ _ Hok') as Hl1. cbn in Hl1. unfold len in Hl1. lia. }
    destruct (Hlev _ _ Hl') as (l & Hli & E). rewrite decide_False in E by lia. cbn. rewrite Hl', E. f_equal.
    rewrite Hl0 in Hli. injection Hli as <-. apply filter_none, Forall_forall. intros t Ht Hnot.
    apply Hnot, list_elem_of_fmap_2. destruct (Version.levels v) as [|l0' rest] eqn:Ev; [done|].
    injection Hl0 as ->. by eapply due_level0_inputs.
Qed.

#[local] Instance effects_sizing : Libm := demo_libm.

Lemma flush_effective_witness :
  exists e' w', Engine.flush (st_engine demo, st_world demo) = (Ok tt, (e', w')) /\
    MemTable.entries (Engine.memtable e') = [] /\ w_files w' !! WAL_FILE_NAME = Some (mkFile [] []) /\
    MemTable.is_empty (Engine.memtable (st_engine demo)) = false.
Proof.
  pose proof (flush_effective for_test 3 demo_ops demo) as Hthm.
  destruct (Engine.flush (st_engine demo, st_world demo)) as [r [e' w']] eqn:E.
  assert (r = Ok tt) as -> by (change r with (fst (r, (e', w'))); rewrite <- E; vm_compute; reflexivity).
  exists e', w'. split; [reflexivity|].
  destruct (Hthm e' w' demo_options demo_reachable) as (H1 & H2 & _); [reflexivity|reflexivity|].
  split; [exact H1|]. split; [exact H2|]. vm_compute. reflexivity.
Defined.

(** Two tables of level 0, which are due. *)
Lemma compact_effective_witness :
  exists e' w', Engine.compact (st_engine demo2, st_world demo2) = (Ok tt, (e', w')) /\
    Version.levels (version_of e') !! 0%nat = Some [] /\
    length <$> Version.levels (version_of (st_engine demo2)) !! 0%nat = Some 2%nat.
Proof.
  pose proof (compact_effective for_test 6 (demo_ops ++ [Put [x61] [x32]]) demo2) as Hthm.
  destruct (Engine.compact (st_engine demo2, st_world demo2)) as [r [e' w']] eqn:E.
  assert (r = Ok tt) as -> by (change r with (fst (r, (e', w'))); rewrite <- E; vm_compute; reflexivity).
  exists e', w'. split; [reflexivity|]. split; [|vm_compute; reflexivity].
  specialize (Hthm e' w' demo_options demo2_reachable eq_refl). cbv zeta in Hthm.
  destruct (pick_compaction (version_of (st_engine demo2)) for_test) as [job|] eqn:Ej;
    [|exfalso; revert Ej; vm_compute; discriminate].
  destruct Hthm as (out & _ & _ & H0); [vm_compute; reflexivity|reflexivity|].
  destruct (Version.levels (version_of (st_engine demo2)) !! 0%nat) as [l0|] eqn:El;
    [|exfalso; revert El; vm_compute; discriminate].
  apply (H0 l0); [reflexivity|]. assert (len l0 = 2) as ->; [|vm_compute; discriminate].
  assert (len <$> Some l0 = Some 2) as [= ->]; [|reflexivity]. rewrite <- El. vm_compute. reflexivity.
Defined.
