(* ===== verification/Schedules.v ===== *)
(** * The methods of the engine beside its worker ([src/engine.rs])

    [Threads] cuts the methods into sections.  Here the owner's methods run to
    their end while the worker's loop takes turns in between: before every
    section of the owner, the worker runs as many of its own sections as the
    schedule says, a list of numbers that is part of the state.  Every
    interleaving of the two threads at their locks is one such list.  The
    worker takes its messages from the channel, and an error ends a compaction
    and goes to the error slot, as in [worker_loop].

    [steady] is the invariant of such runs, with a budget that bounds the ids
    and entries there can be: what is left to do of the flush, of the
    compaction and of the channel is counted in advance. *)

From S2P Require Import Prelude Bytes Errors Collections Records World Wal Memtable.
From S2P Require Import Bloom Cache Format Names SsTables TableWrite TableRead Manifests Merge.
From S2P Require Import Compaction Versions Engine EngineInv Recovery EngineOps Compacting EngineProps.
From S2P Require Import Threads Concurrent.

(** The engine, its directory, where the worker is, and the schedule. *)
Record system := mkSystem {
  sy_engine : Engine.t;
  sy_world : World;
  sy_worker : compact_at;
  sy_turns : list nat;
}.

Definition set_turns (turns : list nat) (s : system) : system :=
  mkSystem (sy_engine s) (sy_world s) (sy_worker s) turns.

Definition on_engine {A} (m : M Engine.EW A) : M system A :=
  mzoom (fun s => (sy_engine s, sy_world s))
    (fun ew s => mkSystem (fst ew) (snd ew) (sy_worker s) (sy_turns s)) m.

(** ** The worker *)

(** One section of a compaction; an error ends the compaction. *)
Definition worker_section `{Libm} (b : compact_at) : M system unit := fun s =>
  match Engine.on_shared (compact_section b) (sy_engine s, sy_world s) with
  | (Ok b', (e, w)) => (Ok tt, mkSystem e w b' (sy_turns s))
  | (Err err, (e, w)) =>
      let shared := set_last_error (Some (error_to_string err)) (Engine.shared e) in
      (Ok tt, mkSystem (Engine.set_shared shared e) w CIdle (sy_turns s))
  | (Panic, (e, w)) => (Panic, mkSystem e w CIdle (sy_turns s))
  end.

(** One turn: the next section of the compaction under way, or the first one of
    the compaction that the next message asks for.  Without a message the
    worker waits. *)
Definition worker_turn `{Libm} : M system unit := fun s =>
  match sy_worker s with
  | CIdle =>
      let e := sy_engine s in
      match CompactionWorker.running (Engine.worker e), CompactionWorker.sent (Engine.worker e) with
      | true, Compact :: messages =>
          worker_section CIdle (mkSystem (Engine.set_worker (CompactionWorker.mk messages true) e)
            (sy_world s) CIdle (sy_turns s))
      | _, _ => (Ok tt, s)
      end
  | b => worker_section b s
  end.

Fixpoint worker_turns `{Libm} (n : nat) : M system unit :=
  match n with O => mret tt | S n' => let! _ := worker_turn in worker_turns n' end.

(** The worker's turns before the next section of the owner. *)
Definition yield `{Libm} : M system unit := fun s =>
  match sy_turns s with
  | [] => (Ok tt, s)
  | n :: turns => worker_turns n (set_turns turns s)
  end.

(** The compaction under way goes on to its end. *)
Fixpoint worker_finish `{Libm} (fuel : nat) : M system unit := fun s =>
  match sy_worker s, fuel with
  | CIdle, _ => (Ok tt, s)
  | _, O => (Panic, s)
  | _, S fuel' => (let! _ := worker_turn in worker_finish fuel') s
  end.

(** ** The owner *)

Module Owner.

Definition section {A} `{Libm} (m : M Engine.EW A) : M system A :=
  let! _ := yield in on_engine m.

Fixpoint flush_memtable `{Libm} (fuel : nat) (f : flush_at) : M system unit :=
  match fuel with
  | O => mlift Panic
  | S fuel' =>
      let! f := section (flush_section f) in
      match f with
      | FIdle => mret tt
      | _ => flush_memtable fuel' f
      end
  end.

Definition flush `{Libm} : M system unit :=
  let! _ := flush_memtable 5 FIdle in section Engine.maybe_request_compaction.

(** [put] and [delete]. *)
Definition write `{Libm} (op : Operation) : M system unit :=
  let! _ := section (user_section op) in
  let! e := on_engine Engine.self in
  if memtable_size_bytes (Engine.options e) <=? MemTable.approximate_size (Engine.memtable e)
  then flush
  else mret tt.

Definition put `{Libm} (key value : bytes) : M system unit := write (Put key value).
Definition get `{Libm} (key : bytes) : M system (option bytes) := section (Engine.get key).

(** [close] waits for the worker, which ends its compaction before it handles
    the messages that are left. *)
Definition close `{Libm} : M system unit :=
  let! _ := yield in
  let! _ := worker_finish 5 in
  on_engine Engine.close.

End Owner.

(** ** Without turns of the worker these are the methods *)

Lemma on_engine_run {A} (m : M Engine.EW A) e w b t :
  on_engine m (mkSystem e w b t) = (let '(r, (e', w')) := m (e, w) in (r, mkSystem e' w' b t)).
Proof. unfold on_engine, mzoom. cbn. by destruct (m (e, w)) as [r []]. Qed.

Lemma section_alone {A} `{Libm} (m : M Engine.EW A) e w b :
  Owner.section m (mkSystem e w b []) = (let '(r, (e', w')) := m (e, w) in (r, mkSystem e' w' b [])).
Proof. unfold Owner.section, mbind, yield. cbn. apply on_engine_run. Qed.

Lemma flush_memtable_alone `{Libm} n f e w b :
  Owner.flush_memtable n f (mkSystem e w b []) =
  (let '(r, (e', w')) := flush_from n f (e, w) in (r, mkSystem e' w' b [])).
Proof.
  revert f e w. induction n as [|n IH]; intros f e w; [done|]. cbn [Owner.flush_memtable flush_from].
  unfold mbind. rewrite section_alone. destruct (flush_section f (e, w)) as [[f'|x|] [e' w']]; [|done|done].
  destruct f'; [done|apply IH..].
Qed.

Lemma write_alone `{Libm} op e w b :
  Owner.write op (mkSystem e w b []) =
  (let '(r, (e', w')) := user_write op (e, w) in (r, mkSystem e' w' b [])).
Proof.
  assert (forall e w, Owner.flush (mkSystem e w b []) =
    (let '(r, (e', w')) := Engine.flush (e, w) in (r, mkSystem e' w' b []))) as Hflush.
  { intros e1 w1. unfold Owner.flush, Engine.flush, mbind. rewrite flush_memtable_alone, flush_sections.
    destruct (flush_from 5 FIdle (e1, w1)) as [[[]|x|] [e2 w2]]; [|done|done]. apply section_alone. }
  assert (user_write op (e, w) = (let! _ := user_section op in
    let! e := Engine.self in
    if memtable_size_bytes (Engine.options e) <=? MemTable.approximate_size (Engine.memtable e)
    then Engine.flush else mret tt) (e, w)) as ->.
  { destruct op as [key value|key]; cbn [user_write user_section]; unfold Engine.put, Engine.delete, mbind at 1 2 3, mlift.
    - destruct (Engine.validate_key key); [|done|done]. unfold mbind, mlift.
      destruct (Engine.validate_value value); [|done|done]. by rewrite write_sections.
    - destruct (Engine.validate_key key); [|done|done]. by rewrite write_sections. }
  unfold Owner.write, mbind. rewrite section_alone.
  destruct (user_section op (e, w)) as [[[]|x|] [e' w']]; [|done|done]. rewrite on_engine_run. cbn [Engine.self fst].
  case_if; [apply Hflush|done].
Qed.

(** ** What a section leaves alone *)

Definition messages (e : Engine.t) : Z := len (CompactionWorker.sent (Engine.worker e)).
Definition counters (e : Engine.t) : Z * Z := (Engine.bloom_skips e, Engine.sstable_reads e).

(** The owner's part of the engine, the channel and what a user may ask for. *)
Definition same_owner (e e' : Engine.t) : Prop :=
  Engine.memtable e' = Engine.memtable e /\ Engine.immutable e' = Engine.immutable e /\
  Engine.worker e' = Engine.worker e /\ counters e' = counters e /\
  Engine.compaction_error e' = Engine.compaction_error e.

(** Sections that a compaction, and a flush, still have to run. *)
Definition sections_left (b : compact_at) : Z :=
  match b with
  | CIdle => 0
  | CPlanned _ _ => 5
  | CNamed _ _ _ => 4
  | CWritten _ => 3
  | CRecorded _ => 2
  | CInstalled _ => 1
  end.

Definition flush_rank (f : flush_at) : nat :=
  match f with FIdle => 5 | FNamed _ _ => 4 | FWritten _ _ => 3 | FRecorded _ => 2 | FInstalled => 1 end.

Lemma remove_inputs_shared version tables sw : fst (snd (remove_inputs version tables sw)) = fst sw.
Proof.
  revert sw. induction tables as [|t ts IH]; intros [s w]; [done|]. cbn [remove_inputs].
  unfold mbind, shared_self. cbn [fst]. case_if; [|apply IH]. unfold on_files, mzoom, mignore. cbn [fst snd].
  destruct (remove_file _ w) as [[[]|x|] w1]; cbn; [apply IH|apply IH|done].
Qed.

Lemma compact_section_next `{Libm} b e w b' e' w' :
  Engine.on_shared (compact_section b) (e, w) = (Ok b', (e', w')) ->
  same_owner e e' /\ sections_left b' <= match b with CIdle => 5 | _ => sections_left b - 1 end.
Proof.
  intros Hr. assert (exists s', compact_section b (Engine.shared e, w) = (Ok b', (s', w')) /\
    e' = Engine.set_shared s' e) as (s' & Hs & ->).
  { unfold Engine.on_shared, mzoom in Hr. cbn [fst snd] in Hr.
    destruct (compact_section b (Engine.shared e, w)) as [r [s' w1]]. injection Hr as -> <- <-. eauto. }
  clear Hr. unfold same_owner, counters, Engine.bloom_skips, Engine.sstable_reads, Engine.compaction_error.
  cbn [Engine.set_shared Engine.memtable Engine.immutable Engine.worker Engine.shared].
  enough ((s_bloom_skips s', s_sstable_reads s') = (s_bloom_skips (Engine.shared e), s_sstable_reads (Engine.shared e)) /\
    s_last_error s' = s_last_error (Engine.shared e) /\
    sections_left b' <= match b with CIdle => 5 | _ => sections_left b - 1 end) as (H1 & H2 & H3) by done.
  revert Hs. destruct b as [|v0 job|v0 job id|p|p|p]; run_parts.
  - destruct (pick_compaction _ _); intros [= <- <- <-]; cbn; auto with lia.
  - destruct (Manifest.next_table_id _) as [[id|x|] [m1 w1]]; run_parts; [|done|done].
    intros [= <- <- <-]. cbn. auto with lia.
  - destruct (compact _ _ _ _ _ _ _) as [[t|x|] w1]; run_parts; [|done|done].
    intros [= <- <- <-]. cbn. auto with lia.
  - destruct (Manifest.add_table _ _ _) as [[[]|x|] [m3 w3]]; run_parts; [|done|done].
    destruct (Manifest.remove_tables _ _) as [[[]|x|] [m4 w4]]; run_parts; [|done|done].
    intros [= <- <- <-]. cbn. auto with lia.
  - destruct (apply_compaction _ _ _) as [v|x|]; run_parts; [|done|done]. intros [= <- <- <-]. cbn. auto with lia.
  - pose proof (remove_inputs_shared (p_version p) (inputs (p_job p)) (Engine.shared e, w)) as Hsh.
    destruct (remove_inputs _ _ _) as [[[]|x|] [s5 w5]]; [|done|done].
    intros [= <- <- <-]. cbn in Hsh. subst s5. cbn. auto with lia.
Qed.

(** The entries that a flush has frozen. *)
Definition frozen_len (e : Engine.t) : Z :=
  match Engine.immutable e with Some imm => len (MemTable.entries imm) | None => 0 end.

(** What the rest of the flush may add to ids and entries. *)
Definition flush_left (f : flush_at) (e : Engine.t) : Z :=
  match f with
  | FIdle => len (MemTable.entries (Engine.memtable e))
  | FNamed _ _ => 4 + frozen_len e
  | FWritten _ _ => 3 + frozen_len e
  | FRecorded _ => 2
  | FInstalled => 1
  end.

Definition flush_start (f : flush_at) : Z := match f with FIdle => 5 | _ => 0 end.

Lemma flush_section_next `{Libm} b f e w f' e' w' :
  flush_section f (e, w) = (Ok f', (e', w')) ->
  match f with FIdle => ksorted (MemTable.entries (Engine.memtable e)) | _ => Engine.memtable e = MemTable.new end ->
  Engine.worker e' = Engine.worker e /\ counters e' = counters e /\
  (f' = FIdle \/ S (flush_rank f') = flush_rank f) /\
  cost (mkC e w f b) f' + flush_left f' e' <= flush_left f e + flush_start f.
Proof.
  intros Hr Hf. revert Hr. destruct f as [|id snapshot|id t|t|]; run_parts.
  - destruct (MemTable.is_empty (Engine.memtable e)); run_parts.
    { destruct (Wal.sync (Engine.wal e) w) as [[[]|x|] w1]; [|done|done]. intros [= <- <- <-]. cbn. auto with lia. }
    destruct (Manifest.next_table_id _) as [[id|x|] [m1 w1]]; run_parts; [|done|done].
    intros [= <- <- <-]. split; [done|]. split; [done|]. split; [by right|].
    unfold MemTable.iter, flush_left, frozen_len. cbn. rewrite rebuild_entries by done. lia.
  - destruct (SsTable.create _ _ _ _ _ _) as [[t|x|] w2]; run_parts; [|done|done].
    intros [= <- <- <-]. cbn. auto with lia.
  - destruct (Manifest.add_table _ _ _) as [[[]|x|] [m3 w3]]; run_parts; [|done|done].
    intros [= <- <- <-]. split; [done|]. split; [done|]. split; [by right|].
    unfold cost, flush_left, frozen_len. cbn. destruct (Engine.immutable e); lia.
  - destruct (Engine.insert_l0 _ _) as [v|x|]; run_parts; [|done|done]. intros [= <- <- <-]. cbn. auto with lia.
  - destruct (Wal.truncate _ _) as [[[]|x|] w4]; run_parts; [|done|done]. intros [= <- <- <-].
    split; [done|]. split; [done|]. split; [by left|]. unfold flush_left, flush_start, cost.
    cbn [Engine.set_immutable Engine.memtable cs_flush]. rewrite Hf. change (len (MemTable.entries MemTable.new)) with 0. lia.
Qed.

Lemma user_section_next op e w e' w' :
  user_section op (e, w) = (Ok tt, (e', w')) -> e' = Engine.set_memtable (apply (Engine.memtable e) op) e.
Proof.
  assert (forall e w, write_section op (e, w) = (Ok tt, (e', w')) ->
    e' = Engine.set_memtable (apply (Engine.memtable e) op) e) as Hw.
  { intros e1 w1. unfold write_section. run_parts. destruct (Wal.append _ _ _) as [[k|x|] w2]; run_parts; [|done|done].
    destruct (Wal.sync _ _) as [[[]|x|] w3]; run_parts; [|done|done]. by intros [= <- <-]. }
  destruct op as [key value|key]; cbn [user_section]; unfold mbind, mlift.
  - destruct (Engine.validate_key key); [|done|done]. destruct (Engine.validate_value value); [|done|done]. apply Hw.
  - destruct (Engine.validate_key key); [|done|done]. apply Hw.
Qed.

(** ** The invariant of a run *)

(** No failure is pending, the two threads are where they are with the map [db]
    to show, and [budget] bounds the ids and entries there will be when the
    flush, the compaction and the requested compactions are done. *)
Record steady (o : Options) (budget : Z) (c : Z * Z) (f : flush_at) (s : system) (db : gmap bytes bytes) : Prop := {
  sd_ok : exists reg n, conc_ok o reg n (mkC (sy_engine s) (sy_world s) f (sy_worker s)) db /\
    0 <= n /\
    n + flush_left f (sy_engine s) + sections_left (sy_worker s) + 7 * messages (sy_engine s) <= budget;
  sd_quiet : quiet (sy_world s);
  sd_counters : counters (sy_engine s) = c;
}.

Abbreviation never := (fun (_ : Error) (_ : system) => False).

Lemma messages_nonneg e : 0 <= messages e.
Proof. apply len_nonneg. Qed.

Lemma flush_left_nonneg f e : 0 <= flush_left f e /\ 1 <= flush_left f e + flush_start f.
Proof.
  assert (0 <= frozen_len e) by (unfold frozen_len; destruct (Engine.immutable e); [apply len_nonneg|lia]).
  pose proof (len_nonneg (MemTable.entries (Engine.memtable e))). destruct f; cbn; lia.
Qed.

Lemma sections_left_nonneg b : 0 <= sections_left b.
Proof. destruct b; cbn; lia. Qed.

Lemma flush_left_same f e e' : same_owner e e' -> flush_left f e' = flush_left f e.
Proof. intros (H1 & H2 & _). unfold flush_left, frozen_len. by rewrite H1, H2. Qed.

(** What the owner knows of its memtable. *)
Lemma conc_memtable o reg n e w f b db :
  conc_ok o reg n (mkC e w f b) db ->
  match f with FIdle => ksorted (MemTable.entries (Engine.memtable e)) | _ => Engine.memtable e = MemTable.new end.
Proof.
  intros (ops & v1 & vh & Hok). pose proof (ca_flush _ _ _ _ _ _ _ _ Hok) as Hf. cbn in Hf.
  destruct f; cbn in Hf; [|by destruct Hf as [[-> _] _]..]. destruct Hf as [-> _].
  apply (conc_sorted _ _ _ _ _ _ _ _ Hok).
Qed.

(** The channel is no part of the invariant of the threads. *)
Lemma conc_set_worker o reg n e w f b db wk :
  2 <= max_levels o -> conc_ok o reg n (mkC e w f b) db ->
  conc_ok o reg (n + 1) (mkC (Engine.set_worker wk e) w f b) db.
Proof.
  intros Ho (ops & v1 & vh & Hok).
  destruct (conc_shape _ _ _ _ _ _ _ _ Hok) as (mem & imm & v & m & c & le & sk & rd & wk' & ? & ? & ? & [= -> -> -> ->]).
  eapply conc_volatile; [done|exact Hok|done|]. apply (eo_cache _ _ _ _ _ _ _ (ca_caught _ _ _ _ _ _ _ _ Hok)).
Qed.

(** Both threads at rest: the invariant of [EngineInv]. *)
Lemma conc_rest o reg n e w db :
  conc_ok o reg n (mkC e w FIdle CIdle) db -> engine_ok o reg n None e w db.
Proof.
  intros (ops & v1 & vh & Hok). pose proof (ca_caught _ _ _ _ _ _ _ _ Hok) as Hcu.
  pose proof (ca_flush _ _ _ _ _ _ _ _ Hok) as [Hmem Himm]. pose proof (ca_pushed _ _ _ _ _ _ _ _ Hok) as Hp.
  pose proof (ca_compacted _ _ _ _ _ _ _ _ Hok) as Hc. cbn in *. subst vh v1.
  unfold caught_up in Hcu. rewrite <- Hmem in Hcu. destruct e as [o1 wl mem imm [o2 v m c le sk rd] wk]. cbn in *. by subst imm.
Qed.

Section steady.
Context `{Libm} (o : Options).
Hypothesis Ho : options_ok o.

Lemma steady_two : 2 <= max_levels o.
Proof using Ho. apply Ho. Qed.

Lemma steady_le budget budget' c f s db : budget <= budget' -> steady o budget c f s db -> steady o budget' c f s db.
Proof using. intros Hle [(reg & n & Hok & Hn & Hb) Hq Hc]. split; [exists reg, n; split_and!; [done|done|lia]|done|done]. Qed.

(** A section of the worker succeeds, and leaves the owner's part alone. *)
Lemma worker_section_ok reg n e w f b b0 t db :
  conc_ok o reg n (mkC e w f b) db -> n + 1 < 2 ^ 30 -> quiet w ->
  wp (worker_section b) (fun _ s' =>
    (exists reg', conc_ok o reg' (n + 1) (mkC (sy_engine s') (sy_world s') f (sy_worker s')) db) /\
    quiet (sy_world s') /\ same_owner e (sy_engine s') /\ sy_turns s' = t /\
    sections_left (sy_worker s') <= match b with CIdle => 5 | _ => sections_left b - 1 end) never
    (mkSystem e w b0 t).
Proof using Ho.
  intros (ops & v1 & vh & Hok) Hn Hq.
  destruct (conc_shape _ _ _ _ _ _ _ _ Hok) as (mem & imm & v & m & c & le & sk & rd & wk & ? & ? & ? & [= -> -> -> ->]).
  pose proof (wp_compact_section _ _ _ _ _ _ _ _ _ _ _ _ _ _ _ _ _ Ho Hn _ _ Hok) as Hwp.
  unfold worker_section. unfold wp in Hwp |- *. cbn [sy_engine sy_world sy_turns].
  destruct (Engine.on_shared (compact_section _) _) as [[b'|y|] [e' w']] eqn:E; [|exfalso; by apply Hwp|done].
  apply compact_section_next in E as [Hsame Hleft]. destruct Hwp as [(reg' & _ & Hok') Hq'].
  cbn [sy_engine sy_world sy_worker sy_turns fst snd] in *. split_and!; [by exists reg'|auto|done|done|done].
Qed.

Lemma worker_turn_ok budget c f s db :
  steady o budget c f s db -> budget < 2 ^ 30 ->
  wp worker_turn (fun _ s' => steady o budget c f s' db /\ sy_turns s' = sy_turns s) never s.
Proof using Ho.
  intros [(reg & n & Hok & Hn & Hb) Hq Hc] Hlt. destruct s as [e w b t]. cbn [sy_engine sy_world sy_worker sy_turns] in *.
  pose proof (messages_nonneg e) as Hm. pose proof (flush_left_nonneg f e) as Hf. pose proof (sections_left_nonneg b) as Hs.
  assert (b <> CIdle -> wp (worker_section b) (fun _ s' => steady o budget c f s' db /\ sy_turns s' = t) never
    (mkSystem e w b t)) as Hbusy.
  { intros Hne. assert (1 <= sections_left b) by (destruct b; cbn; done || lia).
    eapply wp_mono; [apply (worker_section_ok reg n e w f b b t db Hok); [lia|done]| |done].
    intros _ s' ((reg' & Hok') & Hq' & Hsame & Ht & Hl). split; [|done].
    pose proof (flush_left_same f _ _ Hsame) as Hf'. destruct Hsame as (_ & _ & Hw & Hc' & _).
    split; [exists reg', (n + 1)|done|by rewrite Hc']. split; [done|]. split; [lia|]. unfold messages in *. rewrite Hf', Hw.
    destruct b; [done|lia..]. }
  unfold wp, worker_turn. cbn [sy_worker sy_engine sy_world sy_turns].
  destruct b; [|by apply Hbusy..].
  assert (steady o budget c f (mkSystem e w CIdle t) db) as Hidle by (split; [by exists reg, n|done|done]).
  destruct (CompactionWorker.running (Engine.worker e)); [|done].
  destruct (CompactionWorker.sent (Engine.worker e)) as [|[|] ms] eqn:Esent; [done| |done].
  unfold messages in *. rewrite Esent, len_cons in *. pose proof (len_nonneg ms).
  set (e1 := Engine.set_worker (CompactionWorker.mk ms true) e).
  pose proof (conc_set_worker o reg n e w f CIdle db (CompactionWorker.mk ms true) steady_two Hok) as Hok1. fold e1 in Hok1.
  eapply wp_mono; [apply (worker_section_ok reg (n + 1) e1 w f CIdle CIdle t db Hok1); [lia|done]| |done].
  intros _ s' ((reg' & Hok') & Hq' & Hsame & Ht & Hl). split; [|done].
  pose proof (flush_left_same f _ _ Hsame) as Hf'. destruct Hsame as (_ & _ & Hw & Hc' & _).
  split; [exists reg', (n + 1 + 1)|done|by rewrite Hc']. split; [done|]. split; [lia|].
  unfold messages. rewrite Hf', Hw. change (flush_left f e1) with (flush_left f e). cbn [e1 Engine.set_worker
    Engine.worker CompactionWorker.sent sections_left] in *. lia.
Qed.

Lemma yield_ok budget c f s db :
  steady o budget c f s db -> budget < 2 ^ 30 -> wp yield (fun _ s' => steady o budget c f s' db) never s.
Proof using Ho.
  intros Hst Hlt. unfold wp, yield. destruct (sy_turns s) as [|k turns]; [done|].
  assert (steady o budget c f (set_turns turns s) db) as Hst' by (by destruct Hst).
  revert Hst'. generalize (set_turns turns s). clear Hst s. induction k as [|k IH]; intros s Hst; [done|].
  cbn [worker_turns]. change (wp (let! _ := worker_turn in worker_turns k) (fun _ s' => steady o budget c f s' db) never s).
  apply wp_bind. eapply wp_mono; [by apply worker_turn_ok| |done]. intros _ s' [Hst' _]. by apply IH.
Qed.

(** A section of the owner, after the turns of the worker. *)
Lemma section_ok {A} (m : M Engine.EW A) (Q : A -> system -> Prop) budget c f s db :
  steady o budget c f s db -> budget < 2 ^ 30 ->
  (forall e w b t, steady o budget c f (mkSystem e w b t) db ->
     wp m (fun a ew => Q a (mkSystem (fst ew) (snd ew) b t)) (fun _ _ => False) (e, w)) ->
  wp (Owner.section m) Q never s.
Proof using Ho.
  intros Hst Hlt Hm. unfold Owner.section. apply wp_bind. eapply wp_mono; [by apply yield_ok| |done].
  intros _ [e w b t] Hst'. specialize (Hm e w b t Hst'). unfold wp in *. rewrite on_engine_run.
  by destruct (m (e, w)) as [[a|x|] [e' w']].
Qed.

Lemma flush_section_ok budget c f s db :
  steady o budget c f s db -> budget + flush_start f < 2 ^ 30 ->
  wp (Owner.section (flush_section f)) (fun f' s' => steady o (budget + flush_start f) c f' s' db /\
    (f' = FIdle \/ S (flush_rank f') = flush_rank f)) never s.
Proof using Ho.
  intros Hst Hlt. assert (0 <= flush_start f) by (destruct f; cbn; lia).
  eapply section_ok; [exact Hst|lia|]. clear s Hst. intros e w b t [(reg & n & Hok & Hn & Hb) Hq Hc].
  cbn [sy_engine sy_world sy_worker] in *. pose proof (conc_memtable _ _ _ _ _ _ _ _ Hok) as Hmem.
  pose proof (messages_nonneg e) as Hm. pose proof (flush_left_nonneg f e) as Hf. pose proof (sections_left_nonneg b) as Hs.
  assert (n + 1 < 2 ^ 30) as Hn1 by lia.
  destruct Hok as (ops & v1 & vh & Hok).
  destruct (conc_shape _ _ _ _ _ _ _ _ Hok) as (mem & imm & v & m & ch & le & sk & rd & wk & ? & ? & ? & Es).
  injection Es as -> -> -> ->.
  pose proof (wp_flush_section _ _ _ _ _ _ _ _ _ _ _ _ _ _ _ _ _ Ho Hn1 _ _ Hok) as Hwp.
  unfold wp in Hwp |- *. destruct (flush_section _ _) as [[f'|y|] [e' w']] eqn:E; [|by apply Hwp|done].
  eapply (flush_section_next x1) in E as (Hw & Hc' & Hrank & Hleft); [|exact Hmem].
  destruct Hwp as [(reg' & _ & Hok') Hq']. cbn [fst snd] in *. split; [|exact Hrank].
  split; cbn [sy_engine sy_world sy_worker]; [|auto|by rewrite Hc'].
  eexists reg', _. split; [exact Hok'|]. pose proof (cost_pos (mkC (engine o mem imm v m ch le sk rd wk) x x0 x1) f').
  split; [lia|]. unfold messages in *. rewrite Hw. cbn [Engine.worker] in *. lia.
Qed.

Lemma flush_memtable_ok fuel budget c f s db :
  steady o budget c f s db -> budget + flush_start f < 2 ^ 30 -> (flush_rank f <= fuel)%nat ->
  wp (Owner.flush_memtable fuel f) (fun _ s' => steady o (budget + flush_start f) c FIdle s' db) never s.
Proof using Ho.
  revert budget f s. induction fuel as [|fuel IH]; intros budget f s Hst Hlt Hr; [destruct f; cbn in Hr; lia|].
  cbn [Owner.flush_memtable]. apply wp_bind. eapply wp_mono; [by apply flush_section_ok| |done].
  intros f' s' [Hst' Hrank]. destruct (decide (flush_start f' = 0)) as [E0|E0].
  - assert (f' <> FIdle) as Hne by (by intros ->). destruct Hrank as [|Hrank]; [done|].
    pose proof (IH (budget + flush_start f) f' s' Hst' ltac:(lia) ltac:(lia)) as Hwp. rewrite E0, Z.add_0_r in Hwp.
    by destruct f'.
  - by destruct f'.
Qed.

Lemma request_ok budget c s db :
  steady o budget c FIdle s db -> budget + 8 < 2 ^ 30 ->
  wp (Owner.section Engine.maybe_request_compaction) (fun _ s' => steady o (budget + 8) c FIdle s' db) never s.
Proof using Ho.
  intros Hst Hlt. eapply section_ok; [exact Hst|lia|]. clear s Hst. intros e w b t [(reg & n & Hok & Hn & Hb) Hq Hc].
  cbn [sy_engine sy_world sy_worker] in *. unfold wp, Engine.maybe_request_compaction, Engine.modify, mmodify.
  cbn [fst snd]. set (full := _ <=? _).
  assert (exists wk, (if full then match CompactionWorker.request_compaction (Engine.worker e) with
      Ok worker => Engine.set_worker worker e | _ => e end else e) = Engine.set_worker wk e /\
    len (CompactionWorker.sent wk) <= messages e + 1) as (wk & -> & Hwk).
  { assert (e = Engine.set_worker (Engine.worker e) e) as He by (by destruct e). unfold messages.
    destruct full; [|exists (Engine.worker e); split; [exact He|lia]].
    unfold CompactionWorker.request_compaction, CompactionWorker.send.
    destruct (CompactionWorker.running (Engine.worker e)); [|exists (Engine.worker e); split; [exact He|lia]].
    eexists. split; [done|]. cbn. rewrite len_app. len_lia. }
  split; cbn [sy_engine sy_world sy_worker]; [|done|done]. exists reg, (n + 1).
  split; [apply conc_set_worker; [apply steady_two|done]|]. split; [lia|].
  change (flush_left FIdle (Engine.set_worker wk e)) with (flush_left FIdle e). unfold messages at 1.
  cbn [Engine.set_worker Engine.worker]. lia.
Qed.

Lemma owner_flush_ok budget c s db :
  steady o budget c FIdle s db -> budget + 13 < 2 ^ 30 ->
  wp Owner.flush (fun _ s' => steady o (budget + 13) c FIdle s' db) never s.
Proof using Ho.
  intros Hst Hlt. unfold Owner.flush. apply wp_bind.
  eapply wp_mono; [apply (flush_memtable_ok 5 budget c FIdle s db Hst); [cbn; lia|done]| |done].
  intros u s' Hst'. eapply wp_mono; [apply (request_ok _ _ _ _ Hst'); cbn; lia| |done].
  intros u2 s2 Hst2. eapply steady_le; [|exact Hst2]. cbn. lia.
Qed.

Lemma user_section_ok budget c s db op :
  steady o budget c FIdle s db -> op_valid op -> budget + 2 < 2 ^ 30 ->
  wp (Owner.section (user_section op)) (fun _ s' => steady o (budget + 2) c FIdle s' (op_spec op db)) never s.
Proof using Ho.
  intros Hst Hop Hlt. eapply section_ok; [exact Hst|lia|]. clear s Hst.
  intros e w b t [(reg & n & Hok & Hn & Hb) Hq Hc]. cbn [sy_engine sy_world sy_worker] in *.
  destruct Hok as (ops & v1 & vh & Hok).
  destruct (conc_shape _ _ _ _ _ _ _ _ Hok) as (mem & imm & v & m & ch & le & sk & rd & wk & ? & ? & ? & Es).
  injection Es as -> -> <- ->.
  pose proof (wp_user_section _ _ _ _ _ _ _ _ _ _ _ _ _ _ _ _ _ _ op Ho Hok) as Hwp.
  unfold wp in *. destruct (user_section op _) as [[[]|y|] [e' w']] eqn:E; [|by destruct Hwp|done].
  apply user_section_next in E. destruct Hwp as [(reg' & _ & Hok') Hq']. cbn [fst snd] in *.
  split; cbn [sy_engine sy_world sy_worker]; [|auto|by rewrite E]. exists reg', (n + 1). split; [done|]. split; [lia|].
  pose proof (apply_len mem op). unfold flush_left, messages in *. rewrite E.
  cbn [Engine.set_memtable Engine.memtable Engine.worker] in *. lia.
Qed.

Lemma owner_write_ok budget c s db op :
  steady o budget c FIdle s db -> op_valid op -> budget + 15 < 2 ^ 30 ->
  wp (Owner.write op) (fun _ s' => steady o (budget + 15) c FIdle s' (op_spec op db)) never s.
Proof using Ho.
  intros Hst Hop Hlt. unfold Owner.write. apply wp_bind.
  eapply wp_mono; [apply (user_section_ok _ _ _ _ _ Hst Hop); lia| |done]. intros [] [e w b t] Hst'.
  apply wp_bind. unfold wp at 1. rewrite on_engine_run. cbn [Engine.self fst]. case_if.
  - eapply wp_mono; [apply (owner_flush_ok _ _ _ _ Hst'); lia| |done]. intros u2 s2 Hst2.
    eapply steady_le; [|exact Hst2]. lia.
  - apply wp_ret. eapply steady_le; [|exact Hst']. lia.
Qed.

Lemma owner_get_ok budget c s db key :
  steady o budget c FIdle s db -> Engine.validate_key key = Ok tt -> budget + 1 < 2 ^ 30 ->
  wp (Owner.get key) (fun r s' => r = db !! key /\ exists c', steady o (budget + 1) c' FIdle s' db) never s.
Proof using Ho.
  intros Hst Hk Hlt. eapply section_ok; [exact Hst|lia|]. clear s Hst.
  intros e w b t [(reg & n & Hok & Hn & Hb) Hq Hc]. cbn [sy_engine sy_world sy_worker] in *.
  destruct Hok as (ops & v1 & vh & Hok).
  assert (wp (Engine.get key) (fun r ew => r = db !! key /\ read_from e (fst ew) /\ quiet (snd ew))
    (fun _ _ => False) (e, w)) as Hwp.
  { eapply wp_engine_get; [apply (conc_readable _ _ _ _ _ _ _ _ Hok)|by rewrite Hk| |by intros].
    intros e' w' Hr _ _ Hq'. cbn [fst snd]. auto. }
  unfold wp in *. destruct (Engine.get key (e, w)) as [r [e' w']] eqn:E.
  eapply conc_get in E as [_ Hok']; [|apply steady_two|exact Hok].
  destruct r as [r|x|]; [|done|done]. cbn [fst snd] in Hwp. destruct Hwp as (-> & (s' & _ & Ee) & Hq'). subst e'.
  split; [done|].
  eexists. split; cbn [sy_engine sy_world sy_worker fst snd] in *; [|exact Hq'|reflexivity].
  exists reg, (n + 1). split; [done|]. split; [lia|].
  change (flush_left FIdle (Engine.set_shared s' e)) with (flush_left FIdle e).
  change (messages (Engine.set_shared s' e)) with (messages e). lia.
Qed.

(** The worker ends its compaction. *)
Lemma worker_finish_ok fuel budget c s db :
  steady o budget c FIdle s db -> budget < 2 ^ 30 -> sections_left (sy_worker s) <= Z.of_nat fuel ->
  wp (worker_finish fuel) (fun _ s' => steady o budget c FIdle s' db /\ sy_worker s' = CIdle /\
    Engine.worker (sy_engine s') = Engine.worker (sy_engine s) /\
    Engine.compaction_error (sy_engine s') = Engine.compaction_error (sy_engine s)) never s.
Proof using Ho.
  revert s. induction fuel as [|fuel IH]; intros s Hst Hlt Hfuel; destruct s as [e w b t]; cbn [sy_worker sy_engine] in *.
  { destruct b; cbn in Hfuel; try lia. by split. }
  destruct (decide (sections_left b = 0)) as [E0|E0]; [destruct b; cbn in E0; try lia; by split|].
  assert (wp (let! _ := worker_turn in worker_finish fuel) (fun _ s' => steady o budget c FIdle s' db /\ sy_worker s' = CIdle /\
    Engine.worker (sy_engine s') = Engine.worker e /\
    Engine.compaction_error (sy_engine s') = Engine.compaction_error e) never (mkSystem e w b t)) as Hwp;
    [|by destruct b].
  pose proof Hst as [(reg & n & Hok & Hn & Hb) Hq Hc]. cbn [sy_engine sy_world sy_worker] in *.
  pose proof (messages_nonneg e) as Hm. pose proof (flush_left_nonneg FIdle e) as Hf. pose proof (sections_left_nonneg b) as Hs.
  assert (worker_turn (mkSystem e w b t) = worker_section b (mkSystem e w b t)) as Et by (by destruct b).
  apply wp_bind. unfold wp at 1. rewrite Et.
  eapply wp_mono; [apply (worker_section_ok reg n e w FIdle b b t db Hok); [lia|done]| |done].
  intros [] s' ((reg' & Hok') & Hq' & Hsame & Ht & Hl).
  pose proof (flush_left_same FIdle _ _ Hsame) as Hf'. destruct Hsame as (_ & _ & Hw & Hc' & He).
  assert (sections_left (sy_worker s') <= sections_left b - 1) as Hl' by (by destruct b).
  eapply wp_mono; [apply IH| |done].
  - split; [exists reg', (n + 1)|done|by rewrite Hc']. split; [done|]. split; [lia|]. unfold messages in *. rewrite Hf', Hw. lia.
  - done.
  - lia.
  - intros _ s2 (H1 & H2 & H3 & H4). split_and!; [done|done|congruence|congruence].
Qed.

End steady.

(** A state of the two threads with no flush under way is a start of such a run. *)
Lemma creachable_steady `{Libm} o n ops c turns :
  options_ok o -> creachable o n ops c -> n < 2 ^ 30 -> cs_flush c = FIdle -> quiet (cs_world c) ->
  let e := cs_engine c in
  steady o (n + len (MemTable.entries (Engine.memtable e)) + 5 + 7 * messages e) (counters e) FIdle
    (mkSystem e (cs_world c) (cs_compact c) turns) (spec_map ops).
Proof.
  intros Ho Hr Hn Hf Hq e. destruct (creachable_ok o n ops c Ho Hr Hn) as [reg Hok].
  assert (sections_left (cs_compact c) <= 5) by (destruct (cs_compact c); cbn; lia).
  destruct c as [e0 w0 f0 b0]. cbn in Hf. subst f0. split; [|done|done]. exists reg, n. split; [exact Hok|].
  split; [by eapply creachable_nonneg|]. cbn in *. lia.
Qed.

(** ** Sequences of calls *)

Inductive call :=
| Write (op : Operation)
| Get (key : bytes)
| Flush.

Definition call_valid (c : call) : Prop :=
  match c with
  | Write op => op_valid op
  | Get key => Engine.validate_key key = Ok tt
  | Flush => True
  end.

(** The calls one after the other, with the answers of the lookups. *)
Fixpoint run_calls `{Libm} (calls : list call) : M system (list (option bytes)) :=
  match calls with
  | [] => mret []
  | Write op :: calls' => let! _ := Owner.write op in run_calls calls'
  | Flush :: calls' => let! _ := Owner.flush in run_calls calls'
  | Get key :: calls' =>
      let! answer := Owner.get key in
      let! answers := run_calls calls' in
      mret (answer :: answers)
  end.

(** What a map says about them. *)
Fixpoint calls_spec (calls : list call) (db : gmap bytes bytes) : list (option bytes) * gmap bytes bytes :=
  match calls with
  | [] => ([], db)
  | Write op :: calls' => calls_spec calls' (op_spec op db)
  | Flush :: calls' => calls_spec calls' db
  | Get key :: calls' => let '(answers, db') := calls_spec calls' db in (db !! key :: answers, db')
  end.

Lemma run_calls_ok `{Libm} o budget c s db calls :
  options_ok o -> steady o budget c FIdle s db -> Forall call_valid calls -> budget + 15 * len calls < 2 ^ 30 ->
  wp (run_calls calls) (fun answers s' => answers = fst (calls_spec calls db) /\
    exists c', steady o (budget + 15 * len calls) c' FIdle s' (snd (calls_spec calls db))) never s.
Proof.
  intros Ho Hst Hall. revert budget c s db Hst.
  induction Hall as [|call calls Hc _ IH]; intros budget c s db Hst Hn; cbn [run_calls calls_spec].
  { apply wp_ret. split; [done|]. exists c. eapply steady_le; [|exact Hst]. unfold len. cbn [length]. lia. }
  rewrite len_cons in *. pose proof (len_nonneg calls). destruct call as [op|key|]; cbn [call_valid] in Hc; apply wp_bind.
  - eapply wp_mono; [apply (owner_write_ok o Ho _ _ _ _ _ Hst Hc); lia| |done]. intros [] s1 Hst1.
    eapply wp_mono; [apply (IH _ _ _ _ Hst1); lia| |done]. intros a s2 (-> & c' & H2). split; [done|].
    exists c'. eapply steady_le; [|exact H2]. lia.
  - eapply wp_mono; [apply (owner_get_ok o Ho _ _ _ _ _ Hst Hc); lia| |done]. intros r s1 (-> & c1 & Hst1).
    apply wp_bind. eapply wp_mono; [apply (IH _ _ _ _ Hst1); lia| |done]. intros a s2 (-> & c' & H2).
    apply wp_ret. destruct (calls_spec calls db) as [answers db']. split; [done|].
    exists c'. eapply steady_le; [|exact H2]. lia.
  - eapply wp_mono; [apply (owner_flush_ok o Ho _ _ _ _ Hst); lia| |done]. intros [] s1 Hst1.
    eapply wp_mono; [apply (IH _ _ _ _ Hst1); lia| |done]. intros a s2 (-> & c' & H2). split; [done|].
    exists c'. eapply steady_le; [|exact H2]. lia.
Qed.

(** ** Properties *)

(** C16: whole calls beside the worker.  From any point of the two threads at which
    no flush is under way and no failure is pending, and whatever turns the
    worker takes before each section of the calls, any sequence of valid writes,
    lookups and flushes returns [Ok], every lookup of the sequence answers as the
    map at that place of the sequence, and after a crash at its end the
    directory opens again to the map that the writes leave. *)
Theorem calls_refine_map `{Libm} o n ops c turns calls :
  options_ok o -> creachable o n ops c -> cs_flush c = FIdle -> quiet (cs_world c) -> Forall call_valid calls ->
  let e := cs_engine c in
  n + len (MemTable.entries (Engine.memtable e)) + 5 + 7 * messages e + 15 * len calls < 2 ^ 30 ->
  exists s', run_calls calls (mkSystem e (cs_world c) (cs_compact c) turns) =
      (Ok (fst (calls_spec calls (spec_map ops))), s') /\
    consistent (sy_engine s') (sy_world s') (snd (calls_spec calls (spec_map ops))) /\
    forall w2, crashed (sy_world s') w2 -> reopens o w2 (snd (calls_spec calls (spec_map ops))).
Proof.
  intros Ho Hr Hf Hq Hall e Hn. pose proof (len_nonneg (MemTable.entries (Engine.memtable e))).
  pose proof (messages_nonneg e). pose proof (len_nonneg calls).
  pose proof (creachable_steady o n ops c turns Ho Hr ltac:(lia) Hf Hq) as Hst. fold e in Hst.
  destruct (wp_run _ _ _ _ (run_calls_ok o _ _ _ _ calls Ho Hst Hall Hn))
    as [(? & s' & E & -> & c' & [(reg & m & (ol & v1 & vh & Hok) & _) _ _])|(? & ? & _ & [])].
  exists s'. split; [exact E|]. split.
  - eapply readable_consistent, (conc_readable _ _ _ _ _ _ _ _ Hok).
  - intros w2 Hc. eapply recovers_reopens, conc_crash; [exact Hok|apply Ho|done].
Qed.

#[local] Instance schedules_sizing : Libm := demo_libm.

(** The worker compacts the two tables of level 0 while a third one is flushed. *)
Definition witness_calls : list call :=
  [Write (Put [x61] [x31]); Flush; Write (Put [x61] [x32]); Flush; Write (Delete [x62]); Get [x61];
   Write (Put [x62] [x33]); Flush; Get [x62]].

Lemma calls_refine_map_witness :
  exists s', run_calls witness_calls (mkSystem (cs_engine (idle_at for_test empty_world))
      (cs_world (idle_at for_test empty_world)) CIdle (replicate 40 1%nat)) =
    (Ok [Some [x32]; Some [x33]], s') /\
    Manifest.tables (s_manifest (Engine.shared (sy_engine s'))) = [(3, 1); (4, 0)] /\
    reopens for_test (restart (sy_world s')) {[ [x61] := [x32]; [x62] := [x33] ]}.
Proof.
  destruct (calls_refine_map for_test 0 [] (idle_at for_test empty_world) (replicate 40 1%nat) witness_calls
    demo_options start_reachable) as (s' & E & _ & Hr);
    [reflexivity|split; reflexivity|repeat constructor; vm_compute; try split; (reflexivity || discriminate)
    |vm_compute; reflexivity|].
  exists s'. split; [exact E|]. split; [|apply (Hr (restart (sy_world s'))), crashed_restart].
  change s' with (snd (Ok (fst (calls_spec witness_calls (spec_map []))), s')). rewrite <- E. vm_compute. reflexivity.
Defined.
