(* ===== verification/Closing.v ===== *)
(** * Shutting an engine down ([src/engine.rs], [Engine::close])

    [Engine.close] waits for the compactions that the channel of the worker
    still holds and syncs the log; [Owner.close] also for the one that the
    worker is in the middle of.  The channel holds as many messages as flushes
    have sent, and every pending compaction still finds a fresh table id. *)

From S2P Require Import Prelude Bytes Errors Collections Records World Wal Memtable.
From S2P Require Import Bloom Cache Format Names SsTables TableWrite TableRead Manifests Merge.
From S2P Require Import Compaction Versions Engine EngineInv Recovery EngineOps Compacting EngineProps.
From S2P Require Import Threads Concurrent Effects Schedules.

(** ** Level 0 after a compaction *)

(** No compaction of level 0 is due. *)
Definition settled (o : Options) (v : Version.t) : Prop :=
  exists l0 rest, Version.levels v = l0 :: rest /\ (l0 = [] \/ len l0 < l0_compaction_trigger o).

Lemma compact_settles `{Libm} o reg n e w db s' w' :
  2 <= max_levels o -> engine_ok o reg n None e w db -> compact_once (Engine.shared e, w) = (Ok tt, (s', w')) ->
  settled o (s_version s').
Proof.
  intros Ho Hok Hc. destruct (engine_ok_cons _ _ _ _ _ _ _ Ho Hok) as (l0 & rest & El).
  pose proof (eo_levels _ _ _ _ _ _ _ Hok) as Hl. destruct (eo_options _ _ _ _ _ _ _ Hok) as [_ Ho2].
  apply compact_once_effect in Hc. rewrite Ho2 in Hc.
  destruct (pick_compaction (version_of e) o) as [job|] eqn:Ej.
  - destruct Hc as (out & _ & Hap); [intros t; by apply (pick_inputs _ o job t)|].
    pose proof (job_level _ o job Hl Ho Ej) as Hlvl. rewrite <- Hl in Hlvl.
    pose proof (apply_compaction_levels _ _ _ _ Hap Hlvl) as Hlev.
    destruct (Version.levels (s_version s')) as [|l0' rest'] eqn:El'.
    { exfalso. unfold apply_compaction in Hap. revert Hap. rewrite El. cbn [fmap list_fmap].
      set (d := Z.to_nat _). destruct (_ !! d) as [l|] eqn:Ed; rsimpl; [|done]. intros [= E]. rewrite <- E in El'. cbn in El'.
      apply (f_equal length) in El'. rewrite length_insert in El'. done. }
    exists l0', rest'. split; [done|]. destruct (Hlev 0%nat l0') as (l & Hli & E); [done|].
    rewrite El in Hli. injection Hli as <-. rewrite decide_False in E by lia.
    destruct (Z_lt_le_dec (len l0) (l0_compaction_trigger o)) as [Hlt|Hge]; [right|left].
    + rewrite E. pose proof (length_filter (fun t => SsTable.id t ∉ SsTable.id <$> inputs job) l0).
      unfold len in *. lia.
    + rewrite E. apply filter_none, Forall_forall. intros t Ht Hnot.
      apply Hnot, list_elem_of_fmap_2. by apply (due_level0_inputs (version_of e) o job l0 rest).
  - destruct Hc as [-> _]. exists l0, rest. split; [done|]. right. unfold pick_compaction in Ej. rewrite El in Ej.
    destruct (l0_compaction_trigger o <=? len l0) eqn:Et; [|lia]. by destruct (span l0).
Qed.

(** ** Closing *)

(** Neither the worker nor the recorded error matters to the invariant. *)
Lemma engine_ok_closed o reg n pend e w db worker slot :
  engine_ok o reg n pend e w db ->
  engine_ok o reg n pend
    (Engine.set_worker worker (Engine.set_shared (set_last_error slot (Engine.shared e)) e)) w db.
Proof. by intros []. Qed.

(** The messages one after the other, when nothing fails.  Once one of them was
    handled, level 0 is settled, and stays so. *)
Lemma worker_loop_ok `{Libm} o ms reg n e w db slot :
  options_ok o -> engine_ok o reg n None e w db -> n + len ms < 2 ^ 30 -> quiet w ->
  exists reg' s' w', worker_loop compact_once ms slot (Engine.shared e, w) = (Ok slot, (s', w')) /\
    engine_ok o reg' (n + len ms) None (Engine.set_shared s' e) w' db /\ quiet w' /\
    (settled o (s_version (Engine.shared e)) \/ head ms = Some Compact -> settled o (s_version s')).
Proof.
  intros Ho. revert reg n e w. induction ms as [|[|] ms IH]; intros reg n e w Hok Hn Hq.
  - exists reg, (Engine.shared e), w. split; [done|]. rewrite len_nil, Z.add_0_r.
    split; [by destruct e|]. split; [done|]. by intros [|].
  - rewrite len_cons in *. pose proof (len_nonneg ms).
    pose proof (engine_ok_le o reg n (n + 1) _ _ _ _ ltac:(lia) Hok) as Hok1.
    edestruct (wp_run Engine.compact (fun _ ew => exists reg',
      engine_ok o reg' (n + 1) None (fst ew) (snd ew) db /\ quiet (snd ew)) (fun _ _ => False) (e, w))
      as [([] & [e1 w1] & E & reg1 & Hok2 & Hq2)|(? & ? & _ & [])].
    { eapply wp_compact_once; [done|exact Hok1|lia|apply (eo_next _ _ _ _ _ _ _ Hok)| |by intros].
      intros reg' e' w' Hok' Hq'. exists reg'. split; [done|auto]. }
    unfold Engine.compact, Engine.on_shared, mzoom in E. cbn [fst snd] in *. cbn [worker_loop].
    destruct (compact_once (Engine.shared e, w)) as [r [s2 w2]] eqn:Ec. injection E as -> <- <-.
    apply (compact_settles o reg n e w db) in Ec as Hset; [|apply Ho|done].
    destruct (IH reg1 (n + 1) _ w2 Hok2 ltac:(lia) Hq2) as (reg' & s' & w' & E' & Hok' & Hq' & Hs').
    exists reg', s', w'. split; [exact E'|]. split; [by rewrite <- Z.add_assoc in Hok'|].
    split; [done|]. intros _. apply Hs'. by left.
  - exists reg, (Engine.shared e), w. split; [done|]. split; [|split; [done|by intros [|]]].
    pose proof (len_nonneg (Shutdown :: ms)). destruct e. by eapply (engine_ok_le _ _ n); [lia|].
Qed.

(** What [close] leaves when nothing fails. *)
Record closed (o : Options) (e e' : Engine.t) : Prop := {
  cl_worker : Engine.worker e' = CompactionWorker.stopped \/
    CompactionWorker.running (Engine.worker e) = false /\ Engine.worker e' = Engine.worker e;
  cl_error : Engine.compaction_error e' = Engine.compaction_error e;
  cl_settled : CompactionWorker.running (Engine.worker e) = true ->
    head (CompactionWorker.sent (Engine.worker e)) = Some Compact -> settled o (version_of e');
}.

Lemma close_ok `{Libm} o reg n e w db :
  options_ok o -> engine_ok o reg n None e w db -> n + 1 + messages e < 2 ^ 30 -> quiet w ->
  exists reg' e' w', Engine.close (e, w) = (Ok tt, (e', w')) /\ quiet w' /\
    engine_ok o reg' (n + 1 + messages e) None e' w' db /\ closed o e e'.
Proof.
  intros Ho Hok Hn Hq. unfold messages in *. pose proof (len_nonneg (CompactionWorker.sent (Engine.worker e))).
  assert (exists reg' e' w', Engine.shutdown (e, w) = (Ok tt, (e', w')) /\ quiet w' /\
    engine_ok o reg' (n + 1 + len (CompactionWorker.sent (Engine.worker e))) None e' w' db /\
    closed o e e') as (reg1 & e1 & w1 & E1 & Hq1 & Hok1 & Hcl).
  { unfold Engine.shutdown, CompactionWorker.shutdown, CompactionWorker.send.
    destruct (CompactionWorker.running (Engine.worker e)) eqn:Er; cbn [CompactionWorker.running CompactionWorker.sent].
    - destruct (worker_loop_ok o (CompactionWorker.sent (Engine.worker e) ++ [Shutdown]) reg n e w db
        (s_last_error (Engine.shared e)) Ho Hok) as (reg' & s' & w' & -> & Hok' & Hq' & Hset); [len_lia|done|].
      eexists reg', _, w'. split; [reflexivity|]. split; [done|]. split.
      + eapply engine_ok_closed in Hok'. rewrite len_app, len_cons, len_nil in Hok'.
        replace (n + 1 + _) with (n + (len (CompactionWorker.sent (Engine.worker e)) + (1 + 0))) by lia.
        exact Hok'.
      + split; cbn; [by left|done|]. intros _ Hh. apply Hset. right.
        by destruct (CompactionWorker.sent (Engine.worker e)).
    - rewrite Er. eexists reg, _, w. split; [reflexivity|]. split; [done|]. split.
      + eapply (engine_ok_le _ _ n); [lia|]. by eapply engine_ok_closed in Hok.
      + split; cbn; [right|done|]; [done|by rewrite Er]. }
  unfold Engine.close, mbind. rewrite E1. cbn [Engine.self fst].
  destruct (engine_ok_shape _ _ _ _ _ _ _ Hok1) as (ops & v & m & c & le & sk & rd & wk & -> & Hv & Hl).
  edestruct (wp_run (Engine.on_disk (Wal.sync (Wal.mk WAL_FILE_NAME))) (fun _ ew => exists w2,
    ew = (Engine.mk o (Wal.mk WAL_FILE_NAME) (replay_mem ops) None (mkShared o v m c le sk rd) wk, w2) /\
    w_files w2 = w_files w1 /\ quiet w2) (fun _ _ => False)) as [([] & ew & E & w2 & -> & Hw2 & Hq2)|(? & ? & _ & [])].
  - apply wp_eng_disk. destruct Hl as [_ Hfile]. eapply wp_sync; [exact Hfile| |by intros].
    intros w2 Hw2 Hq2. exists w2. split; [done|]. split; [|auto].
    cbn [f_data Wal.path] in Hw2. by rewrite Hw2, insert_id.
  - eexists reg1, _, w2. split; [exact E|]. split; [done|]. split; [|done].
    by eapply engine_ok_files.
Qed.

(** [Owner.close], wherever the worker is, after its last turns. *)
Lemma owner_close_ok `{Libm} o budget c s db :
  options_ok o -> steady o budget c FIdle s db -> budget + 1 < 2 ^ 30 ->
  exists reg n s0 s', yield s = (Ok tt, s0) /\ Owner.close s = (Ok tt, s') /\
    engine_ok o reg n None (sy_engine s') (sy_world s') db /\ closed o (sy_engine s0) (sy_engine s') /\
    sy_worker s' = CIdle.
Proof.
  intros Ho Hst Hlt. unfold Owner.close, mbind.
  destruct (wp_run _ _ _ _ (yield_ok o Ho budget c FIdle s db Hst ltac:(lia)))
    as [([] & s0 & -> & Hst0)|(? & ? & _ & [])]. clear s Hst.
  destruct (wp_run _ _ _ _ (worker_finish_ok o Ho 5 budget c s0 db Hst0 ltac:(lia) ltac:(destruct (sy_worker s0); cbn; lia)))
    as [([] & s1 & -> & Hst1 & Hb1 & Hw1 & He1)|(? & ? & _ & [])].
  destruct Hst1 as [(reg & n & Hok & Hn & Hb) Hq _]. destruct s1 as [e1 w1 b1 t1].
  cbn [sy_engine sy_world sy_worker] in *. subst b1. apply conc_rest in Hok.
  pose proof (flush_left_nonneg FIdle e1). pose proof (messages_nonneg e1). cbn [sections_left] in Hb.
  destruct (close_ok o reg n e1 w1 db Ho Hok ltac:(lia) Hq) as (reg' & e' & w' & E & _ & Hok' & Hcl).
  rewrite on_engine_run, E. eexists reg', _, s0, _. split; [reflexivity|]. split; [reflexivity|].
  split; [exact Hok'|]. split; [|done].
  destruct Hcl as [Hwk Herr Hset]. cbn [sy_engine]. split; [by rewrite <- Hw1|congruence|by rewrite <- Hw1].
Qed.

(** Whatever happened before: after a [close] that returned [Ok] the log is on
    stable storage. *)
Definition log_durable (e : Engine.t) (w : World) : Prop :=
  exists f, w_files w !! Wal.path (Engine.wal e) = Some f /\ f_durable f = f_data f.

Lemma sync_durable wal w w' :
  Wal.sync wal w = (Ok tt, w') -> exists f, w_files w' !! Wal.path wal = Some f /\ f_durable f = f_data f.
Proof.
  unfold Wal.sync, mbind. destruct (failpoints.should_fail WalSync w) as [[[]|x|] w1]; [done| |done|done].
  unfold sync_all, syscall, on_file, put_file. destruct (w_faults w1) as [|[k|] fs]; [|done|];
    cbn [set_faults w_files]; destruct (w_files w1 !! Wal.path wal) as [f|]; try done;
    intros [= <-]; eexists; (split; [apply lookup_insert_eq|done]).
Qed.

Lemma close_syncs `{Libm} s s' : Owner.close s = (Ok tt, s') -> log_durable (sy_engine s') (sy_world s').
Proof.
  unfold Owner.close, mbind. destruct (yield s) as [[[]|x|] s1]; [|done|done].
  destruct (worker_finish 5 s1) as [[[]|x|] [e2 w2 b2 t2]]; [|done|done]. rewrite on_engine_run.
  unfold Engine.close, mbind. destruct (Engine.shutdown (e2, w2)) as [[[]|x|] [e3 w3]]; [|done|done].
  unfold Engine.self, Engine.on_disk, mzoom. cbn [fst snd].
  destruct (Wal.sync (Engine.wal e3) w3) as [[[]|x|] w4] eqn:E; [|done|done]. intros [= <-].
  by apply sync_durable in E.
Qed.

(** ** Going out of scope *)

Lemma engine_eta e :
  Engine.set_worker (Engine.worker e)
    (Engine.set_shared (set_last_error (s_last_error (Engine.shared e)) (Engine.shared e)) e) = e.
Proof. by destruct e as [? ? ? ? [] ?]. Qed.

(** A stopped worker has nothing to do. *)
Lemma shutdown_stopped `{Libm} e w :
  CompactionWorker.running (Engine.worker e) = false -> Engine.shutdown (e, w) = (Ok tt, (e, w)).
Proof.
  intros Hr. unfold Engine.shutdown, CompactionWorker.shutdown, CompactionWorker.send. rewrite Hr. cbn beta iota.
  rewrite Hr. by rewrite engine_eta.
Qed.

(** A shutdown stops the worker, also when the worker had panicked. *)
Lemma shutdown_stops `{Libm} ew :
  CompactionWorker.running (Engine.worker (fst (snd (Engine.shutdown ew)))) = false /\
  fst (Engine.shutdown ew) <> Panic.
Proof.
  destruct ew as [e w]. destruct (CompactionWorker.running (Engine.worker e)) eqn:Hr;
    [|by rewrite shutdown_stopped].
  unfold Engine.shutdown, CompactionWorker.shutdown, CompactionWorker.send. rewrite Hr.
  cbn [CompactionWorker.running].
  by destruct (worker_loop _ _ _ _) as [[slot|x|] [s w1]].
Qed.

(** The fields that are dropped after the engine find nothing left to do, and so
    does the engine itself after [close]. *)
Theorem end_of_scope_once `{Libm} ew :
  Engine.end_of_scope ew = Engine.drop ew /\
  (fst (Engine.close ew) = Ok tt -> Engine.drop (snd (Engine.close ew)) = (Ok tt, snd (Engine.close ew))).
Proof.
  pose proof (shutdown_stops ew) as [Hs Hp]. split.
  - unfold Engine.end_of_scope, Engine.drop, mbind, mignore.
    destruct (Engine.shutdown ew) as [[[]|x|] [e w]]; cbn in Hs, Hp; [| |done];
      unfold CompactionWorker.drop, CompactionWorker.shutdown, CompactionWorker.send;
      rewrite Hs; cbn beta iota; rewrite Hs; by rewrite engine_eta.
  - unfold Engine.close, mbind. destruct (Engine.shutdown ew) as [[[]|x|] [e w]]; [|done|done].
    cbn [Engine.self fst snd] in *. unfold Engine.on_disk, mzoom. cbn [fst snd].
    destruct (Wal.sync (Engine.wal e) w) as [r w2]. cbn. intros _.
    unfold Engine.drop, mignore. by rewrite shutdown_stopped by done.
Qed.

(** ** Properties *)


#[local] Instance closing_sizing : Libm := demo_libm.

(** Two tables of level 0 and a request to compact them, while the worker has
    just planned their compaction. *)
Definition closing_turns : list action :=
  [AWrite (Put [x61] [x31])] ++ whole_flush ++ [AWrite (Put [x61] [x32])] ++ whole_flush ++
  [ACompact; ACompact; AWrite (Put [x62] [x33])].

Definition closing_ops : list Operation := [Put [x61] [x31]; Put [x61] [x32]; Put [x62] [x33]].

Definition planned_at : cstate :=
  match schedule closing_turns (0, [], idle_at for_test empty_world) with
  | Some (_, _, s) => s
  | None => idle_at for_test empty_world
  end.

Lemma planned_run : schedule closing_turns (0, [], idle_at for_test empty_world) = Some (17, closing_ops, planned_at).
Proof. vm_compute. reflexivity. Qed.

Definition closing : cstate :=
  let e := Engine.set_shared (set_last_error None (Engine.shared (cs_engine planned_at))) (cs_engine planned_at) in
  mkC (Engine.set_worker (CompactionWorker.mk [Compact] true) e) (cs_world planned_at) (cs_flush planned_at)
    (cs_compact planned_at).

Lemma closing_reachable : creachable for_test 18 closing_ops closing.
Proof.
  rewrite <- (app_nil_r closing_ops). replace 18 with (17 + cost planned_at (cs_flush closing)) by (vm_compute; reflexivity).
  eapply creach_step; [eapply schedule_reachable; [exact start_reachable|exact planned_run]|].
  unfold closing. destruct planned_at as [e w f b]. apply cstep_worker.
Qed.

