(* ===== verification/Statistics.v ===== *)
(** * The statistics of the workload driver ([src/bin/workload.rs])

    [mean], [percentile] and the lines that [main] prints, in [f64].  A line is
    its label and a value that is not formatted yet.  A percentile never indexes
    out of range, and it is the latency at the rank it asks for
    ([percentile_rank]). *)

From Stdlib Require SpecFloat.
From S2P Require Import Prelude Bytes Errors Floats.

(** [Duration], in nanoseconds. *)
Abbreviation Duration := Z (only parsing).

Definition NANOS_PER_SEC : Z := 1000000000.

(** [Duration::as_secs_f64]. *)
Definition as_secs_f64 (d : Duration) : float :=
  F64.add (F64.of_int (d / NANOS_PER_SEC))
    (F64.div (F64.of_int (d mod NANOS_PER_SEC)) (F64.of_int NANOS_PER_SEC)).

(** [Instant::elapsed], zero when the clock went back. *)
Definition elapsed (start now : Z) : Duration := Z.max 0 (now - start).

(** The literals [1.0], [1000.0], [0.50], [0.95] and [0.99]. *)
Definition one : float := F64.of_bits 0x3FF0000000000000.
Definition thousand : float := F64.of_bits 0x408F400000000000.
Definition p50 : float := F64.of_bits 0x3FE0000000000000.
Definition p95 : float := F64.of_bits 0x3FEE666666666666.
Definition p99 : float := F64.of_bits 0x3FEFAE147AE147AE.

(** The sum of [u64]s wraps around in a release build. *)
Definition mean (values : list Z) : float :=
  if len values =? 0 then F64.of_int 0
  else F64.div (F64.of_int (wrap64 (foldr Z.add 0 values))) (F64.of_int (len values)).

(** The index that [percentile] computes for a vector of [n] elements. *)
Definition percentile_index (n : Z) (p : float) : Z :=
  F64.as_usize (F64.round (F64.mul (F64.sub (F64.of_int n) one) p)).

Definition percentile (sorted : list Z) (p : float) : result float :=
  if len sorted =? 0 then Ok (F64.of_int 0)
  else
  let? x := index sorted (percentile_index (len sorted) p) in
  Ok (F64.of_int x).

(** [latencies.sort_unstable()]. *)
Definition sort_unstable (l : list Z) : list Z := merge_sort Z.le l.

(** [{:?}] of a string, [{}] of an integer, [{:.digits}] of an [f64]. *)
Inductive Cell :=
  | Quoted (s : string)
  | Count (n : Z)
  | Fixed (digits : nat) (x : float).

(** The lines that [main] prints. *)
Definition report (name : string) (ops bytes : Z) (total : Duration) (latencies : list Z)
    (bloom_skips sstable_reads : Z) : result (list (string * Cell)) :=
  let latencies := sort_unstable latencies in
  let ops_per_sec := F64.div (F64.of_int ops) (as_secs_f64 total) in
  let bytes_per_sec := F64.div (F64.of_int bytes) (as_secs_f64 total) in
  let? at_50 := percentile latencies p50 in
  let? at_95 := percentile latencies p95 in
  let? at_99 := percentile latencies p99 in
  Ok [("workload", Quoted name);
      ("ops", Count ops);
      ("elapsed_ms", Fixed 2 (F64.mul (as_secs_f64 total) thousand));
      ("ops_per_sec", Fixed 1 ops_per_sec);
      ("bytes_per_sec", Fixed 1 bytes_per_sec);
      ("avg_latency_us", Fixed 2 (F64.div (mean latencies) thousand));
      ("p50_latency_us", Fixed 2 (F64.div at_50 thousand));
      ("p95_latency_us", Fixed 2 (F64.div at_95 thousand));
      ("p99_latency_us", Fixed 2 (F64.div at_99 thousand));
      ("bloom_skips", Count bloom_skips);
      ("sstable_reads", Count sstable_reads)].

(** ** Ranks *)

Lemma one_exact : finite one /\ fval one = one64.
Proof. by vm_compute. Qed.

Lemma index_product n p :
  1 <= n <= 2 ^ 52 -> finite p -> fval p <= one64 ->
  rounds (F64.mul (F64.sub (F64.of_int n) one) p) ((n - 1) * one64 * fval p) one64.
Proof.
  intros Hn Hp Hle. destruct (of_int_exact n ltac:(lia)) as [Hf En]. destruct one_exact as [Hf1 E1].
  pose proof one64_pos as Hpos. pose proof (fval_nonneg p Hp).
  pose proof (sub_rounds (F64.of_int n) one Hf Hf1) as Hs. rewrite En, E1 in Hs.
  specialize (Hs ltac:(nia)). pose proof huge_big. assert (n * one64 < huge * one64) as Htop by nia.
  specialize (Hs Htop). pose proof (proj1 Hs) as Hfs.
  assert (fval (F64.sub (F64.of_int n) one) = (n - 1) * one64) as Es.
  { apply (rounds_exact _ _ 1); [|apply representable_int; lia].
    replace ((n - 1) * one64 * 1) with (n * one64 - one64) by lia. done. }
  rewrite <- Es. apply mul_rounds; [done|done|]. rewrite Es.
  rewrite Z.mul_assoc. apply Z.le_lt_trans with ((n - 1) * one64 * one64); [apply Z.mul_le_mono_nonneg_l; nia|].
  apply Z.mul_lt_mono_pos_r; [done|nia].
Qed.

(** The index is in range, less than one away from [(n - 1) * p]. *)
Lemma percentile_index_spec n p :
  1 <= n <= 2 ^ 52 -> finite p -> fval p <= one64 ->
  0 <= percentile_index n p <= n - 1 /\
  (percentile_index n p - 1) * one64 < (n - 1) * fval p < (percentile_index n p + 1) * one64.
Proof.
  intros Hn Hp Hle. pose proof (index_product n p Hn Hp Hle) as (Hf & Hlo & Hhi).
  pose proof one64_pos as Hpos. pose proof (fval_nonneg p Hp) as Hp0.
  unfold percentile_index. set (y := F64.mul _ _) in *. pose proof (fval_nonneg y Hf) as Hy0.
  assert (fval y <= (n - 1) * one64) as Hy by (apply Hhi; [apply representable_int; lia|apply Z.mul_le_mono_nonneg_l; nia]).
  rewrite as_usize_round by (done || nia). set (i := (2 * fval y + one64) / (2 * one64)).
  pose proof (Z.div_mod (2 * fval y + one64) (2 * one64) ltac:(lia)) as Hdm. fold i in Hdm.
  pose proof (Z.mod_pos_bound (2 * fval y + one64) (2 * one64) ltac:(lia)) as Hmod.
  assert (0 <= i <= n - 1) as Hi by (split; [apply Z.div_pos; lia|]; apply Z.lt_succ_r, Z.div_lt_upper_bound; nia).
  split; [done|]. clearbody i y. split.
  - destruct (decide (i = 0)) as [->|]; [nia|]. apply Z.nle_gt. intros Hc.
    specialize (Hhi ((i - 1) * one64) ltac:(apply representable_int; lia) ltac:(nia)). nia.
  - apply Z.nle_gt. intros Hc.
    specialize (Hlo ((i + 1) * one64) ltac:(apply representable_int; lia) ltac:(nia)). nia.
Qed.

(** ** Sorted vectors *)

Lemma sort_unstable_perm l : sort_unstable l ≡ₚ l.
Proof. apply merge_sort_Permutation. Qed.

Lemma sort_unstable_sorted l : StronglySorted Z.le (sort_unstable l).
Proof. apply StronglySorted_merge_sort; apply _. Qed.

(** The elements at an index of a sorted vector bound those before and after. *)
Lemma sorted_rank (l : list Z) (i : nat) (x : Z) :
  StronglySorted Z.le l -> l !! i = Some x ->
  (i < length (base.filter (fun y => (y <= x)%Z) l))%nat /\
  (length l - i <= length (base.filter (fun y => (x <= y)%Z) l))%nat.
Proof.
  intros Hs Hi. pose proof (lookup_lt_Some _ _ _ Hi) as Hlt. pose proof (take_drop_middle l i x Hi) as E.
  pose proof (length_take l i) as Ht. pose proof (length_drop l (S i)) as Hd.
  set (l1 := take i l) in *. set (l2 := drop (S i) l) in *. clearbody l1 l2. subst l.
  apply StronglySorted_app in Hs as (H1 & _ & [H2 _]%StronglySorted_cons).
  rewrite !filter_app, !filter_cons, !decide_True, !length_app by lia. cbn [length].
  assert (Forall (fun y => y <= x) l1) as F1.
  { apply Forall_forall. intros y Hy. apply H1; [done|by left]. }
  rewrite (filter_all _ l1 F1), (filter_all _ l2 H2). rewrite length_app in *. cbn in *. lia.
Qed.

Lemma perm_filter_length P `{!forall x, Decision (P x)} (l k : list Z) :
  l ≡ₚ k -> length (base.filter P l) = length (base.filter P k).
Proof. intros E. by rewrite E. Qed.

(** ** Properties *)

(** The number of latencies that satisfy [P]. *)
Definition count (P : Z -> Prop) `{!forall x, Decision (P x)} (l : list Z) : Z := len (base.filter P l).

Lemma percentile_at l p :
  l <> [] -> len l <= 2 ^ 52 -> finite p -> fval p <= one64 ->
  exists x, sort_unstable l !! Z.to_nat (percentile_index (len l) p) = Some x /\
    percentile (sort_unstable l) p = Ok (F64.of_int x).
Proof.
  intros Hne Hlen Hp Hle. assert (len (sort_unstable l) = len l) as El by (unfold len; by rewrite sort_unstable_perm).
  assert (1 <= len l) by (destruct l; [done|len_lia]).
  destruct (percentile_index_spec (len l) p ltac:(lia) Hp Hle) as [Hi _].
  destruct (lookup_lt_is_Some_2 (sort_unstable l) (Z.to_nat (percentile_index (len l) p))) as [x Hx].
  { unfold len in *. lia. }
  exists x. split; [done|]. unfold percentile, index. rewrite El. case_if; [lia|].
  rewrite (proj2 (Z.leb_le 0 _)), (proj2 (Z.ltb_lt _ (len l))) by lia. cbn. by rewrite Hx.
Qed.

(** *** The three that are printed *)

Lemma p_finite : Forall (fun p => finite p /\ fval p <= one64) [p50; p95; p99].
Proof. repeat constructor; by vm_compute. Qed.

(** The median is exact. *)
Lemma median_index n : 1 <= n <= 2 ^ 52 -> percentile_index n p50 = n / 2.
Proof.
  intros Hn. assert (finite p50 /\ 2 * fval p50 = one64) as [Hp Ep] by (by vm_compute).
  pose proof (index_product n p50 Hn Hp) as Hr. unfold percentile_index. set (y := F64.mul _ _) in *.
  pose proof one64_pos as Hpos. specialize (Hr ltac:(lia)).
  assert (fval y = (n - 1) * fval p50) as Ey.
  { apply (rounds_exact _ _ one64); [by replace ((n - 1) * fval p50 * one64) with ((n - 1) * one64 * fval p50) by ring|].
    exists (n - 1), 1073. split; [lia|]. split; [done|]. f_equal. }
  rewrite as_usize_round; [|apply Hr|nia].
  replace (2 * fval y + one64) with (n * one64) by lia. rewrite Z.div_mul_cancel_r; lia.
Qed.

(** The ranks are in order: by their distance for many elements, one by one for
    a few. *)
Lemma index_order n :
  1 <= n <= 2 ^ 52 -> percentile_index n p50 <= percentile_index n p95 <= percentile_index n p99.
Proof.
  intros Hn. destruct (decide (n < 64)) as [Hs|Hl].
  - assert (forallb (fun k => let n := Z.of_nat k in
      (percentile_index n p50 <=? percentile_index n p95) && (percentile_index n p95 <=? percentile_index n p99))
      (seq 1 64) = true) as Hall by (vm_compute; reflexivity).
    rewrite forallb_forall in Hall. specialize (Hall (Z.to_nat n)). rewrite in_seq, Z2Nat.id in Hall by lia.
    specialize (Hall ltac:(lia)). cbv zeta in Hall. reflect_bools. lia.
  - pose proof p_finite as Hp. rewrite !Forall_cons in Hp. destruct Hp as (_ & [F95 L95] & [F99 L99] & _).
    rewrite (median_index n Hn). pose proof (percentile_index_spec n p95 Hn F95 L95) as [_ [H1 H2]].
    pose proof (percentile_index_spec n p99 Hn F99 L99) as [_ [H3 H4]].
    assert (94 * one64 <= 100 * fval p95 /\ 100 * fval p95 + 3 * one64 <= 100 * fval p99) as [B1 B2] by (by vm_compute).
    pose proof one64_pos as Hpos. pose proof (Z.div_mod n 2). pose proof (Z.mod_pos_bound n 2). nia.
Qed.

Lemma sorted_lookup_le (l : list Z) i j x y :
  StronglySorted Z.le l -> (i <= j)%nat -> l !! i = Some x -> l !! j = Some y -> x <= y.
Proof.
  intros Hs Hij Hx Hy. destruct (decide (i = j)) as [->|]; [naive_solver lia|].
  rewrite <- (take_drop_middle l i x Hx) in Hs. apply StronglySorted_app in Hs as (_ & _ & [Hf _]%StronglySorted_cons).
  rewrite Forall_forall in Hf. apply Hf. apply list_elem_of_lookup_2 with (j - S i)%nat.
  rewrite lookup_drop. by replace (S i + (j - S i))%nat with j by lia.
Qed.

(** C33: a percentile is the latency at its rank.  For [n] latencies and a fraction
    [p] between 0 and 1, [percentile] of the sorted vector does not index out
    of range; it returns a latency that more than [i] of them do not exceed and
    that [n - i] of them reach, for a rank [i] less than one away from
    [(n - 1) * p]. *)
Theorem percentile_rank l p :
  l <> [] -> len l <= 2 ^ 52 -> finite p -> fval p <= one64 ->
  exists x i, percentile (sort_unstable l) p = Ok (F64.of_int x) /\ x ∈ l /\
    i < count (fun y => y <= x) l /\ len l - i <= count (fun y => x <= y) l /\
    (i - 1) * one64 < (len l - 1) * fval p < (i + 1) * one64.
Proof.
  intros Hne Hlen Hp Hle. destruct (percentile_at l p Hne Hlen Hp Hle) as (x & Hx & E).
  assert (1 <= len l) by (destruct l; [done|len_lia]).
  destruct (percentile_index_spec (len l) p ltac:(lia) Hp Hle) as [Hi Hr].
  exists x, (percentile_index (len l) p). destruct (sorted_rank _ _ _ (sort_unstable_sorted l) Hx) as [H1 H2].
  rewrite (perm_filter_length _ _ _ (sort_unstable_perm l)) in H1.
  rewrite (perm_filter_length _ _ _ (sort_unstable_perm l)), sort_unstable_perm in H2.
  split; [done|]. split; [by rewrite <- (sort_unstable_perm l); eapply list_elem_of_lookup_2|].
  unfold count, len in *. split_and!; lia.
Qed.

Lemma percentiles_at l :
  l <> [] -> len l <= 2 ^ 52 ->
  Forall (fun p => exists x, sort_unstable l !! Z.to_nat (percentile_index (len l) p) = Some x /\
    percentile (sort_unstable l) p = Ok (F64.of_int x)) [p50; p95; p99].
Proof.
  intros Hne Hlen. eapply Forall_impl; [apply p_finite|]. intros p [Hf Hl]. by apply percentile_at.
Qed.

(** The report is computed for any number of operations. *)
Lemma report_ok name ops bytes total l skips reads :
  len l <= 2 ^ 52 -> exists lines, report name ops bytes total l skips reads = Ok lines.
Proof.
  intros Hl. destruct (decide (l = [])) as [->|Hne]; [by eexists|]. pose proof (percentiles_at l Hne Hl) as Hp.
  rewrite !Forall_cons in Hp. destruct Hp as ((a & _ & Ea) & (b & _ & Eb) & (c & _ & Ec) & _).
  unfold report. rewrite Ea, Eb, Ec. by eexists.
Qed.

(** C39: the report.  For at most 2^52 latencies [main] computes every line of its
    report without a panic; the median is the latency at the middle of the
    sorted vector, and the three percentiles are latencies in increasing order. *)
Theorem report_percentiles name ops bytes total l skips reads :
  l <> [] -> len l <= 2 ^ 52 ->
  exists lines a b c, report name ops bytes total l skips reads = Ok lines /\
    lines !! 6%nat = Some ("p50_latency_us", Fixed 2 (F64.div (F64.of_int a) thousand)) /\
    lines !! 7%nat = Some ("p95_latency_us", Fixed 2 (F64.div (F64.of_int b) thousand)) /\
    lines !! 8%nat = Some ("p99_latency_us", Fixed 2 (F64.div (F64.of_int c) thousand)) /\
    sort_unstable l !! Z.to_nat (len l / 2) = Some a /\ a <= b <= c /\ b ∈ l /\ c ∈ l.
Proof.
  intros Hne Hlen. pose proof (percentiles_at l Hne Hlen) as Hp.
  rewrite !Forall_cons in Hp. destruct Hp as ((a & Ha & Ea) & (b & Hb & Eb) & (c & Hc & Ec) & _).
  assert (1 <= len l) by (destruct l; [done|len_lia]). pose proof (index_order (len l) ltac:(lia)) as Hord.
  unfold report. rewrite Ea, Eb, Ec. cbn [rbind]. eexists _, a, b, c. split_and!; try done.
  - by rewrite <- median_index by lia.
  - eapply sorted_lookup_le; [apply sort_unstable_sorted| |exact Ha|exact Hb]. lia.
  - eapply sorted_lookup_le; [apply sort_unstable_sorted| |exact Hb|exact Hc]. lia.
  - rewrite <- (sort_unstable_perm l). by eapply list_elem_of_lookup_2.
  - rewrite <- (sort_unstable_perm l). by eapply list_elem_of_lookup_2.
Qed.

(** Ten latencies. *)
Definition sample_latencies : list Z := [70; 10; 90; 30; 50; 20; 100; 40; 80; 60].

(** [p95] of ten is at the rank 9 of 0 to 9, the largest. *)
Lemma percentile_rank_witness :
  (exists x i, percentile (sort_unstable sample_latencies) p95 = Ok (F64.of_int x) /\ x ∈ sample_latencies /\
    i < count (fun y => y <= x) sample_latencies) /\
  percentile (sort_unstable sample_latencies) p95 = Ok (F64.of_int 100).
Proof.
  split; [|vm_compute; reflexivity].
  destruct (percentile_rank sample_latencies p95) as (x & i & E & Hx & Hi & _);
    [discriminate|vm_compute; discriminate|vm_compute; split; discriminate|vm_compute; discriminate|].
  exists x, i. split; [exact E|]. split; [exact Hx|exact Hi].
Defined.

Lemma report_percentiles_witness :
  exists lines a, report "random" 10 640 1000 sample_latencies 3 4 = Ok lines /\
    sort_unstable sample_latencies !! 5%nat = Some a /\
    lines !! 6%nat = Some ("p50_latency_us", Fixed 2 (F64.div (F64.of_int a) thousand)).
Proof.
  destruct (report_percentiles "random" 10 640 1000 sample_latencies 3 4) as (lines & a & b & c & E & H50 & _ & _ & Ha & _);
    [discriminate|vm_compute; discriminate|].
  exists lines, a. split; [exact E|]. split; [exact Ha|exact H50].
Defined.
