(* ===== verification/Workload.v ===== *)
(** * The workload generator ([src/bin/workload.rs])

    The driver parses its arguments, runs a stream of puts and gets that a
    xorshift generator chooses, flushes, reports and closes; every [unwrap] is a
    panic when the call failed.  The worker that [open_with] starts runs beside
    it: the schedule, a parameter, says how many sections the worker runs before
    each section of the driver ([Schedules]), so that compactions come between
    the puts, and between the sections of their flushes.  The clock is a
    parameter too, the reading of each call of [Instant::now] and [elapsed] in
    turn, and the result of [main] is the lines it prints.  [writes_of] is the
    stream of writes as a pure function, the reference for the run. *)

From stdpp Require Import pretty.
From S2P Require Import Prelude Bytes Errors Collections Records World Wal Memtable.
From S2P Require Import Bloom Cache Format Names SsTables TableWrite TableRead Manifests Merge.
From S2P Require Import Compaction Versions Engine EngineInv Recovery EngineOps Compacting EngineProps.
From S2P Require Import Threads Concurrent Effects Schedules Closing Floats Statistics.

Inductive Workload := Sequential | Random | ReadHeavy | WriteHeavy | Negative | Overwrite.

Definition parse_workload (name : string) : Workload :=
  if bool_decide (name = "sequential") then Sequential
  else if bool_decide (name = "read-heavy") then ReadHeavy
  else if bool_decide (name = "write-heavy") then WriteHeavy
  else if bool_decide (name = "negative") then Negative
  else if bool_decide (name = "overwrite") then Overwrite
  else Random.

Definition workload_name (workload : Workload) : string :=
  match workload with
  | Sequential => "sequential"
  | Random => "random"
  | ReadHeavy => "read-heavy"
  | WriteHeavy => "write-heavy"
  | Negative => "negative"
  | Overwrite => "overwrite"
  end.

(** ** Arguments *)

(** [str::parse::<usize>]: an optional [+], then at least one digit, and no
    overflow. *)
Fixpoint parse_digits (s : string) (acc : Z) : option Z :=
  match s with
  | EmptyString => Some acc
  | String c s' =>
      match digit c with
      | Some d =>
          let acc := acc * 10 + Z.of_N d in
          if acc <? 2 ^ 64 then parse_digits s' acc else None
      | None => None
      end
  end.

Definition parse_usize (s : string) : option Z :=
  let s := match s with
           | String c s' => if bool_decide (Ascii.N_of_ascii c = 43%N) then s' else s
           | EmptyString => s
           end in
  match s with EmptyString => None | _ => parse_digits s 0 end.

Record Args := mkArgs { a_workload : Workload; a_ops : Z; a_dir : string }.

Definition default_args : Args := mkArgs Random 20000 "data/bench".

Fixpoint parse_args (args : list string) (a : Args) : Args :=
  match args with
  | [] => a
  | arg :: rest =>
      if bool_decide (arg = "--workload") then
        let a' v := mkArgs (parse_workload v) (a_ops a) (a_dir a) in
        match rest with [] => a' "random" | v :: rest' => parse_args rest' (a' v) end
      else if bool_decide (arg = "--ops") then
        match rest with
        | [] => a
        | v :: rest' => parse_args rest' (mkArgs (a_workload a) (default (a_ops a) (parse_usize v)) (a_dir a))
        end
      else if bool_decide (arg = "--dir") then
        match rest with
        | [] => a
        | v :: rest' => parse_args rest' (mkArgs (a_workload a) (a_ops a) v)
        end
      else parse_args rest a
  end.

(** ** Keys *)

(** [x ^= x << 13; x ^= x >> 7; x ^= x << 17] on [u64]. *)
Definition xorshift (state : Z) : Z :=
  let x := state in
  let x := Z.lxor x (wrap64 (Z.shiftl x 13)) in
  let x := Z.lxor x (Z.shiftr x 7) in
  Z.lxor x (wrap64 (Z.shiftl x 17)).

(** [{:0width}]. *)
Definition zero_padded (width : nat) (n : Z) : string :=
  let s := pretty (Z.to_N n) in
  String.concat "" (replicate (width - String.length s) "0") +:+ s.

(** The key, and the state of the generator after the call. *)
Definition random_key (rng : Z) (space : Z) : string * Z :=
  let x := xorshift rng in ("key-" +:+ zero_padded 6 (x mod space), x).

Definition as_bytes (s : string) : bytes := String.list_byte_of_string s.

(** ** The run *)

(** [unwrap] and [expect]. *)
Definition munwrap {S A} (m : M S A) : M S A := fun s =>
  match m s with (Err _, s') => (Panic, s') | r => r end.

(** [db.put(..).unwrap()], and the count of the bytes. *)
Definition do_put `{Libm} (key : string) (value : bytes) (written : Z) : M system Z :=
  let! _ := munwrap (Owner.put (as_bytes key) value) in
  mret (wrap64 (written + (len (as_bytes key) + len value))).

Definition do_get `{Libm} (key : string) : M system unit :=
  let! _ := munwrap (Owner.get (as_bytes key)) in mret tt.

(** One iteration of the loop: [rng] and the bytes before and after. *)
Definition run_op `{Libm} (workload : Workload) (i rng written : Z) : M system (Z * Z) :=
  match workload with
  | Sequential =>
      let key := "key-" +:+ zero_padded 6 i in
      let! written := do_put key (replicate 64 x78) written in mret (rng, written)
  | Random =>
      let '(key, rng) := random_key rng 50000 in
      let! written := do_put key (replicate 64 x72) written in mret (rng, written)
  | ReadHeavy =>
      if i mod 10 =? 0 then
        let '(key, rng) := random_key rng 5000 in
        let! written := do_put key (replicate 32 x77) written in mret (rng, written)
      else
        let '(key, rng) := random_key rng 5000 in
        let! _ := do_get key in mret (rng, written)
  | WriteHeavy =>
      if i mod 5 =? 0 then
        let '(key, rng) := random_key rng 8000 in
        let! _ := do_get key in mret (rng, written)
      else
        let '(key, rng) := random_key rng 8000 in
        let! written := do_put key (replicate 64 x77) written in mret (rng, written)
  | Negative =>
      let key := "missing-" +:+ zero_padded 8 i in
      let! _ := do_get key in mret (rng, written)
  | Overwrite =>
      let key := "hot-" +:+ zero_padded 0 (i mod 64) in
      let! written := do_put key (replicate 64 x6f) written in mret (rng, written)
  end.

(** What [op_start.elapsed().as_nanos() as u64] gives in the [i]-th iteration,
    which reads the clock twice; the first reading is [start]. *)
Definition latency (clock : Z -> Z) (i : Z) : Z := wrap64 (elapsed (clock (2 * i + 1)) (clock (2 * i + 2))).

(** [for i in i..i + todo]. *)
Fixpoint run_ops `{Libm} (clock : Z -> Z) (workload : Workload) (todo : nat) (i rng written : Z)
    (latencies : list Z) : M system (Z * list Z) :=
  match todo with
  | O => mret (written, latencies)
  | S todo' =>
      let! (rng, written) := run_op workload i rng written in
      run_ops clock workload todo' (i + 1) rng written (latencies ++ [latency clock i])
  end.

Definition bench_options : Options := {|
  memtable_size_bytes := 512 * 1024;
  l0_compaction_trigger := 4;
  level_size_multiplier := level_size_multiplier default_options;
  max_levels := max_levels default_options;
  bloom_false_positive_rate := bloom_false_positive_rate default_options;
  block_size := block_size default_options;
  cache_size_bytes := cache_size_bytes default_options;
|}.

(** [fs::remove_dir_all]: a failure leaves some of the files. *)
Definition remove_dir_all : M World unit :=
  syscall (fun w => (Ok tt, set_files ∅ w))
    (fun n w => set_files (list_to_map (drop n (map_to_list (w_files w)))) w).

(** The calls on the engine from [open_with] to [close], beside its worker. *)
Definition with_engine {A} (db : Engine.t) (turns : list nat) (m : M system A) : M World A := fun w =>
  let '(r, s) := m (mkSystem db w CIdle turns) in (r, sy_world s).

(** [main], with the lines it prints as its result. *)
Definition main `{Libm} (clock : Z -> Z) (turns : list nat) (args : list string) : M World (list (string * Cell)) :=
  let a := parse_args args default_args in
  let! _ := mignore remove_dir_all in
  let! _ := munwrap create_dir_all in
  let! db := munwrap (Engine.open_with bench_options) in
  with_engine db turns (
    let! (written, latencies) := run_ops clock (a_workload a) (Z.to_nat (a_ops a)) 0 0xDEADBEEF 0 [] in
    let! _ := munwrap Owner.flush in
    let! e := on_engine Engine.self in
    let! lines := mlift (report (workload_name (a_workload a)) (a_ops a) written
      (elapsed (clock 0) (clock (2 * a_ops a + 1))) latencies
      (Engine.bloom_skips e) (Engine.sstable_reads e)) in
    let! _ := munwrap Owner.close in
    mret lines).

(** ** The reference *)

(** The write that the [i]-th iteration makes, if it makes one. *)
Definition write_of (workload : Workload) (i rng : Z) : option (string * bytes) :=
  match workload with
  | Sequential => Some ("key-" +:+ zero_padded 6 i, replicate 64 x78)
  | Random => Some (fst (random_key rng 50000), replicate 64 x72)
  | ReadHeavy => if i mod 10 =? 0 then Some (fst (random_key rng 5000), replicate 32 x77) else None
  | WriteHeavy => if i mod 5 =? 0 then None else Some (fst (random_key rng 8000), replicate 64 x77)
  | Negative => None
  | Overwrite => Some ("hot-" +:+ zero_padded 0 (i mod 64), replicate 64 x6f)
  end.

Definition draws (workload : Workload) : bool :=
  match workload with Random | ReadHeavy | WriteHeavy => true | _ => false end.

Fixpoint writes_of (workload : Workload) (todo : nat) (i rng : Z) : list Operation :=
  match todo with
  | O => []
  | S todo' =>
      match write_of workload i rng with
      | Some (key, value) => [Put (as_bytes key) value]
      | None => []
      end ++
      writes_of workload todo' (i + 1) (if draws workload then xorshift rng else rng)
  end.

(** The workloads without lookups. *)
Definition only_writes (workload : Workload) : bool :=
  match workload with Sequential | Random | Overwrite => true | _ => false end.

(** The latencies of the run, in order. *)
Fixpoint latencies_of (clock : Z -> Z) (todo : nat) (i : Z) : list Z :=
  match todo with O => [] | S todo' => latency clock i :: latencies_of clock todo' (i + 1) end.

Lemma length_latencies_of clock todo i : length (latencies_of clock todo i) = todo.
Proof. revert i. induction todo as [|todo IH]; intros i; [done|]. cbn. by rewrite IH. Qed.

Definition op_bytes_len (op : Operation) : Z :=
  match op with Put key value => len key + len value | Delete key => len key end.
Definition total_bytes (ops : list Operation) : Z := foldr (fun op acc => op_bytes_len op + acc) 0 ops.

(** ** Keys are valid *)

Lemma as_bytes_len s : len (as_bytes s) = Z.of_nat (String.length s).
Proof.
  unfold as_bytes, len. f_equal. induction s as [|c s IH]; [done|]. cbn. by f_equal.
Qed.

Lemma pretty_go_length k x s :
  (x < 10 ^ N.of_nat k)%N -> (String.length (pretty_N_go x s) <= k + String.length s)%nat.
Proof.
  revert x s. induction k as [|k IH]; intros x s Hx.
  { assert (x = 0)%N as -> by (change (10 ^ N.of_nat 0)%N with 1%N in Hx; lia). by rewrite pretty_N_go_0. }
  destruct (decide (x = 0)%N) as [->|]; [rewrite pretty_N_go_0; lia|].
  rewrite pretty_N_go_step by lia. etrans; [apply IH|cbn; lia].
  apply N.Div0.div_lt_upper_bound. by rewrite Nat2N.inj_succ, N.pow_succ_r' in Hx.
Qed.

Lemma zeros_length k : String.length (String.concat "" (replicate k "0")) = k.
Proof.
  induction k as [|k IH]; [done|]. cbn [replicate]. destruct k; [done|].
  change (S (String.length (String.concat "" (replicate (S k) "0"))) = S (S k)). by rewrite IH.
Qed.

Lemma zero_padded_length width n :
  0 <= n < 10 ^ 20 -> (width <= 20)%nat -> (String.length (zero_padded width n) <= 20)%nat.
Proof.
  intros Hn Hw. unfold zero_padded. rewrite length_append, zeros_length.
  assert (String.length (pretty (Z.to_N n)) <= 20)%nat; [|lia].
  unfold pretty, pretty_N. case_decide as E; [cbn; lia|].
  etrans; [apply (pretty_go_length 20)|cbn; lia]. change (10 ^ N.of_nat 20)%N with (Z.to_N (10 ^ 20)). lia.
Qed.

Definition valid_key (key : string) : Prop := as_bytes key <> [] /\ len (as_bytes key) <= 28.

Lemma prefixed_valid prefix width n :
  (1 <= String.length prefix <= 8)%nat -> 0 <= n < 10 ^ 20 -> (width <= 20)%nat ->
  valid_key (prefix +:+ zero_padded width n).
Proof.
  intros Hp Hn Hw. pose proof (zero_padded_length width n Hn Hw).
  assert (len (as_bytes (prefix +:+ zero_padded width n)) =
    Z.of_nat (String.length prefix + String.length (zero_padded width n))) as Hl
    by (by rewrite as_bytes_len, length_append).
  split; [|lia]. intros E. rewrite E, len_nil in Hl. lia.
Qed.

Lemma random_key_valid rng space : 0 < space < 10 ^ 20 -> valid_key (fst (random_key rng space)).
Proof.
  intros Hs. cbn [random_key fst]. apply prefixed_valid; [cbn; lia| |lia].
  pose proof (Z.mod_pos_bound (xorshift rng) space). lia.
Qed.

Lemma write_of_valid workload i rng key value :
  0 <= i < 10 ^ 20 -> write_of workload i rng = Some (key, value) ->
  valid_key key /\ len value <= 64.
Proof.
  intros Hi. unfold write_of. pose proof (Z.mod_pos_bound i 64 ltac:(lia)).
  destruct workload; [| |case_if; [|done]|case_if; [done|]|done|]; intros [= <- <-];
    (split; [|vm_compute; discriminate]);
    first [apply random_key_valid; lia | apply prefixed_valid; cbn; lia].
Qed.

(** ** One iteration *)

(** [unwrap] finds an [Ok]. *)
Lemma munwrap_ok {A} (m : M system A) (Q : A -> system -> Prop) s : wp m Q never s -> wp (munwrap m) Q never s.
Proof. unfold wp, munwrap. by destruct (m s) as [[a|x|] s']. Qed.

Section run.
Context `{Libm} (workload : Workload).
Hypothesis Ho : options_ok bench_options.

(** The engine between two iterations: its counters are still zero when the
    workload does not look anything up. *)
Definition running (budget : Z) (s : system) (db : gmap bytes bytes) : Prop :=
  exists c, steady bench_options budget c FIdle s db /\ (only_writes workload = true -> c = (0, 0)).

Lemma running_le budget budget' s db : budget <= budget' -> running budget s db -> running budget' s db.
Proof using. intros Hle (c & Hst & Hc). exists c. split; [by eapply steady_le|done]. Qed.

Lemma run_put key value written budget s db :
  running budget s db -> budget + 15 < 2 ^ 30 -> valid_key key -> len value <= 64 ->
  0 <= written -> written + 100 < 2 ^ 64 ->
  wp (do_put key value written) (fun n s' => n = written + op_bytes_len (Put (as_bytes key) value) /\
    running (budget + 15) s' (op_spec (Put (as_bytes key) value) db)) never s.
Proof using Ho.
  intros (c & Hst & Hc) Hn [Hne Hlen] Hval Hw1 Hw2. unfold do_put. apply wp_bind, munwrap_ok.
  eapply wp_mono; [apply (owner_write_ok _ Ho _ _ _ _ (Put (as_bytes key) value) Hst); [|done]| |done].
  { split; [split; cbn; unfold MAX_KEY_SIZE, MAX_VALUE_SIZE; lia|done]. }
  intros u s' Hst'. apply wp_ret. split; [|by exists c]. cbn [op_bytes_len].
  pose proof (len_nonneg (as_bytes key)). pose proof (len_nonneg value).
  rewrite ?wrap64_mod. apply Z.mod_small. lia.
Qed.

Lemma run_get key budget s db :
  running budget s db -> budget + 15 < 2 ^ 30 -> valid_key key -> only_writes workload = false ->
  wp (do_get key) (fun _ s' => running (budget + 15) s' db) never s.
Proof using Ho.
  intros (c & Hst & _) Hn [Hne Hlen] How. unfold do_get. apply wp_bind, munwrap_ok.
  eapply wp_mono; [apply (owner_get_ok _ Ho _ _ _ _ (as_bytes key) Hst); [|lia]| |done].
  { unfold Engine.validate_key. case_if; [by destruct Hne; apply len_0_nil|]. unfold MAX_KEY_SIZE. by case_if; [lia|]. }
  intros r s' (_ & c' & Hst'). apply wp_ret. exists c'. split; [eapply steady_le; [|exact Hst']; lia|].
  by rewrite How.
Qed.

(** The writes of one iteration. *)
Definition writes_at (i rng : Z) : list Operation :=
  match write_of workload i rng with Some (key, value) => [Put (as_bytes key) value] | None => [] end.

Definition next_rng (rng : Z) : Z := if draws workload then xorshift rng else rng.

Lemma run_op_ok i rng written budget s db :
  running budget s db -> budget + 15 < 2 ^ 30 -> 0 <= i < 10 ^ 20 -> 0 <= written -> written + 100 < 2 ^ 64 ->
  wp (run_op workload i rng written) (fun r s' => r = (next_rng rng, written + total_bytes (writes_at i rng)) /\
    running (budget + 15) s' (foldl (flip op_spec) db (writes_at i rng))) never s.
Proof using Ho.
  intros Hrun Hn Hi Hw1 Hw2.
  assert (forall key value (rng' : Z), write_of workload i rng = Some (key, value) -> rng' = next_rng rng ->
    wp (let! written := do_put key value written in mret (rng', written)) (fun r s' =>
      r = (next_rng rng, written + total_bytes (writes_at i rng)) /\
      running (budget + 15) s' (foldl (flip op_spec) db (writes_at i rng))) never s) as Hput.
  { intros key value rng' E ->. destruct (write_of_valid workload i rng key value Hi E) as [Hk Hv].
    unfold writes_at. rewrite E. apply wp_bind.
    eapply wp_mono; [by apply (run_put key value written budget s db)| |done].
    intros n s' [-> Hr]. apply wp_ret. split; [|done]. do 2 f_equal. cbn [total_bytes foldr]. lia. }
  assert (forall key (rng' : Z), write_of workload i rng = None -> rng' = next_rng rng -> valid_key key ->
    only_writes workload = false ->
    wp (let! _ := do_get key in mret (rng', written)) (fun r s' =>
      r = (next_rng rng, written + total_bytes (writes_at i rng)) /\
      running (budget + 15) s' (foldl (flip op_spec) db (writes_at i rng))) never s) as Hget.
  { intros key rng' E -> Hk How. unfold writes_at. rewrite E. apply wp_bind.
    eapply wp_mono; [by apply (run_get key budget s db)| |done].
    intros u s' Hr. apply wp_ret. split; [|done]. do 2 f_equal. cbn. lia. }
  unfold run_op, next_rng in *. destruct workload; cbn [draws write_of only_writes] in *.
  - by apply Hput.
  - by apply Hput.
  - destruct (i mod 10 =? 0); [by apply Hput|]. apply Hget; [done|done|apply random_key_valid; lia|done].
  - destruct (i mod 5 =? 0); [|by apply Hput]. apply Hget; [done|done|apply random_key_valid; lia|done].
  - apply Hget; [done|done| |done]. apply prefixed_valid; [cbn; lia|done|lia].
  - by apply Hput.
Qed.

Lemma writes_at_bytes i rng : 0 <= i < 10 ^ 20 -> 0 <= total_bytes (writes_at i rng) <= 92.
Proof using.
  intros Hi. unfold writes_at. destruct (write_of workload i rng) as [[key value]|] eqn:E; [|cbn; lia].
  destruct (write_of_valid workload i rng key value Hi E) as [[_ Hk] Hv]. cbn.
  pose proof (len_nonneg (as_bytes key)). pose proof (len_nonneg value). lia.
Qed.

Lemma total_bytes_app ops ops' : total_bytes (ops ++ ops') = total_bytes ops + total_bytes ops'.
Proof using. unfold total_bytes. induction ops as [|op ops IH]; [done|]. cbn [app foldr]. lia. Qed.

Lemma run_ops_ok clock todo i rng written lat budget s db :
  running budget s db -> budget + 15 * Z.of_nat todo < 2 ^ 30 -> 0 <= i -> i + Z.of_nat todo < 2 ^ 30 ->
  0 <= written <= 92 * i ->
  wp (run_ops clock workload todo i rng written lat) (fun r s' =>
    r = (written + total_bytes (writes_of workload todo i rng), lat ++ latencies_of clock todo i) /\
    running (budget + 15 * Z.of_nat todo) s' (foldl (flip op_spec) db (writes_of workload todo i rng))) never s.
Proof using Ho.
  revert i rng written lat budget s db.
  induction todo as [|todo IH]; intros i rng written lat budget s db Hrun Hn Hi Hit Hw; cbn [run_ops].
  { apply wp_ret. cbn. rewrite !Z.add_0_r, app_nil_r. done. }
  apply wp_bind. eapply wp_mono; [apply (run_op_ok i rng written budget s db Hrun); lia| |done].
  intros r s' [-> Hrun1]. pose proof (writes_at_bytes i rng ltac:(lia)) as Hb.
  eapply wp_mono; [apply (IH (i + 1) (next_rng rng) (written + total_bytes (writes_at i rng)) (lat ++ [latency clock i])
    (budget + 15) s' _ Hrun1); lia| |done].
  intros r s2 [-> Hrun2]. cbn [writes_of latencies_of]. fold (writes_at i rng) (next_rng rng).
  rewrite foldl_app, total_bytes_app. split; [by rewrite <- app_assoc, Z.add_assoc|].
  by eapply running_le; [|exact Hrun2]; lia.
Qed.

End run.

(** ** Properties *)

Lemma bench_options_ok `{Libm} :
  libm_ok -> options_ok bench_options.
Proof. intros Hs. split; [cbn; lia|cbn; lia|done]. Qed.

(** What [open_with] starts with. *)
Lemma open_starts o w e w' :
  Engine.open_with o w = (Ok e, w') -> Engine.worker e = CompactionWorker.start /\ counters e = (0, 0).
Proof.
  assert (forall {A} (m : M World A) (f : A -> M World Engine.t) w,
    (forall a w, f a w = (Ok e, w') -> Engine.worker e = CompactionWorker.start /\ counters e = (0, 0)) ->
    mbind m f w = (Ok e, w') -> Engine.worker e = CompactionWorker.start /\ counters e = (0, 0)) as Hbind.
  { intros A m f w0 Hf. unfold mbind. destruct (m w0) as [[a| |] w1]; [apply Hf|done|done]. }
  unfold Engine.open_with. do 6 (apply Hbind; clear w; intros ? w). by intros [= <- <-].
Qed.

Lemma open_running `{Libm} workload w turns :
  options_ok bench_options -> fresh_dir w ->
  exists e w', Engine.open_with bench_options w = (Ok e, w') /\
    running workload 0 (mkSystem e w' CIdle turns) ∅.
Proof.
  intros Ho Hf. edestruct (wp_run (Engine.open_with bench_options) (fun e w' => 
    engine_ok bench_options ∅ 0 None e w' ∅ /\ quiet w') (fun _ _ => False) w)
    as [(e & w' & E & Hok & Hq)|(? & ? & _ & [])].
  { eapply wp_open_fresh; [apply Ho|done|by intros]. }
  exists e, w'. split; [done|]. apply open_starts in E as [Hw Hc]. exists (0, 0). split; [|done].
  split; cbn [sy_engine sy_world sy_worker]; [|done|done]. exists ∅, 0. split; [by apply conc_idle|]. split; [done|].
  unfold messages. rewrite Hw. cbn [CompactionWorker.start CompactionWorker.sent sections_left].
  pose proof (eo_size _ _ _ _ _ _ _ Hok) as Hs. unfold layers in Hs. rewrite total_len_cons in Hs.
  unfold flush_left, len. cbn [length]. lia.
Qed.

(** [flush], the report and [close] at the end. *)
Lemma driver_finish_ok `{Libm} workload budget s db :
  options_ok bench_options -> running workload budget s db -> budget + 15 < 2 ^ 30 ->
  exists s1 s2 reg m, Owner.flush s = (Ok tt, s1) /\ Owner.close s1 = (Ok tt, s2) /\
    (only_writes workload = true -> counters (sy_engine s1) = (0, 0)) /\
    engine_ok bench_options reg m None (sy_engine s2) (sy_world s2) db.
Proof.
  intros Ho (c & Hst & Hc) Hn.
  destruct (wp_run _ _ _ _ (owner_flush_ok _ Ho _ _ _ _ Hst ltac:(lia))) as [([] & s1 & E1 & Hst1)|(? & ? & _ & [])].
  destruct (owner_close_ok bench_options (budget + 13) c s1 db Ho Hst1) as (reg & m & _ & s2 & _ & E2 & Hok & _); [lia|].
  exists s1, s2, reg, m. split_and!; [done|done| |done]. intros How. rewrite (sd_counters _ _ _ _ _ _ Hst1). by apply Hc.
Qed.


#[local] Instance workload_sizing : Libm := demo_libm.

