(* ===== verification/Findings.v ===== *)
(** * Runs in which the engine loses or resurrects data

    Concrete runs of the model, most with one failure of the file system, that
    show where the code departs from what its documentation promises.  The
    theorems of the other files state exactly under which conditions the
    promises hold; these runs violate one of the conditions. *)

From S2P Require Import Prelude Bytes Errors Collections Records World Wal Memtable.
From S2P Require Import Bloom Cache Format Names SsTables TableWrite TableRead Manifests Merge.
From S2P Require Import Compaction Versions Engine EngineInv Recovery EngineOps EngineProps Scan.

#[local] Instance findings_sizing : Libm := demo_libm.

(** ** Runs *)

Definition fresh : state := open_state for_test empty_world.
Definition put (k v : bytes) : state -> state := run_state (Engine.put k v).
Definition flush : state -> state := run_state Engine.flush.
Definition restarted (s : state) : state := open_state for_test (restart (st_world s)).

(** The failures to come: the call number [k] fails after [n] bytes. *)
Definition failing (k n : nat) (s : state) : state :=
  mkState (st_engine s) (set_faults (replicate k None ++ [Some n]) (st_world s)) (st_pending s).
Definition healed (s : state) : state :=
  mkState (st_engine s) (set_faults [] (st_world s)) (st_pending s).
Definition injected_failure (k : Kind) (s : state) : state :=
  mkState (st_engine s) (failpoints.inject k (st_world s)) (st_pending s).

Definition answer (k : bytes) (s : state) : result (option bytes) :=
  fst (Engine.get k (st_engine s, st_world s)).
Definition outcome (m : M Engine.EW unit) (s : state) : result unit :=
  fst (m (st_engine s, st_world s)).

Definition a : bytes := [x61].
Definition b : bytes := [x62].
Definition one : bytes := [x31].
Definition two : bytes := [x32].

(** ** A flush after a failed flush *)

Definition half_flushed : state := put b two (flush (injected_failure SsTableWrite (put a one fresh))).

(** A failed flush followed by a successful one loses data.
    The first flush fails and leaves its table in [immutable]; the second one
    succeeds, replaces [immutable] and truncates the log: the acknowledged
    write of [a] is gone, at once and after a restart. *)
Theorem second_flush_loses_writes :
  outcome Engine.flush (injected_failure SsTableWrite (put a one fresh)) =
    Err (injected "injected SSTable write failure") /\
  answer a half_flushed = Ok (Some one) /\
  outcome Engine.flush half_flushed = Ok tt /\
  answer a (flush half_flushed) = Ok None /\
  answer a (restarted (flush half_flushed)) = Ok None.
Proof. split_and!; vm_compute; reflexivity. Qed.

(** ** A write that failed *)

(** The sync fails: the write is reported as failed and is not visible, but its
    record is in the log and the write shows up after a restart. *)
Theorem failed_write_reappears :
  let s := injected_failure WalSync fresh in
  is_ok (outcome (Engine.put a one) s) = false /\
  answer a (put a one s) = Ok None /\
  answer a (restarted (put a one s)) = Ok (Some one).
Proof. cbv zeta. split_and!; vm_compute; reflexivity. Qed.

(** The device fails after three bytes of a record: nothing removes the
    fragment, and the next write, which is acknowledged, is appended behind it.
    After a restart the log does not parse, and the database does not open. *)
Theorem torn_append_poisons_log :
  let s := healed (put a one (failing 1 3 fresh)) in
  is_ok (outcome (Engine.put a one) (failing 1 3 fresh)) = false /\
  outcome (Engine.put b two) s = Ok tt /\
  fst (Engine.open_with for_test (restart (st_world (put b two s)))) = Err CorruptedRecord.
Proof. cbv zeta. split_and!; vm_compute; reflexivity. Qed.

(** ** A log with a corrupted length *)

(** The log of two puts, and the same log with one bit of the first record's
    key length changed. *)
Definition two_records : bytes := op_bytes (Put a one) ++ op_bytes (Put b two).
Definition flip_length (l : bytes) : bytes := <[6%nat := x01]> l.

(** The damaged record is complete, but its length now reaches beyond the end
    of the log: it passes for a torn tail, and both writes are dropped without
    an error. *)
Theorem corrupt_length_drops_log :
  WalIterator.collect (WalIterator.from_bytes two_records) = Ok [Put a one; Put b two] /\
  flip_length two_records <> two_records /\ len (flip_length two_records) = len two_records /\
  WalIterator.collect (WalIterator.from_bytes (flip_length two_records)) = Ok [].
Proof. split_and!; vm_compute; [reflexivity|discriminate|reflexivity|reflexivity]. Qed.

(** ** A torn manifest *)

(** A manifest record is cut short and the database goes on: the records that
    follow are not aligned, and the manifest is rejected by the next open. *)
Theorem torn_manifest_rejected :
  let s := healed (flush (failing 0 3 (put a one fresh))) in
  is_ok (outcome Engine.flush (failing 0 3 (put a one fresh))) = false /\
  outcome Engine.flush (put b two s) = Ok tt /\
  fst (Engine.open_with for_test (restart (st_world (flush (put b two s))))) = Err InvalidManifest.
Proof. cbv zeta. split_and!; vm_compute; reflexivity. Qed.

(** ** Compaction *)

(** Two versions of [a], one per table, and a compaction that is due. *)
Definition two_versions : state := flush (put a two (flush (put a one fresh))).

(** An interrupted compaction can bring old values back.
    The manifest records of a compaction are written one by one.  When the
    device fails between the removal of the newer input and that of the older
    one, the older one outranks the merged table after a restart: a value that
    was overwritten is back. *)
Theorem partial_compaction_is_stale :
  let s := failing 22 0 two_versions in
  answer a two_versions = Ok (Some two) /\
  is_ok (outcome Engine.compact s) = false /\
  answer a (restarted (run_state Engine.compact s)) = Ok (Some one).
Proof. cbv zeta. split_and!; vm_compute; reflexivity. Qed.

(** The input files of a successful compaction stay on the disk, and no later
    call refers to them: the copy of the version that the plan was made from
    still refers to every input when the count is tested ([remove_inputs_noop]
    is the general statement). *)
Theorem compacted_inputs_stay :
  let s := run_state Engine.compact two_versions in
  outcome Engine.compact two_versions = Ok tt /\
  Manifest.tables (s_manifest (Engine.shared (st_engine s))) = [(3, 1)] /\
  is_ok (fst (open_read "000001.sst" (st_world s))) = true /\
  is_ok (fst (open_read "000002.sst" (st_world s))) = true.
Proof. cbv zeta. split_and!; vm_compute; reflexivity. Qed.

(** ** Two compactions at once *)

(** The background thread plans and writes a compaction; its output is not
    installed yet. *)
Definition background_begins (s : state) : state :=
  match Engine.on_shared compact_begin (st_engine s, st_world s) with
  | (Ok p, (e, w)) => mkState e w p
  | (_, (e, w)) => mkState e w None
  end.
Definition background_finishes (s : state) : state :=
  match st_pending s with
  | Some p => run_state (Engine.on_shared (compact_finish p)) s
  | None => s
  end.

(** Two tables, a compaction of them under way, and then a deletion, an
    overwrite, a flush and a compaction on the calling thread. *)
Definition racing : state :=
  flush (put b two (run_state (Engine.delete a)
    (background_begins (flush (put b one (flush (put b one (put a one fresh)))))))).
Definition raced : state := background_finishes (run_state Engine.compact racing).

(** A call of [compact] that overlaps a background compaction resurrects data,
    without any failure.  The call merges newer tables than the background
    thread knows of and installs the result first; the background thread then
    adds its older output to the same level, where nothing removes it: the two
    tables overlap, the older one is searched first, and a deleted key and an
    overwritten value are back, also after a restart. *)
Theorem overlapping_compactions_resurrect :
  answer a racing = Ok None /\ answer b racing = Ok (Some two) /\
  outcome Engine.compact racing = Ok tt /\
  answer a (run_state Engine.compact racing) = Ok None /\
  answer a raced = Ok (Some one) /\ answer b raced = Ok (Some one) /\
  answer a (restarted raced) = Ok (Some one) /\
  Manifest.tables (s_manifest (Engine.shared (st_engine raced))) = [(5, 1); (3, 1)].
Proof. split_and!; vm_compute; reflexivity. Qed.

(** ** A scan after an error *)

(** A table of two blocks, and the first key deleted afterwards. *)
Definition deleted_key : state :=
  run_state (Engine.delete a) (flush (put b two (put a (replicate 300 x31) fresh))).

(** The items of the first two calls of [next], the device failing when the
    table's second block is read. *)
Definition two_items (s : state) : result (option (result (bytes * bytes)) * option (result (bytes * bytes))) :=
  fst ((let! it := scan (st_engine s) Unbounded Unbounded in
        let! (x, it) := EngineIterator.next it in
        let! (y, _) := EngineIterator.next it in
        mret (x, y)) (st_world s)).

(** The failed call has advanced the memtable, which had the tombstone, but not
    the table: the next call returns the deleted key with its old value. *)
Theorem scan_after_error_resurrects :
  answer a deleted_key = Ok None /\
  two_items (failing 2 0 deleted_key) =
    Ok (Some (Err device_error), Some (Ok (a, replicate 300 x31))).
Proof. split; vm_compute; reflexivity. Qed.
