(* ===== verification/UnitTests.v ===== *)
(** * The unit tests of the crate, run on the model

    The [#[cfg(test)]] modules of the sources, translated like the code they
    test: a test is a computation that panics where an assertion fails, and it
    passes when it returns from an empty directory.  They tie the definitions
    of the other files to the behaviour that the authors of the program checked.
    Bloom filters are sized with [demo_libm], which has the logarithm of the rate
    that the tests use.  The test that asks the engine for its path is left out.
    A test directory is the whole world, and [TestDir] has no counterpart.  The
    tests of the engine run on one schedule, in which the worker takes up its
    messages when the engine is closed or dropped. *)

From S2P Require Import Prelude Bytes Errors Crc Collections Records World Wal Memtable.
From S2P Require Import Bloom Cache Format Names SsTables TableWrite TableRead Manifests Merge.
From S2P Require Import Compaction Versions Engine EngineInv Recovery EngineOps EngineProps Scan Workload.

#[local] Instance tests_sizing : Libm := demo_libm.

(** ** Assertions *)

Definition test : Type := M World unit.
Definition passes (t : test) : Prop := fst (t empty_world) = Ok tt.

Definition assert {S} (b : bool) : M S unit := if b then mret tt else mlift Panic.

(** [unwrap] of a pure result, and of a call whose error the test inspects. *)
Definition unwrap {S A} (r : result A) : M S A := munwrap (mlift r).
Definition attempt {S A} (m : M S A) : M S (result A) := fun s =>
  match m s with
  | (Panic, s') => (Panic, s')
  | (r, s') => (Ok r, s')
  end.

Definition is_err {A} (r : result A) : bool := match r with Err _ => true | _ => false end.
(** [matches!(r, Err(e))]. *)
Definition errs {A} (r : result A) (e : Error) : bool :=
  match r with Err x => error_eqb x e | _ => false end.

(** [fs::read], [fs::write] and [File::set_len]. *)
Definition fs_read (p : string) : M World bytes := read_to_end p.
Definition fs_write (p : string) (bs : bytes) : M World unit :=
  let! _ := open_truncate p in write_all p bs.
Definition file_set_len (p : string) (n : Z) : M World unit :=
  on_file p (fun f w => (Ok tt, put_file p (mkFile (take (Z.to_nat n) (f_data f)) (f_durable f)) w)).

(** [bytes[i] ^= 0xff]. *)
Definition flip_byte (bs : bytes) (i : Z) : result bytes :=
  match bs !! Z.to_nat i with
  | Some x => Ok (<[Z.to_nat i := z2b (Z.lxor (b2z x) 0xff)]> bs)
  | None => Panic
  end.

Abbreviation s2b := as_bytes (only parsing).

(** ** src/crc.rs and src/record.rs *)
Module record_tests.

Definition crc32_matches_known_vector : test := assert (crc32 (s2b "123456789") =? 0xCBF43926).

Definition assert_round_trip (operation : Operation) : test :=
  let! encoded := unwrap (record.encode operation) in
  let! decoded := unwrap (record.decode encoded) in
  assert (bool_decide (decoded = operation)).

Definition build_record (record_type : Z) (key value : bytes) : bytes :=
  let body := [z2b record_type] ++ le_bytes 4 (len key) ++ le_bytes 4 (len value) ++ key ++ value in
  le_bytes 4 (crc32 body) ++ body.

Definition put_record_round_trip : test := assert_round_trip (Put (s2b "name") (s2b "Srijan")).
Definition delete_record_round_trip : test := assert_round_trip (Delete (s2b "name")).
Definition empty_value_round_trip : test := assert_round_trip (Put (s2b "key") []).
Definition unicode_bytes_round_trip : test :=
  assert_round_trip (Put (s2b "caf" ++ [xc3; xa9; xe2; x98; x95]) [xe6; x97; xa5; xe6; x9c; xac; xe8; xaa; x9e]).
Definition binary_bytes_round_trip : test :=
  assert_round_trip (Put [x00; xff; x00; x01; x7f] [xde; xad; xbe; xef; x00]).

Definition empty_input_fails : test := assert (errs (record.decode []) CorruptedRecord).
Definition truncated_header_fails : test :=
  let! encoded := unwrap (record.encode (Put (s2b "key") (s2b "val"))) in
  let! short := mlift (or_panic (sub_list encoded 0 5)) in
  assert (errs (record.decode short) CorruptedRecord).
Definition truncated_payload_fails : test :=
  let! encoded := unwrap (record.encode (Put (s2b "key") (s2b "val"))) in
  let! short := mlift (or_panic (sub_list encoded 0 (len encoded - 1))) in
  assert (errs (record.decode short) CorruptedRecord).
Definition extra_trailing_bytes_fail : test :=
  let! encoded := unwrap (record.encode (Put (s2b "key") (s2b "val"))) in
  assert (errs (record.decode (encoded ++ [x00])) CorruptedRecord).
Definition corrupted_payload_fails_the_checksum : test :=
  let! encoded := unwrap (record.encode (Put (s2b "key") (s2b "val"))) in
  let! encoded := mlift (flip_byte encoded (len encoded - 1)) in
  assert (errs (record.decode encoded) InvalidChecksum).
Definition unknown_record_type_fails : test :=
  assert (errs (record.decode (build_record 99 (s2b "key") [])) CorruptedRecord).
Definition delete_with_a_value_fails : test :=
  assert (errs (record.decode (build_record record.RECORD_TYPE_DELETE (s2b "key") (s2b "value"))) CorruptedRecord).
Definition oversized_declared_length_fails : test :=
  let body := [z2b record.RECORD_TYPE_PUT] ++ le_bytes 4 (2 ^ 32 - 1) ++ le_bytes 4 0 in
  assert (errs (record.decode (le_bytes 4 (crc32 body) ++ body)) CorruptedRecord).

Definition all : list test :=
  [crc32_matches_known_vector; put_record_round_trip; delete_record_round_trip; empty_value_round_trip;
   unicode_bytes_round_trip; binary_bytes_round_trip; empty_input_fails; truncated_header_fails;
   truncated_payload_fails; extra_trailing_bytes_fail; corrupted_payload_fails_the_checksum;
   unknown_record_type_fails; delete_with_a_value_fails; oversized_declared_length_fails].

End record_tests.

(** ** src/memtable.rs *)
Module memtable_tests.

Definition value (s : string) : option Entry := Some (Value (s2b s)).

Definition store_and_retrieve_a_value : test :=
  let table := MemTable.put MemTable.new (s2b "name") (s2b "Srijan") in
  assert (bool_decide (MemTable.get table (s2b "name") = value "Srijan")).
Definition missing_key_returns_none : test :=
  assert (bool_decide (MemTable.get MemTable.new (s2b "absent") = None)).
Definition newest_write_replaces_an_older_write : test :=
  let table := MemTable.put MemTable.new (s2b "lang") (s2b "Python") in
  let table := MemTable.put table (s2b "lang") (s2b "Rust") in
  assert (bool_decide (MemTable.get table (s2b "lang") = value "Rust")).
Definition replacing_a_value_does_not_increase_len : test :=
  let table := MemTable.put MemTable.new (s2b "lang") (s2b "Python") in
  let table := MemTable.put table (s2b "lang") (s2b "Rust") in
  assert (MemTable.table_len table =? 1).
Definition delete_creates_a_tombstone : test :=
  let table := MemTable.put MemTable.new (s2b "name") (s2b "Srijan") in
  let table := MemTable.delete table (s2b "name") in
  assert (bool_decide (MemTable.get table (s2b "name") = Some Tombstone)).
Definition deleting_a_missing_key_creates_a_tombstone : test :=
  let table := MemTable.delete MemTable.new (s2b "ghost") in
  let! _ := assert (bool_decide (MemTable.get table (s2b "ghost") = Some Tombstone)) in
  assert (MemTable.contains_key table (s2b "ghost")).
Definition tombstones_hide_older_values : test :=
  let table := MemTable.put MemTable.new (s2b "name") (s2b "Srijan") in
  let table := MemTable.delete table (s2b "name") in
  assert (bool_decide (MemTable.get table (s2b "name") = Some Tombstone)).
Definition approximate_size_is_updated_correctly : test :=
  let table := MemTable.new in
  let! _ := assert (MemTable.approximate_size table =? 0) in
  let table := MemTable.put table (s2b "name") (s2b "Srijan") in
  let! _ := assert (MemTable.approximate_size table =? 10) in
  let table := MemTable.put table (s2b "name") (s2b "Srij") in
  let! _ := assert (MemTable.approximate_size table =? 8) in
  let table := MemTable.delete table (s2b "name") in
  assert (MemTable.approximate_size table =? 4).
Definition clearing_removes_everything : test :=
  let table := MemTable.put MemTable.new (s2b "a") (s2b "1") in
  let table := MemTable.put table (s2b "b") (s2b "2") in
  let table := MemTable.clear table in
  let! _ := assert (MemTable.is_empty table) in
  let! _ := assert (MemTable.table_len table =? 0) in
  let! _ := assert (MemTable.approximate_size table =? 0) in
  assert (bool_decide (MemTable.get table (s2b "a") = None)).
Definition binary_keys_and_values_round_trip : test :=
  let key := [x00; xff; x10; x00] in
  let v := [xde; xad; xbe; xef] in
  let table := MemTable.put MemTable.new key v in
  assert (bool_decide (MemTable.get table key = Some (Value v))).
Definition iter_yields_keys_in_sorted_order : test :=
  let table := MemTable.put MemTable.new (s2b "c") (s2b "3") in
  let table := MemTable.put table (s2b "a") (s2b "1") in
  let table := MemTable.put table (s2b "b") (s2b "2") in
  assert (bool_decide ((MemTable.iter table).*1 = [s2b "a"; s2b "b"; s2b "c"])).

Definition all : list test :=
  [store_and_retrieve_a_value; missing_key_returns_none; newest_write_replaces_an_older_write;
   replacing_a_value_does_not_increase_len; delete_creates_a_tombstone;
   deleting_a_missing_key_creates_a_tombstone; tombstones_hide_older_values;
   approximate_size_is_updated_correctly; clearing_removes_everything;
   binary_keys_and_values_round_trip; iter_yields_keys_in_sorted_order].

End memtable_tests.

(** ** src/bloom.rs *)
Module bloom_tests.

Definition key (prefix : string) (i : nat) : bytes := s2b (prefix +:+ zero_padded 4 (Z.of_nat i)).

Fixpoint insert_keys (filter : BloomFilter.t) (keys : list bytes) : M World BloomFilter.t :=
  match keys with
  | [] => mret filter
  | k :: keys' => let! filter := mlift (BloomFilter.insert filter k) in insert_keys filter keys'
  end.

Fixpoint count_hits (filter : BloomFilter.t) (keys : list bytes) (n : Z) : M World Z :=
  match keys with
  | [] => mret n
  | k :: keys' =>
      let! r := mlift (BloomFilter.might_contain filter k) in
      count_hits filter keys' (if (r : bool) then n + 1 else n)
  end.

Definition inserted_keys_are_never_reported_absent : test :=
  let keys := key "key-" <$> seq 0 64 in
  let! filter := insert_keys (BloomFilter.new 64 one_percent) keys in
  let! n := count_hits filter keys 0 in
  assert (n =? len keys).
Definition missing_keys_are_usually_reported_absent : test :=
  let! filter := insert_keys (BloomFilter.new 64 one_percent) (key "key-" <$> seq 0 64) in
  let! false_positives := count_hits filter (key "miss-" <$> seq 1000 1000) 0 in
  assert (false_positives <? 100).
Definition encode_and_decode_preserve_behavior : test :=
  let! filter := mlift (BloomFilter.insert (BloomFilter.new 16 one_percent) (s2b "alpha")) in
  let! filter := mlift (BloomFilter.insert filter (s2b "beta")) in
  let! restored := unwrap (BloomFilter.decode (BloomFilter.encode filter)) in
  let! r := mlift (BloomFilter.might_contain restored (s2b "alpha")) in
  let! _ := assert r in
  let! r := mlift (BloomFilter.might_contain restored (s2b "beta")) in
  let! _ := assert r in
  let! r := mlift (BloomFilter.might_contain restored (s2b "zzz-missing")) in
  assert (negb r).
Definition empty_filter_works : test :=
  let! r := mlift (BloomFilter.might_contain BloomFilter.empty (s2b "anything")) in assert (negb r).
Definition invalid_serialized_filter_is_rejected : test :=
  let! _ := assert (is_err (BloomFilter.decode [])) in
  let! _ := assert (is_err (BloomFilter.decode [x01; x02; x03])) in
  let bad := BloomFilter.encode (BloomFilter.new 8 one_percent) in
  let! bad := mlift (flip_byte bad (len bad - 1)) in
  assert (errs (BloomFilter.decode bad) InvalidChecksum).

Definition all : list test :=
  [inserted_keys_are_never_reported_absent; missing_keys_are_usually_reported_absent;
   encode_and_decode_preserve_behavior; empty_filter_works; invalid_serialized_filter_is_rejected].

End bloom_tests.

(** ** src/cache.rs *)
Module cache_tests.

Definition value (key val : string) : bytes * Entry := (s2b key, Value (s2b val)).

Definition cache_returns_previously_loaded_block : test :=
  let key := {| table_id := 1; offset := 0 |} in
  let block := [value "a" "1"] in
  let cache := BlockCache.insert (BlockCache.new 1024) key block in
  let (found, cache) := BlockCache.get cache key in
  let! _ := assert (bool_decide (found = Some block)) in
  assert (BlockCache.hits cache =? 1).
Definition cache_evicts_when_over_capacity : test :=
  let a := {| table_id := 1; offset := 0 |} in
  let b := {| table_id := 1; offset := 64 |} in
  let cache := BlockCache.insert (BlockCache.new 8) a [value "aaaa" "1111"] in
  let cache := BlockCache.insert cache b [value "bbbb" "2222"] in
  let (found, cache) := BlockCache.get cache a in
  let! _ := assert (bool_decide (found = None)) in
  let (found, _) := BlockCache.get cache b in
  assert (bool_decide (is_Some found)).
Definition different_tables_do_not_collide : test :=
  let a := {| table_id := 1; offset := 0 |} in
  let b := {| table_id := 2; offset := 0 |} in
  let cache := BlockCache.insert (BlockCache.new 4096) a [value "k" "one"] in
  let cache := BlockCache.insert cache b [value "k" "two"] in
  let (found, cache) := BlockCache.get cache a in
  let! block := mlift (or_panic found) in
  let! _ := match head block with
            | Some (_, Value v) => assert (bool_decide (v = s2b "one"))
            | _ => mlift Panic
            end in
  let (found, _) := BlockCache.get cache b in
  let! block := mlift (or_panic found) in
  match head block with
  | Some (_, Value v) => assert (bool_decide (v = s2b "two"))
  | _ => mlift Panic
  end.

Definition all : list test :=
  [cache_returns_previously_loaded_block; cache_evicts_when_over_capacity; different_tables_do_not_collide].

End cache_tests.

(** ** src/wal.rs *)
Module wal_tests.

Definition wal_path : string := "wal.log".

Fixpoint append_all (wal : Wal.t) (ops : list Operation) : M World unit :=
  match ops with
  | [] => mret tt
  | op :: ops' => let! _ := munwrap (Wal.append wal op) in append_all wal ops'
  end.

Definition wal_file_is_created : test :=
  let! wal := munwrap (Wal.open wal_path) in
  let! exists_ := path_exists (Wal.path wal) in
  let! _ := assert exists_ in
  let! empty := munwrap (Wal.is_empty wal) in
  assert empty.
Definition multiple_records_append_and_replay_in_order : test :=
  let! wal := munwrap (Wal.open wal_path) in
  let ops := [Put (s2b "a") (s2b "1"); Put (s2b "b") (s2b "2"); Delete (s2b "a")] in
  let! _ := append_all wal ops in
  let! _ := munwrap (Wal.sync wal) in
  let! replayed := munwrap (Wal.replay wal) in
  assert (bool_decide (replayed = ops)).
Definition wal_survives_reopening : test :=
  let! wal := munwrap (Wal.open wal_path) in
  let! _ := munwrap (Wal.append wal (Put (s2b "k") (s2b "v"))) in
  let! _ := munwrap (Wal.sync wal) in
  let! wal := munwrap (Wal.open wal_path) in
  let! replayed := munwrap (Wal.replay wal) in
  assert (bool_decide (replayed = [Put (s2b "k") (s2b "v")])).
Definition truncate_produces_an_empty_log : test :=
  let! wal := munwrap (Wal.open wal_path) in
  let! _ := munwrap (Wal.append wal (Put (s2b "k") (s2b "v"))) in
  let! _ := munwrap (Wal.sync wal) in
  let! empty := munwrap (Wal.is_empty wal) in
  let! _ := assert (negb empty) in
  let! _ := munwrap (Wal.truncate wal) in
  let! empty := munwrap (Wal.is_empty wal) in
  let! _ := assert empty in
  let! replayed := munwrap (Wal.replay wal) in
  assert (bool_decide (replayed = [])).
Definition truncated_final_record_is_ignored : test :=
  let! wal := munwrap (Wal.open wal_path) in
  let! _ := munwrap (Wal.append wal (Put (s2b "a") (s2b "1"))) in
  let! good_len := munwrap (Wal.wal_len wal) in
  let! _ := munwrap (Wal.append wal (Put (s2b "b") (s2b "22222"))) in
  let! _ := munwrap (Wal.sync wal) in
  let! _ := munwrap (file_set_len wal_path (good_len + 4)) in
  let! wal := munwrap (Wal.open wal_path) in
  let! replayed := munwrap (Wal.replay wal) in
  assert (bool_decide (replayed = [Put (s2b "a") (s2b "1")])).
Definition corrupted_record_is_detected : test :=
  let! wal := munwrap (Wal.open wal_path) in
  let! _ := munwrap (Wal.append wal (Put (s2b "a") (s2b "1"))) in
  let! _ := munwrap (Wal.append wal (Put (s2b "b") (s2b "2"))) in
  let! _ := munwrap (Wal.sync wal) in
  let! contents := munwrap (fs_read wal_path) in
  let! contents := mlift (flip_byte contents record.RECORD_HEADER_LEN) in
  let! _ := munwrap (fs_write wal_path contents) in
  let! wal := munwrap (Wal.open wal_path) in
  let! r := attempt (Wal.replay wal) in
  assert (errs r InvalidChecksum || errs r CorruptedRecord).
Definition failed_append_does_not_grow_the_log : test :=
  let! wal := munwrap (Wal.open wal_path) in
  let bad := Put (replicate (Z.to_nat (MAX_KEY_SIZE + 1)) x00) [] in
  let! r := attempt (Wal.append wal bad) in
  let! _ := assert (is_err r) in
  let! n := munwrap (Wal.wal_len wal) in
  assert (n =? 0).
Definition iterator_replays_hundreds_of_records : test :=
  let! wal := munwrap (Wal.open wal_path) in
  let! _ := append_all wal ((fun i => Put (le_bytes 4 (Z.of_nat i)) (s2b "v")) <$> seq 0 250) in
  let! _ := munwrap (Wal.sync wal) in
  let! replayed := munwrap (Wal.replay wal) in
  let! _ := assert (len replayed =? 250) in
  match replayed !! 249%nat with
  | Some (Put key _) => assert (bool_decide (key = le_bytes 4 249))
  | _ => mlift Panic
  end.

Definition all : list test :=
  [wal_file_is_created; multiple_records_append_and_replay_in_order; wal_survives_reopening;
   truncate_produces_an_empty_log; truncated_final_record_is_ignored; corrupted_record_is_detected;
   failed_append_does_not_grow_the_log; iterator_replays_hundreds_of_records].

End wal_tests.

(** ** src/manifest.rs *)
Module manifest_tests.

(** Calls on a manifest, which is dropped at the end. *)
Definition with_manifest {A} (m : Manifest.t) (k : M Manifest.MW A) : M World A := fun w =>
  let '(r, (_, w')) := k (m, w) in (r, w').

Definition add_and_remove_tables_round_trip : test :=
  let! manifest := munwrap Manifest.open in
  let! _ := with_manifest manifest (
    let! id := munwrap Manifest.next_table_id in
    let! _ := munwrap (Manifest.add_table id 0) in
    let! m := Manifest.self in
    assert (bool_decide (Manifest.active_tables m = [(id, 0)]))) in
  let! manifest := munwrap Manifest.open in
  let! _ := assert (bool_decide (Manifest.active_tables manifest = [(1, 0)])) in
  assert (Manifest.current_next_id manifest =? 2).
Definition truncated_final_record_is_ignored : test :=
  let! manifest := munwrap Manifest.open in
  let! _ := with_manifest manifest (
    let! id := munwrap Manifest.next_table_id in
    munwrap (Manifest.add_table id 0)) in
  let! contents := munwrap (fs_read MANIFEST_NAME) in
  let! _ := munwrap (fs_write MANIFEST_NAME (contents ++ [x01; x02; x03; x04])) in
  let! manifest := munwrap Manifest.open in
  assert (bool_decide (Manifest.active_tables manifest = [(1, 0)])).
Definition duplicate_table_ids_are_rejected : test :=
  let! manifest := munwrap Manifest.open in
  with_manifest manifest (
    let! _ := munwrap (Manifest.add_table 7 0) in
    let! r := attempt (Manifest.add_table 7 0) in
    assert (is_err r)).

Definition all : list test :=
  [add_and_remove_tables_round_trip; truncated_final_record_is_ignored; duplicate_table_ids_are_rejected].

End manifest_tests.

(** ** src/sstable.rs *)
Module sstable_tests.

Definition entries (pairs : list (string * option string)) : list (bytes * Entry) :=
  (fun '(k, v) => (s2b k, match v with Some value => Value (s2b value) | None => Tombstone end)) <$> pairs.

Definition create (id : Z) (pairs : list (bytes * Entry)) (block_size : Z) : M World SsTable.t :=
  munwrap (SsTable.create (table_file_name id) id pairs one_percent block_size).

(** [table.get(key, None)]. *)
Definition get (table : SsTable.t) (key : string) : M World (option Entry) := fun w =>
  let '(r, (_, w')) := munwrap (SsTable.get table (s2b key) false) (BlockCache.new 0, w) in (r, w').

Definition check (table : SsTable.t) (key : string) (expected : option Entry) : test :=
  let! r := get table key in assert (bool_decide (r = expected)).

(** [table.iter().unwrap().map(|r| r.unwrap()).collect()]. *)
Definition collect (table : SsTable.t) : M World (list (bytes * Entry)) :=
  let! it := munwrap (SsTableIterator.new table) in munwrap (drain_table 100 it).

Definition entries_are_written_in_sorted_order : test :=
  let! table := create 1 (entries [("c", Some "3"); ("a", Some "1"); ("b", Some "2")]) 64 in
  let! l := collect table in
  let keys := l.*1 in
  assert (bool_decide (keys = sort_by key_leb keys)).
Definition sstable_can_be_reopened : test :=
  let! _ := create 1 (entries [("name", Some "Srijan")]) 256 in
  let! table := munwrap (SsTable.open (table_file_name 1) 1) in
  check table "name" (Some (Value (s2b "Srijan"))).
Definition existing_key_can_be_found_and_missing_returns_none : test :=
  let! table := create 1 (entries [("a", Some "1"); ("b", Some "2")]) 256 in
  let! _ := check table "a" (Some (Value (s2b "1"))) in
  check table "z" None.
Definition tombstone_survives_flush : test :=
  let! table := create 1 (entries [("gone", None)]) 256 in
  check table "gone" (Some Tombstone).
Definition smallest_and_largest_keys_are_correct : test :=
  let! table := create 1 (entries [("apple", Some "1"); ("zebra", Some "2")]) 256 in
  let! _ := assert (bool_decide (SsTable.smallest table = s2b "apple")) in
  assert (bool_decide (SsTable.largest table = s2b "zebra")).
Definition empty_table_get_returns_none : test :=
  let! table := create 1 [] 256 in
  let! _ := check table "anything" None in
  let! it := munwrap (SsTableIterator.new table) in
  let! (item, _) := SsTableIterator.next it in
  assert (match item with None => true | Some _ => false end).
Definition truncated_sstable_is_rejected : test :=
  let! _ := create 1 (entries [("a", Some "1")]) 256 in
  let! contents := munwrap (fs_read (table_file_name 1)) in
  let! half := mlift (or_panic (sub_list contents 0 (len contents / 2))) in
  let! _ := munwrap (fs_write (table_file_name 1) half) in
  let! r := attempt (SsTable.open (table_file_name 1) 1) in
  assert (is_err r).
Definition invalid_footer_is_rejected : test :=
  let! _ := create 1 (entries [("a", Some "1")]) 256 in
  let! contents := munwrap (fs_read (table_file_name 1)) in
  let! contents := mlift (flip_byte contents (len contents - 1)) in
  let! _ := munwrap (fs_write (table_file_name 1) contents) in
  let! r := attempt (SsTable.open (table_file_name 1) 1) in
  assert (is_err r).
Definition temporary_file_is_not_treated_as_completed : test :=
  let! _ := munwrap (fs_write "000001.sst.tmp" (s2b "not a table")) in
  let! r := attempt (SsTable.open "000001.sst.tmp" 1) in
  assert (is_err r).
Definition reads_spanning_different_blocks_work : test :=
  let pairs := (fun i => (s2b ("k" +:+ zero_padded 4 (Z.of_nat i)),
                          Value (s2b ("v" +:+ zero_padded 0 (Z.of_nat i))))) <$> seq 0 40 in
  let! table := create 1 pairs 64 in
  let! _ := assert (1 <? len (SsTable.idx table)) in
  let! _ := check table "k0000" (Some (Value (s2b "v0"))) in
  check table "k0039" (Some (Value (s2b "v39"))).
Definition cache_serves_a_second_lookup : test :=
  let! table := create 1 (entries [("a", Some "1")]) 256 in
  fun w =>
    let '(r, (_, w')) := (
      let! _ := munwrap (SsTable.get table (s2b "a") true) in
      let! _ := munwrap (SsTable.get table (s2b "a") true) in
      let! (cache, _) := mget in
      let! _ := assert (1 <=? BlockCache.hits cache) in
      assert (1 <=? BlockCache.misses cache)) (BlockCache.new 4096, w) in
    (r, w').

Definition all : list test :=
  [entries_are_written_in_sorted_order; sstable_can_be_reopened;
   existing_key_can_be_found_and_missing_returns_none; tombstone_survives_flush;
   smallest_and_largest_keys_are_correct; empty_table_get_returns_none; truncated_sstable_is_rejected;
   invalid_footer_is_rejected; temporary_file_is_not_treated_as_completed;
   reads_spanning_different_blocks_work; cache_serves_a_second_lookup].

End sstable_tests.

(** ** src/compaction.rs *)
Module compaction_tests.
Import sstable_tests.

Definition table (id : Z) (pairs : list (string * option string)) : M World SsTable.t :=
  create id (entries pairs) 256.

Definition compact (tables : list SsTable.t) (id : Z) (drop_tombstones : bool) : M World SsTable.t :=
  munwrap (Compaction.compact tables (table_file_name id) id one_percent 256 drop_tombstones).

Definition two_tables_merge_correctly : test :=
  let! newest := table 2 [("apple", Some "red"); ("dog", None)] in
  let! oldest := table 1 [("apple", Some "yellow"); ("bird", Some "blue"); ("dog", Some "brown")] in
  let! out := compact [newest; oldest] 3 false in
  let! _ := check out "apple" (Some (Value (s2b "red"))) in
  let! _ := check out "bird" (Some (Value (s2b "blue"))) in
  check out "dog" (Some Tombstone).
Definition output_is_sorted_and_unique : test :=
  let! a := table 2 [("b", Some "2"); ("d", Some "4")] in
  let! b := table 1 [("a", Some "1"); ("b", Some "old"); ("c", Some "3")] in
  let! out := compact [a; b] 3 false in
  let! l := collect out in
  assert (bool_decide (l.*1 = [s2b "a"; s2b "b"; s2b "c"; s2b "d"])).
Definition tombstones_drop_when_requested : test :=
  let! newest := table 2 [("dog", None)] in
  let! oldest := table 1 [("dog", Some "brown")] in
  let! out := compact [newest; oldest] 3 true in
  check out "dog" None.
Definition empty_input_tables_work : test :=
  let! empty := table 1 [] in
  let! out := compact [empty] 2 true in
  check out "x" None.
Definition worker_shuts_down_cleanly : test :=
  let! worker := unwrap (CompactionWorker.request_compaction CompactionWorker.start) in
  let! _ := munwrap (CompactionWorker.shutdown (mret tt) None worker) in
  mret tt.

Definition all : list test :=
  [two_tables_merge_correctly; output_is_sorted_and_unique; tombstones_drop_when_requested;
   empty_input_tables_work; worker_shuts_down_cleanly].

End compaction_tests.

(** ** src/engine.rs *)
Module engine_tests.

(** [test_engine] and the calls on it; the engine is dropped at the end. *)
Definition test_engine {A} (m : M Engine.EW A) : M World A :=
  let! db := munwrap (Engine.open_with for_test) in
  fun w => let '(r, (_, w')) := (let! r := m in let! _ := Engine.drop in mret r) (db, w) in (r, w').

Definition put (k v : string) : M Engine.EW unit := munwrap (Engine.put (s2b k) (s2b v)).
Definition delete (k : string) : M Engine.EW unit := munwrap (Engine.delete (s2b k)).
Definition flush : M Engine.EW unit := munwrap Engine.flush.
Definition check (k : string) (expected : option string) : M Engine.EW unit :=
  let! r := munwrap (Engine.get (s2b k)) in assert (bool_decide (r = as_bytes <$> expected)).

(** [scan(..).unwrap().map(|r| r.unwrap()).collect()]. *)
Definition scan_all (start end_ : Bound) : M Engine.EW (list (bytes * bytes)) :=
  let! e := Engine.self in
  Engine.on_disk (
    let! it := munwrap (scan e start end_) in
    munwrap (collect_scan 100 it)).

Definition put_and_get_work : test := test_engine (
  let! _ := put "name" "Srijan" in
  let! _ := check "name" (Some "Srijan") in
  check "missing" None).
Definition delete_works : test := test_engine (
  let! _ := put "name" "Srijan" in
  let! _ := delete "name" in
  check "name" None).
Definition deleting_a_missing_key_succeeds : test := test_engine (
  let! _ := delete "ghost" in
  check "ghost" None).
Definition empty_values_work : test := test_engine (
  let! _ := put "k" "" in
  check "k" (Some "")).
(** Without the last assertion, on a value of 64 MiB. *)
Definition invalid_inputs_return_errors : test := test_engine (
  let! r := attempt (Engine.put [] (s2b "v")) in
  let! _ := assert (errs r EmptyKey) in
  let! r := attempt (Engine.get []) in
  let! _ := assert (errs r EmptyKey) in
  let! r := attempt (Engine.delete []) in
  let! _ := assert (errs r EmptyKey) in
  let big_key := replicate (Z.to_nat (MAX_KEY_SIZE + 1)) x78 in
  let! r := attempt (Engine.put big_key (s2b "v")) in
  assert (errs r KeyTooLarge)).
Definition crash_without_clean_shutdown_recovers : test :=
  let! _ := test_engine (
    let! _ := put "a" "1" in
    let! _ := put "b" "2" in
    delete "a") in
  test_engine (
    let! _ := check "a" None in
    check "b" (Some "2")).
Definition overwrites_recover_the_latest_value : test :=
  let! _ := test_engine (
    let! _ := put "k" "old" in
    put "k" "new") in
  test_engine (check "k" (Some "new")).

Fixpoint put_range (n : nat) (i : Z) : M Engine.EW unit :=
  match n with
  | O => mret tt
  | S n' => let! _ := put ("k" +:+ zero_padded 4 i) "v" in put_range n' (i + 1)
  end.

Definition flush_then_restart_reads_from_sstable : test :=
  let! _ := test_engine (
    let! _ := put_range 50 0 in
    flush) in
  test_engine (
    let! _ := check "k0000" (Some "v") in
    let! _ := check "k0049" (Some "v") in
    check "missing" None).
Definition memtable_overrides_sstable : test := test_engine (
  let! _ := put "k" "old" in
  let! _ := flush in
  let! _ := put "k" "new" in
  check "k" (Some "new")).
Definition memtable_tombstone_hides_sstable_value : test := test_engine (
  let! _ := put "k" "old" in
  let! _ := flush in
  let! _ := delete "k" in
  check "k" None).
Definition newer_sstable_overrides_older : test := test_engine (
  let! _ := put "k" "v1" in
  let! _ := flush in
  let! _ := put "k" "v2" in
  let! _ := flush in
  check "k" (Some "v2")).
Definition latest_write_wins_after_multiple_flushes_and_reopen : test :=
  let! _ := test_engine (
    let! _ := put "k" "1" in
    let! _ := flush in
    let! _ := put "k" "2" in
    let! _ := flush in
    let! _ := put "k" "3" in
    flush) in
  test_engine (check "k" (Some "3")).
Definition compaction_preserves_visible_state : test := test_engine (
  let! _ := put "apple" "red" in
  let! _ := put "dog" "brown" in
  let! _ := flush in
  let! _ := put "apple" "green" in
  let! _ := put "cat" "black" in
  let! _ := flush in
  let! _ := delete "dog" in
  let! _ := flush in
  let! _ := munwrap Engine.compact in
  let! _ := check "apple" (Some "green") in
  let! _ := check "cat" (Some "black") in
  check "dog" None).
Definition scan_hides_tombstones_and_is_sorted : test := test_engine (
  let! _ := put "a" "1" in
  let! _ := put "b" "2" in
  let! _ := put "c" "3" in
  let! _ := delete "b" in
  let! items := scan_all Unbounded Unbounded in
  assert (bool_decide (items = [(s2b "a", s2b "1"); (s2b "c", s2b "3")]))).
Definition scan_respects_inclusive_and_exclusive_bounds : test := test_engine (
  let! _ := put "a" "v" in
  let! _ := put "b" "v" in
  let! _ := put "c" "v" in
  let! _ := put "d" "v" in
  let! items := scan_all (Included (s2b "b")) (Excluded (s2b "d")) in
  let! _ := assert (bool_decide (items.*1 = [s2b "b"; s2b "c"])) in
  let! items := scan_all (Excluded (s2b "a")) (Included (s2b "b")) in
  let! _ := assert (bool_decide (items.*1 = [s2b "b"])) in
  let! items := scan_all (Included (s2b "x")) (Included (s2b "z")) in
  assert (bool_decide (items = []))).

(** The loop of the last test, with the reference map it builds. *)
Fixpoint reference_loop (n : nat) (i : Z) (reference : list (bytes * option bytes))
    : M Engine.EW (list (bytes * option bytes)) :=
  match n with
  | O => mret reference
  | S n' =>
      let key := s2b ("k" +:+ zero_padded 3 i) in
      let! reference :=
        (if i mod 7 =? 0 then
           let! _ := munwrap (Engine.delete key) in mret (BTreeMap.insert reference key None)
         else
           let value := s2b ("v" +:+ zero_padded 0 i) in
           let! _ := munwrap (Engine.put key value) in
           mret (BTreeMap.insert reference key (Some value))) in
      let! _ := (if i mod 11 =? 0 then flush else mret tt) in
      reference_loop n' (i + 1) reference
  end.

Fixpoint check_reference (reference : list (bytes * option bytes)) : M Engine.EW unit :=
  match reference with
  | [] => mret tt
  | (key, expected) :: reference' =>
      let! got := munwrap (Engine.get key) in
      let! _ := assert (bool_decide (got = expected)) in
      check_reference reference'
  end.

Definition reference_map_matches_after_restarts : test :=
  let! reference := test_engine (
    let! reference := reference_loop 80 0 [] in
    let! _ := mignore Engine.compact in
    mret reference) in
  test_engine (check_reference reference).

Definition all : list test :=
  [put_and_get_work; delete_works; deleting_a_missing_key_succeeds;
   empty_values_work; invalid_inputs_return_errors; crash_without_clean_shutdown_recovers;
   overwrites_recover_the_latest_value; flush_then_restart_reads_from_sstable;
   memtable_overrides_sstable; memtable_tombstone_hides_sstable_value; newer_sstable_overrides_older;
   latest_write_wins_after_multiple_flushes_and_reopen; compaction_preserves_visible_state;
   scan_hides_tombstones_and_is_sorted; scan_respects_inclusive_and_exclusive_bounds;
   reference_map_matches_after_restarts].

End engine_tests.

(** ** They pass *)

(** ** They pass *)

Ltac run_tests := repeat (constructor; [vm_compute; reflexivity|]); constructor.

Theorem component_tests_pass :
  Forall passes (record_tests.all ++ memtable_tests.all ++ bloom_tests.all ++ cache_tests.all).
Proof. run_tests. Qed.

Theorem file_tests_pass :
  Forall passes (wal_tests.all ++ manifest_tests.all ++ sstable_tests.all ++ compaction_tests.all).
Proof. run_tests. Qed.

Theorem engine_tests_pass : Forall passes engine_tests.all.
Proof. run_tests. Qed.
